(* ===== verification/_CoqProject ===== *)
-Q . S2P
Prelude.v
Messages.v
Interfaces.v
EngineUtils.v
Lru.v
FixedQueue.v
Users.v
ContractManager.v
RequestGroup.v
RequestScheduler.v
Process.v
ProcessManager.v
Turns.v
Engine.v
Flow.v
Once.v
Pools.v
Protocol.v
Gas.v
TimeStatics.v
Reports.v
Clients.v
SimContext.v
RuntimeHandler.v
Runtime.v
Streams.v
RequestPool.v
EndToEnd.v
EngineConfig.v
Instances.v
EngineServices.v
RuntimeStreams.v
Connections.v
Reconnect.v
Servers.v
Startup.v
Logger.v
