(* ===== verification/Prelude.v ===== *)
(** * A verification library for the ChainMaker docker-vm engine

    ** The program

    docker-vm executes smart contracts of a blockchain in sandboxed processes. A chain
    node (the Go files at the top of [src] and in [src/rpc], [src/gas] and [src/utils])
    sends each transaction over a stream to the engine ([src/vm_mgr]), which runs in a
    container, keeps a bounded number of sandbox processes, each under a Linux user of
    its own, loads the contracts' executables from the chain, and returns the result of
    each transaction. While it runs, a contract asks the chain node for state; the chain
    node charges gas for these calls.

    The parts of the engine are goroutines that own their state and exchange messages:

    - the request scheduler takes every message of the chain, creates one request group
      per contract version of a chain and hands transactions to it;
    - a request group buffers the transactions of one contract until the contract's file
      is loaded, then puts them into the channel of the original transactions or of the
      cross-contract calls, and asks the process manager of that kind for processes;
    - a process manager (there are two, one for each kind) keeps the idle and the busy
      processes, gives processes to the groups, launches, hands over and releases
      processes, and remembers the groups that wait;
    - a process drives one sandbox: it takes transactions from its group's channel, sends
      them to the sandbox, watches the time, and accounts for the exit of the sandbox;
    - the contract manager keeps the files of the contracts in a bounded cache;
    - the user manager hands out Linux users through a queue of fixed capacity.

    ** The files

    - [Prelude]: Go errors, outcomes, the state monad of the handlers, channels as
      sequences with a capacity, association lists, machine integers, schedules.
    - [Messages]: the messages of [vm_mgr/pb] and [vm_mgr/messages] the engine reads.
    - [Interfaces]: [vm_mgr/interfaces] as classes: what a component promises to its
      clients, on an abstract state; the clients' theorems are proved against it.
    - [EngineUtils]: [vm_mgr/utils/utils.go], the keys of contracts and names of processes.
    - [Lru]: [vm_mgr/utils/lru.go], the linked list with its map of elements.
    - [FixedQueue]: [vm_mgr/utils/fixed_queue.go], the two channels of the queue and the
      interleavings of concurrent calls as a step relation.
    - [Users]: [user.go] and [user_manager.go] of [vm_mgr/module/core]; batch creation is
      a pool of goroutines under any schedule.
    - [ContractManager]: [contract_manager.go], the cache, the directory on disk and the
      loop over its two channels.
    - [RequestGroup]: [request_group.go]; [RequestScheduler]: [request_scheduler.go].
    - [Process]: [process.go]: the state machine of a process with its timer, the channels
      it selects on, the launch and the exit of the sandbox with the deferred functions.
    - [ProcessManager]: [process_manager.go]: the caches over a heap of shared processes,
      and the goroutines a handler starts (create, take over, release, put idle, launch).
      [Turns]: the same one turn of one goroutine at a time, for what happens between them.
    - [Engine]: [vm_mgr/module/manager.go]: the composition. The two process managers
      share the users, round by round or turn by turn; the components are instances of the
      classes of [Interfaces].
    - [Flow]: scheduler, groups, processes and sandboxes running together, with the channels
      between them; [Once]: the same with an account of where requests come from and where
      they are; [Protocol]: the types of the messages the components send one another.
    - [Pools]: [vm_mgr/utils/pbpool.go]: the messages of the engine as objects that are taken
      from a pool, shared by reference and reset, for the loops of the processes and the
      services; the other files pass messages as values.
    - [Gas]: [gas.go], [gas_old.go] and [gas2312.go] of [src/gas]: the price of every
      operation for every block version, with unsigned 64-bit arithmetic.
    - [TimeStatics]: [src/utils/time_statics.go], the durations of system calls and of the
      transactions of a block, as shared objects with a pool; [Reports]: what is printed of
      them and of the steps of a transaction, on both sides.
    - [Clients]: the client manager, its clients and the runtime service of [src/rpc]: the
      tables that lead a message to its invocation, with any number of invocations at once.
    - [SimContext]: what the handlers use of the chain: a class of operations, a class of
      their documented laws, and an instance.
    - [RuntimeHandler]: [src/runtime_handler.go], every handler of a system call.
    - [Runtime]: [src/runtime.go], [Invoke] with its loop; [RequestPool]: the messages of its
      requests as objects of [dockerVMMsgPool], with the channel they are sent from and the
      clients that take, mark and send them.
    - [EndToEnd]: the chain's side and the engine together, from an invocation to the sandbox.
    - [EngineConfig]: [vm_mgr/config/config.go], the settings and their environment variables.
    - [Instances]: [src/instance_manager.go], the start of the chain's side.
    - [Streams]: the two goroutines, stop channels and wait group of a gRPC stream;
      [EngineServices]: the chain service and the sandbox service of [vm_mgr/module/rpc];
      [RuntimeStreams]: the stream of a sandbox and the client of the engine in [src/rpc];
      [Connections]: the goroutines with which the client manager connects; [Reconnect]: how
      it replaces connections that are lost.
    - [Servers]: the servers of both sides with their listeners and options over an operating
      system, and the address a client dials; [Startup]: [vm_mgr/main.go], the order of
      [NewManager], [InitContainer] and the security settings; [Logger]: the loggers, and the
      log of a sandbox.

    Each file holds a [Module] of its own name. A struct is a [Record] with the fields of
    the source; a method is a [Definition] of the source's name in the monad [M] of
    [Prelude], whose outcome is a value, a panic, or waiting for ever; a loop that selects
    on channels is a step on a sum of events, and reachability is an inductive relation
    over such steps. Shared objects (the processes, which both their goroutine and the
    managers change) live in a heap indexed by references.

    ** What the theorems show

    - The managers: as long as every signal reaches its process, the request groups are known and
      take their responses ([good_env]), in every reachable state the caches agree with one
      another and with the processes' own states, the number of processes stays within the
      limit, handlers do not panic and answer the groups that asked with the number of
      processes found ([ProcessManager]); between any two turns of the goroutines of both
      managers each user has at most one process, and the users created at start suffice
      for both managers together ([Engine]). A failed kill breaks these, as theorems show.
    - The whole system: a contract call that the chain makes reaches at most one sandbox, once,
      with its key, contract, method and parameters, and the sandbox was launched from that
      contract ([EndToEnd]). It rests on the parts: the keys of the invocations differ
      ([Clients]), the requests are sent as they were asked unless an invocation returns before its
      request has been sent ([RequestPool]), a request is in one
      place at a time although processes give transactions back ([Once]), and a sandbox is
      only sent transactions of the contract it was launched from, although processes are
      handed over while their listeners wait ([Flow]).
    - No component sends another a message it does not take ([Protocol]); the engine with
      message objects and their pool refines the engine with values, and no message
      in the pool is in use ([Pools]).
    - The transactions: a group neither loses nor duplicates a transaction, has at most
      one request for processes outstanding with each manager, moves buffered
      transactions in order, and answers all of them when the contract cannot be loaded
      ([RequestGroup]); the scheduler routes a transaction only to the group of its chain,
      contract and version, and forwards the other messages in order ([RequestScheduler]);
      a process and its manager agree on who is idle, also when signals fail, the timer is never
      waited for in vain, and the exit of a sandbox answers its transaction, tells the manager
      and the scheduler what they need and starts what has to be started again ([Process]).
    - The containers: the cache refines a list ordered by recency ([Lru]); the queue keeps
      each element exactly once in any interleaving ([FixedQueue]); batch creation of users
      returns and makes each user available once ([Users]); every file of the directory of
      contracts is in the bounded cache, was written by the chain since, or could not be
      removed ([ContractManager]).
    - Gas: the accounting is exact for every sequence of charged operations ([Gas]).
    - The chain's side: a message of the engine or of a sandbox reaches the channel of its own
      invocation only ([Clients]); every well-formed system call gets exactly one answer of
      its type, put into the channel of the sandbox's stream when there is room, the gas of a
      result is within the limit and no other contract changes, when the contract calls no other
      ([Runtime]); the response of a transaction is merged exactly, an iterator is
      found again under the index the contract was given, and a prefix iterator ranges over
      the keys with the prefix ([RuntimeHandler]); the durations of cross-contract calls hang
      under their callers ([TimeStatics]).
    - The edges: a connection of the chain ends cleanly and keeps the order of its messages,
      the stream of a sandbox is bound to the process it names ([EngineServices]); a client of
      the engine reports its end once ([RuntimeStreams]) and the client manager has all its
      connections when its start returns ([Connections]); settings survive their way through
      the environment ([EngineConfig]); the directories the engine needs exist ([Instances]).
    - The life of the connections and servers: every lost connection is replaced, so that their
      number is kept ([Reconnect]); a listener is created in at most two rounds whatever a
      former run has left, and the server for sandboxes is what the instance managers rely on
      ([Servers]); the servers of the engine are stopped exactly when the container could not be
      hardened ([Startup]).
    - The reports: a transaction is reported as slow exactly when the times between its steps,
      or from its first to its last, exceed the limits; a report can always be made, and that of
      a block does not depend on the order of its map ([Reports]); all loggers have the level of
      the first ([Logger]).
    - Defects the model shows, each as a theorem on the definitions: a late failure response
      stops a group, a failed send is answered twice, a failed kill during a hand-over makes
      the manager panic, the cleaning of idle processes stops for good once there was
      nothing to clean, a second launch hangs after a control-group failure, a queue can
      keep an element while a call waits, a bytecode response without payload panics, a
      size limit below one file refuses every contract, gas starts again from zero after a
      call that was refused, the empty prefix panics, a response can wait for ever after
      its stream has ended, an error in the environment is dropped, a server that could not
      be created makes the next chain's start panic, a transaction that comes while the
      engine starts makes it panic, a late error is sent on a closed channel, a lost
      connection can stay in the table, failed attempts leave connections open, the last
      line of a sandbox's output is lost when it does not end, a request that waits to be sent
      when its invocation times out is overwritten by the next one, and stopping the client
      manager while it connects can abort the program.

    ** Bounds, fuel and schedules

    No theorem rests on a fuel that may run out: the loop that creates a listener is shown to
    need two rounds, the recursion over nested calls no more than there are objects, and the
    copy of a sandbox's output one round more than it has lines. Goroutines are finite state
    machines; a group of them runs under an explicit schedule, a list of goroutine numbers, and the
    theorems quantify over all schedules, so also over those that stop anywhere. Theorems
    of termination state which schedules suffice. Channel capacities are those of the
    source; a send on a full channel is an outcome of its own. Taking a user when there is
    none is a step that leaves the goroutine where it is, to be tried again. The
    counters of the process manager are unsigned 64-bit integers that name processes;
    its invariants hold for every run of fewer than [2 ^ 64 / (2 * max)] events, after
    which names could repeat; and those of the client manager for fewer than [2 ^ 64] steps.

    ** External code

    The operating system (start, kill and wait of processes, files, sockets, chown), the clock
    and the chain service are parameters of the definitions that use them: outcomes of
    calls are given as inputs of the step, so that theorems hold for all outcomes, or as
    fields of a class with the documented behaviour as its laws, for which an instance
    exists. Gas prices of the chain's other modules are class fields too, and so is the
    simulation context of a transaction.

    ** What is not modelled

    What gRPC does with its servers, options and streams, and zap with its entries; viper and
    the decoding of the configurations; the running of shell commands; generated marshalling
    code, mocks and tests. The way of a message object through the scheduler and the groups,
    which do not change it, is one channel in [Pools], and what the decoding of a received
    message makes of the object it fills is a parameter. The rate at which idle processes are
    released is a floating-point number of the source and an argument of the model. *)

From Stdlib Require Export Ascii ZArith Lia.
From stdpp Require Export base tactics option numbers strings pretty gmap list.

#[export] Set Default Goal Selector "!".

Declare Scope vm_scope.
Delimit Scope vm_scope with vm.
Open Scope Z_scope.

Create HintDb vmdb.
Create Rewrite HintDb vmstr.

(** ** Go errors *)

(** A Go [error] value: the fixed text of the [errors.New] or [fmt.Errorf] call, and the
    error the format wraps, when it wraps one. *)
Inductive gerr :=
| Err (msg : string)
| Wrap (msg : string) (inner : gerr).

#[export] Instance gerr_eq_dec : EqDecision gerr.
Proof. solve_decision. Defined.

(** ** Outcomes and the state monad of the handlers *)

(** What a piece of goroutine code does: it returns, it panics (nil dereference, send on
    a closed channel, ...), or it waits for ever on a channel as long as no other goroutine
    acts. *)
Inductive outcome (A : Type) :=
| Ret (a : A)
| Panic
| Block.
Arguments Ret {A} _.
Arguments Panic {A}.
Arguments Block {A}.

#[export] Instance outcome_eq_dec `{EqDecision A} : EqDecision (outcome A).
Proof. solve_decision. Defined.

Definition M (S A : Type) : Type := S → outcome (A * S).

#[export] Instance M_ret S : MRet (M S) := λ A a s, Ret (a, s).
#[export] Instance M_bind S : MBind (M S) := λ A B f m s,
  match m s with
  | Ret (a, s') => f a s'
  | Panic => Panic
  | Block => Block
  end.

Definition getS {S} : M S S := λ s, Ret (s, s).
Definition putS {S} (s' : S) : M S unit := λ _, Ret (tt, s').
Definition modifyS {S} (f : S → S) : M S unit := λ s, Ret (tt, f s).
Definition panic {S A} : M S A := λ _, Panic.
Definition block {S A} : M S A := λ _, Block.

(** Dereferencing a pointer that may be nil. *)
Definition deref {S A} (o : option A) : M S A :=
  match o with Some a => mret a | None => panic end.

Definition is_ret {A} (o : outcome A) : bool :=
  match o with Ret _ => true | _ => false end.

Lemma bind_Ret {S A B} (m : M S A) (f : A → M S B) s r :
  (m ≫= f) s = Ret r ↔ ∃ a s1, m s = Ret (a, s1) ∧ f a s1 = Ret r.
Proof.
  unfold mbind, M_bind. destruct (m s) as [[a s1]| |]; split; try (intros; by destruct_and?; naive_solver).
Qed.

(** [mstep] runs a handler symbolically: it unfolds the monad's operations and splits
    the outermost [match] that is left. *)
Ltac mstep :=
  repeat (progress (unfold mbind, M_bind, mret, M_ret, getS, putS, modifyS, panic, block,
            deref in *; cbn in *) || case_match || simplify_eq).

(** [minv] inverts the hypotheses that say that a handler returned: it splits binds,
    resolves the primitive operations and takes each branch of a test. *)
Ltac minv_step :=
  match goal with
  | H : (_ ≫= _) _ = Ret _ |- _ => apply bind_Ret in H as (? & ? & ? & H)
  | H : getS _ = Ret _ |- _ => unfold getS in H; (injection H as <- <- || simplify_eq)
  | H : putS _ _ = Ret _ |- _ => unfold putS in H; (injection H as <- <- || simplify_eq)
  | H : modifyS _ _ = Ret _ |- _ => unfold modifyS in H; (injection H as <- <- || simplify_eq)
  | H : mret _ ?s = Ret (_, ?t) |- _ =>
    unfold mret, M_ret in H;
    ((is_var s; is_var t; injection H as <- ->) || injection H as <- <- || simplify_eq)
  | H : block _ = Ret _ |- _ => discriminate H
  | H : panic _ = Ret _ |- _ => discriminate H
  | H : deref ?o _ = Ret _ |- _ => destruct o eqn:?; [unfold deref in H|discriminate H]
  | H : (if ?b then _ else _) _ = Ret _ |- _ => destruct b eqn:?
  | H : (match ?o with _ => _ end) _ = Ret _ |- _ => destruct o eqn:?
  | H : (let '(_, _) := ?p in _) _ = Ret _ |- _ => destruct p eqn:?
  end.
Ltac minv := repeat (minv_step; cbv beta zeta in *).

(** Total-correctness triples: from a state that satisfies [P] the code returns (it neither
    panics nor waits) and its result and state satisfy [Q]. *)
Definition triple {S A} (P : S → Prop) (m : M S A) (Q : A → S → Prop) : Prop :=
  ∀ s, P s → ∃ a s', m s = Ret (a, s') ∧ Q a s'.

Section triples.
Context {S : Type}.

Lemma triple_ret {A} (P : S → Prop) (a : A) (Q : A → S → Prop) :
  (∀ s, P s → Q a s) → triple P (mret a) Q.
Proof. intros HQ s HP. exists a, s. by auto. Qed.

Lemma triple_bind {A B} (P : S → Prop) (m : M S A) (f : A → M S B) R Q :
  triple P m R → (∀ a, triple (R a) (f a) Q) → triple P (m ≫= f) Q.
Proof.
  intros Hm Hf s HP. destruct (Hm s HP) as (a & s1 & E & HR).
  destruct (Hf a s1 HR) as (b & s2 & E2 & HQ). exists b, s2. split; [|done].
  unfold mbind, M_bind. by rewrite E.
Qed.

Lemma triple_get {A} (P : S → Prop) (f : S → M S A) Q :
  (∀ s0, P s0 → triple (λ s, s = s0) (f s0) Q) → triple P (getS ≫= f) Q.
Proof. intros Hf s HP. by apply (Hf s HP s). Qed.

Lemma triple_modify {A} (P : S → Prop) (g : S → S) (f : unit → M S A) R Q :
  (∀ s, P s → R (g s)) → triple R (f tt) Q → triple P (modifyS g ≫= f) Q.
Proof. intros Hg Hf s HP. apply (Hf (g s)). auto. Qed.

Lemma triple_modify_at {A} (s0 : S) (g : S → S) (f : unit → M S A) Q :
  triple (λ s, s = g s0) (f tt) Q → triple (λ s, s = s0) (modifyS g ≫= f) Q.
Proof. intros Hf s ->. by apply (Hf (g s0)). Qed.

Lemma triple_pre {A} (P P' : S → Prop) (m : M S A) Q :
  (∀ s, P s → P' s) → triple P' m Q → triple P m Q.
Proof. intros Hp Hm s HP. auto. Qed.

Lemma triple_post {A} (P : S → Prop) (m : M S A) (Q Q' : A → S → Prop) :
  triple P m Q' → (∀ a s, Q' a s → Q a s) → triple P m Q.
Proof. intros Hm Hq s HP. destruct (Hm s HP) as (a & s' & ? & ?). eauto. Qed.

(** A state described by an equation is substituted. *)
Lemma triple_at {A} (P : S → Prop) (m : M S A) Q :
  (∀ s0, P s0 → triple (λ s, s = s0) m Q) → triple P m Q.
Proof. intros Hm s HP. by apply (Hm s HP s). Qed.
End triples.

(** A relation between the states before and after, kept by every primitive step of a handler
    and so by the handler. *)
Definition preserves {S A} (R : S → S → Prop) (m : M S A) : Prop :=
  ∀ s a s', m s = Ret (a, s') → R s s'.

Section preserves.
Context {S : Type} (R : S → S → Prop) `{!PreOrder R}.

Lemma preserves_bind {A B} (m : M S A) (f : A → M S B) :
  preserves R m → (∀ a, preserves R (f a)) → preserves R (m ≫= f).
Proof. intros Hm Hf s a s' (x & s1 & H1 & H2)%bind_Ret. etrans; [by eapply Hm|by eapply Hf]. Qed.
Lemma preserves_ret {A} (a : A) : preserves R (mret a).
Proof. intros s x s' [= _ <-]. reflexivity. Qed.
Lemma preserves_get : preserves R getS.
Proof. intros s x s' [= _ <-]. reflexivity. Qed.
Lemma preserves_modify f : (∀ s, R s (f s)) → preserves R (modifyS f).
Proof. intros Hf s x s' [= _ <-]. apply Hf. Qed.
Lemma preserves_block {A} : preserves R (block (A := A)).
Proof. by intros ???. Qed.
Lemma preserves_panic {A} : preserves R (panic (A := A)).
Proof. by intros ???. Qed.
Lemma preserves_deref {A} (o : option A) : preserves R (deref o).
Proof. destruct o; [apply preserves_ret|apply preserves_panic]. Qed.
End preserves.

(** [preserves_tac tac] follows the structure of a handler and leaves its calls of other
    handlers; [tac] closes the goals about single updates of the state. *)
Ltac preserves_tac tac :=
  repeat (cbv beta zeta; match goal with
    | |- preserves _ (_ ≫= _) => apply preserves_bind; [apply _| |intros ?]
    | |- preserves _ (mret _) => apply preserves_ret; apply _
    | |- preserves _ getS => apply preserves_get; apply _
    | |- preserves _ block => apply preserves_block
    | |- preserves _ panic => apply preserves_panic
    | |- preserves _ (deref _) => apply preserves_deref; apply _
    | |- preserves _ (modifyS _) => apply preserves_modify; intros ?; tac
    | |- preserves _ (match _ with _ => _ end) => case_match
    end).

(** ** Fixed-width integers *)

Definition u64_max : Z := 2 ^ 64.

(** The value of a [uint64] expression: reduction modulo 2^64. *)
Definition u64 (z : Z) : Z := z mod u64_max.

Definition u64_add (a b : Z) : Z := u64 (a + b).
Definition u64_mul (a b : Z) : Z := u64 (a * b).

Lemma u64_small z : 0 ≤ z < u64_max → u64 z = z.
Proof. intros. unfold u64. by apply Z.mod_small. Qed.

Lemma u64_range z : 0 ≤ u64 z < u64_max.
Proof. unfold u64. apply Z.mod_pos_bound. done. Qed.

#[export] Hint Resolve u64_range u64_small : vmdb.

(** ** Strings: [strings.Join], [strings.Split] *)

#[global] Arguments Ascii.eqb : simpl never.

Definition hash : ascii := "#"%char.

Fixpoint has_char (c : ascii) (s : string) : bool :=
  match s with
  | EmptyString => false
  | String a s' => Ascii.eqb a c || has_char c s'
  end.

(** [strings.Join(names, "#")]. *)
Fixpoint join (l : list string) : string :=
  match l with
  | [] => EmptyString
  | [x] => x
  | x :: l' => x +:+ String hash (join l')
  end.

(** [strings.Split(s, "#")]. *)
Fixpoint split (s : string) : list string :=
  match s with
  | EmptyString => [EmptyString]
  | String a s' =>
    if Ascii.eqb a hash then EmptyString :: split s'
    else match split s' with
         | [] => [String a EmptyString]
         | x :: r => String a x :: r
         end
  end.

Lemma str_app_nil (t : string) : EmptyString +:+ t = t.
Proof. done. Qed.

Lemma str_app_cons a (s t : string) : String a s +:+ t = String a (s +:+ t).
Proof. done. Qed.

#[export] Hint Rewrite str_app_nil str_app_cons : vmstr.

Ltac strsimpl := cbn; autorewrite with vmstr; cbn.

Lemma split_nonnil s : split s ≠ [].
Proof. destruct s as [|a s]; cbn; [done|]. repeat case_match; done. Qed.

Lemma join_cons x l : l ≠ [] → join (x :: l) = x +:+ String hash (join l).
Proof. by destruct l. Qed.

(** Splitting a string and joining the pieces gives the string back. *)
Lemma join_split s : join (split s) = s.
Proof.
  induction s as [|a s IH]; [done|]. strsimpl.
  destruct (Ascii.eqb_spec a hash) as [->|Ha].
  - rewrite join_cons by apply split_nonnil. by rewrite IH.
  - destruct (split s) as [|x r] eqn:E; [by destruct (split_nonnil s)|].
    destruct r; cbn in *; rewrite <-IH; by strsimpl.
Qed.

Lemma split_piece x s :
  has_char hash x = false → split (x +:+ String hash s) = x :: split s.
Proof.
  induction x as [|a x IH]; strsimpl.
  - done.
  - intros [Ha Hx]%orb_false_iff. by rewrite Ha, IH.
Qed.

Lemma split_whole x : has_char hash x = false → split x = [x].
Proof.
  induction x as [|a x IH]; cbn; [done|].
  intros [Ha Hx]%orb_false_iff. by rewrite Ha, IH.
Qed.

(** Joining pieces without ['#'] and splitting gives the pieces back. *)
Lemma split_join l :
  l ≠ [] → Forall (λ x, has_char hash x = false) l → split (join l) = l.
Proof.
  induction l as [|x l IH]; [done|]. intros _ [Hx Hl]%list.Forall_cons.
  destruct l as [|y l].
  - by apply split_whole.
  - rewrite join_cons, split_piece by done. by rewrite IH.
Qed.

Lemma has_char_app c s t : has_char c (s +:+ t) = has_char c s || has_char c t.
Proof. induction s as [|a s IH]; strsimpl; [done|]. by rewrite IH, orb_assoc. Qed.

(** The piece after the last separator, and the text before it, are determined. *)
Lemma last_piece_inj s1 s2 a b :
  has_char hash a = false → has_char hash b = false →
  s1 +:+ String hash a = s2 +:+ String hash b → s1 = s2 ∧ a = b.
Proof.
  intros Ha Hb. revert s2.
  induction s1 as [|c s1 IH]; intros [|d s2]; strsimpl; intros E; injection E; clear E.
  - done.
  - intros -> <-. rewrite has_char_app in Ha. cbn in Ha. by rewrite orb_true_r in Ha.
  - intros <- ->. rewrite has_char_app in Hb. cbn in Hb. by rewrite orb_true_r in Hb.
  - intros E ->. by destruct (IH s2 E) as [-> ->].
Qed.

Lemma str_app_assoc (a b c : string) : a +:+ (b +:+ c) = (a +:+ b) +:+ c.
Proof. induction a as [|x a IH]; strsimpl; [done|by f_equal]. Qed.

Lemma join_snoc l x : l ≠ [] → join (l ++ [x]) = join l +:+ String hash x.
Proof.
  induction l as [|y l IH]; [done|]. intros _. destruct l as [|z l]; [done|].
  rewrite (join_cons y (z :: l)) by done. change ((y :: z :: l) ++ [x]) with (y :: ((z :: l) ++ [x])).
  rewrite join_cons by done. rewrite IH by done. by rewrite <-str_app_assoc.
Qed.

(** [strconv.Itoa] and [strconv.FormatUint(_, 10)]: decimal digits, a minus sign in front. *)
Definition itoa (z : Z) : string := pretty z.

Lemma pretty_N_go_no_hash x s : has_char hash s = false → has_char hash (pretty_N_go x s) = false.
Proof.
  revert s. induction (N.lt_wf_0 x) as [x _ IH]; intros s Hs.
  destruct (decide (0 < x)%N) as [Hx|Hx].
  - rewrite pretty_N_go_step by done. apply IH; [by apply N.div_lt|]. cbn.
    rewrite Hs, orb_false_r.
    unfold pretty_N_char. by repeat case_match.
  - assert (x = 0%N) as -> by lia. by rewrite pretty_N_go_0.
Qed.

Lemma itoa_no_hash z : has_char hash (itoa z) = false.
Proof.
  assert (∀ n : N, has_char hash (pretty n) = false) as HN.
  { intros n. unfold pretty, pretty_N. case_decide; [done|]. by apply pretty_N_go_no_hash. }
  destruct z; [done|apply HN|]. unfold itoa, pretty, pretty_Z. rewrite has_char_app. apply HN.
Qed.

#[export] Instance itoa_inj : Inj (=) (=) itoa.
Proof. apply pretty_Z_inj. Qed.

#[export] Hint Resolve itoa_no_hash : vmdb.

(** [strconv.ParseInt(s, 10, 64)]: an optional sign and decimal digits, within 64 bits. *)
Definition digit (a : ascii) : option Z :=
  let n := Z.of_N (N_of_ascii a) in if (48 <=? n) && (n <=? 57) then Some (n - 48) else None.

Fixpoint parse_digits (s : string) (acc : Z) : option Z :=
  match s with
  | EmptyString => Some acc
  | String a s' => match digit a with Some d => parse_digits s' (10 * acc + d) | None => None end
  end.

Definition in_int64 (z : Z) : bool := (- 2 ^ 63 <=? z) && (z <? 2 ^ 63).

Definition parse_int (s : string) : option Z :=
  let '(neg, ds) :=
    match s with
    | String "-" s' => (true, s')
    | String "+" s' => (false, s')
    | _ => (false, s)
    end in
  match ds with
  | EmptyString => None
  | _ =>
    match parse_digits ds 0 with
    | Some n => let z := if neg : bool then - n else n in if in_int64 z then Some z else None
    | None => None
    end
  end.

Lemma digit_pretty n : (n < 10)%N → digit (pretty_N_char n) = Some (Z.of_N n).
Proof.
  intros Hn. assert (n = 0 ∨ n = 1 ∨ n = 2 ∨ n = 3 ∨ n = 4 ∨ n = 5 ∨ n = 6 ∨ n = 7 ∨ n = 8 ∨ n = 9)%N
    as Hc by lia.
  repeat destruct Hc as [->|Hc]; try reflexivity. subst. reflexivity.
Qed.

Lemma parse_pretty_go x s : parse_digits (pretty_N_go x s) 0 = parse_digits s (Z.of_N x).
Proof.
  revert s. induction (N.lt_wf_0 x) as [x _ IH]; intros s.
  destruct (decide (0 < x)%N) as [Hx|Hx].
  - rewrite pretty_N_go_step by done. rewrite IH by by apply N.div_lt. cbn [parse_digits].
    rewrite digit_pretty by by apply N.mod_lt. f_equal.
    rewrite N2Z.inj_div, N2Z.inj_mod. change (Z.of_N 10) with 10.
    pose proof (Z.div_mod (Z.of_N x) 10). lia.
  - assert (x = 0%N) as -> by lia. by rewrite pretty_N_go_0.
Qed.

Lemma parse_pretty_N (n : N) : parse_digits (pretty n) 0 = Some (Z.of_N n).
Proof.
  unfold pretty, pretty_N. case_decide as Hn; [by subst|]. by rewrite parse_pretty_go.
Qed.

Lemma digit_sign a d : digit a = Some d → a ≠ "-"%char ∧ a ≠ "+"%char.
Proof. intros Hd. split; intros ->; by vm_compute in Hd. Qed.

#[global] Arguments parse_int : simpl never.
#[global] Arguments itoa : simpl never.

(** A number written in decimal is read back. *)
Lemma parse_itoa z : in_int64 z = true → parse_int (itoa z) = Some z.
Proof.
  intros Hz. assert (∀ n : N, ∃ a s, pretty n = String a s ∧ a ≠ "-"%char ∧ a ≠ "+"%char) as Hne.
  { intros n. pose proof (parse_pretty_N n) as Hp. destruct (pretty n) as [|a s] eqn:E.
    - unfold pretty, pretty_N in E. case_decide; [done|]. cbn in Hp. injection Hp as Hp. lia.
    - exists a, s. split; [done|]. cbn in Hp. destruct (digit a) eqn:Ed; [|done]. by eapply digit_sign. }
  assert (∀ n : N, ∀ neg : bool, match pretty n with EmptyString => None | _ => 
     match parse_digits (pretty n) 0 with
     | Some k => let z := if neg then - k else k in if in_int64 z then Some z else None | None => None end end
     = if in_int64 (if neg then - Z.of_N n else Z.of_N n)
       then Some (if neg then - Z.of_N n else Z.of_N n) else None) as Hb.
  { intros n neg. rewrite parse_pretty_N. destruct (Hne n) as (a & s & -> & _). done. }
  destruct z as [|p|p].
  - done.
  - unfold itoa. change (pretty (Z.pos p)) with (pretty (N.pos p)). destruct (Hne (N.pos p)) as (a & s & E & Hm & Hpl).
    pose proof (Hb (N.pos p) false) as Hb'. cbn in Hb'. rewrite Hz in Hb'. rewrite <-Hb'.
    unfold parse_int. rewrite E.
    destruct a as [[] [] [] [] [] [] [] []]; try done.
  - unfold itoa. change (pretty (Z.neg p)) with (String "-" (pretty (N.pos p))).
    pose proof (Hb (N.pos p) true) as Hb'. cbv beta iota in Hb'.
    change (- Z.of_N (N.pos p)) with (Z.neg p) in Hb'. rewrite Hz in Hb'. rewrite <-Hb'.
    reflexivity.
Qed.

(** ** Paths: [filepath.Join] of a rooted directory and a name *)

Definition slash : ascii := "/"%char.

Fixpoint split_slash (s : string) : list string :=
  match s with
  | EmptyString => [EmptyString]
  | String a s' =>
    if Ascii.eqb a slash then EmptyString :: split_slash s'
    else match split_slash s' with
         | [] => [String a EmptyString]
         | x :: r => String a x :: r
         end
  end.

(** [filepath.Clean] on the elements of a rooted path: empty and ["."] elements go, [".."]
    removes the element before it. *)
Fixpoint clean_go (stack ps : list string) : list string :=
  match ps with
  | [] => reverse stack
  | p :: ps' =>
    if String.eqb p "" || String.eqb p "." then clean_go stack ps'
    else if String.eqb p ".." then clean_go (tail stack) ps'
    else clean_go (p :: stack) ps'
  end.

Fixpoint rooted (ps : list string) : string :=
  match ps with
  | [] => "/"
  | [p] => String slash p
  | p :: ps' => String slash (p +:+ rooted ps')
  end.

Definition path_join (dir name : string) : string :=
  rooted (clean_go [] (split_slash (dir +:+ String slash name))).

#[global] Arguments path_join : simpl never.

(** ** Association lists *)

(** The contents of an insertion-ordered map, as its iterator lists them. *)
Section alist.
Context {K V : Type} `{EqDecision K}.

Fixpoint al_get (l : list (K * V)) (k : K) : option V :=
  match l with
  | [] => None
  | (k', v) :: l' => if decide (k' = k) then Some v else al_get l' k
  end.

(** A key that is present keeps its place and takes the new value; a new key goes last. *)
Fixpoint al_put (l : list (K * V)) (k : K) (v : V) : list (K * V) :=
  match l with
  | [] => [(k, v)]
  | (k', v') :: l' => if decide (k' = k) then (k, v) :: l' else (k', v') :: al_put l' k v
  end.

Fixpoint al_remove (l : list (K * V)) (k : K) : list (K * V) :=
  match l with
  | [] => []
  | (k', v) :: l' => if decide (k' = k) then al_remove l' k else (k', v) :: al_remove l' k
  end.

Lemma al_get_Some l k v : al_get l k = Some v → (k, v) ∈ l.
Proof.
  induction l as [|[k' v'] l IH]; cbn; [done|].
  case_decide; [|set_solver]. intros [= ->]. subst. set_solver.
Qed.

Lemma al_get_None l k : al_get l k = None ↔ k ∉ l.*1.
Proof.
  induction l as [|[k' v'] l IH]; cbn; [set_solver|]. case_decide; set_solver.
Qed.

Lemma al_get_is_Some l k : is_Some (al_get l k) ↔ k ∈ l.*1.
Proof. rewrite <-not_eq_None_Some, al_get_None. destruct (decide (k ∈ l.*1)); naive_solver. Qed.

Lemma al_get_nodup l k v : NoDup l.*1 → (k, v) ∈ l → al_get l k = Some v.
Proof.
  induction l as [|[k' v'] l IH]; cbn; [set_solver|].
  intros [Hk' Hl]%list.NoDup_cons [[= -> ->]|Hin]%elem_of_cons.
  - by rewrite decide_True.
  - rewrite decide_False; [by apply IH|]. intros ->. apply Hk'.
    apply list_elem_of_fmap. by exists (k, v).
Qed.

Lemma al_remove_elem l k x : x ∈ (al_remove l k).*1 ↔ x ∈ l.*1 ∧ x ≠ k.
Proof.
  induction l as [|[k' v'] l IH]; cbn; [set_solver|]. case_decide; cbn; set_solver.
Qed.

Lemma al_remove_nodup l k : NoDup l.*1 → NoDup (al_remove l k).*1.
Proof.
  induction l as [|[k' v'] l IH]; cbn; [done|]. intros [Hk' Hl]%list.NoDup_cons.
  case_decide; cbn; [by apply IH|]. constructor; [|by apply IH]. rewrite al_remove_elem. naive_solver.
Qed.

Lemma al_remove_None l k : al_get l k = None → al_remove l k = l.
Proof.
  induction l as [|[k' v'] l IH]; cbn; [done|]. case_decide; [done|]. intros. f_equal. auto.
Qed.

Lemma al_get_remove l k k' :
  al_get (al_remove l k) k' = if decide (k = k') then None else al_get l k'.
Proof.
  induction l as [|[k1 v1] l IH]; cbn; [by case_decide|].
  repeat (case_decide || cbn in *); congruence.
Qed.

Lemma al_remove_length l k : NoDup l.*1 → is_Some (al_get l k) →
  length (al_remove l k) = pred (length l).
Proof.
  induction l as [|[k1 v1] l IH]; cbn; [by intros _ [? ?]|].
  intros [Hk1 Hl]%list.NoDup_cons Hk. case_decide as E; subst.
  - rewrite al_remove_None; [done|]. by apply al_get_None.
  - cbn. rewrite IH by done. destruct l; [by destruct Hk|done].
Qed.

Lemma al_remove_in l k x y :
  (x, y) ∈ al_remove l k ↔ (x, y) ∈ l ∧ x ≠ k.
Proof.
  induction l as [|[k' v'] l IH]; cbn; [set_solver|]. case_decide; set_solver.
Qed.

Lemma al_remove_perm l k v : NoDup l.*1 → al_get l k = Some v → l ≡ₚ (k, v) :: al_remove l k.
Proof.
  induction l as [|[k1 v1] l IH]; cbn; [done|]. intros [Hk1 Hl]%list.NoDup_cons Hk.
  case_decide as E; subst.
  - injection Hk as <-. by rewrite al_remove_None by by apply al_get_None.
  - rewrite (IH Hl Hk) at 1. apply Permutation_swap.
Qed.

Lemma al_put_keys_in l k v : k ∈ l.*1 → (al_put l k v).*1 = l.*1.
Proof.
  induction l as [|[k' v'] l IH]; cbn; [set_solver|]. intros Hk. case_decide as E; subst; cbn; [done|].
  f_equal. apply IH. set_solver.
Qed.

Lemma al_put_out l k v : k ∉ l.*1 → al_put l k v = l ++ [(k, v)].
Proof.
  induction l as [|[k' v'] l IH]; cbn; [done|]. intros Hk. rewrite decide_False by set_solver.
  f_equal. apply IH. set_solver.
Qed.

Lemma al_put_elem l k v x : x ∈ (al_put l k v).*1 ↔ x ∈ l.*1 ∨ x = k.
Proof.
  destruct (decide (k ∈ l.*1)).
  - rewrite al_put_keys_in by done. naive_solver.
  - rewrite al_put_out, fmap_app by done. set_solver.
Qed.

Lemma al_put_nodup l k v : NoDup l.*1 → NoDup (al_put l k v).*1.
Proof.
  intros. destruct (decide (k ∈ l.*1)).
  - by rewrite al_put_keys_in.
  - rewrite al_put_out, fmap_app by done.
    apply list.NoDup_app; split_and!; [done|set_solver|apply NoDup_singleton].
Qed.

Lemma al_get_put l k v k' :
  al_get (al_put l k v) k' = if decide (k = k') then Some v else al_get l k'.
Proof.
  induction l as [|[k1 v1] l IH]; cbn; [by repeat case_decide|].
  repeat (case_decide || cbn in *); congruence.
Qed.

Lemma al_put_length_in l k v : k ∈ l.*1 → length (al_put l k v) = length l.
Proof. intros. by rewrite <-(length_fmap fst), al_put_keys_in, length_fmap. Qed.

Lemma al_put_length_out l k v : k ∉ l.*1 → length (al_put l k v) = S (length l).
Proof. intros. rewrite al_put_out, length_app by done. cbn. lia. Qed.
End alist.

#[export] Hint Resolve al_put_nodup al_remove_nodup : vmdb.

(** ** The insertion-ordered map of github.com/emirpasic/gods/maps/linkedhashmap *)

(** The operations the engine uses; the package is not part of the repository, so it is an
    argument of the definitions that use it. [lhm_list] is what its iterator lists, from the
    head. *)
Class LinkedHashMap (K V : Type) := {
  lhm : Type;
  lhm_new : lhm;
  lhm_get : lhm → K → option V;
  lhm_put : lhm → K → V → lhm;
  lhm_remove : lhm → K → lhm;
  lhm_size : lhm → nat;
  lhm_list : lhm → list (K * V);
}.
Arguments lhm K V {_}.

(** Its documented behaviour: a hash map whose iteration order is insertion order. *)
Class LinkedHashMapLaws (K V : Type) `{EqDecision K} `{L : LinkedHashMap K V} : Prop := {
  lhm_list_new : lhm_list lhm_new = [];
  lhm_get_list m k : lhm_get m k = al_get (lhm_list m) k;
  lhm_put_list m k v : lhm_list (lhm_put m k v) = al_put (lhm_list m) k v;
  lhm_remove_list m k : lhm_list (lhm_remove m k) = al_remove (lhm_list m) k;
  lhm_size_list m : lhm_size m = length (lhm_list m);
}.

(** A concrete map with these laws, used by the witnesses. *)
#[export] Instance alist_lhm {K V} `{EqDecision K} : LinkedHashMap K V | 10 := {|
  lhm := list (K * V);
  lhm_new := [];
  lhm_get := al_get;
  lhm_put := al_put;
  lhm_remove := al_remove;
  lhm_size := length;
  lhm_list := λ l, l;
|}.

#[export] Instance alist_lhm_laws {K V} `{EqDecision K} :
  LinkedHashMapLaws K V (L := alist_lhm).
Proof. split; done. Qed.

(** ** Goroutines joined by a [sync.WaitGroup] *)

(** [wg.Add(n)], [n] goroutines and [wg.Wait()]: every goroutine is a local state [L] with
    its next atomic step (the code between two synchronisation points); a schedule lists
    which goroutine moves next. A step that blocks leaves its goroutine where it is. The
    group returns when all are done; a schedule that ends before is a wait for ever. *)
Section waitgroup.
Context {L S : Type} (step : L → S → outcome (L * S)) (done : L → bool).

Fixpoint run_group (sched : list nat) (ts : list L) (s : S) : outcome (list L * S) :=
  match sched with
  | [] => if forallb done ts then Ret (ts, s) else Block
  | i :: rest =>
    match ts !! i with
    | None => run_group rest ts s
    | Some l =>
      if done l then run_group rest ts s
      else match step l s with
           | Ret (l', s') => run_group rest (<[i := l']> ts) s'
           | Panic => Panic
           | Block => run_group rest ts s
           end
    end
  end.

(** An invariant of the shared state and all the local states, kept by each step of each
    goroutine, holds when the group returns, whatever the interleaving. *)
Lemma run_group_inv (I : list L → S → Prop) sched ts s ts' s' :
  (∀ ts s i l l' s', I ts s → ts !! i = Some l → done l = false →
     step l s = Ret (l', s') → I (<[i := l']> ts) s') →
  I ts s → run_group sched ts s = Ret (ts', s') →
  I ts' s' ∧ Forall (λ l, done l = true) ts' ∧ length ts' = length ts.
Proof.
  intros Hstep. revert ts s. induction sched as [|i sched IH]; intros ts s HI; cbn.
  - case_match eqn:E; [|done]. intros [= <- <-]. split_and!; [done| |done].
    apply Forall_forall. intros l Hl. rewrite forallb_forall in E. apply E. by apply list_elem_of_In.
  - destruct (ts !! i) as [l|] eqn:El; [|by apply IH].
    destruct (done l) eqn:Ed; [by apply IH|].
    destruct (step l s) as [[l1 s1]| |] eqn:Es; [|done|by apply IH].
    intros Hrun. destruct (IH _ _ (Hstep _ _ _ _ _ _ HI El Ed Es) Hrun) as (?&?&Hlen).
    split_and!; [done..|]. by rewrite Hlen, length_insert.
Qed.

(** No interleaving panics when no step does from a state that satisfies the invariant. *)
Lemma run_group_no_panic (I : list L → S → Prop) sched ts s :
  (∀ ts s i l l' s', I ts s → ts !! i = Some l → done l = false →
     step l s = Ret (l', s') → I (<[i := l']> ts) s') →
  (∀ ts s i l, I ts s → ts !! i = Some l → done l = false → step l s ≠ Panic) →
  I ts s → run_group sched ts s ≠ Panic.
Proof.
  intros Hstep Hnp. revert ts s. induction sched as [|i sched IH]; intros ts s HI; cbn.
  - by case_match.
  - destruct (ts !! i) as [l|] eqn:El; [|by apply IH].
    destruct (done l) eqn:Ed; [by apply IH|].
    destruct (step l s) as [[l1 s1]| |] eqn:Es; [|by destruct (Hnp ts s i l)|by apply IH].
    apply IH. by eapply Hstep.
Qed.

Definition occurs (i : nat) (sched : list nat) : nat := length (filter (λ j, j = i) sched).

(** The group returns under every schedule that gives each goroutine enough turns, when each
    step returns and takes its goroutine closer to its end. *)
Lemma run_group_total (mu : L → nat) sched ts s :
  (∀ l s, done l = false → ∃ l' s', step l s = Ret (l', s') ∧ (mu l' < mu l)%nat) →
  (∀ i l, ts !! i = Some l → done l = false → (mu l ≤ occurs i sched)%nat) →
  ∃ r, run_group sched ts s = Ret r.
Proof.
  intros Hstep. revert ts s. induction sched as [|j sched IH]; intros ts s Hts; cbn.
  - assert (forallb done ts = true) as ->; [|by eexists]. apply forallb_forall.
    intros l [i Hi]%list_elem_of_In%list_elem_of_lookup.
    destruct (done l) eqn:Ed; [done|]. specialize (Hts i l Hi Ed). cbn in Hts. destruct (Hstep l s Ed) as (?&?&_&?). lia.
  - assert (∀ i, i ≠ j → occurs i (j :: sched) = occurs i sched) as Hne.
    { intros i Hi. unfold occurs. by rewrite filter_cons_False. }
    assert (occurs j (j :: sched) = Datatypes.S (occurs j sched)) as Heq.
    { unfold occurs. by rewrite filter_cons_True. }
    destruct (ts !! j) as [l|] eqn:El.
    + destruct (done l) eqn:Ed.
      * apply IH. intros i l' Hi Ed'. destruct (decide (i = j)) as [->|Hij]; [congruence|].
        specialize (Hts i l' Hi Ed'). by rewrite Hne in Hts.
      * destruct (Hstep l s Ed) as (l1 & s1 & -> & Hlt). apply IH. intros i l' Hi Ed'.
        apply list_lookup_insert_Some in Hi as [(-> & <- & _)|[Hij Hi]].
        -- specialize (Hts i l El Ed). lia.
        -- specialize (Hts i l' Hi Ed'). rewrite Hne in Hts by done. lia.
    + apply IH. intros i l' Hi Ed'. specialize (Hts i l' Hi Ed').
      rewrite Hne in Hts; [done|]. by intros ->; simplify_eq.
Qed.
End waitgroup.
