(* ===== verification/Messages.v ===== *)
(** * The messages of the engine

    The protobuf messages of vm_mgr/pb/protogo (the same definitions as pb/protogo), the
    internal messages of vm_mgr/messages, and the interfaces through which the components
    of vm_mgr/module/core call each other. A pointer that may be nil is an [option]; a
    [[]byte] is a [string]; a slice is a [list]. *)

From S2P Require Import Prelude.

(** ** protogo *)

Inductive DockerVMType :=
| UNDEFINED | REGISTER | REGISTERED | PREPARE | READY | INIT | INVOKE
| TX_REQUEST | TX_RESPONSE
| GET_STATE_REQUEST | GET_STATE_RESPONSE
| GET_BYTECODE_REQUEST | GET_BYTECODE_RESPONSE
| CALL_CONTRACT_REQUEST | CALL_CONTRACT_RESPONSE
| COMPLETED | ERROR
| CREATE_KV_ITERATOR_REQUEST | CREATE_KV_ITERATOR_RESPONSE
| CONSUME_KV_ITERATOR_REQUEST | CONSUME_KV_ITERATOR_RESPONSE
| CREATE_KEY_HISTORY_ITER_REQUEST | CREATE_KEY_HISTORY_TER_RESPONSE
| CONSUME_KEY_HISTORY_ITER_REQUEST | CONSUME_KEY_HISTORY_ITER_RESPONSE
| GET_SENDER_ADDRESS_REQUEST | GET_SENDER_ADDRESS_RESPONSE
| GET_BATCH_STATE_REQUEST | GET_BATCH_STATE_RESPONSE.

#[export] Instance DockerVMType_eq_dec : EqDecision DockerVMType.
Proof. solve_decision. Defined.

Inductive StepType :=
| RUNTIME_PREPARE_TX_REQUEST | RUNTIME_GRPC_SEND_TX_REQUEST
| ENGINE_GRPC_RECEIVE_TX_REQUEST
| ENGINE_SCHEDULER_RECEIVE_TX_REQUEST | ENGINE_SCHEDULER_SEND_TX_REQUEST
| ENGINE_GROUP_RECEIVE_TX_REQUEST | ENGINE_GROUP_SEND_TX_REQUEST
| ENGINE_PROCESS_RECEIVE_TX_REQUEST | ENGINE_PROCESS_SEND_TX_REQUEST
| ENGINE_PROCESS_RECEIVE_TX_RESPONSE
| SANDBOX_GRPC_RECEIVE_TX_REQUEST | SANDBOX_GRPC_SEND_TX_REQUEST
| SANDBOX_CHAN_SEND_TX_REQUEST | SANDBOX_HANDLER_RECEIVE_TX_REQUEST
| SANDBOX_HANDLER_EXECUTE | SANDBOX_SEND_CHAIN_RESP | SANDBOX_GRPC_SEND_CHAIN_RESP
| SANDBOX_SEND_ENGINE_RESP
| RUNTIME_GRPC_RECEIVE_TX_RESPONSE | RUNTIME_GET_NOTIFY_TX_RESPONSE
| RUNTIME_HANDLER_RECEIVE_TX_RESPONSE | RUNTIME_HANDLE_TX_RESPONSE.

#[export] Instance StepType_eq_dec : EqDecision StepType.
Proof. solve_decision. Defined.

Inductive DockerVMCode := OK | FAIL.

#[export] Instance DockerVMCode_eq_dec : EqDecision DockerVMCode.
Proof. solve_decision. Defined.

Record StepDuration := mkStep {
  sd_Type : StepType;
  sd_StartTime : Z;
  sd_StepDuration : Z;
  sd_UntilDuration : Z;
  sd_Msg : string;
}.

#[export] Instance StepDuration_eq_dec : EqDecision StepDuration.
Proof. solve_decision. Defined.

Record CrossContext := mkCross {
  cc_CurrentDepth : Z;
  cc_ProcessName : string;
  cc_CrossInfo : Z;
}.

#[export] Instance CrossContext_eq_dec : EqDecision CrossContext.
Proof. solve_decision. Defined.

Record SysCallMessage := mkSysCall {
  sc_Code : DockerVMCode;
  sc_Message : string;
  sc_Payload : gmap string string;
}.

#[export] Instance SysCallMessage_eq_dec : EqDecision SysCallMessage.
Proof. solve_decision. Defined.

(** The request of a transaction; its [TxContext] is never read by the engine. *)
Record TxRequest := mkRequest {
  rq_ContractName : string;
  rq_ContractVersion : string;
  rq_Method : string;
  rq_Parameters : gmap string string;
  rq_ChainId : string;
}.

#[export] Instance TxRequest_eq_dec : EqDecision TxRequest.
Proof. solve_decision. Defined.

Record DockerContractEvent := mkDockerEvent {
  ev_Topic : string;
  ev_ContractName : string;
  ev_Data : list string;
}.

#[export] Instance DockerContractEvent_eq_dec : EqDecision DockerContractEvent.
Proof. solve_decision. Defined.

Record TxResponse := mkResponse {
  rp_TxId : string;
  rp_Code : DockerVMCode;
  rp_Result : string;
  rp_Message : string;
  rp_WriteMap : gmap string string;
  rp_ReadMap : gmap string string;
  rp_Events : list DockerContractEvent;
  rp_ContractName : string;
  rp_ContractVersion : string;
  rp_ChainId : string;
}.

#[export] Instance TxResponse_eq_dec : EqDecision TxResponse.
Proof. solve_decision. Defined.

Record DockerVMMessage := mkMessage {
  m_TxId : string;
  m_Type : DockerVMType;
  m_CrossContext : option CrossContext;
  m_SysCallMessage : option SysCallMessage;
  m_Request : option TxRequest;
  m_Response : option TxResponse;
  m_ChainId : string;
  m_StepDurations : list StepDuration;
}.

#[export] Instance DockerVMMessage_eq_dec : EqDecision DockerVMMessage.
Proof. solve_decision. Defined.

(** The zero value of the struct, [&protogo.DockerVMMessage{}]. *)
Definition emptyMessage : DockerVMMessage :=
  mkMessage "" UNDEFINED None None None None "" [].

(** The zero value [&protogo.TxResponse{}]. *)
Definition emptyResponse : TxResponse := mkResponse "" OK "" "" ∅ ∅ [] "" "" "".

(** ** vm_mgr/messages *)

Record GetProcessReqMsg := mkGetProcessReq {
  gp_ChainID : string;
  gp_ContractName : string;
  gp_ContractVersion : string;
  gp_ProcessNum : Z;
}.

Record GetProcessRespMsg := mkGetProcessResp {
  gr_IsOrig : bool;
  gr_ProcessNum : Z;
}.

#[export] Instance GetProcessReqMsg_eq_dec : EqDecision GetProcessReqMsg.
Proof. solve_decision. Defined.
#[export] Instance GetProcessRespMsg_eq_dec : EqDecision GetProcessRespMsg.
Proof. solve_decision. Defined.

(** The errors a sandbox exits with: the two sentinels of launchProcess, the default, and
    any other error of os/exec. The sentinels are compared by identity. *)
Inductive ExitError :=
| ContractExecError
| ContractNotExistError
| SandboxExitDefaultError
| OtherExitError (msg : string).

#[export] Instance ExitError_eq_dec : EqDecision ExitError.
Proof. solve_decision. Defined.

Record SandboxExitMsg := mkSandboxExit {
  se_ChainID : string;
  se_ContractName : string;
  se_ContractVersion : string;
  se_ProcessName : string;
  se_Err : ExitError;
}.

#[export] Instance SandboxExitMsg_eq_dec : EqDecision SandboxExitMsg.
Proof. solve_decision. Defined.

Record RequestGroupKey := mkGroupKey {
  gk_ChainID : string;
  gk_ContractName : string;
  gk_ContractVersion : string;
}.

#[export] Instance RequestGroupKey_eq_dec : EqDecision RequestGroupKey.
Proof. solve_decision. Defined.

Record BadContractResp := mkBadContract {
  bc_Tx : DockerVMMessage;
  bc_IsOrig : bool;
  bc_ContractFileVersion : Z;
}.

#[export] Instance BadContractResp_eq_dec : EqDecision BadContractResp.
Proof. solve_decision. Defined.

Record TxPayload := mkTxPayload {
  tp_Tx : DockerVMMessage;
  tp_StartTime : Z;
}.

#[export] Instance TxPayload_eq_dec : EqDecision TxPayload.
Proof. solve_decision. Defined.

(** ** The values passed to the [PutMsg(msg interface{})] methods *)

Inductive AnyMsg :=
| AnyDockerVM (m : DockerVMMessage)
| AnyGetProcessReq (m : GetProcessReqMsg)
| AnyGetProcessResp (m : GetProcessRespMsg)
| AnySandboxExit (m : SandboxExitMsg)
| AnyGroupKey (m : RequestGroupKey)
| AnyClose
| AnyBadContract (m : BadContractResp)
| AnyOther.

#[export] Instance AnyMsg_eq_dec : EqDecision AnyMsg.
Proof. solve_decision. Defined.

(** ** Constants of chainmaker.org/chainmaker/protocol and pb-go *)

(** Values the repository takes from other modules: the maximal depth of a cross-contract
    call, the gas limit of a transaction, and the number of the Go runtime type. *)
Class ProtocolConsts := {
  CallContractDepth : Z;
  GasLimit : Z;
  RuntimeType_GO : Z;
}.

(** What the code relies on: the depth is not negative, the gas limit is a [uint64] far from
    its maximum, and the runtime type selects one of the 16 history bits. *)
Class ProtocolConstsOk `{ProtocolConsts} : Prop := {
  depth_nonneg : 0 ≤ CallContractDepth;
  gas_limit_range : 0 ≤ GasLimit < 2 ^ 63;
  runtime_go_range : 0 ≤ RuntimeType_GO ≤ 15;
}.

(** A concrete choice, used by the witnesses. *)
Definition sampleConsts : ProtocolConsts :=
  {| CallContractDepth := 5; GasLimit := 10000000000; RuntimeType_GO := 4 |}.

Lemma sampleConsts_ok : @ProtocolConstsOk sampleConsts.
Proof. split; cbn; lia. Qed.
