(* ===== verification/Interfaces.v ===== *)
(** * vm_mgr/interfaces: what the components call on each other

    A call of another component is a message put into its event channel, which that
    component handles later. What the caller observes at once is the error of [PutMsg] and
    the answers of the look-ups. An interface is a class of these answers; the messages sent
    are recorded by the caller. The laws state what a client relies on, and the modules that
    implement an interface prove them of their own [PutMsg]. *)

From S2P Require Import Prelude Messages.

(** [interfaces.RequestScheduler] and the [interfaces.RequestGroup] it returns. *)
Class SchedulerI := {
  sched_PutMsg : AnyMsg → option gerr;
  sched_GetRequestGroup : string → string → string → bool;
  group_PutMsg : AnyMsg → option gerr;
}.

(** The scheduler takes requests for bytecode, error responses, process exits, group keys
    and close messages. *)
Class SchedulerLaws `{S : SchedulerI} : Prop := {
  sched_bytecode m : m_Type m = GET_BYTECODE_REQUEST → sched_PutMsg (AnyDockerVM m) = None;
  sched_error m : m_Type m = ERROR → sched_PutMsg (AnyDockerVM m) = None;
  sched_key k : sched_PutMsg (AnyGroupKey k) = None;
  group_ready m : m_Type m = GET_BYTECODE_RESPONSE → group_PutMsg (AnyDockerVM m) = None;
  group_process m : group_PutMsg (AnyGetProcessResp m) = None;
}.

(** A scheduler that takes every message and knows every group, used by the witnesses. *)
Definition openScheduler : SchedulerI :=
  {| sched_PutMsg := λ _, None; sched_GetRequestGroup := λ _ _ _, true; group_PutMsg := λ _, None |}.

Lemma openScheduler_laws : SchedulerLaws (S := openScheduler).
Proof. by split. Qed.

(** [interfaces.ProcessManager] as a request group sees it for its contract: the error of
    [PutMsg], [GetProcessNumByContractKey] and [GetReadyOrBusyProcessNum]. *)
Class ProcessManagerI := {
  pm_PutMsg : AnyMsg → option gerr;
  pm_GetProcessNumByContractKey : string → string → string → Z;
  pm_GetReadyOrBusyProcessNum : string → string → string → Z;
}.

(** Process requests are taken. *)
Class ProcessManagerLaws `{P : ProcessManagerI} : Prop := {
  pm_request m : pm_PutMsg (AnyGetProcessReq m) = None;
}.

(** [interfaces.ContractManager]: the error of [PutMsg]. *)
Class ContractManagerI := {
  cmgr_PutMsg : AnyMsg → option gerr;
}.

Class ContractManagerLaws `{C : ContractManagerI} : Prop := {
  cmgr_docker m : cmgr_PutMsg (AnyDockerVM m) = None;
  cmgr_bad m : cmgr_PutMsg (AnyBadContract m) = None;
}.
