(* ===== verification/EngineUtils.v ===== *)
(** * vm_mgr/utils: keys, process names, the original/cross test, step durations *)

From S2P Require Import Prelude Messages.

(** ** Keys and names *)

(** [ConstructContractKey(names ...string)]. *)
Definition ConstructContractKey (names : list string) : string := join names.

(** The key of a chain, a contract and a version, as every caller builds it. *)
Definition contractKey (chainID contractName contractVersion : string) : string :=
  ConstructContractKey [chainID; contractName; contractVersion].

#[global] Arguments contractKey : simpl never.

Definition constructProcessName (names : list string) : string := join names.

Definition ConstructProcessName (chainID contractName contractVersion : string)
    (localIndex overallIndex : Z) (isOrig : bool) : string :=
  let typeStr := if negb isOrig then "c" else "o" in
  constructProcessName [chainID; typeStr; contractName; contractVersion;
                        itoa localIndex; itoa overallIndex].

#[global] Arguments ConstructProcessName : simpl never.

(** ** Original or cross transaction *)

Section orig.
Context `{ProtocolConsts}.

(** [uint64(1 << (59 - common.RuntimeType_GO))]. *)
Definition typeBit : Z := Z.shiftl 1 (59 - RuntimeType_GO).

Definition hasUsed (ctxBitmap : Z) : bool := 0 <? Z.land typeBit ctxBitmap.

(** [IsOrig] reads [tx.CrossContext], which panics when it is nil. *)
Definition IsOrig (tx : DockerVMMessage) : option bool :=
  match m_CrossContext tx with
  | None => None
  | Some cc => Some ((cc_CurrentDepth cc =? 0) || negb (hasUsed (cc_CrossInfo cc)))
  end.

(** [hasUsed] reads bit [59 - RuntimeType_GO] of the bitmap and nothing else. *)
Lemma hasUsed_testbit `{!ProtocolConstsOk} n :
  0 ≤ n → hasUsed n = Z.testbit n (59 - RuntimeType_GO).
Proof.
  intros Hn. pose proof runtime_go_range. unfold hasUsed, typeBit.
  set (i := 59 - RuntimeType_GO). assert (0 ≤ i) by (unfold i; lia).
  assert (Z.land (Z.shiftl 1 i) n = if Z.testbit n i then 2 ^ i else 0) as ->.
  { rewrite Z.shiftl_1_l. apply Z.bits_inj'. intros j Hj.
    rewrite Z.land_spec, Z.pow2_bits_eqb by done.
    destruct (Z.eqb_spec i j) as [<-|Hij].
    - destruct (Z.testbit n i); cbn; [by rewrite Z.pow2_bits_true|by rewrite Z.bits_0].
    - destruct (Z.testbit n i); cbn; [by rewrite Z.pow2_bits_false|by rewrite Z.bits_0]. }
  destruct (Z.testbit n i); [|done]. apply Z.ltb_lt. by apply Z.pow_pos_nonneg.
Qed.
End orig.

(** [Min(a, b int)]. *)
Definition Min (a b : Z) : Z := if a <? b then a else b.

Lemma Min_spec a b : Min a b = Z.min a b.
Proof. unfold Min. case_match; lia. Qed.

(** ** Injectivity of the keys *)

(** Two contract keys are equal only for the same chain, contract and version, when none
    of the names contains the separator. *)
Lemma contractKey_inj c n v c' n' v' :
  Forall (λ x, has_char hash x = false) [c; n; v; c'; n'; v'] →
  contractKey c n v = contractKey c' n' v' → c = c' ∧ n = n' ∧ v = v'.
Proof.
  intros HF E. assert (Hs : split (contractKey c n v) = split (contractKey c' n' v')) by by rewrite E.
  unfold contractKey, ConstructContractKey in Hs.
  rewrite !split_join in Hs; [by simplify_eq|done|..|done|]; by decompose_Forall.
Qed.

(** The overall index, and the text before it, can be read back from a process name,
    whatever characters the chain, contract and version contain. *)
Lemma ConstructProcessName_overall c n v l o b c' n' v' l' o' b' :
  ConstructProcessName c n v l o b = ConstructProcessName c' n' v' l' o' b' → o = o'.
Proof.
  unfold ConstructProcessName, constructProcessName. intros E.
  change (join ([c; (if negb b then "c" else "o"); n; v; itoa l] ++ [itoa o]) =
          join ([c'; (if negb b' then "c" else "o"); n'; v'; itoa l'] ++ [itoa o'])) in E.
  rewrite !join_snoc in E by done.
  apply last_piece_inj in E as [_ E]; [by apply (inj itoa)|apply itoa_no_hash..].
Qed.

(** ** Step durations *)

(** [endTxStep(msg)]: the last step ends at [now]. *)
Definition endStep (now first : Z) (st : StepDuration) : StepDuration :=
  mkStep (sd_Type st) (sd_StartTime st) (now - sd_StartTime st) (now - first) (sd_Msg st).

Definition endTxSteps (now : Z) (l : list StepDuration) : list StepDuration :=
  match l with
  | [] => []
  | first :: _ => alter (endStep now (sd_StartTime first)) (pred (length l)) l
  end.

Definition set_steps (l : list StepDuration) (m : DockerVMMessage) : DockerVMMessage :=
  mkMessage (m_TxId m) (m_Type m) (m_CrossContext m) (m_SysCallMessage m) (m_Request m) (m_Response m)
    (m_ChainId m) l.

Definition endTxStep (now : Z) (msg : DockerVMMessage) : DockerVMMessage :=
  set_steps (endTxSteps now (m_StepDurations msg)) msg.

(** [addTxStep(msg, stepType, log)]. *)
Definition addTxStep (now : Z) (msg : DockerVMMessage) (stepType : StepType) (log : string) : DockerVMMessage :=
  set_steps (m_StepDurations msg ++ [mkStep stepType now 0 0 log]) msg.

(** [EnterNextStep(msg, stepType, getStr)], with the clock as it is read when a step ends, when the
    next one is added, and when that one ends at once. *)
Definition EnterNextStep (slowDisable : bool) (now now' now'' : Z) (msg : DockerVMMessage) (stepType : StepType)
    (log : string) : DockerVMMessage :=
  if slowDisable then msg
  else
    let m1 := if decide (stepType ≠ RUNTIME_PREPARE_TX_REQUEST) then endTxStep now msg else msg in
    let m2 := addTxStep now' m1 stepType log in
    if decide (stepType = RUNTIME_HANDLE_TX_RESPONSE ∨ stepType = ENGINE_PROCESS_RECEIVE_TX_RESPONSE)
    then endTxStep now'' m2 else m2.

Lemma EnterNextStep_frame d now now' now'' m t log :
  let m' := EnterNextStep d now now' now'' m t log in
  m_TxId m' = m_TxId m ∧ m_Type m' = m_Type m ∧ m_CrossContext m' = m_CrossContext m ∧
  m_Request m' = m_Request m ∧ m_Response m' = m_Response m ∧ m_ChainId m' = m_ChainId m.
Proof. unfold EnterNextStep. repeat case_match; done. Qed.
