(* ===== verification/Lru.v ===== *)
(** * vm_mgr/utils/lru.go: the LRU cache of contracts

    The cache is a [container/list] of entries, most recently used first, and a Go map from
    keys to list elements. The model keeps both, with the elements' identities, and refines
    them to one list of key-value pairs. *)

From S2P Require Import Prelude.

Module Lru.
Section lru.
Context {K V : Type} `{Countable K}.

(** A [*list.Element] (its identity) with the [entry] it holds. *)
Record element := mkElement {
  el_ptr : positive;
  el_key : K;
  el_value : V;
}.

(** The two fields that [Clear] sets to nil together. *)
Record store := mkStore {
  st_ll : list element;
  st_cache : gmap K positive;
  st_next : positive;
}.

(** [Cache]; [c_evicted] records the calls of [OnEvicted] when the callback is set. *)
Record Cache := mkCache {
  MaxEntries : Z;
  OnEvicted : bool;
  c_store : option store;
  c_evicted : list (K * V);
}.

(** *** container/list *)

Fixpoint remove_el (p : positive) (l : list element) : list element :=
  match l with
  | [] => []
  | e :: l' => if decide (el_ptr e = p) then l' else e :: remove_el p l'
  end.

Fixpoint get_el (p : positive) (l : list element) : option element :=
  match l with
  | [] => None
  | e :: l' => if decide (el_ptr e = p) then Some e else get_el p l'
  end.

(** [l.MoveToFront(e)]. *)
Definition MoveToFront (p : positive) (l : list element) : list element :=
  match get_el p l with
  | Some e => e :: remove_el p l
  | None => l
  end.

(** [ee.Value.value = value] on the entry of an element. *)
Definition set_value (p : positive) (v : V) (l : list element) : list element :=
  (λ e, if decide (el_ptr e = p) then mkElement p (el_key e) v else e) <$> l.

(** *** The operations *)

Definition NewCache (maxEntries : Z) : Cache :=
  mkCache maxEntries false (Some (mkStore [] ∅ 1%positive)) [].

Definition set_store (c : Cache) (st : store) : Cache :=
  mkCache (MaxEntries c) (OnEvicted c) (Some st) (c_evicted c).

(** [removeElement]: the element leaves the list, its key the map, and the callback runs. *)
Definition removeElement (c : Cache) (st : store) (e : element) : Cache :=
  mkCache (MaxEntries c) (OnEvicted c)
    (Some (mkStore (remove_el (el_ptr e) (st_ll st)) (delete (el_key e) (st_cache st)) (st_next st)))
    (if OnEvicted c then c_evicted c ++ [(el_key e, el_value e)] else c_evicted c).

Definition RemoveOldest (c : Cache) : Cache :=
  match c_store c with
  | None => c
  | Some st =>
    match last (st_ll st) with
    | Some e => removeElement c st e
    | None => c
    end
  end.

Definition Add (c : Cache) (key : K) (value : V) : Cache :=
  let st := default (mkStore [] ∅ 1%positive) (c_store c) in
  match st_cache st !! key with
  | Some p =>
    set_store c (mkStore (set_value p value (MoveToFront p (st_ll st))) (st_cache st) (st_next st))
  | None =>
    let ele := mkElement (st_next st) key value in
    let c' := set_store c (mkStore (ele :: st_ll st) (<[key := st_next st]> (st_cache st))
                                   (Pos.succ (st_next st))) in
    if negb (MaxEntries c =? 0) && (MaxEntries c <? Z.of_nat (S (length (st_ll st))))
    then RemoveOldest c' else c'
  end.

Definition Get (c : Cache) (key : K) : option V * Cache :=
  match c_store c with
  | None => (None, c)
  | Some st =>
    match st_cache st !! key with
    | Some p =>
      (el_value <$> get_el p (st_ll st),
       set_store c (mkStore (MoveToFront p (st_ll st)) (st_cache st) (st_next st)))
    | None => (None, c)
    end
  end.

Definition Remove (c : Cache) (key : K) : Cache :=
  match c_store c with
  | None => c
  | Some st =>
    match st_cache st !! key ≫= λ p, get_el p (st_ll st) with
    | Some e => removeElement c st e
    | None => c
    end
  end.

Definition GetOldest (c : Cache) : option V :=
  match c_store c with
  | None => None
  | Some st => el_value <$> last (st_ll st)
  end.

Definition Len (c : Cache) : Z :=
  match c_store c with
  | None => 0
  | Some st => Z.of_nat (length (st_ll st))
  end.

(** [Clear] runs the callback on every entry (in map order, here list order) and drops both
    structures. *)
Definition Clear (c : Cache) : Cache :=
  mkCache (MaxEntries c) (OnEvicted c) None
    (if OnEvicted c
     then c_evicted c ++ ((λ e, (el_key e, el_value e)) <$> default [] (st_ll <$> c_store c))
     else c_evicted c).

(** *** Abstraction and invariant *)

Definition kv (e : element) : K * V := (el_key e, el_value e).

(** The contents, most recently used first. *)
Definition items (c : Cache) : list (K * V) := kv <$> default [] (st_ll <$> c_store c).

Record wf_store (st : store) : Prop := {
  wf_ptrs : NoDup (el_ptr <$> st_ll st);
  wf_keys : NoDup (el_key <$> st_ll st);
  wf_next : ∀ e, e ∈ st_ll st → (el_ptr e < st_next st)%positive;
  wf_map : ∀ k p, st_cache st !! k = Some p ↔ ∃ e, e ∈ st_ll st ∧ el_key e = k ∧ el_ptr e = p;
}.

Definition wf (c : Cache) : Prop := ∀ st, c_store c = Some st → wf_store st.

(** *** The specification: a list of pairs with distinct keys *)

Definition spec_touch (l : list (K * V)) (k : K) (v : V) : list (K * V) := (k, v) :: al_remove l k.

Definition spec_drop (l : list (K * V)) : list (K * V) := take (pred (length l)) l.

Definition spec_add (max : Z) (l : list (K * V)) (k : K) (v : V) : list (K * V) :=
  match al_get l k with
  | Some _ => spec_touch l k v
  | None =>
    if negb (max =? 0) && (max <? Z.of_nat (S (length l)))
    then spec_drop ((k, v) :: l) else (k, v) :: l
  end.

Definition spec_get (l : list (K * V)) (k : K) : option V * list (K * V) :=
  match al_get l k with
  | Some v => (Some v, spec_touch l k v)
  | None => (None, l)
  end.

(** *** Lemmas on the list of elements *)

Lemma NoDup_fmap_elem_inj {B} (f : element → B) l x y :
  NoDup (f <$> l) → x ∈ l → y ∈ l → f x = f y → x = y.
Proof.
  induction l as [|z l IH]; cbn; [set_solver|].
  intros [Hz Hl]%list.NoDup_cons [->|Hx]%elem_of_cons [->|Hy]%elem_of_cons E; [done|..|by apply IH].
  - destruct Hz. rewrite E. by apply list_elem_of_fmap_2.
  - destruct Hz. rewrite <-E. by apply list_elem_of_fmap_2.
Qed.

Lemma get_el_Some p l e : get_el p l = Some e → e ∈ l ∧ el_ptr e = p.
Proof. induction l as [|x l IH]; cbn; [done|]. case_decide; set_solver. Qed.

Lemma get_el_elem l e : NoDup (el_ptr <$> l) → e ∈ l → get_el (el_ptr e) l = Some e.
Proof.
  induction l as [|x l IH]; cbn; [set_solver|]. intros [Hx Hl]%list.NoDup_cons [->|He]%elem_of_cons.
  - by rewrite decide_True.
  - rewrite decide_False; [by apply IH|]. intros E. apply Hx. rewrite E. by apply list_elem_of_fmap_2.
Qed.

Lemma kv_keys (l : list element) : (kv <$> l).*1 = el_key <$> l.
Proof. by rewrite <-list_fmap_compose. Qed.

Lemma remove_el_elem p l e : NoDup (el_ptr <$> l) → e ∈ remove_el p l ↔ e ∈ l ∧ el_ptr e ≠ p.
Proof.
  induction l as [|x l IH]; cbn; [set_solver|]. intros [Hx Hl]%list.NoDup_cons.
  case_decide as E.
  - split; [|set_solver]. intros He. split; [set_solver|]. intros <-. apply Hx. rewrite E.
    by apply list_elem_of_fmap_2.
  - set_solver.
Qed.

Lemma remove_el_sub {B} (f : element → B) p l : sublist (f <$> remove_el p l) (f <$> l).
Proof.
  induction l as [|x l IH]; cbn; [constructor|]. case_decide; by constructor.
Qed.

(** Removing an element removes its key from the contents. *)
Lemma kv_remove_el l e : NoDup (el_ptr <$> l) → NoDup (el_key <$> l) → e ∈ l →
  kv <$> remove_el (el_ptr e) l = al_remove (kv <$> l) (el_key e).
Proof.
  induction l as [|x l IH]; cbn; [set_solver|].
  intros [Hx Hl]%list.NoDup_cons [Kx Kl]%list.NoDup_cons [->|He]%elem_of_cons.
  - rewrite !decide_True by done. symmetry. apply al_remove_None, al_get_None. by rewrite kv_keys.
  - rewrite !decide_False; cbn; [by rewrite IH| |].
    + intros E. apply Kx. rewrite E. by apply list_elem_of_fmap_2.
    + intros E. apply Hx. rewrite E. by apply list_elem_of_fmap_2.
Qed.

Lemma al_get_kv l e : NoDup (el_key <$> l) → e ∈ l → al_get (kv <$> l) (el_key e) = Some (el_value e).
Proof.
  intros HN He. apply al_get_nodup; [by rewrite kv_keys|].
  apply list_elem_of_fmap. by exists e.
Qed.

Lemma set_value_cons p v e l :
  set_value p v (e :: l) =
  (if decide (el_ptr e = p) then mkElement p (el_key e) v else e) :: set_value p v l.
Proof. done. Qed.

Lemma set_value_id p v l : p ∉ (el_ptr <$> l) → set_value p v l = l.
Proof.
  induction l as [|x l IH]; cbn; [done|]. intros Hp.
  rewrite decide_False by set_solver. f_equal. apply IH. set_solver.
Qed.

(** *** Lookups through the map and through the list agree *)

Lemma lookup_items st k : wf_store st →
  st_cache st !! k = None ↔ al_get (kv <$> st_ll st) k = None.
Proof.
  intros [Hp Hk Hn Hm]. rewrite al_get_None, kv_keys.
  split.
  - intros HN (e & -> & He)%list_elem_of_fmap.
    assert (st_cache st !! el_key e = Some (el_ptr e)) by (apply Hm; eauto). congruence.
  - intros Hni. destruct (st_cache st !! k) as [p|] eqn:E; [|done].
    apply Hm in E as (e & He & <- & _). destruct Hni. by apply list_elem_of_fmap_2.
Qed.

Lemma lookup_element st k p : wf_store st → st_cache st !! k = Some p →
  ∃ e, e ∈ st_ll st ∧ el_key e = k ∧ el_ptr e = p ∧ get_el p (st_ll st) = Some e.
Proof.
  intros Hwf Hk. apply (wf_map _ Hwf) in Hk as (e & He & <- & <-).
  exists e. split_and!; [done..|]. by apply get_el_elem; [apply Hwf|].
Qed.

(** *** Moving and removing keep the invariant *)

Lemma wf_reorder st l : wf_store st → l ≡ₚ st_ll st →
  wf_store (mkStore l (st_cache st) (st_next st)).
Proof.
  intros [Hp Hk Hn Hm] HP. split; cbn.
  - by rewrite HP.
  - by rewrite HP.
  - intros e. rewrite HP. apply Hn.
  - intros k p. rewrite Hm. by setoid_rewrite HP.
Qed.

Lemma remove_el_perm l e : NoDup (el_ptr <$> l) → e ∈ l → e :: remove_el (el_ptr e) l ≡ₚ l.
Proof.
  induction l as [|x l IH]; cbn; [set_solver|]. intros [Hx Hl]%list.NoDup_cons [->|He]%elem_of_cons.
  - by rewrite decide_True.
  - rewrite decide_False.
    + by rewrite Permutation_swap, IH.
    + intros E. apply Hx. rewrite E. by apply list_elem_of_fmap_2.
Qed.

Lemma wf_removed st e : wf_store st → e ∈ st_ll st →
  wf_store (mkStore (remove_el (el_ptr e) (st_ll st)) (delete (el_key e) (st_cache st)) (st_next st)).
Proof.
  intros [Hp Hk Hn Hm] He. split; cbn.
  - by eapply sublist_NoDup, remove_el_sub.
  - by eapply sublist_NoDup, remove_el_sub.
  - intros x [Hx _]%remove_el_elem; [by apply Hn|done].
  - intros k p. rewrite lookup_delete_Some, Hm. setoid_rewrite remove_el_elem; [|done].
    split.
    + intros (Hne & x & Hx & <- & <-). exists x. split_and!; [done| |done..].
      intros E. apply Hne. f_equal.
      by apply (NoDup_fmap_elem_inj el_ptr (st_ll st)).
    + intros (x & (Hx & Hne) & <- & <-). split; [|eauto].
      intros E. apply Hne. f_equal. symmetry.
      by apply (NoDup_fmap_elem_inj el_key (st_ll st)).
Qed.

Lemma last_app_elem (l : list element) e : last l = Some e → e ∈ l.
Proof. intros (l' & ->)%last_Some. set_solver. Qed.

(** *** Refinement, operation by operation *)

Lemma NewCache_spec max : wf (NewCache max) ∧ items (NewCache max) = [].
Proof.
  split; [|done]. intros st [= <-]. split; cbn; try constructor; try set_solver.
Qed.

Lemma removeElement_spec c st e : wf c → c_store c = Some st → e ∈ st_ll st →
  wf (removeElement c st e) ∧ items (removeElement c st e) = al_remove (items c) (el_key e).
Proof.
  intros Hwf Hst He. pose proof (Hwf _ Hst) as Hw. split.
  - intros st' [= <-]. by apply wf_removed.
  - unfold items. rewrite Hst. cbn. apply kv_remove_el; [apply Hw..|done].
Qed.

(** Removing the key of the last pair drops the last pair. *)
Lemma al_remove_last (l : list (K * V)) k v : NoDup l.*1 → last l = Some (k, v) →
  al_remove l k = spec_drop l.
Proof.
  intros HN (l' & ->)%last_Some. unfold spec_drop.
  rewrite length_app. replace (pred _) with (length l') by (cbn; lia). rewrite take_app_length.
  rewrite fmap_app in HN. apply NoDup_app in HN as (_ & HN & _).
  assert (al_get l' k = None) as Hk by (apply al_get_None; set_solver).
  clear HN. induction l' as [|[k1 v1] l' IH]; cbn in *; [by rewrite decide_True|].
  case_decide; [done|]. f_equal. by apply IH.
Qed.

Lemma RemoveOldest_spec c : wf c → wf (RemoveOldest c) ∧ items (RemoveOldest c) = spec_drop (items c).
Proof.
  intros Hwf. unfold RemoveOldest. destruct (c_store c) as [st|] eqn:Hst.
  2: { split; [done|]. unfold items. by rewrite Hst. }
  pose proof (Hwf _ Hst) as Hw.
  destruct (last (st_ll st)) as [e|] eqn:Hl.
  - assert (e ∈ st_ll st) as He by by apply last_app_elem.
    destruct (removeElement_spec c st e Hwf Hst He) as [? ->]. split; [done|].
    unfold items. rewrite Hst. cbn. apply al_remove_last with (el_value e).
    + rewrite kv_keys. apply Hw.
    + by rewrite fmap_last, Hl.
  - split; [done|]. apply last_None in Hl. unfold items. rewrite Hst. cbn. by rewrite Hl.
Qed.

Lemma set_store_spec c st : wf_store st → wf (set_store c st) ∧ items (set_store c st) = kv <$> st_ll st.
Proof. intros Hw. split; [|done]. by intros st' [= <-]. Qed.

(** Moving an element to the front and setting its value: the contents are touched. *)
Lemma touch_spec st p e v : wf_store st → e ∈ st_ll st → el_ptr e = p →
  let l := set_value p v (MoveToFront p (st_ll st)) in
  wf_store (mkStore l (st_cache st) (st_next st)) ∧
  kv <$> l = spec_touch (kv <$> st_ll st) (el_key e) v.
Proof.
  intros Hw He <-. pose proof Hw as [Hp Hk Hn Hm]. unfold MoveToFront.
  rewrite get_el_elem, set_value_cons, decide_True by done.
  assert (el_ptr e ∉ (el_ptr <$> remove_el (el_ptr e) (st_ll st))) as Hni.
  { intros (x & E & (Hx & Hne)%remove_el_elem)%list_elem_of_fmap; [by rewrite E in Hne|done]. }
  rewrite set_value_id by done.
  set (e' := mkElement (el_ptr e) (el_key e) v).
  assert (∀ x, x ∈ e' :: remove_el (el_ptr e) (st_ll st) → ∃ y, y ∈ st_ll st ∧
            el_ptr y = el_ptr x ∧ el_key y = el_key x) as Hin.
  { intros x [->|(?&_)%remove_el_elem]%elem_of_cons; [by exists e|by exists x|done]. }
  pose proof (remove_el_perm _ _ Hp He) as HP.
  split.
  - split; cbn.
    + change (NoDup (el_ptr <$> (e :: remove_el (el_ptr e) (st_ll st)))). by rewrite HP.
    + change (NoDup (el_key <$> (e :: remove_el (el_ptr e) (st_ll st)))). by rewrite HP.
    + intros x (y & Hy & <- & _)%Hin. by apply Hn.
    + intros k p. rewrite Hm. split.
      * intros (y & Hy & <- & <-). rewrite <-HP in Hy. apply elem_of_cons in Hy as [->|Hy].
        -- exists e'. split_and!; [set_solver|done..].
        -- exists y. split_and!; [set_solver|done..].
      * intros (x & (y & Hy & E1 & E2)%Hin & <- & <-). eauto.
  - cbn. unfold spec_touch. by rewrite kv_remove_el.
Qed.

Lemma Add_new_spec c st key value : wf_store st → st_cache st !! key = None →
  let st' := mkStore (mkElement (st_next st) key value :: st_ll st)
               (<[key := st_next st]> (st_cache st)) (Pos.succ (st_next st)) in
  wf (set_store c st') ∧ items (set_store c st') = (key, value) :: (kv <$> st_ll st).
Proof.
  intros Hw Hk. pose proof Hw as [Hp Hkeys Hn Hm].
  apply (lookup_items _ _ Hw), al_get_None in Hk. rewrite kv_keys in Hk.
  apply (set_store_spec c). split; cbn.
  - apply NoDup_cons. split; [|done]. intros (x & E & Hx)%list_elem_of_fmap.
    apply Hn in Hx. rewrite E in Hx. lia.
  - apply NoDup_cons. by split.
  - intros x [->|Hx]%elem_of_cons; cbn; [lia|]. apply Hn in Hx. lia.
  - intros k p. rewrite lookup_insert_Some, Hm. split.
    + intros [[<- <-]|[Hne (e & He & <- & <-)]]; [eexists; split; [by left|done]|].
      exists e. split; [by right|done].
    + intros (e & [->|He]%elem_of_cons & <- & <-); [by left|right]. split; [|eauto].
      intros ->. apply Hk. by apply list_elem_of_fmap_2.
Qed.

Lemma Add_spec c key value : wf c →
  wf (Add c key value) ∧ items (Add c key value) = spec_add (MaxEntries c) (items c) key value.
Proof.
  intros Hwf. unfold Add. set (st := default _ (c_store c)).
  assert (wf_store st ∧ items c = kv <$> st_ll st) as [Hw ->].
  { unfold st, items. destruct (c_store c) eqn:E; cbn; [by split; [apply Hwf|]|].
    split; [|done]. by apply (NewCache_spec 0). }
  unfold spec_add. destruct (st_cache st !! key) as [p|] eqn:Hk.
  - destruct (lookup_element _ _ _ Hw Hk) as (e & He & <- & <- & Hg).
    rewrite al_get_kv by (done || apply Hw).
    destruct (touch_spec st _ e value Hw He eq_refl) as [Hw' Hi].
    destruct (set_store_spec c _ Hw') as [? ->]. by split.
  - rewrite (proj1 (lookup_items _ _ Hw) Hk), length_fmap.
    destruct (Add_new_spec c st key value Hw Hk) as [Hw' Hi].
    case_match; [|by rewrite Hi].
    destruct (RemoveOldest_spec _ Hw') as [? ->]. by rewrite Hi.
Qed.

Lemma Get_spec c key : wf c →
  wf (Get c key).2 ∧ ((Get c key).1, items (Get c key).2) = spec_get (items c) key.
Proof.
  intros Hwf. unfold Get, spec_get. destruct (c_store c) as [st|] eqn:Hst.
  2: { split; [done|]. unfold items. cbn. by rewrite Hst. }
  assert (items c = kv <$> st_ll st) as -> by (unfold items; by rewrite Hst).
  pose proof (Hwf _ Hst) as Hw. destruct (st_cache st !! key) as [p|] eqn:Hk; cbn.
  - destruct (lookup_element _ _ _ Hw Hk) as (e & He & <- & <- & Hg).
    rewrite al_get_kv, Hg by (done || apply Hw). cbn.
    unfold MoveToFront. rewrite Hg.
    destruct (set_store_spec c (mkStore (e :: remove_el (el_ptr e) (st_ll st)) (st_cache st) (st_next st))) as [? _].
    { apply wf_reorder; [done|]. cbn. apply remove_el_perm; [apply Hw|done]. }
    split; [done|]. unfold items, spec_touch. cbn. rewrite kv_remove_el; [done|apply Hw..|done].
  - rewrite (proj1 (lookup_items _ _ Hw) Hk). split; [done|]. unfold items. by rewrite Hst.
Qed.

Lemma Remove_spec c key : wf c → wf (Remove c key) ∧ items (Remove c key) = al_remove (items c) key.
Proof.
  intros Hwf. unfold Remove. destruct (c_store c) as [st|] eqn:Hst.
  2: { split; [done|]. unfold items. by rewrite Hst. }
  pose proof (Hwf _ Hst) as Hw. destruct (st_cache st !! key) as [p|] eqn:Hk; cbn.
  - destruct (lookup_element _ _ _ Hw Hk) as (e & He & <- & <- & Hg). rewrite Hg.
    by apply removeElement_spec.
  - split; [done|]. symmetry. apply al_remove_None. unfold items. rewrite Hst. cbn.
    by apply lookup_items.
Qed.

Lemma Len_items c : Len c = Z.of_nat (length (items c)).
Proof. unfold Len, items. destruct (c_store c); cbn; [|done]. by rewrite length_fmap. Qed.

Lemma GetOldest_items c : GetOldest c = snd <$> last (items c).
Proof.
  unfold GetOldest, items. destruct (c_store c); cbn; [|done].
  rewrite fmap_last. by destruct (last _).
Qed.

Lemma items_nodup c : wf c → NoDup (items c).*1.
Proof.
  intros Hwf. unfold items. destruct (c_store c) as [st|] eqn:E; cbn; [|constructor].
  rewrite kv_keys. by apply (Hwf _ E).
Qed.

Lemma Clear_spec c : wf (Clear c) ∧ items (Clear c) = [].
Proof. split; [|done]. by intros st [=]. Qed.

(** *** Sequences of operations *)

Inductive op := OAdd (k : K) (v : V) | OGet (k : K) | ORemove (k : K)
| ORemoveOldest | OGetOldest | OLen | OClear.

(** What an operation shows to its caller. *)
Inductive out := OutNone | OutVal (o : option V) | OutLen (n : Z).

Definition exec (c : Cache) (o : op) : out * Cache :=
  match o with
  | OAdd k v => (OutNone, Add c k v)
  | OGet k => let '(r, c') := Get c k in (OutVal r, c')
  | ORemove k => (OutNone, Remove c k)
  | ORemoveOldest => (OutNone, RemoveOldest c)
  | OGetOldest => (OutVal (GetOldest c), c)
  | OLen => (OutLen (Len c), c)
  | OClear => (OutNone, Clear c)
  end.

Definition spec_exec (max : Z) (l : list (K * V)) (o : op) : out * list (K * V) :=
  match o with
  | OAdd k v => (OutNone, spec_add max l k v)
  | OGet k => let '(r, l') := spec_get l k in (OutVal r, l')
  | ORemove k => (OutNone, al_remove l k)
  | ORemoveOldest => (OutNone, spec_drop l)
  | OGetOldest => (OutVal (snd <$> last l), l)
  | OLen => (OutLen (Z.of_nat (length l)), l)
  | OClear => (OutNone, [])
  end.

Fixpoint run {A} (ex : A → op → out * A) (a : A) (ops : list op) : list out * A :=
  match ops with
  | [] => ([], a)
  | o :: ops' =>
    let '(r, a') := ex a o in let '(rs, a'') := run ex a' ops' in (r :: rs, a'')
  end.

Lemma RemoveOldest_max c : MaxEntries (RemoveOldest c) = MaxEntries c.
Proof. unfold RemoveOldest. by repeat case_match. Qed.

Lemma exec_max c o : MaxEntries (exec c o).2 = MaxEntries c.
Proof.
  destruct o; cbn; try done.
  - unfold Add. repeat case_match; try done. by rewrite RemoveOldest_max.
  - unfold Get. repeat case_match; by simplify_eq/=.
  - unfold Remove. by repeat case_match.
  - apply RemoveOldest_max.
Qed.

(** One operation simulates its specification. *)
Lemma exec_sim c o : wf c →
  wf (exec c o).2 ∧ ((exec c o).1, items (exec c o).2) = spec_exec (MaxEntries c) (items c) o.
Proof.
  intros Hwf. destruct o as [k v|k|k| | | |]; cbn.
  - destruct (Add_spec c k v Hwf) as [? ->]. done.
  - destruct (Get_spec c k Hwf) as [? E]. destruct (Get c k), (spec_get _ _). cbn in *. by simplify_eq.
  - destruct (Remove_spec c k Hwf) as [? ->]. done.
  - destruct (RemoveOldest_spec c Hwf) as [? ->]. done.
  - by rewrite GetOldest_items.
  - by rewrite Len_items.
  - by split; [apply Clear_spec|].
Qed.

Lemma run_sim ops c : wf c →
  wf (run exec c ops).2 ∧ MaxEntries (run exec c ops).2 = MaxEntries c ∧
  ((run exec c ops).1, items (run exec c ops).2) = run (spec_exec (MaxEntries c)) (items c) ops.
Proof.
  revert c. induction ops as [|o ops IH]; intros c Hwf; [done|]. cbn.
  destruct (exec_sim c o Hwf) as [Hwf' E]. pose proof (exec_max c o) as Hm.
  destruct (exec c o) as [r c']. cbn in *.
  destruct (spec_exec (MaxEntries c) (items c) o) as [r2 l2]. simplify_eq.
  destruct (IH c' Hwf') as (Hw & Hm2 & E2).
  destruct (run exec c' ops) as [rs c'']. rewrite Hm in E2. cbn in *.
  destruct (run (spec_exec (MaxEntries c)) (items c') ops). simplify_eq.
  split_and!; [done|congruence|done].
Qed.

(** [C37] Whatever sequence of operations is run on a new cache, the caller sees the
    results of a list of pairs with distinct keys ordered from the most to the least
    recently used: the map, the element list and the pointers between them never diverge. *)
Theorem lru_refines_list (max : Z) (ops : list op) :
  (run exec (NewCache max) ops).1 = (run (spec_exec max) [] ops).1.
Proof.
  destruct (run_sim ops (NewCache max)) as (_ & _ & E); [apply NewCache_spec|].
  cbn in E. by destruct (run (spec_exec max) [] ops); simplify_eq.
Qed.

Lemma spec_drop_length (l : list (K * V)) : length (spec_drop l) = pred (length l).
Proof. unfold spec_drop. rewrite length_take. lia. Qed.

Lemma al_remove_length_le (l : list (K * V)) k : (length (al_remove l k) ≤ length l)%nat.
Proof. induction l as [|[k' v'] l IH]; cbn; [done|]. case_decide; cbn; lia. Qed.

Lemma spec_touch_length (l : list (K * V)) k v : NoDup l.*1 → is_Some (al_get l k) →
  length (spec_touch l k v) = length l.
Proof.
  intros HN Hs. cbn. rewrite al_remove_length by done.
  destruct l; [by destruct Hs|done].
Qed.

Lemma exec_bound c o : wf c → MaxEntries c ≠ 0 → Len c ≤ Z.max 0 (MaxEntries c) →
  Len (exec c o).2 ≤ Z.max 0 (MaxEntries c).
Proof.
  intros Hwf Hm. destruct (exec_sim c o Hwf) as [_ E]. pose proof (items_nodup c Hwf) as HN.
  rewrite !Len_items. intros Hb. destruct (exec c o) as [r c']. cbn [fst snd] in *.
  destruct o; cbn in E; try (by injection E as -> ->).
  - injection E as -> ->. unfold spec_add.
    destruct (al_get (items c) k) eqn:Ek.
    + rewrite spec_touch_length; [done..|by rewrite Ek].
    + case_match eqn:Eb; [rewrite spec_drop_length; cbn [length]; lia|].
      apply andb_false_iff in Eb as [Eb%negb_false_iff|Eb]; [lia|].
      apply Z.ltb_ge in Eb. rewrite length_cons. lia.
  - unfold spec_get in E. destruct (al_get (items c) k) eqn:Ek; injection E as -> ->; [|done].
    rewrite spec_touch_length; [done..|by rewrite Ek].
  - injection E as -> ->. pose proof (al_remove_length_le (items c) k). lia.
  - injection E as -> ->. rewrite spec_drop_length. lia.
  - injection E as -> ->. cbn [length]. lia.
Qed.

(** A cache with a limit never holds more than [MaxEntries] entries, after any
    sequence of operations. *)
Theorem lru_bounded (max : Z) (ops : list op) :
  max ≠ 0 → Len (run exec (NewCache max) ops).2 ≤ Z.max 0 max.
Proof.
  intros Hm. cut (∀ c, wf c → MaxEntries c = max → Len c ≤ Z.max 0 max →
                        Len (run exec c ops).2 ≤ Z.max 0 max).
  { intros Hc. apply Hc; [apply NewCache_spec|done|cbn; lia]. }
  induction ops as [|o ops IH]; intros c Hwf <- Hb; cbn; [done|].
  pose proof (exec_bound c o Hwf Hm Hb). pose proof (exec_max c o) as Hmax.
  destruct (exec_sim c o Hwf) as [Hwf' _].
  destruct (exec c o) as [r c']. specialize (IH c'). cbn [fst snd] in *.
  destruct (run exec c' ops). cbn [fst snd] in *. apply IH; [done| |]; congruence || lia.
Qed.
End lru.
End Lru.

(** A cache of two entries under a mix of operations keeps two. *)
Lemma lru_bounded_witness :
  (2 : Z) ≠ 0 ∧
  Lru.Len (Lru.run Lru.exec (Lru.NewCache (K := string) (V := string) 2)
    [Lru.OAdd "a" "1"; Lru.OAdd "b" "2"; Lru.OGet "a"; Lru.OAdd "c" "3"]).2 ≤ Z.max 0 2.
Proof. split; [done|]. apply Lru.lru_bounded. done. Defined.

Example lru_evicts_least_recent :
  Lru.items (Lru.run Lru.exec (Lru.NewCache (K := string) (V := string) 2)
    [Lru.OAdd "a" "1"; Lru.OAdd "b" "2"; Lru.OGet "a"; Lru.OAdd "c" "3"]).2 = [("c", "3"); ("a", "1")].
Proof. reflexivity. Qed.
