(* ===== verification/FixedQueue.v ===== *)
(** * vm_mgr/utils/fixed_queue.go: the fixed-capacity concurrent queue

    [FixedFIFO] is two Go channels: the queue and the channel of listeners that found the
    queue empty. [Enqueue] and [DequeueOrWaitForNextElementContext] are sequences of
    [select]s, each atomic, so calls that run concurrently interleave between them. The
    model is a step relation on the queue and the calls in progress. *)

From S2P Require Import Prelude.

Module FixedQueue.
Section queue.
Context {A : Type}.

(** Whether callers pass contexts that can expire; the engine only uses the background
    context. *)
Context (ctxs : bool).

Definition WaitForNextElementChanCapacity : nat := 4000.

(** [FixedFIFO]: the buffered channel with its capacity, and the listeners' channel. A
    listener is named by the number of the call that waits on it. *)
Record FixedFIFO := mkFIFO {
  q_cap : nat;
  q_queue : list A;
  q_waiting : list nat;
}.

Definition NewFixedFIFO (capacity : nat) : FixedFIFO := mkFIFO capacity [] [].

Definition errFull : gerr := Err "FixedFIFO queue is at full capacity".
Definition errWatchers : gerr := Err "empty queue and can't wait for next element".
Definition errContext : gerr := Err "context error".

(** A call in progress: where it is in its code, or what it returned. *)
Inductive call :=
| EnqSelect (v : A)            (* Enqueue: about to look for a listener *)
| EnqSend (l : nat) (v : A)    (* has taken a listener, about to send to it *)
| EnqPush (v : A)              (* no listener: about to push into the queue *)
| EnqDone (v : A) (err : option gerr)
| DeqSelect (ctx : bool)       (* Dequeue: about to receive from the queue; [ctx]: the context can expire *)
| DeqRegister (ctx : bool)     (* queue was empty: about to register its listener *)
| DeqWait (ctx : bool)         (* waits on its listener *)
| DeqDone (r : A + gerr).

(** [Enqueue(value)]. *)
Definition Enqueue (v : A) : call := EnqSelect v.
(** [DequeueOrWaitForNextElement()]: the background context never expires. *)
Definition DequeueOrWaitForNextElement : call := DeqSelect false.
(** [DequeueOrWaitForNextElementContext(ctx)]. *)
Definition DequeueOrWaitForNextElementContext (ctx : bool) : call := DeqSelect ctx.

Record state := mkState {
  s_q : FixedFIFO;
  s_calls : list call;
}.

(** Call [i] of the state becomes [c]. *)
Definition set_call (i : nat) (c : call) (cs : list call) : list call := <[i := c]> cs.

Inductive step : state → state → Prop :=
| step_enq_listener q cs i v l ls :
    cs !! i = Some (EnqSelect v) → q_waiting q = l :: ls →
    step (mkState q cs) (mkState (mkFIFO (q_cap q) (q_queue q) ls) (set_call i (EnqSend l v) cs))
| step_enq_default q cs i v :
    cs !! i = Some (EnqSelect v) → q_waiting q = [] →
    step (mkState q cs) (mkState q (set_call i (EnqPush v) cs))
| step_enq_send q cs i v l ctx :
    cs !! i = Some (EnqSend l v) → cs !! l = Some (DeqWait ctx) →
    step (mkState q cs) (mkState q (set_call l (DeqDone (inl v)) (set_call i (EnqDone v None) cs)))
| step_enq_push q cs i v :
    cs !! i = Some (EnqPush v) → (length (q_queue q) < q_cap q)%nat →
    step (mkState q cs)
         (mkState (mkFIFO (q_cap q) (q_queue q ++ [v]) (q_waiting q)) (set_call i (EnqDone v None) cs))
| step_enq_full q cs i v :
    cs !! i = Some (EnqPush v) → (q_cap q ≤ length (q_queue q))%nat →
    step (mkState q cs) (mkState q (set_call i (EnqDone v (Some errFull)) cs))
| step_deq_value q cs i ctx v vs :
    cs !! i = Some (DeqSelect ctx) → q_queue q = v :: vs →
    step (mkState q cs) (mkState (mkFIFO (q_cap q) vs (q_waiting q)) (set_call i (DeqDone (inl v)) cs))
| step_deq_default q cs i ctx :
    cs !! i = Some (DeqSelect ctx) → q_queue q = [] →
    step (mkState q cs) (mkState q (set_call i (DeqRegister ctx) cs))
| step_deq_register q cs i ctx :
    cs !! i = Some (DeqRegister ctx) → (length (q_waiting q) < WaitForNextElementChanCapacity)%nat →
    step (mkState q cs)
         (mkState (mkFIFO (q_cap q) (q_queue q) (q_waiting q ++ [i])) (set_call i (DeqWait ctx) cs))
| step_deq_watchers q cs i ctx :
    cs !! i = Some (DeqRegister ctx) → (WaitForNextElementChanCapacity ≤ length (q_waiting q))%nat →
    step (mkState q cs) (mkState q (set_call i (DeqDone (inr errWatchers)) cs))
| step_deq_context q cs i :
    cs !! i = Some (DeqSelect true) ∨ cs !! i = Some (DeqWait true) →
    step (mkState q cs) (mkState q (set_call i (DeqDone (inr errContext)) cs))
| step_new_enq q cs v :
    step (mkState q cs) (mkState q (cs ++ [Enqueue v]))
| step_new_deq q cs ctx :
    (ctx = true → ctxs = true) →
    step (mkState q cs) (mkState q (cs ++ [DequeueOrWaitForNextElementContext ctx])).

Definition init (capacity : nat) : state := mkState (NewFixedFIFO capacity) [].

Definition reachable (capacity : nat) (s : state) : Prop := rtc step (init capacity) s.

(** *** The two operations run alone *)

(** [Enqueue] with no other call between its two [select]s: the queue afterwards, the
    listener the value was handed to when there was one, and the error. *)
Definition EnqueueAlone (q : FixedFIFO) (v : A) : FixedFIFO * option nat * option gerr :=
  match q_waiting q with
  | l :: ls => (mkFIFO (q_cap q) (q_queue q) ls, Some l, None)
  | [] =>
    if (length (q_queue q) <? q_cap q)%nat
    then (mkFIFO (q_cap q) (q_queue q ++ [v]) [], None, None)
    else (q, None, Some errFull)
  end.

(** [DequeueOrWaitForNextElement] by call [i], run alone: the element, an error, or
    ([None]) a wait on the listener it has registered. *)
Definition DequeueAlone (q : FixedFIFO) (i : nat) : FixedFIFO * option (A + gerr) :=
  match q_queue q with
  | v :: vs => (mkFIFO (q_cap q) vs (q_waiting q), Some (inl v))
  | [] =>
    if (length (q_waiting q) <? WaitForNextElementChanCapacity)%nat
    then (mkFIFO (q_cap q) [] (q_waiting q ++ [i]), None)
    else (q, Some (inr errWatchers))
  end.

(** *** Accounting of the elements *)

(** The element a call brought to the queue. *)
Definition submitted (c : call) : list A :=
  match c with
  | EnqSelect v | EnqSend _ v | EnqPush v | EnqDone v _ => [v]
  | _ => []
  end.

(** The element a call still holds, was refused, or returned to its caller. *)
Definition in_flight (c : call) : list A :=
  match c with EnqSelect v | EnqSend _ v | EnqPush v => [v] | _ => [] end.
Definition refused (c : call) : list A :=
  match c with EnqDone v (Some _) => [v] | _ => [] end.
Definition delivered (c : call) : list A :=
  match c with DeqDone (inl v) => [v] | _ => [] end.
Definition outside (c : call) : list A := in_flight c ++ refused c ++ delivered c.

Definition total (f : call → list A) (cs : list call) : list A := concat (f <$> cs).

Lemma total_insert (f : call → list A) cs i c0 c :
  cs !! i = Some c0 → f c0 ++ total f (<[i := c]> cs) ≡ₚ f c ++ total f cs.
Proof.
  unfold total. revert i. induction cs as [|x cs IH]; intros [|i]; cbn; try done.
  - intros [= ->]. by rewrite Permutation_app_swap_app.
  - intros Hi. rewrite Permutation_app_swap_app, (IH i Hi). by rewrite Permutation_app_swap_app.
Qed.

Lemma total_split f g cs : total (λ c, f c ++ g c) cs ≡ₚ total f cs ++ total g cs.
Proof.
  unfold total. induction cs as [|c cs IH]; [done|]. cbn. rewrite IH, <-!app_assoc.
  apply Permutation_app_head. by rewrite Permutation_app_swap_app.
Qed.

Lemma total_app f cs cs' : total f (cs ++ cs') = total f cs ++ total f cs'.
Proof. unfold total. by rewrite fmap_app, concat_app. Qed.

Definition balanced (s : state) : Prop :=
  total submitted (s_calls s) ≡ₚ q_queue (s_q s) ++ total outside (s_calls s).

Lemma balanced_move q q' cs i c0 c :
  cs !! i = Some c0 → submitted c = submitted c0 →
  q_queue q ++ outside c0 ≡ₚ q_queue q' ++ outside c →
  balanced (mkState q cs) → balanced (mkState q' (set_call i c cs)).
Proof.
  unfold balanced, set_call. cbn. intros Hi Hs Ho Hb.
  pose proof (total_insert submitted cs i c0 c Hi) as H1. rewrite Hs in H1.
  apply Permutation_app_inv_l in H1. rewrite H1, Hb.
  pose proof (total_insert outside cs i c0 c Hi) as H2.
  apply (Permutation_app_inv_l (outside c0)).
  rewrite (Permutation_app_swap_app (outside c0) (q_queue q')), H2, !app_assoc.
  apply Permutation_app_tail. by rewrite (Permutation_app_comm (outside c0)).
Qed.

Lemma total_update2 (f : call → list A) cs i j ci cj ci' cj' :
  i ≠ j → cs !! i = Some ci → cs !! j = Some cj →
  (f ci ++ f cj) ++ total f (<[j := cj']> (<[i := ci']> cs)) ≡ₚ (f ci' ++ f cj') ++ total f cs.
Proof.
  intros Hij Hi Hj.
  rewrite <-!app_assoc, (total_insert f (<[i := ci']> cs) j cj cj').
  - rewrite Permutation_app_swap_app, (total_insert f cs i ci ci' Hi).
    by rewrite Permutation_app_swap_app.
  - by rewrite list_lookup_insert_ne.
Qed.

Lemma balanced_new q cs c :
  submitted c = outside c → balanced (mkState q cs) → balanced (mkState q (cs ++ [c])).
Proof.
  unfold balanced. intros Hc Hb. cbn [s_q s_calls] in *. rewrite !total_app, Hb, <-app_assoc.
  do 2 apply Permutation_app_head. unfold total. cbn. by rewrite Hc.
Qed.

Lemma balanced_step s s' : step s s' → balanced s → balanced s'.
Proof.
  intros Hs. destruct Hs as [q cs i v l ls Hi Hw|q cs i v Hi Hw|q cs i v l ctx Hi Hl|q cs i v Hi Hc
    |q cs i v Hi Hc|q cs i ctx v vs Hi Hq|q cs i ctx Hi Hq|q cs i ctx Hi Hw|q cs i ctx Hi Hw
    |q cs i [Hi|Hi]|q cs v|q cs ctx Hctx].
  3: { assert (i ≠ l) as Hil by congruence. unfold balanced, set_call. cbn. intros Hb.
    pose proof (total_update2 submitted cs i l _ _ (EnqDone v None) (DeqDone (inl v)) Hil Hi Hl) as H1.
    pose proof (total_update2 outside cs i l _ _ (EnqDone v None) (DeqDone (inl v)) Hil Hi Hl) as H2.
    cbn in H1, H2. apply (Permutation_app_inv_l [v]) in H1, H2. by rewrite H1, H2. }
  11,12: by apply balanced_new.
  all: eapply balanced_move; [exact Hi|done|cbn; rewrite ?Hq, ?app_nil_r; try done].
  by rewrite <-Permutation_cons_append.
Qed.

(** *** The operations run alone are runs of the step relation *)

Lemma set_call_twice i c c' cs : set_call i c' (set_call i c cs) = set_call i c' cs.
Proof. apply list_insert_insert_eq. Qed.

Lemma EnqueueAlone_steps q cs i v q' l e :
  cs !! i = Some (Enqueue v) → EnqueueAlone q v = (q', l, e) →
  match l with
  | Some l => rtc step (mkState q cs) (mkState q' (set_call i (EnqSend l v) cs))
  | None => rtc step (mkState q cs) (mkState q' (set_call i (EnqDone v e) cs))
  end.
Proof.
  unfold EnqueueAlone. intros Hi. assert (i < length cs)%nat by by eapply lookup_lt_Some.
  destruct (q_waiting q) as [|l0 ls] eqn:Hw.
  - assert (set_call i (EnqPush v) cs !! i = Some (EnqPush v)) as Hp by by apply list_lookup_insert_eq.
    case_match eqn:E; intros [= <- <- <-]; (eapply rtc_l; [by apply (step_enq_default q cs i v)|]);
      rewrite <-(set_call_twice i (EnqPush v) (EnqDone _ _)); apply rtc_once.
    + rewrite <-Hw. apply step_enq_push; [done|]. by apply Nat.ltb_lt.
    + apply step_enq_full; [done|]. by apply Nat.ltb_ge.
  - intros [= <- <- <-]. apply rtc_once. by apply step_enq_listener.
Qed.

Lemma DequeueAlone_steps q cs i q' r :
  cs !! i = Some DequeueOrWaitForNextElement → DequeueAlone q i = (q', r) →
  rtc step (mkState q cs)
    (mkState q' (set_call i (match r with Some r => DeqDone r | None => DeqWait false end) cs)).
Proof.
  unfold DequeueAlone. intros Hi. assert (i < length cs)%nat by by eapply lookup_lt_Some.
  destruct (q_queue q) as [|v vs] eqn:Hq.
  - assert (set_call i (DeqRegister false) cs !! i = Some (DeqRegister false)) as Hp
      by by apply list_lookup_insert_eq.
    case_match eqn:E; intros [= <- <-]; (eapply rtc_l; [by apply (step_deq_default q cs i false)|]);
      [rewrite <-(set_call_twice i (DeqRegister false) (DeqWait false))
      |rewrite <-(set_call_twice i (DeqRegister false) (DeqDone _))]; apply rtc_once.
    + rewrite <-Hq. apply step_deq_register; [done|]. by apply Nat.ltb_lt.
    + apply (step_deq_watchers _ _ _ false); [done|]. by apply Nat.ltb_ge.
  - intros [= <- <-]. apply rtc_once. by apply (step_deq_value q cs i false).
Qed.

(** *** Bounds *)

Definition bounded (capacity : nat) (s : state) : Prop :=
  q_cap (s_q s) = capacity ∧ (length (q_queue (s_q s)) ≤ capacity)%nat ∧
  (length (q_waiting (s_q s)) ≤ WaitForNextElementChanCapacity)%nat.

Lemma bounded_step capacity s s' : step s s' → bounded capacity s → bounded capacity s'.
Proof.
  unfold bounded. intros Hs (Hc & Hq & Hw). revert Hq Hw. rewrite <-Hc.
  destruct Hs; cbn [s_q s_calls q_cap q_queue q_waiting] in *; subst; intros Hq0 Hw0; split_and!;
    rewrite ?length_app; try done.
  - assert (length (q_waiting q) = S (length ls)) as E by by rewrite H0. lia.
  - cbn [length]. lia.
  - assert (length (q_queue q) = S (length vs)) as E by by rewrite H0. lia.
  - cbn [length]. lia.
Qed.

(** *** The listeners *)

(** The listeners a value is sent to, or will be. *)
Definition target (c : call) : list nat := match c with EnqSend l _ => [l] | _ => [] end.
Definition targets (s : state) : list nat := q_waiting (s_q s) ++ concat (target <$> s_calls s).

(** Every listener, queued or taken by an [Enqueue], belongs to one call, which waits. *)
Definition listening (s : state) : Prop :=
  NoDup (targets s) ∧ ∀ l, l ∈ targets s → s_calls s !! l = Some (DeqWait false).

Lemma concat_insert {B} (f : call → list B) cs i c0 c :
  cs !! i = Some c0 → f c0 ++ concat (f <$> <[i := c]> cs) ≡ₚ f c ++ concat (f <$> cs).
Proof.
  revert i. induction cs as [|x cs IH]; intros [|i]; cbn; try done.
  - intros [= ->]. by rewrite Permutation_app_swap_app.
  - intros Hi. rewrite Permutation_app_swap_app, (IH i Hi). by rewrite Permutation_app_swap_app.
Qed.

(** A move of call [i], which is not a waiting one, that leaves the targets as they are. *)
Lemma listening_move q q' cs i c0 c :
  cs !! i = Some c0 → (∀ x, c0 ≠ DeqWait x) →
  q_waiting q ++ target c0 ≡ₚ q_waiting q' ++ target c →
  listening (mkState q cs) → listening (mkState q' (set_call i c cs)).
Proof.
  unfold listening, targets, set_call. cbn [s_q s_calls]. intros Hi Hne Ht [Hnd Hin].
  assert (q_waiting q' ++ concat (target <$> <[i := c]> cs)
          ≡ₚ q_waiting q ++ concat (target <$> cs)) as Hp.
  { pose proof (concat_insert target cs i c0 c Hi) as H2. apply (Permutation_app_inv_l (target c0)).
    rewrite Permutation_app_swap_app, H2, !app_assoc.
    apply Permutation_app_tail. rewrite <-Ht. apply Permutation_app_comm. }
  rewrite Hp. split; [done|]. intros l Hl. rewrite Hp in Hl. specialize (Hin l Hl).
  rewrite list_lookup_insert_ne; [done|]. intros <-. rewrite Hi in Hin. by injection Hin as ->; destruct (Hne false).
Qed.

Lemma listening_new q cs c : target c = [] → listening (mkState q cs) → listening (mkState q (cs ++ [c])).
Proof.
  unfold listening, targets. cbn [s_q s_calls]. rewrite fmap_app, concat_app. cbn. intros ->.
  rewrite !app_nil_r. intros [Hnd Hin]. split; [done|]. intros l Hl. apply lookup_app_l_Some. auto.
Qed.

(** The call that registers itself as a listener is a new one. *)
Lemma listening_register q cs i :
  cs !! i = Some (DeqRegister false) → listening (mkState q cs) →
  listening (mkState (mkFIFO (q_cap q) (q_queue q) (q_waiting q ++ [i])) (set_call i (DeqWait false) cs)).
Proof.
  unfold listening, targets, set_call. cbn [s_q s_calls q_waiting]. intros Hi [Hnd Hin].
  pose proof (concat_insert target cs i _ (DeqWait false) Hi) as Hc. cbn [target app] in Hc.
  rewrite Hc, <-app_assoc, Permutation_app_swap_app. split.
  - cbn. constructor; [|done]. intros Hl. apply Hin in Hl. congruence.
  - intros l Hl. rewrite Hc, <-app_assoc, Permutation_app_swap_app in Hl. cbn in Hl.
    apply elem_of_cons in Hl as [->|Hl].
    + apply list_lookup_insert_eq. by eapply lookup_lt_Some.
    + rewrite list_lookup_insert_ne; [by apply Hin|]. intros <-. apply Hin in Hl. congruence.
Qed.

(** The call that receives its element is no longer a target. *)
Lemma listening_send q cs i l v :
  cs !! i = Some (EnqSend l v) → cs !! l = Some (DeqWait false) → listening (mkState q cs) →
  listening (mkState q (set_call l (DeqDone (inl v)) (set_call i (EnqDone v None) cs))).
Proof.
  unfold listening, targets, set_call. cbn [s_q s_calls]. intros Hi Hl [Hnd Hin].
  assert (i ≠ l) by congruence.
  pose proof (concat_insert target cs i _ (EnqDone v None) Hi) as H1.
  pose proof (concat_insert target (<[i := EnqDone v None]> cs) l (DeqWait false) (DeqDone (inl v))) as H2.
  rewrite list_lookup_insert_ne in H2 by done. specialize (H2 Hl). cbn in H1, H2.
  assert (q_waiting q ++ concat (target <$> cs) ≡ₚ l :: (q_waiting q ++ concat (target <$>
    <[l := DeqDone (inl v)]> (<[i := EnqDone v None]> cs)))) as Hp.
  { rewrite <-H1, H2. by rewrite Permutation_middle. }
  rewrite Hp in Hnd. apply NoDup_cons in Hnd as [Hnl Hnd]. split; [done|]. intros l' Hl'.
  assert (l ≠ l') by by intros ->. rewrite list_lookup_insert_ne by done.
  assert (cs !! l' = Some (DeqWait false)) as Hw by (apply Hin; rewrite Hp; by apply elem_of_cons; right).
  rewrite list_lookup_insert_ne; [done|]. intros <-. congruence.
Qed.

(** No context of a call in progress can expire. *)
Definition ctx_free (s : state) : Prop :=
  ∀ i c, s_calls s !! i = Some c → c ≠ DeqSelect true ∧ c ≠ DeqRegister true ∧ c ≠ DeqWait true.

Lemma ctx_free_move q q' cs i c :
  (c ≠ DeqSelect true ∧ c ≠ DeqRegister true ∧ c ≠ DeqWait true) →
  ctx_free (mkState q cs) → ctx_free (mkState q' (set_call i c cs)).
Proof.
  unfold ctx_free, set_call. cbn [s_calls]. intros Hc Hf j d Hj.
  apply list_lookup_insert_Some in Hj as [(-> & -> & _)|[_ Hj]]; eauto.
Qed.

Lemma ctx_free_app q cs c :
  c ≠ DeqSelect true ∧ c ≠ DeqRegister true ∧ c ≠ DeqWait true →
  ctx_free (mkState q cs) → ctx_free (mkState q (cs ++ [c])).
Proof.
  unfold ctx_free. cbn [s_calls]. intros Hc Hf j d Hj.
  apply lookup_app_Some in Hj as [Hj|[_ Hj]]; [eauto|].
  by apply list_lookup_singleton_Some in Hj as [_ <-].
Qed.

Lemma ctx_free_step s s' : ctxs = false → step s s' → ctx_free s → ctx_free s'.
Proof.
  intros Hcx Hs Hf. destruct Hs.
  all: try (apply (ctx_free_move q); [|done]); try apply ctx_free_app; try done.
  all: try (by destruct ctx; [destruct (Hf i _ H) as (?&?&?)|]).
  - apply (ctx_free_move q); [done|]. by apply (ctx_free_move q).
  - destruct ctx; [|done]. rewrite H in Hcx by done. done.
Qed.

Lemma listening_step s s' : step s s' → ctx_free s → listening s → listening s'.
Proof.
  intros Hs Hf Hl. destruct Hs as [q cs i v l ls Hi Hw|q cs i v Hi Hw|q cs i v l ctx Hi Hl'|q cs i v Hi Hc
    |q cs i v Hi Hc|q cs i ctx v vs Hi Hq|q cs i ctx Hi Hq|q cs i ctx Hi Hw|q cs i ctx Hi Hw
    |q cs i [Hi|Hi]|q cs v|q cs ctx Hctx].
  3: { destruct ctx; [by destruct (Hf l _ Hl') as (?&?&?)|]. by apply listening_send. }
  7: { destruct ctx; [by destruct (Hf i _ Hi) as (?&?&?)|]. by apply listening_register. }
  8,9: by destruct (Hf i _ Hi) as (?&?&?).
  8,9: by apply listening_new.
  all: eapply (listening_move q); [exact Hi|done| |done]; cbn [q_waiting target]; rewrite ?app_nil_r; try done.
  rewrite Hw. apply Permutation_cons_append.
Qed.

Lemma reachable_ind (I : state → Prop) capacity s :
  I (init capacity) → (∀ s s', step s s' → I s → I s') → reachable capacity s → I s.
Proof.
  intros H0 HI Hr. unfold reachable in Hr. remember (init capacity) as s0 eqn:E. clear E.
  induction Hr; eauto.
Qed.

Lemma reachable_listening capacity s :
  ctxs = false → reachable capacity s → listening s.
Proof.
  intros Hcx Hr. cut (ctx_free s ∧ listening s); [by intros [_ ?]|].
  revert Hr. apply (reachable_ind (λ s, ctx_free s ∧ listening s)).
  - split; [by intros i c|]. split; [apply NoDup_nil_2|]. cbn. intros l Hl. by apply elem_of_nil in Hl.
  - intros s1 s2 Hs [Hf Hl]. eauto using ctx_free_step, listening_step.
Qed.

(** An [Enqueue] call in progress, or one that has returned. *)
Definition enqueueing (c : call) (v : A) : Prop :=
  c = EnqSelect v ∨ (∃ l, c = EnqSend l v) ∨ c = EnqPush v.

Lemma push_returns s i v :
  s_calls s !! i = Some (EnqPush v) → ∃ s' e, step s s' ∧ s_calls s' !! i = Some (EnqDone v e).
Proof.
  destruct s as [q cs]. cbn. intros Hi.
  assert (i < length cs)%nat as Hlt by by eapply lookup_lt_Some.
  destruct (decide (length (q_queue q) < q_cap q)%nat) as [Hc|Hc].
  - eexists _, None. split; [by apply (step_enq_push q cs i v)|]. by apply list_lookup_insert_eq.
  - eexists _, _. split; [apply (step_enq_full q cs i v Hi); lia|]. by apply list_lookup_insert_eq.
Qed.

Lemma send_returns s i l v :
  listening s → s_calls s !! i = Some (EnqSend l v) →
  ∃ s', step s s' ∧ s_calls s' !! i = Some (EnqDone v None).
Proof.
  destruct s as [q cs]. intros [_ Hl] Hi. cbn in Hi.
  assert (cs !! l = Some (DeqWait false)) as Hw.
  { apply Hl. unfold targets. cbn [s_calls]. apply elem_of_app. right. apply list_elem_of_In, in_concat.
    exists [l]. split; [|by left]. apply list_elem_of_In, list_elem_of_fmap. exists (EnqSend l v).
    split; [done|]. by eapply list_elem_of_lookup_2. }
  eexists. split; [by apply (step_enq_send q cs i v l false)|]. cbn. unfold set_call.
  rewrite list_lookup_insert_ne by congruence. apply list_lookup_insert_eq. by eapply lookup_lt_Some.
Qed.

(** [C38] No element is lost or duplicated: at any moment, whatever calls run
    concurrently and however they interleave, the elements brought by the [Enqueue] calls
    are those in the queue, those still held by a call, those refused because the queue was
    full, and those that a dequeuing call returned; and the queue and the channel of
    listeners are within their capacities. *)
Theorem fifo_conservation capacity s :
  reachable capacity s →
  total submitted (s_calls s) ≡ₚ
    q_queue (s_q s) ++ total in_flight (s_calls s) ++ total refused (s_calls s)
      ++ total delivered (s_calls s) ∧
  (length (q_queue (s_q s)) ≤ capacity)%nat ∧
  (length (q_waiting (s_q s)) ≤ WaitForNextElementChanCapacity)%nat.
Proof.
  intros Hr. split.
  - assert (balanced s) as Hb by (revert Hr; apply (reachable_ind balanced); [apply perm_nil|]; apply balanced_step).
    unfold balanced in Hb. rewrite Hb.
    apply Permutation_app_head. unfold outside. by rewrite !total_split.
  - assert (bounded capacity s) as (_ & ? & ?); [|done].
    revert Hr. apply (reachable_ind (bounded capacity)); [|apply bounded_step]. split_and!; cbn; lia.
Qed.

(** While no caller's context can expire, which is how the engine uses the
    queue, an [Enqueue] never waits: from any reachable state the call in progress returns
    within two of its own steps (a listener it has taken is always there to receive). *)
Theorem enqueue_never_blocks capacity s i c v :
  ctxs = false → reachable capacity s → s_calls s !! i = Some c → enqueueing c v →
  ∃ n s' e, (n ≤ 2)%nat ∧ nsteps step n s s' ∧ s_calls s' !! i = Some (EnqDone v e).
Proof.
  intros Hcx Hr Hi [->|[[l ->]| ->]].
  - destruct s as [q cs]. cbn in Hi. assert (i < length cs)%nat as Hlt by by eapply lookup_lt_Some.
    destruct (q_waiting q) as [|l ls] eqn:Hw.
    + pose proof (step_enq_default q cs i v Hi Hw) as S1.
      destruct (push_returns (mkState q (set_call i (EnqPush v) cs)) i v) as (s' & e & S2 & ?).
      { by apply list_lookup_insert_eq. }
      exists 2%nat, s', e. split_and!; [done| |done]. by eapply nsteps_l, nsteps_once.
    + pose proof (step_enq_listener q cs i v l ls Hi Hw) as S1.
      assert (reachable capacity (mkState (mkFIFO (q_cap q) (q_queue q) ls) (set_call i (EnqSend l v) cs)))
        as Hr1 by by eapply rtc_r.
      destruct (send_returns _ i l v (reachable_listening _ _ Hcx Hr1)) as (s' & S2 & ?).
      { by apply list_lookup_insert_eq. }
      exists 2%nat, s', None. split_and!; [done| |done]. by eapply nsteps_l, nsteps_once.
  - destruct (send_returns s i l v) as (s' & S & ?); [by eapply reachable_listening|done|].
    exists 1%nat, s', None. split_and!; [lia|by apply nsteps_once|done].
  - destruct (push_returns s i v) as (s' & e & S & ?); [done|]. 
    exists 1%nat, s', e. split_and!; [lia|by apply nsteps_once|done].
Qed.
End queue.

(** A run in which a dequeuing call registers only after an [Enqueue] has found no listener. *)
Lemma lost_wakeup_run (v : Z) :
  reachable false 1 (mkState (mkFIFO 1 [v] [0%nat]) [DeqWait false; EnqDone v None]).
Proof.
  unfold reachable, init.
  eapply rtc_l; [apply (step_new_deq false _ _ false); done|].
  eapply rtc_l; [apply (step_deq_default false _ _ 0 false); done|].
  eapply rtc_l; [apply (step_new_enq false _ _ v)|].
  eapply rtc_l; [apply (step_enq_default false _ _ 1 v); done|].
  eapply rtc_l; [apply (step_enq_push false _ _ 1 v); [done|cbn; lia]|].
  eapply rtc_l; [apply (step_deq_register false _ _ 0 false); [done|cbn; unfold WaitForNextElementChanCapacity; lia]|].
  apply rtc_refl.
Qed.

Lemma fifo_conservation_witness :
  total submitted [DeqWait false; EnqDone 7 None] ≡ₚ [7] ++ [] ++ [] ++ [].
Proof.
  exact (proj1 (fifo_conservation false 1 _ (lost_wakeup_run 7))).
Defined.

Lemma enqueue_never_blocks_witness :
  ∃ n s' e, (n ≤ 2)%nat ∧ nsteps (step false) n (mkState (NewFixedFIFO 1) [Enqueue 7]) s' ∧ s_calls s' !! 0%nat = Some (EnqDone 7 e).
Proof.
  apply (enqueue_never_blocks false 1 _ 0 (Enqueue 7) 7); [done| |done|by left].
  unfold reachable, init. apply rtc_once. apply (step_new_enq false _ [] 7).
Defined.

(** A race between the two operations: a dequeuing call can be left waiting
    although an element lies in the queue and no other call is in progress, because it
    looked at the queue before the element was pushed and registered its listener after
    the pushing call had looked for one. *)
Theorem fifo_lost_wakeup :
  ∃ s v, reachable false 1 s ∧ q_queue (s_q s) = [v] ∧
    s_calls s = [DeqWait false; EnqDone v None] ∧
    ∀ s', step false s s' → ∃ c : call (A := Z), s_calls s' = s_calls s ++ [c].
Proof.
  exists (mkState (mkFIFO 1 [7] [0%nat]) [DeqWait false; EnqDone 7 None]), 7.
  split_and!; [apply lost_wakeup_run|done..|].
  intros s' Hs. inversion Hs; subst; cbn in *.
  11: by exists (Enqueue v).
  11: by exists (DequeueOrWaitForNextElementContext ctx).
  all: repeat match goal with
    | H : [DeqWait false; EnqDone _ None] !! ?i = Some _ |- _ => destruct i as [|[|[]]]; cbn in H; try done
    | H : _ ∨ _ |- _ => destruct H
    end.
Qed.
End FixedQueue.
