(* ===== verification/Users.v ===== *)
(** * vm_mgr/module/core: user.go and user_manager.go

    The Linux users the sandboxes run as. [UserManager] creates them at start-up, one
    goroutine per user, and keeps the free ones in a [FixedFIFO]; a process manager takes a
    user for each process it starts and gives it back when the process is removed. *)

From S2P Require Import Prelude Messages FixedQueue.

Module Users.
Import FixedQueue.

(** ** user.go *)

Record User := mkUser {
  Uid : Z;
  Gid : Z;
  UserName : string;
  SockPath : string;
}.

#[export] Instance User_eq_dec : EqDecision User.
Proof. solve_decision. Defined.

Definition SandboxRPCDir : string := "/sandbox".
Definition SandboxRPCSockName : string := "sandbox.sock".

Definition NewUser (id : Z) : User :=
  mkUser id id ("u-" +:+ itoa id) (SandboxRPCDir +:+ "/" +:+ SandboxRPCSockName).

#[export] Instance NewUser_inj : Inj (=) (=) NewUser.
Proof. by intros ? ? [= ?]. Qed.

(** ** user_manager.go *)

Definition _baseUid : Z := 10000.

Record UserManager := mkUserManager {
  userQueue : FixedFIFO (A := User);
  userNum : Z;
}.

Section manager.
Context `{ProtocolConsts}.

(** [config.DockerVMConfig.Process.MaxOriginalProcessNum]. *)
Context (MaxOriginalProcessNum : Z).

(** The answers of the operating system: the error of [user.LookupId] for a uid other than
    "unknown user", and how many times [useradd] fails before it succeeds. *)
Context (lookupErr : Z → option gerr) (addFails : Z → nat).

Definition GetMaxUserNum : Z := MaxOriginalProcessNum * (CallContractDepth + 1).

(** [NewUsersManager()]; [make(chan, n)] panics for a negative capacity. *)
Definition NewUsersManager : option UserManager :=
  if GetMaxUserNum <? 0 then None
  else Some (mkUserManager (NewFixedFIFO (Z.to_nat GetMaxUserNum)) GetMaxUserNum).

(** The state the goroutines share: the users the system knows, the manager, and the users
    handed directly to a waiting [GetAvailableUser] call. *)
Record world := mkWorld {
  w_os : gset Z;
  w_um : UserManager;
  w_handed : list (nat * User);
}.

(** Where a goroutine of [BatchCreateUsers] is in [generateNewUser]. *)
Inductive gen :=
| GLookup (uid : Z)
| GAdd (uid : Z) (fails : nat)
| GEnqSelect (uid : Z)
| GEnqPush (uid : Z)
| GDone (uid : Z) (err : option gerr).

Definition gen_done (t : gen) : bool := match t with GDone _ _ => true | _ => false end.

Definition set_queue (w : world) (q : FixedFIFO) : world :=
  mkWorld (w_os w) (mkUserManager q (userNum (w_um w))) (w_handed w).

(** [generateNewUser(uid)], one statement that touches shared state at a time: look the
    user up, run useradd until it succeeds, enqueue the user. *)
Definition generateNewUser (t : gen) (w : world) : outcome (gen * world) :=
  let q := userQueue (w_um w) in
  match t with
  | GLookup uid =>
    match lookupErr uid with
    | Some e => Ret (GDone uid (Some e), w)
    | None => if decide (uid ∈ w_os w) then Ret (GEnqSelect uid, w) else Ret (GAdd uid (addFails uid), w)
    end
  | GAdd uid (S k) => Ret (GAdd uid k, w)
  | GAdd uid O => Ret (GEnqSelect uid, mkWorld ({[uid]} ∪ w_os w) (w_um w) (w_handed w))
  | GEnqSelect uid =>
    match q_waiting q with
    | l :: ls =>
      let w1 := set_queue w (mkFIFO (q_cap q) (q_queue q) ls) in
      Ret (GDone uid None, mkWorld (w_os w1) (w_um w1) (w_handed w1 ++ [(l, NewUser uid)]))
    | [] => Ret (GEnqPush uid, w)
    end
  | GEnqPush uid =>
    if (length (q_queue q) <? q_cap q)%nat
    then Ret (GDone uid None, set_queue w (mkFIFO (q_cap q) (q_queue q ++ [NewUser uid]) (q_waiting q)))
    else Ret (GDone uid (Some (Wrap "failed to add created user to queue" errFull)), w)
  | GDone _ _ => Ret (t, w)
  end.

Definition totalNum : Z := MaxOriginalProcessNum * (CallContractDepth + 1).

Definition uids : list Z := (λ i, _baseUid + i) <$> seqZ 0 totalNum.

(** [BatchCreateUsers()]: [totalNum] goroutines under a schedule; the error is always nil. *)
Definition BatchCreateUsers (sched : list nat) (w : world) : outcome (list gen * world) :=
  run_group generateNewUser gen_done sched (GLookup <$> uids) w.

(** [releaseUser(id)] and [ReleaseUsers()]; [delErr] is the error of [userdel], if any. *)
Inductive rel := RDel (uid : Z) | RDone (uid : Z) (err : option gerr).

Definition rel_done (t : rel) : bool := match t with RDone _ _ => true | _ => false end.

Definition releaseUser (delErr : Z → option gerr) (t : rel) (w : world) : outcome (rel * world) :=
  match t with
  | RDel uid =>
    match delErr uid with
    | Some e => Ret (RDone uid (Some (Wrap "failed to exec" e)), w)
    | None => Ret (RDone uid None, mkWorld (w_os w ∖ {[uid]}) (w_um w) (w_handed w))
    end
  | RDone _ _ => Ret (t, w)
  end.

Definition ReleaseUsers (delErr : Z → option gerr) (sched : list nat) (w : world) : outcome (list rel * world) :=
  run_group (releaseUser delErr) rel_done sched (RDel <$> uids) w.

(** [GetAvailableUser()] by caller [i]: a user, an error, or ([None]) a wait. *)
Definition GetAvailableUser (i : nat) (um : UserManager) : UserManager * option (User + gerr) :=
  let '(q, r) := DequeueAlone (userQueue um) i in
  (mkUserManager q (userNum um),
   match r with
   | None => None
   | Some (inl u) => Some (inl u)
   | Some (inr e) => Some (inr (Wrap "failed to call DequeueOrWaitForNextElement" e))
   end).

(** [FreeUser(user)]: the waiting caller that gets the user at once, if any, and the error. *)
Definition FreeUser (um : UserManager) (u : User) : UserManager * option nat * option gerr :=
  let '(q, l, e) := EnqueueAlone (userQueue um) u in
  (mkUserManager q (userNum um), l, match e with None => None | Some e => Some (Wrap "failed to enqueue user" e) end).

(** ** Creation of the users *)

(** The user a goroutine has not put anywhere yet. *)
Definition held (t : gen) : list User :=
  match t with
  | GLookup uid | GAdd uid _ | GEnqSelect uid | GEnqPush uid => [NewUser uid]
  | GDone uid (Some _) => [NewUser uid]
  | GDone _ None => []
  end.

(** What a goroutine has established. *)
Definition gen_ok (os : gset Z) (t : gen) : Prop :=
  match t with
  | GLookup _ | GAdd _ _ => True
  | GEnqSelect uid | GEnqPush uid => uid ∈ os
  | GDone uid err => err = None ∧ uid ∈ os
  end.

Definition gen_uid (t : gen) : Z :=
  match t with GLookup u | GAdd u _ | GEnqSelect u | GEnqPush u | GDone u _ => u end.

Definition handed_users (w : world) : list User := (w_handed w).*2.

Definition creating (ts : list gen) (w : world) : Prop :=
  concat (held <$> ts) ++ q_queue (userQueue (w_um w)) ++ handed_users w ≡ₚ NewUser <$> uids ∧
  q_cap (userQueue (w_um w)) = Z.to_nat GetMaxUserNum ∧
  Forall (gen_ok (w_os w)) ts ∧ gen_uid <$> ts = uids.

Lemma held_insert ts i t t' :
  ts !! i = Some t → held t ++ concat (held <$> <[i := t']> ts) ≡ₚ held t' ++ concat (held <$> ts).
Proof.
  revert i. induction ts as [|x ts IH]; intros [|i]; cbn; try done.
  - intros [= ->]. by rewrite Permutation_app_swap_app.
  - intros Hi. rewrite Permutation_app_swap_app, (IH i Hi). by rewrite Permutation_app_swap_app.
Qed.

Lemma gen_ok_mono os os' t : os ⊆ os' → gen_ok os t → gen_ok os' t.
Proof. destruct t; cbn; naive_solver. Qed.

Lemma uids_length : 0 ≤ totalNum → length uids = Z.to_nat totalNum.
Proof. intros. unfold uids. rewrite length_fmap, length_seqZ. done. Qed.

Lemma GetMaxUserNum_total : GetMaxUserNum = totalNum.
Proof. done. Qed.

(** A goroutine about to push finds room: every user in the queue is another one. *)
Lemma push_has_room ts w i uid :
  creating ts w → ts !! i = Some (GEnqPush uid) →
  (length (q_queue (userQueue (w_um w))) < q_cap (userQueue (w_um w)))%nat.
Proof.
  intros (Hp & Hc & _) Hi. apply Permutation_length in Hp.
  pose proof (held_insert ts i _ (GDone uid None) Hi) as Hh. apply Permutation_length in Hh.
  revert Hp Hh. rewrite Hc, GetMaxUserNum_total, !length_app, length_fmap. cbn.
  assert (length uids = Z.to_nat totalNum) as ->; [|lia].
  unfold uids. by rewrite length_fmap, length_seqZ.
Qed.

(** One goroutine's move, given what it gains. *)
Lemma creating_move ts w i t t' w' :
  creating ts w → ts !! i = Some t →
  held t ++ q_queue (userQueue (w_um w)) ++ handed_users w
    ≡ₚ held t' ++ q_queue (userQueue (w_um w')) ++ handed_users w' →
  q_cap (userQueue (w_um w')) = q_cap (userQueue (w_um w)) → w_os w ⊆ w_os w' →
  gen_ok (w_os w') t' → gen_uid t' = gen_uid t → creating (<[i := t']> ts) w'.
Proof.
  intros (Hp & Hc & Hok & Hu) Hi Hheld Hcap Hos Hok' Hu'. split_and!.
  - rewrite <-Hp. apply (Permutation_app_inv_l (held t)).
    rewrite app_assoc, (held_insert ts i t t' Hi), <-app_assoc,
      (Permutation_app_swap_app (held t')), <-Hheld. by rewrite Permutation_app_swap_app.
  - by rewrite Hcap.
  - apply Forall_insert; [|done]. eapply Forall_impl; [exact Hok|]. intros x. by apply gen_ok_mono.
  - rewrite list_fmap_insert, Hu', Hu. apply list_insert_id. rewrite <-Hu, list_lookup_fmap, Hi. done.
Qed.

Lemma creating_step ts w i t t' w' :
  (∀ uid, lookupErr uid = None) → creating ts w → ts !! i = Some t → gen_done t = false →
  generateNewUser t w = Ret (t', w') → creating (<[i := t']> ts) w'.
Proof.
  intros Hl Hc Hi Hd Hs. assert (gen_ok (w_os w) t) as Hok.
  { destruct Hc as (_&_&Hok&_). rewrite Forall_lookup in Hok. eauto. }
  destruct t as [uid|uid [|k]|uid|uid|]; unfold generateNewUser in Hs; cbv beta iota zeta in Hs; rewrite ?Hl in Hs; try done.
  - case_decide; injection Hs as <- <-; by eapply creating_move.
  - injection Hs as <- <-. eapply creating_move; cbn; try done; set_solver.
  - injection Hs as <- <-. by eapply creating_move.
  - destruct (q_waiting _) as [|l ls]; injection Hs as <- <-; [by eapply creating_move|].
    eapply creating_move; try done. unfold handed_users. cbn. rewrite fmap_app. cbn.
    rewrite app_assoc. apply Permutation_cons_append.
  - pose proof (push_has_room ts w i uid Hc Hi) as Hroom. apply Nat.ltb_lt in Hroom. rewrite Hroom in Hs.
    injection Hs as <- <-. eapply creating_move; try done. unfold handed_users. cbn.
    rewrite <-app_assoc. apply Permutation_middle.
Qed.

(** The manager and the world before [BatchCreateUsers]; callers may already be waiting. *)
Definition fresh_world (os : gset Z) (waiting : list nat) : world :=
  mkWorld os (mkUserManager (mkFIFO (Z.to_nat GetMaxUserNum) [] waiting) GetMaxUserNum) [].

Lemma creating_init os waiting : creating (GLookup <$> uids) (fresh_world os waiting).
Proof.
  unfold creating, fresh_world, handed_users. cbn [w_um w_os w_handed userQueue q_queue q_cap].
  rewrite !app_nil_r. split_and!; [|done| |].
  - clear. induction uids as [|x l IH]; cbn; [done|]. by rewrite IH.
  - apply Forall_fmap. by apply Forall_true.
  - rewrite <-list_fmap_compose. apply list_fmap_id.
Qed.

(** When the batch creation of the users returns, however its goroutines are
    interleaved with each other, every user exists in the system, no goroutine met an
    error, and the queue together with the users handed to callers already waiting holds
    each of the [MaxOriginalProcessNum * (CallContractDepth + 1)] users exactly once. *)
Theorem users_created os waiting sched ts w :
  (∀ uid, lookupErr uid = None) →
  BatchCreateUsers sched (fresh_world os waiting) = Ret (ts, w) →
  q_queue (userQueue (w_um w)) ++ handed_users w ≡ₚ NewUser <$> uids ∧
  (∀ uid, uid ∈ uids → uid ∈ w_os w) ∧ Forall (λ t, ∃ uid, t = GDone uid None) ts ∧
  length ts = Z.to_nat GetMaxUserNum.
Proof.
  intros Hl Hrun. unfold BatchCreateUsers in Hrun.
  eapply (run_group_inv _ _ creating) in Hrun as ((Hp & Hc & Hok & Hu) & Hdone & _);
    [|by intros; eapply creating_step|apply creating_init].
  assert (Forall (λ t, ∃ uid, t = GDone uid None ∧ uid ∈ w_os w) ts) as Hall.
  { rewrite Forall_lookup in Hok, Hdone |- *. intros i t Hi. specialize (Hok i t Hi).
    specialize (Hdone i t Hi). destruct t; try done. destruct Hok as [-> ?]. eauto. }
  split_and!.
  - rewrite <-Hp. enough (concat (held <$> ts) = []) as -> by done. clear -Hall.
    induction Hall as [|t ts (uid & -> & _) _ IH]; [done|]. cbn. by rewrite IH.
  - intros uid Hin. rewrite <-Hu in Hin. apply list_elem_of_fmap in Hin as (t & -> & Ht).
    rewrite Forall_forall in Hall. by destruct (Hall t Ht) as (u & -> & ?).
  - eapply Forall_impl; [exact Hall|]. naive_solver.
  - rewrite <-(length_fmap gen_uid), Hu. unfold uids. by rewrite length_fmap, length_seqZ.
Qed.

(** The steps a goroutine still takes. *)
Definition gen_steps (t : gen) : nat :=
  match t with
  | GLookup uid => 4 + addFails uid
  | GAdd _ k => 3 + k
  | GEnqSelect _ => 2
  | GEnqPush _ => 1
  | GDone _ _ => 0
  end.

Lemma gen_progress t w :
  gen_done t = false → ∃ t' w', generateNewUser t w = Ret (t', w') ∧ (gen_steps t' < gen_steps t)%nat.
Proof.
  destruct t as [uid|uid [|k]|uid|uid|]; cbn; intros; try done; repeat case_match;
    eexists _, _; (split; [done|cbn; lia]).
Qed.

(** The batch creation returns under every schedule that gives each goroutine
    its turns (four, and one more for each failing [useradd]): no goroutine ever waits for
    another one. *)
Theorem users_creation_returns w sched :
  (∀ i uid, uids !! i = Some uid → (4 + addFails uid ≤ occurs i sched)%nat) →
  ∃ r, BatchCreateUsers sched w = Ret r.
Proof.
  intros Hs. apply (run_group_total _ _ gen_steps).
  - intros l s. apply gen_progress.
  - intros i l Hi _. rewrite list_lookup_fmap in Hi. apply fmap_Some in Hi as (uid & Hu & ->).
    by apply Hs.
Qed.
End manager.

(** A sample: two original processes, depth 1, useradd failing twice for one user, one
    caller waiting. *)
Definition sampleDepth : ProtocolConsts :=
  {| CallContractDepth := 1; GasLimit := 100; RuntimeType_GO := 4 |}.
Definition sampleFails (uid : Z) : nat := if uid =? 10001 then 2 else 0.
Definition sampleSched : list nat := concat (replicate 8 [3; 0; 2; 1]%nat).

Lemma users_created_witness :
  match BatchCreateUsers (H := sampleDepth) 2 (λ _, None) sampleFails sampleSched
          (fresh_world (H := sampleDepth) 2 {[10002]} [9%nat]) with
  | Ret (_, w) =>
    q_queue (userQueue (w_um w)) ++ handed_users w ≡ₚ NewUser <$> [10000; 10001; 10002; 10003]
  | _ => False
  end.
Proof.
  destruct (BatchCreateUsers (H := sampleDepth) 2 (λ _, None) sampleFails sampleSched
          (fresh_world (H := sampleDepth) 2 {[10002]} [9%nat])) as [[ts w]| |] eqn:E.
  - exact (proj1 (users_created (H := sampleDepth) 2 (λ _, None) sampleFails {[10002]} [9%nat]
      sampleSched ts w (λ _, eq_refl) E)).
  - vm_compute in E. discriminate E.
  - vm_compute in E. discriminate E.
Defined.

Lemma users_creation_returns_witness :
  ∃ r, BatchCreateUsers (H := sampleDepth) 2 (λ _, None) sampleFails sampleSched
         (fresh_world (H := sampleDepth) 2 ∅ []) = Ret r.
Proof.
  apply (users_creation_returns (H := sampleDepth) 2 (λ _, None) sampleFails).
  intros i uid Hi. do 4 (destruct i as [|i]; [injection Hi as <-; vm_compute; lia|]). done.
Defined.
End Users.
