(* ===== verification/ContractManager.v ===== *)
(** * vm_mgr/module/core/contract_manager.go

    The contract manager keeps the contract binaries: an LRU cache of contract keys and the
    files on disk. It answers the request groups when a contract is ready and asks the chain,
    through the scheduler, for the contracts it does not have. *)

From S2P Require Import Prelude Messages Interfaces EngineUtils Lru.

Module ContractManager.

Definition ContractsDir : string := "contract-bins".
Definition DockerMountDir : string := "/mount".
Definition _contractManagerEventChSize : nat := 64.
Definition _sizePerContract : Z := 15.

(** A message sent: to the scheduler, or to the request group of a contract. *)
Inductive sent :=
| ToScheduler (m : AnyMsg)
| ToGroup (chainID contractName contractVersion : string) (m : AnyMsg).

(** The manager, the files of the contract directory, and what it has sent. *)
Record ContractManager := mkCM {
  contractsLRU : Lru.Cache (K := string) (V := string);
  eventCh : list AnyMsg;
  mountDir : string;
  disk : gmap string string;
  outbox : list sent;
}.

Definition set_lru (c : Lru.Cache) (cm : ContractManager) : ContractManager :=
  mkCM c (eventCh cm) (mountDir cm) (disk cm) (outbox cm).
Definition set_disk (d : gmap string string) (cm : ContractManager) : ContractManager :=
  mkCM (contractsLRU cm) (eventCh cm) (mountDir cm) d (outbox cm).
Definition send (s : sent) (cm : ContractManager) : ContractManager :=
  mkCM (contractsLRU cm) (eventCh cm) (mountDir cm) (disk cm) (outbox cm ++ [s]).
Definition set_eventCh (l : list AnyMsg) (cm : ContractManager) : ContractManager :=
  mkCM (contractsLRU cm) l (mountDir cm) (disk cm) (outbox cm).

Lemma spec_touch_in (l : list (string * string)) k v x y :
  (x, y) ∈ Lru.spec_touch l k v ↔ ((x = k ∧ y = v) ∨ ((x, y) ∈ l ∧ x ≠ k)).
Proof. unfold Lru.spec_touch. rewrite elem_of_cons, al_remove_in. naive_solver. Qed.

(** Adding to a cache that has room evicts nothing. *)
Lemma add_room (c : Lru.Cache) (key path : string) :
  Lru.wf c → Lru.Len c < Lru.MaxEntries c →
  Lru.wf (Lru.Add c key path) ∧ Lru.MaxEntries (Lru.Add c key path) = Lru.MaxEntries c ∧
  (∀ x y, (x, y) ∈ Lru.items (Lru.Add c key path) ↔
          ((x = key ∧ y = path) ∨ ((x, y) ∈ Lru.items c ∧ x ≠ key))) ∧
  Lru.Len (Lru.Add c key path) ≤ Lru.Len c + 1 ∧ Lru.Len (Lru.Add c key path) ≤ Lru.MaxEntries c.
Proof.
  intros Hwf Hroom. destruct (Lru.Add_spec c key path Hwf) as [Hwf' Hit].
  pose proof (Lru.exec_max c (Lru.OAdd key path)) as Hm. cbn in Hm.
  rewrite !Lru.Len_items in *. split_and!; [done|done| | |]; rewrite Hit; unfold Lru.spec_add;
    destruct (al_get (Lru.items c) key) as [v|] eqn:Ek.
  1: intros; apply spec_touch_in.
  2,4: rewrite Lru.spec_touch_length; [lia|by apply Lru.items_nodup|by rewrite Ek].
  all: assert ((Lru.MaxEntries c <? Z.of_nat (S (length (Lru.items c)))) = false)
        as -> by (apply Z.ltb_ge; lia); rewrite andb_false_r; try (rewrite length_cons; lia).
  intros x y. rewrite elem_of_cons. apply al_get_None in Ek. split; [|naive_solver].
  intros [[= -> ->]|Hxy]; [by left|]. right. split; [done|]. intros ->. apply Ek.
  apply list_elem_of_fmap. by exists (key, y).
Qed.

Section manager.

(** Configuration: [RPC.ChainRPCProtocol == TCP], and the errors the file system may return
    for an existing file that is removed and for a file that is written. *)
Context (tcp : bool) (rmErr wrErr : string → option gerr).

(** [utils.RemoveDir(path)]: chmod and remove, both of which fail for a missing file. *)
Definition RemoveDir (path : string) : M ContractManager (option gerr) :=
  cm ← getS;
  match disk cm !! path with
  | None => mret (Some (Err "failed to set mod: no such file or directory"))
  | Some _ =>
    match rmErr path with
    | Some e => mret (Some (Wrap "failed to remove file" e))
    | None => modifyS (set_disk (delete path (disk cm)));; mret None
    end
  end.

(** [ioutil.WriteFile(path, data, 0755)]. *)
Definition WriteFile (path data : string) : M ContractManager (option gerr) :=
  cm ← getS;
  match wrErr path with
  | Some e => mret (Some e)
  | None => modifyS (set_disk (<[path := data]> (disk cm)));; mret None
  end.

(** The loop of [initContractLRU] from index [i] on. *)
Fixpoint load_files (i : Z) (files : list string) : M ContractManager (option gerr) :=
  match files with
  | [] => mret None
  | name :: rest =>
    cm ← getS;
    let path := path_join (mountDir cm) name in
    if i <? Lru.MaxEntries (contractsLRU cm)
    then modifyS (set_lru (Lru.Add (contractsLRU cm) name path));; load_files (i + 1) rest
    else e ← RemoveDir path;
         match e with
         | Some err => mret (Some (Wrap "failed to remove contract files" err))
         | None => load_files (i + 1) rest
         end
  end.

(** [initContractLRU()], with the result of [CreateDir] and of [ReadDir], which lists the
    directory sorted by name. *)
Definition initContractLRU (mkdirErr : option gerr) (readDir : list string + gerr) :
    M ContractManager (option gerr) :=
  match mkdirErr with
  | Some e => mret (Some (Wrap "failed to init contract path" e))
  | None =>
    match readDir with
    | inr e => mret (Some (Wrap "failed to read contract dir" e))
    | inl files => load_files 0 files
    end
  end.

(** [NewContractManager()], given [Contract.MaxFileSize] (Go's division rounds to zero) and
    the files found. *)
Definition NewContractManager (maxFileSize : Z) (files : gmap string string) : ContractManager :=
  mkCM (Lru.NewCache (Z.quot maxFileSize _sizePerContract)) []
       (path_join DockerMountDir ContractsDir) files [].

(** [sendContractReadySignal]; [None] is a scheduler that has not been set. *)
Definition readySignal (chainID : string) (status : DockerVMCode) : AnyMsg :=
  AnyDockerVM (mkMessage "" GET_BYTECODE_RESPONSE None None None
    (Some (mkResponse "" status "" "" ∅ ∅ [] "" "" "")) chainID []).

Definition sendContractReadySignal (sched : option SchedulerI)
    (chainID contractName contractVersion : string) (status : DockerVMCode) :
    M ContractManager (option gerr) :=
  match sched with
  | None => mret (Some (Err "request scheduler has not been initialized"))
  | Some sch =>
    if negb (sched_GetRequestGroup chainID contractName contractVersion)
    then mret (Some (Err "failed to get request group"))
    else
      let msg := readySignal chainID status in
      match group_PutMsg msg with
      | Some e => mret (Some (Wrap "failed to invoke request group PutMsg" e))
      | None => modifyS (send (ToGroup chainID contractName contractVersion msg));; mret None
      end
  end.

(** [requestContractFromChain(msg)]: a method call on a nil scheduler panics. *)
Definition requestContractFromChain (sched : option SchedulerI) (msg : DockerVMMessage) :
    M ContractManager (option gerr) :=
  match sched with
  | None => panic
  | Some sch =>
    match sched_PutMsg (AnyDockerVM msg) with
    | Some e => mret (Some (Wrap "failed to invoke scheduler PutMsg" e))
    | None => modifyS (send (ToScheduler (AnyDockerVM msg)));; mret None
    end
  end.

Definition requestKey (rq : TxRequest) : string :=
  contractKey (rq_ChainId rq) (rq_ContractName rq) (rq_ContractVersion rq).
Definition responseKey (rp : TxResponse) : string :=
  contractKey (rp_ChainId rp) (rp_ContractName rp) (rp_ContractVersion rp).

Arguments requestKey : simpl never.
Arguments responseKey : simpl never.

Definition handleGetContractReq (sched : option SchedulerI) (req : DockerVMMessage) :
    M ContractManager (option gerr) :=
  match m_Request req with
  | None => mret (Some (Err "empty request payload"))
  | Some rq =>
    cm ← getS;
    let '(found, c) := Lru.Get (contractsLRU cm) (requestKey rq) in
    modifyS (set_lru c);;
    match found with
    | Some _ =>
      e ← sendContractReadySignal sched (rq_ChainId rq) (rq_ContractName rq) (rq_ContractVersion rq) OK;
      mret (Wrap "failed to handle get bytecode request" <$> e)
    | None =>
      e ← requestContractFromChain sched req;
      mret (Wrap "failed to request contract from chain" <$> e)
    end
  end.

(** Saving a contract: the part of [handleGetContractResp] after the eviction. *)
Definition saveContract (rp : TxResponse) : M ContractManager (option gerr) :=
  cm ← getS;
  let path := path_join (mountDir cm) (responseKey rp) in
  modifyS (set_lru (Lru.Add (contractsLRU cm) (responseKey rp) path));;
  if tcp
  then if String.eqb (rp_Result rp) ""
       then mret (Some (Err "invalid contract, contract is nil"))
       else e ← WriteFile path (rp_Result rp);
            mret (match e with None => None | Some _ => Some (Err "failed to write contract file") end)
  else mret None.

Definition handleGetContractResp (resp : DockerVMMessage) : M ContractManager (option gerr) :=
  match m_Response resp with
  | None => mret (Some (Err "empty response payload"))
  | Some rp =>
    if decide (rp_Code rp = FAIL) then mret (Some (Err "chain failed to load bytecode"))
    else
      cm ← getS;
      if Lru.Len (contractsLRU cm) =? Lru.MaxEntries (contractsLRU cm)
      then
        match Lru.GetOldest (contractsLRU cm) with
        | None => mret (Some (Err "oldest contract is nil"))
        | Some path =>
          modifyS (set_lru (Lru.RemoveOldest (contractsLRU cm)));;
          e ← RemoveDir path;
          match e with
          | Some err => mret (Some (Wrap "failed to remove file" err))
          | None => saveContract rp
          end
        end
      else saveContract rp
  end.

(** [processContractResp(msg, err)] reads [msg.Response] without a test. *)
Definition processContractResp (sched : option SchedulerI) (msg : DockerVMMessage) (err : option gerr) :
    M ContractManager (option gerr) :=
  rp ← deref (m_Response msg);
  let code := match err with Some _ => FAIL | None => OK end in
  sendErr ← sendContractReadySignal sched (rp_ChainId rp) (rp_ContractName rp) (rp_ContractVersion rp) code;
  mret (match sendErr with
        | None => err
        | Some e => Some (Wrap (match err with None => "<nil>" | Some _ => "err" end) e)
        end).

Definition handleBadContractResp (msg : BadContractResp) : M ContractManager (option gerr) :=
  rq ← deref (m_Request (bc_Tx msg));
  cm ← getS;
  let '(found, c) := Lru.Get (contractsLRU cm) (requestKey rq) in
  modifyS (set_lru c);;
  match found with
  | None => mret (Some (Err "contract not exists in lru"))
  | Some path =>
    modifyS (set_lru (Lru.Remove c (requestKey rq)));;
    e ← RemoveDir path;
    mret (Wrap "failed to remove file" <$> e)
  end.

(** The body of the loop of [Start] for one message; errors are only logged. *)
Definition handleEvent (sched : option SchedulerI) (msg : AnyMsg) : M ContractManager unit :=
  match msg with
  | AnyDockerVM m =>
    match m_Type m with
    | GET_BYTECODE_REQUEST => handleGetContractReq sched m;; mret tt
    | GET_BYTECODE_RESPONSE =>
      err ← handleGetContractResp m;
      processContractResp sched m err;; mret tt
    | _ => mret tt
    end
  | AnyBadContract m => handleBadContractResp m;; mret tt
  | _ => mret tt
  end.

(** [PutMsg(msg)]; the channel is buffered, a send on a full one waits. *)
Definition PutMsg (msg : AnyMsg) : M ContractManager (option gerr) :=
  match msg with
  | AnyDockerVM _ | AnyBadContract _ =>
    cm ← getS;
    if (length (eventCh cm) <? _contractManagerEventChSize)%nat
    then modifyS (set_eventCh (eventCh cm ++ [msg]));; mret None
    else block
  | _ => mret (Some (Err "unknown msg type"))
  end.

(** One round of the loop of [Start]: it waits while the channel is empty. *)
Definition loopStep (sched : option SchedulerI) : M ContractManager unit :=
  cm ← getS;
  match eventCh cm with
  | [] => block
  | msg :: rest => modifyS (set_eventCh rest);; handleEvent sched msg
  end.

Definition GetContractMountDir (cm : ContractManager) : string := mountDir cm.

(** ** The files on disk are bounded by the cache *)

(** Files that may lie in the directory without an entry of the cache. *)
Context (loose : string → Prop).

(** What holds between two messages: each entry's path is that of its key, the cache is within its maximum, and
    every file that is not [loose] has an entry. *)
Record cm_inv (max : Z) (cm : ContractManager) : Prop := {
  inv_wf : Lru.wf (contractsLRU cm);
  inv_max : Lru.MaxEntries (contractsLRU cm) = max;
  inv_len : Lru.Len (contractsLRU cm) ≤ max;
  inv_path : ∀ k p, (k, p) ∈ Lru.items (contractsLRU cm) → p = path_join (mountDir cm) k;
  inv_file : ∀ p, is_Some (disk cm !! p) → (∃ k, (k, p) ∈ Lru.items (contractsLRU cm)) ∨ loose p;
}.

(** A lookup only reorders the entries. *)
Lemma inv_get max cm key found c :
  cm_inv max cm → Lru.Get (contractsLRU cm) key = (found, c) →
  cm_inv max (set_lru c cm) ∧ found = al_get (Lru.items (contractsLRU cm)) key ∧
  (∀ x y, (x, y) ∈ Lru.items c ↔ (x, y) ∈ Lru.items (contractsLRU cm)) ∧
  al_get (Lru.items c) key = found ∧ length (Lru.items c) = length (Lru.items (contractsLRU cm)).
Proof.
  intros [Hwf Hmax Hlen Hp Hf] Hg.
  destruct (Lru.Get_spec (contractsLRU cm) key Hwf) as [Hwf' E].
  pose proof (Lru.exec_max (contractsLRU cm) (Lru.OGet key)) as Hm.
  cbn in Hm. rewrite Hg in Hwf', E, Hm. cbn in Hwf', E, Hm. unfold Lru.spec_get in E.
  assert (found = al_get (Lru.items (contractsLRU cm)) key ∧
    (∀ x y, (x, y) ∈ Lru.items c ↔ (x, y) ∈ Lru.items (contractsLRU cm)) ∧
    al_get (Lru.items c) key = found ∧
    length (Lru.items c) = length (Lru.items (contractsLRU cm))) as (Hfd & Hin & Hag & Hl).
  { destruct (al_get (Lru.items (contractsLRU cm)) key) as [v|] eqn:Ek; injection E as -> ->; [|done].
    split_and!; [done| | |].
    - intros x y. rewrite spec_touch_in. pose proof (al_get_Some _ _ _ Ek) as Hkv.
      pose proof (Lru.items_nodup _ Hwf) as Hnd. split; [naive_solver|]. intros Hxy.
      destruct (decide (x = key)) as [->|]; [|auto]. left. split; [done|].
      pose proof (al_get_nodup _ _ _ Hnd Hxy). congruence.
    - unfold Lru.spec_touch. cbn. by rewrite decide_True.
    - apply Lru.spec_touch_length; [by apply Lru.items_nodup|by rewrite Ek]. }
  split; [|done]. split; cbn; try done.
  - congruence.
  - rewrite Lru.Len_items, Hl, <-Lru.Len_items. done.
  - intros k p. rewrite Hin. apply Hp.
  - intros p Hs. destruct (Hf p Hs) as [[k Hk]|]; [left; exists k; by rewrite Hin|by right].
Qed.

(** An entry leaves the cache, and its file the disk unless it is loose. *)
Lemma inv_drop max cm c p d :
  cm_inv max cm → Lru.wf c → Lru.MaxEntries c = max → Lru.Len c ≤ max →
  (∀ x y, (x, y) ∈ Lru.items c → (x, y) ∈ Lru.items (contractsLRU cm)) →
  (∀ x y, (x, y) ∈ Lru.items (contractsLRU cm) → y ≠ p → (x, y) ∈ Lru.items c) →
  d = delete p (disk cm) ∨ (d = disk cm ∧ loose p) →
  cm_inv max (set_disk d (set_lru c cm)).
Proof.
  intros [Hwf Hmax Hlen Hp Hf] Hwf' Hmax' Hlen' Hsub Hrest Hd. split; cbn; try done.
  - intros k q Hq. apply Hp. by apply Hsub.
  - intros q Hq. assert (is_Some (disk cm !! q) ∧ (q ≠ p ∨ loose q)) as [Hq' Hor].
    { destruct Hd as [->|[-> Hl]].
      - destruct Hq as [v [Hne Hv]%lookup_delete_Some]. split; [by eexists|]. left. congruence.
      - split; [done|]. destruct (decide (q = p)) as [->|]; auto. }
    destruct Hor as [Hne|]; [|by right]. destruct (Hf q Hq') as [[k Hk]|]; [left|by right].
    exists k. by apply Hrest.
Qed.

(** A contract is added while there is room, and its file written or not. *)
Lemma inv_add max cm key d :
  cm_inv max cm → Lru.Len (contractsLRU cm) < max →
  (∀ p, is_Some (d !! p) → is_Some (disk cm !! p) ∨ p = path_join (mountDir cm) key) →
  cm_inv max (set_disk d (set_lru (Lru.Add (contractsLRU cm) key (path_join (mountDir cm) key)) cm)).
Proof.
  intros [Hwf Hmax Hlen Hp Hf] Hroom Hd. rewrite <-Hmax in Hroom.
  destruct (add_room _ key (path_join (mountDir cm) key) Hwf Hroom) as (Hwf' & Hm & Hin & _ & Hl).
  split; cbn; [done|congruence|congruence| |].
  - intros k p. rewrite Hin. intros [[-> ->]|[Hk _]]; [done|]. by apply Hp.
  - intros p Hs. destruct (Hd p Hs) as [[[k Hk]|]%Hf| ->]; [| by right|].
    + left. destruct (decide (k = key)) as [->|Hne]; [|by exists k; rewrite Hin; auto].
      exists key. rewrite Hin. left. split; [done|]. by apply Hp.
    + left. exists key. rewrite Hin. by left.
Qed.

(** A file that could not be removed is loose. *)
Hypothesis loose_rm : ∀ p, is_Some (rmErr p) → loose p.

(** [RemoveDir] leaves the disk without the file, whether it was there or not, unless the removal fails. *)
Lemma RemoveDir_spec cm0 p :
  triple (λ cm, cm = cm0) (RemoveDir p)
    (λ _ cm, ∃ d, cm = set_disk d cm0 ∧ (d = delete p (disk cm0) ∨ (d = disk cm0 ∧ loose p))).
Proof.
  intros cm ->. unfold RemoveDir. destruct (disk cm0 !! p) eqn:Ed; [mstep|].
  - eexists _, _. split; [reflexivity|]. exists (disk cm0). split; [by destruct cm0|]. right. split; [done|].
    apply loose_rm. by eexists.
  - eauto 10.
  - mstep. exists (Some (Err "failed to set mod: no such file or directory")), cm0. split; [done|].
    exists (disk cm0). split; [by destruct cm0|]. left. by rewrite delete_id.
Qed.

Lemma inv_send max cm x : cm_inv max cm → cm_inv max (send x cm).
Proof. by intros [? ? ? ? ?]; split. Qed.

Hint Resolve inv_send : vmdb.

Lemma signal_inv max sched c n v status :
  triple (cm_inv max) (sendContractReadySignal sched c n v status) (λ _, cm_inv max).
Proof.
  intros cm Hcm. unfold sendContractReadySignal. destruct sched as [sch|]; [|by mstep; eauto].
  destruct (sched_GetRequestGroup c n v); mstep; eauto with vmdb.
Qed.

Lemma saveContract_inv max rp :
  triple (λ cm, cm_inv max cm ∧ Lru.Len (contractsLRU cm) < max) (saveContract rp) (λ _, cm_inv max).
Proof.
  intros cm [Hi Hl]. unfold saveContract, WriteFile. set (key := responseKey rp).
  assert (cm_inv max (set_lru (Lru.Add (contractsLRU cm) key (path_join (mountDir cm) key)) cm)) as H0.
  { pose proof (inv_add max cm key (disk cm) Hi Hl) as Ha. cbn in Ha. apply Ha. auto. }
  mstep; eauto.
  eexists _, _. split; [done|].
  apply (inv_add max cm key (<[path_join (mountDir cm) key := rp_Result rp]> (disk cm)) Hi Hl).
  intros p [v [[<- _]|[_ Hp]]%lookup_insert_Some]; [by right|]. left. by eexists.
Qed.

(** The eviction of the oldest contract. *)
Lemma evict_inv max cm p d :
  cm_inv max cm → Lru.GetOldest (contractsLRU cm) = Some p → Lru.Len (contractsLRU cm) = max →
  d = delete p (disk cm) ∨ (d = disk cm ∧ loose p) →
  let cm' := set_disk d (set_lru (Lru.RemoveOldest (contractsLRU cm)) cm) in
  cm_inv max cm' ∧ Lru.Len (contractsLRU cm') < max.
Proof.
  intros Hi Ho Hl Hdisk. pose proof (inv_wf _ _ Hi) as Hwf.
  destruct (Lru.RemoveOldest_spec _ Hwf) as [Hwf' Hit].
  rewrite Lru.GetOldest_items in Ho. rewrite Lru.Len_items in Hl.
  apply fmap_Some in Ho as ([k q] & Hlast & ->). apply last_Some in Hlast as [l Hl'].
  assert (Lru.spec_drop (Lru.items (contractsLRU cm)) = l) as Hd.
  { unfold Lru.spec_drop. rewrite Hl', length_app. cbn. rewrite Nat.add_1_r. cbn. by rewrite take_app_length. }
  rewrite Hd in Hit. rewrite Hl', length_app in Hl. cbn in Hl.
  assert (Lru.Len (Lru.RemoveOldest (contractsLRU cm)) < max) as Hlt by (rewrite Lru.Len_items, Hit; lia).
  cbn. split; [|done]. apply (inv_drop max cm _ q); try done.
  - rewrite Lru.RemoveOldest_max. apply Hi.
  - lia.
  - intros x y. rewrite Hit, Hl', elem_of_app. by left.
  - intros x y. rewrite Hit, Hl', elem_of_app, list_elem_of_singleton. cbn. intros [?|[= -> ->]]; done.
Qed.

Lemma handleGetContractResp_inv max resp :
  0 < max → triple (cm_inv max) (handleGetContractResp resp) (λ _, cm_inv max).
Proof.
  intros Hmax. unfold handleGetContractResp. destruct (m_Response resp) as [rp|]; [|by apply triple_ret].
  case_decide; [by apply triple_ret|]. apply triple_get. intros cm Hi.
  case_match eqn:El; [apply Z.eqb_eq in El; rewrite (inv_max _ _ Hi) in El|].
  - destruct (Lru.GetOldest (contractsLRU cm)) as [p|] eqn:Eo; [|by apply triple_ret; intros ? ->].
    apply triple_modify_at. eapply triple_bind; [apply RemoveDir_spec|].
    intros [e|]; cbn.
    + apply triple_ret. intros ? (d & -> & Hd). by apply (evict_inv max cm p).
    + eapply triple_pre; [|apply saveContract_inv]. intros ? (d & -> & Hd). by apply (evict_inv max cm p).
  - eapply triple_pre; [|apply saveContract_inv]. intros ? ->. split; [done|].
    apply Z.eqb_neq in El. pose proof (inv_len _ _ Hi). rewrite (inv_max _ _ Hi) in El. lia.
Qed.

Lemma handleGetContractReq_inv max sched req :
  sched ≠ None → triple (cm_inv max) (handleGetContractReq sched req) (λ _, cm_inv max).
Proof.
  intros Hs. unfold handleGetContractReq. destruct (m_Request req) as [rq|]; [|by apply triple_ret].
  apply triple_get. intros cm Hi.
  destruct (Lru.Get (contractsLRU cm) (requestKey rq)) as [found c] eqn:Eg.
  destruct (inv_get _ _ _ _ _ Hi Eg) as [Hi' _].
  apply (triple_modify _ _ _ (cm_inv max)); [by intros ? ->|]. destruct found as [p|].
  - eapply triple_bind; [apply signal_inv|]. intros e. by apply triple_ret.
  - eapply (triple_bind _ _ _ (λ _, cm_inv max)); [|intros e; by apply triple_ret].
    intros cm' H'. unfold requestContractFromChain. destruct sched as [sch|]; [|done].
    mstep; eauto with vmdb.
Qed.

Lemma badContract_inv max msg :
  m_Request (bc_Tx msg) ≠ None → triple (cm_inv max) (handleBadContractResp msg) (λ _, cm_inv max).
Proof.
  intros Hr. unfold handleBadContractResp. destruct (m_Request (bc_Tx msg)) as [rq|]; [|done].
  intros cm Hi. change ((deref (Some rq) ≫= ?f) cm) with (f rq cm). revert cm Hi. apply triple_get. intros cm Hi.
  destruct (Lru.Get (contractsLRU cm) (requestKey rq)) as [found c] eqn:Eg.
  destruct (inv_get _ _ _ _ _ Hi Eg) as (Hi' & _ & _ & Hfd & _).
  apply triple_modify_at. destruct found as [p|]; [|by apply triple_ret; intros ? ->].
  apply triple_modify_at. eapply triple_bind; [apply RemoveDir_spec|].
  intros e. apply triple_ret. intros ? (d & -> & Hd).
  destruct (Lru.Remove_spec c (requestKey rq) (inv_wf _ _ Hi')) as [Hwf Hit]. cbn in Hit.
  apply (inv_drop max (set_lru c cm) _ p); try done.
  - pose proof (Lru.exec_max c (Lru.ORemove (requestKey rq))) as Hm. cbn in Hm. rewrite Hm. apply Hi'.
  - rewrite Lru.Len_items, Hit. pose proof (inv_len _ _ Hi') as Hl. cbn in Hl. rewrite Lru.Len_items in Hl.
    pose proof (Lru.al_remove_length_le (Lru.items c) (requestKey rq)). lia.
  - intros x y. rewrite Hit, al_remove_in. naive_solver.
  - cbn. intros x y Hxy Hne. rewrite Hit, al_remove_in. split; [done|]. intros ->. apply Hne.
    pose proof (al_get_nodup _ _ _ (Lru.items_nodup _ (inv_wf _ _ Hi')) Hxy). cbn in *. congruence.
Qed.

(** A message the manager handles without a nil dereference, and the scheduler it sees. *)
Definition message_ok (sched : option SchedulerI) (msg : AnyMsg) : Prop :=
  match msg with
  | AnyDockerVM m =>
    match m_Type m with
    | GET_BYTECODE_REQUEST => sched ≠ None
    | GET_BYTECODE_RESPONSE => m_Response m ≠ None
    | _ => True
    end
  | AnyBadContract m => m_Request (bc_Tx m) ≠ None
  | _ => True
  end.

Lemma handleEvent_inv max sched msg :
  0 < max → message_ok sched msg → triple (cm_inv max) (handleEvent sched msg) (λ _, cm_inv max).
Proof.
  intros Hmax Hok. destruct msg as [m|?|?|?|?| |m|]; cbn in *; try by apply triple_ret.
  - destruct (m_Type m); try by apply triple_ret.
    + eapply triple_bind; [by apply handleGetContractReq_inv|]. intros ?. by apply triple_ret.
    + eapply triple_bind; [by apply handleGetContractResp_inv|]. intros err.
      apply (triple_bind _ _ _ (λ _, cm_inv max)); [|intros ?; by apply triple_ret].
      unfold processContractResp. destruct (m_Response m) as [rp|]; [|done].
      intros cm Hi. change ((deref (Some rp) ≫= ?f) cm) with (f rp cm). revert cm Hi.
      eapply triple_bind; [apply signal_inv|]. intros e. by apply triple_ret.
  - eapply triple_bind; [by apply badContract_inv|]. intros ?. by apply triple_ret.
Qed.

(** *** Start-up *)

(** While the directory is being read, a file has an entry or is still to be looked at. *)
Record loading (max i : Z) (rest : list string) (cm : ContractManager) : Prop := {
  ld_inv : Lru.wf (contractsLRU cm) ∧ Lru.MaxEntries (contractsLRU cm) = max;
  ld_len : Lru.Len (contractsLRU cm) ≤ Z.min i max;
  ld_path : ∀ k p, (k, p) ∈ Lru.items (contractsLRU cm) → p = path_join (mountDir cm) k;
  ld_file : ∀ p, is_Some (disk cm !! p) →
    (∃ k, (k, p) ∈ Lru.items (contractsLRU cm)) ∨ (∃ f, f ∈ rest ∧ p = path_join (mountDir cm) f);
  ld_rest : ∀ f, f ∈ rest → is_Some (disk cm !! path_join (mountDir cm) f);
}.

Lemma load_files_inv max i files cm0 :
  0 ≤ i → loading max i files cm0 → NoDup (path_join (mountDir cm0) <$> files) →
  triple (λ cm, cm = cm0) (load_files i files)
    (λ e cm, mountDir cm = mountDir cm0 ∧ (e = None → cm_inv max cm) ∧ ((∀ p, rmErr p = None) → e = None)).
Proof.
  revert i cm0. induction files as [|f files IH]; intros i cm0 Hi0 [[Hwf Hmax] Hl Hp Hf Hr] Hnd.
  - apply triple_ret. intros ? ->. split_and!; [done| |done]. intros _. split; try done; [lia|].
    intros p Hs. destruct (Hf p Hs) as [?|(x & Hx & _)]; [by left|]. by apply elem_of_nil in Hx.
  - cbn [load_files]. apply triple_get. intros ? ->. cbn [fmap list_fmap] in Hnd.
    apply NoDup_cons in Hnd as [Hni Hnd].
    rewrite Hmax. case_match eqn:E.
    + apply Z.ltb_lt in E. assert (Lru.Len (contractsLRU cm0) < Lru.MaxEntries (contractsLRU cm0)) as Hroom by lia.
      destruct (add_room _ f (path_join (mountDir cm0) f) Hwf Hroom) as (Hwf' & Hm & Hin & Hl1 & Hl2).
      apply triple_modify_at. apply (IH (i + 1) (set_lru _ cm0)); [lia| |done]. split; cbn.
      * split; [done|congruence].
      * lia.
      * intros k p. rewrite Hin. intros [[-> ->]|[Hk _]]; [done|]. by apply Hp.
      * intros p Hs. destruct (Hf p Hs) as [[k Hk]|(x & [->|Hx]%elem_of_cons & ->)].
        -- left. destruct (decide (k = f)) as [->|Hne]; [|by exists k; rewrite Hin; auto].
           exists f. rewrite Hin. left. split; [done|]. by apply Hp.
        -- left. exists f. rewrite Hin. by left.
        -- right. eauto.
      * intros x Hx. apply Hr. by apply elem_of_cons; right.
    + destruct (Hr f) as [v Hv]; [by apply elem_of_cons; left|].
      intros cm1 ->. unfold RemoveDir, mbind, M_bind at 1, getS, modifyS. cbn. rewrite Hv.
      destruct (rmErr (path_join (mountDir cm0) f)) as [er|] eqn:Er.
      { eexists _, _. split; [reflexivity|]. split_and!; [done|done|]. intros Hno. by rewrite Hno in Er. }
      eapply (IH (i + 1) (set_disk _ cm0)); [| | |reflexivity]; [lia| |done]. split; cbn.
      * done.
      * lia.
      * done.
      * intros p [w [Hne Hw]%lookup_delete_Some].
        destruct (Hf p) as [?|(x & [->|Hx]%elem_of_cons & ->)]; [by eexists|by left|done|].
        right. eauto.
      * intros x Hx. destruct (Hr x) as [w Hw]; [by apply elem_of_cons; right|]. exists w.
        apply lookup_delete_Some. split; [|done]. intros Heq. apply Hni. rewrite Heq.
        by apply list_elem_of_fmap_2.
Qed.

(** The manager just created, before the directory is read. *)
Lemma new_loading maxFileSize files d :
  (∀ p, is_Some (d !! p) ↔ p ∈ path_join (path_join DockerMountDir ContractsDir) <$> files) →
  0 ≤ Z.quot maxFileSize _sizePerContract →
  loading (Z.quot maxFileSize _sizePerContract) 0 files (NewContractManager maxFileSize d).
Proof.
  intros Hd Hq. split; cbn.
  - split; [apply Lru.NewCache_spec|done].
  - unfold Lru.Len. cbn. lia.
  - intros k p Hk. by apply elem_of_nil in Hk.
  - intros p (x & -> & Hx)%Hd%list_elem_of_fmap. right. eauto.
  - intros x Hx. apply Hd. by apply list_elem_of_fmap_2.
Qed.
End manager.

(** As many files as entries and loose files at most. *)
Lemma inv_files loose max cm (X : gset string) :
  cm_inv loose max cm → (∀ p, loose p → p ∈ X) → Z.of_nat (size (disk cm)) ≤ max + Z.of_nat (size X).
Proof.
  intros [Hwf Hmax Hlen Hp Hf] HX.
  assert (dom (disk cm) ⊆ list_to_set (Lru.items (contractsLRU cm)).*2 ∪ X) as Hs.
  { intros p [[k Hk]|Hl]%elem_of_dom%Hf; [|set_solver].
    apply elem_of_union_l, elem_of_list_to_set, list_elem_of_fmap. by exists (k, p). }
  apply subseteq_size in Hs. rewrite size_dom, size_union_alt in Hs.
  assert (size (X ∖ list_to_set (Lru.items (contractsLRU cm)).*2) ≤ size X)%nat as HsX by (apply subseteq_size; set_solver).
  assert (size (list_to_set (C := gset string) (Lru.items (contractsLRU cm)).*2)
          ≤ length (Lru.items (contractsLRU cm)))%nat as Hsz.
  { rewrite <-(length_fmap snd). generalize ((Lru.items (contractsLRU cm)).*2). clear. intros l.
    induction l as [|x l IH]; cbn; [by rewrite size_empty|].
    rewrite size_union_alt, size_singleton.
    assert (size (list_to_set (C := gset string) l ∖ {[x]}) ≤ size (list_to_set (C := gset string) l))%nat
      by (apply subseteq_size; set_solver). lia. }
  rewrite Lru.Len_items in Hlen. lia.
Qed.

Lemma cm_inv_mono (L L' : string → Prop) max cm : (∀ p, L p → L' p) → cm_inv L max cm → cm_inv L' max cm.
Proof. intros HL []. split; try done. naive_solver. Qed.

(** ** The manager and the chain on the same directory *)

(** What happens: the manager handles a message, with the scheduler it sees and the errors of the file system then, or
    the chain writes the file of a contract into the directory, which both have mounted (the comment of
    [handleGetContractResp]: "contract file already saved in disk by chain"). *)
Inductive event :=
| Handle (sched : option SchedulerI) (rmErr wrErr : string → option gerr) (msg : AnyMsg)
| ChainWrites (contractKey data : string).

Definition event_ok (ev : event) : Prop :=
  match ev with Handle sched _ _ msg => message_ok sched msg | ChainWrites _ _ => True end.

(** A removal of the file [p] fails in some event. *)
Definition refused (evs : list event) (p : string) : Prop :=
  ∃ sched rmErr wrErr msg, Handle sched rmErr wrErr msg ∈ evs ∧ is_Some (rmErr p).

(** The paths that have no entry in the cache. *)
Definition unlisted (cm : ContractManager) (X : gset string) : gset string :=
  filter (λ p, p ∉ (Lru.items (contractsLRU cm)).*2) X.

(** A run, together with the files that the chain has written and that have had no entry since. *)
Fixpoint handleAll (tcp : bool) (evs : list event) (cm : ContractManager) (pending : gset string) :
    outcome (ContractManager * gset string) :=
  match evs with
  | [] => Ret (cm, pending)
  | Handle sched rmErr wrErr msg :: rest =>
    match handleEvent tcp rmErr wrErr sched msg cm with
    | Ret (_, cm') => handleAll tcp rest cm' (unlisted cm' pending)
    | Panic => Panic
    | Block => Block
    end
  | ChainWrites key data :: rest =>
    let path := path_join (mountDir cm) key in
    handleAll tcp rest (set_disk (<[path := data]> (disk cm)) cm) (unlisted cm ({[ path ]} ∪ pending))
  end.

(** The files without an entry: pending, or refused. *)
Definition looseFiles (F : string → Prop) (pending : gset string) (p : string) : Prop := p ∈ pending ∨ F p.

Lemma unlisted_inv F X max cm :
  cm_inv (looseFiles F X) max cm → cm_inv (looseFiles F (unlisted cm X)) max cm.
Proof.
  intros []. split; try done. intros p Hp. destruct (inv_file0 p Hp) as [?|[HX|HF]]; [by left| |by right; right].
  destruct (decide (p ∈ (Lru.items (contractsLRU cm)).*2)) as [Hin|Hn].
  - apply list_elem_of_fmap in Hin as ([k q] & -> & Hk). left. by exists k.
  - right. left. by apply elem_of_filter.
Qed.

Lemma chainWrites_inv F X max cm key data :
  let path := path_join (mountDir cm) key in
  cm_inv (looseFiles F X) max cm →
  cm_inv (looseFiles F (unlisted cm ({[ path ]} ∪ X))) max (set_disk (<[path := data]> (disk cm)) cm).
Proof.
  intros path HI. apply (unlisted_inv F ({[ path ]} ∪ X) max (set_disk _ cm)). destruct HI as [? ? ? ? Hf].
  split; try done. intros p Hp. cbn in Hp. destruct Hp as [v [[<- _]|[_ Hv]]%lookup_insert_Some].
  - right. left. set_solver.
  - destruct (Hf p) as [?|[?|?]]; [by eexists|by left|right; left; set_solver|by right; right].
Qed.

Lemma handleAll_inv tcp F max evs cm X :
  0 < max → Forall event_ok evs → (∀ p, refused evs p → F p) → cm_inv (looseFiles F X) max cm →
  ∃ cm' X', handleAll tcp evs cm X = Ret (cm', X') ∧ cm_inv (looseFiles F X') max cm' ∧
    ((∀ key data, ChainWrites key data ∉ evs) → X = ∅ → X' = ∅).
Proof.
  intros Hmax. revert cm X. induction evs as [|ev evs IH]; intros cm X Hok HF HI; [by eauto|].
  apply Forall_cons in Hok as [Hev Hok].
  assert (∀ p, refused evs p → F p) as HF'.
  { intros p (sc & rm & wr & m & Hin & Hp). apply HF. exists sc, rm, wr, m. split; [set_solver|done]. }
  destruct ev as [sched rmErr wrErr msg|key data]; cbn [handleAll].
  - destruct (handleEvent_inv tcp rmErr wrErr (looseFiles F X) ltac:(intros p Hp; right; apply HF; exists sched, rmErr, wrErr, msg; split; [set_solver|done])
      max sched msg Hmax Hev cm HI) as (a & cm1 & -> & HI1).
    destruct (IH cm1 (unlisted cm1 X) Hok HF' (unlisted_inv _ _ _ _ HI1)) as (cm2 & X2 & E & HI2 & Hn).
    exists cm2, X2. split_and!; [done..|]. intros Hw ->. apply Hn; [set_solver|]. unfold unlisted. set_solver.
  - destruct (IH _ _ Hok HF' (chainWrites_inv F X max cm key data HI)) as (cm2 & X2 & E & HI2 & Hn).
    exists cm2, X2. split_and!; [done..|]. intros Hw. by destruct (Hw key data (list_elem_of_here _ _)).
Qed.

(** [C15] The files of the contract directory are accounted for. When [MaxFileSize] admits one contract (15), from
    start-up on, where the surplus files are removed, and through every sequence of bytecode requests, responses and
    bad-contract messages that have their payload, with files that cannot be removed or written at any time and with the
    chain writing files into the same directory: the manager neither panics nor stops, the cache stays within
    [MaxFileSize / 15] entries, and a file has an entry, or was written by the chain and has had none since, or its removal has
    failed. So without failed removals there are at most [MaxFileSize / 15] files and those the chain has written since; and
    none of the latter when the bytecode comes in the responses. Start-up only fails when a removal does. *)
Theorem contract_files_bounded tcp rmErr maxFileSize files d evs :
  _sizePerContract ≤ maxFileSize →
  NoDup (path_join (path_join DockerMountDir ContractsDir) <$> files) →
  (∀ p, is_Some (d !! p) ↔ p ∈ path_join (path_join DockerMountDir ContractsDir) <$> files) →
  Forall event_ok evs →
  let max := Z.quot maxFileSize _sizePerContract in
  ∃ e cm0, initContractLRU rmErr None (inl files) (NewContractManager maxFileSize d) = Ret (e, cm0) ∧
    ((∀ p, rmErr p = None) → e = None) ∧
    (e = None → ∃ cm pending, handleAll tcp evs cm0 ∅ = Ret (cm, pending) ∧
      Lru.Len (contractsLRU cm) ≤ max ∧
      (∀ p, is_Some (disk cm !! p) → (∃ k, (k, p) ∈ Lru.items (contractsLRU cm)) ∨ p ∈ pending ∨ refused evs p) ∧
      ((∀ p, ¬ refused evs p) → Z.of_nat (size (disk cm)) ≤ max + Z.of_nat (size pending)) ∧
      ((∀ key data, ChainWrites key data ∉ evs) → pending = ∅)).
Proof.
  intros Hs Hnd Hd Hok max.
  assert (0 < max) as Hmax.
  { unfold max. rewrite Z.quot_div_nonneg; unfold _sizePerContract in *; [|lia..]. apply Z.div_str_pos. lia. }
  destruct (load_files_inv rmErr (looseFiles (refused evs) ∅) max 0 files (NewContractManager maxFileSize d)) with
    (NewContractManager maxFileSize d) as (e & cm0 & E & _ & Hi & He); [lia|apply new_loading; [done|lia]|done|done|].
  exists e, cm0. split_and!; [done|done|]. intros ->.
  destruct (handleAll_inv tcp (refused evs) max evs cm0 ∅ Hmax Hok ltac:(done) (Hi eq_refl)) as (cm & X & Ea & HI & Hn).
  exists cm, X. split_and!; [done|apply HI|apply HI| |by auto].
  intros Hno. eapply inv_files; [exact HI|]. intros p [?|?%Hno]; done.
Qed.

Section stored.
Context (tcp : bool) (rmErr wrErr : string → option gerr).
Hypothesis no_rm_err : ∀ p, rmErr p = None.

(** Every file has its entry. *)
Abbreviation cm_ok := (cm_inv (λ _, False)).

(** Every cached contract has its file. *)
Definition complete (cm : ContractManager) : Prop :=
  ∀ k p, (k, p) ∈ Lru.items (contractsLRU cm) → is_Some (disk cm !! p).

Hypothesis no_wr_err : ∀ p, wrErr p = None.
Hypothesis over_tcp : tcp = true.

Lemma saveContract_stores max cm rp :
  cm_ok max cm → Lru.Len (contractsLRU cm) < max → rp_Result rp ≠ "" →
  ∃ cm1, saveContract tcp wrErr rp cm = Ret (None, cm1) ∧
    disk cm1 !! path_join (mountDir cm) (responseKey rp) = Some (rp_Result rp) ∧
    cm_ok max cm1 ∧ is_Some (al_get (Lru.items (contractsLRU cm1)) (responseKey rp)) ∧
    outbox cm1 = outbox cm.
Proof.
  intros Hi Hl Hr. destruct (saveContract_inv tcp wrErr (λ _, False) max rp cm (conj Hi Hl)) as (e & cm1 & E & Hi1).
  unfold saveContract, WriteFile in *. rewrite over_tcp in *. mstep; try done.
  { by destruct (String.eqb_spec (rp_Result rp) ""). }
  { by rewrite no_wr_err in *. }
  eexists. split_and!; [done|apply lookup_insert_eq|done| |done]. cbn.
  assert (Lru.Len (contractsLRU cm) < Lru.MaxEntries (contractsLRU cm)) as Hroom
    by by rewrite (inv_max _ _ _ Hi).
  destruct (add_room _ (responseKey rp) (path_join (mountDir cm) (responseKey rp)) (inv_wf _ _ _ Hi) Hroom)
    as (_ & _ & Hin & _). apply al_get_is_Some, list_elem_of_fmap.
  exists (responseKey rp, path_join (mountDir cm) (responseKey rp)). split; [done|]. rewrite Hin. by left.
Qed.

Lemma response_stores max cm resp rp :
  0 < max → cm_ok max cm → complete cm → m_Response resp = Some rp → rp_Code rp = OK →
  rp_Result rp ≠ "" →
  ∃ cm1, handleGetContractResp tcp rmErr wrErr resp cm = Ret (None, cm1) ∧
    disk cm1 !! path_join (mountDir cm) (responseKey rp) = Some (rp_Result rp) ∧
    cm_ok max cm1 ∧ is_Some (al_get (Lru.items (contractsLRU cm1)) (responseKey rp)) ∧
    outbox cm1 = outbox cm.
Proof.
  intros Hmax Hi Hc Hrp Hcode Hres. unfold handleGetContractResp. rewrite Hrp, decide_False by congruence.
  change ((getS ≫= ?f) cm) with (f cm cm). cbv beta. rewrite (inv_max _ _ _ Hi). case_match eqn:El.
  - apply Z.eqb_eq in El. destruct (Lru.GetOldest (contractsLRU cm)) as [p|] eqn:Eo.
    + destruct (evict_inv (λ _, False) max cm p _ Hi Eo El (or_introl eq_refl)) as [Hi' Hl'].
      assert (is_Some (disk cm !! p)) as [v Hv].
      { rewrite Lru.GetOldest_items in Eo. apply fmap_Some in Eo as ([k q] & Hlast & ->).
        apply (Hc k). apply last_Some in Hlast as [l ->]. set_solver. }
      destruct (saveContract_stores max _ rp Hi' Hl' Hres) as (cm1 & E & ? & ? & ? & ?).
      exists cm1. split; [|done]. rewrite <-E. unfold RemoveDir, mbind, M_bind, modifyS, getS. cbn.
      by rewrite Hv, no_rm_err.
    + exfalso. rewrite Lru.GetOldest_items in Eo. apply fmap_None, last_None in Eo.
      rewrite Lru.Len_items, Eo in El. cbn in El. lia.
  - apply Z.eqb_neq in El. pose proof (inv_len _ _ _ Hi). apply saveContract_stores; [done|lia|done].
Qed.

(** A contract received from the chain is then served from the cache: its bytes are
    on disk under its key's path, and the next request for it is answered at once with one
    "ready" signal to its request group and no message to the chain. *)
Theorem contract_stored_then_ready (sch : SchedulerI) max cm resp rp req rq :
  SchedulerLaws (S := sch) →
  sched_GetRequestGroup (rq_ChainId rq) (rq_ContractName rq) (rq_ContractVersion rq) = true →
  0 < max → cm_ok max cm → complete cm →
  m_Response resp = Some rp → rp_Code rp = OK → rp_Result rp ≠ "" →
  m_Request req = Some rq → requestKey rq = responseKey rp →
  ∃ cm1 cm2, handleGetContractResp tcp rmErr wrErr resp cm = Ret (None, cm1) ∧
    disk cm1 !! path_join (mountDir cm) (responseKey rp) = Some (rp_Result rp) ∧
    handleGetContractReq (Some sch) req cm1 = Ret (None, cm2) ∧ disk cm2 = disk cm1 ∧
    outbox cm2 = outbox cm ++
      [ToGroup (rq_ChainId rq) (rq_ContractName rq) (rq_ContractVersion rq) (readySignal (rq_ChainId rq) OK)].
Proof.
  intros Hlaws Hg Hmax Hi Hc Hrp Hcode Hres Hrq Hkey.
  destruct (response_stores max cm resp rp) as (cm1 & E1 & Hd & Hi1 & [p Hp] & Ho); [done..|].
  exists cm1. unfold handleGetContractReq. rewrite Hrq. change ((getS ≫= ?f) cm1) with (f cm1 cm1). cbv beta.
  destruct (Lru.Get (contractsLRU cm1) (requestKey rq)) as [found c] eqn:Eg.
  destruct (inv_get rmErr wrErr _ _ _ _ _ _ Hi1 Eg) as (_ & Hf & _). rewrite Hkey, Hp in Hf. subst found.
  unfold sendContractReadySignal. rewrite Hg. cbn [negb]. unfold mbind, M_bind, modifyS. cbn [fst snd].
  assert (group_PutMsg (readySignal (rq_ChainId rq) OK) = None) as -> by by apply group_ready.
  cbn. eexists. split_and!; [done..|]. cbn. by rewrite Ho.
Qed.
End stored.

(** A bytecode response without its payload is not rejected: [handleGetContractResp]
    reports "empty response payload", and the report is then built from the missing payload,
    which panics. *)
Theorem nil_bytecode_response_panics tcp rmErr wrErr sched cm m :
  m_Type m = GET_BYTECODE_RESPONSE → m_Response m = None →
  handleGetContractResp tcp rmErr wrErr m cm = Ret (Some (Err "empty response payload"), cm) ∧
  handleEvent tcp rmErr wrErr sched (AnyDockerVM m) cm = Panic.
Proof.
  intros Ht Hr. split; [by unfold handleGetContractResp; rewrite Hr|].
  unfold handleEvent. rewrite Ht. unfold mbind, M_bind at 1.
  assert (handleGetContractResp tcp rmErr wrErr m cm = Ret (Some (Err "empty response payload"), cm)) as ->
    by by unfold handleGetContractResp; rewrite Hr.
  cbn. unfold M_bind. unfold processContractResp. by rewrite Hr.
Qed.

(** With a size limit below one contract (15 MiB) the cache has [MaxEntries = 0],
    which the cache itself takes for "no limit", but the manager then refuses every contract
    the chain sends. *)
Theorem small_limit_refuses_contracts tcp rmErr wrErr maxFileSize resp rp :
  0 ≤ maxFileSize < _sizePerContract → m_Response resp = Some rp → rp_Code rp = OK →
  let cm := NewContractManager maxFileSize ∅ in
  handleGetContractResp tcp rmErr wrErr resp cm = Ret (Some (Err "oldest contract is nil"), cm).
Proof.
  intros Hm Hr Hc. unfold handleGetContractResp. rewrite Hr, decide_False by congruence.
  unfold NewContractManager. by rewrite Z.quot_small.
Qed.

(** *** Witnesses *)

Definition noErr (p : string) : option gerr := None.
Definition sampleReq : DockerVMMessage :=
  mkMessage "tx1" GET_BYTECODE_REQUEST None None (Some (mkRequest "c" "v1" "m" ∅ "chain1")) None "chain1" [].
Definition sampleRp : TxResponse := mkResponse "tx1" OK "bytes" "" ∅ ∅ [] "c" "v1" "chain1".
Definition sampleResp : DockerVMMessage :=
  mkMessage "tx1" GET_BYTECODE_RESPONSE None None None (Some sampleRp) "chain1" [].
Definition sampleNil : DockerVMMessage := mkMessage "tx1" GET_BYTECODE_RESPONSE None None None None "" [].
Definition sampleFiles : list string := ["a#b#1"; "a#b#2"; "a#c#1"].
Definition sampleDisk : gmap string string :=
  list_to_map ((λ f, (path_join (path_join DockerMountDir ContractsDir) f, "x")) <$> sampleFiles).

(** Three files found and room for two; the bytecode of another contract arrives and is asked for, and the chain writes
    one more file. *)
Definition sampleEvents : list event :=
  [Handle (Some openScheduler) noErr noErr (AnyDockerVM sampleResp); Handle (Some openScheduler) noErr noErr (AnyDockerVM sampleReq);
   ChainWrites "chain1#d#v1" "bytes"].

Lemma contract_files_bounded_witness :
  match initContractLRU noErr None (inl sampleFiles) (NewContractManager 30 sampleDisk) with
  | Ret (None, cm0) =>
    match handleAll true sampleEvents cm0 ∅ with
    | Ret (cm, pending) => Z.of_nat (size (disk cm)) ≤ Z.quot 30 _sizePerContract + Z.of_nat (size pending) ∧ size pending = 1%nat
    | _ => False
    end
  | _ => False
  end.
Proof.
  destruct (contract_files_bounded true noErr 30 sampleFiles sampleDisk sampleEvents) as (e & cm0 & E & He & Hrun).
  - unfold _sizePerContract. lia.
  - apply (bool_decide_unpack _). vm_compute. exact I.
  - intros p. unfold sampleDisk. rewrite <-elem_of_dom, dom_list_to_map_L, elem_of_list_to_set.
    by rewrite <-list_fmap_compose.
  - repeat constructor; done.
  - rewrite (He (λ _, eq_refl)) in E, Hrun. destruct (Hrun eq_refl) as (cm & pending & Ea & _ & _ & Hb & _).
    rewrite E, Ea. split.
    + apply Hb. intros p (sc & rm & wr & m & Hin & [er Her]). unfold sampleEvents in Hin.
      repeat (apply elem_of_cons in Hin as [[= -> -> -> ->]|Hin]; [discriminate Her|]). apply elem_of_cons in Hin as [[=]|Hin].
      by apply elem_of_nil in Hin.
    + vm_compute in E. injection E as <-. vm_compute in Ea. injection Ea as _ <-. vm_compute. reflexivity.
Defined.

Lemma sample_inv : cm_inv (λ _, False) 2 (NewContractManager 30 ∅).
Proof.
  split; cbn; try done; [apply Lru.NewCache_spec|..].
  - intros k p Hk. by apply elem_of_nil in Hk.
  - by intros p [].
Qed.

Lemma contract_stored_then_ready_witness :
  ∃ cm1 cm2, handleGetContractResp true noErr noErr sampleResp (NewContractManager 30 ∅) = Ret (None, cm1) ∧
    disk cm1 !! path_join "/mount/contract-bins" "chain1#c#v1" = Some "bytes" ∧
    handleGetContractReq (Some openScheduler) sampleReq cm1 = Ret (None, cm2) ∧ disk cm2 = disk cm1 ∧
    outbox cm2 = [] ++ [ToGroup "chain1" "c" "v1" (readySignal "chain1" OK)].
Proof.
  apply (contract_stored_then_ready true noErr noErr (λ _, eq_refl) (λ _, eq_refl) eq_refl
    openScheduler 2 (NewContractManager 30 ∅) sampleResp sampleRp sampleReq (mkRequest "c" "v1" "m" ∅ "chain1")).
  - apply openScheduler_laws.
  - done.
  - lia.
  - apply sample_inv.
  - intros k p Hk. by apply elem_of_nil in Hk.
  - reflexivity.
  - done.
  - done.
  - reflexivity.
  - reflexivity.
Defined.

Lemma nil_bytecode_response_panics_witness :
  handleEvent true noErr noErr None (AnyDockerVM sampleNil) (NewContractManager 30 ∅) = Panic.
Proof.
  exact (proj2 (nil_bytecode_response_panics true noErr noErr None (NewContractManager 30 ∅) sampleNil
    eq_refl eq_refl)).
Defined.

Lemma small_limit_refuses_contracts_witness :
  handleGetContractResp true noErr noErr sampleResp (NewContractManager 14 ∅) =
    Ret (Some (Err "oldest contract is nil"), NewContractManager 14 ∅).
Proof.
  eapply (small_limit_refuses_contracts true noErr noErr 14 sampleResp); [|reflexivity|reflexivity].
  unfold _sizePerContract. lia.
Defined.
End ContractManager.
