(* ===== verification/RequestGroup.v ===== *)
(** * vm_mgr/module/core/request_group.go

    A request group serves the transactions of one version of one contract of one chain. It
    buffers them until the contract manager has the contract, then puts them into the channel
    of the original or of the cross-contract processes and asks the process managers for the
    processes it needs. *)

From S2P Require Import Prelude Messages Interfaces EngineUtils.

Module RequestGroup.

Definition _requestGroupTxChSize : Z := 50000.
Definition _requestGroupEventChSize : Z := 100.
Definition _origTxChSize : Z := 50000.
Definition _crossTxChSize : Z := 10000.

Inductive contractState := _contractEmpty | _contractWaiting | _contractReady.

#[export] Instance contractState_eq_dec : EqDecision contractState.
Proof. solve_decision. Defined.

Record txController := mkController {
  c_txCh : list TxPayload;
  processWaiting : bool;
}.

(** A message sent to the scheduler, the contract manager or a process manager. *)
Inductive sent :=
| ToScheduler (m : AnyMsg)
| ToContractManager (m : AnyMsg)
| ToProcessManager (isOrig : bool) (m : AnyMsg).

(** [RequestGroup]. The timer is two flags: it runs, its channel holds a value. [r_stopCh]
    counts the senders waiting on the unbuffered stop channel. *)
Record RequestGroup := mkGroup {
  r_chainID : string;
  r_contractName : string;
  r_contractVersion : string;
  r_contractState : contractState;
  r_eventCh : list AnyMsg;
  r_txCh : list DockerVMMessage;
  r_bufCh : list DockerVMMessage;
  r_stopCh : nat;
  r_timerArmed : bool;
  r_timerC : bool;
  r_orig : txController;
  r_cross : txController;
  r_ContractFileVersion : Z;
  r_outbox : list sent;
}.

Definition NewRequestGroup (chainID contractName contractVersion : string) : RequestGroup :=
  mkGroup chainID contractName contractVersion _contractEmpty [] [] [] 0 false false
    (mkController [] false) (mkController [] false) 0 [].

(** Field updates. *)
Definition set_state s r :=
  mkGroup (r_chainID r) (r_contractName r) (r_contractVersion r) s (r_eventCh r) (r_txCh r) (r_bufCh r)
    (r_stopCh r) (r_timerArmed r) (r_timerC r) (r_orig r) (r_cross r) (r_ContractFileVersion r) (r_outbox r).
Definition set_eventCh l r :=
  mkGroup (r_chainID r) (r_contractName r) (r_contractVersion r) (r_contractState r) l (r_txCh r) (r_bufCh r)
    (r_stopCh r) (r_timerArmed r) (r_timerC r) (r_orig r) (r_cross r) (r_ContractFileVersion r) (r_outbox r).
Definition set_txCh l r :=
  mkGroup (r_chainID r) (r_contractName r) (r_contractVersion r) (r_contractState r) (r_eventCh r) l (r_bufCh r)
    (r_stopCh r) (r_timerArmed r) (r_timerC r) (r_orig r) (r_cross r) (r_ContractFileVersion r) (r_outbox r).
Definition set_bufCh l r :=
  mkGroup (r_chainID r) (r_contractName r) (r_contractVersion r) (r_contractState r) (r_eventCh r) (r_txCh r) l
    (r_stopCh r) (r_timerArmed r) (r_timerC r) (r_orig r) (r_cross r) (r_ContractFileVersion r) (r_outbox r).
Definition set_stopCh n r :=
  mkGroup (r_chainID r) (r_contractName r) (r_contractVersion r) (r_contractState r) (r_eventCh r) (r_txCh r)
    (r_bufCh r) n (r_timerArmed r) (r_timerC r) (r_orig r) (r_cross r) (r_ContractFileVersion r) (r_outbox r).
Definition set_timer armed c r :=
  mkGroup (r_chainID r) (r_contractName r) (r_contractVersion r) (r_contractState r) (r_eventCh r) (r_txCh r)
    (r_bufCh r) (r_stopCh r) armed c (r_orig r) (r_cross r) (r_ContractFileVersion r) (r_outbox r).
Definition set_controller (isOrig : bool) c r :=
  mkGroup (r_chainID r) (r_contractName r) (r_contractVersion r) (r_contractState r) (r_eventCh r) (r_txCh r)
    (r_bufCh r) (r_stopCh r) (r_timerArmed r) (r_timerC r) (if isOrig then c else r_orig r)
    (if isOrig then r_cross r else c) (r_ContractFileVersion r) (r_outbox r).
Definition set_fileVersion v r :=
  mkGroup (r_chainID r) (r_contractName r) (r_contractVersion r) (r_contractState r) (r_eventCh r) (r_txCh r)
    (r_bufCh r) (r_stopCh r) (r_timerArmed r) (r_timerC r) (r_orig r) (r_cross r) v (r_outbox r).
Definition send m r :=
  mkGroup (r_chainID r) (r_contractName r) (r_contractVersion r) (r_contractState r) (r_eventCh r) (r_txCh r)
    (r_bufCh r) (r_stopCh r) (r_timerArmed r) (r_timerC r) (r_orig r) (r_cross r) (r_ContractFileVersion r)
    (r_outbox r ++ [m]).

Definition controller (isOrig : bool) (r : RequestGroup) : txController :=
  if isOrig then r_orig r else r_cross r.

Definition txChSize (isOrig : bool) : Z := if isOrig then _origTxChSize else _crossTxChSize.

(** What a handler sees of its surroundings: the clock, the scheduler, the contract manager
    and the two process managers. *)
Record env := mkEnv {
  e_now : Z;
  e_sched : SchedulerI;
  e_cmgr : ContractManagerI;
  e_pm : bool → ProcessManagerI;
}.

Section group.
Context `{ProtocolConsts}.

(** [PutMsg(msg)]: sends on the group's channels; the two buffered ones wait when full. *)
Definition PutMsg (msg : AnyMsg) : M RequestGroup (option gerr) :=
  r ← getS;
  match msg with
  | AnyGetProcessResp _ | AnyBadContract _ =>
    if Z.of_nat (length (r_eventCh r)) <? _requestGroupEventChSize
    then modifyS (set_eventCh (r_eventCh r ++ [msg]));; mret None else block
  | AnyDockerVM req =>
    if Z.of_nat (length (r_txCh r)) <? _requestGroupTxChSize
    then modifyS (set_txCh (r_txCh r ++ [req]));; mret None else block
  | AnyClose => modifyS (set_stopCh (S (r_stopCh r)));; mret None
  | _ => mret (Some (Err "unknown msg type"))
  end.

Definition GetContractPath (mountDir : string) (r : RequestGroup) : string :=
  path_join mountDir (contractKey (r_chainID r) (r_contractName r) (r_contractVersion r)).

Definition GetContractFileVersion (r : RequestGroup) : Z := r_ContractFileVersion r.

Definition GetTxCh (isOrig : bool) (r : RequestGroup) : list TxPayload := c_txCh (controller isOrig r).

Definition updateControllerState (isOrig toWaiting : bool) : M RequestGroup unit :=
  modifyS (λ r, set_controller isOrig (mkController (c_txCh (controller isOrig r)) toWaiting) r).

(** The error message of a transaction, [returnTxErrorResp(txId, errMsg)]. *)
Definition txError (chainID txId errMsg : string) : DockerVMMessage :=
  mkMessage txId ERROR None None None
    (Some (mkResponse "" FAIL "" errMsg ∅ ∅ [] "" "" "")) chainID [].

Section env.
Context (e : env).

Definition returnTxErrorResp (txId errMsg : string) : M RequestGroup (option gerr) :=
  r ← getS;
  let m := AnyDockerVM (txError (r_chainID r) txId errMsg) in
  match @sched_PutMsg (e_sched e) m with
  | Some err => mret (Some (Wrap "failed to invoke request scheduler PutMsg" err))
  | None => modifyS (send (ToScheduler m));; mret None
  end.

(** [enqueueCh(req)]: into the channel of the original or of the cross processes, waiting
    while it is full. *)
Definition enqueueCh (req : DockerVMMessage) : M RequestGroup unit :=
  isOrig ← deref (IsOrig req);
  r ← getS;
  let c := controller isOrig r in
  if Z.of_nat (length (c_txCh c)) <? txChSize isOrig
  then modifyS (set_controller isOrig (mkController (c_txCh c ++ [mkTxPayload req (e_now e)]) (processWaiting c)))
  else block.

Definition getProcesses (isOrig : bool) : M RequestGroup (Z * option gerr) :=
  r ← getS;
  let c := controller isOrig r in
  let pm := e_pm e isOrig in
  if processWaiting c || negb (bool_decide (r_contractState r = _contractReady)) then mret (0, None)
  else
    let processNum := pm_GetProcessNumByContractKey (r_chainID r) (r_contractName r) (r_contractVersion r) in
    let readyOrBusyProcessNum :=
      pm_GetReadyOrBusyProcessNum (r_chainID r) (r_contractName r) (r_contractVersion r) in
    let needProcessNum := Z.of_nat (length (c_txCh c)) - (processNum - readyOrBusyProcessNum) in
    if 0 <? needProcessNum
    then
      let m := AnyGetProcessReq (mkGetProcessReq (r_chainID r) (r_contractName r) (r_contractVersion r)
                                                 needProcessNum) in
      match pm_PutMsg m with
      | Some err => updateControllerState isOrig true;; mret (0, Some err)
      | None =>
        modifyS (send (ToProcessManager isOrig m));; updateControllerState isOrig true;;
        mret (needProcessNum, None)
      end
    else mret (needProcessNum, None).

Definition sendGetContractReq (req : DockerVMMessage) : M RequestGroup (option gerr) :=
  r ← getS;
  let m := AnyDockerVM (mkMessage (m_TxId req) GET_BYTECODE_REQUEST None None
             (Some (mkRequest (r_contractName r) (r_contractVersion r) "" ∅ (r_chainID r)))
             None (r_chainID r) []) in
  match @cmgr_PutMsg (e_cmgr e) m with
  | Some err => mret (Some (Wrap "failed to put get bytecode req into contract manager chan" err))
  | None =>
    modifyS (send (ToContractManager m));;
    modifyS (λ r, set_timer true (r_timerC r) r);;
    modifyS (set_state _contractWaiting);; mret None
  end.

(** A send on [bufCh]. *)
Definition buffer (req : DockerVMMessage) : M RequestGroup unit :=
  r ← getS;
  if Z.of_nat (length (r_bufCh r)) <? _requestGroupTxChSize
  then modifyS (set_bufCh (r_bufCh r ++ [req])) else block.

(** The message for a call deeper than the limit. *)
Definition depthError (chainID : string) (req : DockerVMMessage) (rq : TxRequest) : DockerVMMessage :=
  mkMessage (m_TxId req) ERROR None None None
    (Some (mkResponse "" FAIL "" ("current depth exceed " +:+ itoa CallContractDepth) ∅ ∅ []
             (rq_ContractName rq) (rq_ContractVersion rq) chainID)) chainID [].

Definition putTxReqToCh (req : DockerVMMessage) : M RequestGroup (option gerr) :=
  match m_CrossContext req with
  | None => mret (Some (Err "nil cross context"))
  | Some cc =>
    if CallContractDepth <? cc_CurrentDepth cc
    then
      rq ← deref (m_Request req);
      r ← getS;
      let m := AnyDockerVM (depthError (r_chainID r) req rq) in
      match @sched_PutMsg (e_sched e) m with
      | Some err => mret (Some (Wrap "failed to put msg into request scheduler" err))
      | None =>
        modifyS (send (ToScheduler m));;
        mret (Some (Err "failed to put msg into request scheduler"))
      end
    else enqueueCh req;; mret None
  end.

Definition handleTxReq (req : DockerVMMessage) : M RequestGroup (option gerr) :=
  r ← getS;
  match r_contractState r with
  | _contractEmpty =>
    buffer req;;
    err ← sendGetContractReq req;
    mret (match err with None => None | Some _ => Some (Err "failed to send get contract req") end)
  | _contractWaiting => buffer req;; mret None
  | _contractReady =>
    err ← putTxReqToCh req;
    match err with
    | Some er => mret (Some (Wrap "failed to handle tx request" er))
    | None =>
      isOrig ← deref (IsOrig req);
      res ← getProcesses isOrig;
      mret (Wrap "failed to get processes" <$> res.2)
    end
  end.

Definition handleBadContractResp (msg : BadContractResp) : M RequestGroup (option gerr) :=
  r ← getS;
  if negb (bool_decide (r_contractState r = _contractReady))
     || negb (bc_ContractFileVersion msg =? r_ContractFileVersion r)
  then mret None
  else
    match @cmgr_PutMsg (e_cmgr e) (AnyBadContract msg) with
    | Some err => mret (Some (Wrap "failed to invoke contract manager PutMsg" err))
    | None =>
      modifyS (send (ToContractManager (AnyBadContract msg)));;
      modifyS (set_state _contractEmpty);;
      r ← getS;
      if (0 <? length (c_txCh (r_orig r)))%nat || (0 <? length (c_txCh (r_cross r)))%nat
      then err ← sendGetContractReq (bc_Tx msg);
           mret (Wrap "failed to send get contract req" <$> err)
      else mret None
    end.

(** [handleGetBytecodeErr()]: receiving from an empty [bufCh] waits for ever, because only
    this goroutine sends on it. *)
Definition handleGetBytecodeErr : M RequestGroup (option gerr) :=
  modifyS (set_state _contractEmpty);;
  r ← getS;
  match r_bufCh r with
  | [] => block
  | tx :: rest =>
    modifyS (set_bufCh rest);;
    returnTxErrorResp (m_TxId tx) "get bytecode error";;
    if (0 <? length rest)%nat
    then err ← sendGetContractReq tx; mret (Wrap "failed to send get contract req" <$> err)
    else mret None
  end.

Definition handleGetBytecodeTimeout : M RequestGroup (option gerr) :=
  err ← handleGetBytecodeErr; mret (Wrap "failed to handle get bytecode err" <$> err).

Definition handleGetBytecodeFailed : M RequestGroup (option gerr) :=
  err ← handleGetBytecodeErr; mret (Wrap "failed to handle get bytecode err" <$> err).

(** The loop [moveTxs]: from [bufCh] to the processes' channels. *)
Fixpoint moveTxs (txs : list DockerVMMessage) : M RequestGroup unit :=
  match txs with
  | [] => mret tt
  | tx :: rest => modifyS (set_bufCh rest);; enqueueCh tx;; moveTxs rest
  end.

(** [getBytecodeTimer.Stop()], draining the channel when the timer had expired. *)
Definition stopTimer : M RequestGroup unit :=
  r ← getS;
  if r_timerArmed r then modifyS (set_timer false (r_timerC r)) else modifyS (set_timer false false).

Definition handleContractReadyResp (msg : DockerVMMessage) : M RequestGroup (option gerr) :=
  stopTimer;;
  rp ← deref (m_Response msg);
  if decide (rp_Code rp = FAIL)
  then
    err ← handleGetBytecodeFailed;
    mret (Some (match err with
                | Some er => Wrap "failed to handle get bytecode fail" er
                | None => Err "get bytecode response failed"
                end))
  else
    modifyS (set_state _contractReady);;
    modifyS (set_fileVersion (e_now e));;
    r ← getS;
    moveTxs (r_bufCh r);;
    getProcesses true;;
    getProcesses false;;
    mret None.

Definition handleProcessReadyResp (msg : GetProcessRespMsg) : M RequestGroup (option gerr) :=
  (if gr_IsOrig msg then updateControllerState true false else updateControllerState false false);;
  res ← getProcesses (gr_IsOrig msg);
  mret (Wrap "failed to handle contract ready resp" <$> res.2).

(** [handleStopRequestGroup()]: the requests still in [txCh] are answered with an error. *)
Fixpoint popTxs (txs : list DockerVMMessage) : M RequestGroup unit :=
  match txs with
  | [] => mret tt
  | msg :: rest =>
    modifyS (set_txCh rest);;
    (if decide (m_Type msg = TX_REQUEST)
     then returnTxErrorResp (m_TxId msg) "tx error because request group exited";; mret tt
     else mret tt);;
    popTxs rest
  end.

Definition handleStopRequestGroup : M RequestGroup (option gerr) :=
  r ← getS; popTxs (r_txCh r);; mret None.

(** The cases of the [select] of [Start]; errors are only logged. *)
Definition onEvent (msg : AnyMsg) : M RequestGroup unit :=
  match msg with
  | AnyGetProcessResp m => handleProcessReadyResp m;; mret tt
  | AnyBadContract m => handleBadContractResp m;; mret tt
  | _ => mret tt
  end.

Definition onTx (msg : DockerVMMessage) : M RequestGroup unit :=
  match m_Type msg with
  | TX_REQUEST => handleTxReq msg;; mret tt
  | GET_BYTECODE_RESPONSE => handleContractReadyResp msg;; mret tt
  | _ => mret tt
  end.

(** One round of the loop for each case of the [select] that is ready; the last component of
    the result tells whether the goroutine goes on. *)
Inductive choice := ChEvent | ChTx | ChStop | ChTimer.

Definition loopStep (c : choice) : M RequestGroup bool :=
  r ← getS;
  match c with
  | ChEvent =>
    match r_eventCh r with
    | [] => block
    | msg :: rest => modifyS (set_eventCh rest);; onEvent msg;; mret true
    end
  | ChTx =>
    match r_txCh r with
    | [] => block
    | msg :: rest => modifyS (set_txCh rest);; onTx msg;; mret true
    end
  | ChStop =>
    match r_stopCh r with
    | O => block
    | S n => modifyS (set_stopCh n);; handleStopRequestGroup;; mret false
    end
  | ChTimer =>
    if r_timerC r
    then modifyS (set_timer (r_timerArmed r) false);; handleGetBytecodeTimeout;; mret true
    else block
  end.
End env.

(** ** What the handlers leave unchanged and what they do to the transactions *)

(** The transaction a message to the scheduler answers with an error. *)
Definition answer (m : sent) : list string :=
  match m with
  | ToScheduler (AnyDockerVM m) => if decide (m_Type m = ERROR) then [m_TxId m] else []
  | _ => []
  end.
Definition answered (r : RequestGroup) : list string := concat (answer <$> r_outbox r).

Definition txIds (l : list DockerVMMessage) : list string :=
  m_TxId <$> filter (λ m, m_Type m = TX_REQUEST) l.
Definition payloadIds (c : txController) : list string := (λ p, m_TxId (tp_Tx p)) <$> c_txCh c.

(** The transactions that have reached the loop of the group and are still there, and those
    it has answered. *)
Definition inside (r : RequestGroup) : list string :=
  (m_TxId <$> r_bufCh r) ++ payloadIds (r_orig r) ++ payloadIds (r_cross r) ++ answered r.

(** Two states that differ at most in the process requests: the two [processWaiting] flags
    and the messages to the process managers. *)
Definition same_view (r r' : RequestGroup) : Prop :=
  r_contractState r' = r_contractState r ∧ r_bufCh r' = r_bufCh r ∧ r_txCh r' = r_txCh r ∧
  r_eventCh r' = r_eventCh r ∧ r_stopCh r' = r_stopCh r ∧
  r_timerArmed r' = r_timerArmed r ∧ r_timerC r' = r_timerC r ∧
  c_txCh (r_orig r') = c_txCh (r_orig r) ∧ c_txCh (r_cross r') = c_txCh (r_cross r) ∧
  answered r' = answered r ∧ r_ContractFileVersion r' = r_ContractFileVersion r.

#[local] Instance same_view_refl : Reflexive same_view.
Proof. by intros r. Qed.
#[local] Instance same_view_trans : Transitive same_view.
Proof. unfold same_view. intros r1 r2 r3. naive_solver congruence. Qed.

Lemma answered_send m r : answered (send m r) = answered r ++ answer m.
Proof. unfold answered. cbn. rewrite fmap_app, concat_app. cbn. by rewrite app_nil_r. Qed.

Lemma updateControllerState_view b w r a r' :
  updateControllerState b w r = Ret (a, r') → same_view r r'.
Proof. unfold updateControllerState, modifyS. intros [= <- <-]. by destruct b. Qed.

Lemma getProcesses_view e b r a r' : getProcesses e b r = Ret (a, r') → same_view r r'.
Proof.
  unfold getProcesses. intros Hr. minv; try done.
  - by eapply updateControllerState_view.
  - etrans; [|by eapply updateControllerState_view]. unfold same_view. split_and!; try done.
    rewrite answered_send. cbn. by rewrite app_nil_r.
Qed.

Lemma same_view_inside r r' : same_view r r' → inside r' = inside r.
Proof.
  unfold same_view, inside, payloadIds.
  intros (_ & -> & _ & _ & _ & _ & _ & -> & -> & -> & _). done.
Qed.

(** *** The invariant *)

(** Transactions are buffered only while the contract is awaited, and the contract is awaited
    exactly while the timer runs or has expired and not been seen. *)
Definition ginv (r : RequestGroup) : Prop :=
  (r_bufCh r ≠ [] → r_contractState r = _contractWaiting) ∧
  (r_contractState r = _contractWaiting ↔ (r_timerArmed r || r_timerC r) = true) ∧
  r_timerArmed r && r_timerC r = false.

Lemma same_view_ginv r r' : same_view r r' → ginv r → ginv r'.
Proof. unfold same_view, ginv. intros (-> & -> & _ & _ & _ & -> & -> & _). done. Qed.

(** Surroundings that take the group's messages. *)
Definition env_ok (e : env) : Prop :=
  SchedulerLaws (S := e_sched e) ∧ ContractManagerLaws (C := e_cmgr e).

(** A transaction request as the chain sends it. *)
Definition tx_ok (req : DockerVMMessage) : Prop :=
  m_CrossContext req ≠ None ∧ m_Request req ≠ None.

Section invariant.
Context (e : env) (He : env_ok e).

Lemma sendGetContractReq_Ret req r a r' :
  sendGetContractReq e req r = Ret (a, r') →
  a = None ∧ ∃ m, r' = set_state _contractWaiting (set_timer true (r_timerC r) (send (ToContractManager m) r)).
Proof.
  unfold sendGetContractReq. intros Hr. destruct He as [_ Hc]. minv.
  - by rewrite (@cmgr_docker _ Hc) in *.
  - eauto.
Qed.

Lemma returnTxErrorResp_Ret id msg r a r' :
  returnTxErrorResp e id msg r = Ret (a, r') →
  r' = send (ToScheduler (AnyDockerVM (txError (r_chainID r) id msg))) r.
Proof.
  unfold returnTxErrorResp. intros Hr. destruct He as [Hs _]. minv; [|done].
  by rewrite (@sched_error _ Hs) in *.
Qed.

(** A queued transaction. *)
Lemma enqueueCh_Ret req r a r' :
  enqueueCh e req r = Ret (a, r') →
  ∃ b, IsOrig req = Some b ∧
    r' = set_controller b (mkController (c_txCh (controller b r) ++ [mkTxPayload req (e_now e)])
                                        (processWaiting (controller b r))) r.
Proof. unfold enqueueCh. intros Hr. minv. eauto. Qed.

Lemma set_controller_inside b r c id :
  payloadIds c ≡ₚ id :: payloadIds (controller b r) →
  inside (set_controller b c r) ≡ₚ id :: inside r.
Proof.
  intros Hc. unfold inside. change (answered (set_controller b c r)) with (answered r).
  destruct b; cbn [set_controller r_bufCh r_orig r_cross controller] in *; rewrite Hc;
    cbn [app]; by rewrite <-!Permutation_middle.
Qed.

Lemma enqueueCh_inside req r a r' :
  enqueueCh e req r = Ret (a, r') → inside r' ≡ₚ m_TxId req :: inside r.
Proof.
  intros (b & _ & ->)%enqueueCh_Ret. apply set_controller_inside. unfold payloadIds. cbn.
  rewrite fmap_app. symmetry. apply Permutation_cons_append.
Qed.

(** Moving the buffered transactions keeps their order within each channel. *)
Lemma moveTxs_Ret txs r a r' :
  moveTxs e txs r = Ret (a, r') → r_bufCh r = txs →
  r_bufCh r' = [] ∧ r_contractState r' = r_contractState r ∧ r_txCh r' = r_txCh r ∧
  r_timerArmed r' = r_timerArmed r ∧ r_timerC r' = r_timerC r ∧ answered r' = answered r ∧
  (∀ b, c_txCh (controller b r') =
     c_txCh (controller b r) ++ ((λ t, mkTxPayload t (e_now e)) <$> filter (λ t, IsOrig t = Some b) txs)) ∧
  Forall (λ t, is_Some (IsOrig t)) txs.
Proof.
  revert r. induction txs as [|tx txs IH]; intros r Hm Hb; cbn [moveTxs] in Hm; minv.
  - split_and!; try done. intros b. by rewrite app_nil_r.
  - match goal with H : enqueueCh _ _ _ = _ |- _ => apply enqueueCh_Ret in H as (b & Hb' & ->) end.
    apply IH in Hm as (? & ? & ? & ? & ? & ? & Hc & Hall); [|by destruct b].
    split_and!; try done; try by destruct b.
    + intros b'. rewrite Hc. destruct (decide (b' = b)) as [->|Hne].
      * rewrite filter_cons_True by done. cbn [fmap list_fmap].
        assert (c_txCh (controller b (set_controller b (mkController (c_txCh (controller b (set_bufCh txs r))
          ++ [mkTxPayload tx (e_now e)]) (processWaiting (controller b (set_bufCh txs r)))) (set_bufCh txs r)))
          = c_txCh (controller b r) ++ [mkTxPayload tx (e_now e)]) as -> by by destruct b.
        by rewrite <-app_assoc.
      * rewrite filter_cons_False by congruence. f_equal. by destruct b, b'.
    + by constructor; [rewrite Hb'|].
Qed.

Lemma buffer_Ret req r a r' : buffer req r = Ret (a, r') → r' = set_bufCh (r_bufCh r ++ [req]) r.
Proof. unfold buffer. intros Hr. by minv. Qed.

Lemma buffer_inside req r : inside (set_bufCh (r_bufCh r ++ [req]) r) ≡ₚ m_TxId req :: inside r.
Proof.
  unfold inside. change (answered (set_bufCh _ r)) with (answered r).
  cbn [set_bufCh r_bufCh r_orig r_cross]. rewrite fmap_app, <-app_assoc. cbn.
  by rewrite <-Permutation_middle.
Qed.

(** A message that is no answer changes nothing of the transactions. *)
Lemma send_inside m r : inside (send m r) ≡ₚ answer m ++ inside r.
Proof.
  unfold inside. rewrite answered_send. cbn [send r_bufCh r_orig r_cross].
  rewrite (Permutation_app_comm (answer m)). by rewrite <-!app_assoc.
Qed.

Lemma waiting_inside m r :
  answer m = [] →
  inside (set_state _contractWaiting (set_timer true (r_timerC r) (send m r))) ≡ₚ inside r.
Proof.
  intros Hm. change (inside (set_state _ (set_timer _ _ ?x))) with (inside x).
  rewrite send_inside, Hm. done.
Qed.

Lemma ginv_idle r : ginv r → r_contractState r ≠ _contractWaiting →
  r_bufCh r = [] ∧ r_timerArmed r = false ∧ r_timerC r = false.
Proof.
  unfold ginv. intros (Hb & Ht & _) Hs. split.
  - destruct (r_bufCh r) eqn:E; [done|]. destruct Hs. by apply Hb.
  - destruct (r_timerArmed r), (r_timerC r); cbn in *; try done; by destruct Hs; apply Ht.
Qed.

Lemma putTxReqToCh_Ret req r a r' :
  tx_ok req → ginv r → r_contractState r = _contractReady → putTxReqToCh e req r = Ret (a, r') →
  ginv r' ∧ inside r' ≡ₚ m_TxId req :: inside r ∧ r_txCh r' = r_txCh r.
Proof.
  intros [Hcc Hrq] Hg Hst Hr. unfold putTxReqToCh in Hr. destruct He as [Hs _].
  destruct (m_CrossContext req) as [cc|]; [|done]. minv.
  - rewrite (@sched_error _ Hs) in *; done.
  - split_and!; [done| |done]. rewrite send_inside. done.
  - match goal with H : enqueueCh _ _ _ = _ |- _ =>
      pose proof (enqueueCh_inside _ _ _ _ H) as Hin; apply enqueueCh_Ret in H as (b & _ & ->) end.
    split_and!; [|done|by destruct b]. by destruct b.
Qed.

Lemma handleTxReq_inv req r a r' :
  tx_ok req → ginv r → handleTxReq e req r = Ret (a, r') →
  ginv r' ∧ inside r' ≡ₚ m_TxId req :: inside r ∧ r_txCh r' = r_txCh r.
Proof.
  intros Hok Hg Hr. unfold handleTxReq in Hr. minv.
  - destruct (ginv_idle _ Hg) as (Hb & Ha & Hc); [congruence|].
    match goal with H : buffer _ _ = _, H' : sendGetContractReq _ _ _ = _ |- _ =>
      apply buffer_Ret in H as ->; apply sendGetContractReq_Ret in H' as (-> & m & ->) end.
    split_and!; [|by rewrite waiting_inside, buffer_inside|done].
    unfold ginv. cbn. by rewrite Hc.
  - match goal with H : buffer _ _ = _ |- _ => apply buffer_Ret in H as -> end.
    split_and!; [|apply buffer_inside|done].
    destruct Hg as (? & Ht & ?). unfold ginv. cbn. done.
  - by eapply putTxReqToCh_Ret.
  - match goal with H : putTxReqToCh _ _ _ = _, H' : getProcesses _ _ _ = _ |- _ =>
      apply putTxReqToCh_Ret in H as (Hg1 & Hin & Htx); [|done..]; apply getProcesses_view in H' as Hv end.
    split_and!; [by eapply same_view_ginv|by rewrite (same_view_inside _ _ Hv)|].
    destruct Hv as (_ & _ & -> & _). done.
Qed.

Lemma handleGetBytecodeErr_inv r a r' :
  r_timerArmed r = false → r_timerC r = false → handleGetBytecodeErr e r = Ret (a, r') →
  ginv r' ∧ inside r' ≡ₚ inside r ∧ r_txCh r' = r_txCh r.
Proof.
  intros Ha Hc Hr. unfold handleGetBytecodeErr in Hr. minv.
  all: match goal with H : returnTxErrorResp _ _ _ _ = _, Hb : r_bufCh _ = ?tx :: ?rest |- _ =>
    apply returnTxErrorResp_Ret in H as ->;
    assert (inside (send (ToScheduler (AnyDockerVM (txError (r_chainID r) (m_TxId tx) "get bytecode error")))
      (set_bufCh rest r)) ≡ₚ inside r) as Hin
      by (rewrite send_inside; unfold inside; cbn in Hb |- *; rewrite Hb; done); cbn in Hb end.
  - match goal with H : sendGetContractReq _ _ _ = _ |- _ => apply sendGetContractReq_Ret in H as (-> & m & ->) end.
    split_and!; [|rewrite waiting_inside by done; exact Hin|done].
    unfold ginv. cbn. by rewrite Hc.
  - split_and!; [|exact Hin|done]. unfold ginv. cbn. rewrite Ha, Hc.
    destruct l; done.
Qed.

Lemma stopTimer_any r a r' : stopTimer r = Ret (a, r') → ∃ x y, r' = set_timer x y r.
Proof. unfold stopTimer. intros Hr. minv; eauto. Qed.

Lemma stopTimer_Ret r a r' : ginv r → stopTimer r = Ret (a, r') → r' = set_timer false false r.
Proof.
  intros (_ & _ & Hn). unfold stopTimer, mbind, M_bind, getS, modifyS.
  destruct (r_timerArmed r), (r_timerC r); cbn in *; by intros [= <- <-].
Qed.

(** The transactions moved out of the buffer. *)
Lemma moveTxs_inside txs r a r' :
  moveTxs e txs r = Ret (a, r') → r_bufCh r = txs → inside r' ≡ₚ inside r.
Proof.
  revert r. induction txs as [|tx txs IH]; intros r Hm Hb; cbn [moveTxs] in Hm; minv; [done|].
  match goal with H : enqueueCh _ _ _ = _ |- _ =>
    pose proof (enqueueCh_inside _ _ _ _ H) as Hin; apply enqueueCh_Ret in H as (b & _ & ->) end.
  rewrite (IH _ Hm) by by destruct b. rewrite Hin. unfold inside. cbn. by rewrite Hb.
Qed.

Lemma handleContractReadyResp_inv msg r a r' :
  ginv r → handleContractReadyResp e msg r = Ret (a, r') →
  ginv r' ∧ inside r' ≡ₚ inside r ∧ r_txCh r' = r_txCh r.
Proof.
  intros Hg Hr. unfold handleContractReadyResp, handleGetBytecodeFailed in Hr. minv.
  all: match goal with H : stopTimer _ = _ |- _ => apply (stopTimer_Ret _ _ _ Hg) in H as -> end.
  - match goal with H : handleGetBytecodeErr _ _ = _ |- _ => by apply handleGetBytecodeErr_inv in H end.
  - match goal with H : moveTxs _ _ _ = Ret (_, ?r1), H1 : getProcesses _ true _ = _,
                    H2 : getProcesses _ false _ = Ret (_, ?r2) |- _ =>
      assert (same_view r1 r2) as Hv by (etrans; eapply getProcesses_view; eassumption);
      pose proof (moveTxs_inside _ _ _ _ H eq_refl) as Hin;
      apply moveTxs_Ret in H as (Hb & Hst & Htx & Ha & Hc & _); [|done] end.
    split_and!.
    + eapply same_view_ginv; [exact Hv|]. unfold ginv. rewrite Hb, Hst, Ha, Hc. cbn. done.
    + rewrite (same_view_inside _ _ Hv), Hin. done.
    + destruct Hv as (_ & _ & -> & _). by rewrite Htx.
Qed.

Lemma handleBadContractResp_inv msg r a r' :
  ginv r → handleBadContractResp e msg r = Ret (a, r') →
  ginv r' ∧ inside r' ≡ₚ inside r ∧ r_txCh r' = r_txCh r.
Proof.
  intros Hg Hr. unfold handleBadContractResp in Hr. destruct He as [_ Hc].
  minv; [done|by rewrite (@cmgr_bad _ Hc) in *|..].
  all: match goal with H : _ || _ = false |- _ => apply orb_false_iff in H as [Hst%negb_false_iff%bool_decide_eq_true _] end.
  all: destruct (ginv_idle _ Hg) as (Hb & Ha & Ht); [congruence|].
  - match goal with H : sendGetContractReq _ _ _ = _ |- _ => apply sendGetContractReq_Ret in H as (-> & m & ->) end.
    split_and!; [unfold ginv; cbn; by rewrite Ht| |done]. rewrite waiting_inside by done.
    change (inside (set_state _ ?x)) with (inside x). by rewrite send_inside.
  - split_and!; [|exact (send_inside (ToContractManager (AnyBadContract msg)) r)|done].
    unfold ginv. cbn. by rewrite Hb, Ha, Ht.
Qed.

Lemma handleProcessReadyResp_inv msg r a r' :
  ginv r → handleProcessReadyResp e msg r = Ret (a, r') →
  ginv r' ∧ inside r' ≡ₚ inside r ∧ r_txCh r' = r_txCh r.
Proof.
  intros Hg Hr. unfold handleProcessReadyResp in Hr. minv.
  all: match goal with H : updateControllerState _ _ ?r = _, H1 : getProcesses _ _ _ = Ret (_, ?r') |- _ =>
    assert (same_view r r') as Hv
      by (etrans; [eapply updateControllerState_view|eapply getProcesses_view]; eassumption) end.
  all: split_and!; [by eapply same_view_ginv|by rewrite (same_view_inside _ _ Hv)|].
  all: by destruct Hv as (_ & _ & -> & _).
Qed.

(** On stop, the requests not yet looked at are answered. *)
Lemma popTxs_inv txs r a r' :
  popTxs e txs r = Ret (a, r') → r_txCh r = txs → ginv r →
  ginv r' ∧ inside r' ≡ₚ txIds txs ++ inside r ∧ r_txCh r' = [].
Proof.
  revert r. induction txs as [|tx txs IH]; intros r Hp Ht Hg; cbn [popTxs] in Hp; minv; [done|..].
  - match goal with H : returnTxErrorResp _ _ _ _ = _ |- _ => apply returnTxErrorResp_Ret in H as -> end.
    apply IH in Hp as (Hg' & Hin & Htx); [|done..]. split_and!; [done| |done].
    rewrite Hin, send_inside. unfold txIds. rewrite filter_cons_True by done.
    symmetry. apply Permutation_middle.
  - apply IH in Hp as (Hg' & Hin & Htx); [|done..]. split_and!; [done| |done].
    rewrite Hin. unfold txIds. by rewrite filter_cons_False.
Qed.

Lemma onTx_inv msg r a r' :
  ginv r → (m_Type msg = TX_REQUEST → tx_ok msg) → onTx e msg r = Ret (a, r') →
  ginv r' ∧ inside r' ≡ₚ txIds [msg] ++ inside r ∧ r_txCh r' = r_txCh r.
Proof.
  intros Hg Hok Hr. unfold txIds.
  destruct (decide (m_Type msg = TX_REQUEST)) as [Ht|Ht];
    [rewrite filter_cons_True by done|rewrite filter_cons_False by done]; cbn [filter list_filter fmap list_fmap].
  - unfold onTx in Hr. rewrite Ht in Hr. minv.
    match goal with H : handleTxReq _ _ _ = _ |- _ => apply handleTxReq_inv in H; [done|by auto|done] end.
  - destruct (decide (m_Type msg = GET_BYTECODE_RESPONSE)) as [Hg'|Hg'].
    + unfold onTx in Hr. rewrite Hg' in Hr. minv.
      match goal with H : handleContractReadyResp _ _ _ = _ |- _ => by apply handleContractReadyResp_inv in H end.
    + assert (onTx e msg r = Ret (tt, r)) as E by (unfold onTx; by destruct (m_Type msg)).
      rewrite E in Hr. by injection Hr as _ <-.
Qed.

(** One round of the loop keeps the invariant and the count of the transactions. *)
Lemma loopStep_inv c r b r' :
  ginv r → Forall (λ m, m_Type m = TX_REQUEST → tx_ok m) (r_txCh r) → loopStep e c r = Ret (b, r') →
  ginv r' ∧ txIds (r_txCh r') ++ inside r' ≡ₚ txIds (r_txCh r) ++ inside r ∧
  (∃ k, r_txCh r' = drop k (r_txCh r)).
Proof.
  intros Hg Hok Hr. destruct c; unfold loopStep in Hr; minv.
  - assert (ginv r' ∧ inside r' ≡ₚ inside r ∧ r_txCh r' = r_txCh r) as (? & Hin & Htx).
    { match goal with H : onEvent _ _ (set_eventCh ?l r) = _ |- _ =>
        assert (ginv (set_eventCh l r)) as Hg1 by done; unfold onEvent in H; minv end; try done.
      - by match goal with H : handleProcessReadyResp _ _ _ = _ |- _ =>
          apply handleProcessReadyResp_inv in H end.
      - by match goal with H : handleBadContractResp _ _ _ = _ |- _ =>
          apply handleBadContractResp_inv in H end. }
    rewrite Htx, Hin. split_and!; [done..|]. by exists 0%nat.
  - match goal with H : r_txCh r = ?m :: ?l |- _ => rename m into msg, l into rest, H into Hch end.
    try rewrite Hch in Hok.
    apply Forall_cons in Hok as [Hm _].
    assert (ginv r' ∧ inside r' ≡ₚ txIds [msg] ++ inside r ∧ r_txCh r' = rest) as (? & Hin & Htx).
    { match goal with H : onTx _ _ (set_txCh ?l r) = _ |- _ =>
        apply onTx_inv in H as (? & ? & ?); [done..|by auto] end. }
    rewrite Htx, Hin. split_and!; [done| |by exists 1%nat].
    change (msg :: rest) with ([msg] ++ rest). unfold txIds. rewrite filter_app, fmap_app, <-app_assoc.
    by rewrite Permutation_app_swap_app.
  - match goal with H : handleStopRequestGroup _ _ = _ |- _ => unfold handleStopRequestGroup in H; minv end.
    match goal with H : popTxs _ _ _ = _ |- _ => apply popTxs_inv in H as (? & Hin & Htx); [|done..] end.
    rewrite Htx, Hin. split_and!; [done..|]. exists (length (r_txCh r)). by rewrite drop_all.
  - match goal with H : handleGetBytecodeTimeout _ _ = _ |- _ => unfold handleGetBytecodeTimeout in H; minv end.
    match goal with H : handleGetBytecodeErr _ _ = _ |- _ => apply handleGetBytecodeErr_inv in H as (? & Hin & Htx); [| |done] end.
    + rewrite Htx, Hin. split_and!; [done..|]. by exists 0%nat.
    + cbn. destruct Hg as (_ & _ & Hn). by destruct (r_timerArmed r), (r_timerC r).
Qed.
End invariant.

(** ** The group among its callers *)

(** The group, the transactions put into it, those the processes have taken, the process
    responses put into it, and whether its goroutine still runs. *)
Record system := mkSystem {
  s_group : RequestGroup;
  s_submitted : list string;
  s_taken : list string;
  s_responses : list AnyMsg;
  s_running : bool;
}.

Inductive step : system → system → Prop :=
| step_put g sub tk rs run msg g' :
    (∀ m, msg = AnyDockerVM m → m_Type m = TX_REQUEST → tx_ok m) →
    PutMsg msg g = Ret (None, g') →
    step (mkSystem g sub tk rs run)
         (mkSystem g' (sub ++ match msg with AnyDockerVM m => txIds [m] | _ => [] end) tk (rs ++ [msg]) run)
| step_loop g sub tk rs e c b g' :
    env_ok e → loopStep e c g = Ret (b, g') →
    step (mkSystem g sub tk rs true) (mkSystem g' sub tk rs b)
| step_fire g sub tk rs run :  (* the timer expires *)
    r_timerArmed g = true →
    step (mkSystem g sub tk rs run) (mkSystem (set_timer false true g) sub tk rs run)
| step_take g sub tk rs run b p rest :  (* a process receives from a transaction channel *)
    GetTxCh b g = p :: rest →
    step (mkSystem g sub tk rs run)
         (mkSystem (set_controller b (mkController rest (processWaiting (controller b g))) g) sub
                   (tk ++ [m_TxId (tp_Tx p)]) rs run).

Definition start (chainID contractName contractVersion : string) : system :=
  mkSystem (NewRequestGroup chainID contractName contractVersion) [] [] [] true.

Definition reachable (s : system) : Prop := ∃ c n v, rtc step (start c n v) s.

(** The invariant of the system. *)
Record sys_inv (s : system) : Prop := {
  si_ginv : ginv (s_group s);
  si_ok : Forall (λ m, m_Type m = TX_REQUEST → tx_ok m) (r_txCh (s_group s));
  si_count : s_submitted s ≡ₚ txIds (r_txCh (s_group s)) ++ inside (s_group s) ++ s_taken s;
}.

Lemma PutMsg_Ret msg g a g' : PutMsg msg g = Ret (a, g') → a = None →
  (g' = set_eventCh (r_eventCh g ++ [msg]) g ∧ ∀ m, msg ≠ AnyDockerVM m) ∨
  (∃ m, msg = AnyDockerVM m ∧ g' = set_txCh (r_txCh g ++ [m]) g) ∨
  (msg = AnyClose ∧ g' = set_stopCh (S (r_stopCh g)) g).
Proof.
  intros Hp ->. unfold PutMsg in Hp. minv; try done; try (by left); eauto 6.
Qed.

Lemma sys_inv_step s s' : step s s' → sys_inv s → sys_inv s'.
Proof.
  intros Hs [Hg Hok Hc]. destruct Hs as [g sub tk rs run msg g' Hm Hp|g sub tk rs e c b g' He Hl|g sub tk rs run Ha
    |g sub tk rs run b p rest Ht];
    cbn [s_group s_submitted s_taken] in *.
  - apply PutMsg_Ret in Hp as [[-> Hnd]|[(m & -> & ->)|[-> ->]]]; [..|done].
    + split; cbn [s_group s_submitted s_taken]; [done..|]. destruct msg; try (by rewrite app_nil_r). by destruct (Hnd m).
    + split; cbn [s_group s_submitted s_taken]; [done| |].
      * apply Forall_app. split; [done|]. constructor; [by eauto|done].
      * change (inside (set_txCh _ g)) with (inside g). cbn [set_txCh r_txCh].
        unfold txIds in *. rewrite filter_app, fmap_app, Hc.
        rewrite <-!app_assoc. apply Permutation_app_head.
        rewrite (app_assoc (inside g)). apply Permutation_app_comm.
    + split; cbn [s_group s_submitted s_taken]; [done..|]. by rewrite app_nil_r.
  - destruct (loopStep_inv e He c g b g' Hg Hok Hl) as (? & Hin & k & Hk). split; cbn [s_group s_submitted s_taken]; [done| |].
    + rewrite Hk. by apply Forall_drop.
    + rewrite Hc, !app_assoc. by rewrite Hin.
  - split; cbn [s_group s_submitted s_taken]; [|done..]. destruct Hg as (Hb & Ht & Hn). unfold ginv. cbn.
    rewrite Ha in Ht. cbn in Ht. split_and!; [done|tauto|done].
  - split; cbn [s_group s_submitted s_taken]; [by destruct b|by destruct b|]. rewrite Hc.
    unfold GetTxCh in Ht.
    set (g' := set_controller b _ g).
    assert (inside g ≡ₚ m_TxId (tp_Tx p) :: inside g') as ->.
    { unfold g'. rewrite <-(set_controller_inside b _ (controller b g)).
      - assert (set_controller b (controller b g) (set_controller b
          (mkController rest (processWaiting (controller b g))) g) = g) as -> by by destruct g, b. done.
      - unfold payloadIds. rewrite Ht. by destruct b. }
    assert (r_txCh g' = r_txCh g) as -> by by unfold g'; destruct b.
    apply Permutation_app_head. cbn [app]. rewrite app_assoc. apply Permutation_cons_append.
Qed.

Lemma reachable_inv s : reachable s → sys_inv s.
Proof.
  intros (c & n & v & Hr). remember (start c n v) as s0 eqn:E.
  assert (sys_inv s0) as H0 by (subst; split; [split_and!; done|constructor|done]).
  clear E. induction Hr; eauto using sys_inv_step.
Qed.

(** [C4] No transaction is lost or answered twice by a request group: in every reachable
    state, the requests put into it (with their cross context and payload) are, each exactly
    once, waiting in its channel, buffered, in one of the two process channels, taken by a
    process, or answered to the scheduler with an error. *)
Theorem group_conserves_txs s :
  reachable s →
  s_submitted s ≡ₚ txIds (r_txCh (s_group s)) ++ (m_TxId <$> r_bufCh (s_group s)) ++
    payloadIds (r_orig (s_group s)) ++ payloadIds (r_cross (s_group s)) ++
    answered (s_group s) ++ s_taken s.
Proof.
  intros Hr. destruct (reachable_inv s Hr) as [_ _ Hc]. rewrite Hc. unfold inside. by rewrite <-!app_assoc.
Qed.

(** The states of the contract in a reachable group: transactions are buffered only
    while the contract is awaited, the contract is awaited exactly while the bytecode timer
    runs or its expiry has not been handled yet (so the wait ends, by an answer or by the
    timeout), and no stale expiry is ever left in the timer's channel. *)
Theorem group_contract_states s :
  reachable s →
  let r := s_group s in
  (r_bufCh r ≠ [] → r_contractState r = _contractWaiting) ∧
  (r_contractState r = _contractWaiting ↔ r_timerArmed r = true ∨ r_timerC r = true) ∧
  ¬ (r_timerArmed r = true ∧ r_timerC r = true).
Proof.
  intros Hr. destruct (reachable_inv s Hr) as [(Hb & Ht & Hn) _ _]. split_and!; [done| |].
  - by rewrite Ht, orb_true_iff.
  - intros [Ha Hc]. by rewrite Ha, Hc in Hn.
Qed.

(** When the contract becomes ready, every buffered transaction goes to the channel
    of the original or of the cross processes according to [IsOrig], behind the transactions
    already there and in the order of arrival, and the buffer is empty. *)
Theorem ready_moves_in_order e msg rp r a r' :
  m_Response msg = Some rp → rp_Code rp = OK → handleContractReadyResp e msg r = Ret (a, r') →
  r_contractState r' = _contractReady ∧ r_bufCh r' = [] ∧
  ∀ b, tp_Tx <$> GetTxCh b r' =
    (tp_Tx <$> GetTxCh b r) ++ filter (λ t, IsOrig t = Some b) (r_bufCh r).
Proof.
  intros Hrp Hcode Hr. unfold handleContractReadyResp in Hr. rewrite Hrp in Hr. minv; [congruence|].
  match goal with H : stopTimer r = Ret (_, ?r0) |- _ => apply stopTimer_any in H as (ta & tc & ->) end.
  match goal with H : moveTxs _ _ _ = Ret (_, ?r1), H1 : getProcesses _ true _ = _,
                    H2 : getProcesses _ false _ = Ret (_, ?r2) |- _ =>
    assert (same_view r1 r2) as Hv by (etrans; eapply getProcesses_view; eassumption);
    apply moveTxs_Ret in H as (Hb & Hst & _ & _ & _ & _ & Hc & _); [|done] end.
  destruct Hv as (Hs & Hbuf & _ & _ & _ & _ & _ & Ho & Hx & _). split_and!; [by rewrite Hs|by rewrite Hbuf|].
  intros b. unfold GetTxCh.
  match goal with H : ∀ b, c_txCh (controller b ?r1) = _ |- _ =>
    assert (c_txCh (controller b r') = c_txCh (controller b r1)) as -> by by destruct b end.
  rewrite Hc, fmap_app, <-list_fmap_compose. f_equal. apply list_fmap_id.
Qed.

(** ** Process requests *)

Definition isRequest (b : bool) (m : sent) : bool :=
  match m with ToProcessManager b' (AnyGetProcessReq _) => Bool.eqb b b' | _ => false end.

(** How many process requests the group has sent to a process manager. *)
Definition requests (b : bool) (r : RequestGroup) : Z :=
  Z.of_nat (length (List.filter (isRequest b) (r_outbox r))).

Definition isResponse (b : bool) (m : AnyMsg) : bool :=
  match m with AnyGetProcessResp g => Bool.eqb b (gr_IsOrig g) | _ => false end.
Definition responses (b : bool) (l : list AnyMsg) : Z := Z.of_nat (length (List.filter (isResponse b) l)).

Lemma responses_app b l l' : responses b (l ++ l') = responses b l + responses b l'.
Proof. unfold responses. rewrite List.filter_app, length_app. lia. Qed.

Lemma responses_cons b m l : responses b (m :: l) = (if isResponse b m then 1 else 0) + responses b l.
Proof. unfold responses. cbn. destruct (isResponse b m); cbn; lia. Qed.

(** The requests that are not the outstanding one, and the responses not yet handled. *)
Definition settled (b : bool) (r : RequestGroup) : Z :=
  requests b r + responses b (r_eventCh r) - (if processWaiting (controller b r) then 1 else 0).

Lemma settled_send b m r :
  settled b (send m r) = settled b r + (if isRequest b m then 1 else 0).
Proof.
  unfold settled, requests. cbn. rewrite List.filter_app, length_app. cbn.
  destruct (isRequest b m); cbn; destruct b; cbn; lia.
Qed.

(** Code that never has more than the outstanding request added. *)
Definition frugal (b : bool) (r r' : RequestGroup) : Prop := settled b r' ≤ settled b r.

#[local] Instance frugal_preorder b : PreOrder (frugal b).
Proof. split; unfold frugal; [intros r; lia|intros r1 r2 r3; lia]. Qed.

Lemma settled_controller b b' c r :
  processWaiting c = processWaiting (controller b' r) → settled b (set_controller b' c r) = settled b r.
Proof. unfold settled, requests. destruct b, b'; cbn; intros Hc; by rewrite ?Hc. Qed.

Lemma frugal_update b b' : preserves (frugal b) (updateControllerState b' true).
Proof.
  apply preserves_modify. intros r. unfold frugal, settled, requests. destruct b, b'; cbn; try lia;
    by repeat case_match; lia.
Qed.

(** The guard [processWaiting] makes a request the outstanding one. *)
Lemma frugal_getProcesses b e b' : preserves (frugal b) (getProcesses e b').
Proof.
  intros r a r' Hr. unfold frugal. unfold getProcesses in Hr. minv; try lia.
  - match goal with H : updateControllerState _ _ _ = _ |- _ => by apply (frugal_update b) in H end.
  - match goal with H : updateControllerState _ _ _ = _ |- _ =>
      unfold updateControllerState, modifyS in H; injection H as _ <- end.
    match goal with H : _ || _ = false |- _ => apply orb_false_iff in H as [Hw _] end.
    unfold settled, requests. cbn [set_controller r_outbox send]. rewrite List.filter_app, length_app.
    destruct b, b'; cbn in *; rewrite ?Hw; repeat case_match; lia.
Qed.

(** No other message is a process request, and no other field counts. *)
Ltac frugal_tac :=
  preserves_tac ltac:(first
    [ apply Z.le_refl
    | unfold frugal; rewrite settled_send; cbn [isRequest]; lia ]).

Lemma frugal_sendGetContractReq b e req : preserves (frugal b) (sendGetContractReq e req).
Proof. unfold sendGetContractReq. frugal_tac. Qed.
Lemma frugal_returnTxErrorResp b e id msg : preserves (frugal b) (returnTxErrorResp e id msg).
Proof. unfold returnTxErrorResp. frugal_tac. Qed.
Lemma frugal_enqueueCh b e req : preserves (frugal b) (enqueueCh e req).
Proof.
  intros r a r' (b' & _ & ->)%enqueueCh_Ret. unfold frugal. by rewrite settled_controller.
Qed.
Lemma frugal_moveTxs b e txs : preserves (frugal b) (moveTxs e txs).
Proof.
  induction txs as [|tx txs IH]; cbn [moveTxs]; frugal_tac; [apply frugal_enqueueCh|apply IH].
Qed.
Lemma frugal_popTxs b e txs : preserves (frugal b) (popTxs e txs).
Proof.
  induction txs as [|tx txs IH]; cbn [popTxs]; frugal_tac; first [apply frugal_returnTxErrorResp|apply IH].
Qed.
Lemma frugal_handleGetBytecodeErr b e : preserves (frugal b) (handleGetBytecodeErr e).
Proof.
  unfold handleGetBytecodeErr. frugal_tac; try apply frugal_returnTxErrorResp.
  apply frugal_sendGetContractReq.
Qed.
Lemma frugal_onTx b e msg : preserves (frugal b) (onTx e msg).
Proof.
  unfold onTx, handleTxReq, handleContractReadyResp, handleGetBytecodeFailed, stopTimer, putTxReqToCh, buffer.
  frugal_tac; first [apply frugal_sendGetContractReq|apply frugal_enqueueCh
    |apply frugal_moveTxs|apply frugal_handleGetBytecodeErr
    |apply frugal_getProcesses].
Qed.
Lemma frugal_handleBadContractResp b e msg : preserves (frugal b) (handleBadContractResp e msg).
Proof. unfold handleBadContractResp. frugal_tac; apply frugal_sendGetContractReq. Qed.

Lemma frugal_stop b e : preserves (frugal b) (handleStopRequestGroup e).
Proof. unfold handleStopRequestGroup. frugal_tac. apply frugal_popTxs. Qed.

(** Handling an event: a process response frees the flag of its kind. *)
Lemma onEvent_settled b e msg r a r' :
  onEvent e msg r = Ret (a, r') → settled b r' ≤ settled b r + (if isResponse b msg then 1 else 0).
Proof.
  intros Hr. unfold onEvent in Hr. destruct msg as [ | |m| | | |m| ]; cbn [isResponse]; minv; try lia.
  - match goal with H : handleProcessReadyResp _ _ _ = _ |- _ =>
      unfold handleProcessReadyResp in H; destruct m as [io n]; cbn in H; destruct io; minv end.
    all: match goal with H : getProcesses _ _ _ = _, H1 : updateControllerState _ _ _ = _ |- _ =>
      apply (frugal_getProcesses b) in H; unfold updateControllerState, modifyS in H1; injection H1 as _ <- end.
    all: etrans; [eassumption|]; unfold settled, requests; cbn; destruct b; cbn; repeat case_match; lia.
  - match goal with H : handleBadContractResp _ _ _ = _ |- _ =>
      apply (frugal_handleBadContractResp b) in H; unfold frugal in H; lia end.
Qed.


Lemma loopStep_settled b e c r x r' : loopStep e c r = Ret (x, r') → settled b r' ≤ settled b r.
Proof.
  intros Hr. destruct c; unfold loopStep in Hr; minv.
  - match goal with H : onEvent _ _ _ = _ |- _ => apply (onEvent_settled b) in H; etrans; [exact H|] end.
    unfold settled, requests. match goal with H : r_eventCh r = _ |- _ => rewrite H end.
    cbn [set_eventCh r_outbox r_eventCh controller]. rewrite responses_cons. destruct b; cbn; lia.
  - match goal with H : onTx _ _ _ = _ |- _ => by apply (frugal_onTx b) in H end.
  - match goal with H : handleStopRequestGroup _ _ = _ |- _ => by apply (frugal_stop b) in H end.
  - match goal with H : handleGetBytecodeTimeout _ _ = _ |- _ => unfold handleGetBytecodeTimeout in H; minv end.
    match goal with H : handleGetBytecodeErr _ _ = _ |- _ => by apply (frugal_handleGetBytecodeErr b) in H end.
Qed.

Lemma settled_step b s s' : step s s' →
  settled b (s_group s) ≤ responses b (s_responses s) → settled b (s_group s') ≤ responses b (s_responses s').
Proof.
  intros Hs Hle. destruct Hs as [g sub tk rs run msg g' Hm Hp|g sub tk rs e c x g' He Hl|g sub tk rs run Ha
    |g sub tk rs run b' p rest Ht]; cbn [s_group s_responses] in *.
  - rewrite responses_app. apply PutMsg_Ret in Hp as [[-> _]|[(m & -> & ->)|[-> ->]]]; [| | |done].
    + unfold settled, requests in *.
      change (controller b (set_eventCh (r_eventCh g ++ [msg]) g)) with (controller b g).
      cbn [set_eventCh r_outbox r_eventCh]. rewrite responses_app. lia.
    + change (responses b [AnyDockerVM m]) with 0. rewrite Z.add_0_r. exact Hle.
    + change (responses b [AnyClose]) with 0. rewrite Z.add_0_r. exact Hle.
  - etrans; [by eapply loopStep_settled|done].
  - done.
  - etrans; [|exact Hle]. rewrite settled_controller; done.
Qed.

(** [C5] A request group never has more than one process request outstanding with each
    process manager: the requests it has sent are at most one more than the responses put into
    it, whatever transactions, contract events and responses arrive in between. *)
Theorem one_outstanding_request s b :
  reachable s → requests b (s_group s) ≤ responses b (s_responses s) + 1.
Proof.
  intros (c & n & v & Hr).
  assert (settled b (s_group s) ≤ responses b (s_responses s)) as Hs.
  { remember (start c n v) as s0 eqn:E.
    assert (settled b (s_group s0) ≤ responses b (s_responses s0)) as H0 by (subst; by destruct b).
    clear E. induction Hr; eauto using settled_step. }
  unfold settled in Hs. assert (0 ≤ responses b (r_eventCh (s_group s))) by (unfold responses; lia).
  destruct (processWaiting _); lia.
Qed.

(** [getProcesses] when the process manager takes the request. *)
Definition needed (e : env) (b : bool) (r : RequestGroup) : Z :=
  Z.of_nat (length (GetTxCh b r)) -
  (@pm_GetProcessNumByContractKey (e_pm e b) (r_chainID r) (r_contractName r) (r_contractVersion r) -
   @pm_GetReadyOrBusyProcessNum (e_pm e b) (r_chainID r) (r_contractName r) (r_contractVersion r)).

Lemma getProcesses_eval e b r :
  ProcessManagerLaws (P := e_pm e b) → r_contractState r = _contractReady →
  getProcesses e b r =
    if processWaiting (controller b r) then Ret ((0, None), r)
    else if 0 <? needed e b r
    then Ret ((needed e b r, None),
      set_controller b (mkController (GetTxCh b r) true)
        (send (ToProcessManager b (AnyGetProcessReq (mkGetProcessReq (r_chainID r) (r_contractName r)
                 (r_contractVersion r) (needed e b r)))) r))
    else Ret ((needed e b r, None), r).
Proof.
  intros Hpm Hst. unfold getProcesses, updateControllerState, mbind, M_bind, getS, modifyS, mret, M_ret.
  rewrite Hst, bool_decide_eq_true_2, orb_false_r by done.
  destruct (processWaiting (controller b r)); [done|]. unfold needed, GetTxCh.
  case_match; [|done]. rewrite (@pm_request _ Hpm). by destruct b.
Qed.

(** A transaction that arrives when the contract is ready is queued behind the others
    of its kind, and afterwards either a process request is outstanding or the processes that
    are starting are enough for every queued transaction. When no request was outstanding and
    they are not enough, exactly one request is sent, for the number missing. *)
Theorem ready_tx_gets_processes e req cc b r :
  env_ok e → (∀ b, ProcessManagerLaws (P := e_pm e b)) →
  r_contractState r = _contractReady → m_CrossContext req = Some cc →
  cc_CurrentDepth cc ≤ CallContractDepth → IsOrig req = Some b →
  Z.of_nat (length (GetTxCh b r)) < txChSize b →
  let num := @pm_GetProcessNumByContractKey (e_pm e b) (r_chainID r) (r_contractName r) (r_contractVersion r) in
  let active := @pm_GetReadyOrBusyProcessNum (e_pm e b) (r_chainID r) (r_contractName r) (r_contractVersion r) in
  let need := Z.of_nat (length (GetTxCh b r)) + 1 - (num - active) in
  ∃ r', handleTxReq e req r = Ret (None, r') ∧
    GetTxCh b r' = GetTxCh b r ++ [mkTxPayload req (e_now e)] ∧
    GetTxCh (negb b) r' = GetTxCh (negb b) r ∧
    (processWaiting (controller b r') = true ∨ Z.of_nat (length (GetTxCh b r')) ≤ num - active) ∧
    r_outbox r' = r_outbox r ++
      (if negb (processWaiting (controller b r)) && (0 <? need)
       then [ToProcessManager b (AnyGetProcessReq (mkGetProcessReq (r_chainID r) (r_contractName r)
                                                                   (r_contractVersion r) need))]
       else []).
Proof.
  intros He Hpm Hst Hcc Hd Hb Hroom num active need.
  set (r1 := set_controller b (mkController (GetTxCh b r ++ [mkTxPayload req (e_now e)])
                                            (processWaiting (controller b r))) r).
  assert (handleTxReq e req r = (getProcesses e b ≫= λ res, mret (Wrap "failed to get processes" <$> res.2)) r1) as ->.
  { unfold handleTxReq, putTxReqToCh, enqueueCh, mbind, M_bind, getS, modifyS, mret, M_ret.
    rewrite Hst, Hcc, Hb. assert ((CallContractDepth <? cc_CurrentDepth cc) = false) as -> by by apply Z.ltb_ge.
    cbn [deref mret M_ret]. unfold mret, M_ret.
    apply Z.ltb_lt in Hroom. unfold GetTxCh in Hroom. rewrite Hroom. done. }
  unfold mbind, M_bind. rewrite getProcesses_eval by by destruct b.
  assert (GetTxCh b r1 = GetTxCh b r ++ [mkTxPayload req (e_now e)]) as Hch by by destruct b.
  assert (needed e b r1 = need) as ->.
  { unfold needed, need. fold num active. rewrite Hch, length_app. cbn [length].
    assert (r_chainID r1 = r_chainID r ∧ r_contractName r1 = r_contractName r ∧
            r_contractVersion r1 = r_contractVersion r) as (-> & -> & ->) by by destruct b.
    fold num active. lia. }
  assert (processWaiting (controller b r1) = processWaiting (controller b r)) as -> by by destruct b.
  destruct (processWaiting (controller b r)) eqn:Hw; cbn [negb andb]; [|destruct (0 <? need) eqn:Hn].
  - exists r1. split_and!; [done|done|by destruct b|left; by destruct b|]. rewrite app_nil_r. by destruct b.
  - eexists. split_and!; [done| |by destruct b|left; by destruct b|by destruct b]. rewrite Hch. by destruct b.
  - exists r1. split_and!; [done|done|by destruct b| |rewrite app_nil_r; by destruct b].
    right. apply Z.ltb_ge in Hn. rewrite Hch, length_app. cbn. unfold need in Hn. lia.
Qed.

(** ** Failing to get the contract *)

Definition failResp (msg : DockerVMMessage) : Prop :=
  ∃ rp, m_Response msg = Some rp ∧ rp_Code rp = FAIL.

Definition bytecodeRequest (req : DockerVMMessage) (r : RequestGroup) : AnyMsg :=
  AnyDockerVM (mkMessage (m_TxId req) GET_BYTECODE_REQUEST None None
    (Some (mkRequest (r_contractName r) (r_contractVersion r) "" ∅ (r_chainID r))) None (r_chainID r) []).

Lemma sendGetContractReq_eval e req r :
  env_ok e → sendGetContractReq e req r =
    Ret (None, set_state _contractWaiting (set_timer true (r_timerC r)
                 (send (ToContractManager (bytecodeRequest req r)) r))).
Proof.
  intros [_ Hc]. unfold sendGetContractReq, mbind, M_bind, getS, modifyS.
  by rewrite (@cmgr_docker _ Hc).
Qed.

Lemma returnTxErrorResp_eval e id msg r :
  env_ok e → returnTxErrorResp e id msg r =
    Ret (None, send (ToScheduler (AnyDockerVM (txError (r_chainID r) id msg))) r).
Proof.
  intros [Hs _]. unfold returnTxErrorResp, mbind, M_bind, getS, modifyS.
  by rewrite (@sched_error _ Hs).
Qed.

Lemma stopTimer_eval r : ginv r → stopTimer r = Ret (tt, set_timer false false r).
Proof.
  intros (_ & _ & Hn). unfold stopTimer, mbind, M_bind, getS, modifyS.
  by destruct (r_timerArmed r), (r_timerC r).
Qed.

(** A failure with a buffered transaction: it is answered, and the contract is asked for again
    when others wait. *)
Lemma handleGetBytecodeErr_eval e r tx rest :
  env_ok e → r_bufCh r = tx :: rest →
  let r1 := send (ToScheduler (AnyDockerVM (txError (r_chainID r) (m_TxId tx) "get bytecode error")))
              (set_bufCh rest (set_state _contractEmpty r)) in
  handleGetBytecodeErr e r =
    match rest with
    | [] => Ret (None, r1)
    | _ => Ret (None, set_state _contractWaiting (set_timer true (r_timerC r)
                        (send (ToContractManager (bytecodeRequest tx r)) r1)))
    end.
Proof.
  intros He Hb r1. unfold handleGetBytecodeErr, mbind, M_bind, getS, modifyS. cbn [set_state r_bufCh].
  rewrite Hb, (returnTxErrorResp_eval e _ _ _ He). destruct rest as [|tx2 rest]; [done|].
  cbn [length Nat.ltb Nat.leb]. by rewrite (sendGetContractReq_eval e _ _ He).
Qed.

(** The bytecode requests a group has sent to the contract manager. *)
Definition isBytecodeRequest (s : sent) : bool :=
  match s with ToContractManager (AnyDockerVM m) => bool_decide (m_Type m = GET_BYTECODE_REQUEST) | _ => false end.
Definition bytecodeRequests (r : RequestGroup) : nat := length (List.filter isBytecodeRequest (r_outbox r)).

(** What happens to a group whose contract cannot be loaded: a transaction arrives, the contract manager answers a
    request with a failure, the timer expires, the loop sees that it has. *)
Inductive loadEvent := Arrives (tx : DockerVMMessage) | Answers (msg : DockerVMMessage) | Fires | Expired.

Definition loadEvent_ok (ev : loadEvent) : Prop :=
  match ev with
  | Arrives tx => m_Type tx = TX_REQUEST
  | Answers msg => m_Type msg = GET_BYTECODE_RESPONSE ∧ failResp msg
  | Fires | Expired => True
  end.

(** One of these events; [k] counts the requests whose outcome, an answer or the timeout, the group has seen. A failure
    only comes when there is a request without outcome, the timer only expires while it runs; otherwise nothing
    happens. *)
Definition loadStep (e : env) (ev : loadEvent) (k : nat) (r : RequestGroup) : outcome (nat * RequestGroup) :=
  match ev with
  | Arrives tx => match onTx e tx r with Ret (_, r') => Ret (k, r') | Panic => Panic | Block => Block end
  | Answers msg =>
    if (k <? bytecodeRequests r)%nat
    then match onTx e msg r with Ret (_, r') => Ret (S k, r') | Panic => Panic | Block => Block end
    else Ret (k, r)
  | Fires => Ret (k, if r_timerArmed r then set_timer false true r else r)
  | Expired =>
    if r_timerC r
    then match loopStep e ChTimer r with Ret (_, r') => Ret (S k, r') | Panic => Panic | Block => Block end
    else Ret (k, r)
  end.

Fixpoint loadAll (e : env) (evs : list loadEvent) (k : nat) (r : RequestGroup) : outcome (nat * RequestGroup) :=
  match evs with
  | [] => Ret (k, r)
  | ev :: rest => match loadStep e ev k r with Ret (k', r') => loadAll e rest k' r' | Panic => Panic | Block => Block end
  end.

(** The transactions that arrive. *)
Definition arrivals (evs : list loadEvent) : list DockerVMMessage :=
  concat ((λ ev, match ev with Arrives tx => [tx] | _ => [] end) <$> evs).

(** A failure in one of its two forms. *)
Definition failure (evs : list loadEvent) : Prop :=
  evs = [Fires; Expired] ∨ ∃ msg, evs = [Answers msg] ∧ loadEvent_ok (Answers msg).

(** Between two events: the contract is awaited, with one request without outcome and the timer running or expired,
    exactly while transactions are buffered; else the group is as one that has not asked. *)
Definition loading (k : nat) (r : RequestGroup) : Prop :=
  r_timerArmed r && r_timerC r = false ∧
  match r_bufCh r with
  | [] => r_contractState r = _contractEmpty ∧ r_timerArmed r || r_timerC r = false ∧ bytecodeRequests r = k
  | _ => r_contractState r = _contractWaiting ∧ r_timerArmed r || r_timerC r = true ∧ bytecodeRequests r = S k
  end.

(** What the loading leaves alone: the channels to the processes and the other channels. *)
Definition untouched (r r' : RequestGroup) : Prop :=
  r_orig r' = r_orig r ∧ r_cross r' = r_cross r ∧ r_eventCh r' = r_eventCh r ∧ r_txCh r' = r_txCh r ∧
  r_stopCh r' = r_stopCh r ∧ r_ContractFileVersion r' = r_ContractFileVersion r.

Lemma loading_ginv k r : loading k r → ginv r.
Proof. unfold loading, ginv. intros [Hn H0]. destruct (r_bufCh r); destruct H0 as (-> & -> & _); done. Qed.

(** A failure takes the first buffered transaction. *)
Lemma handleGetBytecodeErr_load e k r tx rest :
  env_ok e → r_bufCh r = tx :: rest → r_timerArmed r = false → r_timerC r = false → bytecodeRequests r = S k →
  ∃ r', handleGetBytecodeErr e r = Ret (None, r') ∧ loading (S k) r' ∧ r_bufCh r' = rest ∧
    answered r' = answered r ++ [m_TxId tx] ∧ untouched r r'.
Proof.
  intros He Hb Ha Hc Hk. rewrite (handleGetBytecodeErr_eval e r tx rest He Hb). unfold bytecodeRequests in Hk.
  unfold loading, untouched, answered, bytecodeRequests.
  destruct rest as [|tx2 rest]; eexists; (split; [reflexivity|]);
    cbn [set_state set_timer send set_bufCh r_bufCh r_timerArmed r_timerC r_contractState r_outbox r_orig r_cross
         r_eventCh r_txCh r_stopCh r_ContractFileVersion];
    rewrite ?List.filter_app, ?length_app, ?fmap_app, ?concat_app, ?Ha, ?Hc, ?Hk; split_and!; try reflexivity.
  - apply Nat.add_0_r.
  - change (S k + 0 + 1 = S (S k))%nat. lia.
  - by rewrite app_nil_r.
Qed.

(** An arriving transaction is buffered, and the first one asks for the contract. *)
Lemma arrives_load e k r tx :
  env_ok e → loading k r → m_Type tx = TX_REQUEST → Z.of_nat (length (r_bufCh r)) < _requestGroupTxChSize →
  ∃ r', onTx e tx r = Ret (tt, r') ∧ loading k r' ∧ r_bufCh r' = r_bufCh r ++ [tx] ∧
    answered r' = answered r ∧ untouched r r'.
Proof.
  intros He [Hn Hl] Ht Hroom. apply Z.ltb_lt in Hroom.
  assert (buffer tx r = Ret (tt, set_bufCh (r_bufCh r ++ [tx]) r)) as Eb'
    by by unfold buffer, mbind, M_bind, getS; rewrite Hroom.
  unfold onTx, handleTxReq, mbind, M_bind, getS. rewrite Ht.
  destruct (r_bufCh r) as [|tx1 rest] eqn:Eb; destruct Hl as (Hs & Ht1 & Hk); rewrite Hs, Eb'.
  - rewrite (sendGetContractReq_eval e _ _ He). eexists. split; [reflexivity|].
    apply orb_false_iff in Ht1 as [Ha Hc]. unfold loading, untouched, answered, bytecodeRequests in *.
    cbn [set_state set_timer send set_bufCh r_bufCh r_timerArmed r_timerC r_contractState app r_outbox r_orig r_cross
         r_eventCh r_txCh r_stopCh r_ContractFileVersion].
    rewrite ?List.filter_app, ?length_app, ?fmap_app, ?concat_app, Hk, Hc. split_and!; try reflexivity.
    + change (k + 1 = S k)%nat. lia.
    + by rewrite app_nil_r.
  - eexists. split; [reflexivity|]. unfold loading, untouched. cbn. split_and!; done.
Qed.

Lemma untouched_trans r1 r2 r3 : untouched r1 r2 → untouched r2 r3 → untouched r1 r3.
Proof. unfold untouched. intros (?&?&?&?&?&?) (?&?&?&?&?&?). split_and!; congruence. Qed.

(** A request without outcome and its failure. *)
Lemma failure_load e k r tx rest evs :
  env_ok e → loading k r → r_bufCh r = tx :: rest → failure evs →
  ∃ r', loadAll e evs k r = Ret (S k, r') ∧ loading (S k) r' ∧ r_bufCh r' = rest ∧
    answered r' = answered r ++ [m_TxId tx] ∧ untouched r r'.
Proof.
  intros He Hl Hb Hf. pose proof (loading_ginv _ _ Hl) as Hg. destruct Hl as [Hn Hl]. rewrite Hb in Hl.
  destruct Hl as (Hs & Ht & Hk). destruct Hf as [->|(msg & -> & Hty & rp & Hrp & Hcode)].
  - cbn [loadAll loadStep]. set (r1 := set_timer false true r).
    assert ((if r_timerArmed r then r1 else r) = r1) as Er.
    { unfold r1. destruct r; cbn in *. destruct r_timerArmed0, r_timerC0; done. }
    rewrite Er.
    destruct (handleGetBytecodeErr_load e k (set_timer false false r1) tx rest) as (r' & E & HL & ? & Ha & Hu); [done..|].
    exists r'. cbn [r1 set_timer r_timerC]. unfold loopStep, handleGetBytecodeTimeout, mbind, M_bind, getS, modifyS.
    cbn [r1 set_timer r_timerC r_timerArmed]. cbn [r1 set_timer] in E. rewrite E. done.
  - cbn [loadAll loadStep]. assert ((k <? bytecodeRequests r)%nat = true) as -> by (apply Nat.ltb_lt; lia).
    unfold onTx. rewrite Hty.
    destruct (handleGetBytecodeErr_load e k (set_timer false false r) tx rest) as (r' & E & HL & ? & Ha & Hu); [done..|].
    exists r'. unfold handleContractReadyResp, handleGetBytecodeFailed, mbind, M_bind.
    rewrite (stopTimer_eval r Hg), Hrp. cbn [deref]. unfold mret, M_ret. rewrite decide_True by done.
    rewrite E. done.
Qed.

(** Each event keeps the account of the transactions. *)
Lemma loadStep_inv e ev k r :
  env_ok e → loading k r → loadEvent_ok ev → Z.of_nat (length (r_bufCh r)) < _requestGroupTxChSize →
  ∃ k' r', loadStep e ev k r = Ret (k', r') ∧ loading k' r' ∧
    answered r' ++ (m_TxId <$> r_bufCh r') = answered r ++ (m_TxId <$> r_bufCh r) ++ (m_TxId <$> arrivals [ev]) ∧
    (length (r_bufCh r') ≤ length (r_bufCh r) + length (arrivals [ev]))%nat ∧ untouched r r'.
Proof.
  intros He Hl Hok Hroom. destruct ev as [tx|msg| |]; cbn [loadStep arrivals fmap list_fmap concat app length].
  - destruct (arrives_load e k r tx He Hl Hok Hroom) as (r' & -> & ? & Hb & Ha & ?). exists k, r'.
    split_and!; [done..| | |done]; rewrite Hb; [by rewrite Ha, fmap_app|by rewrite length_app].
  - destruct (k <? bytecodeRequests r)%nat eqn:Ek.
    + destruct (r_bufCh r) as [|tx rest] eqn:Eb.
      { destruct Hl as [_ Hl]. rewrite Eb in Hl. destruct Hl as (_ & _ & Hk). apply Nat.ltb_lt in Ek. lia. }
      destruct (failure_load e k r tx rest [Answers msg] He Hl Eb) as (r' & E & ? & Hb & Ha & ?); [by right; eauto|].
      exists (S k), r'. cbn [loadAll loadStep] in E. rewrite Ek in E. destruct (onTx e msg r) as [[]| |]; try done.
      injection E as <-. rewrite Hb, Ha. split_and!; [done..| |cbn; lia|done].
      rewrite app_nil_r, <-app_assoc. done.
    + exists k, r. rewrite app_nil_r. split_and!; [done..|lia|by split_and!].
  - exists k, (if r_timerArmed r then set_timer false true r else r). rewrite app_nil_r.
    destruct Hl as [Hn Hl]. destruct (r_timerArmed r) eqn:Ea; (split_and!; [done| |done|cbn; lia|by split_and!]);
      [|by unfold loading; rewrite Ea]. split; [done|]. cbn. by destruct (r_bufCh r).
  - destruct (r_timerC r) eqn:Ec.
    + destruct (r_bufCh r) as [|tx rest] eqn:Eb.
      { destruct Hl as [_ Hl]. rewrite Eb, Ec, orb_true_r in Hl. by destruct Hl as (_ & ? & _). }
      destruct (failure_load e k r tx rest [Fires; Expired] He Hl Eb) as (r' & E & ? & Hb & Ha & ?); [by left|].
      exists (S k), r'. cbn [loadAll loadStep] in E. destruct Hl as [Hn _]. rewrite Ec, andb_true_r in Hn.
      rewrite Hn, Ec in E. destruct (loopStep e ChTimer r) as [[]| |]; try done. injection E as <-.
      rewrite Hb, Ha. split_and!; [done..| |cbn; lia|done]. rewrite app_nil_r, <-app_assoc. done.
    + exists k, r. rewrite app_nil_r. split_and!; [done..|lia|by split_and!].
Qed.

Lemma arrivals_app evs evs' : arrivals (evs ++ evs') = arrivals evs ++ arrivals evs'.
Proof. unfold arrivals. by rewrite fmap_app, concat_app. Qed.

Lemma loadAll_inv e evs k r :
  env_ok e → loading k r → Forall loadEvent_ok evs →
  Z.of_nat (length (r_bufCh r) + length (arrivals evs)) < _requestGroupTxChSize →
  ∃ k' r', loadAll e evs k r = Ret (k', r') ∧ loading k' r' ∧
    answered r' ++ (m_TxId <$> r_bufCh r') = answered r ++ (m_TxId <$> r_bufCh r) ++ (m_TxId <$> arrivals evs) ∧
    untouched r r'.
Proof.
  intros He Hl Hok. revert k r Hl. induction Hok as [|ev evs Hev Hok IH]; intros k r Hl Hroom.
  { exists k, r. rewrite app_nil_r. split_and!; [done..|by split_and!]. }
  change (ev :: evs) with ([ev] ++ evs) in *. rewrite arrivals_app, length_app in Hroom.
  destruct (loadStep_inv e ev k r He Hl Hev) as (k1 & r1 & E & Hl1 & Ha1 & Hn1 & Hu1); [lia|].
  destruct (IH k1 r1 Hl1) as (k2 & r2 & E2 & Hl2 & Ha2 & Hu2); [lia|].
  exists k2, r2. rewrite arrivals_app, fmap_app. cbn [app loadAll]. rewrite E. split_and!; [done..| |by eapply untouched_trans].
  by rewrite Ha2, app_assoc, Ha1, <-!app_assoc.
Qed.

Lemma loadAll_app e evs evs' k r :
  loadAll e (evs ++ evs') k r =
    match loadAll e evs k r with Ret (k', r') => loadAll e evs' k' r' | Panic => Panic | Block => Block end.
Proof.
  revert k r. induction evs as [|ev evs IH]; intros k r; [done|]. cbn [app loadAll].
  destruct (loadStep e ev k r) as [[k' r']| |]; [apply IH|done..].
Qed.

(** As many failures as transactions are buffered. *)
Lemma failures_empty e fs k r :
  env_ok e → loading k r → Forall failure fs → length fs = length (r_bufCh r) →
  ∃ r', loadAll e (concat fs) k r = Ret ((k + length fs)%nat, r') ∧ loading (k + length fs) r' ∧ r_bufCh r' = [] ∧
    answered r' = answered r ++ (m_TxId <$> r_bufCh r) ∧ untouched r r'.
Proof.
  intros He Hl Hfs. revert k r Hl. induction Hfs as [|f fs Hf Hfs IH]; intros k r Hl Hlen.
  { destruct (r_bufCh r) eqn:Eb; [|done]. exists r. rewrite Nat.add_0_r, app_nil_r. split_and!; [done..|by split_and!]. }
  destruct (r_bufCh r) as [|tx rest] eqn:Eb; [done|].
  destruct (failure_load e k r tx rest f He Hl Eb Hf) as (r1 & E1 & Hl1 & Hb1 & Ha1 & Hu1).
  destruct (IH (S k) r1 Hl1) as (r2 & E2 & Hl2 & Hb2 & Ha2 & Hu2); [rewrite Hb1; cbn in Hlen; lia|].
  exists r2. cbn [length]. rewrite <-Nat.add_succ_comm. split_and!; [|done..| |by eapply untouched_trans].
  - cbn [concat]. rewrite loadAll_app, E1. done.
  - by rewrite Ha2, Ha1, Hb1, <-app_assoc.
Qed.

(** [C40] When the contract cannot be loaded no transaction is left behind. Take a group that has not asked for its
    contract, or waits for it with transactions buffered and one request without outcome ([loading]), and any sequence
    of arriving transactions, failed answers and expiries of the timer, where each request has one outcome, its answer
    or its timeout, and the buffer (50000) is not full: no handler panics or waits, the transactions are answered in the
    order they arrived or still buffered, and while any is buffered there is one request without outcome and the timer
    runs or has expired. As many further failures as transactions are buffered can then happen, each of its own request,
    and answer them all in order; the contract is then not awaited, the timer is stopped, no request is open, and
    the channels to the processes are as they were. *)
Theorem failures_answer_all e evs k r :
  env_ok e → loading k r → Forall loadEvent_ok evs →
  Z.of_nat (length (r_bufCh r) + length (arrivals evs)) < _requestGroupTxChSize →
  ∃ k' r', loadAll e evs k r = Ret (k', r') ∧ untouched r r' ∧
    answered r' ++ (m_TxId <$> r_bufCh r') = answered r ++ (m_TxId <$> r_bufCh r) ++ (m_TxId <$> arrivals evs) ∧
    (r_bufCh r' ≠ [] → bytecodeRequests r' = S k' ∧ r_timerArmed r' || r_timerC r' = true) ∧
    ∀ fs, Forall failure fs → length fs = length (r_bufCh r') →
      ∃ r'', loadAll e (concat fs) k' r' = Ret ((k' + length fs)%nat, r'') ∧ r_bufCh r'' = [] ∧
        answered r'' = answered r' ++ (m_TxId <$> r_bufCh r') ∧ untouched r' r'' ∧
        r_contractState r'' = _contractEmpty ∧ r_timerArmed r'' = false ∧ r_timerC r'' = false ∧
        bytecodeRequests r'' = (k' + length fs)%nat.
Proof.
  intros He Hl Hok Hroom. destruct (loadAll_inv e evs k r He Hl Hok Hroom) as (k' & r' & E & Hl' & Ha & Hu).
  exists k', r'. split_and!; [done..| |].
  - intros Hb. destruct Hl' as [_ Hl']. destruct (r_bufCh r'); [done|]. naive_solver.
  - intros fs Hfs Hlen. destruct (failures_empty e fs k' r' He Hl' Hfs Hlen) as (r'' & E2 & [_ Hl2] & Hb2 & Ha2 & Hu2).
    rewrite Hb2 in Hl2. destruct Hl2 as (Hs & Ht & Hk). apply orb_false_iff in Ht as [? ?]. exists r''. by split_and!.
Qed.

(** A failure response that finds no buffered transaction stops the group for ever:
    the handler receives from [bufCh], on which only the same goroutine sends. Such a state is
    reached when a bad contract is asked for again on behalf of transactions that are already in
    a process channel. *)
Theorem late_failure_blocks e msg s :
  reachable s → failResp msg → r_bufCh (s_group s) = [] →
  handleContractReadyResp e msg (s_group s) = Block.
Proof.
  intros [Hg _ _]%reachable_inv (rp & Hrp & Hcode) Hb. destruct s as [r ? ? ? ?]. cbn in *.
  unfold handleContractReadyResp, handleGetBytecodeFailed, handleGetBytecodeErr, mbind, M_bind.
  rewrite (stopTimer_eval r Hg), Hrp. cbn [deref]. unfold mret, M_ret. rewrite decide_True by done.
  unfold modifyS, getS. cbn [set_state r_bufCh set_timer]. by rewrite Hb.
Qed.
End group.

(** ** Concrete runs *)

(** An action of the system, and its execution in fixed surroundings. *)
Inductive action := APut (m : AnyMsg) | ALoop (c : choice) | AFire | ATake (b : bool).

Section run.
Context `{ProtocolConsts} (e : env).

Definition act (s : system) (a : action) : option system :=
  let g := s_group s in
  match a with
  | APut msg =>
    match PutMsg msg g with
    | Ret (None, g') =>
      Some (mkSystem g' (s_submitted s ++ match msg with AnyDockerVM m => txIds [m] | _ => [] end)
              (s_taken s) (s_responses s ++ [msg]) (s_running s))
    | _ => None
    end
  | ALoop c =>
    match loopStep e c g with
    | Ret (b, g') =>
      if s_running s then Some (mkSystem g' (s_submitted s) (s_taken s) (s_responses s) b) else None
    | _ => None
    end
  | AFire =>
    if r_timerArmed g
    then Some (mkSystem (set_timer false true g) (s_submitted s) (s_taken s) (s_responses s) (s_running s))
    else None
  | ATake b =>
    match GetTxCh b g with
    | p :: rest =>
      Some (mkSystem (set_controller b (mkController rest (processWaiting (controller b g))) g)
              (s_submitted s) (s_taken s ++ [m_TxId (tp_Tx p)]) (s_responses s) (s_running s))
    | [] => None
    end
  end.

Definition action_ok (a : action) : Prop :=
  match a with APut (AnyDockerVM m) => m_Type m = TX_REQUEST → tx_ok m | _ => True end.

Lemma act_step s a s' : env_ok e → action_ok a → act s a = Some s' → step s s'.
Proof.
  intros He Ha. destruct s as [g sub tk rs run], a as [m|c| |b];
    unfold act; cbn [s_group s_submitted s_taken s_responses s_running].
  - destruct (PutMsg m g) as [[[?|] g']| |] eqn:E; try done. intros [= <-].
    apply step_put; [|done]. intros m' -> Ht. by apply Ha.
  - destruct (loopStep e c g) as [[b g']| |] eqn:E; try done. destruct run; [|done]. intros [= <-].
    by eapply step_loop.
  - case_match; [|done]. intros [= <-]. by apply step_fire.
  - case_match eqn:E; [done|]. intros [= <-]. by apply step_take.
Qed.

Fixpoint runActions (s : system) (l : list action) : option system :=
  match l with
  | [] => Some s
  | a :: l' => match act s a with Some s' => runActions s' l' | None => None end
  end.

Lemma run_reachable c n v l s :
  env_ok e → Forall action_ok l → runActions (start c n v) l = Some s → reachable s.
Proof.
  intros He Hl Hs. exists c, n, v. revert Hs. generalize (start c n v).
  induction Hl as [|a l Ha Hl IH]; cbn; intros s0; [by intros [= ->]|].
  destruct (act s0 a) as [s1|] eqn:E; [|done]. intros Hs.
  eapply rtc_l; [by eapply act_step|by apply IH].
Qed.
End run.

(** Surroundings in which no process exists yet and every message is taken. *)
Definition sampleEnv : env :=
  mkEnv 7 openScheduler {| cmgr_PutMsg := λ _, None |}
    (λ _, {| pm_PutMsg := λ _, None; pm_GetProcessNumByContractKey := λ _ _ _, 0;
             pm_GetReadyOrBusyProcessNum := λ _ _ _, 0 |}).

Lemma sampleEnv_ok : env_ok sampleEnv.
Proof. split; [apply openScheduler_laws|by split]. Qed.

Definition sampleTx (id : string) (depth : Z) : DockerVMMessage :=
  mkMessage id TX_REQUEST (Some (mkCross depth "" (Z.shiftl 1 55))) None
    (Some (mkRequest "c" "v1" "m" ∅ "chain1")) None "chain1" [].
Definition sampleReady (code : DockerVMCode) : DockerVMMessage :=
  mkMessage "" GET_BYTECODE_RESPONSE None None None
    (Some (mkResponse "" code "" "" ∅ ∅ [] "" "" "")) "chain1" [].

(** Two original transactions and a cross one, of which the contract's arrival finds two
    buffered; a process takes one and reports the contract as bad while another waits. *)
Definition sampleActions : list action :=
  [APut (AnyDockerVM (sampleTx "t1" 0)); APut (AnyDockerVM (sampleTx "t2" 1)); ALoop ChTx; ALoop ChTx;
   APut (AnyDockerVM (sampleReady OK)); ALoop ChTx;
   APut (AnyGetProcessResp (mkGetProcessResp true 1)); ATake true;
   APut (AnyDockerVM (sampleTx "t3" 0)); ALoop ChTx; ALoop ChEvent;
   APut (AnyBadContract (mkBadContract (sampleTx "t1" 0) true 7)); ALoop ChEvent].

Definition sampleState : system :=
  Eval vm_compute in default (start "chain1" "c" "v1")
    (runActions (H := sampleConsts) sampleEnv (start "chain1" "c" "v1") sampleActions).

Lemma sample_reachable : reachable (H := sampleConsts) sampleState.
Proof.
  apply (run_reachable (H := sampleConsts) sampleEnv "chain1" "c" "v1" sampleActions).
  - apply sampleEnv_ok.
  - repeat constructor; done.
  - vm_compute. reflexivity.
Qed.

Lemma group_conserves_txs_witness :
  ["t1"; "t2"; "t3"] ≡ₚ [] ++ [] ++ ["t3"] ++ ["t2"] ++ [] ++ ["t1"].
Proof. exact (group_conserves_txs (H := sampleConsts) sampleState sample_reachable). Defined.

Lemma group_contract_states_witness :
  r_contractState (s_group sampleState) = _contractWaiting ∧ r_timerArmed (s_group sampleState) = true ∧
  ¬ (r_timerArmed (s_group sampleState) = true ∧ r_timerC (s_group sampleState) = true).
Proof.
  split_and!; [reflexivity..|].
  exact (proj2 (proj2 (group_contract_states (H := sampleConsts) sampleState sample_reachable))).
Defined.

Lemma one_outstanding_request_witness :
  requests true (s_group sampleState) ≤ responses true (s_responses sampleState) + 1.
Proof. exact (one_outstanding_request (H := sampleConsts) sampleState true sample_reachable). Defined.

(** The group that awaits its contract with two transactions buffered. *)
Definition sampleWaiting : RequestGroup :=
  set_bufCh [sampleTx "t1" 0; sampleTx "t2" 1]
    (set_state _contractWaiting (set_timer true false (NewRequestGroup "chain1" "c" "v1"))).

Lemma sampleWaiting_inv : ginv sampleWaiting.
Proof. by split_and!. Qed.

Lemma ready_moves_in_order_witness :
  match handleContractReadyResp (H := sampleConsts) sampleEnv (sampleReady OK) sampleWaiting with
  | Ret (_, r') => tp_Tx <$> GetTxCh false r' = [sampleTx "t2" 1] | _ => False
  end.
Proof.
  destruct (handleContractReadyResp (H := sampleConsts) sampleEnv (sampleReady OK) sampleWaiting)
    as [[a r']| |] eqn:E.
  - eapply (ready_moves_in_order (H := sampleConsts)) in E as (_ & _ & Hc); [|reflexivity|reflexivity].
    rewrite (Hc false). vm_compute. reflexivity.
  - vm_compute in E. discriminate E.
  - vm_compute in E. discriminate E.
Defined.

Definition sampleReadyGroup : RequestGroup :=
  set_state _contractReady (NewRequestGroup "chain1" "c" "v1").

Lemma ready_tx_gets_processes_witness :
  ∃ r', handleTxReq (H := sampleConsts) sampleEnv (sampleTx "t1" 0) sampleReadyGroup = Ret (None, r') ∧
    r_outbox r' = [] ++ [ToProcessManager true (AnyGetProcessReq (mkGetProcessReq "chain1" "c" "v1" 1))].
Proof.
  destruct (ready_tx_gets_processes (H := sampleConsts) sampleEnv (sampleTx "t1" 0)
    (mkCross 0 "" (Z.shiftl 1 55)) true sampleReadyGroup) as (r' & E & _ & _ & _ & Ho).
  - apply sampleEnv_ok.
  - intros b. by split.
  - reflexivity.
  - reflexivity.
  - vm_compute. discriminate.
  - reflexivity.
  - reflexivity.
  - exists r'. split; [exact E|exact Ho].
Defined.

(** Two transactions arrive, the first request is answered by a failure, a third transaction arrives; then the timer
    expires for the second request and the third one fails. *)
Definition sampleLoad : list loadEvent :=
  [Arrives (sampleTx "t1" 0); Arrives (sampleTx "t2" 1); Answers (sampleReady FAIL); Arrives (sampleTx "t3" 0)].

Lemma failures_answer_all_witness :
  match loadAll (H := sampleConsts) sampleEnv (sampleLoad ++ [Fires; Expired; Answers (sampleReady FAIL)]) 0
          (NewRequestGroup "chain1" "c" "v1") with
  | Ret (k, r) => k = 3%nat ∧ answered r = ["t1"; "t2"; "t3"] ∧ r_contractState r = _contractEmpty
  | _ => False
  end.
Proof.
  destruct (failures_answer_all (H := sampleConsts) sampleEnv sampleLoad 0 (NewRequestGroup "chain1" "c" "v1"))
    as (k & r & E & _ & _ & _ & Hf).
  - apply sampleEnv_ok.
  - by split_and!.
  - repeat constructor; try done. by eexists.
  - done.
  - rewrite (loadAll_app (H := sampleConsts)), E. vm_compute in E. injection E as <- <-.
    destruct (Hf [[Fires; Expired]; [Answers (sampleReady FAIL)]]) as (r'' & E2 & _ & Ha & _ & Hs & _ & _ & _).
    + constructor; [by left|]. constructor; [|done]. right. eexists. split; [done|]. split; [done|]. by eexists.
    + reflexivity.
    + cbn [concat app] in E2. rewrite E2. by split_and!.
Defined.

Lemma late_failure_blocks_witness :
  c_txCh (r_orig (s_group sampleState)) ≠ [] ∧
  handleContractReadyResp (H := sampleConsts) sampleEnv (sampleReady FAIL) (s_group sampleState) = Block.
Proof.
  split; [done|].
  apply (late_failure_blocks (H := sampleConsts) sampleEnv (sampleReady FAIL) sampleState sample_reachable);
    [by eexists|reflexivity].
Defined.
End RequestGroup.
