(* ===== verification/RequestScheduler.v ===== *)
(** * vm_mgr/module/core/request_scheduler.go

    The scheduler routes the messages between the chain, the contract manager and the request
    groups, and creates a request group the first time a transaction of its contract comes. *)

From S2P Require Import Prelude Messages Interfaces EngineUtils RequestGroup.

Module RequestScheduler.

Definition _requestSchedulerTxChSize : Z := 50000.
Definition _requestSchedulerEventChSize : Z := 1000.
Definition _closeChSize : Z := 8.

(** A message handed to the chain RPC service or to the contract manager. *)
Inductive sent := ToChain (m : DockerVMMessage) | ToContractManager (m : DockerVMMessage).

(** [RequestScheduler], with the groups it has told to stop. *)
Record RequestScheduler := mkScheduler {
  s_eventCh : list DockerVMMessage;
  s_txCh : list DockerVMMessage;
  s_closeCh : list RequestGroupKey;
  s_requestGroups : gmap string RequestGroup.RequestGroup;
  s_closed : list RequestGroup.RequestGroup;
  s_outbox : list sent;
}.

Definition NewRequestScheduler : RequestScheduler := mkScheduler [] [] [] ∅ [] [].

Definition set_eventCh l s :=
  mkScheduler l (s_txCh s) (s_closeCh s) (s_requestGroups s) (s_closed s) (s_outbox s).
Definition set_txCh l s :=
  mkScheduler (s_eventCh s) l (s_closeCh s) (s_requestGroups s) (s_closed s) (s_outbox s).
Definition set_closeCh l s :=
  mkScheduler (s_eventCh s) (s_txCh s) l (s_requestGroups s) (s_closed s) (s_outbox s).
Definition set_groups g s :=
  mkScheduler (s_eventCh s) (s_txCh s) (s_closeCh s) g (s_closed s) (s_outbox s).
Definition add_closed g s :=
  mkScheduler (s_eventCh s) (s_txCh s) (s_closeCh s) (s_requestGroups s) (s_closed s ++ [g]) (s_outbox s).
Definition send m s :=
  mkScheduler (s_eventCh s) (s_txCh s) (s_closeCh s) (s_requestGroups s) (s_closed s) (s_outbox s ++ [m]).

(** The message types the scheduler's two message channels take. *)
Definition isEvent (t : DockerVMType) : bool :=
  match t with GET_BYTECODE_REQUEST | GET_BYTECODE_RESPONSE | ERROR => true | _ => false end.

Definition PutMsg (msg : AnyMsg) : M RequestScheduler (option gerr) :=
  s ← getS;
  match msg with
  | AnyDockerVM m =>
    if isEvent (m_Type m)
    then if Z.of_nat (length (s_eventCh s)) <? _requestSchedulerEventChSize
         then modifyS (set_eventCh (s_eventCh s ++ [m]));; mret None else block
    else if decide (m_Type m = TX_REQUEST)
    then if Z.of_nat (length (s_txCh s)) <? _requestSchedulerTxChSize
         then modifyS (set_txCh (s_txCh s ++ [m]));; mret None else block
    else mret (Some (Err "unknown msg type"))
  | AnyGroupKey k =>
    if Z.of_nat (length (s_closeCh s)) <? _closeChSize
    then modifyS (set_closeCh (s_closeCh s ++ [k]));; mret None else block
  | _ => mret (Some (Err "unknown msg type"))
  end.

Definition GetRequestGroup (chainID contractName contractVersion : string) (s : RequestScheduler) :
    option RequestGroup.RequestGroup :=
  s_requestGroups s !! contractKey chainID contractName contractVersion.

Section scheduler.

(** [chainRPCService.PutMsg] and the contract manager's. *)
Context (chainPutMsg : DockerVMMessage → option gerr) `{ContractManagerI}.

Definition handleGetContractReq (req : DockerVMMessage) : M RequestScheduler (option gerr) :=
  match chainPutMsg req with
  | Some e => mret (Some (Wrap "failed to invoke chain rpc service PutMsg" e))
  | None => modifyS (send (ToChain req));; mret None
  end.

Definition handleGetContractResp (resp : DockerVMMessage) : M RequestScheduler (option gerr) :=
  match cmgr_PutMsg (AnyDockerVM resp) with
  | Some e => mret (Some (Wrap "failed to invoke contract manager PutMsg" e))
  | None => modifyS (send (ToContractManager resp));; mret None
  end.

Definition handleErrResp (resp : DockerVMMessage) : M RequestScheduler (option gerr) :=
  match chainPutMsg resp with
  | Some e => mret (Some (Wrap "failed to invoke chain rpc service PutMsg" e))
  | None => modifyS (send (ToChain resp));; mret None
  end.

(** A [PutMsg] on the request group stored under a key. *)
Definition groupPutMsg (key : string) (msg : AnyMsg) : M RequestScheduler (option gerr) := λ s,
  match s_requestGroups s !! key with
  | None => Panic
  | Some g =>
    match RequestGroup.PutMsg msg g with
    | Ret (e, g') => Ret (e, set_groups (<[key := g']> (s_requestGroups s)) s)
    | Panic => Panic
    | Block => Block
    end
  end.

(** The group of a request is created and started when the map has none under its key. *)
Definition handleTxReq (req : DockerVMMessage) : M RequestScheduler (option gerr) :=
  match m_Request req with
  | None => mret (Some (Err "empty request payload"))
  | Some rq =>
    let key := contractKey (rq_ChainId rq) (rq_ContractName rq) (rq_ContractVersion rq) in
    s ← getS;
    (match s_requestGroups s !! key with
     | Some _ => mret tt
     | None =>
       modifyS (set_groups (<[key := RequestGroup.NewRequestGroup (rq_ChainId rq) (rq_ContractName rq)
                                       (rq_ContractVersion rq)]> (s_requestGroups s)))
     end);;
    e ← groupPutMsg key (AnyDockerVM req);
    mret (Wrap "failed to invoke request group PutMsg" <$> e)
  end.

Definition handleCloseReq (msg : RequestGroupKey) : M RequestScheduler (option gerr) :=
  let key := contractKey (gk_ChainID msg) (gk_ContractName msg) (gk_ContractVersion msg) in
  s ← getS;
  match s_requestGroups s !! key with
  | None => mret (Some (Err "request group not found"))
  | Some _ =>
    e ← groupPutMsg key AnyClose;
    match e with
    | Some er => mret (Some (Wrap "failed to invoke request group PutMsg" er))
    | None =>
      s ← getS;
      g ← deref (s_requestGroups s !! key);
      modifyS (add_closed g);;
      modifyS (set_groups (delete key (s_requestGroups s)));; mret None
    end
  end.

(** One round of the loop of [Start]; errors are only logged. *)
Inductive choice := ChEvent | ChTx | ChClose.

Definition loopStep (c : choice) : M RequestScheduler unit :=
  s ← getS;
  match c with
  | ChEvent =>
    match s_eventCh s with
    | [] => block
    | msg :: rest =>
      modifyS (set_eventCh rest);;
      match m_Type msg with
      | GET_BYTECODE_REQUEST => handleGetContractReq msg;; mret tt
      | GET_BYTECODE_RESPONSE => handleGetContractResp msg;; mret tt
      | ERROR => handleErrResp msg;; mret tt
      | _ => mret tt
      end
    end
  | ChTx =>
    match s_txCh s with
    | [] => block
    | msg :: rest => modifyS (set_txCh rest);; handleTxReq msg;; mret tt
    end
  | ChClose =>
    match s_closeCh s with
    | [] => block
    | msg :: rest => modifyS (set_closeCh rest);; handleCloseReq msg;; mret tt
    end
  end.
End scheduler.

(** ** The promise to the other components *)

(** The error of [PutMsg], which depends on the message only. *)
Definition putErr (msg : AnyMsg) : option gerr :=
  match msg with
  | AnyDockerVM m =>
    if isEvent (m_Type m) || bool_decide (m_Type m = TX_REQUEST) then None else Some (Err "unknown msg type")
  | AnyGroupKey _ => None
  | _ => Some (Err "unknown msg type")
  end.

Definition groupPutErr (msg : AnyMsg) : option gerr :=
  match msg with
  | AnyGetProcessResp _ | AnyBadContract _ | AnyDockerVM _ | AnyClose => None
  | _ => Some (Err "unknown msg type")
  end.

(** The scheduler as its clients see it. *)
Definition asInterface (s : RequestScheduler) : SchedulerI := {|
  sched_PutMsg := putErr;
  sched_GetRequestGroup c n v := bool_decide (is_Some (GetRequestGroup c n v s));
  group_PutMsg := groupPutErr;
|}.

#[export] Instance asInterface_laws s : SchedulerLaws (S := asInterface s).
Proof. split; cbn; try done; by intros m ->. Qed.

Lemma PutMsg_err msg s e s' : PutMsg msg s = Ret (e, s') → e = putErr msg.
Proof.
  unfold PutMsg, putErr. intros Hp. minv; try done.
  - by rewrite bool_decide_eq_true_2.
  - by rewrite bool_decide_eq_false_2.
Qed.

Lemma groupPutMsg_err msg g e g' : RequestGroup.PutMsg msg g = Ret (e, g') → e = groupPutErr msg.
Proof. unfold RequestGroup.PutMsg, groupPutErr. intros Hp. by minv. Qed.

(** ** Routing *)

(** The key of a transaction request. *)
Definition txKey (m : DockerVMMessage) : option string :=
  rq ← m_Request m; Some (contractKey (rq_ChainId rq) (rq_ContractName rq) (rq_ContractVersion rq)).

Definition groupKey (g : RequestGroup.RequestGroup) : string :=
  contractKey (RequestGroup.r_chainID g) (RequestGroup.r_contractName g) (RequestGroup.r_contractVersion g).

(** Every transaction of a group has the group's key. *)
Definition group_pure (g : RequestGroup.RequestGroup) : Prop :=
  Forall (λ m, m_Type m = TX_REQUEST → txKey m = Some (groupKey g)) (RequestGroup.r_txCh g).

(** What holds of a scheduler: a group is stored under its own key, and only gets the
    transactions of its contract. *)
Definition routed (s : RequestScheduler) : Prop :=
  map_Forall (λ key g, groupKey g = key ∧ group_pure g) (s_requestGroups s) ∧
  Forall (λ m, m_Type m = TX_REQUEST) (s_txCh s).

(** ** The scheduler and its groups running together *)

(** The scheduler receives a message, handles one, or one of its groups moves on its own (a
    round of its loop, its timer, a process that takes a transaction). *)
Section system.
Context `{ProtocolConsts} (chainPutMsg : DockerVMMessage → option gerr) `{ContractManagerI}.

Inductive step : RequestScheduler → RequestScheduler → Prop :=
| step_put s msg s' : PutMsg msg s = Ret (None, s') → step s s'
| step_loop s c s' : loopStep chainPutMsg c s = Ret (tt, s') → step s s'
| step_group s key g e c b g' :
    s_requestGroups s !! key = Some g → RequestGroup.loopStep e c g = Ret (b, g') →
    step s (set_groups (<[key := g']> (s_requestGroups s)) s)
| step_group_put s key g msg g' :  (* the contract manager, a process or a process manager *)
    s_requestGroups s !! key = Some g → RequestGroup.PutMsg msg g = Ret (None, g') →
    (∀ m, msg = AnyDockerVM m → m_Type m ≠ TX_REQUEST) →
    step s (set_groups (<[key := g']> (s_requestGroups s)) s).

Definition reachable (s : RequestScheduler) : Prop := rtc step NewRequestScheduler s.

(** A group keeps its names, and its own moves only take messages out of its channel. *)
Definition group_rel (g g' : RequestGroup.RequestGroup) : Prop :=
  groupKey g' = groupKey g ∧ ∃ k, RequestGroup.r_txCh g' = drop k (RequestGroup.r_txCh g).

#[local] Instance group_rel_refl : Reflexive group_rel.
Proof. intros g. split; [done|by exists 0%nat]. Qed.
#[local] Instance group_rel_trans : Transitive group_rel.
Proof.
  intros g1 g2 g3 [K1 [k1 E1]] [K2 [k2 E2]]. split; [congruence|].
  exists (k1 + k2)%nat. by rewrite E2, E1, drop_drop.
Qed.

#[local] Instance group_rel_preorder : PreOrder group_rel.
Proof. split; apply _. Qed.

Lemma group_rel_pure g g' : group_rel g g' → group_pure g → group_pure g'.
Proof.
  unfold group_pure. intros [-> [k ->]] Hp. by apply Forall_drop.
Qed.

(** Every primitive step of the group's handlers is of this kind. *)
Ltac quiet_tac := preserves_tac ltac:(split; [reflexivity|by exists 0%nat]).

Lemma quiet_update b w : preserves group_rel (RequestGroup.updateControllerState b w).
Proof. unfold RequestGroup.updateControllerState. quiet_tac. Qed.
Lemma quiet_getProcesses e b : preserves group_rel (RequestGroup.getProcesses e b).
Proof. unfold RequestGroup.getProcesses. quiet_tac; apply quiet_update. Qed.
Lemma quiet_sendGetContractReq e req : preserves group_rel (RequestGroup.sendGetContractReq e req).
Proof. unfold RequestGroup.sendGetContractReq. quiet_tac. Qed.
Lemma quiet_returnTxErrorResp e id msg : preserves group_rel (RequestGroup.returnTxErrorResp e id msg).
Proof. unfold RequestGroup.returnTxErrorResp. quiet_tac. Qed.
Lemma quiet_enqueueCh e req : preserves group_rel (RequestGroup.enqueueCh e req).
Proof. unfold RequestGroup.enqueueCh. quiet_tac. Qed.
Lemma quiet_moveTxs e txs : preserves group_rel (RequestGroup.moveTxs e txs).
Proof.
  induction txs as [|tx txs IH]; cbn [RequestGroup.moveTxs]; quiet_tac; [apply quiet_enqueueCh|apply IH].
Qed.
Lemma quiet_handleGetBytecodeErr e : preserves group_rel (RequestGroup.handleGetBytecodeErr e).
Proof.
  unfold RequestGroup.handleGetBytecodeErr.
  quiet_tac; [apply quiet_returnTxErrorResp|apply quiet_sendGetContractReq].
Qed.
Lemma quiet_onTx e msg : preserves group_rel (RequestGroup.onTx e msg).
Proof.
  unfold RequestGroup.onTx, RequestGroup.handleTxReq, RequestGroup.handleContractReadyResp,
    RequestGroup.handleGetBytecodeFailed, RequestGroup.stopTimer, RequestGroup.putTxReqToCh, RequestGroup.buffer.
  quiet_tac; first [apply quiet_sendGetContractReq|apply quiet_enqueueCh|apply quiet_moveTxs
    |apply quiet_handleGetBytecodeErr|apply quiet_getProcesses].
Qed.
Lemma quiet_onEvent e msg : preserves group_rel (RequestGroup.onEvent e msg).
Proof.
  unfold RequestGroup.onEvent, RequestGroup.handleProcessReadyResp, RequestGroup.handleBadContractResp.
  quiet_tac; first [apply quiet_update|apply quiet_getProcesses|apply quiet_sendGetContractReq].
Qed.

(** On stop the whole channel is emptied. *)
Lemma popTxs_rel e txs g a g' :
  RequestGroup.popTxs e txs g = Ret (a, g') → RequestGroup.r_txCh g = txs → group_rel g g'.
Proof.
  revert g. induction txs as [|tx txs IH]; intros g Hp Ht; cbn [RequestGroup.popTxs] in Hp; minv; [done|..].
  - match goal with H : RequestGroup.returnTxErrorResp _ _ _ _ = _ |- _ =>
      unfold RequestGroup.returnTxErrorResp in H; minv end.
    all: apply IH in Hp as [Hk [k Hd]]; [|done]; split; [done|]; exists (S k); by rewrite Hd, Ht.
  - apply IH in Hp as [Hk [k Hd]]; [|done]. split; [done|]. exists (S k). by rewrite Hd, Ht.
Qed.

Lemma group_loop_rel e c g b g' : RequestGroup.loopStep e c g = Ret (b, g') → group_rel g g'.
Proof.
  intros Hr. destruct c; unfold RequestGroup.loopStep in Hr; minv.
  - match goal with H : RequestGroup.onEvent _ _ _ = _ |- _ => by apply quiet_onEvent in H end.
  - match goal with H : RequestGroup.onTx _ _ _ = _, E : RequestGroup.r_txCh g = _ |- _ =>
      apply quiet_onTx in H as [Hk [k Hd]]; split; [done|]; exists (S k); rewrite Hd, E; done end.
  - match goal with H : RequestGroup.handleStopRequestGroup _ _ = _ |- _ =>
      unfold RequestGroup.handleStopRequestGroup in H; minv end.
    match goal with H : RequestGroup.popTxs _ _ _ = _ |- _ => by apply popTxs_rel in H end.
  - match goal with H : RequestGroup.handleGetBytecodeTimeout _ _ = _ |- _ =>
      unfold RequestGroup.handleGetBytecodeTimeout in H; minv end.
    match goal with H : RequestGroup.handleGetBytecodeErr _ _ = _ |- _ => by apply quiet_handleGetBytecodeErr in H end.
Qed.

Lemma routed_set s key g g' :
  routed s → s_requestGroups s !! key = Some g → group_rel g g' →
  routed (set_groups (<[key := g']> (s_requestGroups s)) s).
Proof.
  intros [Hg Ht] Hk Hr. split; [|done]. cbn. destruct (Hg key g Hk) as [He Hp].
  apply map_Forall_insert_2; [|done]. split; [|by eapply group_rel_pure]. destruct Hr as [-> _]. done.
Qed.

Lemma group_put_docker m g e g' :
  RequestGroup.PutMsg (AnyDockerVM m) g = Ret (e, g') →
  g' = RequestGroup.set_txCh (RequestGroup.r_txCh g ++ [m]) g.
Proof. unfold RequestGroup.PutMsg. intros Hp. by minv. Qed.

Lemma group_put_other msg g e g' :
  RequestGroup.PutMsg msg g = Ret (e, g') → (∀ m, msg ≠ AnyDockerVM m) → group_rel g g'.
Proof.
  unfold RequestGroup.PutMsg. intros Hp Hn. minv; try done; by destruct (Hn m) || (split; [done|by exists 0%nat]).
Qed.

(** A transaction is put into the group of its own key, created if needed. *)
Lemma handleTxReq_routed req s a s' :
  m_Type req = TX_REQUEST → routed s → handleTxReq req s = Ret (a, s') → routed s'.
Proof.
  intros Hty Hr Hh. unfold handleTxReq in Hh. destruct (m_Request req) as [rq|] eqn:Erq; [|by minv].
  set (key := contractKey _ _ _) in Hh.
  assert (∀ s1 a s2, routed s1 → groupPutMsg key (AnyDockerVM req) s1 = Ret (a, s2) → routed s2) as Hput.
  { intros s1 a1 s2 [Hg Ht] Hp. unfold groupPutMsg in Hp.
    destruct (s_requestGroups s1 !! key) as [g|] eqn:Eg; [|done].
    destruct (RequestGroup.PutMsg (AnyDockerVM req) g) as [[e g']| |] eqn:Ep; [|done..].
    injection Hp as _ <-. split; [|done]. cbn. destruct (Hg key g Eg) as [Hk Hpure].
    apply map_Forall_insert_2; [|done]. apply group_put_docker in Ep as ->. split; [done|].
    unfold group_pure. cbn [RequestGroup.set_txCh RequestGroup.r_txCh]. apply Forall_app. split; [done|].
    constructor; [|done]. intros _. unfold txKey. rewrite Erq.
    change (Some key = Some (groupKey g)). by rewrite Hk. }
  minv; [by eapply Hput|].
  match goal with H : groupPutMsg _ _ _ = _ |- _ => eapply Hput; [|exact H] end.
  destruct Hr as [Hg Ht]. split; [|done]. cbn. apply map_Forall_insert_2; [|done].
  split; [done|constructor].
Qed.

Lemma handleCloseReq_routed k s a s' : routed s → handleCloseReq k s = Ret (a, s') → routed s'.
Proof.
  intros [Hg Ht] Hh. unfold handleCloseReq in Hh. set (key := contractKey _ _ _) in Hh.
  assert (∀ a s1, groupPutMsg key AnyClose s = Ret (a, s1) → routed s1) as Hput.
  { intros a1 s1 Hp. unfold groupPutMsg in Hp.
    destruct (s_requestGroups s !! key) as [g|] eqn:Eg; [|done].
    destruct (RequestGroup.PutMsg AnyClose g) as [[e g']| |] eqn:Ep; [|done..].
    injection Hp as _ <-. eapply routed_set; [done..|]. by eapply group_put_other. }
  minv; try done; try (by eapply Hput).
  match goal with H : groupPutMsg _ _ _ = _ |- _ => apply Hput in H as [Hg' Ht'] end.
  split; [|done]. cbn. by apply map_Forall_delete.
Qed.

Lemma routed_step s s' : step s s' → routed s → routed s'.
Proof.
  intros Hs Hr. destruct Hs as [s msg s' Hp|s c s' Hl|s key g e c b g' Hk Hl|s key g msg g' Hk Hp Hn].
  - unfold PutMsg in Hp. destruct Hr as [Hg Ht]. minv; try done.
    split; [done|]. cbn. apply Forall_app. by split; [|constructor].
  - destruct c; unfold loopStep in Hl; minv; try done.
    + match goal with H : handleGetContractReq _ _ _ = _ |- _ => unfold handleGetContractReq in H; by minv end.
    + match goal with H : handleGetContractResp _ _ = _ |- _ => unfold handleGetContractResp in H; by minv end.
    + match goal with H : handleErrResp _ _ _ = _ |- _ => unfold handleErrResp in H; by minv end.
    + destruct Hr as [Hg Ht]. match goal with E : s_txCh s = _ |- _ => rewrite E in Ht end.
      apply Forall_cons in Ht as [Hty Ht].
      match goal with H : handleTxReq _ _ = _ |- _ => eapply handleTxReq_routed; [done| |exact H] end. done.
    + match goal with H : handleCloseReq _ _ = _ |- _ => by apply handleCloseReq_routed in H end.
  - eapply routed_set; [done..|]. by eapply group_loop_rel.
  - destruct msg as [m|?|?|?|?| |?|]; try (eapply routed_set; [done..|]; by eapply group_put_other).
    destruct Hr as [Hg Ht]. split; [|done]. cbn. destruct (Hg key g Hk) as [He Hpure].
    apply map_Forall_insert_2; [|done]. apply group_put_docker in Hp as ->. split; [done|].
    unfold group_pure. cbn [RequestGroup.set_txCh RequestGroup.r_txCh]. apply Forall_app. split; [done|].
    constructor; [|done]. intros Hty. by destruct (Hn m).
Qed.

Lemma reachable_routed s : reachable s → routed s.
Proof.
  unfold reachable. intros Hr. remember NewRequestScheduler as s0 eqn:E.
  assert (routed s0) as H0' by (subst; split; [apply map_Forall_empty|constructor]).
  clear E. induction Hr; eauto using routed_step.
Qed.

(** [C11] A transaction request only ever reaches the request group of its own chain,
    contract and version: in every reachable state, whatever messages come in and however the
    groups run, a group is stored under its own key and every transaction in its channel is of
    its contract (the names being free of the separator that joins them into a key). *)
Theorem txs_reach_own_group s key g m rq :
  reachable s → s_requestGroups s !! key = Some g →
  m ∈ RequestGroup.r_txCh g → m_Type m = TX_REQUEST → m_Request m = Some rq →
  Forall (λ x, has_char hash x = false)
    [rq_ChainId rq; rq_ContractName rq; rq_ContractVersion rq;
     RequestGroup.r_chainID g; RequestGroup.r_contractName g; RequestGroup.r_contractVersion g] →
  groupKey g = key ∧ rq_ChainId rq = RequestGroup.r_chainID g ∧
  rq_ContractName rq = RequestGroup.r_contractName g ∧ rq_ContractVersion rq = RequestGroup.r_contractVersion g.
Proof.
  intros [Hg _]%reachable_routed Hk Hm Hty Hrq Hn. destruct (Hg key g Hk) as [He Hp]. split; [done|].
  unfold group_pure in Hp. rewrite Forall_forall in Hp. specialize (Hp m Hm Hty). unfold txKey in Hp.
  rewrite Hrq in Hp. cbn in Hp. injection Hp as Hp. by apply contractKey_inj.
Qed.

(** Where a message of the event channel goes. *)
Definition route (m : DockerVMMessage) : list sent :=
  match m_Type m with
  | GET_BYTECODE_REQUEST | ERROR => [ToChain m]
  | GET_BYTECODE_RESPONSE => [ToContractManager m]
  | _ => []
  end.

Fixpoint drainEvents (n : nat) : M RequestScheduler unit :=
  match n with
  | O => mret tt
  | S n => loopStep chainPutMsg ChEvent;; drainEvents n
  end.

(** The scheduler forwards: when the chain service and the contract manager take their
    messages, handling the messages of the event channel hands every bytecode request and error
    to the chain and every bytecode response to the contract manager, each once and in the order
    they were put, and changes no request group. *)
Theorem events_forwarded_in_order evs s :
  (∀ m, chainPutMsg m = None) → ContractManagerLaws → s_eventCh s = evs →
  ∃ s', drainEvents (length evs) s = Ret (tt, s') ∧ s_eventCh s' = [] ∧
    s_outbox s' = s_outbox s ++ concat (route <$> evs) ∧ s_requestGroups s' = s_requestGroups s.
Proof.
  intros Hc Hm. revert s. induction evs as [|m evs IH]; intros s He; cbn [length drainEvents].
  - exists s. split_and!; [done|done|by rewrite app_nil_r|done].
  - assert (loopStep chainPutMsg ChEvent s =
      Ret (tt, mkScheduler evs (s_txCh s) (s_closeCh s) (s_requestGroups s) (s_closed s) (s_outbox s ++ route m))) as E.
    { unfold loopStep, handleGetContractReq, handleGetContractResp, handleErrResp, mbind, M_bind, getS, modifyS.
      rewrite He. unfold route. destruct (m_Type m); rewrite ?Hc, ?cmgr_docker, ?app_nil_r; done. }
    unfold mbind, M_bind. rewrite E.
    destruct (IH (mkScheduler evs (s_txCh s) (s_closeCh s) (s_requestGroups s) (s_closed s) (s_outbox s ++ route m)))
      as (s' & E' & ? & Ho & ?); [done|].
    exists s'. split_and!; [done..| |done]. rewrite Ho. cbn. by rewrite <-app_assoc.
Qed.
End system.

(** *** Witnesses *)

Definition openCM : ContractManagerI := {| cmgr_PutMsg := λ _, None |}.

Definition sampleTx (id name : string) : DockerVMMessage := 
  mkMessage id TX_REQUEST (Some (mkCross 0 "" 0)) None (Some (mkRequest name "v1" "m" ∅ "chain1")) None "chain1" [].

(** Two transactions of two contracts, both handled. *)
Definition sampleSched : RequestScheduler :=
  Eval vm_compute in
  match (PutMsg (AnyDockerVM (sampleTx "t1" "a"));; PutMsg (AnyDockerVM (sampleTx "t2" "b"));;
         loopStep (λ _, None) (H := openCM) ChTx;; loopStep (λ _, None) (H := openCM) ChTx) NewRequestScheduler with
  | Ret (_, s) => s | _ => NewRequestScheduler end.

Lemma sampleSched_reachable : reachable (H := sampleConsts) (λ _, None) (H0 := openCM) sampleSched.
Proof.
  eapply rtc_l; [eapply step_put with (msg := AnyDockerVM (sampleTx "t1" "a")); reflexivity|].
  eapply rtc_l; [eapply step_put with (msg := AnyDockerVM (sampleTx "t2" "b")); reflexivity|].
  eapply rtc_l; [eapply step_loop with (c := ChTx); vm_compute; reflexivity|].
  eapply rtc_l; [eapply step_loop with (c := ChTx); vm_compute; reflexivity|].
  apply rtc_refl.
Qed.

Lemma txs_reach_own_group_witness :
  ∃ g, s_requestGroups sampleSched !! "chain1#a#v1" = Some g ∧ RequestGroup.r_txCh g = [sampleTx "t1" "a"] ∧
    groupKey g = "chain1#a#v1" ∧ "chain1" = RequestGroup.r_chainID g ∧
    "a" = RequestGroup.r_contractName g ∧ "v1" = RequestGroup.r_contractVersion g.
Proof.
  eexists. split; [vm_compute; reflexivity|]. split; [reflexivity|].
  eapply (txs_reach_own_group (H := sampleConsts) (λ _, None) (H0 := openCM) sampleSched "chain1#a#v1" _
    (sampleTx "t1" "a") (mkRequest "a" "v1" "m" ∅ "chain1")).
  - apply sampleSched_reachable.
  - vm_compute. reflexivity.
  - apply list_elem_of_singleton. reflexivity.
  - reflexivity.
  - reflexivity.
  - repeat constructor.
Defined.

Lemma events_forwarded_in_order_witness :
  let evs := [mkMessage "t1" GET_BYTECODE_REQUEST None None None None "" [];
              mkMessage "t2" GET_BYTECODE_RESPONSE None None None None "" [];
              mkMessage "t3" ERROR None None None None "" []] in
  ∃ s', drainEvents (λ _, None) (H0 := openCM) 3 (set_eventCh evs NewRequestScheduler) = Ret (tt, s') ∧
    s_eventCh s' = [] ∧ s_outbox s' = [] ++ concat (route <$> evs) ∧ s_requestGroups s' = ∅.
Proof.
  intros evs.
  apply (events_forwarded_in_order (λ _, None) (H0 := openCM) evs (set_eventCh evs NewRequestScheduler)).
  - done.
  - by split.
  - reflexivity.
Defined.
End RequestScheduler.
