(* ===== verification/Process.v ===== *)
(** * vm_mgr/module/core/process.go

    A process runs one sandbox at a time: it takes transactions from its request group's
    channel, sends them to the sandbox, watches them with a timer, and handles the exit of the
    sandbox. The handlers run under the process's lock; each is one atomic step here. *)

From S2P Require Import Prelude Messages Interfaces EngineUtils Users.

Module Process.

Inductive processState := created | ready | busy | idle | changing | closing | timeout.

#[export] Instance processState_eq_dec : EqDecision processState.
Proof. solve_decision. Defined.

(** [exitErr]; a nil [err] is [None]. *)
Record exitErr := mkExitErr { ee_err : option ExitError; ee_desc : string }.

Inductive signal := SIGTERM | SIGINT.

(** What a process does to its surroundings. *)
Inductive effect :=
| EScheduler (m : AnyMsg)             (* requestScheduler.PutMsg *)
| EProcessManager (m : AnyMsg)        (* processManager.PutMsg *)
| EGroup (m : AnyMsg)                 (* requestGroup.PutMsg *)
| EChangeState (name : string) (toBusy : bool)  (* a successful ChangeProcessState *)
| ESandbox (m : DockerVMMessage)      (* stream.Send *)
| ESignal (s : signal)                (* a signal sent to the sandbox *)
| EStartProcess                       (* go p.startProcess() *)
| EStart.                             (* p.Start() *)

(** [Process]. [p_cmdReadyCh], [p_updateCh] are channels of capacity one; the timer is two
    flags as in the request group; [p_group] names the request group whose channel it reads (None: nil);
    [p_resumes] counts the goroutines that are inside [p.Start()] called by an exit handler and
    have the end of that handler still to run. *)
Record Process := mkProcess {
  p_processName : string;
  p_chainID : string;
  p_contractName : string;
  p_contractVersion : string;
  p_user : Users.User;
  p_state : processState;
  p_isOrig : bool;
  p_cmd : bool;
  p_cmdReadyCh : bool;
  p_updateCh : bool;
  p_respCh : list DockerVMMessage;
  p_timerArmed : bool;
  p_timerC : bool;
  p_timerPopped : bool;
  p_Tx : option DockerVMMessage;
  p_stream : bool;
  p_group : option RequestGroupKey;
  p_resumes : nat;
  p_outbox : list effect;
}.

Definition set_names c n v name g p :=
  mkProcess name c n v (p_user p) (p_state p) (p_isOrig p) (p_cmd p) (p_cmdReadyCh p) (p_updateCh p)
    (p_respCh p) (p_timerArmed p) (p_timerC p) (p_timerPopped p) (p_Tx p) (p_stream p) g (p_resumes p) (p_outbox p).
Definition set_group g p :=
  mkProcess (p_processName p) (p_chainID p) (p_contractName p) (p_contractVersion p) (p_user p) (p_state p)
    (p_isOrig p) (p_cmd p) (p_cmdReadyCh p) (p_updateCh p) (p_respCh p) (p_timerArmed p) (p_timerC p)
    (p_timerPopped p) (p_Tx p) (p_stream p) g (p_resumes p) (p_outbox p).
Definition set_pstate s p :=
  mkProcess (p_processName p) (p_chainID p) (p_contractName p) (p_contractVersion p) (p_user p) s
    (p_isOrig p) (p_cmd p) (p_cmdReadyCh p) (p_updateCh p) (p_respCh p) (p_timerArmed p) (p_timerC p)
    (p_timerPopped p) (p_Tx p) (p_stream p) (p_group p) (p_resumes p) (p_outbox p).
Definition set_cmd c tok p :=
  mkProcess (p_processName p) (p_chainID p) (p_contractName p) (p_contractVersion p) (p_user p) (p_state p)
    (p_isOrig p) c tok (p_updateCh p) (p_respCh p) (p_timerArmed p) (p_timerC p)
    (p_timerPopped p) (p_Tx p) (p_stream p) (p_group p) (p_resumes p) (p_outbox p).
Definition set_updateCh b p :=
  mkProcess (p_processName p) (p_chainID p) (p_contractName p) (p_contractVersion p) (p_user p) (p_state p)
    (p_isOrig p) (p_cmd p) (p_cmdReadyCh p) b (p_respCh p) (p_timerArmed p) (p_timerC p)
    (p_timerPopped p) (p_Tx p) (p_stream p) (p_group p) (p_resumes p) (p_outbox p).
Definition set_respCh l p :=
  mkProcess (p_processName p) (p_chainID p) (p_contractName p) (p_contractVersion p) (p_user p) (p_state p)
    (p_isOrig p) (p_cmd p) (p_cmdReadyCh p) (p_updateCh p) l (p_timerArmed p) (p_timerC p)
    (p_timerPopped p) (p_Tx p) (p_stream p) (p_group p) (p_resumes p) (p_outbox p).
Definition set_timer armed c popped p :=
  mkProcess (p_processName p) (p_chainID p) (p_contractName p) (p_contractVersion p) (p_user p) (p_state p)
    (p_isOrig p) (p_cmd p) (p_cmdReadyCh p) (p_updateCh p) (p_respCh p) armed c popped (p_Tx p) (p_stream p)
    (p_group p) (p_resumes p) (p_outbox p).
Definition set_tx t p :=
  mkProcess (p_processName p) (p_chainID p) (p_contractName p) (p_contractVersion p) (p_user p) (p_state p)
    (p_isOrig p) (p_cmd p) (p_cmdReadyCh p) (p_updateCh p) (p_respCh p) (p_timerArmed p) (p_timerC p)
    (p_timerPopped p) t (p_stream p) (p_group p) (p_resumes p) (p_outbox p).
Definition set_stream p :=
  mkProcess (p_processName p) (p_chainID p) (p_contractName p) (p_contractVersion p) (p_user p) (p_state p)
    (p_isOrig p) (p_cmd p) (p_cmdReadyCh p) (p_updateCh p) (p_respCh p) (p_timerArmed p) (p_timerC p)
    (p_timerPopped p) (p_Tx p) true (p_group p) (p_resumes p) (p_outbox p).
Definition emit x p :=
  mkProcess (p_processName p) (p_chainID p) (p_contractName p) (p_contractVersion p) (p_user p) (p_state p)
    (p_isOrig p) (p_cmd p) (p_cmdReadyCh p) (p_updateCh p) (p_respCh p) (p_timerArmed p) (p_timerC p)
    (p_timerPopped p) (p_Tx p) (p_stream p) (p_group p) (p_resumes p) (p_outbox p ++ [x]).

Definition set_resumes k p :=
  mkProcess (p_processName p) (p_chainID p) (p_contractName p) (p_contractVersion p) (p_user p) (p_state p)
    (p_isOrig p) (p_cmd p) (p_cmdReadyCh p) (p_updateCh p) (p_respCh p) (p_timerArmed p) (p_timerC p)
    (p_timerPopped p) (p_Tx p) (p_stream p) (p_group p) k (p_outbox p).

(** What a handler sees: the clock (nanoseconds), the configuration, the errors of the calls it
    makes, the version of the contract file its group reports, and how many transactions wait. *)
Record env := mkEnv {
  e_now : Z;
  e_ExecTxTimeout : Z;
  e_slowDisable : bool;
  e_sched : SchedulerI;
  e_pmPutMsg : AnyMsg → option gerr;
  e_ChangeProcessState : string → bool → option gerr;
  e_streamSend : DockerVMMessage → option gerr;
  e_signalErr : signal → option gerr;
  e_ContractFileVersion : Z;
  e_txChLen : Z;
}.

Definition _removeTxTime : Z := 9000 * 1000000.
Definition initContract : string := "init_contract".
Definition upgradeContract : string := "upgrade".

(** [NewProcess(...)]: a missing request group is a nil dereference ([None]). The initial timer
    runs for 2^31 seconds. *)
Definition NewProcess (sch : SchedulerI) (user : Users.User)
    (chainID contractName contractVersion processName : string) (isOrig : bool) : option Process :=
  if sched_GetRequestGroup chainID contractName contractVersion
  then Some (mkProcess processName chainID contractName contractVersion user created isOrig false false false []
               true false false None false (Some (mkGroupKey chainID contractName contractVersion)) 0 [])
  else None.

(** [PutMsg(msg)] on the response channel of capacity one. *)
Definition PutMsg (msg : DockerVMMessage) : M Process unit :=
  p ← getS;
  match p_respCh p with [] => modifyS (set_respCh [msg]) | _ => block end.

Definition IsReadyOrBusy (p : Process) : bool :=
  bool_decide (p_state p = ready) || bool_decide (p_state p = busy).

(** [popTimer()]: waits for the timer's value when the timer has expired and the value was not
    received yet. *)
Definition popTimer : M Process unit :=
  p ← getS;
  if p_timerArmed p then modifyS (set_timer false (p_timerC p) (p_timerPopped p))
  else if p_timerPopped p then mret tt
  else if p_timerC p then modifyS (set_timer false false (p_timerPopped p))
  else block.

(** The deferred function of [handleProcessExit] that runs last. *)
Definition deferredPop : M Process unit :=
  popTimer;; modifyS (λ p, set_timer (p_timerArmed p) (p_timerC p) true p).

(** [startBusyTimer()] and [startReadyTimer()] differ in the duration only. *)
Definition startTimer : M Process unit :=
  popTimer;; modifyS (λ p, set_timer true (p_timerC p) false p).

Definition timed (s : processState) : bool :=
  match s with ready | busy | idle => true | _ => false end.

Definition updateProcessState (state : processState) : M Process unit :=
  p ← getS;
  modifyS (set_pstate state);;
  (if negb (timed (p_state p)) && timed state
   then if p_updateCh p then block else modifyS (set_updateCh true)
   else mret tt);;
  (if decide (state = ready) then startTimer
   else if decide (state = busy) then startTimer
   else mret tt).

(** [SetStream(stream)]. *)
Definition SetStream : M Process unit :=
  updateProcessState ready;; modifyS set_stream.

Section handlers.
Context (e : env).

Definition errResp (chainID txId errMsg : string) : DockerVMMessage :=
  mkMessage txId ERROR None None None (Some (mkResponse "" FAIL "" errMsg ∅ ∅ [] "" "" "")) chainID [].

Definition returnTxErrorResp (txId errMsg : string) : M Process (option gerr) :=
  p ← getS;
  let m := AnyDockerVM (errResp (p_chainID p) txId errMsg) in
  match @sched_PutMsg (e_sched e) m with
  | Some er => mret (Some (Wrap "failed to invoke request scheduler PutMsg" er))
  | None => modifyS (emit (EScheduler m));; mret None
  end.

Definition returnSandboxExitResp (err : ExitError) : M Process (option gerr) :=
  p ← getS;
  let m := AnySandboxExit (mkSandboxExit (p_chainID p) (p_contractName p) (p_contractVersion p)
                                         (p_processName p) err) in
  match e_pmPutMsg e m with
  | Some er => mret (Some (Wrap "failed to invoke process manager PutMsg" er))
  | None => modifyS (emit (EProcessManager m));; mret None
  end.

Definition returnBadContractResp (cfv : Z) : M Process (option gerr) :=
  p ← getS;
  tx ← deref (p_Tx p);
  deref (p_group p);;
  let m := AnyBadContract (mkBadContract
    (mkMessage (m_TxId tx) UNDEFINED None None
       (Some (mkRequest (p_contractName p) (p_contractVersion p) "" ∅ (p_chainID p))) None (p_chainID p) [])
    (p_isOrig p) cfv) in
  match @group_PutMsg (e_sched e) m with
  | Some er => mret (Some (Wrap "failed to invoke request group PutMsg" er))
  | None => modifyS (emit (EGroup m));; mret None
  end.

(** [sendMsg(msg)]: sending on a nil stream panics. *)
Definition sendMsg (msg : DockerVMMessage) : M Process (option gerr) :=
  p ← getS;
  if negb (p_stream p) then panic
  else match e_streamSend e msg with
       | Some _ => mret (Some (Err "failed to send msg to stream"))
       | None => modifyS (emit (ESandbox msg));; mret None
       end.

(** [killProcess(sig)]: waits until the command has been started. *)
Definition killProcess (sig : signal) : M Process (option gerr) :=
  p ← getS;
  if negb (p_cmdReadyCh p) then block
  else
    modifyS (set_cmd (p_cmd p) false);;
    if negb (p_cmd p) then mret (Some (Err "process cmd is nil"))
    else match e_signalErr e sig with
         | Some er => mret (Some (Wrap "failed to kill process" er))
         | None => modifyS (emit (ESignal sig));; mret None
         end.

(** [handleTxRequest(tx)]. The message sent shares the step records of the transaction: it sees
    the end of its last step but not the step added after. *)
Definition handleTxRequest (tx : TxPayload) : M Process (option gerr) :=
  let elapsedTime := e_now e - tp_StartTime tx in
  if _removeTxTime <? elapsedTime then mret None
  else if e_ExecTxTimeout e <? elapsedTime then mret (Some (Err "tx expired"))
  else
    modifyS (set_tx (Some (tp_Tx tx)));;
    updateProcessState busy;;
    p ← getS;
    let t := tp_Tx tx in
    let tx' := EnterNextStep (e_slowDisable e) (e_now e) (e_now e) (e_now e) t ENGINE_PROCESS_SEND_TX_REQUEST
                 ("waitingLen:" +:+ itoa (e_txChLen e)) in
    modifyS (set_tx (Some tx'));;
    sendMsg (mkMessage (m_TxId t) UNDEFINED (m_CrossContext t) None (m_Request t) None (p_chainID p)
               (take (length (m_StepDurations t)) (m_StepDurations tx'))).

(** [handleIdleTxRequest(tx)]: the deferred call gives the transaction back to the scheduler. *)
Definition handleIdleTxRequest (tx : TxPayload) : M Process (option gerr) :=
  p ← getS;
  (match e_ChangeProcessState e (p_processName p) true with
   | Some _ => mret tt
   | None => modifyS (emit (EChangeState (p_processName p) true));; updateProcessState ready
   end);;
  (match @sched_PutMsg (e_sched e) (AnyDockerVM (tp_Tx tx)) with
   | Some _ => mret tt
   | None => modifyS (emit (EScheduler (AnyDockerVM (tp_Tx tx))))
   end);;
  mret None.

Definition isInit (method : string) : bool :=
  String.eqb method initContract || String.eqb method upgradeContract.

(** [handleTxResp(msg)]: the tests of the transaction id and of the state only log. *)
Definition handleTxResp (msg : DockerVMMessage) : M Process (option gerr) :=
  p ← getS;
  tx ← deref (p_Tx p);
  updateProcessState ready;;
  if decide (m_Type msg = ERROR)
  then
    rq ← deref (m_Request tx);
    if isInit (rq_Method rq)
    then er ← killProcess SIGTERM; mret (Wrap "failed to kill process" <$> er)
    else mret None
  else mret None.

Definition handleTimeout : M Process (option gerr) :=
  modifyS (λ p, set_timer (p_timerArmed p) (p_timerC p) true p);;
  p ← getS;
  match p_state p with
  | busy =>
    deref (p_Tx p);;
    updateProcessState timeout;; killProcess SIGINT;; mret None
  | ready =>
    match e_ChangeProcessState e (p_processName p) false with
    | Some er => mret (Some (Wrap "change process state error" er))
    | None =>
      modifyS (emit (EChangeState (p_processName p) false));;
      updateProcessState idle;; mret None
    end
  | _ => mret None
  end.

(** What [handleProcessExit] decides before its deferred calls. *)
Record decision := mkDecision {
  d_restartSandbox : bool;
  d_returnErrResp : bool;
  d_exitSandbox : bool;
  d_restartAll : bool;
  d_returnBadContractResp : bool;
  d_errRet : string;
  d_released : bool;
}.

Definition exitText (x : ExitError) : string :=
  match x with
  | ContractExecError => "bad contract exec file"
  | ContractNotExistError => "contract exec file not exist"
  | SandboxExitDefaultError => "exit with no additional error message"
  | OtherExitError s => s
  end.

(** The normalised error of the exit: nil becomes the default one. *)
Definition exitError (x : option exitErr) : ExitError :=
  match x with
  | Some (mkExitErr (Some er) _) => er
  | _ => SandboxExitDefaultError
  end.

Definition exitDesc (x : option exitErr) : string := match x with Some y => ee_desc y | None => "" end.

(** The body of [handleProcessExit]; [txHead] is what a receive on the transaction channel that
    does not wait gives. *)
Definition decideExit (x : option exitErr) (txHead : option TxPayload) : M Process decision :=
  let er := exitError x in
  let txt := exitText er in
  p ← getS;
  if decide (er = ContractExecError) then
    match txHead with
    | Some tx => modifyS (set_tx (Some (tp_Tx tx)));; mret (mkDecision false true true false true txt true)
    | None => mret (mkDecision false false true false false txt true)
    end
  else if decide (er = ContractNotExistError) then
    match txHead with
    | Some tx =>
      modifyS (set_tx (Some (tp_Tx tx)));;
      (match @sched_PutMsg (e_sched e) (AnyDockerVM (tp_Tx tx)) with
       | Some _ => mret tt
       | None => modifyS (emit (EScheduler (AnyDockerVM (tp_Tx tx))))
       end);;
      mret (mkDecision false false true false true txt true)
    | None => mret (mkDecision false false true false false txt true)
    end
  else
    match p_state p with
    | created => mret (mkDecision true false false false false txt false)
    | ready =>
      match p_Tx p with
      | None => mret (mkDecision false false true false false txt true)
      | Some tx =>
        match m_Request tx with
        | None => mret (mkDecision false false true false false txt true)
        | Some rq => mret (mkDecision false false true false (isInit (rq_Method rq)) txt true)
        end
      end
    | idle => mret (mkDecision false false true false false txt true)
    | busy =>
      updateProcessState created;;
      tx ← deref (p_Tx p);
      rq ← deref (m_Request tx);
      mret (mkDecision false true true false (isInit (rq_Method rq)) "runtime panic" true)
    | changing => updateProcessState created;; mret (mkDecision false false false true false txt true)
    | closing => mret (mkDecision false false false false false txt true)
    | timeout => updateProcessState created;; mret (mkDecision false true true false false "tx time out" true)
    end.

(** The deferred calls, in the order they run. [p.Start()] starts a new listener and then runs
    the new sandbox to its end, so what comes after it waits until then. *)
Definition finishExit (x : option exitErr) (d : decision) : M Process unit :=
  (if d_restartSandbox d then modifyS (emit EStartProcess) else mret tt);;
  p ← getS;
  let txId := match p_Tx p with Some tx => m_TxId tx | None => "" end in
  (if d_returnErrResp d then returnTxErrorResp txId (d_errRet d);; mret tt else mret tt);;
  (if d_exitSandbox d then returnSandboxExitResp (exitError x);; mret tt else mret tt);;
  if d_restartAll d
  then modifyS (λ p, set_resumes (S (p_resumes p)) (emit EStart p))
  else
    (if d_returnBadContractResp d
     then cfv ← (match parse_int (exitDesc x) with
                 | Some v => mret v
                 | None => p ← getS; deref (p_group p);; mret (e_ContractFileVersion e)
                 end);
          returnBadContractResp cfv;; mret tt
     else mret tt);;
    deferredPop.

(** The end of an exit handler whose [p.Start()] has returned. *)
Definition resumeExit : M Process unit :=
  p ← getS;
  match p_resumes p with
  | O => block
  | S k => modifyS (set_resumes k);; deferredPop
  end.

Definition handleProcessExit (x : option exitErr) (txHead : option TxPayload) : M Process bool :=
  d ← decideExit x txHead; finishExit x d;; mret (d_released d).

(** [resetContext(...)]. When the group does not exist the old one is lost. *)
Definition resetContext (chainID contractName contractVersion processName : string) :
    M Process (option gerr) :=
  if @sched_GetRequestGroup (e_sched e) chainID contractName contractVersion
  then modifyS (set_names chainID contractName contractVersion processName
                  (Some (mkGroupKey chainID contractName contractVersion)));; mret None
  else modifyS (set_group None);; mret (Some (Err "failed to get request group")).

Definition ChangeSandbox (chainID contractName contractVersion processName : string) :
    M Process (option gerr) :=
  p ← getS;
  if decide (p_state p ≠ idle) then mret (Some (Err "wrong state"))
  else
    er ← resetContext chainID contractName contractVersion processName;
    match er with
    | Some x => mret (Some (Wrap "failed to reset context" x))
    | None =>
      er ← killProcess SIGTERM;
      match er with
      | Some x => mret (Some x)
      | None => updateProcessState changing;; mret None
      end
    end.

Definition CloseSandbox : M Process (option gerr) :=
  p ← getS;
  if decide (p_state p ≠ idle) then mret (Some (Err "wrong state"))
  else
    er ← killProcess SIGTERM;
    match er with
    | Some x => mret (Some (Wrap "failed to kill process" x))
    | None => updateProcessState closing;; mret None
    end.

(** [launchProcess()] up to the wait for the command: the exit it reports at once, or [None]
    when the command runs. *)
Inductive launch :=
| LPipeErr (er : ExitError) (stderr : string)
| LStartErr (notExist : bool)
| LCgroupErr (er : ExitError)
| LRuns.

Definition launchProcess (l : launch) : M Process (option exitErr) :=
  p ← getS;
  deref (p_group p);;
  match l with
  | LPipeErr er stderr => mret (Some (mkExitErr (Some er) stderr))
  | LStartErr notExist =>
    p ← getS;
    modifyS (set_cmd true (p_cmdReadyCh p));;
    mret (Some (mkExitErr (Some (if notExist : bool then ContractNotExistError else ContractExecError))
                          (itoa (e_ContractFileVersion e))))
  | LCgroupErr er =>
    p ← getS;
    if p_cmdReadyCh p then block
    else modifyS (set_cmd true true);; mret (Some (mkExitErr (Some er) ""))
  | LRuns =>
    p ← getS;
    if p_cmdReadyCh p then block else modifyS (set_cmd true true);; mret None
  end.

(** A round of the loop of [listenProcess]: the state the listener saw at its head ([seen]) selects
    the channels it waits on, while other goroutines may change the state. The result tells
    whether the process has been released. *)
Inductive choice :=
| ChTx (tx : TxPayload)
| ChTimer
| ChResp
| ChExit (x : option exitErr) (txHead : option TxPayload)
| ChUpdate.

Definition errText (er : gerr) : string := match er with Err s => s | Wrap s _ => s end.

Definition takeTimer : M Process unit :=
  p ← getS; if p_timerC p then modifyS (set_timer (p_timerArmed p) false (p_timerPopped p)) else block.

(** The case of the [select] that receives from the timer. *)
Definition onTimer : M Process (option gerr) := takeTimer;; handleTimeout.

Definition listenProcess (seen : processState) (c : choice) : M Process bool :=
  p ← getS;
  match seen, c with
  | ready, ChTx tx =>
    er ← handleTxRequest tx;
    match er with
    | Some x => returnTxErrorResp (m_TxId (tp_Tx tx)) (errText x);; mret false
    | None => mret false
    end
  | idle, ChTx tx => handleIdleTxRequest tx;; mret false
  | ready, ChTimer | busy, ChTimer => onTimer;; mret false
  | busy, ChResp =>
    match p_respCh p with
    | resp :: rest => modifyS (set_respCh rest);; handleTxResp resp;; mret false
    | [] => block
    end
  | (created | changing | closing | timeout), ChUpdate =>
    if p_updateCh p then modifyS (set_updateCh false);; mret false else block
  | _, ChExit x txHead => handleProcessExit x txHead
  | _, _ => block
  end.

(** [handleProcessExit] takes no lock: when the sandbox that [ChangeSandbox] or [CloseSandbox] kills
    exits at once, the listener may handle the exit before the state is set. *)
Definition changeRaced (chainID contractName contractVersion processName : string)
    (x : option exitErr) (txHead : option TxPayload) : M Process bool :=
  p ← getS;
  if decide (p_state p ≠ idle) then block
  else
    er ← resetContext chainID contractName contractVersion processName;
    match er with
    | Some _ => block
    | None =>
      er ← killProcess SIGTERM;
      match er with
      | Some _ => block
      | None => b ← handleProcessExit x txHead; updateProcessState changing;; mret b
      end
    end.

Definition closeRaced (x : option exitErr) (txHead : option TxPayload) : M Process bool :=
  p ← getS;
  if decide (p_state p ≠ idle) then block
  else
    er ← killProcess SIGTERM;
    match er with
    | Some _ => block
    | None => b ← handleProcessExit x txHead; updateProcessState closing;; mret b
    end.
End handlers.

(** ** The timer *)

(** The timer and the flag agree: a timer not popped runs or has its value ready, not both; a
    popped timer neither runs nor has a value. *)
Definition tinv (p : Process) : Prop :=
  if p_timerPopped p then p_timerArmed p = false ∧ p_timerC p = false
  else xorb (p_timerArmed p) (p_timerC p) = true.

Lemma popTimer_eval p : tinv p → popTimer p = Ret (tt, set_timer false false (p_timerPopped p) p).
Proof.
  unfold tinv, popTimer, mbind, M_bind, getS, modifyS. destruct p as [? ? ? ? ? ? ? ? ? ? ? a c k ? ? ? ? ?]; cbn.
  destruct k, a, c; cbn; by intros; destruct_and?.
Qed.

Lemma startTimer_eval p : tinv p → startTimer p = Ret (tt, set_timer true false false p).
Proof. intros Hp. unfold startTimer, mbind, M_bind. by rewrite popTimer_eval. Qed.

(** An update of the state: the timer is restarted for the states that are timed. *)
Lemma updateProcessState_Ret st p a p' :
  tinv p → updateProcessState st p = Ret (a, p') →
  tinv p' ∧ ∃ x y z u, p' = set_timer x y z (set_updateCh u (set_pstate st p)).
Proof.
  intros Hp Hu. unfold updateProcessState in Hu.
  apply bind_Ret in Hu as (? & ? & [= <- <-] & Hu). apply bind_Ret in Hu as (? & ? & [= <- <-] & Hu).
  apply bind_Ret in Hu as (? & p1 & H1 & Hu).
  assert (∃ u, p1 = set_updateCh u (set_pstate st p)) as [u ->].
  { clear Hu. minv; [by eexists|]. exists (p_updateCh p). by destruct p. }
  assert (tinv (set_updateCh u (set_pstate st p))) as Ht by done.
  assert (∀ a p', startTimer (set_updateCh u (set_pstate st p)) = Ret (a, p') → tinv p' ∧
    ∃ x y z u', p' = set_timer x y z (set_updateCh u' (set_pstate st p))) as Hst.
  { intros a0 p0. rewrite (startTimer_eval _ Ht). intros [= _ <-]. split; [done|]. by eexists _, _, _, _. }
  clear H1. minv; [by eapply Hst|by eapply Hst|]. split; [done|].
  exists (p_timerArmed p), (p_timerC p), (p_timerPopped p), u. by destruct p.
Qed.

Definition tkeep (p p' : Process) : Prop := tinv p → tinv p'.

#[local] Instance tkeep_preorder : PreOrder tkeep.
Proof. split; unfold tkeep; [by intros p|intros p1 p2 p3; auto]. Qed.

Ltac tkeep_tac := preserves_tac ltac:(by intros ?).

Lemma tkeep_update st : preserves tkeep (updateProcessState st).
Proof. intros p a p' Hu Hp. by eapply updateProcessState_Ret. Qed.

(** [popTimer] with the flag set after it. *)
Lemma tkeep_pop : preserves tkeep deferredPop.
Proof.
  intros p a p' Hr Hp. unfold deferredPop in Hr. apply bind_Ret in Hr as (? & p1 & H1 & [= _ <-]).
  rewrite (popTimer_eval _ Hp) in H1. injection H1 as _ <-. done.
Qed.

Section timer.
Context (e : env).

Lemma tkeep_kill s : preserves tkeep (killProcess e s).
Proof. unfold killProcess. tkeep_tac. Qed.
Lemma tkeep_returnTxErrorResp id msg : preserves tkeep (returnTxErrorResp e id msg).
Proof. unfold returnTxErrorResp. tkeep_tac. Qed.
Lemma tkeep_returnSandboxExitResp er : preserves tkeep (returnSandboxExitResp e er).
Proof. unfold returnSandboxExitResp. tkeep_tac. Qed.
Lemma tkeep_returnBadContractResp v : preserves tkeep (returnBadContractResp e v).
Proof. unfold returnBadContractResp. tkeep_tac. Qed.
Lemma tkeep_handleTxRequest tx : preserves tkeep (handleTxRequest e tx).
Proof. unfold handleTxRequest, sendMsg. tkeep_tac; apply tkeep_update. Qed.
Lemma tkeep_handleIdleTxRequest tx : preserves tkeep (handleIdleTxRequest e tx).
Proof. unfold handleIdleTxRequest. tkeep_tac; apply tkeep_update. Qed.
Lemma tkeep_handleTxResp m : preserves tkeep (handleTxResp e m).
Proof. unfold handleTxResp. tkeep_tac; first [apply tkeep_update|apply tkeep_kill]. Qed.

(** A timeout is handled after its value has been received. *)
Lemma tkeep_timeout : preserves tkeep (onTimer e).
Proof.
  intros p a p' Hr Hp. unfold onTimer in Hr. apply bind_Ret in Hr as (? & p1 & H1 & Hr).
  unfold takeTimer in H1. minv.
  unfold handleTimeout in Hr. apply bind_Ret in Hr as (? & ? & [= <- <-] & Hr).
  assert (tinv (set_timer (p_timerArmed p) false true p)) as Ht.
  { unfold tinv in Hp |- *. cbn. destruct (p_timerPopped p), (p_timerArmed p), (p_timerC p); cbn in *;
      by destruct_and?. }
  match type of Hr with ?m _ = _ => assert (preserves tkeep m) as Hk end.
  { tkeep_tac; first [apply tkeep_update|apply tkeep_kill]. }
  by apply (Hk _ _ _ Hr).
Qed.

Lemma tkeep_decideExit x h : preserves tkeep (decideExit e x h).
Proof. unfold decideExit. tkeep_tac; apply tkeep_update. Qed.
Lemma tkeep_finishExit x d : preserves tkeep (finishExit e x d).
Proof.
  unfold finishExit. tkeep_tac; first [apply tkeep_returnTxErrorResp|apply tkeep_returnSandboxExitResp
    |apply tkeep_returnBadContractResp|apply tkeep_pop].
Qed.

Lemma tkeep_listenProcess seen c : preserves tkeep (listenProcess e seen c).
Proof.
  intros p a p' Hr. unfold listenProcess in Hr. apply bind_Ret in Hr as (? & ? & [= <- <-] & Hr).
  revert Hr. destruct seen, c; intros Hr; try done;
    match type of Hr with ?m _ = _ => assert (preserves tkeep m) as Hk; [|by apply (Hk _ _ _ Hr)] end;
    unfold handleProcessExit; tkeep_tac; try done.
  all: first [apply tkeep_decideExit|apply tkeep_finishExit|apply tkeep_handleTxRequest
    |apply tkeep_returnTxErrorResp|apply tkeep_handleTxResp|apply tkeep_handleIdleTxRequest
    |apply tkeep_timeout].
Qed.
End timer.

(** ** The process and the process manager's view of it *)

(** Where the process manager keeps the process. *)
Inductive pmview := PMBusy | PMIdle | PMGone.

#[export] Instance pmview_eq_dec : EqDecision pmview.
Proof. solve_decision. Defined.

(** The listener: none runs, one is at the head of its loop, or one waits in the [select] of the
    state it saw there. *)
Inductive listener := LOff | LHead | LSelect (seen : processState).

(** The process, the list and the name under which the manager keeps it, and its listener. *)
Record system := mkSystem {
  y_p : Process;
  y_view : pmview;
  y_name : string;
  y_listener : listener;
}.

(** [ChangeProcessState] as the manager answers it. *)
Definition answers (e : env) (view : pmview) (name : string) : Prop :=
  ∀ n b, e_ChangeProcessState e n b = None ↔ n = name ∧ view = (if b : bool then PMIdle else PMBusy).

(** The effects of a step, and what the changes of state among them make of the view. *)
Definition effects (p p' : Process) : list effect := drop (length (p_outbox p)) (p_outbox p').
Definition viewAfter (view : pmview) (l : list effect) : pmview :=
  fold_left (λ v x, match x with EChangeState _ b => if b : bool then PMBusy else PMIdle | _ => v end) l view.
Definition restarts (l : list effect) : bool :=
  existsb (λ x, match x with EStart => true | _ => false end) l.

(** The sandbox of the process cannot be signalled. *)
Definition killFails (e : env) (p : Process) : bool :=
  negb (p_cmd p) || bool_decide (is_Some (e_signalErr e SIGTERM)).

Abbreviation renamed p p' := (negb (bool_decide (p_processName p' = p_processName p))).

(** [reg]: whether a sandbox registers only while its process is [created]. A hand-over or a close that fails leaves the
    manager's list as it is (the exit of a sandbox during one that fails is an exit after it). The flag beside
    the system tells whether the signal of a hand-over has failed since the last one that succeeded. *)
Inductive step (reg : bool) : system * bool → system * bool → Prop :=
| step_head p view name lost :
    step reg (mkSystem p view name LHead, lost) (mkSystem p view name (LSelect (p_state p)), lost)
| step_listen p view name lost e seen c b p' :
    answers e view name → listenProcess e seen c p = Ret (b, p') →
    step reg (mkSystem p view name (LSelect seen), lost)
      (mkSystem p' (viewAfter view (effects p p')) name (if negb b || restarts (effects p p') then LHead else LOff), lost)
| step_stream p view name lost l p' :
    (reg = true → p_state p = created) → SetStream p = Ret (tt, p') →
    step reg (mkSystem p view name l, lost) (mkSystem p' view name l, lost)
| step_change p name lost l e c n v name' p' :
    ChangeSandbox e c n v name' p = Ret (None, p') →
    step reg (mkSystem p PMIdle name l, lost) (mkSystem p' PMBusy name' l, false)
| step_change_failed p view name lost l e c n v name' er p' :
    ChangeSandbox e c n v name' p = Ret (Some er, p') →
    step reg (mkSystem p view name l, lost) (mkSystem p' view name l, lost || (killFails e p && renamed p p'))
| step_close p name lost l e p' :
    CloseSandbox e p = Ret (None, p') →
    step reg (mkSystem p PMIdle name l, lost) (mkSystem p' PMGone name l, lost)
| step_close_failed p view name lost l e er p' :
    CloseSandbox e p = Ret (Some er, p') →
    step reg (mkSystem p view name l, lost) (mkSystem p' view name l, lost)
| step_change_raced p name lost e c n v name' x h b p' :
    changeRaced e c n v name' x h p = Ret (b, p') →
    step reg (mkSystem p PMIdle name (LSelect idle), lost) (mkSystem p' PMBusy name' (if b then LOff else LHead), false)
| step_close_raced p name lost e x h b p' :
    closeRaced e x h p = Ret (b, p') →
    step reg (mkSystem p PMIdle name (LSelect idle), lost) (mkSystem p' PMGone name (if b then LOff else LHead), lost)
| step_resp p view name lost l m p' :
    PutMsg m p = Ret (tt, p') → step reg (mkSystem p view name l, lost) (mkSystem p' view name l, lost)
| step_fire p view name lost l :
    p_timerArmed p = true →
    step reg (mkSystem p view name l, lost) (mkSystem (set_timer false true (p_timerPopped p) p) view name l, lost)
| step_launch p view name lost l e o x p' :
    launchProcess e o p = Ret (x, p') → step reg (mkSystem p view name l, lost) (mkSystem p' view name l, lost)
| step_resume p view name lost l p' :
    resumeExit p = Ret (tt, p') → step reg (mkSystem p view name l, lost) (mkSystem p' view name l, lost).

Definition start (sch : SchedulerI) (u : Users.User) (c n v name : string) (isOrig : bool) (s : system * bool) : Prop :=
  ∃ p, NewProcess sch u c n v name isOrig = Some p ∧ s = (mkSystem p PMBusy name LHead, false).

Definition reachable (reg : bool) (s : system * bool) : Prop :=
  ∃ sch u c n v name isOrig s0, start sch u c n v name isOrig s0 ∧ rtc (step reg) s0 s.

Lemma tkeep_change e c n v name : preserves tkeep (ChangeSandbox e c n v name).
Proof. unfold ChangeSandbox, resetContext. tkeep_tac; first [apply tkeep_kill|apply tkeep_update]. Qed.
Lemma tkeep_close e : preserves tkeep (CloseSandbox e).
Proof. unfold CloseSandbox. tkeep_tac; first [apply tkeep_kill|apply tkeep_update]. Qed.
Lemma tkeep_handleProcessExit e x h : preserves tkeep (handleProcessExit e x h).
Proof. unfold handleProcessExit. tkeep_tac; first [apply tkeep_decideExit|apply tkeep_finishExit]. Qed.
Lemma tkeep_changeRaced e c n v name x h : preserves tkeep (changeRaced e c n v name x h).
Proof.
  unfold changeRaced, resetContext. tkeep_tac; first [apply tkeep_kill|apply tkeep_update|apply tkeep_handleProcessExit].
Qed.
Lemma tkeep_closeRaced e x h : preserves tkeep (closeRaced e x h).
Proof. unfold closeRaced. tkeep_tac; first [apply tkeep_kill|apply tkeep_update|apply tkeep_handleProcessExit]. Qed.
Lemma tkeep_launch e o : preserves tkeep (launchProcess e o).
Proof. unfold launchProcess. tkeep_tac. Qed.
Lemma tkeep_resume : preserves tkeep resumeExit.
Proof. unfold resumeExit. tkeep_tac. apply tkeep_pop. Qed.
Lemma tkeep_stream : preserves tkeep SetStream.
Proof. unfold SetStream. tkeep_tac. apply tkeep_update. Qed.
Lemma tkeep_put m : preserves tkeep (PutMsg m).
Proof. unfold PutMsg. tkeep_tac. Qed.

Lemma tinv_step reg s s' : step reg s s' → tinv (y_p s.1) → tinv (y_p s'.1).
Proof.
  intros Hs. destruct Hs as [p ? ? ?|p ? ? ? e seen c b p' _ Hl|p ? ? ? ? p' _ Hl|p ? ? ? e c n v ? p' Hl
    |p ? ? ? ? e c n v ? er p' Hl|p ? ? ? e p' Hl|p ? ? ? ? e er p' Hl|p ? ? e c n v ? x h b p' Hl|p ? ? e x h b p' Hl
    |p ? ? ? ? m p' Hl|p ? ? ? ? Ha|p ? ? ? ? e o x p' Hl|p ? ? ? ? p' Hl]; cbn [y_p fst].
  - done.
  - by eapply tkeep_listenProcess.
  - by eapply tkeep_stream.
  - by eapply tkeep_change.
  - by eapply tkeep_change.
  - by eapply tkeep_close.
  - by eapply tkeep_close.
  - by eapply tkeep_changeRaced.
  - by eapply tkeep_closeRaced.
  - by eapply tkeep_put.
  - unfold tinv. cbn. rewrite Ha. destruct (p_timerPopped p), (p_timerC p); cbn; by intros; destruct_and?.
  - by eapply tkeep_launch.
  - by eapply tkeep_resume.
Qed.

Lemma system_reachable_ind (reg : bool) (I : system * bool → Prop) s :
  (∀ sch u c n v name isOrig s0, start sch u c n v name isOrig s0 → I s0) →
  (∀ s s', step reg s s' → I s → I s') → reachable reg s → I s.
Proof.
  intros H0 HI (sch & u & c & n & v & name & io & s0 & Hs & Hr). apply H0 in Hs. induction Hr; eauto.
Qed.

(** The timer of a process is never waited for in vain: in every reachable state, even
    when sandboxes register at any moment, [popTimer] returns and leaves neither a running timer
    nor a stale value, so no handler that restarts the timer can hang with the process's lock. *)
Theorem popTimer_never_blocks s :
  reachable false s →
  ∃ p', popTimer (y_p s.1) = Ret (tt, p') ∧ p_timerArmed p' = false ∧ p_timerC p' = false.
Proof.
  intros Hr. assert (tinv (y_p s.1)) as Ht.
  { revert Hr. apply (system_reachable_ind false (λ s, tinv (y_p s.1))); [|apply tinv_step].
    intros sch u c n v name io s0 (p & Hn & ->). unfold NewProcess in Hn. case_match; by simplify_eq. }
  rewrite (popTimer_eval _ Ht). eexists. split_and!; done.
Qed.

(** ** The state machine *)

(** The transitions of the comment at the top of the file. *)
Definition allowed (s s' : processState) : bool :=
  bool_decide (s = s') ||
  match s, s' with
  | created, ready | ready, busy | busy, ready | ready, idle | idle, ready | busy, timeout
  | idle, changing | idle, closing | busy, created | changing, created | timeout, created => true
  | _, _ => false
  end.

(** What the pieces of a handler do to the name, the state and the messages. *)
Definition noChange (x : effect) : Prop := match x with EChangeState _ _ => False | _ => True end.

(** What only a hand-over changes. *)
Definition names (p : Process) : string * (string * string * string) * option RequestGroupKey * bool :=
  (p_processName p, (p_chainID p, p_contractName p, p_contractVersion p), p_group p, p_isOrig p).

(** Messages are sent, but none that changes the manager's list, and the state becomes [st]. *)
Definition moved (st : processState) (p p' : Process) : Prop :=
  names p' = names p ∧ p_state p' = st ∧
  ∃ l, p_outbox p' = p_outbox p ++ l ∧ Forall noChange l.

Definition calm (p p' : Process) : Prop := moved (p_state p) p p'.

Lemma moved_calm st p1 p2 p3 : moved st p1 p2 → calm p2 p3 → moved st p1 p3.
Proof.
  intros (N1 & S1 & l1 & O1 & F1) (N2 & S2 & l2 & O2 & F2). split_and!; [congruence..|].
  exists (l1 ++ l2). rewrite O2, O1, app_assoc. split; [done|]. by apply Forall_app.
Qed.

Lemma calm_moved st p1 p2 p3 : calm p1 p2 → moved st p2 p3 → moved st p1 p3.
Proof.
  intros (N1 & S1 & l1 & O1 & F1) (N2 & S2 & l2 & O2 & F2). split_and!; [congruence..|].
  exists (l1 ++ l2). rewrite O2, O1, app_assoc. split; [done|]. by apply Forall_app.
Qed.

#[local] Instance calm_preorder : PreOrder calm.
Proof.
  split.
  - intros p. split_and!; [done..|]. exists []. by rewrite app_nil_r.
  - intros p1 p2 p3 H12 H23. eapply moved_calm; [exact H12|exact H23].
Qed.

Lemma calm_emit x p : noChange x → calm p (emit x p).
Proof. intros Hx. split_and!; [done..|]. exists [x]. by repeat constructor. Qed.

Lemma names_name p p' : names p' = names p → p_processName p' = p_processName p.
Proof. by intros [= ?]. Qed.

Lemma calm_same p p' :
  names p' = names p → p_state p' = p_state p → p_outbox p' = p_outbox p → calm p p'.
Proof. intros Hn Hs Ho. split_and!; [done..|]. exists []. by rewrite app_nil_r. Qed.

Ltac calm_tac := preserves_tac ltac:(first [by apply calm_same|by apply calm_emit]).

Lemma calm_popTimer : preserves calm popTimer.
Proof. unfold popTimer. calm_tac. Qed.
Lemma calm_startTimer : preserves calm startTimer.
Proof. unfold startTimer. calm_tac. apply calm_popTimer. Qed.
Lemma calm_deferredPop : preserves calm deferredPop.
Proof. unfold deferredPop. calm_tac. apply calm_popTimer. Qed.

Lemma update_moved st p a p' : updateProcessState st p = Ret (a, p') → moved st p p'.
Proof.
  intros Hu. unfold updateProcessState in Hu.
  apply bind_Ret in Hu as (? & ? & [= <- <-] & Hu). apply bind_Ret in Hu as (? & ? & [= <- <-] & Hu).
  match type of Hu with ?m _ = _ => assert (preserves calm m) as Hk end.
  { calm_tac; apply calm_startTimer. }
  apply Hk in Hu as (Hn & Hs & Hl). split_and!; done.
Qed.

Section pieces.
Context (e : env).

Lemma calm_kill s : preserves calm (killProcess e s).
Proof. unfold killProcess. calm_tac. Qed.
Lemma calm_returnTxErrorResp id msg : preserves calm (returnTxErrorResp e id msg).
Proof. unfold returnTxErrorResp. calm_tac. Qed.
Lemma calm_returnSandboxExitResp er : preserves calm (returnSandboxExitResp e er).
Proof. unfold returnSandboxExitResp. calm_tac. Qed.
Lemma calm_returnBadContractResp v : preserves calm (returnBadContractResp e v).
Proof. unfold returnBadContractResp. calm_tac. Qed.
Lemma calm_finishExit x d : preserves calm (finishExit e x d).
Proof.
  unfold finishExit. calm_tac; first [apply calm_returnTxErrorResp|apply calm_returnSandboxExitResp
    |apply calm_returnBadContractResp|apply calm_deferredPop].
Qed.
Lemma calm_sendMsg m : preserves calm (sendMsg e m).
Proof. unfold sendMsg. calm_tac. Qed.

(** A piece of code that moves the state, with calm code around it. *)
Lemma move_then {A} st (f : unit → M Process A) p a p' :
  (∀ u, preserves calm (f u)) → (updateProcessState st ≫= f) p = Ret (a, p') → moved st p p'.
Proof.
  intros Hf (u & p1 & H1 & H2)%bind_Ret. eapply moved_calm; [by eapply update_moved|by eapply Hf].
Qed.

Lemma decideExit_moved x h p d p' :
  decideExit e x h p = Ret (d, p') →
  calm p p' ∨ (moved created p p' ∧ (p_state p = busy ∨ p_state p = changing ∨ p_state p = timeout)).
Proof.
  intros Hr. unfold decideExit in Hr. cbv zeta in Hr. apply bind_Ret in Hr as (? & ? & [= <- <-] & Hr).
  destruct (decide (exitError x = ContractExecError)).
  { left. match type of Hr with ?m _ = _ => assert (preserves calm m) as Hk end; [calm_tac|by eapply Hk]. }
  destruct (decide (exitError x = ContractNotExistError)).
  { left. match type of Hr with ?m _ = _ => assert (preserves calm m) as Hk end; [calm_tac|by eapply Hk]. }
  destruct (p_state p) eqn:Es.
  all: try (left; match type of Hr with ?m _ = _ => assert (preserves calm m) as Hk end;
    [solve [calm_tac]|by eapply Hk]).
  all: right; split; [|by auto]; eapply move_then; [|exact Hr]; intros ?; calm_tac.
Qed.
End pieces.

(** The state a listener saw is the current one, unless the sandbox has registered since, or the
    manager has handed over or closed the process since. *)
Definition seen_ok (seen st : processState) : Prop :=
  seen = st ∨ (seen = created ∧ st = ready) ∨ (seen = idle ∧ (st = changing ∨ st = closing)).

Definition listener_ok (l : listener) (st : processState) : Prop :=
  match l with LSelect seen => seen_ok seen st | _ => True end.

(** The state of the process is one of those of the manager's list. *)
Definition listed (p : Process) (view : pmview) : Prop :=
  match view with
  | PMIdle => p_state p = idle
  | PMBusy => p_state p ≠ idle ∧ p_state p ≠ closing
  | PMGone => p_state p = closing
  end.

(** The process and the manager agree on the name and on the list. *)
Definition in_sync (p : Process) (view : pmview) (name : string) : Prop :=
  p_processName p = name ∧
  match view with
  | PMIdle => p_state p = idle
  | PMBusy => p_state p ≠ idle ∧ p_state p ≠ closing
  | PMGone => p_state p = closing
  end.

Lemma viewAfter_noChange view l : Forall noChange l → viewAfter view l = view.
Proof. induction 1 as [|x l Hx _ IH]; [done|]. unfold viewAfter in *. cbn. by destruct x. Qed.

Lemma effects_app p p' l : p_outbox p' = p_outbox p ++ l → effects p p' = l.
Proof. unfold effects. intros ->. apply drop_app_length. Qed.

Lemma moved_view st p p' view : moved st p p' → viewAfter view (effects p p') = view.
Proof. intros (_ & _ & l & Ho & Hl). rewrite (effects_app _ _ l Ho). by apply viewAfter_noChange. Qed.

(** A step of the listener: an allowed transition, after which both still agree. *)
Definition good (view : pmview) (name : string) (p p' : Process) : Prop :=
  allowed (p_state p) (p_state p') = true ∧ in_sync p' (viewAfter view (effects p p')) name.

Lemma good_moved st view name p p' :
  in_sync p view name → moved st p p' → allowed (p_state p) st = true →
  (view = PMBusy → st ≠ idle ∧ st ≠ closing) → (view = PMIdle → st = idle) → (view = PMGone → st = closing) →
  good view name p p'.
Proof.
  intros [Hn Hv] Hm Ha H1 H2 H3. pose proof (moved_view st p p' view Hm) as Hview.
  destruct Hm as (Hn'%names_name & Hs & _). split; [by rewrite Hs|]. rewrite Hview. split; [congruence|].
  rewrite Hs. destruct view; auto.
Qed.

Lemma good_calm view name p p' : in_sync p view name → calm p p' → good view name p p'.
Proof.
  intros Hs Hc. eapply good_moved; [done|exact Hc| |..].
  - unfold allowed. by rewrite bool_decide_eq_true_2.
  - intros ->. apply Hs.
  - intros ->. apply Hs.
  - intros ->. apply Hs.
Qed.

(** The manager's answer to a change of state that it knows nothing against. *)
Lemma good_change view name p p1 p2 b st :
  in_sync p view name → view = (if b : bool then PMIdle else PMBusy) →
  p_state p = (if b then idle else ready) → st = (if b then ready else idle) →
  p1 = emit (EChangeState (p_processName p) b) p → moved st p1 p2 → good view name p p2.
Proof.
  intros [Hn _] Hv Hs -> -> (Hn2%names_name & Hs2 & l & Ho & Hl). split.
  - rewrite Hs, Hs2. by destruct b.
  - rewrite (effects_app p p2 ([EChangeState (p_processName p) b] ++ l))
      by (rewrite Ho; cbn; by rewrite <-app_assoc).
    unfold viewAfter. cbn. fold (viewAfter (if b then PMBusy else PMIdle) l).
    rewrite (viewAfter_noChange _ l Hl). split; [by rewrite Hn2|]. rewrite Hs2. by destruct b.
Qed.

Lemma handleIdleTxRequest_good e view name tx p a p' :
  answers e view name → in_sync p view name → p_state p = idle ∨ p_state p = changing ∨ p_state p = closing →
  handleIdleTxRequest e tx p = Ret (a, p') → good view name p p'.
Proof.
  intros Ha Hs Hst Hr. unfold handleIdleTxRequest in Hr. apply bind_Ret in Hr as (? & ? & [= <- <-] & Hr).
  destruct (decide (view = PMIdle)) as [->|Hne].
  2: { assert (e_ChangeProcessState e (p_processName p) true ≠ None) as Hc by (intros [_ Hv]%Ha; done).
    destruct (e_ChangeProcessState e (p_processName p) true); [|done]. apply good_calm; [done|].
    match type of Hr with ?m _ = _ => assert (preserves calm m) as Hk end; [calm_tac|by eapply Hk]. }
  destruct Hs as [Hn Hv].
  assert (e_ChangeProcessState e (p_processName p) true = None) as Hc by by apply Ha.
  rewrite Hc in Hr. apply bind_Ret in Hr as (? & p1 & H1 & Hr). apply bind_Ret in H1 as (? & ? & [= <- <-] & H1).
  apply (good_change PMIdle name p (emit (EChangeState (p_processName p) true) p) p' true ready); [done..|].
  eapply moved_calm; [by eapply update_moved|].
  match type of Hr with ?m _ = _ => assert (preserves calm m) as Hk end; [calm_tac|by eapply Hk].
Qed.

Lemma onTimer_good e view name p a p' :
  answers e view name → in_sync p view name → p_state p = ready ∨ p_state p = busy →
  onTimer e p = Ret (a, p') → good view name p p'.
Proof.
  intros Ha Hs Hst Hr. unfold onTimer in Hr. apply bind_Ret in Hr as (? & p1 & H1 & Hr).
  unfold takeTimer in H1. minv. unfold handleTimeout in Hr.
  apply bind_Ret in Hr as (? & ? & [= <- <-] & Hr). apply bind_Ret in Hr as (? & ? & [= <- <-] & Hr).
  set (q := set_timer _ _ _ _) in Hr. assert (calm p q) as Hq by by apply calm_same.
  assert (view = PMBusy) as -> by (destruct Hs as [_ Hv]; destruct view; [done|destruct Hst; congruence..]).
  change (p_state q) with (p_state p) in Hr. destruct Hst as [Hst|Hst]; rewrite Hst in Hr.
  - assert (e_ChangeProcessState e (p_processName q) false = None) as Hc by (apply Ha; split; [apply Hs|done]).
    rewrite Hc in Hr. apply bind_Ret in Hr as (? & ? & [= <- <-] & Hr).
    apply (good_change PMBusy name p (emit (EChangeState (p_processName p) false) p) p' false idle); [done..|].
    assert (moved idle (emit (EChangeState (p_processName q) false) q) p') as Hm
      by (eapply move_then; [|exact Hr]; intros ?; calm_tac).
    destruct Hm as (Hn & Hs' & Hl). split_and!; done.
  - apply bind_Ret in Hr as (? & p2 & H2 & Hr). destruct (p_Tx q); [|done]. injection H2 as _ <-.
    eapply (good_moved timeout); [done| |by rewrite Hst|done..].
    eapply calm_moved; [exact Hq|]. eapply move_then; [|exact Hr]. intros ?. calm_tac. apply calm_kill.
Qed.

Lemma handleTxRequest_moved e tx p a p' :
  handleTxRequest e tx p = Ret (a, p') → calm p p' ∨ moved busy p p'.
Proof.
  intros Hr. unfold handleTxRequest in Hr. cbv zeta in Hr.
  case_match; [left; by injection Hr as _ <-|]. case_match; [left; by injection Hr as _ <-|].
  right. apply bind_Ret in Hr as (? & ? & [= <- <-] & Hr).
  eapply calm_moved; [by apply (calm_same p (set_tx (Some (tp_Tx tx)) p))|].
  eapply move_then; [|exact Hr]. intros ?. calm_tac. apply calm_sendMsg.
Qed.

Lemma handleTxResp_moved e m p a p' : handleTxResp e m p = Ret (a, p') → moved ready p p'.
Proof.
  intros Hr. unfold handleTxResp in Hr. apply bind_Ret in Hr as (? & ? & [= <- <-] & Hr).
  apply bind_Ret in Hr as (tx & p1 & H1 & Hr). destruct (p_Tx p); [|done]. injection H1 as _ <-.
  eapply move_then; [|exact Hr]. intros ?. calm_tac; apply calm_kill.
Qed.

Lemma handleProcessExit_moved e x h p b p' : handleProcessExit e x h p = Ret (b, p') →
  calm p p' ∨ (moved created p p' ∧ (p_state p = busy ∨ p_state p = changing ∨ p_state p = timeout)).
Proof.
  intros Hh. unfold handleProcessExit in Hh. apply bind_Ret in Hh as (d & p1 & H1 & Hh).
  apply decideExit_moved in H1.
  match type of Hh with ?m _ = _ => assert (preserves calm m) as Hk end; [calm_tac; apply calm_finishExit|].
  apply Hk in Hh. destruct H1 as [Hc|[Hm Hst]]; [left; etrans; eassumption|right].
  split; [by eapply moved_calm|done].
Qed.

Lemma handleProcessExit_good e view name x h p b p' :
  in_sync p view name → handleProcessExit e x h p = Ret (b, p') → good view name p p'.
Proof.
  intros Hs [Hc|[Hm Hst]]%handleProcessExit_moved; [by apply good_calm|].
  eapply (good_moved created); [done..| |done| |].
  - by destruct Hst as [->|[->| ->]].
  - intros ->. destruct Hs as [_ Hv], Hst as [?|[?|?]]; congruence.
  - intros ->. destruct Hs as [_ Hv], Hst as [?|[?|?]]; congruence.
Qed.

Lemma seen_timed seen st : seen_ok seen st → seen = ready ∨ seen = busy → st = seen.
Proof. intros [->|[[-> _]|[-> _]]] Hs; [done|by destruct Hs..]. Qed.

Lemma listenProcess_good e view name seen c p b p' :
  answers e view name → in_sync p view name → seen_ok seen (p_state p) →
  listenProcess e seen c p = Ret (b, p') → good view name p p'.
Proof.
  intros Ha Hs Hok Hr. unfold listenProcess in Hr. apply bind_Ret in Hr as (? & ? & [= <- <-] & Hr).
  pose proof (seen_timed _ _ Hok) as Hst.
  destruct seen, c; try done; try (by eapply handleProcessExit_good);
    try (specialize (Hst ltac:(by auto))).
  all: try (apply good_calm; [done|]; match type of Hr with ?m _ = _ =>
    assert (preserves calm m) as Hk; [solve [calm_tac]|by eapply Hk] end).
  - (* ready, a transaction *)
    apply bind_Ret in Hr as (er & p1 & H1 & Hr).
    match type of Hr with ?m _ = _ => assert (preserves calm m) as Hk end; [calm_tac; apply calm_returnTxErrorResp|].
    apply Hk in Hr. apply handleTxRequest_moved in H1 as [Hc|Hm].
    + apply good_calm; [done|]. etrans; eassumption.
    + eapply (good_moved busy); [done|by eapply moved_calm|by rewrite Hst|done|..].
      * intros ->. destruct Hs as [_ Hv]. congruence.
      * intros ->. destruct Hs as [_ Hv]. congruence.
  - (* ready, timer *)
    apply bind_Ret in Hr as (er & p1 & H1 & [= _ <-]). eapply onTimer_good; eauto.
  - (* busy, timer *)
    apply bind_Ret in Hr as (er & p1 & H1 & [= _ <-]). eapply onTimer_good; eauto.
  - (* busy, response *)
    destruct (p_respCh p) as [|resp rest]; [done|]. apply bind_Ret in Hr as (? & ? & [= <- <-] & Hr).
    apply bind_Ret in Hr as (er & p1 & H1 & [= _ <-]).
    eapply (good_moved ready); [done| |by rewrite Hst|done|..].
    + eapply calm_moved; [by apply (calm_same p (set_respCh rest p))|]. by eapply handleTxResp_moved.
    + intros ->. destruct Hs as [_ Hv]. congruence.
    + intros ->. destruct Hs as [_ Hv]. congruence.
  - (* idle, a transaction *)
    apply bind_Ret in Hr as (er & p1 & H1 & [= _ <-]). eapply handleIdleTxRequest_good; [done..| |done].
    destruct Hok as [<-|[[? _]|[_ ?]]]; [by left|done|by right].
Qed.

Lemma sync_calm p p' view name :
  in_sync p view name → calm p p' → allowed (p_state p) (p_state p') = true ∧ in_sync p' view name.
Proof.
  intros Hs Hc. destruct (good_calm view name p p' Hs Hc) as [Ha Hy]. split; [done|].
  by rewrite (moved_view _ _ _ view Hc) in Hy.
Qed.

Lemma calm_launch e o : preserves calm (launchProcess e o).
Proof. unfold launchProcess. calm_tac. Qed.
Lemma calm_resume : preserves calm resumeExit.
Proof. unfold resumeExit. calm_tac. apply calm_deferredPop. Qed.
Lemma calm_put m : preserves calm (PutMsg m).
Proof. unfold PutMsg. calm_tac. Qed.

Lemma ChangeSandbox_ok e c n v name p p' :
  ChangeSandbox e c n v name p = Ret (None, p') →
  p_state p = idle ∧ p_processName p' = name ∧ p_state p' = changing.
Proof.
  intros Hr. unfold ChangeSandbox, resetContext in Hr. minv; try done; simplify_eq.
  assert (p_state p = idle) as Hst by by apply dec_stable.
  match goal with H : killProcess _ _ _ = _ |- _ => apply calm_kill in H as (Hn%names_name & _) end.
  match goal with H : updateProcessState _ _ = _ |- _ => apply update_moved in H as (Hn'%names_name & Hs' & _) end.
  split_and!; [done| |done]. rewrite Hn', Hn. done.
Qed.

Lemma CloseSandbox_ok e p p' :
  CloseSandbox e p = Ret (None, p') →
  p_state p = idle ∧ p_processName p' = p_processName p ∧ p_state p' = closing.
Proof.
  intros Hr. unfold CloseSandbox in Hr. minv; try done; simplify_eq.
  assert (p_state p = idle) as Hst by by apply dec_stable.
  match goal with H : killProcess _ _ _ = _ |- _ => apply calm_kill in H as (Hn%names_name & _) end.
  match goal with H : updateProcessState _ _ = _ |- _ => apply update_moved in H as (Hn'%names_name & Hs' & _) end.
  split_and!; [done|congruence|done].
Qed.

Lemma changeRaced_ok e c n v name x h p b p' :
  changeRaced e c n v name x h p = Ret (b, p') →
  p_state p = idle ∧ p_processName p' = name ∧ p_state p' = changing.
Proof.
  intros Hr. unfold changeRaced, resetContext in Hr. minv; try done; simplify_eq.
  assert (p_state p = idle) as Hst by by apply dec_stable.
  match goal with H : killProcess _ _ _ = _ |- _ => apply calm_kill in H as (Hn%names_name & _) end.
  match goal with H : handleProcessExit _ _ _ _ = _ |- _ => apply handleProcessExit_moved in H end.
  match goal with H : updateProcessState _ _ = _ |- _ => apply update_moved in H as (Hn'%names_name & Hs' & _) end.
  split_and!; [done| |done]. rewrite Hn'.
  match goal with H : _ ∨ _ |- _ => destruct H as [(->%names_name & _)|[(->%names_name & _) _]] end; by rewrite Hn.
Qed.

Lemma closeRaced_ok e x h p b p' :
  closeRaced e x h p = Ret (b, p') →
  p_state p = idle ∧ p_processName p' = p_processName p ∧ p_state p' = closing.
Proof.
  intros Hr. unfold closeRaced in Hr. minv; try done; simplify_eq.
  assert (p_state p = idle) as Hst by by apply dec_stable.
  match goal with H : killProcess _ _ _ = _ |- _ => apply calm_kill in H as (Hn%names_name & _) end.
  match goal with H : handleProcessExit _ _ _ _ = _ |- _ => apply handleProcessExit_moved in H end.
  match goal with H : updateProcessState _ _ = _ |- _ => apply update_moved in H as (Hn'%names_name & Hs' & _) end.
  split_and!; [done| |done]. rewrite Hn'.
  match goal with H : _ ∨ _ |- _ => destruct H as [(->%names_name & _)|[(->%names_name & _) _]] end; by rewrite Hn.
Qed.

Lemma listener_change l st : listener_ok l idle → st = changing ∨ st = closing → listener_ok l st.
Proof. destruct l as [| |seen]; [done..|]. cbn. intros [->|[[_ ?]|[_ [?|?]]]] Hst; [|done..]. right; right. by split. Qed.

Lemma ChangeSandbox_failed e c n v name p er p' :
  ChangeSandbox e c n v name p = Ret (Some er, p') →
  p_state p' = p_state p ∧ (p_processName p' = p_processName p ∨ (p_state p = idle ∧ killFails e p = true)).
Proof.
  intros Hr. unfold ChangeSandbox, resetContext, killProcess in Hr. minv; try done; simplify_eq; try by auto.
  all: assert (p_state p = idle) as Hst by by apply dec_stable.
  all: split; [done|right; split; [done|]]; unfold killFails; cbn in *.
  - by match goal with H : negb (p_cmd p) = true |- _ => rewrite H end.
  - match goal with H : e_signalErr e SIGTERM = Some _ |- _ => rewrite H end.
    rewrite bool_decide_eq_true_2 by done. apply orb_true_r.
Qed.

Lemma CloseSandbox_failed e p er p' :
  CloseSandbox e p = Ret (Some er, p') → p_state p' = p_state p ∧ p_processName p' = p_processName p.
Proof. intros Hr. unfold CloseSandbox, killProcess in Hr. minv; try done; simplify_eq; by auto. Qed.

(** The process keeps a name that its manager does not know: it is idle, or being closed. *)
Definition lost_ok (p : Process) (view : pmview) : Prop :=
  (p_state p = idle ∧ view = PMIdle) ∨ (p_state p = closing ∧ view = PMGone).

(** The agreement of the process, the manager's list and the listener. *)
Definition agree (s : system * bool) : Prop :=
  (in_sync (y_p s.1) (y_view s.1) (y_name s.1) ∨
   (s.2 = true ∧ p_processName (y_p s.1) ≠ y_name s.1 ∧ lost_ok (y_p s.1) (y_view s.1))) ∧
  listener_ok (y_listener s.1) (p_state (y_p s.1)).

Lemma lost_listed p view : lost_ok p view → listed p view.
Proof. by intros [[? ->]|[? ->]]. Qed.

Lemma agree_same p p' view name lost l : agree (mkSystem p view name l, lost) →
  p_state p' = p_state p → p_processName p' = p_processName p →
  allowed (p_state p) (p_state p') = true ∧ agree (mkSystem p' view name l, lost).
Proof.
  intros [Hs Hl] Est En. rewrite Est. split; [unfold allowed; by rewrite bool_decide_eq_true_2|].
  unfold agree, in_sync, listed, lost_ok in *. cbn in *. by rewrite Est, En.
Qed.

Lemma agree_calm p p' view name lost l : agree (mkSystem p view name l, lost) → calm p p' →
  allowed (p_state p) (p_state p') = true ∧ agree (mkSystem p' view name l, lost).
Proof. intros Hag (Hn%names_name & Hs & _). by apply (agree_same p). Qed.

(** While its name is unknown the process stays idle. *)
Lemma listenProcess_lost e view name seen c p b p' :
  answers e view name → p_processName p ≠ name → lost_ok p view → seen_ok seen (p_state p) →
  listenProcess e seen c p = Ret (b, p') → calm p p'.
Proof.
  intros Ha Hn Hlo Hok Hr.
  assert (seen = idle ∨ seen = closing) as Hseen.
  { destruct Hlo as [[E _]|[E _]]; rewrite E in Hok; destruct Hok as [->|[[_ ?]|[-> _]]]; auto; done. }
  assert (∀ x h, handleProcessExit e x h p = Ret (b, p') → calm p p') as Hexit.
  { intros x h [?|[_ Hst]]%handleProcessExit_moved; [done|].
    destruct Hlo as [[E _]|[E _]]; rewrite E in Hst; by destruct Hst as [?|[?|?]]. }
  unfold listenProcess in Hr. apply bind_Ret in Hr as (? & ? & [= <- <-] & Hr).
  destruct Hseen as [->| ->], c; try done; try (by eapply Hexit).
  - apply bind_Ret in Hr as (er & p1 & H1 & [= _ <-]). unfold handleIdleTxRequest in H1.
    apply bind_Ret in H1 as (? & ? & [= <- <-] & H1).
    destruct (e_ChangeProcessState e (p_processName p) true) eqn:Ec; [|by apply Ha in Ec as [? _]].
    match type of H1 with ?m _ = _ => assert (preserves calm m) as Hk end; [calm_tac|by eapply Hk].
  - match type of Hr with ?m _ = _ => assert (preserves calm m) as Hk; [solve [calm_tac]|by eapply Hk] end.
Qed.

Lemma agree_listen e view name lost seen c p b p' l :
  answers e view name → agree (mkSystem p view name (LSelect seen), lost) → listenProcess e seen c p = Ret (b, p') →
  l = LHead ∨ l = LOff →
  allowed (p_state p) (p_state p') = true ∧ agree (mkSystem p' (viewAfter view (effects p p')) name l, lost).
Proof.
  intros Ha [[Hs|(Hlo & Hn & Hst)] Hl] Hr Hll; cbn [y_p y_view y_name y_listener fst snd] in *.
  - destruct (listenProcess_good e view name seen c p b p' Ha Hs Hl Hr) as [Hal Hy]. split; [done|].
    split; [by left|]. by destruct Hll as [->| ->].
  - pose proof (listenProcess_lost e view name seen c p b p' Ha Hn Hst Hl Hr) as Hc.
    rewrite (moved_view _ _ _ view Hc). apply (agree_calm p); [|done]. split; [by right|]. by destruct Hll as [->| ->].
Qed.

Lemma agree_change p view name lost l p' name' l' st :
  agree (mkSystem p view name l, lost) → p_state p = idle → p_processName p' = name' → p_state p' = st → st = changing →
  (l' = l ∨ l' = LHead ∨ l' = LOff) →
  allowed (p_state p) (p_state p') = true ∧ agree (mkSystem p' PMBusy name' l', false).
Proof.
  intros [_ Hlis] Hst Hn Hs' -> Hl'. cbn in Hlis. rewrite Hst in Hlis |- *. rewrite Hs'. split; [done|].
  split; cbn; [left; split; [done|by cbn; rewrite Hs']|]. rewrite Hs'.
  destruct Hl' as [->|[->| ->]]; [|done..]. apply listener_change; auto.
Qed.

Lemma agree_close p name lost l p' l' :
  agree (mkSystem p PMIdle name l, lost) → p_state p = idle → p_processName p' = p_processName p → p_state p' = closing →
  (l' = l ∨ l' = LHead ∨ l' = LOff) →
  allowed (p_state p) (p_state p') = true ∧ agree (mkSystem p' PMGone name l', lost).
Proof.
  intros [Hs Hlis] Hst Hn Hs' Hl'. cbn in Hlis, Hs. rewrite Hst in Hlis |- *. rewrite Hs'. split; [done|]. split; cbn.
  - destruct Hs as [[? _]|(? & ? & _)]; [left; split; [congruence|done]|right].
    split_and!; [done|congruence|by right].
  - rewrite Hs'. destruct Hl' as [->|[->| ->]]; [|done..]. apply listener_change; auto.
Qed.

Lemma agree_step s s' : step true s s' → agree s →
  allowed (p_state (y_p s.1)) (p_state (y_p s'.1)) = true ∧ agree s'.
Proof.
  intros Hs Hag.
  destruct Hs as [p view name lost|p view name lost e seen c b p' Ha Hl|p view name lost l p' Hst Hl
    |p name lost l e c n v name' p' Hl|p view name lost l e c n v name' er p' Hl|p name lost l e p' Hl
    |p view name lost l e er p' Hl|p name lost e c n v name' x h b p' Hl|p name lost e x h b p' Hl
    |p view name lost l m p' Hl|p view name lost l Har|p view name lost l e o x p' Hl|p view name lost l p' Hl];
    cbn [y_p y_view y_name y_listener fst snd].
  - split; [unfold allowed; by rewrite bool_decide_eq_true_2|]. split; [apply Hag|]. by left.
  - eapply agree_listen; [done..|]. destruct (_ || _); auto.
  - unfold SetStream in Hl. apply (move_then ready) in Hl as (Hn%names_name & Hs' & _); [|intros ?; calm_tac].
    specialize (Hst eq_refl). rewrite Hs', Hst. split; [done|]. destruct Hag as [[[Hn' Hv]|(_ & _ & Hlo)] Hlis]; cbn in *.
    2: { by destruct Hlo as [[? _]|[? _]]; congruence. }
    rewrite Hst in Hv, Hlis. split; cbn.
    + left. split; [congruence|]. rewrite Hs'. by destruct view.
    + rewrite Hs'. destruct l as [| |seen]; [done..|]. destruct Hlis as [->|[[_ ?]|[_ [?|?]]]]; [|done..]. right. by left.
  - apply ChangeSandbox_ok in Hl as (Hst & Hn & Hs'). eapply agree_change; eauto.
  - apply ChangeSandbox_failed in Hl as [Hs' Hn].
    destruct (decide (p_processName p' = p_processName p)) as [En|Hne].
    { rewrite (bool_decide_eq_true_2 _ En), andb_false_r, orb_false_r. by apply (agree_same p). }
    destruct Hn as [?|[Hst Hk]]; [done|]. rewrite Hk, bool_decide_eq_false_2, orb_true_r by done. rewrite Hs'.
    split; [unfold allowed; by rewrite bool_decide_eq_true_2|]. destruct Hag as [Hsy Hlis]. cbn in *.
    assert (view = PMIdle) as ->.
    { destruct Hsy as [[_ Hv]|(_ & _ & Hlo)]; [rewrite Hst in Hv; destruct view; naive_solver|].
      destruct Hlo as [[_ ?]|[? _]]; congruence. }
    split; cbn; [|by rewrite Hs']. destruct (decide (p_processName p' = name)) as [En|Hnn].
    + left. split; [done|]. cbn. congruence.
    + right. split_and!; [done..|]. left. split; [congruence|done].
  - apply CloseSandbox_ok in Hl as (Hst & Hn & Hs'). eapply agree_close; eauto.
  - apply CloseSandbox_failed in Hl as [Hs' Hn]. by apply (agree_same p).
  - apply changeRaced_ok in Hl as (Hst & Hn & Hs'). eapply agree_change; eauto. destruct b; auto.
  - apply closeRaced_ok in Hl as (Hst & Hn & Hs'). eapply agree_close; eauto. destruct b; auto.
  - eapply agree_calm; [exact Hag|]. by apply calm_put in Hl.
  - eapply agree_calm; [exact Hag|]. by apply calm_same.
  - eapply agree_calm; [exact Hag|]. by apply calm_launch in Hl.
  - eapply agree_calm; [exact Hag|]. by apply calm_resume in Hl.
Qed.

(** [C6] The process and the process manager agree, when a sandbox registers only while its process is
    [created] (that is, once for each start). In every reachable state a process that its manager lists as idle is
    idle, and one it lists as busy is neither idle nor being closed: also when the listener still waits for the events
    of a state that another goroutine has left, when it handles an exit while the process is being handed over, and
    when hand-overs and closes fail. Both know the process under the same name, unless the signal of a
    hand-over has failed since the last one that succeeded (the process then has its new name already, see
    [failed_kill_panics]). Every transition of the state is one of those of the state diagram. *)
Theorem process_in_sync s :
  reachable true s →
  listed (y_p s.1) (y_view s.1) ∧ (s.2 = false → p_processName (y_p s.1) = y_name s.1) ∧
  ∀ s', step true s s' → allowed (p_state (y_p s.1)) (p_state (y_p s'.1)) = true.
Proof.
  intros Hr. assert (agree s) as Hs.
  { revert Hr. apply (system_reachable_ind true agree).
    - intros sch u c n v name io s0 (p & Hn & ->). unfold NewProcess in Hn. case_match; simplify_eq.
      split; [by left|done].
    - intros s1 s2 Hst H1. by apply (agree_step s1 s2 Hst). }
  split_and!.
  - destruct Hs as [[[_ ?]|(_ & _ & ?)] _]; [done|by apply lost_listed].
  - intros Hl. destruct Hs as [[[? _]|(? & _)] _]; [done|congruence].
  - intros s' Hst. by apply (agree_step s s' Hst).
Qed.

(** ** The exit of the sandbox *)

(** The transactions answered with an error, and the exits reported to the manager. *)
Definition txAnswer (x : effect) : list string :=
  match x with
  | EScheduler (AnyDockerVM m) => if decide (m_Type m = ERROR) then [m_TxId m] else []
  | _ => []
  end.
Definition exitMsg (x : effect) : list SandboxExitMsg :=
  match x with EProcessManager (AnySandboxExit m) => [m] | _ => [] end.
Definition txAnswers (l : list effect) : list string := concat (txAnswer <$> l).
Definition exitMsgs (l : list effect) : list SandboxExitMsg := concat (exitMsg <$> l).

(** The restarts among the effects. *)
Definition restart (x : effect) : list effect := match x with EStartProcess | EStart => [x] | _ => [] end.
Definition restartsOf (l : list effect) : list effect := concat (restart <$> l).

(** Surroundings that take every message. *)
Definition env_open (e : env) : Prop :=
  (∀ m, @sched_PutMsg (e_sched e) m = None) ∧ (∀ m, @group_PutMsg (e_sched e) m = None) ∧
  (∀ m, e_pmPutMsg e m = None).

Definition currentTxId (p : Process) : string :=
  match p_Tx p with Some tx => m_TxId tx | None => "" end.

Definition exitReport (x : option exitErr) (p : Process) : SandboxExitMsg :=
  mkSandboxExit (p_chainID p) (p_contractName p) (p_contractVersion p) (p_processName p) (exitError x).

(** Code that sends no answer and no exit report, and restarts nothing. *)
Definition silent (p p' : Process) : Prop :=
  p_chainID p' = p_chainID p ∧ p_contractName p' = p_contractName p ∧
  p_contractVersion p' = p_contractVersion p ∧ p_processName p' = p_processName p ∧
  ∃ l, p_outbox p' = p_outbox p ++ l ∧ txAnswers l = [] ∧ exitMsgs l = [] ∧ restartsOf l = [].

#[local] Instance silent_preorder : PreOrder silent.
Proof.
  split.
  - intros p. split_and!; [done..|]. exists []. by rewrite app_nil_r.
  - intros p1 p2 p3 (? & ? & ? & ? & l1 & O1 & A1 & E1 & R1) (? & ? & ? & ? & l2 & O2 & A2 & E2 & R2).
    split_and!; [congruence..|]. exists (l1 ++ l2).
    unfold txAnswers, exitMsgs, restartsOf in *. by rewrite O2, O1, app_assoc, !fmap_app, !concat_app, A1, A2, E1, E2, R1, R2.
Qed.

Lemma silent_same p p' :
  p_chainID p' = p_chainID p → p_contractName p' = p_contractName p →
  p_contractVersion p' = p_contractVersion p → p_processName p' = p_processName p →
  p_outbox p' = p_outbox p → silent p p'.
Proof. intros. split_and!; [done..|]. exists []. by rewrite app_nil_r. Qed.

Lemma silent_emit x p : txAnswer x = [] → exitMsg x = [] → restart x = [] → silent p (emit x p).
Proof.
  intros Ha He Hr. split_and!; [done..|]. exists [x]. unfold txAnswers, exitMsgs, restartsOf. cbn. by rewrite Ha, He, Hr.
Qed.

Ltac silent_tac := preserves_tac ltac:(first [by apply silent_same|by apply silent_emit]).

Lemma silent_popTimer : preserves silent popTimer.
Proof. unfold popTimer. silent_tac. Qed.
Lemma silent_startTimer : preserves silent startTimer.
Proof. unfold startTimer. silent_tac. apply silent_popTimer. Qed.
Lemma silent_update st : preserves silent (updateProcessState st).
Proof. unfold updateProcessState. silent_tac; apply silent_startTimer. Qed.
Lemma silent_returnBad e v : preserves silent (returnBadContractResp e v).
Proof. unfold returnBadContractResp. silent_tac. Qed.

(** Deferred calls that restart nothing are silent. *)
Lemma silent_rest e x d p a p' :
  (if d_returnBadContractResp d
   then cfv ← (match parse_int (exitDesc x) with
               | Some v => mret v
               | None => p ← getS; deref (p_group p);; mret (e_ContractFileVersion e)
               end);
        returnBadContractResp e cfv;; mret tt
   else mret tt) p = Ret (a, p') → silent p p'.
Proof.
  intros Hr. match type of Hr with ?m _ = _ => assert (preserves silent m) as Hk end; [|by eapply Hk].
  silent_tac; apply silent_returnBad.
Qed.

(** The deferred calls send what was decided. *)
Lemma finishExit_effects e x d p a p' :
  env_open e → finishExit e x d p = Ret (a, p') →
  ∃ l, p_outbox p' = p_outbox p ++ l ∧
    txAnswers l = (if d_returnErrResp d then [currentTxId p] else []) ∧
    exitMsgs l = (if d_exitSandbox d then [exitReport x p] else []) ∧
    restartsOf l = (if d_restartSandbox d then [EStartProcess] else []) ++ (if d_restartAll d then [EStart] else []).
Proof.
  intros (Hsch & Hgrp & Hpm) Hr. unfold finishExit in Hr.
  apply bind_Ret in Hr as (? & p1 & H1 & Hr).
  apply bind_Ret in Hr as (? & ? & [= <- <-] & Hr). cbv zeta in Hr.
  apply bind_Ret in Hr as (? & p2 & H2 & Hr). apply bind_Ret in Hr as (? & p3 & H3 & Hr).
  assert (∃ l1, p_outbox p1 = p_outbox p ++ l1 ∧ txAnswers l1 = [] ∧ exitMsgs l1 = [] ∧
    restartsOf l1 = (if d_restartSandbox d then [EStartProcess] else []) ∧
    currentTxId p1 = currentTxId p ∧ p_chainID p1 = p_chainID p ∧ exitReport x p1 = exitReport x p)
    as (l1 & O1 & A1 & E1 & S1 & T1 & C1 & R1).
  { clear -H1. destruct (d_restartSandbox d); injection H1 as _ <-; [by exists [EStartProcess]|].
    exists []. by rewrite app_nil_r. }
  assert (∃ l2, p_outbox p2 = p_outbox p1 ++ l2 ∧
    txAnswers l2 = (if d_returnErrResp d then [currentTxId p] else []) ∧ exitMsgs l2 = [] ∧ restartsOf l2 = [] ∧
    exitReport x p2 = exitReport x p) as (l2 & O2 & A2 & E2 & S2 & R2).
  { rewrite <-T1, <-R1. clear -H2 Hsch. destruct (d_returnErrResp d); cycle 1.
    - injection H2 as _ <-. exists []. by rewrite app_nil_r.
    - unfold returnTxErrorResp in H2. minv; [by rewrite Hsch in *|]. by eexists [_]. }
  assert (∃ l4, p_outbox p3 = p_outbox p2 ++ l4 ∧ txAnswers l4 = [] ∧
    exitMsgs l4 = (if d_exitSandbox d then [exitReport x p] else []) ∧ restartsOf l4 = []) as (l4 & O4 & A4 & E4 & S4).
  { rewrite <-R2. clear -H3 Hpm. destruct (d_exitSandbox d); cycle 1.
    - injection H3 as _ <-. exists []. by rewrite app_nil_r.
    - unfold returnSandboxExitResp in H3. minv; [by rewrite Hpm in *|]. by eexists [_]. }
  assert (∃ l3, p_outbox p' = p_outbox p3 ++ l3 ∧ txAnswers l3 = [] ∧ exitMsgs l3 = [] ∧
    restartsOf l3 = (if d_restartAll d then [EStart] else [])) as (l3 & O3 & A3 & E3 & S3).
  { clear -Hr. destruct (d_restartAll d); [injection Hr as _ <-; by exists [EStart]|].
    apply bind_Ret in Hr as (? & p4 & H4 & Hr). apply silent_rest in H4.
    assert (silent p4 p') as H5.
    { match type of Hr with ?m _ = _ => assert (preserves silent m) as Hk end; [|by eapply Hk].
      unfold deferredPop. silent_tac. apply silent_popTimer. }
    destruct (transitivity H4 H5) as (_ & _ & _ & _ & l & Hl). by exists l. }
  exists (l1 ++ l2 ++ l4 ++ l3). rewrite O3, O4, O2, O1, <-!app_assoc. split; [done|].
  unfold txAnswers, exitMsgs, restartsOf in *. rewrite !fmap_app, !concat_app, A1, A2, A3, A4, E1, E2, E3, E4, S1, S2, S3, S4.
  by rewrite !app_nil_r.
Qed.

(** The two errors of a command that could not be started. *)
Definition launchFailed (x : option exitErr) : bool :=
  match exitError x with ContractExecError | ContractNotExistError => true | _ => false end.

(** Which transaction an exit answers, and whether it is reported and handled for good. *)
Definition exitAnswers (x : option exitErr) (h : option TxPayload) (p : Process) : list string :=
  match exitError x with
  | ContractExecError => match h with Some tx => [m_TxId (tp_Tx tx)] | None => [] end
  | ContractNotExistError => []
  | _ => match p_state p with busy | timeout => [currentTxId p] | _ => [] end
  end.
Definition exitReported (x : option exitErr) (p : Process) : bool :=
  launchFailed x || match p_state p with ready | idle | busy | timeout => true | _ => false end.

(** What an exit restarts: the sandbox of a process that is starting, the process that is handed over. *)
Definition exitRestarts (x : option exitErr) (p : Process) : list effect :=
  if launchFailed x then []
  else match p_state p with created => [EStartProcess] | changing => [EStart] | _ => [] end.

Definition sameTx (p p' : Process) : Prop := p_Tx p' = p_Tx p.
#[local] Instance sameTx_preorder : PreOrder sameTx.
Proof. split; unfold sameTx; [done|intros p1 p2 p3; congruence]. Qed.
Lemma sameTx_update st : preserves sameTx (updateProcessState st).
Proof. unfold updateProcessState, startTimer, popTimer. preserves_tac ltac:(done). Qed.

Lemma decideExit_effects e x h p d p' :
  (∀ tx, h = Some tx → m_Type (tp_Tx tx) = TX_REQUEST) → decideExit e x h p = Ret (d, p') →
  silent p p' ∧
  (if d_returnErrResp d then [currentTxId p'] else []) = exitAnswers x h p ∧
  d_exitSandbox d = exitReported x p ∧
  (if d_restartSandbox d then [EStartProcess] else []) ++ (if d_restartAll d then [EStart] else []) = exitRestarts x p ∧
  d_released d = launchFailed x || negb (bool_decide (p_state p = created)).
Proof.
  intros Hh Hr. assert (silent p p') as Hsil.
  { revert Hr. apply preserves_bind; [apply _|apply preserves_get; apply _|]. intros q. cbv zeta.
    silent_tac; try apply silent_update. apply preserves_modify. intros ?. apply silent_emit; [|done..]. cbn.
    rewrite decide_False; [done|]. by rewrite (Hh t). }
  split; [done|]. unfold decideExit in Hr. cbv zeta in Hr. apply bind_Ret in Hr as (? & ? & [= <- <-] & Hr).
  unfold exitAnswers, exitReported, exitRestarts, launchFailed.
  destruct (exitError x) eqn:Ex; cbn [orb].
  1: rewrite decide_True in Hr by done; destruct h as [tx|]; minv; done.
  1: rewrite decide_False, decide_True in Hr by done; destruct h as [tx|]; minv; done.
  all: rewrite !decide_False in Hr by done; destruct (p_state p) eqn:Es; cbn [negb];
    rewrite ?bool_decide_eq_true_2, ?bool_decide_eq_false_2 by done; minv; try done.
  all: match goal with H : updateProcessState _ _ = _ |- _ => apply sameTx_update in H as HT end.
  all: unfold currentTxId; by rewrite HT.
Qed.

Lemma exit_effects e x h p b p' :
  env_open e → (∀ tx, h = Some tx → m_Type (tp_Tx tx) = TX_REQUEST) →
  handleProcessExit e x h p = Ret (b, p') →
  txAnswers (effects p p') = exitAnswers x h p ∧
  exitMsgs (effects p p') = (if exitReported x p then [exitReport x p] else []) ∧
  restartsOf (effects p p') = exitRestarts x p ∧
  b = launchFailed x || negb (bool_decide (p_state p = created)).
Proof.
  intros He Hh Hr. unfold handleProcessExit in Hr. apply bind_Ret in Hr as (d & p1 & H1 & Hr).
  apply bind_Ret in Hr as (? & p2 & H2 & [= <- <-]).
  apply decideExit_effects in H1 as ((C1 & N1 & V1 & P1 & l1 & O1 & A1 & E1 & S1) & Ha & Hx & Hrs & Hb); [|done].
  apply finishExit_effects in H2 as (l2 & O2 & A2 & E2 & S2); [|done].
  rewrite (effects_app p p2 (l1 ++ l2)) by (by rewrite O2, O1, app_assoc).
  unfold txAnswers, exitMsgs, restartsOf in *. rewrite !fmap_app, !concat_app, A1, A2, E1, E2, S1, S2. cbn [app].
  split_and!; [by rewrite Ha|rewrite Hx; unfold exitReport; by rewrite C1, N1, V1, P1|done|done].
Qed.

(** [C31] The exit of a sandbox is accounted for. Whatever the state and the error, when the
    surroundings take the messages: the transaction the process was executing (or, when the
    command could not be executed, the one at the head of the channel) is answered with one
    error, and no other is; the exit is reported to the process manager exactly once, under the
    names the process has, unless the process is being restarted or was closed by the manager;
    a sandbox that failed before it was ready is started again, once, by the listener that goes on; a process that is
    being handed over is started again, once, with a new listener; nothing else is started; and
    the listener that saw the exit ends in every other case. *)
Theorem exit_accounted e x h p b p' :
  env_open e → (∀ tx, h = Some tx → m_Type (tp_Tx tx) = TX_REQUEST) →
  handleProcessExit e x h p = Ret (b, p') →
  txAnswers (effects p p') = exitAnswers x h p ∧
  exitMsgs (effects p p') = (if exitReported x p then [exitReport x p] else []) ∧
  restartsOf (effects p p') = exitRestarts x p ∧
  b = launchFailed x || negb (bool_decide (p_state p = created)).
Proof. apply exit_effects. Qed.

(** ** Launching *)

(** The bad-contract messages among the effects. *)
Definition badMsgs (l : list effect) : list BadContractResp :=
  concat ((λ x, match x with EGroup (AnyBadContract m) => [m] | _ => [] end) <$> l).

Lemma decideExit_exec e x tx p :
  exitError x = ContractExecError →
  decideExit e x (Some tx) p =
    Ret (mkDecision false true true false true "bad contract exec file" true, set_tx (Some (tp_Tx tx)) p).
Proof.
  intros Hx. unfold decideExit. change ((getS ≫= ?f) p) with (f p p). cbv beta zeta.
  by rewrite decide_True, Hx.
Qed.

Lemma decideExit_notExist e x tx p :
  (∀ m, @sched_PutMsg (e_sched e) m = None) → exitError x = ContractNotExistError →
  decideExit e x (Some tx) p =
    Ret (mkDecision false false true false true "contract exec file not exist" true,
         emit (EScheduler (AnyDockerVM (tp_Tx tx))) (set_tx (Some (tp_Tx tx)) p)).
Proof.
  intros Hs Hx. unfold decideExit. change ((getS ≫= ?f) p) with (f p p). cbv beta zeta.
  rewrite decide_False, decide_True by (by rewrite Hx). unfold mbind, M_bind, modifyS. by rewrite Hs, Hx.
Qed.

(** A contract file that cannot be executed is reported with the version it had when it was
    launched, read back from the text of the exit error, even when the group has loaded another
    file since ([v'], the version at the time of the exit): so the group can tell a stale report
    from one about the file it has. *)
Theorem bad_contract_version e e' notExist tx p x p1 :
  env_open e' → in_int64 (e_ContractFileVersion e) = true → tinv p → p_state p = created →
  launchProcess e (LStartErr notExist) p = Ret (x, p1) →
  ∃ p2, handleProcessExit e' x (Some tx) p1 = Ret (true, p2) ∧
    bc_ContractFileVersion <$> badMsgs (effects p1 p2) = [e_ContractFileVersion e] ∧
    exitMsgs (effects p1 p2) = [exitReport x p1].
Proof.
  intros (Hsch & Hgrp & Hpm) Hv Ht Hst Hl.
  destruct p as [nm c n v u st io cmd tok upd resp ar tc pop t str [g|] rs ob]; cbn in *; [|discriminate].
  subst st. injection Hl as <- <-. destruct tx as [tx now].
  unfold handleProcessExit, mbind, M_bind at 1.
  destruct notExist; [rewrite decideExit_notExist by done|rewrite decideExit_exec by done];
    unfold finishExit, returnTxErrorResp, returnSandboxExitResp, returnBadContractResp, deferredPop, popTimer,
      mbind, M_bind, getS, modifyS, mret, M_ret, deref; cbn; rewrite ?Hsch, ?Hpm; cbn; rewrite ?Hpm; cbn;
    rewrite (parse_itoa _ Hv); cbn; rewrite Hgrp; cbn; unfold tinv in Ht; destruct pop, ar, tc; cbn in *; try done.
  all: eexists; split; [reflexivity|]; unfold effects, badMsgs, exitMsgs; cbn;
    rewrite <-?app_assoc, drop_app_length; done.
Qed.

(** A transaction that cannot be sent to the sandbox is answered twice: the listener
    answers it with an error, but the process has already become busy with it, and the exit
    that ends this state (here any exit that is no launch failure) answers it again. *)
Theorem failed_send_answered_twice e e' tx p x p1 b p2 :
  env_open e → env_open e' → tinv p → p_state p = ready → p_stream p = true →
  e_now e - tp_StartTime tx ≤ _removeTxTime → e_now e - tp_StartTime tx ≤ e_ExecTxTimeout e →
  (∀ m, e_streamSend e m ≠ None) →
  listenProcess e ready (ChTx tx) p = Ret (false, p1) → launchFailed x = false →
  handleProcessExit e' x None p1 = Ret (b, p2) →
  txAnswers (effects p p1) = [m_TxId (tp_Tx tx)] ∧ txAnswers (effects p1 p2) = [m_TxId (tp_Tx tx)].
Proof.
  intros He He' Ht Hst Hstr Hx1 Hx2 Hsend Hl Hlf Hex.
  assert (∃ q msg, p1 = emit (EScheduler (AnyDockerVM (errResp (p_chainID p) (m_TxId (tp_Tx tx)) msg))) q ∧
    p_outbox q = p_outbox p ∧ p_state q = busy ∧ currentTxId q = m_TxId (tp_Tx tx)) as (q & msg & -> & Hq & Hb & Hc).
  { unfold listenProcess in Hl. apply bind_Ret in Hl as (? & ? & [= <- <-] & Hl).
    apply bind_Ret in Hl as (er & q & H1 & Hl). unfold handleTxRequest in H1. cbv zeta in H1.
    assert ((_removeTxTime <? e_now e - tp_StartTime tx) = false) as E1 by by apply Z.ltb_ge.
    assert ((e_ExecTxTimeout e <? e_now e - tp_StartTime tx) = false) as E2 by by apply Z.ltb_ge.
    rewrite E1, E2 in H1. apply bind_Ret in H1 as (? & ? & [= <- <-] & H1).
    apply bind_Ret in H1 as (? & q1 & H2 & H1). apply updateProcessState_Ret in H2 as (_ & a1 & a2 & a3 & a4 & ->); [|done].
    apply bind_Ret in H1 as (? & ? & [= <- <-] & H1). apply bind_Ret in H1 as (? & ? & [= <- <-] & H1).
    unfold sendMsg in H1. apply bind_Ret in H1 as (? & ? & [= <- <-] & H1). cbn [p_stream set_tx set_timer set_updateCh set_pstate] in H1.
    rewrite Hstr in H1. cbn [negb] in H1.
    match type of H1 with context [e_streamSend e ?m] => destruct (e_streamSend e m) eqn:Es; [|by destruct (Hsend m)] end.
    injection H1 as <- <-. apply bind_Ret in Hl as (? & p2' & H3 & [= <-]).
    unfold returnTxErrorResp in H3. apply bind_Ret in H3 as (? & ? & [= <- <-] & H3).
    destruct He as (Hs & _ & _). rewrite Hs in H3. apply bind_Ret in H3 as (? & ? & [= <- <-] & [= <- <-]).
    eexists _, _. split_and!; [reflexivity|done|done|]. cbn. apply EnterNextStep_frame. }
  split.
  - rewrite (effects_app p _ [EScheduler (AnyDockerVM (errResp (p_chainID p) (m_TxId (tp_Tx tx)) msg))])
      by (cbn; by rewrite Hq). done.
  - destruct (exit_effects e' x None _ b p2 He' ltac:(done) Hex) as [-> _]. unfold exitAnswers. cbn [emit p_state].
    unfold launchFailed in Hlf. rewrite Hb. change (currentTxId (emit _ q)) with (currentTxId q). rewrite Hc.
    destruct (exitError x); done.
Qed.

(** A sandbox whose control-group file cannot be written is restarted, but the second
    launch hangs: the first one has left its token in [cmdReadyCh], which nobody takes. *)
Theorem restart_after_cgroup_failure_hangs e er p x p1 b p2 o :
  tinv p → p_state p = created →
  er ≠ ContractExecError → er ≠ ContractNotExistError →
  launchProcess e (LCgroupErr er) p = Ret (x, p1) → handleProcessExit e x None p1 = Ret (b, p2) →
  o = LRuns ∨ (∃ er', o = LCgroupErr er') →
  effects p1 p2 = [EStartProcess] ∧ launchProcess e o p2 = Block.
Proof.
  intros Ht Hst Hn1 Hn2 Hl Hex Ho.
  destruct p as [nm c n v u st io cmd tok upd resp ar tc pop t str [g|] rs ob]; cbn in *; [|discriminate].
  destruct tok; [discriminate|]. subst st. injection Hl as <- <-.
  unfold handleProcessExit in Hex. apply bind_Ret in Hex as (d & q & H1 & Hex).
  unfold decideExit in H1. apply bind_Ret in H1 as (? & ? & [= <- <-] & H1). cbv zeta in H1.
  rewrite !decide_False in H1 by done. cbn in H1. injection H1 as <- <-.
  apply bind_Ret in Hex as (? & q & H2 & [= <- <-]). unfold finishExit in H2. cbn in H2.
  unfold deferredPop, popTimer, mbind, M_bind, getS, modifyS, mret, M_ret in H2. cbn in H2.
  unfold tinv in Ht. destruct pop, ar, tc; cbn in *; try (by destruct_and?); injection H2 as _ <-.
  all: split; [unfold effects; cbn; by rewrite drop_app_length|].
  all: by destruct Ho as [->|[er' ->]].
Qed.

(** ** What the process manager relies on *)

(** A process's names and user change only in [ChangeSandbox], and a command that may be
    signalled exists. *)
Definition kept (p p' : Process) : Prop :=
  p_processName p' = p_processName p ∧ p_chainID p' = p_chainID p ∧
  p_contractName p' = p_contractName p ∧ p_contractVersion p' = p_contractVersion p ∧
  p_user p' = p_user p ∧
  ((p_cmdReadyCh p = true → p_cmd p = true) → p_cmdReadyCh p' = true → p_cmd p' = true).

#[local] Instance kept_preorder : PreOrder kept.
Proof. split; [by intros p; split_and!|]. intros p1 p2 p3; unfold kept. intros. destruct_and?. split_and!; try congruence. auto. Qed.

Ltac kept_tac := preserves_tac ltac:(by unfold kept; cbn; split_and!).

Lemma kept_popTimer : preserves kept popTimer.
Proof. unfold popTimer. kept_tac. Qed.
Lemma kept_startTimer : preserves kept startTimer.
Proof. unfold startTimer. kept_tac; apply kept_popTimer. Qed.
Lemma kept_deferredPop : preserves kept deferredPop.
Proof. unfold deferredPop. kept_tac; apply kept_popTimer. Qed.
Lemma kept_update st : preserves kept (updateProcessState st).
Proof. unfold updateProcessState. kept_tac; apply kept_startTimer. Qed.
Lemma kept_put m : preserves kept (PutMsg m).
Proof. unfold PutMsg. kept_tac. Qed.
Lemma kept_stream : preserves kept SetStream.
Proof. unfold SetStream. kept_tac; apply kept_update. Qed.
Lemma kept_resume : preserves kept resumeExit.
Proof. unfold resumeExit. kept_tac; apply kept_deferredPop. Qed.

Section kept.
Context (e : env).

Lemma kept_kill s : preserves kept (killProcess e s).
Proof. unfold killProcess. kept_tac. Qed.
Lemma kept_returnTxErrorResp id msg : preserves kept (returnTxErrorResp e id msg).
Proof. unfold returnTxErrorResp. kept_tac. Qed.
Lemma kept_returnSandboxExitResp er : preserves kept (returnSandboxExitResp e er).
Proof. unfold returnSandboxExitResp. kept_tac. Qed.
Lemma kept_returnBadContractResp v : preserves kept (returnBadContractResp e v).
Proof. unfold returnBadContractResp. kept_tac. Qed.
Lemma kept_timeout : preserves kept (onTimer e).
Proof. unfold onTimer, takeTimer, handleTimeout. kept_tac; first [apply kept_update|apply kept_kill]. Qed.
Lemma kept_close : preserves kept (CloseSandbox e).
Proof. unfold CloseSandbox. kept_tac; first [apply kept_update|apply kept_kill]. Qed.
Lemma kept_launch o : preserves kept (launchProcess e o).
Proof. unfold launchProcess. kept_tac. Qed.

Lemma kept_handleProcessExit x h : preserves kept (handleProcessExit e x h).
Proof.
  unfold handleProcessExit, decideExit, finishExit. kept_tac; first [apply kept_update
    |apply kept_returnTxErrorResp|apply kept_returnSandboxExitResp|apply kept_returnBadContractResp
    |apply kept_deferredPop].
Qed.

Lemma kept_listenProcess seen c : preserves kept (listenProcess e seen c).
Proof.
  unfold listenProcess, handleTxRequest, handleIdleTxRequest, handleTxResp, sendMsg.
  apply preserves_bind; [apply _|kept_tac|intros p].
  destruct seen, c; kept_tac; first [apply kept_update|apply kept_kill|apply kept_timeout
    |apply kept_returnTxErrorResp|apply kept_handleProcessExit].
Qed.
End kept.


Definition sampleEnv : env :=
  mkEnv 5 100 true openScheduler (λ _, None)
    (λ n b, if decide (n = "p1") then (if b : bool then Some (Err "busy") else None) else Some (Err "unknown"))
    (λ _, None) (λ _, None) 7 0.
Definition sampleEnvIdle : env :=
  mkEnv 5 100 true openScheduler (λ _, None)
    (λ n b, if decide (n = "p1") then (if b : bool then None else Some (Err "idle")) else Some (Err "unknown"))
    (λ _, None) (λ _, None) 7 0.
Definition sampleEnvNoSend : env :=
  mkEnv 5 100 true openScheduler (λ _, None) (λ _ _, None) (λ _, Some (Err "stream closed")) (λ _, None) 7 0.

Lemma sampleEnv_answers : answers sampleEnv PMBusy "p1".
Proof. intros n b. cbn. case_decide; destruct b; naive_solver. Qed.

Lemma env_open_samples : env_open sampleEnv ∧ env_open sampleEnvNoSend.
Proof. by repeat split. Qed.

Definition sampleProcess : Process :=
  mkProcess "p1" "chain1" "c" "v1" (Users.NewUser 10000) created true false false false [] true false false
    None false (Some (mkGroupKey "chain1" "c" "v1")) 0 [].

Definition sampleTx : TxPayload :=
  mkTxPayload (mkMessage "t1" TX_REQUEST (Some (mkCross 0 "" 0)) None
    (Some (mkRequest "c" "v1" "m" ∅ "chain1")) None "chain1" []) 0.

Definition ret_state {A} (o : outcome (A * Process)) : Process :=
  match o with Ret (_, p) => p | _ => sampleProcess end.

(** The sandbox starts, registers, is given no transaction, and the process becomes idle. *)
Definition p_launched : Process := Eval vm_compute in ret_state (launchProcess sampleEnv LRuns sampleProcess).
Definition p_ready : Process := Eval vm_compute in ret_state (SetStream p_launched).
Definition p_woken : Process := Eval vm_compute in set_updateCh false p_ready.
Definition p_fired : Process := Eval vm_compute in set_timer false true false p_ready.
Definition p_idle : Process := Eval vm_compute in ret_state (listenProcess sampleEnv ready ChTimer p_fired).

Lemma sample_system_reachable reg : reachable reg (mkSystem p_idle PMIdle "p1" LHead, false).
Proof.
  exists openScheduler, (Users.NewUser 10000), "chain1", "c", "v1", "p1", true, (mkSystem sampleProcess PMBusy "p1" LHead, false).
  split; [by eexists|].
  eapply rtc_l; [apply (step_launch reg sampleProcess PMBusy "p1" false LHead sampleEnv LRuns None p_launched); reflexivity|].
  eapply rtc_l; [apply (step_stream reg p_launched PMBusy "p1" false LHead p_ready); reflexivity|].
  eapply rtc_l; [apply (step_fire reg p_ready PMBusy "p1" false LHead); reflexivity|].
  eapply rtc_l; [apply step_head|].
  eapply rtc_l; [|apply rtc_refl].
  apply (step_listen reg p_fired PMBusy "p1" false sampleEnv ready ChTimer false p_idle); [apply sampleEnv_answers|].
  vm_compute. reflexivity.
Qed.

Lemma popTimer_never_blocks_witness :
  ∃ p', popTimer p_idle = Ret (tt, p') ∧ p_timerArmed p' = false ∧ p_timerC p' = false.
Proof. exact (popTimer_never_blocks (mkSystem p_idle PMIdle "p1" LHead, false) (sample_system_reachable false)). Defined.

Lemma process_in_sync_witness : listed p_idle PMIdle ∧ p_processName p_idle = "p1".
Proof.
  destruct (process_in_sync (mkSystem p_idle PMIdle "p1" LHead, false) (sample_system_reachable true)) as (Hl & Hn & _).
  split; [exact Hl|exact (Hn eq_refl)].
Defined.

Definition p_busy : Process := Eval vm_compute in ret_state (listenProcess sampleEnv ready (ChTx sampleTx) p_ready).

(** The sandbox dies while it executes a transaction. *)
Lemma exit_accounted_witness :
  match handleProcessExit sampleEnv None None p_busy with
  | Ret (b, p') => txAnswers (effects p_busy p') = ["t1"] ∧
      exitMsgs (effects p_busy p') = [mkSandboxExit "chain1" "c" "v1" "p1" SandboxExitDefaultError] ∧
      restartsOf (effects p_busy p') = [] ∧ b = true
  | _ => False
  end.
Proof.
  destruct (handleProcessExit sampleEnv None None p_busy) as [[b p']| |] eqn:E.
  - exact (exit_accounted sampleEnv None None p_busy b p' (proj1 env_open_samples) ltac:(intros tx [=]) E).
  - vm_compute in E. discriminate E.
  - vm_compute in E. discriminate E.
Defined.

Lemma bad_contract_version_witness :
  ∃ p2, handleProcessExit sampleEnv (Some (mkExitErr (Some ContractNotExistError) "7")) (Some sampleTx)
          (set_cmd true false sampleProcess) = Ret (true, p2) ∧
    bc_ContractFileVersion <$> badMsgs (effects (set_cmd true false sampleProcess) p2) = [7].
Proof.
  destruct (bad_contract_version sampleEnv sampleEnv true sampleTx sampleProcess
    (Some (mkExitErr (Some ContractNotExistError) "7")) (set_cmd true false sampleProcess)
    (proj1 env_open_samples) eq_refl eq_refl eq_refl) as (p2 & E & Hv & _); [vm_compute; reflexivity|].
  exists p2. split; [exact E|exact Hv].
Defined.

Definition p_sendFailed : Process :=
  Eval vm_compute in ret_state (listenProcess sampleEnvNoSend ready (ChTx sampleTx) p_ready).

Lemma failed_send_answered_twice_witness :
  match handleProcessExit sampleEnv None None p_sendFailed with
  | Ret (b, p2) => txAnswers (effects p_ready p_sendFailed) = ["t1"] ∧ txAnswers (effects p_sendFailed p2) = ["t1"]
  | _ => False
  end.
Proof.
  destruct (handleProcessExit sampleEnv None None p_sendFailed) as [[b p2]| |] eqn:E.
  - refine (failed_send_answered_twice sampleEnvNoSend sampleEnv sampleTx p_ready None p_sendFailed b p2
      (proj2 env_open_samples) (proj1 env_open_samples) eq_refl eq_refl eq_refl _ _ _ _ eq_refl E).
    + vm_compute. discriminate.
    + vm_compute. discriminate.
    + done.
    + vm_compute. reflexivity.
  - vm_compute in E. discriminate E.
  - vm_compute in E. discriminate E.
Defined.

Lemma restart_after_cgroup_failure_hangs_witness :
  match launchProcess sampleEnv (LCgroupErr (OtherExitError "cgroup")) sampleProcess with
  | Ret (x, p1) =>
    match handleProcessExit sampleEnv x None p1 with
    | Ret (_, p2) => launchProcess sampleEnv LRuns p2 = Block
    | _ => False
    end
  | _ => False
  end.
Proof.
  destruct (launchProcess sampleEnv (LCgroupErr (OtherExitError "cgroup")) sampleProcess) as [[x p1]| |] eqn:E1.
  - destruct (handleProcessExit sampleEnv x None p1) as [[b p2]| |] eqn:E2.
    + exact (proj2 (restart_after_cgroup_failure_hangs sampleEnv (OtherExitError "cgroup") sampleProcess x p1 b p2
        LRuns eq_refl eq_refl ltac:(done) ltac:(done) E1 E2 (or_introl eq_refl))).
    + vm_compute in E1. injection E1 as <- <-. vm_compute in E2. discriminate E2.
    + vm_compute in E1. injection E1 as <- <-. vm_compute in E2. discriminate E2.
  - vm_compute in E1. discriminate E1.
  - vm_compute in E1. discriminate E1.
Defined.
End Process.
