(* ===== verification/ProcessManager.v ===== *)
(** * vm_mgr/module/core/process_manager.go

    The process manager keeps the sandbox processes of one kind (original or cross): those
    that are busy, those that are idle in the order they became so, and the same processes by
    contract. It creates processes up to a limit, hands idle ones over to other contracts, and
    keeps the request groups that wait. Its handlers run under the manager's lock and start
    goroutines that they join; a goroutine is a local state with one atomic step per critical
    section, and a handler takes the schedule of its goroutines as an argument. The processes
    are shared objects: the manager's maps hold pointers into [w_heap]. *)

From S2P Require Import Prelude Messages Interfaces EngineUtils FixedQueue Users Process.

Module ProcessManager.

Definition _processManagerEventChSize : Z := 50000.

(** What the manager does to its surroundings. *)
Inductive effect :=
| EReady (key : RequestGroupKey) (m : GetProcessRespMsg)   (* group.PutMsg *)
| EClose (key : RequestGroupKey)                           (* requestScheduler.PutMsg *)
| EStart (i : nat).                                        (* go process.Start() *)

Section manager.
Context `{LI : LinkedHashMap string nat} `{LW : LinkedHashMap RequestGroupKey bool}.

(** [ProcessManager]. [pm_release n] is [int(releaseRate * float64(n))]; the two allocation
    channels carry no data, so they are counters; the timer is its expiry in the channel and
    whether it runs. *)
Record ProcessManager := mkPM {
  pm_maxProcessNum : Z;
  pm_release : Z → Z;
  pm_isOrigManager : bool;
  pm_idleProcesses : lhm string nat;
  pm_busyProcesses : gmap string nat;
  pm_processGroups : gmap string (gmap string nat);
  pm_waitingRequestGroups : lhm RequestGroupKey bool;
  pm_eventCh : list AnyMsg;
  pm_allocateIdleCh : nat;
  pm_allocateNewCh : nat;
  pm_timerArmed : bool;
  pm_timerC : bool;
  pm_scheduler : bool;
  pm_processCnt : Z;
  pm_outbox : list effect;
}.

(** The manager, the users it shares with the other manager, and the process objects. *)
Record World := mkW {
  w_pm : ProcessManager;
  w_users : Users.UserManager;
  w_heap : list Process.Process;
}.

Definition on_pm (f : ProcessManager → ProcessManager) (w : World) : World :=
  mkW (f (w_pm w)) (w_users w) (w_heap w).

Definition set_idle l s := mkPM (pm_maxProcessNum s) (pm_release s) (pm_isOrigManager s) l (pm_busyProcesses s)
  (pm_processGroups s) (pm_waitingRequestGroups s) (pm_eventCh s) (pm_allocateIdleCh s) (pm_allocateNewCh s)
  (pm_timerArmed s) (pm_timerC s) (pm_scheduler s) (pm_processCnt s) (pm_outbox s).
Definition set_busy l s := mkPM (pm_maxProcessNum s) (pm_release s) (pm_isOrigManager s) (pm_idleProcesses s) l
  (pm_processGroups s) (pm_waitingRequestGroups s) (pm_eventCh s) (pm_allocateIdleCh s) (pm_allocateNewCh s)
  (pm_timerArmed s) (pm_timerC s) (pm_scheduler s) (pm_processCnt s) (pm_outbox s).
Definition set_groups l s := mkPM (pm_maxProcessNum s) (pm_release s) (pm_isOrigManager s) (pm_idleProcesses s)
  (pm_busyProcesses s) l (pm_waitingRequestGroups s) (pm_eventCh s) (pm_allocateIdleCh s) (pm_allocateNewCh s)
  (pm_timerArmed s) (pm_timerC s) (pm_scheduler s) (pm_processCnt s) (pm_outbox s).
Definition set_waiting l s := mkPM (pm_maxProcessNum s) (pm_release s) (pm_isOrigManager s) (pm_idleProcesses s)
  (pm_busyProcesses s) (pm_processGroups s) l (pm_eventCh s) (pm_allocateIdleCh s) (pm_allocateNewCh s)
  (pm_timerArmed s) (pm_timerC s) (pm_scheduler s) (pm_processCnt s) (pm_outbox s).
Definition set_chans ev i n s := mkPM (pm_maxProcessNum s) (pm_release s) (pm_isOrigManager s) (pm_idleProcesses s)
  (pm_busyProcesses s) (pm_processGroups s) (pm_waitingRequestGroups s) ev i n
  (pm_timerArmed s) (pm_timerC s) (pm_scheduler s) (pm_processCnt s) (pm_outbox s).
Definition set_clean a c s := mkPM (pm_maxProcessNum s) (pm_release s) (pm_isOrigManager s) (pm_idleProcesses s)
  (pm_busyProcesses s) (pm_processGroups s) (pm_waitingRequestGroups s) (pm_eventCh s) (pm_allocateIdleCh s)
  (pm_allocateNewCh s) a c (pm_scheduler s) (pm_processCnt s) (pm_outbox s).
Definition SetScheduler s := mkPM (pm_maxProcessNum s) (pm_release s) (pm_isOrigManager s) (pm_idleProcesses s)
  (pm_busyProcesses s) (pm_processGroups s) (pm_waitingRequestGroups s) (pm_eventCh s) (pm_allocateIdleCh s)
  (pm_allocateNewCh s) (pm_timerArmed s) (pm_timerC s) true (pm_processCnt s) (pm_outbox s).
Definition set_cnt k s := mkPM (pm_maxProcessNum s) (pm_release s) (pm_isOrigManager s) (pm_idleProcesses s)
  (pm_busyProcesses s) (pm_processGroups s) (pm_waitingRequestGroups s) (pm_eventCh s) (pm_allocateIdleCh s)
  (pm_allocateNewCh s) (pm_timerArmed s) (pm_timerC s) (pm_scheduler s) k (pm_outbox s).
Definition emit x s := mkPM (pm_maxProcessNum s) (pm_release s) (pm_isOrigManager s) (pm_idleProcesses s)
  (pm_busyProcesses s) (pm_processGroups s) (pm_waitingRequestGroups s) (pm_eventCh s) (pm_allocateIdleCh s)
  (pm_allocateNewCh s) (pm_timerArmed s) (pm_timerC s) (pm_scheduler s) (pm_processCnt s) (pm_outbox s ++ [x]).

(** [NewProcessManager(maxProcessNum, rate, isOrigManager, userManager)]. *)
Definition NewProcessManager (maxProcessNum : Z) (rate : Z → Z) (isOrigManager : bool) : ProcessManager :=
  mkPM maxProcessNum rate isOrigManager lhm_new ∅ ∅ lhm_new [] 0 0 true false false 0 [].

(** [PutMsg(msg)]. *)
Definition PutMsg (msg : AnyMsg) : M World (option gerr) :=
  match msg with
  | AnyGetProcessReq _ | AnySandboxExit _ =>
    w ← getS;
    let s := w_pm w in
    if _processManagerEventChSize <=? Z.of_nat (length (pm_eventCh s)) then block
    else
      modifyS (on_pm (λ s, set_chans (pm_eventCh s ++ [msg]) (pm_allocateIdleCh s) (pm_allocateNewCh s) s));;
      mret None
  | _ => mret (Some (Err "unknown msg type"))
  end.

(** ** Look-ups *)

Definition getProcessByName (s : ProcessManager) (processName : string) : option nat :=
  match lhm_get (pm_idleProcesses s) processName with
  | Some i => Some i
  | None => pm_busyProcesses s !! processName
  end.

Definition GetProcessByName (processName : string) (w : World) : option nat :=
  getProcessByName (w_pm w) processName.

Definition GetProcessNumByContractKey (chainID contractName contractVersion : string) (w : World) : Z :=
  match pm_processGroups (w_pm w) !! contractKey chainID contractName contractVersion with
  | Some g => Z.of_nat (size g)
  | None => 0
  end.

Definition readyOrBusy (w : World) (i : nat) : bool :=
  match w_heap w !! i with Some p => Process.IsReadyOrBusy p | None => false end.

Definition GetReadyOrBusyProcessNum (chainID contractName contractVersion : string) (w : World) : Z :=
  match pm_processGroups (w_pm w) !! contractKey chainID contractName contractVersion with
  | Some g =>
    Z.of_nat (length (filter (λ i, readyOrBusy w i = true) (map_to_list g).*2))
  | None => 0
  end.

Definition getAvailableProcessNum (s : ProcessManager) : Z :=
  pm_maxProcessNum s - Z.of_nat (lhm_size (pm_idleProcesses s)) - Z.of_nat (size (pm_busyProcesses s)).

(** [peekIdleProcesses(num)], [peekWaitingRequestGroups(num)]: [None] is the error. *)
Definition peekIdleProcesses (s : ProcessManager) (num : nat) : option (list nat) :=
  if (lhm_size (pm_idleProcesses s) <? num)%nat then None
  else Some (take num (lhm_list (pm_idleProcesses s)).*2).

Definition peekWaitingRequestGroups (s : ProcessManager) (num : nat) : option (list RequestGroupKey) :=
  if (lhm_size (pm_waitingRequestGroups s) <? num)%nat then None
  else Some (take num (lhm_list (pm_waitingRequestGroups s)).*1).

Section handlers.
Context (e : Process.env).

(** [sendProcessReadyResp(processNum, ...)]: a scheduler that was not set is a nil
    dereference. *)
Definition sendProcessReadyResp (processNum : Z) (chainID contractName contractVersion : string) :
    M World (option gerr) :=
  w ← getS;
  if negb (pm_scheduler (w_pm w)) then panic
  else if negb (@sched_GetRequestGroup (Process.e_sched e) chainID contractName contractVersion)
  then mret (Some (Err "failed to get request group"))
  else
    let m := mkGetProcessResp (pm_isOrigManager (w_pm w)) processNum in
    match @group_PutMsg (Process.e_sched e) (AnyGetProcessResp m) with
    | Some er => mret (Some (Wrap "failed to put msg into request group eventCh" er))
    | None => modifyS (on_pm (emit (EReady (mkGroupKey chainID contractName contractVersion) m)));; mret None
    end.

(** [removeFromWaitingGroup(...)]. *)
Definition removeFromWaitingGroup (chainID contractName contractVersion : string) : M World unit :=
  modifyS (on_pm (λ s, set_waiting
    (lhm_remove (pm_waitingRequestGroups s) (mkGroupKey chainID contractName contractVersion)) s));;
  sendProcessReadyResp 0 chainID contractName contractVersion;;
  mret tt.

(** [addToProcessGroup(process, ...)]. *)
Definition addToProcessGroup (i : nat) (chainID contractName contractVersion processName : string) : M World unit :=
  let groupKey := contractKey chainID contractName contractVersion in
  modifyS (on_pm (λ s, set_groups
    (<[groupKey := <[processName := i]> (default ∅ (pm_processGroups s !! groupKey))]> (pm_processGroups s)) s)).

(** [removeFromProcessGroup(...)]. *)
Definition removeFromProcessGroup (chainID contractName contractVersion processName : string) : M World unit :=
  let groupKey := contractKey chainID contractName contractVersion in
  w ← getS;
  match pm_processGroups (w_pm w) !! groupKey with
  | None => mret tt
  | Some g =>
    let g' := delete processName g in
    modifyS (on_pm (λ s, set_groups (<[groupKey := g']> (pm_processGroups s)) s));;
    if decide (size g' = 0%nat) then
      modifyS (on_pm (λ s, set_groups (delete groupKey (pm_processGroups s)) s));;
      removeFromWaitingGroup chainID contractName contractVersion
    else mret tt
  end.

(** [addProcessToIdle(processName, process)]: the send on [allocateIdleCh] waits when the
    channel is full. *)
Definition addProcessToIdle (processName : string) (i : nat) : M World unit :=
  modifyS (on_pm (λ s, set_idle (lhm_put (pm_idleProcesses s) processName i) s));;
  w ← getS;
  p ← deref (w_heap w !! i);
  let key := mkGroupKey (Process.p_chainID p) (Process.p_contractName p) (Process.p_contractVersion p) in
  (match lhm_get (pm_waitingRequestGroups (w_pm w)) key with
   | Some _ => removeFromWaitingGroup (gk_ChainID key) (gk_ContractName key) (gk_ContractVersion key)
   | None => mret tt
   end);;
  w ← getS;
  let s := w_pm w in
  if (0 <? lhm_size (pm_waitingRequestGroups s))%nat then
    if _processManagerEventChSize <=? Z.of_nat (pm_allocateIdleCh s) then block
    else modifyS (on_pm (λ s, set_chans (pm_eventCh s) (S (pm_allocateIdleCh s)) (pm_allocateNewCh s) s))
  else mret tt.

Definition addProcessToCache (chainID contractName contractVersion processName : string) (i : nat)
    (isBusy : bool) : M World unit :=
  (if isBusy then modifyS (on_pm (λ s, set_busy (<[processName := i]> (pm_busyProcesses s)) s))
   else addProcessToIdle processName i);;
  addToProcessGroup i chainID contractName contractVersion processName.

Definition removeProcessFromCache (chainID contractName contractVersion processName : string) : M World unit :=
  modifyS (on_pm (λ s, set_busy (delete processName (pm_busyProcesses s)) s));;
  modifyS (on_pm (λ s, set_idle (lhm_remove (pm_idleProcesses s) processName) s));;
  removeFromProcessGroup chainID contractName contractVersion processName.

(** [ChangeProcessState(processName, toBusy)], called by the processes. *)
Definition ChangeProcessState (processName : string) (toBusy : bool) : M World (option gerr) :=
  w ← getS;
  let s := w_pm w in
  if toBusy then
    match lhm_get (pm_idleProcesses s) processName with
    | None => mret (Some (Err "process not exist in idle processes"))
    | Some i =>
      modifyS (on_pm (λ s, set_busy (<[processName := i]> (pm_busyProcesses s)) s));;
      modifyS (on_pm (λ s, set_idle (lhm_remove (pm_idleProcesses s) processName) s));;
      mret None
    end
  else
    match pm_busyProcesses s !! processName with
    | None => mret (Some (Err "process not exist in busy processes"))
    | Some i =>
      addProcessToIdle processName i;;
      modifyS (on_pm (λ s, set_busy (delete processName (pm_busyProcesses s)) s));;
      mret None
    end.

(** [generateProcessName(...)]. *)
Definition generateProcessName (chainID contractName contractVersion : string) : M World string :=
  w ← getS;
  let localIndex := GetProcessNumByContractKey chainID contractName contractVersion w in
  modifyS (on_pm (λ s, set_cnt (u64_add (pm_processCnt s) 1) s));;
  w ← getS;
  mret (ConstructProcessName chainID contractName contractVersion localIndex (pm_processCnt (w_pm w))
          (pm_isOrigManager (w_pm w))).

(** [createNewProcess(...)]: the pointer of the new process or an error. A goroutine that finds
    no free user waits, and tries again when it is scheduled. *)
Definition createNewProcess (chainID contractName contractVersion processName : string) :
    M World (nat + gerr) :=
  w ← getS;
  if negb (pm_scheduler (w_pm w)) then mret (inr (Err "request scheduler has not been initialized"))
  else
    let '(um, r) := Users.GetAvailableUser 0 (w_users w) in
    match r with
    | None => block
    | Some (inr er) => mret (inr er)
    | Some (inl user) =>
      p ← deref (Process.NewProcess (Process.e_sched e) user chainID contractName contractVersion processName
                   (pm_isOrigManager (w_pm w)));
      let i := length (w_heap w) in
      modifyS (λ w, mkW (emit (EStart i) (w_pm w)) um (w_heap w ++ [p]));;
      mret (inl i)
    end.

(** [releaseUser(processName)]: the user of a process that is not cached is a nil
    dereference. *)
Definition releaseUser (processName : string) : M World (option gerr) :=
  w ← getS;
  i ← deref (getProcessByName (w_pm w) processName);
  p ← deref (w_heap w !! i);
  let '(um, _, er) := Users.FreeUser (w_users w) (Process.p_user p) in
  modifyS (λ w, mkW (w_pm w) um (w_heap w));;
  mret (Wrap "failed to free user" <$> er).

Definition closeSandbox (chainID contractName contractVersion processName : string) : M World (option gerr) :=
  er ← releaseUser processName;
  match er with
  | Some x => mret (Some (Wrap "failed to release user" x))
  | None => removeProcessFromCache chainID contractName contractVersion processName;; mret None
  end.

(** [closeRequestGroup(...)]; its only call is commented out. *)
Definition closeRequestGroup (chainID contractName contractVersion : string) : M World (option gerr) :=
  w ← getS;
  if negb (pm_scheduler (w_pm w)) then panic
  else
    let k := mkGroupKey chainID contractName contractVersion in
    match @sched_PutMsg (Process.e_sched e) (AnyGroupKey k) with
    | Some er => mret (Some er)
    | None => modifyS (on_pm (emit (EClose k)));; mret None
    end.

(** [startTimer()]: the receive does not wait, it is guarded by the length of the channel. *)
Definition startTimer : M World unit :=
  w ← getS;
  let s := w_pm w in
  let c := if negb (pm_timerArmed s) && pm_timerC s then false else pm_timerC s in
  modifyS (on_pm (set_clean true c)).

(** The send on [allocateNewCh]. *)
Definition notifyNew : M World unit :=
  w ← getS;
  let s := w_pm w in
  if _processManagerEventChSize <=? Z.of_nat (pm_allocateNewCh s) then block
  else modifyS (on_pm (λ s, set_chans (pm_eventCh s) (pm_allocateIdleCh s) (S (pm_allocateNewCh s)) s)).

(** A call of a method of the process at [i], under that process's lock. *)
Definition onProcess {A} (i : nat) (m : M Process.Process A) : M World A := λ w,
  match w_heap w !! i with
  | None => Panic
  | Some p =>
    match m p with
    | Ret (a, p') => Ret (a, mkW (w_pm w) (w_users w) (<[i := p']> (w_heap w)))
    | Panic => Panic
    | Block => Block
    end
  end.

(** ** The goroutines of the handlers *)

(** The names a goroutine reads from the process it takes over. *)
Record ident := mkIdent { id_chain : string; id_name : string; id_version : string; id_process : string }.

Definition identOf (p : Process.Process) : ident :=
  mkIdent (Process.p_chainID p) (Process.p_contractName p) (Process.p_contractVersion p) (Process.p_processName p).

(** Where a goroutine is. The key is the contract it works for. *)
Inductive gor :=
| GCreate (k : RequestGroupKey)
| GNamed (k : RequestGroupKey) (name : string)
| GAdd (k : RequestGroupKey) (name : string) (i : nat)
| GTake (k : RequestGroupKey) (i : nat)
| GChange (k : RequestGroupKey) (i : nat) (old : ident) (name : string)
| GCommit (k : RequestGroupKey) (i : nat) (old : ident) (name : string)
| GClose (i : nat)
| GClosed (i : nat)
| GProcess (acts : list (nat * (Process.Process → Process.Process)))
| GDone.

(** [GProcess] stands for the processes, which go on with their own work (but not past the
    manager's lock) while a handler waits for its goroutines. *)
Definition gor_done (t : gor) : bool := match t with GDone | GProcess [] => true | _ => false end.

Definition processAct (acts : list (nat * (Process.Process → Process.Process))) : M World gor :=
  match acts with
  | [] => mret GDone
  | (i, f) :: acts' =>
    modifyS (λ w, match w_heap w !! i with
                  | Some p => mkW (w_pm w) (w_users w) (<[i := f p]> (w_heap w))
                  | None => w
                  end);;
    mret (GProcess acts')
  end.

Definition newName (k : RequestGroupKey) : M World string :=
  generateProcessName (gk_ChainID k) (gk_ContractName k) (gk_ContractVersion k).

Definition create (k : RequestGroupKey) (name : string) : M World (nat + gerr) :=
  createNewProcess (gk_ChainID k) (gk_ContractName k) (gk_ContractVersion k) name.

Definition changeSandbox (k : RequestGroupKey) (i : nat) (name : string) : M World (option gerr) :=
  onProcess i (Process.ChangeSandbox e (gk_ChainID k) (gk_ContractName k) (gk_ContractVersion k) name).

Definition cacheNew (k : RequestGroupKey) (name : string) (i : nat) : M World unit :=
  addProcessToCache (gk_ChainID k) (gk_ContractName k) (gk_ContractVersion k) name i true.

Definition uncache (o : ident) : M World unit :=
  removeProcessFromCache (id_chain o) (id_name o) (id_version o) (id_process o).

Definition unwait (k : RequestGroupKey) : M World unit :=
  removeFromWaitingGroup (gk_ChainID k) (gk_ContractName k) (gk_ContractVersion k).

Definition ready (n : Z) (k : RequestGroupKey) : M World (option gerr) :=
  sendProcessReadyResp n (gk_ChainID k) (gk_ContractName k) (gk_ContractVersion k).

(** The test "meet the same idle process", which does not compare the chains. *)
Definition sameContract (k : RequestGroupKey) (o : ident) : bool :=
  String.eqb (gk_ContractName k) (id_name o) && String.eqb (gk_ContractVersion k) (id_version o).

Definition identAt (i : nat) : M World ident :=
  w ← getS; p ← deref (w_heap w !! i); mret (identOf p).

(** A variable of the handler that its goroutines share, next to the world. *)
Definition lift {A} (m : M World A) : M (World * Z) A := λ '(w, n),
  match m w with Ret (a, w') => Ret (a, (w', n)) | Panic => Panic | Block => Block end.

Definition addZ (d : Z) : M (World * Z) unit := modifyS (λ '(w, n), (w, n + d)).

(** The goroutines of [handleGetProcessReq] that create processes; the shared variable is
    [needProcessNum]. *)
Definition createStep (t : gor) : M (World * Z) gor :=
  match t with
  | GCreate k => name ← lift (newName k); mret (GNamed k name)
  | GNamed k name =>
    r ← lift (create k name);
    match r with inr _ => mret GDone | inl i => mret (GAdd k name i) end
  | GAdd k name i => addZ (-1);; lift (cacheNew k name i);; mret GDone
  | GProcess acts => lift (processAct acts)
  | _ => mret GDone
  end.

(** Those that take over idle processes. *)
Definition takeStep (t : gor) : M (World * Z) gor :=
  match t with
  | GTake k i =>
    o ← lift (identAt i);
    if sameContract k o then addZ (-1);; mret GDone
    else name ← lift (newName k); mret (GChange k i o name)
  | GChange k i o name =>
    er ← lift (changeSandbox k i name);
    match er with Some _ => mret GDone | None => mret (GCommit k i o name) end
  | GCommit k i o name =>
    addZ (-1);; lift (uncache o);; lift (cacheNew k name i);; mret GDone
  | GProcess acts => lift (processAct acts)
  | _ => mret GDone
  end.

(** Those of [handleCleanIdleProcesses]; the shared variable is [actualNum]. *)
Definition cleanStep (t : gor) : M (World * Z) gor :=
  match t with
  | GClose i =>
    er ← lift (onProcess i (Process.CloseSandbox e));
    match er with Some _ => mret GDone | None => mret (GClosed i) end
  | GClosed i =>
    addZ 1;;
    o ← lift (identAt i);
    lift (closeSandbox (id_chain o) (id_name o) (id_version o) (id_process o));; mret GDone
  | GProcess acts => lift (processAct acts)
  | _ => mret GDone
  end.

(** Those of [handleAllocateIdleProcesses]. *)
Definition idleStep (t : gor) : M (World * Z) gor :=
  match t with
  | GTake k i =>
    o ← lift (identAt i);
    if sameContract k o then lift (unwait k);; lift (ready 0 k);; mret GDone
    else name ← lift (newName k); mret (GChange k i o name)
  | GChange k i o name =>
    er ← lift (changeSandbox k i name);
    match er with
    | Some _ => mret GDone
    | None =>
      er ← lift (ready 1 k);
      match er with Some _ => mret GDone | None => mret (GCommit k i o name) end
    end
  | GCommit k i o name =>
    lift (unwait k);; lift (uncache o);; lift (cacheNew k name i);; mret GDone
  | GProcess acts => lift (processAct acts)
  | _ => mret GDone
  end.

(** Those of [handleAllocateNewProcesses]. *)
Definition newStep (t : gor) : M (World * Z) gor :=
  match t with
  | GCreate k =>
    er ← lift (ready 1 k);
    match er with
    | Some _ => mret GDone
    | None => name ← lift (newName k); mret (GNamed k name)
    end
  | GNamed k name =>
    r ← lift (create k name);
    match r with inr _ => mret GDone | inl i => mret (GAdd k name i) end
  | GAdd k name i => lift (unwait k);; lift (cacheNew k name i);; mret GDone
  | GProcess acts => lift (processAct acts)
  | _ => mret GDone
  end.

(** What runs beside a handler: the schedule of its goroutines and the steps of the processes. *)
Record conc := mkConc {
  c_sched : list nat;
  c_acts : list (nat * (Process.Process → Process.Process));
}.

(** [wg.Add], the goroutines, [wg.Wait]; the result is the shared variable. *)
Definition goroutines (step : gor → M (World * Z) gor) (c : conc) (ts : list gor) (n : Z) : M World Z := λ w,
  match run_group step gor_done (c_sched c) (ts ++ [GProcess (c_acts c)]) (w, n) with
  | Ret (_, (w', n')) => Ret (n', w')
  | Panic => Panic
  | Block => Block
  end.

(** ** The handlers of the loop *)

(** [wg.Add] panics for a negative number. *)
Definition handleGetProcessReq (c1 c2 : conc) (msg : GetProcessReqMsg) : M World (option gerr) :=
  let k := mkGroupKey (gp_ChainID msg) (gp_ContractName msg) (gp_ContractVersion msg) in
  if gp_ProcessNum msg =? 0 then unwait k;; mret None
  else
    w ← getS;
    let availableProcessNum := getAvailableProcessNum (w_pm w) in
    need ← (if 0 <? availableProcessNum
            then let newProcessNum := Min (gp_ProcessNum msg) availableProcessNum in
                 if newProcessNum <? 0 then panic else goroutines createStep c1 (replicate (Z.to_nat newProcessNum) (GCreate k)) (gp_ProcessNum msg)
            else mret (gp_ProcessNum msg));
    w ← getS;
    let idleProcessesSize := Z.of_nat (lhm_size (pm_idleProcesses (w_pm w))) in
    r ← (if (0 <? need) && (0 <? idleProcessesSize)
         then match peekIdleProcesses (w_pm w) (Z.to_nat (Min need idleProcessesSize)) with
              | None => mret (inr (Err "failed to peek idle processes"))
              | Some l => n ← goroutines takeStep c2 (GTake k <$> l) need; mret (inl n)
              end
         else mret (inl need));
    match r with
    | inr er => mret (Some er)
    | inl need =>
      if gp_ProcessNum msg =? need then
        w ← getS;
        match lhm_get (pm_waitingRequestGroups (w_pm w)) k with
        | Some _ => mret None
        | None => modifyS (on_pm (λ s, set_waiting (lhm_put (pm_waitingRequestGroups s) k true) s));; mret None
        end
      else
        er ← ready (gp_ProcessNum msg - need) k;
        mret (Wrap "failed to send process ready resp" <$> er)
    end.

Definition handleSandboxExitMsg (msg : SandboxExitMsg) : M World (option gerr) :=
  er ← closeSandbox (se_ChainID msg) (se_ContractName msg) (se_ContractVersion msg) (se_ProcessName msg);
  match er with
  | Some x => mret (Some (Wrap "failed to close sandbox" x))
  | None => notifyNew;; mret None
  end.

(** The early return does not restart the timer. A failed peek would leave an empty slice, so
    that the first index into it panics. *)
Definition handleCleanIdleProcesses (c : conc) : M World unit :=
  w ← getS;
  let s := w_pm w in
  let releaseNum := pm_release s (pm_maxProcessNum s) - getAvailableProcessNum s in
  let releaseNum := Min releaseNum (Z.of_nat (lhm_size (pm_idleProcesses s))) in
  if releaseNum <=? 0 then mret tt
  else
    l ← deref (peekIdleProcesses s (Z.to_nat releaseNum));
    actualNum ← goroutines cleanStep c (GClose <$> l) 0;
    (if 0 <? actualNum then notifyNew else mret tt);;
    startTimer.

Definition handleAllocateIdleProcesses (c : conc) : M World (option gerr) :=
  w ← getS;
  let s := w_pm w in
  let allocateNum := Min (Z.of_nat (lhm_size (pm_waitingRequestGroups s)))
                         (Z.of_nat (lhm_size (pm_idleProcesses s))) in
  if allocateNum =? 0 then mret None
  else
    l ← deref (peekIdleProcesses s (Z.to_nat allocateNum));
    ks ← deref (peekWaitingRequestGroups s (Z.to_nat allocateNum));
    goroutines idleStep c (zip_with GTake ks l) 0;;
    mret None.

Definition handleAllocateNewProcesses (c : conc) : M World (option gerr) :=
  w ← getS;
  let s := w_pm w in
  let allocateNum := Min (Z.of_nat (lhm_size (pm_waitingRequestGroups s))) (getAvailableProcessNum s) in
  if allocateNum =? 0 then mret None
  else if allocateNum <? 0 then panic
  else
    ks ← deref (peekWaitingRequestGroups s (Z.to_nat allocateNum));
    goroutines newStep c (GCreate <$> ks) 0;;
    mret None.

(** A round of the loop of [Start]: the channel that the [select] takes. *)
Inductive select := SelEvent | SelClean | SelIdle | SelNew.

Definition loopStep (sel : select) (c1 c2 : conc) : M World unit :=
  w ← getS;
  let s := w_pm w in
  match sel with
  | SelEvent =>
    match pm_eventCh s with
    | [] => block
    | msg :: rest =>
      modifyS (on_pm (λ s, set_chans rest (pm_allocateIdleCh s) (pm_allocateNewCh s) s));;
      match msg with
      | AnyGetProcessReq m => handleGetProcessReq c1 c2 m;; mret tt
      | AnySandboxExit m => handleSandboxExitMsg m;; mret tt
      | _ => mret tt
      end
    end
  | SelClean =>
    if pm_timerC s then modifyS (on_pm (λ s, set_clean (pm_timerArmed s) false s));; handleCleanIdleProcesses c1
    else block
  | SelIdle =>
    match pm_allocateIdleCh s with
    | O => block
    | S n => modifyS (on_pm (λ s, set_chans (pm_eventCh s) n (pm_allocateNewCh s) s));; handleAllocateIdleProcesses c1;; mret tt
    end
  | SelNew =>
    match pm_allocateNewCh s with
    | O => block
    | S n => modifyS (on_pm (λ s, set_chans (pm_eventCh s) (pm_allocateIdleCh s) n s));; handleAllocateNewProcesses c1;; mret tt
    end
  end.
End handlers.

(** ** The invariant of the caches *)

Context `{!LinkedHashMapLaws string nat} `{!LinkedHashMapLaws RequestGroupKey bool}.

(** The part of the manager the caches are made of. *)
Definition coreOf (s : ProcessManager) :=
  (pm_idleProcesses s, pm_busyProcesses s, pm_processGroups s, pm_processCnt s, pm_maxProcessNum s,
   pm_isOrigManager s, pm_scheduler s).

(** A step that leaves the caches, the users and the processes alone. *)
Definition quiet (w w' : World) : Prop :=
  coreOf (w_pm w') = coreOf (w_pm w) ∧ w_users w' = w_users w ∧ w_heap w' = w_heap w ∧
  pm_eventCh (w_pm w') = pm_eventCh (w_pm w).

#[local] Instance quiet_preorder : PreOrder quiet.
Proof.
  split; [by intros w|]. intros w1 w2 w3 (H1&H2&H3&H3') (H4&H5&H6&H6'). split_and!; congruence.
Qed.

Ltac quiet_tac := preserves_tac ltac:(done).

Lemma quiet_ready e n c cn v : preserves quiet (sendProcessReadyResp e n c cn v).
Proof. unfold sendProcessReadyResp. quiet_tac. Qed.
Lemma quiet_unwait e c n v : preserves quiet (removeFromWaitingGroup e c n v).
Proof. unfold removeFromWaitingGroup. quiet_tac; apply quiet_ready. Qed.
Lemma quiet_notifyNew : preserves quiet notifyNew.
Proof. unfold notifyNew. quiet_tac. Qed.
Lemma quiet_startTimer : preserves quiet startTimer.
Proof. unfold startTimer. quiet_tac. Qed.

Definition okey (o : ident) : string := contractKey (id_chain o) (id_name o) (id_version o).

(** The names the manager has given so far. *)
Definition issued (s : ProcessManager) (name : string) : Prop :=
  ∃ c n v l o, name = ConstructProcessName c n v l o (pm_isOrigManager s) ∧ o ≤ pm_processCnt s.

Definition cachedPtrs (s : ProcessManager) : list nat :=
  (lhm_list (pm_idleProcesses s)).*2 ++ (map_to_list (pm_busyProcesses s)).*2.

(** The caches agree with each other and with the names [idf] that the manager has on record
    for the processes. *)
Record pmwf (s : ProcessManager) (idf : nat → option ident) : Prop := {
  wf_nodup : NoDup (lhm_list (pm_idleProcesses s)).*1;
  wf_disj k : k ∈ (lhm_list (pm_idleProcesses s)).*1 → pm_busyProcesses s !! k = None;
  wf_named k i : getProcessByName s k = Some i → ∃ o, idf i = Some o ∧ id_process o = k;
  wf_groups gk k i : (∃ g, pm_processGroups s !! gk = Some g ∧ g !! k = Some i) ↔
    getProcessByName s k = Some i ∧ ∃ o, idf i = Some o ∧ gk = okey o;
  wf_nonempty gk g : pm_processGroups s !! gk = Some g → g ≠ ∅;
  wf_issued k i : getProcessByName s k = Some i → issued s k;
}.

Lemma cached_core s s' : coreOf s' = coreOf s → getProcessByName s' = getProcessByName s.
Proof. intros E. injection E as E1 E2 _ _ _ _ _. unfold getProcessByName. by rewrite E1, E2. Qed.

Lemma pmwf_core s s' idf : coreOf s' = coreOf s → pmwf s idf → pmwf s' idf.
Proof.
  intros E [H1 H2 H3 H4 H5 H6]. pose proof (cached_core _ _ E) as Ec. injection E as E1 E2 E3 E4 E5 E6 E7.
  split; rewrite ?E1, ?E2, ?E3, ?Ec; try done. intros k i Hk. unfold issued. rewrite E6, E4. by apply (H6 k i).
Qed.

Lemma pmwf_ext s idf idf' :
  (∀ k i, getProcessByName s k = Some i → idf' i = idf i) → pmwf s idf → pmwf s idf'.
Proof.
  intros E [H1 H2 H3 H4 H5 H6]. split; try done.
  - intros k i Hk. rewrite (E _ _ Hk). by apply H3.
  - intros gk k i. rewrite H4. split; intros [Hk Ho]; (split; [done|]); [by rewrite (E _ _ Hk)|].
    by rewrite <-(E _ _ Hk).
Qed.

Lemma cached_cases s k i : getProcessByName s k = Some i →
  (al_get (lhm_list (pm_idleProcesses s)) k = Some i) ∨
  ((k ∉ (lhm_list (pm_idleProcesses s)).*1) ∧ pm_busyProcesses s !! k = Some i).
Proof.
  unfold getProcessByName. rewrite lhm_get_list. destruct (al_get _ k) eqn:E; [naive_solver|].
  intros. right. split; [|done]. by apply al_get_None.
Qed.

(** A new busy process. *)
Definition added (name gk : string) (i : nat) (s : ProcessManager) : ProcessManager :=
  set_groups (<[gk := <[name := i]> (default ∅ (pm_processGroups s !! gk))]> (pm_processGroups s))
    (set_busy (<[name := i]> (pm_busyProcesses s)) s).

Lemma cached_added s name gk i k : getProcessByName s name = None →
  getProcessByName (added name gk i s) k = if decide (k = name) then Some i else getProcessByName s k.
Proof.
  unfold getProcessByName. cbn [pm_idleProcesses pm_busyProcesses added set_groups set_busy].
  destruct (lhm_get (pm_idleProcesses s) name) eqn:E; [done|]. intros _. case_decide; subst.
  - by rewrite E, lookup_insert_eq.
  - by rewrite lookup_insert_ne.
Qed.

Lemma added_ptrs s name gk i : getProcessByName s name = None →
  cachedPtrs (added name gk i s) ≡ₚ i :: cachedPtrs s.
Proof.
  unfold getProcessByName, cachedPtrs. cbn [pm_idleProcesses pm_busyProcesses added set_groups set_busy].
  destruct (lhm_get _ _); [done|]. intros Hb. rewrite map_to_list_insert by done. cbn.
  by rewrite Permutation_middle.
Qed.

Lemma pmwf_added s idf name gk i o :
  pmwf s idf → getProcessByName s name = None → issued s name →
  idf i = Some o → id_process o = name → okey o = gk → pmwf (added name gk i s) idf.
Proof.
  intros [H1 H2 H3 H4 H5 H6] Hn Hiss Ho Hname Hgk.
  assert (lhm_get (pm_idleProcesses s) name = None) as Hidle.
  { unfold getProcessByName in Hn. by destruct (lhm_get _ _). }
  assert (∀ k j, getProcessByName (added name gk i s) k = Some j →
    k = name ∧ j = i ∨ k ≠ name ∧ getProcessByName s k = Some j) as Hc.
  { intros k j. rewrite cached_added by done. case_decide; naive_solver. }
  split.
  - done.
  - intros k Hk. cbn. rewrite lookup_insert_ne; [by apply H2|]. intros ->.
    rewrite lhm_get_list, al_get_None in Hidle. done.
  - intros k j [[-> ->]|[Hk Hj]]%Hc; [by eexists|]. by apply H3.
  - intros gk' k j. rewrite cached_added by done. cbn [pm_processGroups added set_groups set_busy].
    destruct (decide (gk' = gk)) as [->|Hne].
    + rewrite lookup_insert_eq. case_decide as Hk; subst.
      * split; [intros (g & [= <-] & E); rewrite lookup_insert_eq in E; injection E as <-; eauto|].
        intros ([= ->] & _). eexists. split; [done|]. by rewrite lookup_insert_eq.
      * rewrite <-H4. split; intros (g & E & Ek).
        -- injection E as <-. rewrite lookup_insert_ne in Ek by done.
           destruct (pm_processGroups s !! okey o) eqn:E; [|done]. by eexists.
        -- rewrite E. eexists. split; [done|]. by rewrite lookup_insert_ne.
    + rewrite lookup_insert_ne by done. rewrite H4. case_decide; [|done]. subst. split.
      * intros (? & ?). congruence.
      * intros ([= ->] & o' & Ho' & ->). congruence.
  - intros gk' g. cbn. rewrite lookup_insert_Some. intros [[-> <-]|[_ Hg]]; [|by eapply H5].
    apply insert_non_empty.
  - intros k j [[-> ->]|[Hk Hj]]%Hc; [done|]. by eapply H6.
Qed.

(** A process removed from the caches. *)
Definition dropGroup (gk name : string) (gs : gmap string (gmap string nat)) : gmap string (gmap string nat) :=
  match gs !! gk with
  | None => gs
  | Some g => if decide (size (delete name g) = 0%nat) then delete gk gs else <[gk := delete name g]> gs
  end.

Definition removed (name gk : string) (s : ProcessManager) : ProcessManager :=
  set_groups (dropGroup gk name (pm_processGroups s))
    (set_idle (lhm_remove (pm_idleProcesses s) name) (set_busy (delete name (pm_busyProcesses s)) s)).

Lemma cached_removed s name gk k :
  getProcessByName (removed name gk s) k = if decide (k = name) then None else getProcessByName s k.
Proof.
  unfold getProcessByName. cbn [pm_idleProcesses pm_busyProcesses removed set_groups set_idle set_busy].
  rewrite !lhm_get_list, lhm_remove_list, al_get_remove. repeat case_decide; subst; try done.
  - by rewrite lookup_delete_eq.
  - by rewrite lookup_delete_ne.
Qed.

Lemma removed_ptrs s idf name gk i : pmwf s idf → getProcessByName s name = Some i →
  cachedPtrs s ≡ₚ i :: cachedPtrs (removed name gk s).
Proof.
  intros [H1 H2 _ _ _ _] Hc. unfold cachedPtrs. cbn [pm_idleProcesses pm_busyProcesses removed set_groups set_idle set_busy].
  rewrite lhm_remove_list. apply cached_cases in Hc as [Hi|[Hi Hb]].
  - rewrite delete_id; [|apply H2, al_get_is_Some; by eexists].
    by rewrite (al_remove_perm _ _ _ H1 Hi) at 1.
  - rewrite al_remove_None by by apply al_get_None.
    rewrite <-(map_to_list_delete _ _ _ Hb). cbn. by rewrite Permutation_middle.
Qed.

Lemma dropGroup_lookup gs gk name gk' k i :
  (∃ g, dropGroup gk name gs !! gk' = Some g ∧ g !! k = Some i) ↔
  (∃ g, gs !! gk' = Some g ∧ g !! k = Some i) ∧ (gk' = gk → k ≠ name).
Proof.
  unfold dropGroup. destruct (gs !! gk) as [g0|] eqn:E0; [|split; [naive_solver|naive_solver]].
  destruct (decide (gk' = gk)) as [->|Hne].
  - rewrite E0. case_decide as Hs.
    + rewrite lookup_delete_eq. split; [naive_solver|]. intros [(g & [= <-] & Hk) Hn].
      apply map_size_empty_iff in Hs. specialize (Hn eq_refl).
      rewrite <-(lookup_delete_ne g0 name k) in Hk by done. by rewrite Hs in Hk.
    + rewrite lookup_insert_eq. split.
      * intros (g & [= <-] & Hk). apply lookup_delete_Some in Hk as [? ?]. naive_solver.
      * intros [(g & [= <-] & Hk) Hn]. eexists. split; [done|]. by rewrite lookup_delete_ne by naive_solver.
  - case_decide; rewrite ?lookup_delete_ne, ?lookup_insert_ne by done; naive_solver.
Qed.

Lemma dropGroup_nonempty gs gk name : (∀ gk g, gs !! gk = Some g → g ≠ ∅) →
  ∀ gk' g, dropGroup gk name gs !! gk' = Some g → g ≠ ∅.
Proof.
  intros Hgs gk' g. unfold dropGroup. destruct (gs !! gk) as [g0|] eqn:E0; [|by apply Hgs].
  case_decide as Hs.
  - rewrite lookup_delete_Some. intros [_ ?]. by eapply Hgs.
  - rewrite lookup_insert_Some. intros [[-> <-]|[_ ?]]; [|by eapply Hgs].
    intros He. apply Hs. by rewrite He.
Qed.

Lemma pmwf_removed s idf name gk i o :
  pmwf s idf → getProcessByName s name = Some i → idf i = Some o → okey o = gk →
  pmwf (removed name gk s) idf.
Proof.
  intros [H1 H2 H3 H4 H5 H6] Hc Ho Hgk.
  split; cbn [pm_idleProcesses pm_busyProcesses pm_processGroups pm_isOrigManager removed set_groups set_idle set_busy].
  - rewrite lhm_remove_list. by apply al_remove_nodup.
  - intros k. rewrite lhm_remove_list, al_remove_elem. intros [Hk _]. rewrite lookup_delete_None. auto.
  - intros k j. rewrite cached_removed. case_decide; [done|]. apply H3.
  - intros gk' k j. rewrite dropGroup_lookup, H4, cached_removed. case_decide; subst; [|naive_solver].
    split; [|naive_solver]. intros [[Hj (o' & Ho' & ->)] Hn]. simplify_eq. by destruct Hn.
  - by apply dropGroup_nonempty.
  - intros k j. rewrite cached_removed. case_decide; [done|]. apply H6.
Qed.

(** The monadic operations are these updates, up to what [quiet] leaves open. *)
Lemma uncache_Ret e o w a w' : uncache e o w = Ret (a, w') →
  quiet (on_pm (removed (id_process o) (okey o)) w) w'.
Proof.
  unfold uncache, removeProcessFromCache, removeFromProcessGroup. intros Hr.
  apply bind_Ret in Hr as (? & ? & [= _ <-] & Hr). apply bind_Ret in Hr as (? & ? & [= _ <-] & Hr).
  apply bind_Ret in Hr as (? & ? & [= <- <-] & Hr). cbn [w_pm on_pm pm_processGroups set_idle set_busy] in Hr.
  fold (okey o) in Hr. unfold removed, dropGroup, on_pm.
  cbn [w_pm w_users w_heap pm_idleProcesses pm_busyProcesses pm_processGroups set_idle set_busy].
  destruct (pm_processGroups (w_pm w) !! okey o) as [g|] eqn:Eg.
  - apply bind_Ret in Hr as (? & ? & [= _ <-] & Hr). case_decide as Hs.
    + apply bind_Ret in Hr as (? & ? & [= _ <-] & Hr). apply quiet_unwait in Hr. etrans; [|exact Hr].
      split_and!; try done. unfold coreOf. cbn. by rewrite delete_insert_eq.
    + by injection Hr as _ <-.
  - by injection Hr as _ <-.
Qed.

Lemma cacheNew_Ret e k name i w a w' : cacheNew e k name i w = Ret (a, w') →
  quiet (on_pm (added name (contractKey (gk_ChainID k) (gk_ContractName k) (gk_ContractVersion k)) i) w) w'.
Proof.
  unfold cacheNew, addProcessToCache, addToProcessGroup. intros Hr.
  apply bind_Ret in Hr as (? & ? & [= _ <-] & [= _ <-]). done.
Qed.

(** ** The invariant while goroutines run *)

(** What a goroutine holds: a name it will register, an existing process it works on, a new
    process, a place among the processes, a name to be generated. *)
Definition pend (t : gor) : list string :=
  match t with GNamed _ n | GAdd _ n _ | GChange _ _ _ n | GCommit _ _ _ n => [n] | _ => [] end.
Definition taken (t : gor) : list nat :=
  match t with GTake _ i | GChange _ i _ _ | GCommit _ i _ _ | GClose i | GClosed i => [i] | _ => [] end.
Definition fresh (t : gor) : list nat := match t with GAdd _ _ i => [i] | _ => [] end.
Definition growing (t : gor) : list unit :=
  match t with GCreate _ | GNamed _ _ | GAdd _ _ _ => [tt] | _ => [] end.
Definition naming (t : gor) : list unit := match t with GCreate _ | GTake _ _ => [tt] | _ => [] end.
Definition committing (t : gor) : list nat := match t with GCommit _ i _ _ => [i] | _ => [] end.

Definition all {A} (f : gor → list A) (ts : list gor) : list A := concat (f <$> ts).

#[local] Instance all_perm {A} (f : gor → list A) : Proper ((≡ₚ) ==> (≡ₚ)) (all f).
Proof.
  intros l l' H. unfold all. induction H as [|x l l' _ IH|x y l|l1 l2 l3 _ IH1 _ IH2]; cbn.
  - done.
  - by rewrite IH.
  - by rewrite Permutation_app_swap_app.
  - by rewrite IH1.
Qed.

Lemma all_cons {A} (f : gor → list A) t ts : all f (t :: ts) = f t ++ all f ts.
Proof. done. Qed.

Definition keyIdent (k : RequestGroupKey) (name : string) : ident :=
  mkIdent (gk_ChainID k) (gk_ContractName k) (gk_ContractVersion k) name.

(** The processes go on without changing their names and users. *)
Definition goroutine_ok (idf : nat → option ident) (heap : list Process.Process) (t : gor) : Prop :=
  match t with
  | GAdd k name i => identOf <$> heap !! i = Some (keyIdent k name)
  | GChange _ i o _ => idf i = Some o
  | GCommit k i o name => idf i = Some o ∧ identOf <$> heap !! i = Some (keyIdent k name)
  | GProcess acts => Forall (λ x, ∀ p, Process.kept p (x.2 p)) acts
  | _ => True
  end.

Definition tokens (heap : list Process.Process) : Prop :=
  Forall (λ p, Process.p_cmdReadyCh p = true → Process.p_cmd p = true) heap.

Definition usersOf (heap : list Process.Process) (l : list nat) : list Users.User :=
  omap (λ i, Process.p_user <$> heap !! i) l.

#[local] Instance usersOf_perm heap : Proper ((≡ₚ) ==> (≡ₚ)) (usersOf heap).
Proof. intros l l' H. unfold usersOf. by rewrite H. Qed.

Lemma usersOf_app heap l l' : usersOf heap (l ++ l') = usersOf heap l ++ usersOf heap l'.
Proof. unfold usersOf. by rewrite omap_app. Qed.

Definition freeUsers (w : World) : list Users.User := FixedQueue.q_queue (Users.userQueue (w_users w)).

(** The process names and contract keys of the exit messages that wait in the event channel. *)
Definition exits (s : ProcessManager) : list (string * string) :=
  omap (λ m, match m with
             | AnySandboxExit m => Some (se_ProcessName m, contractKey (se_ChainID m) (se_ContractName m) (se_ContractVersion m))
             | _ => None
             end) (pm_eventCh s).

(** The limit of the manager. *)
Context (N : Z).

(** [U] are the users, free or used by this manager; [B] bounds the names given; [X] are the
    process names and contract keys of the exit messages that wait. *)
Record inv (U : list Users.User) (B : Z) (X : list (string * string)) (ts : list gor) (w : World)
    (idf : nat → option ident) : Prop := {
  i_wf : pmwf (w_pm w) idf;
  i_idf i : i ∉ all committing ts → idf i = identOf <$> w_heap w !! i;
  i_ok : Forall (goroutine_ok idf (w_heap w)) ts;
  i_pend : NoDup (all pend ts);
  i_fresh name : name ∈ all pend ts →
    getProcessByName (w_pm w) name = None ∧ issued (w_pm w) name ∧ name ∉ X.*1;
  i_taken : NoDup (all taken ts);
  i_live i : i ∈ all taken ts → ∃ k, getProcessByName (w_pm w) k = Some i;
  i_room : Z.of_nat (length (cachedPtrs (w_pm w))) + Z.of_nat (length (all growing ts)) ≤ N;
  i_max : pm_maxProcessNum (w_pm w) = N;
  i_users : freeUsers w ++ usersOf (w_heap w) (cachedPtrs (w_pm w) ++ all fresh ts) ≡ₚ U;
  i_nowait : FixedQueue.q_waiting (Users.userQueue (w_users w)) = [];
  i_tokens : tokens (w_heap w);
  i_cnt : 0 ≤ pm_processCnt (w_pm w) ∧ pm_processCnt (w_pm w) + Z.of_nat (length (all naming ts)) ≤ B < u64_max;
  i_sched : pm_scheduler (w_pm w) = true;
  i_queue : exits (w_pm w) = X;
  i_exits name gk : (name, gk) ∈ X → issued (w_pm w) name ∧
    ∀ i o, getProcessByName (w_pm w) name = Some i → idf i = Some o → okey o = gk;
}.

Definition Inv U B X ts w := ∃ idf, inv U B X ts w idf.

#[local] Instance Inv_perm U B X : Proper ((≡ₚ) ==> eq ==> iff) (Inv U B X).
Proof.
  assert (∀ ts ts' w, ts ≡ₚ ts' → Inv U B X ts w → Inv U B X ts' w) as Hp;
    [|by intros ts ts' H w ? <-; split; apply Hp].
  intros ts ts' w H [idf []]. exists idf. split; try done.
  - intros i. rewrite <-H. auto.
  - by rewrite <-H.
  - by rewrite <-H.
  - intros name. rewrite <-H. auto.
  - by rewrite <-H.
  - intros i. rewrite <-H. auto.
  - by rewrite <-H.
  - by rewrite <-H.
  - by rewrite <-H.
Qed.

(** A goroutine that is done does not matter. *)
Lemma Inv_done U B X t ts w : gor_done t = true → Inv U B X (t :: ts) w ↔ Inv U B X ts w.
Proof.
  intros Ht. assert (∀ {A} (f : gor → list A), f GDone = [] → f (GProcess []) = [] → all f (t :: ts) = all f ts) as Hall.
  { intros A f H1 H2. rewrite all_cons. by destruct t as [| | | | | | | |[]|]; rewrite ?H1, ?H2. }
  split; intros [idf []]; exists idf.
  - split; rewrite ?Hall in *; try done. by eapply Forall_inv_tail.
  - split; rewrite ?Hall; try done. constructor; [|done]. destruct t as [| | | | | | | |[]|]; try done; by constructor.
Qed.

(** Steps that leave the caches alone keep the invariant. *)
Lemma Inv_quiet U B X ts w w' : quiet w w' → Inv U B X ts w → Inv U B X ts w'.
Proof.
  intros (E & Eu & Eh & Ev) [idf []]. exists idf. pose proof (cached_core _ _ E) as Ec.
  injection E as E1 E2 E3 E4 E5 E6 E7.
  split; unfold freeUsers, cachedPtrs, issued, exits in *; rewrite ?Eu, ?Eh, ?Ev, ?Ec, ?E1, ?E2, ?E4, ?E5, ?E6, ?E7; try done.
  eapply pmwf_core; [|done]. unfold coreOf. congruence.
Qed.

(** *** What the goroutines do, one transition at a time *)

Lemma elem_all {A} (f : gor → list A) t ts x : t ∈ ts → x ∈ f t → x ∈ all f ts.
Proof.
  induction ts as [|t' ts IH]; [by intros ?%elem_of_nil|]. rewrite all_cons, elem_of_app, elem_of_cons.
  intros [->|?] ?; auto.
Qed.

Lemma committing_taken i ts : i ∈ all committing ts → i ∈ all taken ts.
Proof.
  induction ts as [|t ts IH]; [done|]. rewrite !all_cons, !elem_of_app. intros [Hi|Hi]; [left; destruct t; cbn in *; set_solver|auto].
Qed.

Lemma sub_NoDup {A} (l l' : list A) : NoDup l' → l ⊆+ l' → NoDup l.
Proof. intros Hl [k Hk]%submseteq_Permutation. rewrite Hk in Hl. by apply NoDup_app in Hl as [? _]. Qed.

(** A goroutine may be replaced by one that holds less. *)
Lemma Inv_weaken U B X t t' ts w :
  pend t' ⊆+ pend t → taken t' ⊆+ taken t → fresh t' = fresh t → (length (growing t') ≤ length (growing t))%nat →
  (length (naming t') ≤ length (naming t))%nat → committing t' = committing t →
  (∀ idf, goroutine_ok idf (w_heap w) t → goroutine_ok idf (w_heap w) t') →
  Inv U B X (t :: ts) w → Inv U B X (t' :: ts) w.
Proof.
  intros H1 H2 H3 H4 H5 H6 Hok [idf []]. exists idf.
  split; rewrite ?all_cons, ?length_app, ?H3, ?H6 in *; try done; try lia.
  - apply Forall_cons in i_ok0 as [? ?]. constructor; auto.
  - eapply sub_NoDup; [done|]. by apply submseteq_skips_r.
  - intros name. rewrite elem_of_app. intros Hn. apply i_fresh0. rewrite elem_of_app. destruct Hn; [left|by right].
    by eapply elem_of_submseteq.
  - eapply sub_NoDup; [done|]. by apply submseteq_skips_r.
  - intros i. rewrite elem_of_app. intros Hn. apply i_live0. rewrite elem_of_app. destruct Hn; [left|by right].
    by eapply elem_of_submseteq.
Qed.

(** A goroutine that gives up. *)
Lemma Inv_giveup U B X t ts w :
  Inv U B X (t :: ts) w → fresh t = [] → committing t = [] → Inv U B X (GDone :: ts) w.
Proof.
  intros HI H1 H2. revert HI. apply Inv_weaken; cbn; try done; try lia; apply submseteq_nil_l.
Qed.

Lemma usersOf_insert heap i p p' l : heap !! i = Some p → Process.p_user p' = Process.p_user p →
  usersOf (<[i := p']> heap) l = usersOf heap l.
Proof.
  intros Hi Hu. unfold usersOf. induction l as [|j l IH]; cbn; [done|]. rewrite IH.
  destruct (decide (i = j)) as [<-|Hne].
  - rewrite list_lookup_insert_eq by by eapply lookup_lt_Some. rewrite Hi. cbn. by rewrite Hu.
  - by rewrite list_lookup_insert_ne.
Qed.

Lemma usersOf_grow heap p l : Forall (λ i, is_Some (heap !! i)) l → usersOf (heap ++ [p]) l = usersOf heap l.
Proof.
  unfold usersOf. induction 1 as [|i l [q Hq] _ IH]; cbn; [done|].
  rewrite IH, lookup_app_l by by eapply lookup_lt_Some. done.
Qed.

Lemma ident_insert (heap : list Process.Process) i p p' j : heap !! i = Some p → identOf p' = identOf p →
  identOf <$> (<[i := p']> heap) !! j = identOf <$> heap !! j.
Proof.
  intros Hi Hu. destruct (decide (i = j)) as [<-|Hne].
  - rewrite list_lookup_insert_eq by by eapply lookup_lt_Some. rewrite Hi. cbn. by rewrite Hu.
  - by rewrite list_lookup_insert_ne.
Qed.

Lemma goroutine_ok_heap idf (heap heap' : list Process.Process) t :
  (∀ j, identOf <$> heap' !! j = identOf <$> heap !! j) → goroutine_ok idf heap t → goroutine_ok idf heap' t.
Proof. intros H. destruct t; cbn; rewrite ?H; done. Qed.

Definition set_heap (h : list Process.Process) (w : World) : World := mkW (w_pm w) (w_users w) h.

(** A process that keeps its names and its user. *)
Lemma Inv_kept U B X ts w i p p' :
  w_heap w !! i = Some p → Process.kept p p' → Inv U B X ts w → Inv U B X ts (set_heap (<[i := p']> (w_heap w)) w).
Proof.
  intros Hi (K1 & K2 & K3 & K4 & K5 & K6) [idf []]. exists idf.
  assert (∀ j, identOf <$> (<[i := p']> (w_heap w)) !! j = identOf <$> w_heap w !! j) as Hid.
  { intros j. apply (ident_insert _ _ p); [done|]. unfold identOf. congruence. }
  split; cbn [w_pm w_heap w_users set_heap]; try done.
  - intros j Hj. rewrite Hid. auto.
  - eapply Forall_impl; [exact i_ok0|]. intros t. by apply goroutine_ok_heap.
  - by rewrite (usersOf_insert _ _ p).
  - apply Forall_insert; [done|]. apply K6. unfold tokens in i_tokens0. rewrite Forall_lookup in i_tokens0. eauto.
Qed.

Lemma onProcess_kept {A} U B X ts (m : M Process.Process A) i w a w' :
  preserves Process.kept m → onProcess i m w = Ret (a, w') → Inv U B X ts w → Inv U B X ts w'.
Proof.
  unfold onProcess. intros Hm. destruct (w_heap w !! i) as [p|] eqn:Hi; [|done].
  destruct (m p) as [[x p']| |] eqn:E; [|done..]. intros [= _ <-]. apply (Inv_kept _ _ _ _ _ _ p); [done|].
  by eapply Hm.
Qed.

Lemma Inv_act U B X x acts ts w a w' :
  Inv U B X (GProcess (x :: acts) :: ts) w → processAct (x :: acts) w = Ret (a, w') → Inv U B X (a :: ts) w'.
Proof.
  destruct x as [i f]. intros HI. unfold processAct. intros Hr.
  apply bind_Ret in Hr as (? & ? & [= _ <-] & [= <- <-]).
  assert (∀ p, Process.kept p (f p)) as Hf.
  { destruct HI as [idf []]. by apply Forall_inv, Forall_inv in i_ok0. }
  assert (Inv U B X (GProcess acts :: ts) w) as HI'.
  { revert HI. apply Inv_weaken; try done. intros idf. by intros Hx%Forall_inv_tail. }
  destruct (w_heap w !! i) as [p|] eqn:Hi.
  - by apply (Inv_kept _ _ _ _ _ _ _ _ Hi (Hf p) HI').
  - done.
Qed.

Lemma issued_mono s s' name : pm_isOrigManager s' = pm_isOrigManager s → pm_processCnt s ≤ pm_processCnt s' →
  issued s name → issued s' name.
Proof. intros E Hc (c & n & v & l & o & -> & Ho). exists c, n, v, l, o. rewrite E. split; [done|lia]. Qed.

Lemma newName_Ret k w name w' : newName k w = Ret (name, w') → 0 ≤ pm_processCnt (w_pm w) < u64_max - 1 →
  w' = on_pm (set_cnt (pm_processCnt (w_pm w) + 1)) w ∧ issued (w_pm w') name ∧ ¬ issued (w_pm w) name.
Proof.
  unfold newName, generateProcessName. intros Hr Hb.
  apply bind_Ret in Hr as (? & ? & [= <- <-] & Hr). apply bind_Ret in Hr as (? & ? & [= _ <-] & Hr).
  apply bind_Ret in Hr as (? & ? & [= <- <-] & [= <- <-]).
  assert (u64_add (pm_processCnt (w_pm w)) 1 = pm_processCnt (w_pm w) + 1) as Eu by (apply u64_small; lia).
  cbn [w_pm on_pm pm_processCnt pm_isOrigManager set_cnt]. rewrite Eu. split_and!.
  - unfold on_pm. by rewrite Eu.
  - eexists _, _, _, _, _. split; [done|]. cbn. lia.
  - intros (c & n & v & l & o & E & Ho). apply ConstructProcessName_overall in E. lia.
Qed.

(** A goroutine generates the name it was to generate. *)
Lemma Inv_newName U B X t t' ts k w name w' :
  naming t = [tt] → pend t = [] → naming t' = [] → pend t' = [name] → taken t' = taken t → fresh t' = fresh t →
  growing t' = growing t → committing t' = committing t →
  (∀ idf, (∀ i, i ∉ all committing (t :: ts) → idf i = identOf <$> w_heap w !! i) → goroutine_ok idf (w_heap w) t') →
  newName k w = Ret (name, w') → Inv U B X (t :: ts) w → Inv U B X (t' :: ts) w'.
Proof.
  intros N1 P1 N2 P2 T1 F1 G1 C1 Hok Hr [idf []].
  destruct (newName_Ret _ _ _ _ Hr) as (-> & Hiss & Hnew).
  { rewrite all_cons, N1 in i_cnt0. cbn in i_cnt0. lia. }
  assert (∀ n, issued (w_pm w) n → issued (set_cnt (pm_processCnt (w_pm w) + 1) (w_pm w)) n) as Hmono.
  { intros n. apply issued_mono; [done|]. cbn. lia. }
  exists idf. split; rewrite ?all_cons, ?N1, ?N2, ?P1, ?P2, ?T1, ?F1, ?G1, ?C1 in *;
    cbn [w_pm w_heap w_users on_pm pm_processCnt pm_maxProcessNum set_cnt] in *; try done.
  - destruct i_wf0 as [H1 H2 H3 H4 H5 H6]. split; try done. intros n i Hi. apply Hmono. by apply (H6 n i).
  - apply Forall_cons in i_ok0 as [_ ?]. constructor; auto.
  - apply NoDup_cons. split; [|done]. intros Hin. destruct (i_fresh0 name) as (_ & ? & _); [by rewrite elem_of_app; right|]. done.
  - intros n [->|Hn]%elem_of_cons.
    + split_and!; [|done|].
      * change (getProcessByName (w_pm w) name = None). destruct (getProcessByName _ _) eqn:E; [|done].
        destruct Hnew. by apply (wf_issued _ _ i_wf0 _ _ E).
      * intros ([x gk] & -> & Hx)%list_elem_of_fmap. by destruct Hnew, (i_exits0 _ _ Hx).
    + destruct (i_fresh0 n Hn) as (? & ? & ?). auto.
  - cbn in *. lia.
  - intros n gk Hx. destruct (i_exits0 n gk Hx). auto.
Qed.

Lemma recorded_valid U B X ts w idf i o : inv U B X ts w idf → idf i = Some o → is_Some (w_heap w !! i).
Proof.
  intros [] Ho. destruct (decide (i ∈ all committing ts)) as [Hin|Hin].
  - clear -Hin i_ok0. induction i_ok0 as [|t ts Ht _ IH]; [by apply elem_of_nil in Hin|].
    rewrite all_cons, elem_of_app in Hin. destruct Hin as [Hin|Hin]; [|auto].
    destruct t; cbn in Hin; try by apply elem_of_nil in Hin. apply list_elem_of_singleton in Hin as ->.
    destruct Ht as [_ Ht]. apply fmap_Some in Ht as (p & Hp & _). by exists p.
  - rewrite i_idf0 in Ho by done. apply fmap_Some in Ho as (p & Hp & _). by exists p.
Qed.

Lemma cached_valid U B X ts w idf k i : inv U B X ts w idf →
  getProcessByName (w_pm w) k = Some i → is_Some (w_heap w !! i).
Proof.
  intros HI Hk. destruct (wf_named _ _ (i_wf _ _ _ _ _ _ HI) _ _ Hk) as (o & Ho & _). by eapply recorded_valid.
Qed.

Lemma cachedPtrs_elem s idf i : pmwf s idf → i ∈ cachedPtrs s ↔ ∃ k, getProcessByName s k = Some i.
Proof.
  intros [H1 H2 _ _ _ _]. unfold cachedPtrs, getProcessByName. rewrite elem_of_app. split.
  - intros [Hi|Hi]; apply list_elem_of_fmap in Hi as ([k j] & -> & Hk); exists k; rewrite lhm_get_list.
    + by rewrite (al_get_nodup _ _ _ H1 Hk).
    + apply elem_of_map_to_list in Hk. destruct (al_get _ k) eqn:E; [|done].
      rewrite (H2 k) in Hk; [done|]. apply al_get_is_Some. by eexists.
  - intros [k Hk]. apply cached_cases in Hk as [Hk|[_ Hk]].
    + left. apply list_elem_of_fmap. exists (k, i). split; [done|]. by apply al_get_Some.
    + right. apply list_elem_of_fmap. exists (k, i). split; [done|]. by apply elem_of_map_to_list.
Qed.

Lemma fresh_valid idf heap ts : Forall (goroutine_ok idf heap) ts → Forall (λ i, is_Some (heap !! i)) (all fresh ts).
Proof.
  induction 1 as [|t ts Ht _ IH]; [constructor|]. rewrite all_cons. apply Forall_app. split; [|done].
  destruct t; cbn; repeat constructor. apply fmap_Some in Ht as (p & Hp & _). by exists p.
Qed.

(** A goroutine creates its process. *)
Lemma Inv_create e U B X k name ts w r w' :
  create e k name w = Ret (r, w') → Inv U B X (GNamed k name :: ts) w →
  match r with inr _ => w' = w | inl i => Inv U B X (GAdd k name i :: ts) w' end.
Proof.
  unfold create, createNewProcess. intros Hr HI. apply bind_Ret in Hr as (? & ? & [= <- <-] & Hr).
  destruct HI as [idf HI]. pose proof HI as []. rewrite i_sched0 in Hr. cbn in Hr.
  unfold Users.GetAvailableUser, FixedQueue.DequeueAlone in Hr.
  destruct (FixedQueue.q_queue _) as [|u us] eqn:Eq.
  { destruct (_ <? _)%nat; [done|]. by injection Hr as <- <-. }
  apply bind_Ret in Hr as (p & ? & Hp & Hr). unfold Process.NewProcess in Hp.
  destruct (sched_GetRequestGroup _ _ _); [|done]. injection Hp as <- <-.
  apply bind_Ret in Hr as (? & ? & [= _ <-] & [= <- <-]).
  match goal with |- context [w_heap w ++ [?q]] => set (p := q) end.
  assert (∀ j, is_Some (w_heap w !! j) → identOf <$> (w_heap w ++ [p]) !! j = identOf <$> w_heap w !! j) as Hlk.
  { intros j [q Hj]. by rewrite lookup_app_l by by eapply lookup_lt_Some. }
  set (i := length (w_heap w)).
  assert ((w_heap w ++ [p]) !! i = Some p) as Hi by by apply list_lookup_middle.
  exists (λ j, if decide (j = i) then Some (keyIdent k name) else idf j).
  assert (∀ j, is_Some (w_heap w !! j) → j ≠ i) as Hne.
  { intros j [q Hj] ->. apply lookup_lt_Some in Hj. unfold i in Hj. lia. }
  assert (∀ j o, idf j = Some o → (if decide (j = i) then Some (keyIdent k name) else idf j) = Some o) as Hidf.
  { intros j o Hj. rewrite decide_False; [done|]. by apply Hne, (recorded_valid _ _ _ _ _ _ _ _ HI Hj). }
  assert (Forall (λ j, is_Some (w_heap w !! j)) (cachedPtrs (w_pm w) ++ all fresh (GNamed k name :: ts))) as Hval.
  { apply Forall_app. split; [|by eapply fresh_valid]. apply Forall_forall. intros j Hj.
    apply (cachedPtrs_elem _ _ _ i_wf0) in Hj as [q Hj]. by eapply cached_valid. }
  split; cbn [w_pm w_heap w_users]; try done.
  - eapply pmwf_core; [|eapply pmwf_ext; [|exact i_wf0]]; [done|]. intros q j Hj. rewrite decide_False; [done|].
    apply Hne. by eapply cached_valid.
  - intros j Hj. case_decide; subst; [by rewrite Hi|]. rewrite i_idf0 by done.
    destruct (decide (j < length (w_heap w))%nat); [by rewrite lookup_app_l|].
    rewrite !lookup_ge_None_2; [done|rewrite length_app; cbn; unfold i in *; lia|lia].
  - constructor; [cbn; by rewrite Hi|]. apply Forall_cons in i_ok0 as [_ Hok]. eapply Forall_impl; [exact Hok|].
    intros [| |k' n' j'|k' j'|k' j' o' n'|k' j' o' n'|j'|j'|acts|] Hg; cbn in *; try done.
    + rewrite Hlk; [done|]. apply fmap_Some in Hg as (q & ? & _). by exists q.
    + by apply Hidf.
    + destruct Hg as [Hg1 Hg2]. split; [by apply Hidf|]. rewrite Hlk; [done|].
      apply fmap_Some in Hg2 as (q & ? & _). by exists q.
  - unfold freeUsers in *. rewrite <-i_users0, Eq, !all_cons. cbn [fresh app w_users Users.userQueue FixedQueue.q_queue].
    rewrite !usersOf_app. change (usersOf (w_heap w ++ [p]) (i :: all fresh ts)) with
      (usersOf (w_heap w ++ [p]) ([i] ++ all fresh ts)). rewrite usersOf_app.
    assert (usersOf (w_heap w ++ [p]) [i] = [u]) as -> by (unfold usersOf; cbn; by rewrite Hi).
    rewrite all_cons in Hval. cbn [fresh app] in Hval. apply Forall_app in Hval as [Hv1 Hv2].
    change (cachedPtrs (emit (EStart i) (w_pm w))) with (cachedPtrs (w_pm w)).
    rewrite (usersOf_grow _ _ _ Hv1). rewrite (usersOf_grow _ _ _ Hv2).
    cbn. by rewrite <-!Permutation_middle.
  - apply Forall_app. split; [done|]. by repeat constructor.
  - intros n gk Hx. destruct (i_exits0 n gk Hx) as [Hiss Hk]. split; [done|]. intros j o Hj. 
    change (getProcessByName (w_pm w) n = Some j) in Hj. rewrite decide_False; [by apply Hk|].
    apply Hne. by eapply cached_valid.
Qed.

Lemma committing_name idf heap ts i : Forall (goroutine_ok idf heap) ts → i ∈ all committing ts →
  ∃ k name, identOf <$> heap !! i = Some (keyIdent k name) ∧ name ∈ all pend ts.
Proof.
  induction 1 as [|t ts Ht _ IH]; [by intros ?%elem_of_nil|]. rewrite !all_cons, elem_of_app. intros [Hi|Hi].
  - destruct t as [| | | | |k j o name| | | |]; cbn in Hi; try by apply elem_of_nil in Hi.
    apply list_elem_of_singleton in Hi as ->. exists k, name. split; [apply Ht|]. by left.
  - destruct (IH Hi) as (k & name & ? & ?). exists k, name. split; [done|]. apply elem_of_app. by right.
Qed.

(** A goroutine registers its process. *)
Lemma Inv_add U B X k name i ts w :
  Inv U B X (GAdd k name i :: ts) w → Inv U B X (GDone :: ts) (on_pm (added name (okey (keyIdent k name)) i) w).
Proof.
  intros [idf []]. destruct (i_fresh0 name) as (Hn & Hiss & HX); [by left|].
  assert (identOf <$> w_heap w !! i = Some (keyIdent k name)) as Hi by by apply Forall_inv in i_ok0.
  assert (idf i = Some (keyIdent k name)) as Hidf.
  { destruct (decide (i ∈ all committing (GAdd k name i :: ts))) as [Hc|]; [|by rewrite i_idf0].
    destruct (committing_name _ _ _ i (Forall_inv_tail i_ok0) Hc) as (k' & n' & E & Hn').
    rewrite Hi in E. injection E as _ _ _ <-. by apply NoDup_cons in i_pend0 as [? _]. }
  exists idf. assert (∀ k', getProcessByName (added name (okey (keyIdent k name)) i (w_pm w)) k' =
    if decide (k' = name) then Some i else getProcessByName (w_pm w) k') as Hc by (intros; by apply cached_added).
  split; rewrite ?all_cons in *; cbn [fresh pend taken growing naming committing app] in *;
    cbn [w_pm w_heap w_users on_pm] in *; try done.
  - by eapply pmwf_added.
  - constructor; [done|]. by apply Forall_inv_tail in i_ok0.
  - by apply NoDup_cons in i_pend0 as [_ ?].
  - intros n Hp. rewrite Hc. destruct (i_fresh0 n) as (? & ? & ?); [by right|]. rewrite decide_False; [done|].
    intros ->. by apply NoDup_cons in i_pend0 as [? _].
  - intros j Hj. destruct (i_live0 j Hj) as [k' Hk']. exists k'. rewrite Hc. rewrite decide_False; [done|].
    intros ->. congruence.
  - rewrite (added_ptrs _ _ _ _ Hn). cbn in *. lia.
  - rewrite (added_ptrs _ _ _ _ Hn), <-i_users0. by rewrite <-Permutation_middle.
  - intros n gk Hx. destruct (i_exits0 n gk Hx) as [? Hk]. split; [done|]. intros j o. rewrite Hc.
    case_decide; [|by apply Hk]. subst. destruct HX. apply list_elem_of_fmap. by exists (name, gk).
Qed.

(** Signals arrive, the request groups exist and take their responses. *)
Record good_env (e : Process.env) : Prop := {
  ge_signal s : Process.e_signalErr e s = None;
  ge_group c n v : @sched_GetRequestGroup (Process.e_sched e) c n v = true;
  ge_put m : @group_PutMsg (Process.e_sched e) (AnyGetProcessResp m) = None;
}.

Definition renamed (o : ident) (p p' : Process.Process) : Prop :=
  identOf p' = o ∧ Process.p_user p' = Process.p_user p ∧
  (Process.p_cmdReadyCh p' = true → Process.p_cmd p' = true).

Lemma ChangeSandbox_good e c n v name p er p' :
  good_env e → (Process.p_cmdReadyCh p = true → Process.p_cmd p = true) →
  Process.ChangeSandbox e c n v name p = Ret (er, p') →
  match er with Some _ => p' = p | None => renamed (mkIdent c n v name) p p' end.
Proof.
  intros [Hs Hg _] Ht Hr. unfold Process.ChangeSandbox in Hr.
  apply bind_Ret in Hr as (? & ? & [= <- <-] & Hr). case_decide; [by injection Hr as <- <-|].
  unfold Process.resetContext in Hr. rewrite Hg in Hr. apply bind_Ret in Hr as (? & p1 & H1 & Hr).
  apply bind_Ret in H1 as (? & ? & [= _ <-] & [= <- <-]).
  apply bind_Ret in Hr as (er1 & p2 & H2 & Hr). unfold Process.killProcess in H2. cbn in H2.
  apply bind_Ret in H2 as (? & ? & [= <- <-] & H2). cbn in H2.
  destruct (Process.p_cmdReadyCh p) eqn:Et; [|done]. rewrite (Ht eq_refl) in H2. cbn in H2. rewrite Hs in H2.
  apply bind_Ret in H2 as (? & ? & [= _ <-] & H2). apply bind_Ret in H2 as (? & ? & [= _ <-] & [= <- <-]).
  apply bind_Ret in Hr as (? & p3 & H3 & [= <- <-]).
  apply Process.kept_update in H3 as (K1 & K2 & K3 & K4 & K5 & K6). cbn in *.
  split_and!; [unfold identOf; congruence|done|]. intros E. by apply K6.
Qed.

(** A goroutine hands its process over to the new contract. *)
Lemma Inv_change e U B X k i o name ts w er w' : good_env e →
  changeSandbox e k i name w = Ret (er, w') → Inv U B X (GChange k i o name :: ts) w →
  match er with Some _ => w' = w | None => Inv U B X (GCommit k i o name :: ts) w' end.
Proof.
  intros He. unfold changeSandbox, onProcess. destruct (w_heap w !! i) as [p|] eqn:Hi; [|done].
  destruct (Process.ChangeSandbox _ _ _ _ _ p) as [[er' p']| |] eqn:E; [|done..]. intros [= <- <-] [idf []].
  apply ChangeSandbox_good in E; [|done|].
  2: { unfold tokens in i_tokens0. rewrite Forall_lookup in i_tokens0. eauto. }
  destruct er'; [subst; rewrite list_insert_id by done; by destruct w|]. destruct E as (E1 & E2 & E3).
  assert (idf i = Some o) as Hidf by by apply Forall_inv in i_ok0.
  apply Forall_inv_tail in i_ok0. rewrite all_cons in i_taken0. apply NoDup_cons in i_taken0 as [Hit Htk].
  assert (∀ j, j ≠ i → (<[i:=p']> (w_heap w)) !! j = w_heap w !! j) as Hlk by (intros; by rewrite list_lookup_insert_ne).
  assert ((<[i:=p']> (w_heap w)) !! i = Some p') as Hli by by apply list_lookup_insert_eq; eapply lookup_lt_Some.
  exists idf. split; rewrite ?all_cons in *; cbn [fresh pend taken growing naming committing app] in *;
    cbn [w_pm w_heap w_users on_pm] in *; try done.
  - intros j [? ?]%not_elem_of_cons. rewrite Hlk by done. auto.
  - constructor; [cbn; rewrite Hli; cbn; by rewrite E1|]. apply Forall_forall. intros t Ht.
    rewrite Forall_forall in i_ok0. specialize (i_ok0 t Ht).
    destruct t as [| |k' n' j| | |k' j o' n'| | | |]; cbn in *; try done.
    + rewrite Hlk; [done|]. intros ->. destruct (i_fresh0 n') as [Hn' _]; [right; by apply (elem_all pend _ _ _ Ht); left|].
      destruct (i_live0 i) as [k2 Hk2]; [by left|]. destruct (wf_named _ _ i_wf0 _ _ Hk2) as (o2 & Ho2 & <-).
      rewrite i_idf0 in Ho2 by by intros ?%committing_taken. rewrite i_ok0 in Ho2. injection Ho2 as <-.
      cbn in Hk2. congruence.
    + rewrite Hlk; [done|]. intros ->. apply Hit. by apply (elem_all taken _ _ _ Ht); left.
  - by apply NoDup_cons.
  - by rewrite (usersOf_insert _ _ p).
  - by apply Forall_insert.
Qed.

(** The process of a goroutine that commits leaves the caches under its old name, and is then
    as good as new. *)
Lemma Inv_uncache U B X k i o name ts w :
  Inv U B X (GCommit k i o name :: ts) w →
  Inv U B X (GAdd k name i :: ts) (on_pm (removed (id_process o) (okey o)) w).
Proof.
  intros [idf HI]. pose proof HI as []. assert (goroutine_ok idf (w_heap w) (GCommit k i o name)) as [Hidf Hi]
    by by apply Forall_inv in i_ok0.
  destruct (i_live0 i) as [k0 Hk0]; [by left|].
  destruct (wf_named _ _ i_wf0 _ _ Hk0) as (o' & Ho' & <-). rewrite Hidf in Ho'. injection Ho' as <-.
  rewrite all_cons in i_taken0. apply NoDup_cons in i_taken0 as [Hit Htk].
  assert (∀ k', getProcessByName (removed (id_process o) (okey o) (w_pm w)) k' =
    if decide (k' = id_process o) then None else getProcessByName (w_pm w) k') as Hc by (intros; by apply cached_removed).
  assert (∀ k' j, getProcessByName (removed (id_process o) (okey o) (w_pm w)) k' = Some j → j ≠ i) as Hni.
  { intros k' j. rewrite Hc. case_decide as Hne; [done|]. intros Hj ->. apply Hne.
    destruct (wf_named _ _ i_wf0 _ _ Hj) as (o2 & Ho2 & <-). congruence. }
  exists (λ j, if decide (j = i) then Some (keyIdent k name) else idf j).
  split; rewrite ?all_cons in *; cbn [fresh pend taken growing naming committing app] in *;
    cbn [w_pm w_heap w_users on_pm] in *; try done.
  - eapply pmwf_ext; [|by eapply pmwf_removed]. intros k' j Hj. rewrite decide_False; [done|]. by eapply Hni.
  - intros j Hj. case_decide; [by subst|]. apply i_idf0. by apply not_elem_of_cons.
  - constructor; [done|]. apply Forall_inv_tail in i_ok0. rewrite Forall_forall in i_ok0 |- *. intros t Ht.
    specialize (i_ok0 t Ht). destruct t as [| | | |k' j o' n'|k' j o' n'| | | |]; try done; cbn in *;
      (rewrite decide_False; [done|]; intros ->; apply Hit; by apply (elem_all taken _ _ _ Ht); left).
  - intros n Hn. rewrite Hc. destruct (i_fresh0 n Hn) as (? & ? & ?). by case_decide.
  - intros j Hj. destruct (i_live0 j) as [k' Hk']; [by right|]. exists k'. rewrite Hc, decide_False; [done|].
    intros ->. rewrite Hk0 in Hk'. injection Hk' as ->. done.
  - rewrite (removed_ptrs _ _ _ (okey o) _ i_wf0 Hk0) in i_room0. cbn in *. lia.
  - rewrite <-i_users0, (removed_ptrs _ _ _ (okey o) _ i_wf0 Hk0). by rewrite <-Permutation_middle.
  - intros n gk Hx. destruct (i_exits0 n gk Hx) as [? Hk]. split; [done|]. intros j oj Hj.
    rewrite decide_False by by eapply Hni. rewrite Hc in Hj. case_decide; [done|]. by apply Hk.
Qed.

(** A user is freed and its process leaves the caches. *)
Lemma Inv_close U B X ts w i p name gk um :
  getProcessByName (w_pm w) name = Some i → i ∉ all taken ts → w_heap w !! i = Some p → gk = okey (identOf p) →
  FixedQueue.q_queue (Users.userQueue um) = freeUsers w ++ [Process.p_user p] →
  FixedQueue.q_waiting (Users.userQueue um) = [] →
  Inv U B X ts w → Inv U B X ts (mkW (removed name gk (w_pm w)) um (w_heap w)).
Proof.
  intros Hn Hit Hp -> Hum Hw [idf []].
  assert (idf i = Some (identOf p)) as Hidf. { rewrite i_idf0 by by intros ?%committing_taken. by rewrite Hp. }
  assert (∀ k', getProcessByName (removed name (okey (identOf p)) (w_pm w)) k' =
    if decide (k' = name) then None else getProcessByName (w_pm w) k') as Hc by (intros; by apply cached_removed).
  exists idf. split; cbn [w_pm w_heap w_users on_pm] in *; try done.
  - by eapply pmwf_removed.
  - intros n Hx. rewrite Hc. destruct (i_fresh0 n Hx) as (? & ? & ?). by case_decide.
  - intros j Hj. destruct (i_live0 j Hj) as [k' Hk']. exists k'. rewrite Hc, decide_False; [done|].
    intros ->. congruence.
  - rewrite (removed_ptrs _ _ _ (okey (identOf p)) _ i_wf0 Hn) in i_room0. cbn in *. lia.
  - rewrite <-i_users0, (removed_ptrs _ _ _ (okey (identOf p)) _ i_wf0 Hn). unfold freeUsers at 1. cbn.
    rewrite Hum, Hp. cbn. by rewrite <-app_assoc.
  - intros n gk Hx. destruct (i_exits0 n gk Hx) as [? Hk]. split; [done|]. intros j oj. rewrite Hc.
    case_decide; [done|]. by apply Hk.
Qed.

Lemma Inv_closeSandbox e U B X ts c n v name w er w' :
  closeSandbox e c n v name w = Ret (er, w') → Inv U B X ts w →
  (∀ i p, getProcessByName (w_pm w) name = Some i → w_heap w !! i = Some p →
    (i ∉ all taken ts) ∧ contractKey c n v = okey (identOf p)) →
  Inv U B X ts w'.
Proof.
  unfold closeSandbox, releaseUser. intros Hr HI Hn. apply bind_Ret in Hr as (er1 & w1 & H1 & Hr).
  apply bind_Ret in H1 as (? & ? & [= <- <-] & H1). destruct (getProcessByName _ name) as [i|] eqn:Hi; [|done].
  apply bind_Ret in H1 as (? & ? & [= <- <-] & H1). destruct (w_heap w !! i) as [p|] eqn:Hp; [|done].
  apply bind_Ret in H1 as (? & ? & [= <- <-] & H1). destruct (Hn i p eq_refl Hp) as [Hit Hk].
  assert (FixedQueue.q_waiting (Users.userQueue (w_users w)) = []) as Hw by by destruct HI as [idf []].
  unfold Users.FreeUser, FixedQueue.EnqueueAlone in H1. rewrite Hw in H1. destruct (_ <? _)%nat.
  - apply bind_Ret in H1 as (? & ? & [= _ <-] & [= <- <-]). cbn in Hr.
    apply bind_Ret in Hr as (? & w2 & H2 & [= _ <-]).
    apply (uncache_Ret e (mkIdent c n v name)) in H2. eapply Inv_quiet; [exact H2|].
    by apply (Inv_close U B X ts w i p name (contractKey c n v)).
  - apply bind_Ret in H1 as (? & ? & [= _ <-] & [= <- <-]). injection Hr as _ <-.
    by destruct w as [? [] ?].
Qed.

Lemma lift_Ret {A} (m : M World A) w n a s : lift m (w, n) = Ret (a, s) → ∃ w', m w = Ret (a, w') ∧ s = (w', n).
Proof. unfold lift. destruct (m w) as [[x w']| |]; [|done..]. intros [= <- <-]. eauto. Qed.

(** The goroutines each handler starts. *)
Definition createKind (t : gor) : bool :=
  match t with GCreate _ | GNamed _ _ | GAdd _ _ _ | GProcess _ | GDone => true | _ => false end.
Definition takeKind (t : gor) : bool :=
  match t with GTake _ _ | GChange _ _ _ _ | GCommit _ _ _ _ | GProcess _ | GDone => true | _ => false end.
Definition cleanKind (t : gor) : bool :=
  match t with GClose _ | GClosed _ | GProcess _ | GDone => true | _ => false end.

(** A goroutine's step keeps the invariant and its kind. *)
Definition step_ok (kind : gor → bool) (step : gor → M (World * Z) gor) : Prop :=
  ∀ U B X t ts w n t' w' n', kind t = true → Inv U B X (t :: ts) w → step t (w, n) = Ret (t', (w', n')) →
    gor_done t = false → Inv U B X (t' :: ts) w' ∧ kind t' = true.

Ltac gsplit Hr :=
  repeat match type of Hr with
  | (_ ≫= _) _ = Ret _ =>
    let H := fresh "Hs" in apply bind_Ret in Hr as (? & ? & H & Hr);
    first [apply lift_Ret in H as (? & H & ->) | unfold addZ, modifyS in H; injection H as _ <-]; cbv beta in Hr
  end.

Lemma processAct_kind x acts w a w' : processAct (x :: acts) w = Ret (a, w') → a = GProcess acts.
Proof. destruct x. unfold processAct. intros Hr. by apply bind_Ret in Hr as (? & ? & _ & [= <- _]). Qed.

Lemma createStep_ok e : step_ok createKind (createStep e).
Proof.
  intros U B X t ts w n t' w' n' Hk HI Hr Hd. destruct t as [k|k name|k name i| | | | | |[|x acts]|]; try done;
    unfold createStep in Hr.
  - gsplit Hr. injection Hr as <- <- <-. split; [|done]. by apply (Inv_newName _ _ _ (GCreate k) _ _ k w x).
  - gsplit Hr. apply Inv_create with (U := U) (B := B) (X := X) (ts := ts) in Hs; [|done].
    case_match; injection Hr as <- <- <-; [done|]. subst. split; [|done]. by eapply Inv_giveup.
  - gsplit Hr. injection Hr as <- <- <-. split; [|done]. apply cacheNew_Ret in Hs.
    eapply Inv_quiet; [done|]. by apply Inv_add.
  - apply lift_Ret in Hr as (w1 & Hr & [= <- <-]). pose proof (processAct_kind _ _ _ _ _ Hr) as ->.
    split; [|done]. by eapply Inv_act.
Qed.

Lemma Inv_GTake_name U B X k i ts w name w' o :
  identAt i w = Ret (o, w) → newName k w = Ret (name, w') → Inv U B X (GTake k i :: ts) w →
  Inv U B X (GChange k i o name :: ts) w'.
Proof.
  intros Hid Hn HI. eapply (Inv_newName _ _ _ (GTake k i)); try done. intros idf Hidf. cbn. rewrite Hidf.
  - unfold identAt in Hid. apply bind_Ret in Hid as (? & ? & [= <- <-] & Hid).
    destruct (w_heap w !! i); [|done]. apply bind_Ret in Hid as (? & ? & [= <- <-] & [= <-]). done.
  - rewrite all_cons. cbn. intros ?%committing_taken. destruct HI as [? []]. rewrite all_cons in i_taken0.
    by apply NoDup_cons in i_taken0 as [? _].
Qed.

Lemma identAt_Ret i w o w' : identAt i w = Ret (o, w') → w' = w ∧ ∃ p, w_heap w !! i = Some p ∧ identOf p = o.
Proof.
  unfold identAt. intros Hid. apply bind_Ret in Hid as (? & ? & [= <- <-] & Hid).
  destruct (w_heap w !! i); [|done]. apply bind_Ret in Hid as (? & ? & [= <- <-] & [= <- <-]). eauto.
Qed.

Lemma takeStep_ok e : good_env e → step_ok takeKind (takeStep e).
Proof.
  intros He U B X t ts w n t' w' n' Hk HI Hr Hd. destruct t as [| | |k i|k i o name|k i o name| | |[|x acts]|]; try done;
    unfold takeStep in Hr.
  - gsplit Hr. destruct (identAt_Ret _ _ _ _ Hs) as [-> _]. destruct (sameContract _ _).
    + gsplit Hr. injection Hr as <- <- <-. split; [|done]. by eapply Inv_giveup.
    + gsplit Hr. injection Hr as <- <- <-. split; [|done]. by eapply Inv_GTake_name.
  - gsplit Hr. apply (Inv_change _ U B X _ _ o _ ts) in Hs; [|done..].
    case_match; injection Hr as <- <- <-; [|done]. subst. split; [|done]. by eapply Inv_giveup.
  - gsplit Hr. injection Hr as <- <- <-. split; [|done]. apply uncache_Ret in Hs. apply cacheNew_Ret in Hs0.
    eapply Inv_quiet; [exact Hs0|]. apply Inv_add. eapply Inv_quiet; [exact Hs|]. by apply Inv_uncache.
  - apply lift_Ret in Hr as (w1 & Hr & [= <- <-]). pose proof (processAct_kind _ _ _ _ _ Hr) as ->.
    split; [|done]. by eapply Inv_act.
Qed.

Lemma cleanStep_ok e : step_ok cleanKind (cleanStep e).
Proof.
  intros U B X t ts w n t' w' n' Hk HI Hr Hd. destruct t as [| | | | | |i|i|[|x acts]|]; try done; unfold cleanStep in Hr.
  - gsplit Hr. eapply onProcess_kept in Hs; [|apply Process.kept_close|exact HI].
    case_match; injection Hr as <- <- <-; (split; [|done]); [by eapply Inv_giveup|].
    revert Hs. by apply Inv_weaken.
  - gsplit Hr. injection Hr as <- <- <-. split; [|done]. destruct (identAt_Ret _ _ _ _ Hs) as (-> & p & Hp & <-).
    apply Inv_done; [done|]. pose proof HI as [idf []].
    eapply Inv_closeSandbox; [exact Hs0|eapply Inv_done; [|by eapply Inv_giveup]; done|].
    intros j q Hj Hq. rewrite all_cons in i_taken0, i_live0. apply NoDup_cons in i_taken0 as [Hit _].
    destruct (wf_named _ _ i_wf0 _ _ Hj) as (o & Ho & Eo).
    assert (j = i) as ->; [|by simplify_eq].
    destruct (i_live0 i) as [k Hk']; [by left|]. destruct (wf_named _ _ i_wf0 _ _ Hk') as (o' & Ho' & Eo').
    rewrite i_idf0, Hp in Ho' by by rewrite all_cons; intros ?%committing_taken.
    injection Ho' as <-. rewrite <-Eo' in Hk'. congruence.
  - apply lift_Ret in Hr as (w1 & Hr & [= <- <-]). pose proof (processAct_kind _ _ _ _ _ Hr) as ->.
    split; [|done]. by eapply Inv_act.
Qed.

Lemma ready_Ret e n k w er w' : good_env e → ready e n k w = Ret (er, w') → er = None ∧ quiet w w'.
Proof.
  intros [_ Hg Hp] Hr. split; [|by eapply quiet_ready]. unfold ready, sendProcessReadyResp in Hr.
  apply bind_Ret in Hr as (? & ? & [= <- <-] & Hr). destruct (pm_scheduler _); [|done]. cbn in Hr.
  rewrite Hg, Hp in Hr. cbn in Hr. by apply bind_Ret in Hr as (? & ? & _ & [= <- _]).
Qed.

Lemma idleStep_ok e : good_env e → step_ok takeKind (idleStep e).
Proof.
  intros He U B X t ts w n t' w' n' Hk HI Hr Hd. destruct t as [| | |k i|k i o name|k i o name| | |[|x acts]|]; try done;
    unfold idleStep in Hr.
  - gsplit Hr. destruct (identAt_Ret _ _ _ _ Hs) as [-> _]. destruct (sameContract _ _).
    + gsplit Hr. injection Hr as <- <- <-. split; [|done]. apply quiet_unwait in Hs0. apply quiet_ready in Hs1.
      eapply Inv_quiet; [exact Hs1|]. eapply Inv_quiet; [exact Hs0|]. by eapply Inv_giveup.
    + gsplit Hr. injection Hr as <- <- <-. split; [|done]. by eapply Inv_GTake_name.
  - gsplit Hr. apply (Inv_change _ U B X _ _ o _ ts) in Hs; [|done..].
    case_match; [injection Hr as <- <- <-; subst; split; [|done]; by eapply Inv_giveup|].
    gsplit Hr. apply ready_Ret in Hs0 as [-> Hq]; [|done]. injection Hr as <- <- <-. split; [|done].
    by eapply Inv_quiet.
  - gsplit Hr. injection Hr as <- <- <-. split; [|done]. apply quiet_unwait in Hs. apply uncache_Ret in Hs0.
    apply cacheNew_Ret in Hs1. eapply Inv_quiet; [exact Hs1|]. apply Inv_add. eapply Inv_quiet; [exact Hs0|].
    apply Inv_uncache. by eapply Inv_quiet.
  - apply lift_Ret in Hr as (w1 & Hr & [= <- <-]). pose proof (processAct_kind _ _ _ _ _ Hr) as ->.
    split; [|done]. by eapply Inv_act.
Qed.

Lemma newStep_ok e : good_env e → step_ok createKind (newStep e).
Proof.
  intros He U B X t ts w n t' w' n' Hk HI Hr Hd. destruct t as [k|k name|k name i| | | | | |[|x acts]|]; try done;
    unfold newStep in Hr.
  - gsplit Hr. apply ready_Ret in Hs as [-> Hq]; [|done]. gsplit Hr. injection Hr as <- <- <-. split; [|done].
    eapply (Inv_newName _ _ _ (GCreate k)); try done. by eapply Inv_quiet.
  - gsplit Hr. apply Inv_create with (U := U) (B := B) (X := X) (ts := ts) in Hs; [|done].
    case_match; injection Hr as <- <- <-; [done|]. subst. split; [|done]. by eapply Inv_giveup.
  - gsplit Hr. injection Hr as <- <- <-. split; [|done]. apply quiet_unwait in Hs. apply cacheNew_Ret in Hs0.
    eapply Inv_quiet; [exact Hs0|]. apply Inv_add. by eapply Inv_quiet.
  - apply lift_Ret in Hr as (w1 & Hr & [= <- <-]). pose proof (processAct_kind _ _ _ _ _ Hr) as ->.
    split; [|done]. by eapply Inv_act.
Qed.

(** *** The groups of goroutines *)

Lemma Inv_acts U B X acts ts w :
  Forall (λ x, ∀ p, Process.kept p (x.2 p)) acts → Inv U B X ts w → Inv U B X (GProcess acts :: ts) w.
Proof. intros Ha [idf []]. exists idf. split; try done. by constructor. Qed.

Lemma insert_Permutation {A} (l : list A) i x y : l !! i = Some x → <[i := y]> l ≡ₚ y :: delete i l.
Proof.
  intros Hi. rewrite insert_take_drop by by eapply lookup_lt_Some. rewrite delete_take_drop.
  by rewrite Permutation_middle.
Qed.

Lemma goroutines_inv kind step c ts n U B X w n' w' :
  step_ok kind step → kind (GProcess (c_acts c)) = true → Forall (λ t, kind t = true) ts →
  Forall (λ x, ∀ p, Process.kept p (x.2 p)) (c_acts c) →
  Inv U B X ts w → goroutines step c ts n w = Ret (n', w') → Inv U B X [] w'.
Proof.
  intros Hstep Hkp Hkind Hacts HI. unfold goroutines.
  destruct (run_group _ _ _ _ _) as [[ts' [w1 n1]]| |] eqn:Hrun; [|done..]. intros [= <- <-].
  apply (run_group_inv _ _ (λ ts s, Inv U B X ts s.1 ∧ Forall (λ t, kind t = true) ts)) in Hrun as ([HI1 _] & Hd & _).
  - clear -Hd HI1. cbn in HI1. induction Hd as [|t ts Ht _ IH]; [done|]. apply IH. by apply Inv_done in HI1.
  - clear -Hstep. intros ts [w n] i t t' [w' n'] [HI Hk] Ht Hd Hs. cbn in *.
    rewrite (delete_Permutation _ _ _ Ht) in HI. rewrite Forall_lookup in Hk.
    destruct (Hstep U B X t (delete i ts) w n t' w' n') as [HI' Hk']; [eauto..|].
    split; [|apply Forall_insert; [by apply Forall_lookup|done]].
    by rewrite (insert_Permutation _ _ _ _ Ht).
  - cbn. split; [|apply Forall_app; by repeat constructor]. rewrite Permutation_app_comm. by apply Inv_acts.
Qed.

Lemma Inv_budget U B B' X ts w : B ≤ B' < u64_max → Inv U B X ts w → Inv U B' X ts w.
Proof. intros HB [idf []]. exists idf. split; try done. lia. Qed.

(** Goroutines that start hold no name and no new process. *)
Definition starts (t : gor) : bool := match t with GCreate _ | GTake _ _ | GClose _ => true | _ => false end.

Lemma Inv_start U B X ts w :
  Inv U B X [] w → Forall (λ t, starts t = true) ts → NoDup (all taken ts) →
  (∀ i, i ∈ all taken ts → ∃ k, getProcessByName (w_pm w) k = Some i) →
  Z.of_nat (length (cachedPtrs (w_pm w))) + Z.of_nat (length (all growing ts)) ≤ N →
  B + Z.of_nat (length ts) < u64_max →
  Inv U (B + Z.of_nat (length ts)) X ts w.
Proof.
  intros [idf []] Hs Hnd Hlive Hroom HB. exists idf.
  assert (all pend ts = [] ∧ all fresh ts = [] ∧ all committing ts = [] ∧
    (length (all naming ts) ≤ length ts)%nat ∧ Forall (goroutine_ok idf (w_heap w)) ts) as (E1 & E2 & E3 & E4 & E5).
  { clear -Hs. induction Hs as [|t ts Ht _ (IH1&IH2&IH3&IH4&IH5)]; [done|]. rewrite !all_cons, IH1, IH2, IH3.
    split_and!; try by destruct t. - rewrite length_app. destruct t; cbn; lia. - constructor; [by destruct t|done]. }
  split; rewrite ?E1, ?E2, ?E3; try done; cbn in i_cnt0; lia.
Qed.

Lemma idle_cached s k i : (k, i) ∈ lhm_list (pm_idleProcesses s) → NoDup (lhm_list (pm_idleProcesses s)).*1 →
  getProcessByName s k = Some i.
Proof. intros Hk Hn. unfold getProcessByName. by rewrite lhm_get_list, (al_get_nodup _ _ _ Hn Hk). Qed.

(** The processes peeked are cached, and no two are the same. *)
Lemma peek_cached s idf n l : pmwf s idf → peekIdleProcesses s n = Some l →
  NoDup l ∧ (∀ i, i ∈ l → ∃ k, getProcessByName s k = Some i) ∧ (length l ≤ n)%nat ∧
  (length l ≤ length (cachedPtrs s))%nat.
Proof.
  intros [Hn _ Hnm _ _ _]. unfold peekIdleProcesses. case_match; [done|]. intros [= <-].
  assert (NoDup (lhm_list (pm_idleProcesses s)).*2) as H2.
  { apply NoDup_fmap_2_strong; [|by eapply NoDup_fmap_1]. intros [k i] [k' i'] Hk Hk' [= <-].
    destruct (Hnm k i (idle_cached _ _ _ Hk Hn)) as (o & Ho & <-).
    destruct (Hnm k' i (idle_cached _ _ _ Hk' Hn)) as (o' & Ho' & <-). by simplify_eq. }
  split_and!.
  - eapply sub_NoDup; [exact H2|]. apply sublist_submseteq, sublist_take.
  - intros i Hi. apply elem_of_take in Hi as (j & Hj & _). apply list_elem_of_lookup_2 in Hj.
    apply list_elem_of_fmap in Hj as ([k i'] & -> & Hk). exists k. by apply idle_cached.
  - rewrite length_take. lia.
  - unfold cachedPtrs. rewrite length_app, length_take. lia.
Qed.

Lemma all_taken_GTake k l : all taken (GTake k <$> l) = l.
Proof. unfold all. induction l as [|i l IH]; cbn; [done|]. by f_equal. Qed.
Lemma all_taken_GClose l : all taken (GClose <$> l) = l.
Proof. unfold all. induction l as [|i l IH]; cbn; [done|]. by f_equal. Qed.
Lemma all_taken_zip ks l : all taken (zip_with GTake ks l) ⊆+ l.
Proof.
  unfold all. revert ks. induction l as [|i l IH]; intros [|k ks]; cbn; try done; [apply submseteq_nil_l|].
  by apply submseteq_skip.
Qed.

(** *** The handlers *)

Definition conc_ok (c : conc) : Prop := Forall (λ x, ∀ p, Process.kept p (x.2 p)) (c_acts c).

Lemma cachedPtrs_length s : Z.of_nat (length (cachedPtrs s)) = pm_maxProcessNum s - getAvailableProcessNum s.
Proof.
  unfold cachedPtrs, getAvailableProcessNum. rewrite length_app, !length_fmap, lhm_size_list.
  rewrite length_map_to_list. lia.
Qed.

Lemma all_growing_GCreate ts : Forall (λ t, ∃ k, t = GCreate k) ts → length (all growing ts) = length ts ∧ all taken ts = [].
Proof.
  induction 1 as [|t ts [k ->] _ [IH1 IH2]]; [done|]. rewrite !all_cons, length_app, IH1, IH2. done.
Qed.

(** Goroutines that create processes, as many as there is room. *)
Lemma creating_start ts U B X w :
  Forall (λ t, ∃ k, t = GCreate k) ts → Z.of_nat (length ts) ≤ getAvailableProcessNum (w_pm w) → B + N < u64_max →
  Inv U B X [] w → Inv U (B + N) X ts w.
Proof.
  intros Hts Hlen HB HI. pose proof (all_growing_GCreate ts Hts) as [Hg Ht].
  assert (Z.of_nat (length (cachedPtrs (w_pm w))) + Z.of_nat (length ts) ≤ N) as Hroom.
  { destruct HI as [idf []]. rewrite cachedPtrs_length. lia. }
  apply (Inv_budget _ (B + Z.of_nat (length ts))); [lia|]. apply Inv_start; rewrite ?Hg, ?Ht; try done; try lia.
  - eapply Forall_impl; [exact Hts|]. by intros t [k ->].
  - constructor.
  - by intros i ?%elem_of_nil.
Qed.

Lemma creating_inv step c ts n U B X w n' w' :
  step_ok createKind step → conc_ok c → Forall (λ t, ∃ k, t = GCreate k) ts →
  Z.of_nat (length ts) ≤ getAvailableProcessNum (w_pm w) → B + N < u64_max →
  Inv U B X [] w → goroutines step c ts n w = Ret (n', w') → Inv U (B + N) X [] w'.
Proof.
  intros Hs Hc Hts Hlen HB HI Hr.
  eapply (goroutines_inv createKind _ _ _ _ _ (B + N)); [done..| |exact Hc| |exact Hr].
  - eapply Forall_impl; [exact Hts|]. by intros t [k ->].
  - by apply creating_start.
Qed.

(** Goroutines that work on processes peeked from the idle ones. *)
Lemma taking_start ts m l U B X w :
  Forall (λ t, starts t = true) ts → all growing ts = [] → all taken ts ⊆+ l →
  (length ts ≤ length l)%nat → peekIdleProcesses (w_pm w) m = Some l → B + N < u64_max →
  Inv U B X [] w → Inv U (B + N) X ts w.
Proof.
  intros Hst Hg Ht Hlen Hl HB HI.
  assert (NoDup l ∧ (∀ i, i ∈ l → ∃ k, getProcessByName (w_pm w) k = Some i) ∧ Z.of_nat (length ts) ≤ N ∧
    Z.of_nat (length (cachedPtrs (w_pm w))) ≤ N) as (H1 & H2 & H3 & H4).
  { destruct HI as [idf []]. destruct (peek_cached _ _ _ _ i_wf0 Hl) as (?&?&?&?). cbn in *. split_and!; try done; lia. }
  apply (Inv_budget _ (B + Z.of_nat (length ts))); [lia|]. apply Inv_start; rewrite ?Hg; try done; try (cbn; lia).
  - by eapply sub_NoDup.
  - intros i Hi. apply H2. by eapply elem_of_submseteq.
Qed.

Lemma taking_inv kind step c ts m l n U B X w n' w' :
  step_ok kind step → kind (GProcess (c_acts c)) = true → conc_ok c → Forall (λ t, kind t = true) ts →
  Forall (λ t, starts t = true) ts → all growing ts = [] → all taken ts ⊆+ l →
  (length ts ≤ length l)%nat → peekIdleProcesses (w_pm w) m = Some l → B + N < u64_max →
  Inv U B X [] w → goroutines step c ts n w = Ret (n', w') → Inv U (B + N) X [] w'.
Proof.
  intros Hs Hkp Hc Hk Hst Hg Ht Hlen Hl HB HI Hr.
  eapply (goroutines_inv kind _ _ _ _ _ (B + N)); [done..|exact Hc| |exact Hr]. by eapply taking_start.
Qed.

Lemma all_growing_GTake k l : all growing (GTake k <$> l) = [].
Proof. unfold all. by induction l. Qed.
Lemma all_growing_GClose l : all growing (GClose <$> l) = [].
Proof. unfold all. by induction l. Qed.
Lemma all_growing_zip ks l : all growing (zip_with GTake ks l) = [].
Proof. unfold all. revert l. induction ks as [|k ks IH]; by intros [|i l]; cbn. Qed.

Lemma Forall_fmap_all {A} (P : gor → Prop) (f : A → gor) l : (∀ x, P (f x)) → Forall P (f <$> l).
Proof. intros H. apply Forall_fmap, Forall_true. intros x. apply H. Qed.

Section inv_handlers.
Context (e : Process.env) (He : good_env e).

Lemma handleGetProcessReq_inv U B X c1 c2 msg w er w' :
  conc_ok c1 → conc_ok c2 → 0 ≤ N → B + 2 * N < u64_max →
  Inv U B X [] w → handleGetProcessReq e c1 c2 msg w = Ret (er, w') → Inv U (B + 2 * N) X [] w'.
Proof.
  intros Hc1 Hc2 HN HB HI Hr. unfold handleGetProcessReq in Hr. cbv zeta in Hr. case_match.
  { apply bind_Ret in Hr as (? & w1 & H1 & [= _ <-]). apply quiet_unwait in H1.
    eapply Inv_quiet; [exact H1|]. by apply (Inv_budget _ B); [lia|]. }
  apply bind_Ret in Hr as (? & ? & [= <- <-] & Hr). apply bind_Ret in Hr as (need & w1 & H1 & Hr).
  assert (Inv U (B + N) X [] w1) as HI1.
  { case_match; [|injection H1 as _ <-; by apply (Inv_budget _ B); [lia|]].
    rewrite Min_spec in H1. case_match; [done|].
    eapply creating_inv; [apply createStep_ok|exact Hc1| | | |exact HI|exact H1]; [| |lia].
    - apply Forall_replicate. by eexists.
    - rewrite length_replicate. lia. }
  clear H1 HI. apply bind_Ret in Hr as (? & ? & [= <- <-] & Hr). apply bind_Ret in Hr as (r & w2 & H2 & Hr).
  assert (Inv U (B + 2 * N) X [] w2) as HI2.
  { destruct (_ && _); [|injection H2 as _ <-; by apply (Inv_budget _ (B + N)); [lia|]].
    destruct (peekIdleProcesses _ _) eqn:Hp; [|injection H2 as _ <-; by apply (Inv_budget _ (B + N)); [lia|]].
    apply bind_Ret in H2 as (? & w3 & H3 & [= _ <-]). replace (B + 2 * N) with (B + N + N) by lia.
    eapply (taking_inv takeKind); [by apply takeStep_ok|done|exact Hc2| | | | | |exact Hp|lia|exact HI1|exact H3].
    - by apply Forall_fmap_all.
    - by apply Forall_fmap_all.
    - apply all_growing_GTake.
    - by rewrite all_taken_GTake.
    - by rewrite length_fmap. }
  clear H2 HI1. destruct r as [need'|]; [|by injection Hr as _ <-]. case_match.
  - apply bind_Ret in Hr as (? & ? & [= <- <-] & Hr). case_match; [by injection Hr as _ <-|].
    apply bind_Ret in Hr as (? & ? & [= _ <-] & [= _ <-]). eapply Inv_quiet, HI2. done.
  - apply bind_Ret in Hr as (? & w3 & H3 & [= _ <-]). apply quiet_ready in H3. by eapply Inv_quiet.
Qed.

Lemma handleClean_inv U B X c w a w' :
  conc_ok c → 0 ≤ N → B + 2 * N < u64_max →
  Inv U B X [] w → handleCleanIdleProcesses e c w = Ret (a, w') → Inv U (B + 2 * N) X [] w'.
Proof.
  intros Hc HN HB HI Hr. unfold handleCleanIdleProcesses in Hr. cbv zeta in Hr.
  apply bind_Ret in Hr as (? & ? & [= <- <-] & Hr). case_match; [injection Hr as _ <-; by apply (Inv_budget _ B); [lia|]|].
  apply bind_Ret in Hr as (l & w1 & H1 & Hr). destruct (peekIdleProcesses _ _) eqn:Hp; [|done]. injection H1 as <- <-.
  apply bind_Ret in Hr as (n & w1 & H1 & Hr). apply bind_Ret in Hr as (? & w2 & H2 & Hr).
  apply quiet_startTimer in Hr. eapply Inv_quiet; [exact Hr|].
  assert (quiet w1 w2) as Hq by (case_match; [by eapply quiet_notifyNew|by injection H2 as _ <-]).
  eapply Inv_quiet; [exact Hq|]. apply (Inv_budget _ (B + N)); [lia|].
  eapply (taking_inv cleanKind); [by apply cleanStep_ok|done|exact Hc| | | | | |exact Hp|lia|exact HI|exact H1].
  - by apply Forall_fmap_all.
  - by apply Forall_fmap_all.
  - apply all_growing_GClose.
  - by rewrite all_taken_GClose.
  - by rewrite length_fmap.
Qed.

Lemma Forall_zip_GTake (P : gor → Prop) ks l : (∀ k i, P (GTake k i)) → Forall P (zip_with GTake ks l).
Proof. intros H. revert l. induction ks as [|k ks IH]; intros [|i l]; cbn; constructor; auto. Qed.

Lemma handleAllocateIdle_inv U B X c w a w' :
  conc_ok c → 0 ≤ N → B + 2 * N < u64_max →
  Inv U B X [] w → handleAllocateIdleProcesses e c w = Ret (a, w') → Inv U (B + 2 * N) X [] w'.
Proof.
  intros Hc HN HB HI Hr. unfold handleAllocateIdleProcesses in Hr. cbv zeta in Hr.
  apply bind_Ret in Hr as (? & ? & [= <- <-] & Hr). case_match; [injection Hr as _ <-; by apply (Inv_budget _ B); [lia|]|].
  apply bind_Ret in Hr as (l & w1 & H1 & Hr). destruct (peekIdleProcesses _ _) eqn:Hp; [|done]. injection H1 as <- <-.
  apply bind_Ret in Hr as (ks & w1 & H1 & Hr). destruct (peekWaitingRequestGroups _ _); [|done]. injection H1 as <- <-.
  apply bind_Ret in Hr as (n & w1 & H1 & [= _ <-]). apply (Inv_budget _ (B + N)); [lia|].
  eapply (taking_inv takeKind); [by apply idleStep_ok|done|exact Hc| | | | | |exact Hp|lia|exact HI|exact H1].
  - by apply Forall_zip_GTake.
  - by apply Forall_zip_GTake.
  - apply all_growing_zip.
  - apply all_taken_zip.
  - rewrite length_zip_with. lia.
Qed.

Lemma handleAllocateNew_inv U B X c w a w' :
  conc_ok c → 0 ≤ N → B + 2 * N < u64_max →
  Inv U B X [] w → handleAllocateNewProcesses e c w = Ret (a, w') → Inv U (B + 2 * N) X [] w'.
Proof.
  intros Hc HN HB HI Hr. unfold handleAllocateNewProcesses in Hr. cbv zeta in Hr.
  apply bind_Ret in Hr as (? & ? & [= <- <-] & Hr). case_match; [injection Hr as _ <-; by apply (Inv_budget _ B); [lia|]|].
  case_match eqn:Hneg; [done|]. apply Z.ltb_ge in Hneg. apply bind_Ret in Hr as (ks & w1 & H1 & Hr).
  destruct (peekWaitingRequestGroups _ _) as [l|] eqn:Hp; [|done]. injection H1 as <- <-.
  apply bind_Ret in Hr as (n & w1 & H1 & [= _ <-]). apply (Inv_budget _ (B + N)); [lia|].
  eapply creating_inv; [by apply newStep_ok|exact Hc| | | |exact HI|exact H1]; [| |lia].
  - apply Forall_fmap_all. by eexists.
  - rewrite length_fmap. unfold peekWaitingRequestGroups in Hp. case_match; [done|]. injection Hp as <-.
    rewrite Min_spec in *. rewrite length_take. lia.
Qed.

Lemma handleSandboxExit_inv U B X msg w er w' :
  Inv U B X [] w → handleSandboxExitMsg e msg w = Ret (er, w') →
  (∀ i p, getProcessByName (w_pm w) (se_ProcessName msg) = Some i → w_heap w !! i = Some p →
    contractKey (se_ChainID msg) (se_ContractName msg) (se_ContractVersion msg) = okey (identOf p)) →
  Inv U B X [] w'.
Proof.
  intros HI Hr Hk. unfold handleSandboxExitMsg in Hr. apply bind_Ret in Hr as (er1 & w1 & H1 & Hr).
  eapply Inv_closeSandbox in H1; [|exact HI|].
  2: { intros i p Hi Hp. split; [apply not_elem_of_nil|]. eauto. }
  destruct er1; [by injection Hr as _ <-|]. apply bind_Ret in Hr as (? & w2 & H2 & [= _ <-]).
  apply quiet_notifyNew in H2. by eapply Inv_quiet.
Qed.

(** The state between the handlers. *)
Definition Wf (U : list Users.User) (B : Z) (w : World) : Prop := Inv U B (exits (w_pm w)) [] w.

Lemma Inv_Wf U B X w : Inv U B X [] w → Wf U B w.
Proof. intros HI. unfold Wf. pose proof HI as [idf []]. by rewrite i_queue0. Qed.

(** A message taken from the channel, or put into it. *)
Lemma Inv_chans U B X X' w ev a n :
  Inv U B X [] w → let w' := on_pm (λ s, set_chans ev a n s) w in
  exits (w_pm w') = X' →
  (∀ name gk, (name, gk) ∈ X' → (name, gk) ∈ X ∨
    ∃ i p, getProcessByName (w_pm w) name = Some i ∧ w_heap w !! i = Some p ∧ okey (identOf p) = gk) →
  Inv U B X' [] w'.
Proof.
  intros [idf []] w' HX Hin. exists idf. split; try done.
  - eapply pmwf_core, i_wf0. done.
  - intros name. by intros ?%elem_of_nil.
  - intros name gk Hx. destruct (Hin name gk Hx) as [Hx'|(i & p & Hi & Hp & Hk)]; [by apply i_exits0|].
    split; [by apply (wf_issued _ _ i_wf0 _ _ Hi)|]. intros j o Hj Ho.
    change (getProcessByName (w_pm w) name = Some j) in Hj. rewrite Hi in Hj. injection Hj as <-.
    rewrite i_idf0, Hp in Ho by apply not_elem_of_nil. by injection Ho as <-.
Qed.

Lemma pm_loopStep_inv U B sel c1 c2 w a w' :
  conc_ok c1 → conc_ok c2 → 0 ≤ N → B + 2 * N < u64_max →
  Wf U B w → loopStep e sel c1 c2 w = Ret (a, w') → Wf U (B + 2 * N) w'.
Proof.
  intros Hc1 Hc2 HN HB HI Hr. unfold loopStep in Hr. apply bind_Ret in Hr as (? & ? & [= <- <-] & Hr). unfold Wf in HI.
  assert (∀ a n, Inv U B (exits (w_pm w)) [] (on_pm (λ s, set_chans (pm_eventCh s) a n s) w)) as Hch.
  { intros. eapply Inv_chans; [exact HI|done|]. intros. by left. }
  destruct sel.
  - destruct (pm_eventCh (w_pm w)) as [|msg rest] eqn:Ev; [done|].
    apply bind_Ret in Hr as (? & ? & [= _ <-] & Hr). unfold exits in HI. rewrite Ev in HI.
    eapply Inv_chans with (ev := rest) (a := pm_allocateIdleCh (w_pm w)) (n := pm_allocateNewCh (w_pm w))
      in HI as HI1; [|done|].
    2: { intros name gk Hx. left. cbn. destruct msg; try exact Hx. right. exact Hx. }
    destruct msg as [|m| |m| | | |]; try (injection Hr as _ <-; apply Inv_Wf in HI1;
      by apply (Inv_budget _ B) with (B' := B + 2 * N) in HI1; [|lia]).
    + apply bind_Ret in Hr as (er & w2 & H2 & [= _ <-]). eapply Inv_Wf, handleGetProcessReq_inv, H2; done.
    + apply bind_Ret in Hr as (er & w2 & H2 & [= _ <-]). eapply Inv_Wf, (Inv_budget _ B); [lia|].
      eapply handleSandboxExit_inv; [exact HI1|exact H2|]. intros i p Hi Hp. pose proof HI as [idf []].
      destruct (i_exits0 (se_ProcessName m)
        (contractKey (se_ChainID m) (se_ContractName m) (se_ContractVersion m))) as [_ Hk]; [by left|].
      symmetry. apply (Hk i); [done|]. rewrite i_idf0 by apply not_elem_of_nil.
      change (w_heap w !! i = Some p) in Hp. by rewrite Hp.
  - destruct (pm_timerC (w_pm w)); [|done]. apply bind_Ret in Hr as (? & ? & [= _ <-] & Hr).
    eapply Inv_Wf, handleClean_inv, Hr; try done. eapply Inv_quiet, HI. done.
  - destruct (pm_allocateIdleCh (w_pm w)) as [|n]; [done|]. apply bind_Ret in Hr as (? & ? & [= _ <-] & Hr).
    apply bind_Ret in Hr as (er & w2 & H2 & [= _ <-]). eapply Inv_Wf, handleAllocateIdle_inv, H2; try done. apply Hch.
  - destruct (pm_allocateNewCh (w_pm w)) as [|n]; [done|]. apply bind_Ret in Hr as (? & ? & [= _ <-] & Hr).
    apply bind_Ret in Hr as (er & w2 & H2 & [= _ <-]). eapply Inv_Wf, handleAllocateNew_inv, H2; try done.
    apply (Hch (pm_allocateIdleCh (w_pm w))).
Qed.
End inv_handlers.

(** *** The calls of the processes *)

(** Moving a process between the idle and the busy ones. *)
Definition moved (name : string) (i : nat) (toBusy : bool) (s : ProcessManager) : ProcessManager :=
  if toBusy then set_idle (lhm_remove (pm_idleProcesses s) name) (set_busy (<[name := i]> (pm_busyProcesses s)) s)
  else set_busy (delete name (pm_busyProcesses s)) (set_idle (lhm_put (pm_idleProcesses s) name i) s).

Lemma cached_moved s name i b k : getProcessByName s name = Some i →
  (b = false → pm_busyProcesses s !! name = Some i ∧ lhm_get (pm_idleProcesses s) name = None) →
  getProcessByName (moved name i b s) k = getProcessByName s k.
Proof.
  intros Hn Hb. unfold getProcessByName in *. destruct b; cbn [moved pm_idleProcesses pm_busyProcesses set_idle set_busy].
  - rewrite !lhm_get_list in *. rewrite lhm_remove_list, al_get_remove. case_decide; subst.
    + by rewrite lookup_insert_eq.
    + by rewrite lookup_insert_ne.
  - rewrite !lhm_get_list in *. rewrite lhm_put_list, al_get_put. case_decide; subst.
    + done.
    + by rewrite lookup_delete_ne.
Qed.

Lemma moved_ptrs s idf name i b : pmwf s idf → getProcessByName s name = Some i →
  (if b : bool then lhm_get (pm_idleProcesses s) name = Some i
   else pm_busyProcesses s !! name = Some i ∧ lhm_get (pm_idleProcesses s) name = None) →
  cachedPtrs (moved name i b s) ≡ₚ cachedPtrs s.
Proof.
  intros [H1 H2 _ _ _ _] Hn. unfold cachedPtrs. destruct b; cbn [moved pm_idleProcesses pm_busyProcesses set_idle set_busy].
  - rewrite lhm_get_list, lhm_remove_list. intros Hi. rewrite (al_remove_perm _ _ _ H1 Hi) at 2.
    rewrite map_to_list_insert by (apply H2, al_get_is_Some; by eexists). cbn. by rewrite Permutation_middle.
  - rewrite lhm_get_list, lhm_put_list, al_get_None. intros [Hb Hi]. rewrite al_put_out by done.
    rewrite <-(map_to_list_delete _ _ _ Hb). rewrite fmap_app. cbn. by rewrite <-app_assoc.
Qed.

Lemma Inv_moved U B X w name i (b : bool) : Inv U B X [] w → getProcessByName (w_pm w) name = Some i →
  (if b then lhm_get (pm_idleProcesses (w_pm w)) name = Some i
   else pm_busyProcesses (w_pm w) !! name = Some i ∧ lhm_get (pm_idleProcesses (w_pm w)) name = None) →
  Inv U B X [] (on_pm (moved name i b) w).
Proof.
  intros [idf []] Hn Hb. exists idf.
  assert (∀ k, getProcessByName (moved name i b (w_pm w)) k = getProcessByName (w_pm w) k) as Hc.
  { intros k. apply cached_moved; [done|]. by destruct b. }
  pose proof (moved_ptrs _ _ _ _ _ i_wf0 Hn Hb) as Hp.
  split; cbn [w_pm w_heap w_users on_pm]; try done.
  - destruct i_wf0 as [H1 H2 H3 H4 H5 H6]. split.
    + destruct b; cbn; [rewrite lhm_remove_list|rewrite lhm_put_list]; auto with vmdb.
    + destruct b; cbn; intros k; [rewrite lhm_remove_list, al_remove_elem|rewrite lhm_put_list, al_put_elem].
      * intros [Hk ?]. rewrite lookup_insert_ne by done. auto.
      * rewrite lookup_delete_None. intros [Hk| ->]; [|by left]. right. auto.
    + intros k j. rewrite Hc. apply H3.
    + intros gk k j. rewrite Hc, <-H4. by destruct b.
    + intros gk g. destruct b; apply H5.
    + intros k j. rewrite Hc. intros Hk. apply H6 in Hk. by destruct b.
  - by intros n ?%elem_of_nil.
  - by intros n ?%elem_of_nil.
  - rewrite Hp. by destruct b.
  - by destruct b.
  - unfold freeUsers. cbn. by rewrite Hp.
  - by destruct b.
  - by destruct b.
  - by destruct b.
  - intros n gk Hx. destruct (i_exits0 n gk Hx) as [Hi Hk]. split; [by destruct b|]. intros j o. rewrite Hc. apply Hk.
Qed.

Lemma addProcessToIdle_Ret e name i w a w' : addProcessToIdle e name i w = Ret (a, w') →
  quiet (on_pm (λ s, set_idle (lhm_put (pm_idleProcesses s) name i) s) w) w'.
Proof.
  unfold addProcessToIdle. intros Hr. apply bind_Ret in Hr as (? & ? & [= _ <-] & Hr). revert Hr.
  match goal with |- ?m ?s = _ → _ => assert (preserves quiet m) as Hq; [|intros Hr; exact (Hq _ _ _ Hr)] end.
  preserves_tac ltac:(done); apply quiet_unwait.
Qed.

Lemma ChangeProcessState_inv e U B X name b w er w' :
  Inv U B X [] w → ChangeProcessState e name b w = Ret (er, w') → Inv U B X [] w'.
Proof.
  intros HI Hr. unfold ChangeProcessState in Hr. apply bind_Ret in Hr as (? & ? & [= <- <-] & Hr). destruct b.
  - destruct (lhm_get (pm_idleProcesses (w_pm w)) name) as [i|] eqn:Hi; [|by injection Hr as _ <-].
    apply bind_Ret in Hr as (? & ? & [= _ <-] & Hr). apply bind_Ret in Hr as (? & ? & [= _ <-] & [= _ <-]).
    apply (Inv_moved U B X w name i true); [done| |done]. unfold getProcessByName. by rewrite Hi.
  - destruct (pm_busyProcesses (w_pm w) !! name) as [i|] eqn:Hb; [|by injection Hr as _ <-].
    assert (lhm_get (pm_idleProcesses (w_pm w)) name = None) as Hi.
    { destruct (lhm_get (pm_idleProcesses (w_pm w)) name) eqn:E; [|done]. destruct HI as [idf []].
      rewrite (wf_disj _ _ i_wf0 name) in Hb; [done|]. apply al_get_is_Some. rewrite <-lhm_get_list. by eexists. }
    apply bind_Ret in Hr as (? & w1 & H1 & Hr). apply bind_Ret in Hr as (? & ? & [= _ <-] & [= _ <-]).
    apply addProcessToIdle_Ret in H1. eapply Inv_quiet.
    2: { apply (Inv_moved U B X w name i false); [done| |done]. unfold getProcessByName. by rewrite Hi. }
    destruct H1 as (E1 & E2 & E3 & E4). split_and!; try done. unfold coreOf in *. injection E1. intros.
    cbn in *. congruence.
Qed.

(** ** Reachable states *)

(** An exit message is the report of a process the manager keeps, with its names. *)
Definition reports (x : SandboxExitMsg) (w : World) : Prop :=
  ∃ i p, getProcessByName (w_pm w) (se_ProcessName x) = Some i ∧ w_heap w !! i = Some p ∧
    identOf p = mkIdent (se_ChainID x) (se_ContractName x) (se_ContractVersion x) (se_ProcessName x).

Inductive pmstep : World → World → Prop :=
| pm_loop e sel c1 c2 w w' : good_env e → conc_ok c1 → conc_ok c2 →
    loopStep e sel c1 c2 w = Ret (tt, w') → pmstep w w'
| pm_put m w r w' : (∀ x, m = AnySandboxExit x → reports x w) → PutMsg m w = Ret (r, w') → pmstep w w'
| pm_change e name b w r w' : ChangeProcessState e name b w = Ret (r, w') → pmstep w w'
| pm_process i p p' w : w_heap w !! i = Some p → Process.kept p p' →
    pmstep w (set_heap (<[i := p']> (w_heap w)) w)
| pm_fire w : pm_timerArmed (w_pm w) = true → pmstep w (on_pm (λ s, set_clean false true s) w).

(** The manager with its scheduler and the users at start. *)
Definition initial (rate : Z → Z) (isOrig : bool) (um : Users.UserManager) : World :=
  mkW (SetScheduler (NewProcessManager N rate isOrig)) um [].

Lemma Wf_initial rate isOrig um : 0 ≤ N → FixedQueue.q_waiting (Users.userQueue um) = [] →
  Wf (FixedQueue.q_queue (Users.userQueue um)) 0 (initial rate isOrig um).
Proof.
  intros HN Hw. exists (λ _, None). split; try done; unfold initial; cbn [w_pm w_users w_heap].
  - split; cbn [pm_idleProcesses pm_busyProcesses pm_processGroups SetScheduler NewProcessManager].
    + rewrite lhm_list_new. constructor.
    + done.
    + intros k i. unfold getProcessByName. cbn. by rewrite lhm_get_list, lhm_list_new.
    + intros gk k i. split; [by intros (? & ? & ?)|]. intros (_ & o & ? & _). done.
    + done.
    + intros k i. unfold getProcessByName. cbn. by rewrite lhm_get_list, lhm_list_new.
  - constructor.
  - by intros n ?%elem_of_nil.
  - constructor.
  - by intros n ?%elem_of_nil.
  - unfold cachedPtrs. cbn. rewrite lhm_list_new, map_to_list_empty. cbn. lia.
  - unfold cachedPtrs, freeUsers. cbn. rewrite lhm_list_new, map_to_list_empty. cbn. by rewrite app_nil_r.
  - constructor.
  - by intros n gk ?%elem_of_nil.
Qed.

Lemma PutMsg_inv U B w m r w' : (∀ x, m = AnySandboxExit x → reports x w) →
  Wf U B w → PutMsg m w = Ret (r, w') → Wf U B w'.
Proof.
  intros Hm HI Hr. destruct m as [|m| |m| | | |]; try (by injection Hr as _ <-);
    apply bind_Ret in Hr as (? & ? & [= <- <-] & Hr); cbv zeta in Hr; destruct (_ <=? _); try done;
    apply bind_Ret in Hr as (? & ? & [= _ <-] & [= _ <-]);
    (eapply Inv_Wf, (Inv_chans _ _ _ _ w (pm_eventCh (w_pm w) ++ [_])); [exact HI|done|]); intros name gk; unfold exits; cbn; rewrite omap_app, elem_of_app; cbn.
  - rewrite elem_of_nil. intros [?|[]]. by left.
  - rewrite list_elem_of_singleton. intros [?|[= -> ->]]; [by left|]. right.
    destruct (Hm m eq_refl) as (i & p & ? & ? & Hid). exists i, p. split_and!; [done..|]. by rewrite Hid.
Qed.

Lemma pmstep_inv U B w w' : 0 ≤ N → B + 2 * N < u64_max → pmstep w w' → Wf U B w → Wf U (B + 2 * N) w'.
Proof.
  intros HN HB Hs HI. assert (∀ w, Wf U B w → Wf U (B + 2 * N) w) as Hb.
  { intros. by apply (Inv_budget _ B); [lia|]. }
  destruct Hs as [e sel c1 c2 w w' He Hc1 Hc2 Hr|m w r w' Hm Hr|e name b w r w' Hr|i p p' w Hi Hk|w _].
  - eapply (pm_loopStep_inv e He); [exact Hc1|exact Hc2|done..|exact HI|exact Hr].
  - eapply Hb, PutMsg_inv; [exact Hm|exact HI|exact Hr].
  - eapply Hb, Inv_Wf, ChangeProcessState_inv, Hr. exact HI.
  - by apply Hb, (Inv_kept _ _ _ _ _ _ p).
  - apply Hb. eapply Inv_quiet, HI. done.
Qed.

Lemma reachable_Wf rate isOrig um k w : 0 ≤ N → FixedQueue.q_waiting (Users.userQueue um) = [] →
  Z.of_nat k * (2 * N) < u64_max → nsteps pmstep k (initial rate isOrig um) w →
  Wf (FixedQueue.q_queue (Users.userQueue um)) (Z.of_nat k * (2 * N)) w.
Proof.
  intros HN Hw. revert w. induction k as [|k IH]; intros w Hk Hs.
  - inversion Hs; subst. by apply Wf_initial.
  - apply nsteps_inv_r in Hs as (w1 & Hs & Hstep).
    replace (Z.of_nat (S k) * (2 * N)) with (Z.of_nat k * (2 * N) + 2 * N) in * by lia.
    eapply pmstep_inv; [done..|]. apply IH; [lia|done].
Qed.

(** [C3] The caches of a process manager agree in every state reached within fewer than
    [2^64 / (2 * max)] events, whatever requests, exits, idle and clean events come, however
    the goroutines of the handlers and the processes are interleaved (signals being delivered
    and the request groups known): there are never more processes than the limit; no process
    is both idle and busy; a cached process is registered under its own name and in the group of
    its own contract; and a group holds nothing else and is never empty. *)
Theorem manager_caches_agree rate isOrig um k w :
  0 ≤ N → FixedQueue.q_waiting (Users.userQueue um) = [] → Z.of_nat k * (2 * N) < u64_max →
  nsteps pmstep k (initial rate isOrig um) w →
  0 ≤ getAvailableProcessNum (w_pm w) ∧
  (∀ name, is_Some (lhm_get (pm_idleProcesses (w_pm w)) name) → pm_busyProcesses (w_pm w) !! name = None) ∧
  (∀ name i, getProcessByName (w_pm w) name = Some i → ∃ p, w_heap w !! i = Some p ∧ Process.p_processName p = name) ∧
  (∀ gk name i, (∃ g, pm_processGroups (w_pm w) !! gk = Some g ∧ g !! name = Some i) ↔
     getProcessByName (w_pm w) name = Some i ∧ ∃ p, w_heap w !! i = Some p ∧
       gk = contractKey (Process.p_chainID p) (Process.p_contractName p) (Process.p_contractVersion p)) ∧
  (∀ gk g, pm_processGroups (w_pm w) !! gk = Some g → g ≠ ∅).
Proof.
  intros HN Hw Hk Hs. destruct (reachable_Wf _ _ _ _ _ HN Hw Hk Hs) as [idf []]. destruct i_wf0 as [H1 H2 H3 H4 H5 H6].
  assert (∀ i o, idf i = Some o ↔ ∃ p, w_heap w !! i = Some p ∧ identOf p = o) as Hidf.
  { intros i o. rewrite i_idf0 by apply not_elem_of_nil. rewrite fmap_Some. naive_solver. }
  split_and!; [| | | |done].
  - pose proof (cachedPtrs_length (w_pm w)). cbn in i_room0. lia.
  - intros name. rewrite lhm_get_list, al_get_is_Some. apply H2.
  - intros name i (o & (p & ? & <-)%Hidf & <-)%H3. eauto.
  - intros gk name i. rewrite H4. split; intros [Hn Ho]; (split; [done|]).
    + destruct Ho as (o & (p & ? & <-)%Hidf & ->). eauto.
    + destruct Ho as (p & ? & ->). exists (identOf p). split; [|done]. apply Hidf. eauto.
Qed.

(** Each cached process exists and has a user. *)
Lemma inUse_length U B X ts w idf : inv U B X ts w idf →
  length (usersOf (w_heap w) (cachedPtrs (w_pm w))) = length (cachedPtrs (w_pm w)).
Proof.
  intros HI. assert (Forall (λ i, is_Some (w_heap w !! i)) (cachedPtrs (w_pm w))) as Hv.
  { apply Forall_forall. intros i Hi. pose proof HI as [].
    apply (cachedPtrs_elem _ idf) in Hi as [name Hi]; [|done]. by eapply cached_valid. }
  clear -Hv. unfold usersOf. induction Hv as [|i l [p Hp] _ IH]; cbn; [done|]. rewrite Hp. cbn. by rewrite IH.
Qed.

(** ** No panic *)

Definition calmly {S A} (m : M S A) (w : S) : Prop := m w ≠ Panic.

Lemma calmly_bind {S A C} (m : M S A) (f : A → M S C) w :
  calmly m w → (∀ a w', m w = Ret (a, w') → calmly (f a) w') → calmly (m ≫= f) w.
Proof. unfold calmly, mbind, M_bind. destruct (m w) as [[a w']| |]; naive_solver. Qed.

Lemma ready_calm e n c cn v w : pm_scheduler (w_pm w) = true → calmly (sendProcessReadyResp e n c cn v) w.
Proof.
  intros Hs. unfold calmly, sendProcessReadyResp, mbind, M_bind, getS. rewrite Hs. cbn.
  destruct (sched_GetRequestGroup _ _ _); cbn; [|done]. by case_match.
Qed.

Lemma unwait_calm e c n v w : pm_scheduler (w_pm w) = true → calmly (removeFromWaitingGroup e c n v) w.
Proof.
  intros Hs. unfold removeFromWaitingGroup. apply calmly_bind; [done|]. intros a w1 [= _ <-].
  apply calmly_bind; [by apply ready_calm|]. done.
Qed.

Lemma uncache_calm e o w : pm_scheduler (w_pm w) = true → calmly (uncache e o) w.
Proof.
  intros Hs. unfold uncache, removeProcessFromCache, removeFromProcessGroup.
  apply calmly_bind; [done|]. intros ? w1 [= _ <-]. apply calmly_bind; [done|]. intros ? w1 [= _ <-].
  apply calmly_bind; [done|]. intros ? w1 [= <- <-]. case_match; [|done].
  apply calmly_bind; [done|]. intros ? w1 [= _ <-]. case_decide; [|done].
  apply calmly_bind; [done|]. intros ? w1 [= _ <-]. by apply unwait_calm.
Qed.

Lemma closeSandbox_calm e c n v name w i p : pm_scheduler (w_pm w) = true →
  getProcessByName (w_pm w) name = Some i → w_heap w !! i = Some p → calmly (closeSandbox e c n v name) w.
Proof.
  intros Hs Hn Hp. unfold closeSandbox, releaseUser. apply calmly_bind.
  - unfold calmly, mbind, M_bind, getS, deref, mret, M_ret. rewrite Hn. cbn. rewrite Hp.
    by destruct (Users.FreeUser _ _) as [[? ?] ?].
  - intros er w1 H1. apply bind_Ret in H1 as (? & ? & [= <- <-] & H1). rewrite Hn in H1.
    apply bind_Ret in H1 as (? & ? & [= <- <-] & H1). rewrite Hp in H1.
    apply bind_Ret in H1 as (? & ? & [= <- <-] & H1). destruct (Users.FreeUser _ _) as [[? ?] ?].
    apply bind_Ret in H1 as (? & ? & [= _ <-] & [= <- <-]). case_match; [done|].
    apply calmly_bind; [|done]. by apply (uncache_calm e (mkIdent c n v name)).
Qed.

Lemma onProcess_calm {A} i (m : M Process.Process A) w p : w_heap w !! i = Some p → m p ≠ Panic → calmly (onProcess i m) w.
Proof. intros Hp Hm. unfold calmly, onProcess. rewrite Hp. by destruct (m p) as [[? ?]| |]. Qed.

Lemma update_calm st p : Process.updateProcessState st p ≠ Panic.
Proof.
  unfold Process.updateProcessState, Process.startTimer, Process.popTimer, mbind, M_bind, getS, modifyS, mret, M_ret, block.
  repeat (case_match; simplify_eq; try done).
Qed.

Lemma kill_calm e s p : Process.killProcess e s p ≠ Panic.
Proof. unfold Process.killProcess, mbind, M_bind, getS, modifyS, mret, M_ret, block. by repeat case_match. Qed.

Lemma ChangeSandbox_calm e c n v name p : Process.ChangeSandbox e c n v name p ≠ Panic.
Proof.
  unfold Process.ChangeSandbox, Process.resetContext, mbind, M_bind, getS, modifyS. case_decide; [done|].
  pose proof (kill_calm e Process.SIGTERM) as Hk. pose proof (update_calm Process.changing) as Hu.
  repeat (case_match; simplify_eq; try done); naive_solver.
Qed.

Lemma CloseSandbox_calm e p : Process.CloseSandbox e p ≠ Panic.
Proof.
  unfold Process.CloseSandbox, mbind, M_bind, getS, modifyS. case_decide; [done|].
  pose proof (kill_calm e Process.SIGTERM) as Hk. pose proof (update_calm Process.closing) as Hu.
  repeat (case_match; simplify_eq; try done); naive_solver.
Qed.

Lemma lift_calm {A} (m : M World A) w n : calmly m w → calmly (lift m) (w, n).
Proof. unfold calmly, lift. by destruct (m w) as [[? ?]| |]. Qed.

Lemma lift_bind_calm {A C} (m : M World A) (f : A → M (World * Z) C) w n :
  calmly m w → (∀ a w', m w = Ret (a, w') → calmly (f a) (w', n)) → calmly (lift m ≫= f) (w, n).
Proof.
  intros Hm Hf. apply calmly_bind; [by apply lift_calm|]. intros a s (w' & Hr & ->)%lift_Ret. by apply Hf.
Qed.

Lemma create_calm e k name w : good_env e → pm_scheduler (w_pm w) = true → calmly (create e k name) w.
Proof.
  intros [_ Hg _] Hs. unfold calmly, create, createNewProcess, mbind, M_bind, getS. rewrite Hs. cbn.
  destruct (Users.GetAvailableUser _ _) as [um [[u|]|]]; try done.
  unfold Process.NewProcess. by rewrite Hg.
Qed.

Lemma newName_calm k w (f : string → gor) n : calmly (lift (newName k) ≫= λ name, mret (f name)) (w, n).
Proof. done. Qed.

Lemma identAt_calm i w p : w_heap w !! i = Some p → calmly (identAt i) w.
Proof. intros Hp. unfold calmly, identAt, mbind, M_bind, getS. by rewrite Hp. Qed.

Definition step_calm (kind : gor → bool) (step : gor → M (World * Z) gor) : Prop :=
  ∀ U B X t ts w n, kind t = true → Inv U B X (t :: ts) w → gor_done t = false → calmly (step t) (w, n).

Lemma Inv_sched U B X ts w : Inv U B X ts w → pm_scheduler (w_pm w) = true.
Proof. by intros [idf []]. Qed.

Lemma sched_quiet w w' : quiet w w' → pm_scheduler (w_pm w) = true → pm_scheduler (w_pm w') = true.
Proof. intros ([=] & _). congruence. Qed.

Lemma taken_valid U B X t ts w i : Inv U B X (t :: ts) w → taken t = [i] → is_Some (w_heap w !! i).
Proof.
  intros [idf HI] Ht. pose proof HI as []. destruct (i_live0 i) as [k Hk]; [rewrite all_cons, Ht; by left|].
  by eapply cached_valid.
Qed.

Lemma createStep_calm e : good_env e → step_calm createKind (createStep e).
Proof.
  intros He U B X t ts w n Hk HI Hd. pose proof (Inv_sched _ _ _ _ _ HI) as Hs.
  destruct t as [k|k name|k name i| | | | | |[|[i f] acts]|]; try done; unfold createStep.
  apply lift_bind_calm; [by apply create_calm|]. intros [?|?] w' _; done.
Qed.

Lemma newStep_calm e : good_env e → step_calm createKind (newStep e).
Proof.
  intros He U B X t ts w n Hk HI Hd. pose proof (Inv_sched _ _ _ _ _ HI) as Hs.
  destruct t as [k|k name|k name i| | | | | |[|[i f] acts]|]; try done; unfold newStep.
  - apply lift_bind_calm; [by apply ready_calm|]. intros [?|] w' _; [done|]. apply newName_calm.
  - apply lift_bind_calm; [by apply create_calm|]. intros [?|?] w' _; done.
  - apply lift_bind_calm; [by apply unwait_calm|]. intros ? w' _. done.
Qed.

Lemma takeStep_calm e : step_calm takeKind (takeStep e).
Proof.
  intros U B X t ts w n Hk HI Hd. pose proof (Inv_sched _ _ _ _ _ HI) as Hs.
  destruct t as [| | |k i|k i o name|k i o name| | |[|[i f] acts]|]; try done; unfold takeStep.
  - destruct (taken_valid _ _ _ _ _ _ i HI eq_refl) as [p Hp].
    apply lift_bind_calm; [by eapply identAt_calm|]. intros o w' _. case_match; [done|]. apply newName_calm.
  - destruct (taken_valid _ _ _ _ _ _ i HI eq_refl) as [p Hp].
    apply lift_bind_calm; [eapply onProcess_calm; [done|apply ChangeSandbox_calm]|]. by intros [?|] w' _.
  - apply calmly_bind; [done|]. intros ? [w1 n1] [= _ <- <-]. apply lift_bind_calm; [by apply uncache_calm|].
    intros ? w' _. done.
Qed.

Lemma idleStep_calm e : step_calm takeKind (idleStep e).
Proof.
  intros U B X t ts w n Hk HI Hd. pose proof (Inv_sched _ _ _ _ _ HI) as Hs.
  destruct t as [| | |k i|k i o name|k i o name| | |[|[i f] acts]|]; try done; unfold idleStep.
  - destruct (taken_valid _ _ _ _ _ _ i HI eq_refl) as [p Hp].
    apply lift_bind_calm; [by eapply identAt_calm|]. intros o w' [-> _]%identAt_Ret. case_match.
    + apply lift_bind_calm; [by apply unwait_calm|]. intros ? w1 H1%quiet_unwait.
      apply lift_bind_calm; [apply ready_calm; by eapply sched_quiet|done].
    + apply newName_calm.
  - destruct (taken_valid _ _ _ _ _ _ i HI eq_refl) as [p Hp].
    apply lift_bind_calm; [eapply onProcess_calm; [done|apply ChangeSandbox_calm]|]. intros [?|] w' Hw; [done|].
    assert (w_pm w' = w_pm w) as Epm.
    { unfold changeSandbox, onProcess in Hw. rewrite Hp in Hw. case_match; try done. case_match. by injection Hw as _ <-. }
    apply lift_bind_calm; [apply ready_calm; by rewrite Epm|]. by intros [?|] w1 _.
  - apply lift_bind_calm; [by apply unwait_calm|]. intros ? w1 H1%quiet_unwait.
    apply lift_bind_calm; [apply uncache_calm; by eapply sched_quiet|]. intros ? w' _. done.
Qed.

Lemma cleanStep_calm e : step_calm cleanKind (cleanStep e).
Proof.
  intros U B X t ts w n Hk HI Hd. pose proof (Inv_sched _ _ _ _ _ HI) as Hs.
  destruct t as [| | | | | |i|i|[|[i f] acts]|]; try done; unfold cleanStep;
    destruct (taken_valid _ _ _ _ _ _ i HI eq_refl) as [p Hp].
  - apply lift_bind_calm; [eapply onProcess_calm; [done|apply CloseSandbox_calm]|]. by intros [?|] w' _.
  - apply calmly_bind; [done|]. intros ? [w1 n1] [= _ <- <-].
    apply lift_bind_calm; [by eapply identAt_calm|]. intros o w1 (-> & p' & Hp' & <-)%identAt_Ret. simplify_eq.
    apply lift_bind_calm; [|done]. destruct HI as [idf []].
    destruct (i_live0 i) as [k Hk']; [by left|]. destruct (wf_named _ _ i_wf0 _ _ Hk') as (o & Ho & <-).
    eapply closeSandbox_calm; [done| |done]. rewrite all_cons in i_taken0. apply NoDup_cons in i_taken0 as [Hit _].
    rewrite i_idf0, Hp in Ho by by rewrite all_cons; intros ?%committing_taken. injection Ho as <-. exact Hk'.
Qed.

(** A group of goroutines whose steps do not panic. *)
Lemma goroutines_calm kind step c ts n U B X w :
  step_ok kind step → step_calm kind step → kind (GProcess (c_acts c)) = true → Forall (λ t, kind t = true) ts →
  conc_ok c → Inv U B X ts w → calmly (goroutines step c ts n) w.
Proof.
  intros Hstep Hcalm Hkp Hkind Hacts HI. unfold calmly, goroutines.
  assert (run_group step gor_done (c_sched c) (ts ++ [GProcess (c_acts c)]) (w, n) ≠ Panic) as Hnp.
  2: { by destruct (run_group _ _ _ _ _) as [[? [? ?]]| |]. }
  apply (run_group_no_panic _ _ (λ ts s, Inv U B X ts s.1 ∧ Forall (λ t, kind t = true) ts)).
  - clear -Hstep. intros ts [w n] i t t' [w' n'] [HI Hk] Ht Hd Hs. cbn in *.
    rewrite (delete_Permutation _ _ _ Ht) in HI. rewrite Forall_lookup in Hk.
    destruct (Hstep U B X t (delete i ts) w n t' w' n') as [HI' Hk']; [eauto..|].
    split; [|apply Forall_insert; [by apply Forall_lookup|done]]. by rewrite (insert_Permutation _ _ _ _ Ht).
  - clear -Hcalm. intros ts [w n] i t [HI Hk] Ht Hd. cbn in *. rewrite (delete_Permutation _ _ _ Ht) in HI.
    rewrite Forall_lookup in Hk. eapply Hcalm; [by eapply Hk|exact HI|done].
  - cbn. split; [|apply Forall_app; by repeat constructor]. rewrite Permutation_app_comm. by apply Inv_acts.
Qed.

Lemma creating_calm step c ts n U B X w :
  step_ok createKind step → step_calm createKind step → conc_ok c → Forall (λ t, ∃ k, t = GCreate k) ts →
  Z.of_nat (length ts) ≤ getAvailableProcessNum (w_pm w) → 0 ≤ N → B + N < u64_max →
  Inv U B X [] w → calmly (goroutines step c ts n) w.
Proof.
  intros Hs Hcalm Hc Hts Hlen HN HB HI. pose proof (all_growing_GCreate ts Hts) as [Hg Ht].
  assert (Z.of_nat (length (cachedPtrs (w_pm w))) + Z.of_nat (length ts) ≤ N) as Hroom.
  { destruct HI as [idf []]. rewrite cachedPtrs_length. lia. }
  eapply (goroutines_calm createKind _ _ _ _ U (B + Z.of_nat (length ts)) X); [done..| |exact Hc|].
  - eapply Forall_impl; [exact Hts|]. by intros t [k ->].
  - apply Inv_start; rewrite ?Hg, ?Ht; try done; try lia.
    + eapply Forall_impl; [exact Hts|]. by intros t [k ->].
    + constructor.
    + by intros i ?%elem_of_nil.
Qed.

Lemma taking_calm kind step c ts m l n U B X w :
  step_ok kind step → step_calm kind step → kind (GProcess (c_acts c)) = true → conc_ok c →
  Forall (λ t, kind t = true) ts → Forall (λ t, starts t = true) ts → all growing ts = [] → all taken ts ⊆+ l →
  (length ts ≤ length l)%nat → peekIdleProcesses (w_pm w) m = Some l → B + N < u64_max →
  Inv U B X [] w → calmly (goroutines step c ts n) w.
Proof.
  intros Hs Hcalm Hkp Hc Hk Hst Hg Ht Hlen Hl HB HI.
  assert (NoDup l ∧ (∀ i, i ∈ l → ∃ k, getProcessByName (w_pm w) k = Some i) ∧ Z.of_nat (length ts) ≤ N ∧
    Z.of_nat (length (cachedPtrs (w_pm w))) ≤ N) as (H1 & H2 & H3 & H4).
  { destruct HI as [idf []]. destruct (peek_cached _ _ _ _ i_wf0 Hl) as (?&?&?&?). cbn in *. split_and!; try done; lia. }
  eapply (goroutines_calm kind _ _ _ _ U (B + Z.of_nat (length ts)) X); [done..|exact Hc|].
  apply Inv_start; rewrite ?Hg; try done; try (cbn; lia).
  - by eapply sub_NoDup.
  - intros i Hi. apply H2. by eapply elem_of_submseteq.
Qed.

Lemma notifyNew_calm w : calmly notifyNew w.
Proof. unfold calmly, notifyNew, mbind, M_bind, getS. by destruct (_ <=? _). Qed.

Lemma peekIdle_Some s n : (n ≤ lhm_size (pm_idleProcesses s))%nat → is_Some (peekIdleProcesses s n).
Proof. intros Hn. unfold peekIdleProcesses. apply Nat.ltb_ge in Hn. by rewrite Hn. Qed.

Lemma peekWaiting_Some s n : (n ≤ lhm_size (pm_waitingRequestGroups s))%nat → is_Some (peekWaitingRequestGroups s n).
Proof. intros Hn. unfold peekWaitingRequestGroups. apply Nat.ltb_ge in Hn. by rewrite Hn. Qed.

Section calm_handlers.
Context (e : Process.env) (He : good_env e).

Lemma handleGetProcessReq_calm U B X c1 c2 msg w :
  conc_ok c1 → conc_ok c2 → 0 ≤ N → B + 2 * N < u64_max → 0 ≤ gp_ProcessNum msg →
  Inv U B X [] w → calmly (handleGetProcessReq e c1 c2 msg) w.
Proof.
  intros Hc1 Hc2 HN HB Hnum HI. unfold handleGetProcessReq. cbv zeta. case_match.
  { apply calmly_bind; [|done]. apply unwait_calm. by eapply Inv_sched. }
  apply calmly_bind; [done|]. intros ? ? [= <- <-]. apply calmly_bind.
  { rewrite Min_spec. destruct (Z.ltb_spec 0 (getAvailableProcessNum (w_pm w))) as [Ha|]; [|done].
    destruct (Z.ltb_spec (gp_ProcessNum msg `min` getAvailableProcessNum (w_pm w)) 0); [lia|].
    eapply (creating_calm _ _ _ _ U B X); [apply createStep_ok|by apply createStep_calm|done| |rewrite length_replicate; lia|done|lia|exact HI].
    apply Forall_replicate. by eexists. }
  intros need w1 H1. assert (Inv U (B + N) X [] w1) as HI1.
  { case_match; [|injection H1 as _ <-; by apply (Inv_budget _ B); [lia|]].
    rewrite Min_spec in H1. case_match; [done|].
    eapply creating_inv; [apply createStep_ok|exact Hc1| | | |exact HI|exact H1]; [| |lia].
    - apply Forall_replicate. by eexists.
    - rewrite length_replicate. lia. }
  apply calmly_bind; [done|]. intros ? ? [= <- <-].
  assert (∀ l m, peekIdleProcesses (w_pm w1) m = Some l → calmly (goroutines (takeStep e) c2
    (GTake (mkGroupKey (gp_ChainID msg) (gp_ContractName msg) (gp_ContractVersion msg)) <$> l) need) w1) as Htk.
  { intros l m Hl. eapply (taking_calm takeKind _ _ _ _ _ _ U (B + N) X); [by apply takeStep_ok|apply takeStep_calm|done|done|by apply Forall_fmap_all
      |by apply Forall_fmap_all|apply all_growing_GTake|by rewrite all_taken_GTake|by rewrite length_fmap|exact Hl| |exact HI1]. lia. }
  apply calmly_bind.
  { destruct (_ && _); [|done]. destruct (peekIdleProcesses _ _) eqn:Hp; [|done].
    apply calmly_bind; [by eapply Htk|done]. }
  intros r w2 H2. assert (pm_scheduler (w_pm w2) = true) as Hs2.
  { destruct (_ && _); [|injection H2 as _ <-; by eapply Inv_sched].
    destruct (peekIdleProcesses _ _) eqn:Hp; [|injection H2 as _ <-; by eapply Inv_sched].
    apply bind_Ret in H2 as (? & w3 & H3 & [= _ <-]). eapply (Inv_sched U (B + N + N) X []).
    eapply (taking_inv takeKind); [by apply takeStep_ok|done|exact Hc2| | | | | |exact Hp|lia|exact HI1|exact H3];
      [by apply Forall_fmap_all|by apply Forall_fmap_all|apply all_growing_GTake|by rewrite all_taken_GTake|by rewrite length_fmap]. }
  destruct r as [need'|]; [|done]. destruct (_ =? need').
  - apply calmly_bind; [done|]. intros ? ? [= <- <-]. by destruct (lhm_get _ _).
  - apply calmly_bind; [|done]. by apply ready_calm.
Qed.

Lemma handleClean_calm U B X c w :
  conc_ok c → 0 ≤ N → B + 2 * N < u64_max → Inv U B X [] w → calmly (handleCleanIdleProcesses e c) w.
Proof.
  intros Hc HN HB HI. unfold handleCleanIdleProcesses. cbv zeta. apply calmly_bind; [done|]. intros ? ? [= <- <-].
  rewrite Min_spec. case_match eqn:Hn; [done|]. apply Z.leb_gt in Hn.
  match goal with |- context [peekIdleProcesses ?s ?n] => destruct (peekIdle_Some s n) as [l Hp]; [lia|rewrite Hp] end.
  apply calmly_bind; [done|]. intros ? ? [= <- <-]. apply calmly_bind.
  - eapply (taking_calm cleanKind _ _ _ _ _ _ U B X); [by apply cleanStep_ok|apply cleanStep_calm|done|done|by apply Forall_fmap_all
      |by apply Forall_fmap_all|apply all_growing_GClose|by rewrite all_taken_GClose|by rewrite length_fmap|exact Hp| |exact HI]. lia.
  - intros n w1 _. apply calmly_bind; [|done]. case_match; [apply notifyNew_calm|done].
Qed.

Lemma handleAllocateIdle_calm U B X c w :
  conc_ok c → 0 ≤ N → B + 2 * N < u64_max → Inv U B X [] w → calmly (handleAllocateIdleProcesses e c) w.
Proof.
  intros Hc HN HB HI. unfold handleAllocateIdleProcesses. cbv zeta. apply calmly_bind; [done|]. intros ? ? [= <- <-].
  rewrite Min_spec. case_match; [done|].
  match goal with |- context [peekIdleProcesses ?s ?n] => destruct (peekIdle_Some s n) as [l Hp]; [lia|rewrite Hp] end.
  apply calmly_bind; [done|]. intros ? ? [= <- <-].
  match goal with |- context [peekWaitingRequestGroups ?s ?n] => destruct (peekWaiting_Some s n) as [ks Hw]; [lia|rewrite Hw] end.
  apply calmly_bind; [done|]. intros ? ? [= <- <-]. apply calmly_bind; [|done].
  eapply (taking_calm takeKind _ _ _ _ _ _ U B X); [by apply idleStep_ok|apply idleStep_calm|done|done|by apply Forall_zip_GTake
    |by apply Forall_zip_GTake|apply all_growing_zip|apply all_taken_zip|rewrite length_zip_with; lia|exact Hp| |exact HI]. lia.
Qed.

Lemma handleAllocateNew_calm U B X c w :
  conc_ok c → 0 ≤ N → B + 2 * N < u64_max → Inv U B X [] w → calmly (handleAllocateNewProcesses e c) w.
Proof.
  intros Hc HN HB HI. unfold handleAllocateNewProcesses. cbv zeta. apply calmly_bind; [done|]. intros ? ? [= <- <-].
  assert (0 ≤ getAvailableProcessNum (w_pm w)) as Hav.
  { destruct HI as [idf []]. pose proof (cachedPtrs_length (w_pm w)). cbn in i_room0. lia. }
  rewrite Min_spec. case_match; [done|]. case_match eqn:Hneg; [apply Z.ltb_lt in Hneg; lia|]. apply Z.ltb_ge in Hneg.
  match goal with |- context [peekWaitingRequestGroups ?s ?n] => destruct (peekWaiting_Some s n) as [ks Hw]; [lia|rewrite Hw] end.
  apply calmly_bind; [done|]. intros ? ? [= <- <-]. apply calmly_bind; [|done].
  eapply (creating_calm _ _ _ _ U B X); [by apply newStep_ok|by apply newStep_calm|done| | |done|lia|exact HI].
  - apply Forall_fmap_all. by eexists.
  - rewrite length_fmap. unfold peekWaitingRequestGroups in Hw. case_match; [done|]. injection Hw as <-.
    rewrite length_take. lia.
Qed.
End calm_handlers.

(** [C30] A process manager does not panic while its surroundings work: from every state reached as in
    [manager_caches_agree] (within fewer than [2^64 / (2 * max)] events, every signal being delivered, the request
    groups known and taking their responses, exits reported by processes the manager keeps), whatever channel its
    loop takes next and however the goroutines of the handler are interleaved, the round ends without a panic,
    provided a process request asks for no negative number and the exit of a sandbox is that of a process
    the manager still has. (Without these conditions it does panic: [failed_kill_panics], [failed_kill_breaks_limit].) *)
Theorem manager_never_panics rate isOrig um k w e sel c1 c2 :
  0 ≤ N → FixedQueue.q_waiting (Users.userQueue um) = [] → Z.of_nat (S k) * (2 * N) < u64_max →
  nsteps pmstep k (initial rate isOrig um) w → good_env e → conc_ok c1 → conc_ok c2 →
  (∀ m rest, pm_eventCh (w_pm w) = AnyGetProcessReq m :: rest → 0 ≤ gp_ProcessNum m) →
  (∀ m rest, pm_eventCh (w_pm w) = AnySandboxExit m :: rest → is_Some (getProcessByName (w_pm w) (se_ProcessName m))) →
  loopStep e sel c1 c2 w ≠ Panic.
Proof.
  intros HN Hw HB Hs He Hc1 Hc2 Hreq Hexit. assert (Z.of_nat k * (2 * N) + 2 * N < u64_max) as HB' by lia.
  assert (Z.of_nat k * (2 * N) < u64_max) as Hk by lia.
  pose proof (reachable_Wf _ _ _ _ _ HN Hw Hk Hs) as HI. unfold Wf in HI. clear Hs.
  set (U := FixedQueue.q_queue _) in HI. set (B := Z.of_nat k * (2 * N)) in *.
  assert (∀ ev a n, let w' := on_pm (λ s, set_chans ev a n s) w in (∀ x, x ∈ exits (w_pm w') → x ∈ exits (w_pm w)) →
    Inv U B (exits (w_pm w')) [] w') as Hch.
  { intros ev a n w' Hx. eapply Inv_chans; [exact HI|done|]. intros. left. by apply Hx. }
  change (calmly (loopStep e sel c1 c2) w). unfold loopStep. apply calmly_bind; [done|]. intros ? ? [= <- <-]. destruct sel.
  - destruct (pm_eventCh (w_pm w)) as [|msg rest] eqn:Ev; [done|].
    apply calmly_bind; [done|]. intros ? ? [= _ <-].
    assert (Inv U B (exits (w_pm (on_pm (λ s, set_chans rest (pm_allocateIdleCh s) (pm_allocateNewCh s) s) w))) []
      (on_pm (λ s, set_chans rest (pm_allocateIdleCh s) (pm_allocateNewCh s) s) w)) as HI1.
    { apply (Hch rest (pm_allocateIdleCh (w_pm w)) (pm_allocateNewCh (w_pm w))). intros x. unfold exits. rewrite Ev. cbn.
      destruct msg; try done. by right. }
    destruct msg as [|m| |m| | | |]; try done.
    + apply calmly_bind; [|done]. eapply handleGetProcessReq_calm; [done..|by eapply Hreq|exact HI1].
    + apply calmly_bind; [|done]. unfold handleSandboxExitMsg. apply calmly_bind.
      * destruct (Hexit m rest eq_refl) as [i Hi]. pose proof HI as [idf HI']. destruct (cached_valid _ _ _ _ _ _ _ _ HI' Hi) as [p Hp].
        eapply closeSandbox_calm; [by eapply Inv_sched|exact Hi|exact Hp].
      * intros er w1 _. case_match; [done|]. apply calmly_bind; [apply notifyNew_calm|done].
  - destruct (pm_timerC (w_pm w)); [|done]. apply calmly_bind; [done|]. intros ? ? [= _ <-].
    eapply handleClean_calm; [done..|]. eapply Inv_quiet, HI. done.
  - destruct (pm_allocateIdleCh (w_pm w)) as [|n]; [done|]. apply calmly_bind; [done|]. intros ? ? [= _ <-].
    apply calmly_bind; [|done]. eapply handleAllocateIdle_calm; [done..|].
    apply (Hch (pm_eventCh (w_pm w)) n (pm_allocateNewCh (w_pm w))). done.
  - destruct (pm_allocateNewCh (w_pm w)) as [|n]; [done|]. apply calmly_bind; [done|]. intros ? ? [= _ <-].
    apply calmly_bind; [|done]. eapply handleAllocateNew_calm; [done..|].
    apply (Hch (pm_eventCh (w_pm w)) (pm_allocateIdleCh (w_pm w)) n). done.
Qed.

(** ** The answer to a request *)

(** The cached processes of a contract, and those of its name and version among the first [m] idle ones. *)
Definition ofContract (k : RequestGroupKey) (o : ident) : bool :=
  String.eqb (gk_ChainID k) (id_chain o) && sameContract k o.
Definition identIs (f : ident → bool) (heap : list Process.Process) (i : nat) : bool :=
  match identOf <$> heap !! i with Some o => f o | None => false end.
Definition processesOf (k : RequestGroupKey) (w : World) : Z :=
  Z.of_nat (length (List.filter (identIs (ofContract k) (w_heap w)) (cachedPtrs (w_pm w)))).
Definition sameIdle (k : RequestGroupKey) (m : nat) (w : World) : Z :=
  Z.of_nat (length (List.filter (identIs (sameContract k) (w_heap w)) (take m (lhm_list (pm_idleProcesses (w_pm w))).*2))).

(** The same caches, and the processes of before with their names. *)
Definition sameCaches (w w' : World) : Prop :=
  pm_idleProcesses (w_pm w') = pm_idleProcesses (w_pm w) ∧ pm_busyProcesses (w_pm w') = pm_busyProcesses (w_pm w) ∧
  ∀ i o, identOf <$> w_heap w !! i = Some o → identOf <$> w_heap w' !! i = Some o.

Lemma quiet_sameCaches w w' : quiet w w' → sameCaches w w'.
Proof. intros (E & _ & Eh & _). injection E as E1 E2 _ _ _ _ _. unfold sameCaches. by rewrite E1, E2, Eh. Qed.

Lemma filter_length_perm {A} (f : A → bool) l l' : l ≡ₚ l' → length (List.filter f l) = length (List.filter f l').
Proof.
  induction 1 as [|x l l' _ IH|x y l|l1 l2 l3 _ IH1 _ IH2]; cbn; [done| | |congruence].
  - destruct (f x); cbn; congruence.
  - by destruct (f x), (f y).
Qed.

Lemma identIs_same f heap heap' i :
  (∀ o, identOf <$> heap !! i = Some o → identOf <$> heap' !! i = Some o) → is_Some (heap !! i) →
  identIs f heap' i = identIs f heap i.
Proof. intros Hh [p Hp]. unfold identIs. rewrite (Hh (identOf p)), Hp by by rewrite Hp. done. Qed.

Lemma sameCaches_filter f w w' l : sameCaches w w' → Forall (λ i, is_Some (w_heap w !! i)) l →
  List.filter (identIs f (w_heap w')) l = List.filter (identIs f (w_heap w)) l.
Proof.
  intros (_ & _ & Hh) Hl. apply filter_ext_in. intros i Hi%list_elem_of_In.
  rewrite Forall_forall in Hl. apply identIs_same; [apply Hh|by apply Hl].
Qed.

Lemma cached_Forall U B X ts w : Inv U B X ts w → Forall (λ i, is_Some (w_heap w !! i)) (cachedPtrs (w_pm w)).
Proof.
  intros [idf HI]. pose proof HI as []. apply Forall_forall. intros i Hi.
  apply (cachedPtrs_elem _ idf) in Hi as [name Hi]; [|done]. by eapply cached_valid.
Qed.

Lemma processesOf_same k U B X ts w w' : Inv U B X ts w → sameCaches w w' → processesOf k w' = processesOf k w.
Proof.
  intros HI Hs. unfold processesOf. rewrite <-(sameCaches_filter _ w w') by (done || by eapply cached_Forall).
  destruct Hs as (E1 & E2 & _). unfold cachedPtrs. by rewrite E1, E2.
Qed.

Lemma sameIdle_same k m U B X ts w w' : Inv U B X ts w → sameCaches w w' → sameIdle k m w' = sameIdle k m w.
Proof.
  intros HI Hs. unfold sameIdle. rewrite <-(sameCaches_filter _ w w'); [by destruct Hs as (-> & _)|done|].
  apply Forall_take. apply cached_Forall in HI. unfold cachedPtrs in HI. by apply Forall_app in HI as [? _].
Qed.

(** One more cached process, of the contract [k]. *)
Lemma processesOf_added k name gk i w : getProcessByName (w_pm w) name = None →
  processesOf k (on_pm (added name gk i) w) =
    processesOf k w + (if identIs (ofContract k) (w_heap w) i then 1 else 0).
Proof.
  intros Hn. unfold processesOf. cbn [w_pm w_heap on_pm].
  rewrite (filter_length_perm _ _ _ (added_ptrs _ name gk i Hn)). cbn [List.filter].
  destruct (identIs _ _ _); cbn [length]; lia.
Qed.

Lemma processesOf_removed k U B X ts w idf name gk i :
  inv U B X ts w idf → getProcessByName (w_pm w) name = Some i →
  processesOf k w = processesOf k (on_pm (removed name gk) w) + (if identIs (ofContract k) (w_heap w) i then 1 else 0).
Proof.
  intros [] Hn. unfold processesOf. cbn [w_pm w_heap on_pm].
  rewrite (filter_length_perm _ _ _ (removed_ptrs _ _ name gk i i_wf0 Hn)). cbn [List.filter].
  destruct (identIs _ _ _); cbn [length]; lia.
Qed.

(** The goroutines of one handler work for one contract. *)
Definition keyed (k : RequestGroupKey) (t : gor) : Prop :=
  match t with
  | GCreate k' | GNamed k' _ | GAdd k' _ _ | GTake k' _ => k' = k
  | GChange k' _ o _ => k' = k ∧ sameContract k o = false
  | GCommit k' _ _ _ => k' = k
  | _ => True
  end.

Lemma ofContract_keyIdent k name : ofContract k (keyIdent k name) = true.
Proof. unfold ofContract, sameContract. cbn. by rewrite !String.eqb_refl. Qed.

Lemma newName_sameCaches k w name w' : newName k w = Ret (name, w') →
  sameCaches w w' ∧ w_heap w' = w_heap w.
Proof.
  unfold newName, generateProcessName. intros Hr. minv; by split_and!.
Qed.

Lemma act_idents x acts w a w' : (∀ p, Process.kept p (x.2 p)) → processAct (x :: acts) w = Ret (a, w') →
  ∀ j, identOf <$> w_heap w' !! j = identOf <$> w_heap w !! j.
Proof.
  destruct x as [i f]. intros Hk Hr. unfold processAct in Hr. apply bind_Ret in Hr as (? & ? & [= _ <-] & [= _ <-]).
  destruct (w_heap w !! i) as [p|] eqn:Hi; [|done]. intros j. cbn [w_heap].
  apply (ident_insert _ _ p); [done|]. destruct (Hk p) as (K1 & K2 & K3 & K4 & _). cbn in *. unfold identOf. congruence.
Qed.

Lemma act_sameCaches x acts w a w' : (∀ p, Process.kept p (x.2 p)) → processAct (x :: acts) w = Ret (a, w') →
  sameCaches w w'.
Proof.
  intros Hk Hr. pose proof (act_idents _ _ _ _ _ Hk Hr) as Hid. split_and!.
  1,2: unfold processAct in Hr; destruct x; apply bind_Ret in Hr as (? & ? & [= _ <-] & [= _ <-]); by case_match.
  intros i o. by rewrite Hid.
Qed.

(** An invariant of the goroutines, the world and the shared variable. *)
Lemma goroutines_ind kind step (P : list gor → World → Z → Prop) c ts n U B X w n' w' :
  step_ok kind step → kind (GProcess (c_acts c)) = true → Forall (λ t, kind t = true) ts → conc_ok c →
  (∀ ts1 ts2 w n, ts1 ≡ₚ ts2 → P ts1 w n → P ts2 w n) →
  (∀ t ts w n t' w' n', kind t = true → gor_done t = false → Inv U B X (t :: ts) w → step t (w, n) = Ret (t', (w', n')) →
     P (t :: ts) w n → P (t' :: ts) w' n') →
  Inv U B X ts w → P (GProcess (c_acts c) :: ts) w n → goroutines step c ts n w = Ret (n', w') →
  ∃ ts', Forall (λ t, gor_done t = true) ts' ∧ P ts' w' n'.
Proof.
  intros Hstep Hkp Hkind Hacts HPp HP HI H0. unfold goroutines.
  destruct (run_group _ _ _ _ _) as [[ts' [w1 n1]]| |] eqn:Hrun; [|done..]. intros [= <- <-].
  apply (run_group_inv _ _ (λ ts s, (Inv U B X ts s.1 ∧ Forall (λ t, kind t = true) ts) ∧ P ts s.1 s.2))
    in Hrun as ([_ HP1] & Hd & _).
  - by exists ts'.
  - clear -Hstep HPp HP. intros ts [w n] i t t' [w' n'] [[HI Hk] Hn] Ht Hd Hs. cbn in *.
    rewrite (delete_Permutation _ _ _ Ht) in HI. apply (HPp _ _ _ _ (delete_Permutation _ _ _ Ht)) in Hn.
    rewrite Forall_lookup in Hk.
    destruct (Hstep U B X t (delete i ts) w n t' w' n') as [HI' Hk']; [eauto..|].
    split_and!; [by rewrite (insert_Permutation _ _ _ _ Ht)|apply Forall_insert; [by apply Forall_lookup|done]|].
    eapply HPp; [symmetry; by apply (insert_Permutation ts i t t')|]. eapply HP; [by eapply Hk|exact Hd|exact HI|exact Hs|exact Hn].
  - cbn. split_and!.
    + rewrite Permutation_app_comm. by apply Inv_acts.
    + apply Forall_app. by repeat constructor.
    + eapply HPp; [|exact H0]. by rewrite Permutation_app_comm.
Qed.

Lemma goroutine_acts U B X x acts ts w : Inv U B X (GProcess (x :: acts) :: ts) w → ∀ p, Process.kept p (x.2 p).
Proof. intros [idf []]. apply Forall_inv in i_ok0. by apply Forall_inv in i_ok0. Qed.

(** *** Creating *)

Lemma create_sameCaches e U B X k name ts w r w' :
  create e k name w = Ret (r, w') → Inv U B X (GNamed k name :: ts) w → (∃ i, r = inl i) ∧ sameCaches w w'.
Proof.
  unfold create, createNewProcess. intros Hr [idf []]. apply bind_Ret in Hr as (? & ? & [= <- <-] & Hr).
  rewrite i_sched0 in Hr. cbn in Hr. unfold Users.GetAvailableUser, FixedQueue.DequeueAlone in Hr.
  rewrite i_nowait0 in Hr. destruct (FixedQueue.q_queue _); [done|].
  apply bind_Ret in Hr as (p & ? & Hp & Hr). unfold Process.NewProcess in Hp.
  destruct (sched_GetRequestGroup _ _ _); [|done]. injection Hp as <- <-.
  apply bind_Ret in Hr as (? & ? & [= _ <-] & [= <- <-]). split; [by eexists|]. split_and!; [done..|]. cbn [w_heap].
  intros i o Hi. apply fmap_Some in Hi as (q & Hq & ->). rewrite lookup_app_l by by eapply lookup_lt_Some. by rewrite Hq.
Qed.

(** While the goroutines of the first part run: each process they register is one less needed, and the idle ones
    stay. *)
Definition creating (k : RequestGroupKey) (w0 : World) (K G : Z) (ts : list gor) (w : World) (n : Z) : Prop :=
  Forall (keyed k) ts ∧ processesOf k w + n = K ∧ n - Z.of_nat (length (all growing ts)) = G ∧
  pm_idleProcesses (w_pm w) = pm_idleProcesses (w_pm w0) ∧
  ∀ i o, identOf <$> w_heap w0 !! i = Some o → identOf <$> w_heap w !! i = Some o.

(** A step that leaves the caches and the count. *)
Lemma creating_same k w0 K G U B X t t' ts w w' n :
  creating k w0 K G (t :: ts) w n → Inv U B X (t :: ts) w → sameCaches w w' → keyed k t' → growing t' = growing t →
  creating k w0 K G (t' :: ts) w' n.
Proof.
  intros (Hk & HK & HG & Hid & Hh) HI Hs Hk' Hg. split_and!.
  - apply Forall_cons in Hk as [_ Hk]. by constructor.
  - by rewrite (processesOf_same k _ _ _ _ _ _ HI Hs).
  - by rewrite all_cons in HG |- *; rewrite Hg.
  - destruct Hs as (-> & _). done.
  - destruct Hs as (_ & _ & Hs). auto.
Qed.

Lemma createStep_creating e k w0 K G U B X t ts w n t' w' n' :
  createKind t = true → gor_done t = false → Inv U B X (t :: ts) w → createStep e t (w, n) = Ret (t', (w', n')) →
  creating k w0 K G (t :: ts) w n → creating k w0 K G (t' :: ts) w' n'.
Proof.
  intros Hkind Hd HI Hr HC. pose proof HC as (Hk & HK & HG & Hid & Hh). pose proof (Forall_inv Hk) as Hkt.
  destruct t as [k'|k' name|k' name i| | | | | |[|x acts]|]; try done; unfold createStep in Hr; cbn in Hkt.
  - gsplit Hr. injection Hr as <- <- <-. apply newName_sameCaches in Hs as [Hs _]. by eapply creating_same.
  - gsplit Hr. destruct (create_sameCaches _ _ _ _ _ _ _ _ _ _ Hs HI) as [[i ->] Hsc]. injection Hr as <- <- <-.
    by eapply creating_same.
  - subst k'. gsplit Hr. injection Hr as <- <- <-. apply cacheNew_Ret, quiet_sameCaches in Hs.
    pose proof (Inv_add _ _ _ _ _ _ _ _ HI) as HI'. destruct HI as [idf []].
    destruct (i_fresh0 name) as (Hn & _ & _); [by left|].
    assert (identIs (ofContract k) (w_heap w) i = true) as Hof.
    { apply Forall_inv in i_ok0. cbn in i_ok0. unfold identIs. rewrite i_ok0. apply ofContract_keyIdent. }
    split_and!.
    + apply Forall_cons in Hk as [_ Hk]. by constructor.
    + rewrite (processesOf_same k _ _ _ _ _ _ HI' Hs). unfold okey. cbn [keyIdent id_chain id_name id_version].
      rewrite processesOf_added, Hof by done. lia.
    + rewrite all_cons, length_app in HG. cbn [growing length] in HG. rewrite all_cons. cbn [growing app]. lia.
    + destruct Hs as (-> & _). done.
    + intros j o Hj. destruct Hs as (_ & _ & Hs). apply Hs. cbn. auto.
  - apply lift_Ret in Hr as (w1 & Hr & [= <- <-]). pose proof (processAct_kind _ _ _ _ _ Hr) as ->.
    apply act_sameCaches in Hr; [|by eapply goroutine_acts]. by eapply creating_same.
Qed.

Lemma creating_perm k w0 K G ts1 ts2 w n : ts1 ≡ₚ ts2 → creating k w0 K G ts1 w n → creating k w0 K G ts2 w n.
Proof. intros Hp (Hk & HK & HG & H). split_and!; [by rewrite <-Hp|done|by rewrite <-Hp|apply H..]. Qed.

Lemma done_nothing {A} (f : gor → list A) ts : f GDone = [] → f (GProcess []) = [] →
  Forall (λ t, gor_done t = true) ts → all f ts = [].
Proof.
  intros H1 H2. induction 1 as [|t ts Ht _ IH]; [done|]. rewrite all_cons, IH.
  by destruct t as [| | | | | | | |[]|]; rewrite ?H1, ?H2.
Qed.

(** The first part of the handler creates what there is room for. *)
Lemma create_phase e U B X c k num w need w1 :
  good_env e → conc_ok c → 0 ≤ N → B + N < u64_max → 0 < num → Inv U B X [] w →
  (if 0 <? getAvailableProcessNum (w_pm w)
   then if Min num (getAvailableProcessNum (w_pm w)) <? 0 then panic
        else goroutines (createStep e) c
               (replicate (Z.to_nat (Min num (getAvailableProcessNum (w_pm w)))) (GCreate k)) num
   else mret num) w = Ret (need, w1) →
  let m := Z.max 0 (Min num (getAvailableProcessNum (w_pm w))) in
  need = num - m ∧ Inv U (B + N) X [] w1 ∧ processesOf k w1 = processesOf k w + m ∧
  (∀ j, sameIdle k j w1 = sameIdle k j w).
Proof.
  intros He Hc HN HB Hnum HI H1 m. unfold m. rewrite Min_spec in *. set (av := getAvailableProcessNum (w_pm w)) in *.
  destruct (Z.ltb_spec 0 av) as [Hav|Hav].
  2: { injection H1 as <- <-. split_and!; [lia| |lia|done]. by eapply Inv_budget; [|exact HI]; lia. }
  destruct (Z.ltb_spec (num `min` av) 0); [lia|].
  assert (Forall (λ t, ∃ k, t = GCreate k) (replicate (Z.to_nat (num `min` av)) (GCreate k))) as Hcr.
  { apply Forall_replicate. by eexists. }
  pose proof (all_growing_GCreate _ Hcr) as [Hg Htk]. rewrite length_replicate in Hg.
  assert (Inv U (B + Z.of_nat (Z.to_nat (num `min` av))) X (replicate (Z.to_nat (num `min` av)) (GCreate k)) w) as HIs.
  { rewrite <-(length_replicate (Z.to_nat (num `min` av)) (GCreate k)) at 1.
    pose proof HI as [idf []]. pose proof (cachedPtrs_length (w_pm w)). cbn in i_room0.
    apply Inv_start; rewrite ?Htk, ?Hg, ?length_replicate; try done; try (unfold av in *; lia).
    by apply Forall_replicate. }
  assert (creating k w (processesOf k w + num) (num - num `min` av) (GProcess (c_acts c) :: replicate (Z.to_nat (num `min` av)) (GCreate k)) w num) as H0.
  { split_and!; try done.
    - constructor; [done|]. by apply Forall_replicate.
    - rewrite all_cons. cbn [growing app]. rewrite Hg. lia. }
  pose proof H1 as H2. eapply (goroutines_ind createKind (createStep e) _ _ _ _ U _ X) in H2
    as (ts' & Hd & Hcr'); [|apply createStep_ok|done| |exact Hc|by apply creating_perm|by apply createStep_creating|exact HIs|exact H0].
  2: { by apply Forall_replicate. }
  destruct Hcr' as (_ & HK & HG & Hid & Hh). rewrite (done_nothing growing) in HG by done. cbn in HG.
  split_and!; [lia| |lia|].
  - eapply creating_inv; [apply createStep_ok|exact Hc|exact Hcr| |lia|exact HI|exact H1]; rewrite length_replicate; unfold av; lia.
  - intros j. unfold sameIdle. rewrite Hid. do 2 f_equal. apply filter_ext_in. intros i Hi%list_elem_of_In.
    apply identIs_same; [apply Hh|]. apply cached_Forall in HI. rewrite Forall_forall in HI. apply HI.
    unfold cachedPtrs. apply elem_of_app. left. apply elem_of_take in Hi as (x & Hx & _). by apply list_elem_of_lookup_2 in Hx.
Qed.

(** *** Handing over *)

Definition sameTake (k : RequestGroupKey) (heap : list Process.Process) (t : gor) : list unit :=
  match t with GTake _ i => if identIs (sameContract k) heap i then [tt] else [] | _ => [] end.

(** While the goroutines of the second part run: what is needed goes down by one for each process handed over, counted
    once it is registered, and for each one of the same name and version. *)
Definition taking (k : RequestGroupKey) (w0 : World) (K : Z) (ts : list gor) (w : World) (n : Z) : Prop :=
  Forall (keyed k) ts ∧
  processesOf k w - Z.of_nat (length (all committing ts)) + n - Z.of_nat (length (all (sameTake k (w_heap w0)) ts)) = K ∧
  processesOf k w0 + Z.of_nat (length (all committing ts)) ≤ processesOf k w ∧
  Z.of_nat (length (all taken ts)) ≤ n ∧
  ∀ k' i, GTake k' i ∈ ts → identOf <$> w_heap w !! i = identOf <$> w_heap w0 !! i.

Lemma taking_perm k w0 K ts1 ts2 w n : ts1 ≡ₚ ts2 → taking k w0 K ts1 w n → taking k w0 K ts2 w n.
Proof.
  intros Hp (Hk & HK & HG & HT & H). split_and!; [by rewrite <-Hp..|]. intros k' i Hi. apply (H k'). by rewrite Hp.
Qed.

(** The process handed over now counts as one of the contract. *)
Lemma processesOf_change k U B X t ts w w' i p p' :
  Inv U B X (t :: ts) w → taken t = [i] → w_heap w !! i = Some p → ofContract k (identOf p) = false →
  ofContract k (identOf p') = true → w' = mkW (w_pm w) (w_users w) (<[i := p']> (w_heap w)) →
  processesOf k w' = processesOf k w + 1.
Proof.
  intros [idf []] Ht Hi Hof Hof' ->. destruct (i_live0 i) as [nm Hnm]; [rewrite all_cons, Ht; by left|].
  assert (i ∉ cachedPtrs (removed nm "" (w_pm w))) as Hni.
  { destruct (wf_named _ _ i_wf0 _ _ Hnm) as (o1 & Ho1 & E1). intros Hin.
    assert (∀ j, j ∈ cachedPtrs (removed nm "" (w_pm w)) → ∃ k', k' ≠ nm ∧ getProcessByName (w_pm w) k' = Some j) as Hc.
    { intros j Hj. unfold cachedPtrs in Hj. cbn [pm_idleProcesses pm_busyProcesses removed set_groups set_idle set_busy] in Hj.
      rewrite lhm_remove_list, elem_of_app in Hj. destruct Hj as [Hj|Hj]; apply list_elem_of_fmap in Hj as ([k' j'] & -> & Hj).
      - apply al_remove_in in Hj as [Hj Hne]. exists k'. split; [done|]. by apply idle_cached; [|apply i_wf0].
      - apply elem_of_map_to_list, lookup_delete_Some in Hj as [Hne Hj]. exists k'. split; [done|].
        unfold getProcessByName. rewrite lhm_get_list. destruct (al_get _ k') eqn:E; [|done].
        rewrite (wf_disj _ _ i_wf0 k') in Hj; [done|]. apply al_get_is_Some. by eexists. }
    destruct (Hc i Hin) as (k' & Hne & Hk'). destruct (wf_named _ _ i_wf0 _ _ Hk') as (o2 & Ho2 & E2). congruence. }
  unfold processesOf. cbn [w_pm w_heap]. rewrite !(filter_length_perm _ _ _ (removed_ptrs _ _ nm "" i i_wf0 Hnm)).
  cbn [List.filter].
  assert (identIs (ofContract k) (<[i := p']> (w_heap w)) i = true) as ->.
  { unfold identIs. rewrite list_lookup_insert_eq by by eapply lookup_lt_Some. done. }
  assert (identIs (ofContract k) (w_heap w) i = false) as -> by by unfold identIs; rewrite Hi.
  rewrite (filter_ext_in _ (identIs (ofContract k) (w_heap w))); [cbn [length]; lia|].
  intros j Hj%list_elem_of_In. unfold identIs. rewrite list_lookup_insert_ne; [done|]. by intros ->.
Qed.

Lemma takeStep_taking e k w0 K U B X t ts w n t' w' n' :
  good_env e → takeKind t = true → gor_done t = false → Inv U B X (t :: ts) w → takeStep e t (w, n) = Ret (t', (w', n')) →
  taking k w0 K (t :: ts) w n → taking k w0 K (t' :: ts) w' n'.
Proof.
  intros He Hkind Hd HI Hr (Hk & HK & HG & HT & Hh). apply Forall_cons in Hk as [Hkt Hk].
  assert (∀ k' i, GTake k' i ∈ ts → identOf <$> w_heap w !! i = identOf <$> w_heap w0 !! i) as Hh'
    by (intros; eapply Hh; by right).
  destruct t as [| | |k' i|k' i o name|k' i o name| | |[|x acts]|]; try done; unfold takeStep in Hr; cbn in Hkt;
    rewrite (all_cons committing), (all_cons (sameTake k (w_heap w0))), !length_app in HK;
    rewrite (all_cons committing), length_app in HG; rewrite (all_cons taken), length_app in HT; cbn [committing taken sameTake length] in HK, HG, HT.
  - subst k'. gsplit Hr. destruct (identAt_Ret _ _ _ _ Hs) as (-> & p & Hp & <-).
    assert (identIs (sameContract k) (w_heap w0) i = sameContract k (identOf p)) as Es.
    { unfold identIs. rewrite <-(Hh k i), Hp by by left. done. }
    rewrite Es in HK. destruct (sameContract k (identOf p)) eqn:Esc; gsplit Hr; injection Hr as <- <- <-.
    + unfold taking. rewrite (all_cons committing), (all_cons taken), (all_cons (sameTake k (w_heap w0))). cbn [committing taken sameTake app]. cbn [length] in HK.
      split_and!; [by constructor|lia|lia|lia|]. intros k' j [?|Hj]%elem_of_cons; [done|by eapply Hh'].
    + apply newName_sameCaches in Hs0 as [Hsc Hhp]. unfold taking.
      rewrite (all_cons committing), (all_cons taken), (all_cons (sameTake k (w_heap w0))), (processesOf_same k _ _ _ _ _ _ HI Hsc), Hhp. cbn [committing taken sameTake app length]. cbn [length] in HK.
      split_and!; [by constructor|lia|lia|lia|]. intros k' j [?|Hj]%elem_of_cons; [done|by eapply Hh'].
  - destruct Hkt as [-> Hns]. gsplit Hr. pose proof HI as [idf HI']. pose proof HI' as [].
    assert (∃ p, w_heap w !! i = Some p ∧ identOf p = o) as (p & Hp & Ho).
    { apply Forall_inv in i_ok0. cbn in i_ok0. rewrite i_idf0 in i_ok0; [by apply fmap_Some in i_ok0 as (p & ? & ?); eauto|].
      rewrite all_cons. cbn. intros ?%committing_taken. rewrite all_cons in i_taken0. by apply NoDup_cons in i_taken0 as [? _]. }
    case_match; injection Hr as <- <- <-.
    + eapply (Inv_change _ U B X) in Hs; [|done|exact HI]. cbn in Hs. subst. unfold taking.
      rewrite (all_cons committing), (all_cons taken), (all_cons (sameTake k (w_heap w0))). cbn [committing taken sameTake app length].
      split_and!; [by constructor|lia|lia|lia|]. intros k' j [?|Hj]%elem_of_cons; [done|by eapply Hh'].
    + unfold changeSandbox, onProcess in Hs. rewrite Hp in Hs.
      destruct (Process.ChangeSandbox _ _ _ _ _ p) as [[er' p']| |] eqn:E; [|done..]. injection Hs as -> <-.
      apply ChangeSandbox_good in E as (E1 & _ & _); [|done|].
      2: { unfold tokens in i_tokens0. rewrite Forall_lookup in i_tokens0. eauto. }
      unfold taking. rewrite (all_cons committing), (all_cons taken), (all_cons (sameTake k (w_heap w0))). cbn [committing taken sameTake app length].
      rewrite (processesOf_change k U B X (GChange k i o name) ts w _ i p p' HI eq_refl Hp); [|..|reflexivity].
      2: { rewrite Ho. unfold ofContract. rewrite Hns. apply andb_false_r. }
      2: { rewrite E1. apply ofContract_keyIdent. }
      split_and!; [by constructor|lia|lia|lia|]. intros k' j [?|Hj]%elem_of_cons; [done|]. cbn [w_heap].
      rewrite list_lookup_insert_ne; [by eapply Hh'|]. intros ->. rewrite all_cons in i_taken0.
      apply NoDup_cons in i_taken0 as [Hit _]. apply Hit. by apply (elem_all taken _ _ _ Hj); left.
  - subst k'. gsplit Hr. injection Hr as <- <- <-. apply uncache_Ret in Hs. apply cacheNew_Ret in Hs0.
    pose proof HI as [idf HI']. pose proof HI' as []. pose proof (Inv_uncache _ _ _ _ _ _ _ _ _ HI) as HI1.
    pose proof (Inv_quiet _ _ _ _ _ _ Hs HI1) as HI2. pose proof (Inv_add _ _ _ _ _ _ _ _ HI2) as HI3.
    destruct (Forall_inv i_ok0) as [Hidf Hid]. destruct (i_live0 i) as [nm Hnm]; [by left|].
    destruct (wf_named _ _ i_wf0 _ _ Hnm) as (o1 & Ho1 & E1). assert (o1 = o) as -> by congruence.
    assert (identIs (ofContract k) (w_heap w) i = true) as Hof by (unfold identIs; rewrite Hid; apply ofContract_keyIdent).
    assert (processesOf k x4 = processesOf k w) as Ec.
    { apply quiet_sameCaches in Hs0. rewrite (processesOf_same k _ _ _ _ _ _ HI3 Hs0).
      unfold okey. cbn [keyIdent id_chain id_name id_version].
      rewrite processesOf_added by (destruct HI2 as [? HI2]; destruct HI2; by apply i_fresh1; left).
      rewrite (processesOf_same k _ _ _ _ _ _ HI1 (quiet_sameCaches _ _ Hs)).
      rewrite (processesOf_removed k _ _ _ _ _ _ nm (okey o) i HI' Hnm).
      destruct Hs as (_ & _ & Ehp & _). cbn in Ehp. rewrite Ehp, Hof. by rewrite <-E1. }
    assert (w_heap x4 = w_heap w) as Ehp.
    { destruct Hs as (_ & _ & H2 & _), Hs0 as (_ & _ & H3 & _). cbn in H2, H3. congruence. }
    unfold taking. rewrite (all_cons committing), (all_cons taken), (all_cons (sameTake k (w_heap w0))), Ec, Ehp. cbn [committing taken sameTake app length].
    split_and!; [by constructor|lia|lia|lia|]. intros k' j [?|Hj]%elem_of_cons; [done|by eapply Hh'].
  - apply lift_Ret in Hr as (w1 & Hr & [= <- <-]). pose proof (processAct_kind _ _ _ _ _ Hr) as ->.
    pose proof (act_idents _ _ _ _ _ (goroutine_acts _ _ _ _ _ _ _ HI) Hr) as Hid.
    apply act_sameCaches in Hr; [|by eapply goroutine_acts]. unfold taking.
    rewrite (all_cons committing), (all_cons taken), (all_cons (sameTake k (w_heap w0))), (processesOf_same k _ _ _ _ _ _ HI Hr). cbn [committing taken sameTake app length].
    split_and!; [by constructor|lia|lia|lia|]. intros k' j [?|Hj]%elem_of_cons; [done|]. rewrite Hid. by eapply Hh'.
Qed.

Lemma sameTake_GTake k heap l : length (all (sameTake k heap) (GTake k <$> l)) = length (List.filter (identIs (sameContract k) heap) l).
Proof.
  unfold all. induction l as [|i l IH]; [done|]. cbn. rewrite length_app, IH. by destruct (identIs _ _ i).
Qed.
Lemma committing_GTake k l : all committing (GTake k <$> l) = [].
Proof. unfold all. by induction l. Qed.

(** The second part hands idle processes over, at most as many as are still needed. *)
Lemma take_phase e U B X c k need w r w1 :
  good_env e → conc_ok c → 0 ≤ N → B + N < u64_max → 0 ≤ need → Inv U B X [] w →
  (if (0 <? need) && (0 <? Z.of_nat (lhm_size (pm_idleProcesses (w_pm w))))
   then match peekIdleProcesses (w_pm w) (Z.to_nat (Min need (Z.of_nat (lhm_size (pm_idleProcesses (w_pm w)))))) with
        | None => mret (inr (Err "failed to peek idle processes"))
        | Some l => n ← goroutines (takeStep e) c (GTake k <$> l) need; mret (inl n)
        end
   else mret (inl need)) w = Ret (r, w1) →
  ∃ need', r = inl need' ∧ 0 ≤ need' ∧ processesOf k w ≤ processesOf k w1 ∧
    need - need' = processesOf k w1 - processesOf k w + sameIdle k (Z.to_nat need) w ∧ Inv U (B + N) X [] w1.
Proof.
  intros He Hc HN HB Hneed HI H2. rewrite Min_spec in H2.
  set (idle := (lhm_list (pm_idleProcesses (w_pm w))).*2) in *.
  assert (length idle = lhm_size (pm_idleProcesses (w_pm w))) as Hlen by (unfold idle; by rewrite length_fmap, lhm_size_list).
  destruct (_ && _) eqn:Eb.
  2: { injection H2 as <- <-. exists need. split_and!; [done|lia|lia| |by eapply Inv_budget; [|exact HI]; lia].
    unfold sameIdle. fold idle. rewrite (nil_length_inv (take (Z.to_nat need) idle)); [cbn; lia|].
    rewrite length_take. apply andb_false_iff in Eb as [?%Z.ltb_ge|?%Z.ltb_ge]; lia. }
  destruct (peekIdle_Some (w_pm w) (Z.to_nat (need `min` Z.of_nat (lhm_size (pm_idleProcesses (w_pm w)))))) as [l Hp]; [lia|].
  rewrite Hp in H2. apply bind_Ret in H2 as (n' & w2 & H2 & [= <- <-]). exists n'. split; [done|].
  assert (NoDup l ∧ (∀ i, i ∈ l → ∃ k, getProcessByName (w_pm w) k = Some i) ∧ Z.of_nat (length l) ≤ need ∧
    Z.of_nat (length l) ≤ N ∧ Z.of_nat (length (cachedPtrs (w_pm w))) ≤ N) as (L1 & L2 & L3 & L4 & L5).
  { destruct HI as [idf []]. destruct (peek_cached _ _ _ _ i_wf0 Hp) as (?&?&?&?). cbn in *. split_and!; try done; lia. }
  assert (l = take (Z.to_nat need) idle) as El.
  { unfold peekIdleProcesses in Hp. case_match; [done|]. injection Hp as <-. fold idle.
    destruct (decide (Z.to_nat need ≤ length idle)%nat).
    - f_equal. lia.
    - rewrite !take_ge; [done|lia|lia]. }
  assert (taking k w (processesOf k w + need - sameIdle k (Z.to_nat need) w) (GProcess (c_acts c) :: (GTake k <$> l)) w need) as H0.
  { unfold taking. rewrite (all_cons committing), (all_cons taken), (all_cons (sameTake k (w_heap w))). cbn [committing taken sameTake app].
    rewrite sameTake_GTake, committing_GTake, all_taken_GTake. unfold sameIdle. fold idle. rewrite <-El. cbn [length].
    split_and!; [|lia|lia|lia|done]. constructor; [done|]. by apply Forall_fmap_all. }
  pose proof H2 as H3. eapply (goroutines_ind takeKind (takeStep e) (taking k w (processesOf k w + need - sameIdle k (Z.to_nat need) w)) _ _ _ U (B + Z.of_nat (length (GTake k <$> l))) X) in H3
    as (ts' & Hd & Ht); [|by apply takeStep_ok|done|by apply Forall_fmap_all|exact Hc|intros ????; apply taking_perm|intros; by eapply takeStep_taking| |exact H0].
  2: { apply Inv_start; rewrite ?all_taken_GTake, ?all_growing_GTake, ?length_fmap; try done; try (cbn; lia).
    by apply Forall_fmap_all. }
  destruct Ht as (_ & HK & HG & HT & _). rewrite (done_nothing committing ts'), (done_nothing (sameTake k (w_heap w)) ts') in HK by done.
  rewrite (done_nothing committing ts') in HG by done. rewrite (done_nothing taken ts') in HT by done. cbn [length] in HK, HG, HT.
  split_and!; [lia|lia|lia|].
  eapply (taking_inv takeKind); [by apply takeStep_ok|done|exact Hc| | | | | |exact Hp|lia|exact HI|exact H2];
    [by apply Forall_fmap_all|by apply Forall_fmap_all|apply all_growing_GTake|by rewrite all_taken_GTake|by rewrite length_fmap].
Qed.

(** [C29] A process request is answered with what was found. From every state reached as in [manager_caches_agree]
    (within fewer than [2^64 / (2 * max)] events, every signal being delivered and the request groups known and taking their
    responses), when the handler of a request for [num > 0] processes returns, the number it counts is that of the
    processes the contract has gained, at least as many as there was room for (up to [num]), and of the processes of the
    same name and version among the idle ones it looked at, as many as were still needed (the chain is not compared, so
    these may be another chain's). The number is at most [num]; either it is positive and the last message sent
    tells the request group exactly this number, or it is zero and the group is among the waiting ones. *)
Theorem request_answered rate isOrig um j w e c1 c2 msg er w' :
  0 ≤ N → FixedQueue.q_waiting (Users.userQueue um) = [] → Z.of_nat (S j) * (2 * N) < u64_max →
  nsteps pmstep j (initial rate isOrig um) w → good_env e → conc_ok c1 → conc_ok c2 → 0 < gp_ProcessNum msg →
  handleGetProcessReq e c1 c2 msg w = Ret (er, w') →
  let k := mkGroupKey (gp_ChainID msg) (gp_ContractName msg) (gp_ContractVersion msg) in
  let num := gp_ProcessNum msg in
  let room := Z.max 0 (Min num (getAvailableProcessNum (w_pm w))) in
  let gained := processesOf k w' - processesOf k w in
  let n := gained + sameIdle k (Z.to_nat (num - room)) w in
  er = None ∧ room ≤ gained ∧ n ≤ num ∧
  (n = 0 → is_Some (lhm_get (pm_waitingRequestGroups (w_pm w')) k)) ∧
  (0 < n → last (pm_outbox (w_pm w')) = Some (EReady k (mkGetProcessResp (pm_isOrigManager (w_pm w')) n))).
Proof.
  intros HN Hw HB Hs He Hc1 Hc2 Hnum Hr k num room gained n.
  assert (Inv (FixedQueue.q_queue (Users.userQueue um)) (Z.of_nat j * (2 * N)) (exits (w_pm w)) [] w) as HI
    by (apply (reachable_Wf rate isOrig); try done; lia).
  unfold handleGetProcessReq in Hr. cbv zeta in Hr. fold num in Hnum, Hr. destruct (Z.eqb_spec num 0); [lia|]. fold k in Hr.
  apply bind_Ret in Hr as (? & ? & [= <- <-] & Hr). apply bind_Ret in Hr as (need & w1 & H1 & Hr).
  apply create_phase with (U := FixedQueue.q_queue (Users.userQueue um)) (X := exits (w_pm w)) (B := Z.of_nat j * (2 * N))
    in H1 as (Hneed & HI1 & Hp1 & Hsame); try done; try lia. fold room in Hneed, Hp1.
  assert (room ≤ num) as Hroom by (unfold room; rewrite Min_spec; lia).
  apply bind_Ret in Hr as (? & ? & [= <- <-] & Hr). apply bind_Ret in Hr as (r & w2 & H2 & Hr).
  eapply take_phase in H2 as (need' & -> & Hn' & Hp2 & Hcount & HI2); [|done|exact Hc2|done| |lia|exact HI1]; [|lia].
  rewrite Hsame, Hneed in Hcount.
  assert (quiet w2 w' → gained = processesOf k w2 - processesOf k w) as Hgain.
  { intros Hq. unfold gained. by rewrite (processesOf_same k _ _ _ _ _ _ HI2 (quiet_sameCaches _ _ Hq)). }
  destruct (Z.eqb_spec num need') as [E|E].
  - apply bind_Ret in Hr as (? & ? & [= <- <-] & Hr).
    assert (er = None ∧ is_Some (lhm_get (pm_waitingRequestGroups (w_pm w')) k) ∧ quiet w2 w') as (-> & Hk & Hq).
    { destruct (lhm_get _ _) eqn:El; [injection Hr as <- <-; by rewrite El|].
      apply bind_Ret in Hr as (? & ? & [= _ <-] & [= <- <-]). split_and!; [done| |done]. cbn.
      rewrite lhm_get_list, lhm_put_list, al_get_put, decide_True by done. by eexists. }
    specialize (Hgain Hq). assert (n = 0) as Hn0 by (unfold n; lia). split_and!; try done; lia.
  - apply bind_Ret in Hr as (er1 & w3 & H3 & [= <- <-]). apply ready_Ret in H3 as Hrd; [|done]. destruct Hrd as [-> Hq].
    specialize (Hgain Hq). assert (n = num - need') as Hnn by (unfold n; lia). split_and!; try done; try lia.
    intros _. rewrite Hnn.
    unfold ready, sendProcessReadyResp in H3. apply bind_Ret in H3 as (? & ? & [= <- <-] & H3).
    destruct (pm_scheduler _); [|done]. cbn in H3. rewrite (ge_group _ He), (ge_put _ He) in H3.
    apply bind_Ret in H3 as (? & ? & [= _ <-] & [= <-]). cbn. by rewrite last_snoc.
Qed.

(** ** The clean timer *)

Definition sameTimer (w w' : World) : Prop :=
  pm_timerArmed (w_pm w') = pm_timerArmed (w_pm w) ∧ pm_timerC (w_pm w') = pm_timerC (w_pm w).

#[local] Instance sameTimer_preorder : PreOrder sameTimer.
Proof. split; [by intros w|]. intros w1 w2 w3 [? ?] [? ?]. split; congruence. Qed.

Definition sameTimerZ (s s' : World * Z) : Prop := sameTimer s.1 s'.1.

#[local] Instance sameTimerZ_preorder : PreOrder sameTimerZ.
Proof. split; [by intros s|]. intros s1 s2 s3. unfold sameTimerZ. by intros ->. Qed.

Ltac timer_tac := preserves_tac ltac:(done).

Lemma timer_ready e n c cn v : preserves sameTimer (sendProcessReadyResp e n c cn v).
Proof. unfold sendProcessReadyResp. timer_tac. Qed.
Lemma timer_unwait e c n v : preserves sameTimer (removeFromWaitingGroup e c n v).
Proof. unfold removeFromWaitingGroup. timer_tac; apply timer_ready. Qed.
Lemma timer_uncache e o : preserves sameTimer (uncache e o).
Proof. unfold uncache, removeProcessFromCache, removeFromProcessGroup. timer_tac; apply timer_unwait. Qed.
Lemma timer_idle e name i : preserves sameTimer (addProcessToIdle e name i).
Proof. unfold addProcessToIdle. timer_tac; apply timer_unwait. Qed.
Lemma timer_cache e k name i : preserves sameTimer (cacheNew e k name i).
Proof. unfold cacheNew, addProcessToCache, addToProcessGroup. timer_tac. Qed.
Lemma timer_name k : preserves sameTimer (newName k).
Proof. unfold newName, generateProcessName. timer_tac. Qed.
Lemma timer_create e k name : preserves sameTimer (create e k name).
Proof. unfold create, createNewProcess. timer_tac. Qed.
Lemma timer_ident i : preserves sameTimer (identAt i).
Proof. unfold identAt. timer_tac. Qed.
Lemma timer_close e c n v name : preserves sameTimer (closeSandbox e c n v name).
Proof. unfold closeSandbox, releaseUser. timer_tac. apply (timer_uncache e (mkIdent c n v name)). Qed.
Lemma timer_process {A} i (m : M Process.Process A) : preserves sameTimer (onProcess i m).
Proof. intros w a w'. unfold onProcess. destruct (w_heap w !! i); [|done]. destruct (m _) as [[? ?]| |]; [|done..]. by intros [= _ <-]. Qed.
Lemma timer_act acts : preserves sameTimer (processAct acts).
Proof. destruct acts as [|[i f] acts]; unfold processAct; preserves_tac ltac:(by repeat case_match). Qed.
Lemma timer_notify : preserves sameTimer notifyNew.
Proof. unfold notifyNew. timer_tac. Qed.
Lemma timer_lift {A} (m : M World A) : preserves sameTimer m → preserves sameTimerZ (lift m).
Proof. intros Hm [w n] a s (w' & Hr & ->)%lift_Ret. by apply (Hm _ _ _ Hr). Qed.
Lemma timer_add d : preserves sameTimerZ (addZ d).
Proof. intros [w n] a s [= _ <-]. done. Qed.

Ltac timerZ_tac := preserves_tac ltac:(done); first [apply timer_add|apply timer_lift; first
  [apply timer_ready|apply timer_unwait|apply timer_uncache|apply timer_cache|apply timer_name|apply timer_create
  |apply timer_ident|apply timer_close|apply timer_process|apply timer_act]].

Lemma timer_steps e t : preserves sameTimerZ (createStep e t) ∧ preserves sameTimerZ (takeStep e t) ∧
  preserves sameTimerZ (idleStep e t) ∧ preserves sameTimerZ (newStep e t).
Proof.
  unfold createStep, takeStep, idleStep, newStep. destruct t; split_and!; timerZ_tac.
Qed.

Lemma timer_goroutines step c ts n : (∀ t, preserves sameTimerZ (step t)) → preserves sameTimer (goroutines step c ts n).
Proof.
  intros Hst w a w'. unfold goroutines. destruct (run_group _ _ _ _ _) as [[ts' [w1 n1]]| |] eqn:Hrun; [|done..].
  intros [= _ <-]. apply (run_group_inv _ _ (λ _ s, sameTimer w s.1)) in Hrun as (HR & _); [done| |done].
  intros ts1 s i l l' s' HI _ _ Hs. etrans; [exact HI|]. by apply (Hst l s l' s').
Qed.

Lemma timer_req e c1 c2 m : preserves sameTimer (handleGetProcessReq e c1 c2 m).
Proof.
  unfold handleGetProcessReq. timer_tac; first [apply timer_unwait|apply timer_ready
    |apply timer_goroutines; intros t; by apply (timer_steps e t)].
Qed.

(** No clean event comes any more. *)
Definition stopped (w : World) : Prop := pm_timerArmed (w_pm w) = false ∧ pm_timerC (w_pm w) = false.

Lemma stopped_same w w' : sameTimer w w' → stopped w → stopped w'.
Proof. intros [? ?] [? ?]. split; congruence. Qed.

Lemma stopped_step w w' : pmstep w w' → stopped w → stopped w'.
Proof.
  intros Hs Hw. destruct Hs as [e sel c1 c2 w w' He _ _ Hr|m w r w' _ Hr|e name b w r w' Hr|i p p' w _ _|w Ha].
  - unfold loopStep in Hr. apply bind_Ret in Hr as (? & ? & [= <- <-] & Hr).
    destruct sel; [| by rewrite (proj2 Hw) in Hr| |];
      eapply stopped_same, Hw; (match type of Hr with ?m _ = _ => assert (preserves sameTimer m) as Hk; [|by apply (Hk _ _ _ Hr)] end);
      timer_tac; try apply timer_req.
    + unfold handleSandboxExitMsg. timer_tac; [apply timer_close|apply timer_notify].
    + unfold handleAllocateIdleProcesses. timer_tac. apply timer_goroutines. intros t. by apply (timer_steps e t).
    + unfold handleAllocateNewProcesses. timer_tac. apply timer_goroutines. intros t. by apply (timer_steps e t).
  - eapply stopped_same, Hw. assert (preserves sameTimer (PutMsg m)) as Hk; [|by apply (Hk _ _ _ Hr)].
    unfold PutMsg. timer_tac.
  - eapply stopped_same, Hw. assert (preserves sameTimer (ChangeProcessState e name b)) as Hk; [|by apply (Hk _ _ _ Hr)].
    unfold ChangeProcessState. timer_tac. apply timer_idle.
  - done.
  - destruct Hw as [Hw _]. congruence.
Qed.

(** The cleaning of idle processes stops for ever the first time there is nothing to
    release: that return of the handler leaves the timer stopped, and nothing ever starts it
    again, whatever happens later. *)
Theorem cleaning_stops w e c1 c2 w1 w2 :
  pm_timerArmed (w_pm w) = false → pm_timerC (w_pm w) = true →
  pm_release (w_pm w) (pm_maxProcessNum (w_pm w)) ≤ getAvailableProcessNum (w_pm w) →
  loopStep e SelClean c1 c2 w = Ret (tt, w1) → rtc pmstep w1 w2 →
  stopped w2 ∧ ∀ e' c1' c2', loopStep e' SelClean c1' c2' w2 = Block.
Proof.
  intros Ha HC Hrel Hr Hs. assert (stopped w1) as H1.
  { unfold loopStep in Hr. apply bind_Ret in Hr as (? & ? & [= <- <-] & Hr). rewrite HC in Hr.
    apply bind_Ret in Hr as (? & ? & [= _ <-] & Hr). unfold handleCleanIdleProcesses in Hr.
    apply bind_Ret in Hr as (? & ? & [= <- <-] & Hr). cbv zeta in Hr. rewrite Min_spec in Hr.
    change (getAvailableProcessNum _) with (getAvailableProcessNum (w_pm w)) in Hr.
    cbn [w_pm on_pm set_clean pm_release pm_maxProcessNum pm_idleProcesses] in Hr.
    destruct (Z.leb_spec ((pm_release (w_pm w) (pm_maxProcessNum (w_pm w)) - getAvailableProcessNum (w_pm w))
      `min` Z.of_nat (lhm_size (pm_idleProcesses (w_pm w)))) 0); [|lia]. injection Hr as <-. done. }
  assert (stopped w2) as H2.
  { clear -Hs H1. induction Hs as [|w1 w2 w3 Hs _ IH]; [done|]. apply IH. by eapply stopped_step. }
  split; [done|]. intros. unfold loopStep, mbind, M_bind, getS. by rewrite (proj2 H2).
Qed.

(** ** A sandbox that cannot be killed *)

(** A process whose sandbox cannot be killed when it is handed over is lost for the
    manager: [ChangeSandbox] reports the error, but the process already has its new name, under
    which the manager does not know it, and when its sandbox ends the exit message it sends
    makes the manager panic. *)
Theorem failed_kill_panics e k i name p er w :
  w_heap w !! i = Some p → Process.p_state p = Process.idle → Process.p_cmdReadyCh p = true → Process.p_cmd p = true →
  @sched_GetRequestGroup (Process.e_sched e) (gk_ChainID k) (gk_ContractName k) (gk_ContractVersion k) = true →
  Process.e_signalErr e Process.SIGTERM = Some er → getProcessByName (w_pm w) name = None →
  ∃ w' p', changeSandbox e k i name w = Ret (Some (Wrap "failed to kill process" er), w') ∧
    w_pm w' = w_pm w ∧ w_heap w' !! i = Some p' ∧ Process.p_state p' = Process.idle ∧
    ∀ e' x, identOf p' = mkIdent (se_ChainID x) (se_ContractName x) (se_ContractVersion x) (se_ProcessName x) →
      handleSandboxExitMsg e' x w' = Panic.
Proof.
  intros Hp Hst Ht Hcmd Hg Her Hn. unfold changeSandbox, onProcess. rewrite Hp.
  unfold Process.ChangeSandbox, Process.resetContext, Process.killProcess, mbind, M_bind, getS, modifyS, mret, M_ret.
  rewrite decide_False by (intros Hne; by apply Hne). rewrite Hg. cbn. rewrite Ht. cbn. rewrite Hcmd. cbn. rewrite Her.
  eexists _, _. split_and!; [done|done|cbn; apply list_lookup_insert_eq; by eapply lookup_lt_Some|done|].
  intros e' x [= _ _ _ Ex]. cbn in Ex. rewrite Ex in Hn.
  unfold handleSandboxExitMsg, closeSandbox, releaseUser, mbind, M_bind, getS, deref. cbn. by rewrite Hn.
Qed.
End manager.

(** *** Witnesses *)

Definition sampleUsers (n : nat) : Users.UserManager :=
  Users.mkUserManager (FixedQueue.mkFIFO n ((λ i, Users.NewUser (10000 + Z.of_nat i)) <$> seq 0 n) []) (Z.of_nat n).

Definition sampleKey : RequestGroupKey := mkGroupKey "c1" "a" "v1".
Definition sampleReq (chain name : string) (num : Z) : GetProcessReqMsg := mkGetProcessReq chain name "v1" num.

(** Three turns for each of two goroutines. *)
Definition sampleConc : conc := mkConc [0; 1; 1; 0; 0; 1]%nat [].
Definition idleConc : conc := mkConc [0; 1; 0; 1; 0; 1]%nat [].

Lemma sampleConc_ok : conc_ok sampleConc ∧ conc_ok idleConc.
Proof. split; constructor. Qed.

Definition ret_world {A} (o : outcome (A * World)) (d : World) : World :=
  match o with Ret (_, w) => w | _ => d end.

Definition w_start : World := Eval vm_compute in initial 2 (λ _, 0) true (sampleUsers 3).
Definition w_asked : World :=
  Eval vm_compute in ret_world (PutMsg (AnyGetProcessReq (sampleReq "c1" "a" 2)) w_start) w_start.
Definition w_created : World :=
  Eval vm_compute in ret_world (loopStep Process.sampleEnv SelEvent sampleConc sampleConc w_asked) w_asked.
Definition sampleName : string := "c1#o#a#v1#0#1".
Definition sampleExit : SandboxExitMsg := mkSandboxExit "c1" "a" "v1" sampleName SandboxExitDefaultError.
Definition w_exiting : World :=
  Eval vm_compute in ret_world (PutMsg (AnySandboxExit sampleExit) w_created) w_created.

Lemma sampleEnv_good : good_env Process.sampleEnv.
Proof. by split. Qed.

Lemma sample_run : nsteps pmstep 3 (initial 2 (λ _, 0) true (sampleUsers 3)) w_exiting ∧
  nsteps pmstep 2 (initial 2 (λ _, 0) true (sampleUsers 3)) w_created.
Proof.
  assert (nsteps pmstep 2 (initial 2 (λ _, 0) true (sampleUsers 3)) w_created) as H.
  { apply (nsteps_l _ _ _ w_asked); [|apply nsteps_once].
    - apply (pm_put (AnyGetProcessReq (sampleReq "c1" "a" 2)) _ None); [done|]. vm_compute. reflexivity.
    - apply (pm_loop Process.sampleEnv SelEvent sampleConc sampleConc); [apply sampleEnv_good|constructor..|].
      vm_compute. reflexivity. }
  split; [|exact H]. apply (nsteps_r _ _ w_created); [exact H|].
  apply (pm_put (AnySandboxExit sampleExit) _ None).
  - intros x [= <-]. eexists _, _. split_and!; vm_compute; reflexivity.
  - vm_compute. reflexivity.
Qed.

Lemma manager_caches_agree_witness :
  0 ≤ getAvailableProcessNum (w_pm w_exiting) ∧ getProcessByName (w_pm w_exiting) sampleName = Some 1%nat ∧
  ∃ p, w_heap w_exiting !! 1%nat = Some p ∧ Process.p_processName p = sampleName.
Proof.
  destruct (manager_caches_agree 2 (λ _, 0) true (sampleUsers 3) 3 w_exiting) as (H1 & _ & H3 & _);
    [lia|reflexivity|vm_compute; reflexivity|apply sample_run|].
  split_and!; [exact H1|vm_compute; reflexivity|]. apply H3. vm_compute. reflexivity.
Defined.

Lemma manager_never_panics_witness :
  loopStep Process.sampleEnv SelEvent sampleConc sampleConc w_exiting ≠ Panic.
Proof.
  apply (manager_never_panics 2 (λ _, 0) true (sampleUsers 3) 3 w_exiting);
    [lia|reflexivity|vm_compute; reflexivity|apply sample_run|apply sampleEnv_good|constructor|constructor| |].
  - intros m rest H. vm_compute in H. discriminate H.
  - intros m rest H. vm_compute in H. injection H as <- _. exists 1%nat. vm_compute. reflexivity.
Defined.

(** Two processes asked for at start, where there is room for two. *)
Definition w_answered : World :=
  Eval vm_compute in ret_world (handleGetProcessReq Process.sampleEnv sampleConc idleConc (sampleReq "c1" "a" 2) w_start) w_start.

Lemma request_answered_witness :
  processesOf sampleKey w_answered = 2 ∧
  last (pm_outbox (w_pm w_answered)) = Some (EReady sampleKey (mkGetProcessResp true 2)).
Proof.
  destruct (request_answered 2 (λ _, 0) true (sampleUsers 3) 0 w_start Process.sampleEnv sampleConc idleConc
    (sampleReq "c1" "a" 2) None w_answered) as (_ & Hg & _ & _ & Ho);
    [lia|reflexivity|vm_compute; reflexivity|apply nsteps_O|apply sampleEnv_good|constructor|constructor
    |cbn; lia|vm_compute; reflexivity|].
  split; [vm_compute; reflexivity|]. apply Ho. vm_compute. reflexivity.
Defined.

Definition w_fired : World := Eval vm_compute in on_pm (λ s, set_clean false true s) w_created.
Definition w_cleaned : World :=
  Eval vm_compute in ret_world (loopStep Process.sampleEnv SelClean sampleConc sampleConc w_fired) w_fired.

Lemma cleaning_stops_witness : stopped w_cleaned.
Proof.
  apply (cleaning_stops w_fired Process.sampleEnv sampleConc sampleConc w_cleaned w_cleaned);
    [reflexivity|reflexivity|vm_compute; discriminate|vm_compute; reflexivity|apply rtc_refl].
Defined.

(** A manager at its limit of one, whose process has become idle. *)
Definition noKill : Process.env :=
  Process.mkEnv 0 5000000000 false openScheduler (λ _, None) (λ _ _, None) (λ _, None)
    (λ _, Some (Err "os: process already finished")) 1 0.

Definition w_one : World :=
  Eval vm_compute in
    let w := ret_world (handleGetProcessReq Process.sampleEnv sampleConc idleConc (sampleReq "c1" "a" 1)
               (initial 1 (λ _, 0) true (sampleUsers 3))) w_start in
    let w := ret_world (ChangeProcessState Process.sampleEnv sampleName false w) w in
    match w_heap w with
    | [p] => set_heap [Process.set_pstate Process.idle (Process.set_cmd true true p)] w
    | _ => w
    end.

Lemma failed_kill_panics_witness :
  ∃ w', changeSandbox noKill (mkGroupKey "c1" "b" "v1") 0 "c1#o#b#v1#0#2" w_one
          = Ret (Some (Wrap "failed to kill process" (Err "os: process already finished")), w') ∧
    handleSandboxExitMsg noKill (mkSandboxExit "c1" "b" "v1" "c1#o#b#v1#0#2" SandboxExitDefaultError) w' = Panic.
Proof.
  destruct (w_heap w_one !! 0%nat) as [p|] eqn:Hp; [|vm_compute in Hp; discriminate Hp].
  destruct (failed_kill_panics noKill (mkGroupKey "c1" "b" "v1") 0 "c1#o#b#v1#0#2" p
    (Err "os: process already finished") w_one Hp) as (w' & p' & H1 & H2 & H3 & H4 & H5);
    [vm_compute in Hp; injection Hp as <-; reflexivity..|vm_compute; reflexivity|].
  exists w'. split; [exact H1|]. apply H5. vm_compute in H1. injection H1 as <-. vm_compute in H3. by injection H3 as <-.
Defined.

(** After the failed hand-over and a later one that succeeds, the manager keeps two entries for
    its only process: one more than its limit. *)
Example failed_kill_breaks_limit :
  match handleGetProcessReq noKill sampleConc idleConc (sampleReq "c1" "b" 1) w_one with
  | Ret (_, w) =>
    let w := match w_heap w with
             | [p] => set_heap [Process.set_cmd true true p] w
             | _ => w
             end in
    match handleGetProcessReq Process.sampleEnv sampleConc idleConc (sampleReq "c1" "d" 1) w with
    | Ret (_, w') => getAvailableProcessNum (w_pm w') = -1
    | _ => False
    end
  | _ => False
  end.
Proof. vm_compute. reflexivity. Qed.

(** An idle process of another chain's contract of the same name and version counts as one of
    the requested contract: the group is told that it has a process, and has none. *)
Example other_chain_process_counts :
  match handleGetProcessReq Process.sampleEnv sampleConc idleConc (sampleReq "c2" "a" 1) w_one with
  | Ret (_, w) =>
    last (pm_outbox (w_pm w)) = Some (EReady (mkGroupKey "c2" "a" "v1") (mkGetProcessResp true 1)) ∧
    GetProcessNumByContractKey "c2" "a" "v1" w = 0
  | _ => False
  end.
Proof. vm_compute. split; reflexivity. Qed.
End ProcessManager.
