(* ===== verification/Turns.v ===== *)
(** * vm_mgr/module/core/process_manager.go: a round of the loop, one turn at a time

    The handlers of a process manager start goroutines and wait for them. [ProcessManager] runs such a group to its end
    within one step; here a step is one turn of one goroutine, so that what happens between two turns (the other
    manager, which shares the users, or the processes) can be interleaved with them. [round_turns] shows that every
    round of the loop is a sequence of these turns, and [turn_inv] that each turn keeps the invariant of the caches. *)

From S2P Require Import Prelude Messages Interfaces EngineUtils FixedQueue Users.
From S2P Require Import Process ProcessManager.

Module Turns.
Import ProcessManager.

#[local] Existing Instance Inv_perm.
#[local] Existing Instance all_perm.
#[local] Existing Instance quiet_preorder.

Section turns.
Context `{LI : LinkedHashMap string nat} `{LW : LinkedHashMap RequestGroupKey bool}.
Context `{!LinkedHashMapLaws string nat} `{!LinkedHashMapLaws RequestGroupKey bool}.

(** The five groups of goroutines that the handlers start. *)
Inductive phase := PCreate | PTake | PNew | PIdle | PClean.

Definition stepOf (e : Process.env) (ph : phase) : gor → M (World * Z) gor :=
  match ph with
  | PCreate => createStep e
  | PTake => takeStep e
  | PNew => newStep e
  | PIdle => idleStep e
  | PClean => cleanStep e
  end.

Definition kindOf (ph : phase) : gor → bool :=
  match ph with PCreate | PNew => createKind | PTake | PIdle => takeKind | PClean => cleanKind end.

(** The group that runs: which one, the variable its goroutines share, and the goroutines. *)
Record group := mkRun { g_phase : phase; g_var : Z; g_threads : list gor }.

Definition threads (r : option group) : list gor := match r with Some g => g_threads g | None => [] end.

Definition acts_ok (acts : list (nat * (Process.Process → Process.Process))) : Prop :=
  Forall (λ x, ∀ p, Process.kept p (x.2 p)) acts.

(** A turn. Signals are delivered and the request groups are known and take their responses ([good_env]). *)
Inductive turn : World * option group → World * option group → Prop :=
| turn_quiet w w' r :  (* messages sent, the waiting groups, the counters of the channels, the timer *)
    quiet w w' → turn (w, r) (w', r)
| turn_event w msg rest :  (* the loop takes a message that is not an exit *)
    pm_eventCh (w_pm w) = msg :: rest → (∀ m, msg ≠ AnySandboxExit m) →
    turn (w, None) (on_pm (λ s, set_chans rest (pm_allocateIdleCh s) (pm_allocateNewCh s) s) w, None)
| turn_exit e w m rest er w' :  (* it takes an exit and handles it *)
    good_env e → pm_eventCh (w_pm w) = AnySandboxExit m :: rest →
    handleSandboxExitMsg e m (on_pm (λ s, set_chans rest (pm_allocateIdleCh s) (pm_allocateNewCh s) s) w) = Ret (er, w') →
    turn (w, None) (w', None)
| turn_create w ph n ks acts :  (* a handler starts goroutines that create processes *)
    ph = PCreate ∨ ph = PNew → Z.of_nat (length ks) ≤ getAvailableProcessNum (w_pm w) → acts_ok acts →
    turn (w, None) (w, Some (mkRun ph n ((GCreate <$> ks) ++ [GProcess acts])))
| turn_take w ph n ks m l acts :  (* goroutines that take over idle processes *)
    ph = PTake ∨ ph = PIdle → peekIdleProcesses (w_pm w) m = Some l → acts_ok acts →
    turn (w, None) (w, Some (mkRun ph n (zip_with GTake ks l ++ [GProcess acts])))
| turn_clean w n m l acts :  (* goroutines that close idle processes *)
    peekIdleProcesses (w_pm w) m = Some l → acts_ok acts →
    turn (w, None) (w, Some (mkRun PClean n ((GClose <$> l) ++ [GProcess acts])))
| turn_step e w g i t t' w' n' :  (* a goroutine of the group moves *)
    good_env e → g_threads g !! i = Some t → gor_done t = false →
    stepOf e (g_phase g) t (w, g_var g) = Ret (t', (w', n')) →
    turn (w, Some g) (w', Some (mkRun (g_phase g) n' (<[i := t']> (g_threads g))))
| turn_join w g :  (* [wg.Wait()] returns *)
    Forall (λ t, gor_done t = true) (g_threads g) → turn (w, Some g) (w, None)
| turn_put m w r er w' :  (* a message for the manager, at any time *)
    (∀ x, m = AnySandboxExit x → reports x w) → PutMsg m w = Ret (er, w') → turn (w, r) (w', r)
| turn_change e name b w er w' :  (* a process asks for another state; this takes the manager's lock *)
    ChangeProcessState e name b w = Ret (er, w') → turn (w, None) (w', None)
| turn_process i p p' w r :  (* a process goes on, at any time *)
    w_heap w !! i = Some p → Process.kept p p' → turn (w, r) (set_heap (<[i := p']> (w_heap w)) w, r).

(** ** Every round of the loop is a sequence of turns *)

Lemma quiet_turns w w' r : quiet w w' → rtc turn (w, r) (w', r).
Proof. intros Hq. by apply rtc_once, turn_quiet. Qed.

(** A group run to its end, one goroutine's turn after the other. *)
Lemma group_turns e ph sched ts w n ts' w' n' :
  good_env e → run_group (stepOf e ph) gor_done sched ts (w, n) = Ret (ts', (w', n')) →
  rtc turn (w, Some (mkRun ph n ts)) (w', None).
Proof.
  intros He. revert ts w n. induction sched as [|i sched IH]; intros ts w n; cbn [run_group].
  - destruct (forallb gor_done ts) eqn:E; [|done]. intros [= <- <- <-]. apply rtc_once, turn_join.
    apply Forall_forall. intros t Ht%list_elem_of_In. rewrite forallb_forall in E. by apply E.
  - destruct (ts !! i) as [t|] eqn:Ht; [|by apply IH]. destruct (gor_done t) eqn:Ed; [by apply IH|].
    destruct (stepOf e ph t (w, n)) as [[t1 [w1 n1]]| |] eqn:Es; [|done|by apply IH].
    intros Hr. eapply rtc_l; [|by eapply IH]. by apply (turn_step e w (mkRun ph n ts) i t t1 w1 n1).
Qed.

Lemma goroutines_turns e ph c ts n w n' w' :
  good_env e → goroutines (stepOf e ph) c ts n w = Ret (n', w') →
  rtc turn (w, Some (mkRun ph n (ts ++ [GProcess (c_acts c)]))) (w', None).
Proof.
  intros He. unfold goroutines. destruct (run_group _ _ _ _ _) as [[ts' [w1 n1]]| |] eqn:Hr; [|done..].
  intros [= <- <-]. by eapply group_turns.
Qed.

Lemma zip_replicate k l : zip_with GTake (replicate (length l) k) l = GTake k <$> l.
Proof. induction l as [|i l IH]; [done|]. cbn. by rewrite IH. Qed.

Lemma GCreate_replicate k n : replicate n (GCreate k) = GCreate <$> replicate n k.
Proof. by rewrite fmap_replicate. Qed.

Section rounds.
Context (e : Process.env) (He : good_env e).

Lemma request_turns c1 c2 msg w er w' :
  conc_ok c1 → conc_ok c2 → handleGetProcessReq e c1 c2 msg w = Ret (er, w') → rtc turn (w, None) (w', None).
Proof.
  intros Hc1 Hc2 Hr. unfold handleGetProcessReq in Hr. cbv zeta in Hr. case_match.
  { apply bind_Ret in Hr as (? & w1 & H1 & [= _ <-]). apply quiet_unwait in H1. by apply quiet_turns. }
  apply bind_Ret in Hr as (? & ? & [= <- <-] & Hr). apply bind_Ret in Hr as (need & w1 & H1 & Hr).
  apply bind_Ret in Hr as (? & ? & [= <- <-] & Hr). apply bind_Ret in Hr as (r & w2 & H2 & Hr).
  transitivity (w1, @None group); [|transitivity (w2, @None group)].
  - destruct (Z.ltb_spec 0 (getAvailableProcessNum (w_pm w))); [|by injection H1 as _ <-].
    rewrite Min_spec in H1. destruct (Z.ltb_spec (gp_ProcessNum msg `min` getAvailableProcessNum (w_pm w)) 0); [done|].
    rewrite GCreate_replicate in H1. eapply rtc_l; [|exact (goroutines_turns e PCreate _ _ _ _ _ _ He H1)].
    apply turn_create; [by left|rewrite length_replicate; lia|exact Hc1].
  - destruct (_ && _); [|by injection H2 as _ <-].
    destruct (peekIdleProcesses _ _) as [l|] eqn:Hp; [|by injection H2 as _ <-].
    apply bind_Ret in H2 as (? & w3 & H3 & [= _ <-]). rewrite <-zip_replicate in H3.
    eapply rtc_l; [|exact (goroutines_turns e PTake _ _ _ _ _ _ He H3)]. eapply turn_take; [by left|exact Hp|exact Hc2].
  - destruct r as [need'|]; [|by injection Hr as _ <-]. apply quiet_turns. case_match.
    + apply bind_Ret in Hr as (? & ? & [= <- <-] & Hr). case_match; [by injection Hr as _ <-|].
      by apply bind_Ret in Hr as (? & ? & [= _ <-] & [= _ <-]).
    + apply bind_Ret in Hr as (? & w3 & H3 & [= _ <-]). by apply quiet_ready in H3.
Qed.

Lemma clean_turns c w a w' :
  conc_ok c → handleCleanIdleProcesses e c w = Ret (a, w') → rtc turn (w, None) (w', None).
Proof.
  intros Hc Hr. unfold handleCleanIdleProcesses in Hr. cbv zeta in Hr.
  apply bind_Ret in Hr as (? & ? & [= <- <-] & Hr). case_match; [by injection Hr as _ <-|].
  apply bind_Ret in Hr as (l & w1 & H1 & Hr). destruct (peekIdleProcesses _ _) eqn:Hp; [|done]. injection H1 as <- <-.
  apply bind_Ret in Hr as (n & w1 & H1 & Hr). apply bind_Ret in Hr as (? & w2 & H2 & Hr).
  apply quiet_startTimer in Hr.
  assert (quiet w1 w2) as Hq by (case_match; [by eapply quiet_notifyNew|by injection H2 as _ <-]).
  transitivity (w1, @None group); [|apply quiet_turns; by etrans].
  eapply rtc_l; [|exact (goroutines_turns e PClean _ _ _ _ _ _ He H1)]. eapply turn_clean; [exact Hp|exact Hc].
Qed.

Lemma idle_turns c w a w' :
  conc_ok c → handleAllocateIdleProcesses e c w = Ret (a, w') → rtc turn (w, None) (w', None).
Proof.
  intros Hc Hr. unfold handleAllocateIdleProcesses in Hr. cbv zeta in Hr.
  apply bind_Ret in Hr as (? & ? & [= <- <-] & Hr). case_match; [by injection Hr as _ <-|].
  apply bind_Ret in Hr as (l & w1 & H1 & Hr). destruct (peekIdleProcesses _ _) eqn:Hp; [|done]. injection H1 as <- <-.
  apply bind_Ret in Hr as (ks & w1 & H1 & Hr). destruct (peekWaitingRequestGroups _ _); [|done]. injection H1 as <- <-.
  apply bind_Ret in Hr as (n & w1 & H1 & [= _ <-]).
  eapply rtc_l; [|exact (goroutines_turns e PIdle _ _ _ _ _ _ He H1)]. eapply turn_take; [by right|exact Hp|exact Hc].
Qed.

Lemma new_turns c w a w' :
  conc_ok c → handleAllocateNewProcesses e c w = Ret (a, w') → rtc turn (w, None) (w', None).
Proof.
  intros Hc Hr. unfold handleAllocateNewProcesses in Hr. cbv zeta in Hr.
  apply bind_Ret in Hr as (? & ? & [= <- <-] & Hr). case_match; [by injection Hr as _ <-|].
  case_match eqn:Hneg; [done|]. apply Z.ltb_ge in Hneg. apply bind_Ret in Hr as (ks & w1 & H1 & Hr).
  destruct (peekWaitingRequestGroups _ _) as [l|] eqn:Hp; [|done]. injection H1 as <- <-.
  apply bind_Ret in Hr as (n & w1 & H1 & [= _ <-]).
  eapply rtc_l; [|exact (goroutines_turns e PNew _ _ _ _ _ _ He H1)]. apply turn_create; [by right| |exact Hc].
  unfold peekWaitingRequestGroups in Hp. case_match; [done|]. injection Hp as <-. rewrite Min_spec in *. rewrite length_take. lia.
Qed.

(** Every round of the manager's loop, whatever channel it takes and however its goroutines are scheduled, is a sequence
    of turns: what holds after every turn holds at every moment of a round. *)
Theorem round_turns sel c1 c2 w w' :
  conc_ok c1 → conc_ok c2 → loopStep e sel c1 c2 w = Ret (tt, w') → rtc turn (w, None) (w', None).
Proof.
  intros Hc1 Hc2 Hr. unfold loopStep in Hr. apply bind_Ret in Hr as (? & ? & [= <- <-] & Hr). destruct sel.
  - destruct (pm_eventCh (w_pm w)) as [|msg rest] eqn:Ev; [done|].
    apply bind_Ret in Hr as (? & ? & [= _ <-] & Hr). assert ((∃ m, msg = AnySandboxExit m) ∨ ∀ m, msg ≠ AnySandboxExit m) as [[m ->]|Hne] by (destruct msg; eauto).
    + apply bind_Ret in Hr as (er & w2 & H2 & [= <-]). apply rtc_once. by eapply turn_exit.
    + eapply rtc_l; [eapply turn_event; [exact Ev|exact Hne]|].
      destruct msg as [|m| |m| | | |]; try (by injection Hr as <-); [|by destruct (Hne m)].
      apply bind_Ret in Hr as (er & w2 & H2 & [= <-]). by eapply (request_turns c1 c2).
  - destruct (pm_timerC (w_pm w)); [|done]. apply bind_Ret in Hr as (? & w1 & [= _ <-] & Hr).
    etrans; [|eapply clean_turns; [exact Hc1|exact Hr]]. by apply quiet_turns.
  - destruct (pm_allocateIdleCh (w_pm w)) as [|n]; [done|]. apply bind_Ret in Hr as (? & ? & [= _ <-] & Hr).
    apply bind_Ret in Hr as (er & w2 & H2 & [= <-]). etrans; [|eapply idle_turns; [exact Hc1|exact H2]]. by apply quiet_turns.
  - destruct (pm_allocateNewCh (w_pm w)) as [|n]; [done|]. apply bind_Ret in Hr as (? & ? & [= _ <-] & Hr).
    apply bind_Ret in Hr as (er & w2 & H2 & [= <-]). etrans; [|eapply new_turns; [exact Hc1|exact H2]]. by apply quiet_turns.
Qed.
End rounds.

(** ** The invariant *)

Context (N : Z).

Definition turnInv (U : list Users.User) (B : Z) (s : World * option group) : Prop :=
  Inv N U B (exits (w_pm s.1)) (threads s.2) s.1 ∧
  match s.2 with Some g => Forall (λ t, kindOf (g_phase g) t = true) (g_threads g) | None => True end.

Lemma stepOf_ok e ph : good_env e → step_ok N (kindOf ph) (stepOf e ph).
Proof.
  intros He. destruct ph; [apply createStep_ok|by apply takeStep_ok|by apply newStep_ok|by apply idleStep_ok|apply cleanStep_ok].
Qed.

(** Goroutines with those that stand for the processes. *)
Lemma start_acts U B X acts ts w : acts_ok acts → Inv N U B X ts w → Inv N U B X (ts ++ [GProcess acts]) w.
Proof. intros Ha HI. rewrite Permutation_app_comm. by apply Inv_acts. Qed.

Lemma kind_acts ph ts acts :
  Forall (λ t, kindOf ph t = true) ts → Forall (λ t, kindOf ph t = true) (ts ++ [GProcess acts]).
Proof. intros Hts. apply Forall_app. split; [done|]. repeat constructor. by destruct ph. Qed.

(** A message put while goroutines run. *)
Lemma put_inv U B X ts w m er w' : (∀ x, m = AnySandboxExit x → reports x w) →
  Inv N U B X ts w → PutMsg m w = Ret (er, w') → Inv N U B (exits (w_pm w')) ts w'.
Proof.
  intros Hm HI Hr. pose proof HI as [idf []].
  assert (∀ m, (∀ x, m = AnySandboxExit x → reports x w) →
    let w1 := on_pm (λ s, set_chans (pm_eventCh s ++ [m]) (pm_allocateIdleCh s) (pm_allocateNewCh s) s) w in
    Inv N U B (exits (w_pm w1)) ts w1) as Hput; cycle 1.
  { destruct m as [| | | | | | |]; try (injection Hr as _ <-; by rewrite i_queue0);
      apply bind_Ret in Hr as (? & ? & [= <- <-] & Hr); cbv zeta in Hr; destruct (_ <=? _); try done;
      apply bind_Ret in Hr as (? & ? & [= _ <-] & [= _ <-]); by apply Hput. }
  clear m Hm Hr. intros m Hm w1.
  assert (∀ name gk, (name, gk) ∈ exits (w_pm w1) → (name, gk) ∈ X ∨
    ∃ i p, getProcessByName (w_pm w) name = Some i ∧ w_heap w !! i = Some p ∧ okey (identOf p) = gk ∧
      id_process (identOf p) = name) as Hx.
  { intros name gk. unfold exits. cbn [w1 on_pm w_pm pm_eventCh set_chans]. rewrite omap_app, elem_of_app, <-i_queue0.
    intros [Hin|Hin]; [by left|]. destruct m as [| | |x| | | |]; cbn in Hin; try by apply elem_of_nil in Hin.
    apply list_elem_of_singleton in Hin as [= -> ->]. right. destruct (Hm x eq_refl) as (i & p & ? & ? & Hid).
    exists i, p. by rewrite Hid. }
  exists idf. split; try done.
  - eapply pmwf_core, i_wf0. done.
  - intros name Hn. destruct (i_fresh0 name Hn) as (Hc & Hi & HX). split_and!; [done..|].
    intros ([n gk] & -> & [Hin|(i & p & Hp & _)]%Hx)%list_elem_of_fmap; [|by cbn in *; congruence].
    apply HX. apply list_elem_of_fmap. by exists (n, gk).
  - intros name gk [Hin|(i & p & Hi & Hp & Hk & Hn)]%Hx; [by apply i_exits0|].
    split; [by apply (wf_issued _ _ i_wf0 _ _ Hi)|]. intros j o Hj Ho.
    change (getProcessByName (w_pm w) name = Some j) in Hj. rewrite Hi in Hj. injection Hj as <-.
    rewrite i_idf0, Hp in Ho; [by injection Ho as <-|]. intros Hcm.
    destruct (committing_name _ _ _ _ i_ok0 Hcm) as (k & nm & E & Hpd). rewrite Hp in E. injection E as _ _ _ E.
    cbn in Hn. rewrite E in Hn. subst nm. destruct (i_fresh0 name Hpd) as [? _]. congruence.
Qed.

Lemma turn_inv U B s s' : 0 ≤ N → B + N < u64_max → turn s s' → turnInv U B s → turnInv U (B + N) s'.
Proof.
  intros HN HB Hs [HI Hk].
  assert (∀ s, turnInv U B s → turnInv U (B + N) s) as Hb.
  { intros s1 [H1 H2]. split; [|done]. by apply (Inv_budget _ _ B); [lia|]. }
  destruct Hs as [w w' r Hq|w msg rest Ev Hm|e w m rest er w' He Ev Hr|w ph n ks acts Hph Hlen Ha|w ph n ks m l acts Hph Hp Ha
    |w n m l acts Hp Ha|e w g i t t' w' n' He Ht Hd Hr|w g Hd|m w r er w' Hm Hr|e name b w er w' Hr|i p p' w r Hi Hkp];
    cbn [fst snd threads] in *.
  - apply Hb. split; [|done]. cbn [fst snd]. pose proof Hq as (_ & _ & _ & Ev). unfold exits. rewrite Ev.
    by eapply Inv_quiet.
  - apply Hb. split; [|done]. cbn [fst snd threads]. eapply Inv_chans; [exact HI|done|].
    intros name gk Hin. left. unfold exits in *. cbn in Hin. rewrite Ev. destruct msg; try exact Hin. by destruct (Hm m).
  - apply Hb. split; [|done]. cbn [fst snd threads].
    assert (Inv N U B (exits (w_pm (on_pm (λ s, set_chans rest (pm_allocateIdleCh s) (pm_allocateNewCh s) s) w))) []
      (on_pm (λ s, set_chans rest (pm_allocateIdleCh s) (pm_allocateNewCh s) s) w)) as HI1.
    { eapply Inv_chans; [exact HI|done|]. intros name gk Hin. left. unfold exits in *. cbn in Hin. rewrite Ev. by right. }
    eapply Inv_Wf, handleSandboxExit_inv; [exact HI1|exact Hr|]. intros i p Hi Hp. pose proof HI as [idf []].
    destruct (i_exits0 (se_ProcessName m)
      (contractKey (se_ChainID m) (se_ContractName m) (se_ContractVersion m))) as [_ Hx]; [unfold exits; rewrite Ev; by left|].
    symmetry. apply (Hx i); [done|]. rewrite i_idf0 by apply not_elem_of_nil.
    change (w_heap w !! i = Some p) in Hp. by rewrite Hp.
  - split; cbn [fst snd threads g_threads g_phase].
    + apply start_acts; [done|]. apply creating_start; [|by rewrite length_fmap|done..].
      apply Forall_fmap_all. by eexists.
    + apply kind_acts, Forall_fmap_all. by destruct Hph as [->| ->].
  - split; cbn [fst snd threads g_threads g_phase].
    + apply start_acts; [done|]. eapply taking_start; [| | | |exact Hp|done..].
      * by apply Forall_zip_GTake.
      * apply all_growing_zip.
      * apply all_taken_zip.
      * rewrite length_zip_with. lia.
    + apply kind_acts, Forall_zip_GTake. by destruct Hph as [->| ->].
  - split; cbn [fst snd threads g_threads g_phase].
    + apply start_acts; [done|]. eapply taking_start; [| | | |exact Hp|done..].
      * by apply Forall_fmap_all.
      * apply all_growing_GClose.
      * by rewrite all_taken_GClose.
      * by rewrite length_fmap.
    + by apply kind_acts, Forall_fmap_all.
  - apply Hb. rewrite (delete_Permutation _ _ _ Ht) in HI. rewrite Forall_lookup in Hk.
    destruct (stepOf_ok e (g_phase g) He U B (exits (w_pm w)) t (delete i (g_threads g)) w (g_var g) t' w' n') as [HI' Hk']; [eauto..|].
    split; cbn [fst snd threads g_threads g_phase]; [|apply Forall_insert; [by apply Forall_lookup|done]].
    rewrite (insert_Permutation _ _ _ _ Ht). pose proof HI' as [idf []]. by rewrite i_queue0.
  - apply Hb. split; [|done]. cbn [fst snd threads]. clear Hk. induction Hd as [|t ts Ht _ IH]; [done|]. apply IH. by apply Inv_done in HI.
  - apply Hb. split; [|done]. by eapply put_inv.
  - apply Hb. split; [|done]. eapply Inv_Wf, ChangeProcessState_inv, Hr. exact HI.
  - apply Hb. split; [|done]. by apply (Inv_kept _ _ _ _ _ _ _ p).
Qed.
End turns.
End Turns.
