(* ===== verification/Engine.v ===== *)
(** * vm_mgr/module/manager.go: the engine put together

    The engine creates one user manager, a contract manager, two process managers that share
    the users (one for original calls, one for the cross calls of each depth), and a request
    scheduler that all of them know. Here are the components as the implementations of the
    interfaces their clients were verified against, and the two process managers running side
    by side on the same users, round by round ([engineStep]) and one goroutine's turn at a time ([engineTurn]). *)

From S2P Require Import Prelude Messages Interfaces EngineUtils FixedQueue Users.
From S2P Require Import ContractManager RequestScheduler Process ProcessManager Turns.

Module Engine.
Import ProcessManager.

(** ** The components behind the interfaces *)

(** What [PutMsg] of a process manager answers. *)
Definition pmPutErr (msg : AnyMsg) : option gerr :=
  match msg with
  | AnyGetProcessReq _ | AnySandboxExit _ => None
  | _ => Some (Err "unknown msg type")
  end.

Definition cmPutErr (msg : AnyMsg) : option gerr :=
  match msg with
  | AnyDockerVM _ | AnyBadContract _ => None
  | _ => Some (Err "unknown msg type")
  end.

(** What [PutMsg] of the chain RPC service answers ([EngineServices.chainPutMsg_err]). *)
Definition chainPutErr (msg : AnyMsg) : option gerr :=
  match msg with AnyDockerVM _ => None | _ => Some (Err "unknown msg type") end.

Section interfaces.
Context `{LI : LinkedHashMap string nat} `{LW : LinkedHashMap RequestGroupKey bool}.

Definition processManager (w : World) : ProcessManagerI := {|
  pm_PutMsg := pmPutErr;
  pm_GetProcessNumByContractKey c n v := GetProcessNumByContractKey c n v w;
  pm_GetReadyOrBusyProcessNum c n v := GetReadyOrBusyProcessNum c n v w;
|}.

#[export] Instance processManager_laws w : ProcessManagerLaws (P := processManager w).
Proof. by split. Qed.

Lemma processManager_PutMsg msg w er w' : PutMsg msg w = Ret (er, w') → er = pmPutErr msg.
Proof.
  unfold PutMsg, pmPutErr. destruct msg; intros Hr; try (by injection Hr as <- _);
    apply bind_Ret in Hr as (? & ? & [= <- <-] & Hr); cbv zeta in Hr; destruct (_ <=? _); try done;
    by apply bind_Ret in Hr as (? & ? & _ & [= <- _]).
Qed.
End interfaces.

Definition contractManager : ContractManagerI := {| cmgr_PutMsg := cmPutErr |}.

#[export] Instance contractManager_laws : ContractManagerLaws (C := contractManager).
Proof. by split. Qed.

Lemma contractManager_PutMsg msg cm er cm' : ContractManager.PutMsg msg cm = Ret (er, cm') → er = cmPutErr msg.
Proof.
  unfold ContractManager.PutMsg, cmPutErr. destruct msg; intros Hr; try (by injection Hr as <- _);
    apply bind_Ret in Hr as (? & ? & [= <- <-] & Hr); destruct (_ <? _)%nat; try done;
    by apply bind_Ret in Hr as (? & ? & _ & [= <- _]).
Qed.

(** ** Two managers on the same users *)

Section engine.
Context `{LI : LinkedHashMap string nat} `{LW : LinkedHashMap RequestGroupKey bool}.
Context `{!LinkedHashMapLaws string nat} `{!LinkedHashMapLaws RequestGroupKey bool}.
Context `{ProtocolConsts} `{!ProtocolConstsOk}.

(** [config.DockerVMConfig.Process.MaxOriginalProcessNum] and [GetReleaseRate()]. *)
Context (MaxOriginalProcessNum : Z) (releaseRate : Z → Z).

Definition maxCrossProcessNum : Z := MaxOriginalProcessNum * CallContractDepth.

(** The process managers of [NewManager] with their processes, and the users they share. *)
Record ManagerImpl := mkManager {
  origProcessManager : ProcessManager;
  origProcesses : list Process.Process;
  crossProcessManager : ProcessManager;
  crossProcesses : list Process.Process;
  usersManager : Users.UserManager;
}.

(** [NewManager]: the managers with their scheduler, over users [um]. *)
Definition NewManager (um : Users.UserManager) : ManagerImpl :=
  mkManager (SetScheduler (NewProcessManager MaxOriginalProcessNum releaseRate true)) []
            (SetScheduler (NewProcessManager maxCrossProcessNum releaseRate false)) [] um.

Definition origWorld (m : ManagerImpl) : World := mkW (origProcessManager m) (usersManager m) (origProcesses m).
Definition crossWorld (m : ManagerImpl) : World := mkW (crossProcessManager m) (usersManager m) (crossProcesses m).

(** Either manager, or something around it, moves. *)
Inductive engineStep : ManagerImpl → ManagerImpl → Prop :=
| engine_orig m w : pmstep (origWorld m) w →
    engineStep m (mkManager (w_pm w) (w_heap w) (crossProcessManager m) (crossProcesses m) (w_users w))
| engine_cross m w : pmstep (crossWorld m) w →
    engineStep m (mkManager (origProcessManager m) (origProcesses m) (w_pm w) (w_heap w) (w_users w)).

Definition inUse (w : World) : list Users.User := usersOf (w_heap w) (cachedPtrs (w_pm w)).

(** The invariant of one manager is about its own users and the free ones; the free ones may
    change under it. *)
Lemma Wf_users N U B w um :
  Wf N U B w → FixedQueue.q_waiting (Users.userQueue um) = [] →
  let w' := mkW (w_pm w) um (w_heap w) in Wf N (freeUsers w' ++ inUse w') B w'.
Proof.
  intros [idf []] Hw w'. exists idf. split; try done. unfold inUse, all. cbn. by rewrite app_nil_r.
Qed.

Lemma Wf_split N U B w : Wf N U B w → freeUsers w ++ inUse w ≡ₚ U ∧
  FixedQueue.q_waiting (Users.userQueue (w_users w)) = [] ∧
  Z.of_nat (length (inUse w)) = N - getAvailableProcessNum (w_pm w).
Proof.
  intros HI. pose proof HI as [idf HI']. pose proof HI' as []. split_and!.
  - by rewrite app_nil_r in i_users0.
  - done.
  - rewrite <-i_max0, <-cachedPtrs_length. unfold inUse. by rewrite (inUse_length _ _ _ _ _ _ _ HI').
Qed.

Definition engineInv (All : list Users.User) (k : nat) (m : ManagerImpl) : Prop :=
  Wf MaxOriginalProcessNum (freeUsers (origWorld m) ++ inUse (origWorld m))
     (Z.of_nat k * (2 * MaxOriginalProcessNum)) (origWorld m) ∧
  Wf maxCrossProcessNum (freeUsers (crossWorld m) ++ inUse (crossWorld m))
     (Z.of_nat k * (2 * maxCrossProcessNum)) (crossWorld m) ∧
  freeUsers (origWorld m) ++ inUse (origWorld m) ++ inUse (crossWorld m) ≡ₚ All.

(** One manager's step, seen from both sides. *)
Lemma side_step N1 N2 k U1 U2 w1 w1' pm2 heap2 All :
  0 ≤ N1 → 0 ≤ N2 → Z.of_nat (S k) * (2 * N1) < u64_max → Z.of_nat (S k) * (2 * N2) < u64_max →
  Wf N1 U1 (Z.of_nat k * (2 * N1)) w1 → Wf N2 U2 (Z.of_nat k * (2 * N2)) (mkW pm2 (w_users w1) heap2) →
  freeUsers w1 ++ inUse w1 ++ inUse (mkW pm2 (w_users w1) heap2) ≡ₚ All → pmstep w1 w1' →
  let w2' := mkW pm2 (w_users w1') heap2 in
  Wf N1 (freeUsers w1' ++ inUse w1') (Z.of_nat (S k) * (2 * N1)) w1' ∧
  Wf N2 (freeUsers w2' ++ inUse w2') (Z.of_nat (S k) * (2 * N2)) w2' ∧
  freeUsers w1' ++ inUse w1' ++ inUse w2' ≡ₚ All.
Proof.
  intros HN1 HN2 HB1 HB2 H1 H2 HA Hs w2'.
  replace (Z.of_nat (S k) * (2 * N1)) with (Z.of_nat k * (2 * N1) + 2 * N1) in * by lia.
  pose proof (pmstep_inv N1 _ _ _ _ HN1 HB1 Hs H1) as H1'.
  destruct (Wf_split _ _ _ _ H1) as (E1 & _ & _). destruct (Wf_split _ _ _ _ H1') as (E1' & Hw & _). split_and!.
  - apply (Wf_users _ _ _ _ (w_users w1')) in H1'; [|done]. by destruct w1'.
  - apply (Inv_budget _ _ (Z.of_nat k * (2 * N2))); [lia|]. by apply (Wf_users _ _ _ _ (w_users w1')) in H2.
  - rewrite <-HA, !app_assoc, E1, E1'. done.
Qed.

Lemma engineInv_step All k m m' :
  0 ≤ MaxOriginalProcessNum → Z.of_nat (S k) * (2 * MaxOriginalProcessNum) < u64_max →
  Z.of_nat (S k) * (2 * maxCrossProcessNum) < u64_max →
  engineStep m m' → engineInv All k m → engineInv All (S k) m'.
Proof.
  intros HN HB1 HB2 Hs (H1 & H2 & HA). pose proof depth_nonneg as Hd.
  assert (0 ≤ maxCrossProcessNum) as Hmc by (unfold maxCrossProcessNum; nia).
  destruct Hs as [m w Hs|m w Hs].
  - destruct (side_step _ _ k _ _ _ w _ _ All HN Hmc HB1 HB2 H1 H2 HA Hs) as (H1' & H2' & HA').
    unfold engineInv, origWorld, crossWorld; cbn. destruct w. done.
  - rewrite (Permutation_app_comm (inUse (origWorld m))) in HA.
    destruct (side_step _ _ k _ _ _ w (origProcessManager m) (origProcesses m) All Hmc HN HB2 HB1 H2 H1 HA Hs)
      as (H1' & H2' & HA').
    unfold engineInv, origWorld, crossWorld in *; cbn in *. destruct w. split_and!; try done.
    by rewrite (Permutation_app_comm (inUse _)).
Qed.

Lemma engineInv_init um : 0 ≤ MaxOriginalProcessNum → FixedQueue.q_waiting (Users.userQueue um) = [] →
  engineInv (FixedQueue.q_queue (Users.userQueue um)) 0 (NewManager um).
Proof.
  intros HN Hw. pose proof depth_nonneg as Hd. assert (0 ≤ maxCrossProcessNum) as Hmc by (unfold maxCrossProcessNum; nia).
  pose proof (Wf_initial MaxOriginalProcessNum releaseRate true um HN Hw) as HW1.
  pose proof (Wf_initial maxCrossProcessNum releaseRate false um Hmc Hw) as HW2. split_and!.
  - by apply (Wf_users _ _ _ _ um) in HW1.
  - by apply (Wf_users _ _ _ _ um) in HW2.
  - unfold freeUsers, inUse, cachedPtrs. cbn. rewrite lhm_list_new, map_to_list_empty. cbn. by rewrite app_nil_r.
Qed.

Lemma engine_reachable_inv um k m :
  0 ≤ MaxOriginalProcessNum → FixedQueue.q_waiting (Users.userQueue um) = [] →
  Z.of_nat k * (2 * MaxOriginalProcessNum) < u64_max → Z.of_nat k * (2 * maxCrossProcessNum) < u64_max →
  nsteps engineStep k (NewManager um) m → engineInv (FixedQueue.q_queue (Users.userQueue um)) k m.
Proof.
  intros HN Hw. pose proof depth_nonneg as Hd. assert (0 ≤ maxCrossProcessNum) as Hmc by (unfold maxCrossProcessNum; nia).
  revert m. induction k as [|k IH]; intros m HB1 HB2 Hs.
  - inversion Hs; subst. by apply engineInv_init.
  - apply nsteps_inv_r in Hs as (m1 & Hs & Hstep). eapply engineInv_step; [done..|]. apply IH; [lia|lia|done].
Qed.

(** ** One turn at a time *)

(** The managers, with the goroutines that each has running. *)
Record EngineRun := mkEngineRun {
  er_manager : ManagerImpl;
  er_orig : option Turns.group;
  er_cross : option Turns.group;
}.

(** A turn of either manager. *)
Inductive engineTurn : EngineRun → EngineRun → Prop :=
| et_orig m ro rc w r' : Turns.turn (origWorld m, ro) (w, r') →
    engineTurn (mkEngineRun m ro rc)
      (mkEngineRun (mkManager (w_pm w) (w_heap w) (crossProcessManager m) (crossProcesses m) (w_users w)) r' rc)
| et_cross m ro rc w r' : Turns.turn (crossWorld m, rc) (w, r') →
    engineTurn (mkEngineRun m ro rc)
      (mkEngineRun (mkManager (origProcessManager m) (origProcesses m) (w_pm w) (w_heap w) (w_users w)) ro r').

(** The processes a manager keeps, or has created and not yet registered, and their users. *)
Definition live (w : World) (r : option Turns.group) : list nat := cachedPtrs (w_pm w) ++ all fresh (Turns.threads r).
Definition held (w : World) (r : option Turns.group) : list Users.User := usersOf (w_heap w) (live w r).

Definition origHeld (s : EngineRun) : list Users.User := held (origWorld (er_manager s)) (er_orig s).
Definition crossHeld (s : EngineRun) : list Users.User := held (crossWorld (er_manager s)) (er_cross s).
Definition free (s : EngineRun) : list Users.User := freeUsers (origWorld (er_manager s)).

(** The users of one manager and the free ones; the free ones may change under it. *)
Lemma turnInv_users N U B w r um :
  Turns.turnInv N U B (w, r) → FixedQueue.q_waiting (Users.userQueue um) = [] →
  let w' := mkW (w_pm w) um (w_heap w) in Turns.turnInv N (freeUsers w' ++ held w' r) B (w', r).
Proof. intros [[idf []] Hk] Hw w'. split; [|done]. exists idf. by split. Qed.

Lemma turnInv_split N U B w r : Turns.turnInv N U B (w, r) → freeUsers w ++ held w r ≡ₚ U ∧
  FixedQueue.q_waiting (Users.userQueue (w_users w)) = [] ∧ length (held w r) = length (live w r).
Proof.
  intros [[idf HI] _]. pose proof HI as []. split_and!; [done|done|]. unfold held, usersOf.
  assert (Forall (λ i, is_Some (w_heap w !! i)) (live w r)) as Hv.
  { apply Forall_app. split; [|by eapply fresh_valid]. apply (cached_Forall N U B (exits (w_pm w)) (Turns.threads r)). by exists idf. }
  clear -Hv. induction Hv as [|i l [p Hp] _ IH]; cbn; [done|]. rewrite Hp. cbn. by rewrite IH.
Qed.

Definition runInv (All : list Users.User) (k : nat) (s : EngineRun) : Prop :=
  Turns.turnInv MaxOriginalProcessNum (free s ++ origHeld s) (Z.of_nat k * MaxOriginalProcessNum)
    (origWorld (er_manager s), er_orig s) ∧
  Turns.turnInv maxCrossProcessNum (free s ++ crossHeld s) (Z.of_nat k * maxCrossProcessNum)
    (crossWorld (er_manager s), er_cross s) ∧
  free s ++ origHeld s ++ crossHeld s ≡ₚ All.

(** One manager's turn, seen from both sides. *)
Lemma side_turn N1 N2 k U1 U2 w1 r1 w1' r1' pm2 heap2 r2 All :
  0 ≤ N1 → 0 ≤ N2 → Z.of_nat (S k) * N1 < u64_max → Z.of_nat (S k) * N2 < u64_max →
  Turns.turnInv N1 U1 (Z.of_nat k * N1) (w1, r1) → Turns.turnInv N2 U2 (Z.of_nat k * N2) (mkW pm2 (w_users w1) heap2, r2) →
  freeUsers w1 ++ held w1 r1 ++ held (mkW pm2 (w_users w1) heap2) r2 ≡ₚ All → Turns.turn (w1, r1) (w1', r1') →
  let w2' := mkW pm2 (w_users w1') heap2 in
  Turns.turnInv N1 (freeUsers w1' ++ held w1' r1') (Z.of_nat (S k) * N1) (w1', r1') ∧
  Turns.turnInv N2 (freeUsers w2' ++ held w2' r2) (Z.of_nat (S k) * N2) (w2', r2) ∧
  freeUsers w1' ++ held w1' r1' ++ held w2' r2 ≡ₚ All.
Proof.
  intros HN1 HN2 HB1 HB2 H1 H2 HA Hs w2'.
  replace (Z.of_nat (S k) * N1) with (Z.of_nat k * N1 + N1) in * by lia.
  pose proof (Turns.turn_inv N1 _ _ _ _ HN1 HB1 Hs H1) as H1'.
  destruct (turnInv_split _ _ _ _ _ H1) as (E1 & _ & _). destruct (turnInv_split _ _ _ _ _ H1') as (E1' & Hw & _). split_and!.
  - apply (turnInv_users _ _ _ _ _ (w_users w1')) in H1'; [|done]. by destruct w1'.
  - apply (turnInv_users _ _ _ _ _ (w_users w1')) in H2 as [HI Hk]; [|done]. split; [|done].
    apply (Inv_budget _ _ (Z.of_nat k * N2)); [lia|]. exact HI.
  - rewrite <-HA, !app_assoc, E1, E1'. done.
Qed.

Lemma maxCross_nonneg : 0 ≤ MaxOriginalProcessNum → 0 ≤ maxCrossProcessNum.
Proof. pose proof depth_nonneg. unfold maxCrossProcessNum. nia. Qed.

Lemma runInv_turn All k s s' :
  0 ≤ MaxOriginalProcessNum → Z.of_nat (S k) * MaxOriginalProcessNum < u64_max →
  Z.of_nat (S k) * maxCrossProcessNum < u64_max → engineTurn s s' → runInv All k s → runInv All (S k) s'.
Proof.
  intros HN HB1 HB2 Hs (H1 & H2 & HA). pose proof (maxCross_nonneg HN) as Hmc. destruct Hs as [m ro rc w r' Hs|m ro rc w r' Hs].
  - destruct (side_turn _ _ k _ _ _ _ w r' _ _ rc All HN Hmc HB1 HB2 H1 H2 HA Hs) as (H1' & H2' & HA').
    unfold runInv, free, origHeld, crossHeld, origWorld, crossWorld; cbn. destruct w. done.
  - unfold free, origHeld, crossHeld in *. cbn [er_manager er_orig er_cross] in *. rewrite (Permutation_app_comm (held (origWorld m) ro)) in HA.
    destruct (side_turn _ _ k _ _ _ _ w r' (origProcessManager m) (origProcesses m) ro All Hmc HN HB2 HB1 H2 H1 HA Hs)
      as (H1' & H2' & HA').
    unfold runInv, free, origHeld, crossHeld, origWorld, crossWorld in *; cbn in *. destruct w. split_and!; try done.
    by rewrite (Permutation_app_comm (held _ ro)).
Qed.

Definition startRun (um : Users.UserManager) : EngineRun := mkEngineRun (NewManager um) None None.

Lemma runInv_init um : 0 ≤ MaxOriginalProcessNum → FixedQueue.q_waiting (Users.userQueue um) = [] →
  runInv (FixedQueue.q_queue (Users.userQueue um)) 0 (startRun um).
Proof.
  intros HN Hw. pose proof (maxCross_nonneg HN) as Hmc.
  pose proof (Wf_initial MaxOriginalProcessNum releaseRate true um HN Hw) as HW1.
  pose proof (Wf_initial maxCrossProcessNum releaseRate false um Hmc Hw) as HW2. split_and!.
  - by apply (turnInv_users _ _ _ _ None um (conj HW1 I)).
  - by apply (turnInv_users _ _ _ _ None um (conj HW2 I)).
  - unfold free, origHeld, crossHeld, held, live, freeUsers, cachedPtrs. cbn. rewrite lhm_list_new, map_to_list_empty. cbn.
    by rewrite app_nil_r.
Qed.

Lemma run_reachable_inv um k s :
  0 ≤ MaxOriginalProcessNum → FixedQueue.q_waiting (Users.userQueue um) = [] →
  Z.of_nat k * MaxOriginalProcessNum < u64_max → Z.of_nat k * maxCrossProcessNum < u64_max →
  nsteps engineTurn k (startRun um) s → runInv (FixedQueue.q_queue (Users.userQueue um)) k s.
Proof.
  intros HN Hw. pose proof (maxCross_nonneg HN) as Hmc. revert s. induction k as [|k IH]; intros s HB1 HB2 Hs.
  - inversion Hs; subst. by apply runInv_init.
  - apply nsteps_inv_r in Hs as (m1 & Hs & Hstep). eapply runInv_turn; [done..|]. apply IH; [lia|lia|done].
Qed.


(** The places among the processes that are not taken yet. *)
Definition creators (ts : list gor) : list unit :=
  all (λ t, match t with GCreate _ | GNamed _ _ => [tt] | _ => [] end) ts.

Lemma growing_split ts : length (all growing ts) = (length (all fresh ts) + length (creators ts))%nat.
Proof.
  unfold creators. induction ts as [|t ts IH]; [done|]. rewrite !(all_cons _ t). rewrite !length_app, IH.
  destruct t; cbn; lia.
Qed.

Lemma held_room N U B w r : Turns.turnInv N U B (w, r) →
  Z.of_nat (length (held w r)) + Z.of_nat (length (creators (Turns.threads r))) ≤ N.
Proof.
  intros HI. pose proof (turnInv_split _ _ _ _ _ HI) as (_ & _ & ->). destruct HI as [[idf []] _].
  rewrite growing_split in i_room0. cbn [fst snd] in i_room0. unfold live. rewrite length_app. lia.
Qed.

(** A goroutine that has its name creates its process when a user is free. *)
Lemma create_succeeds e N U B w r k name : good_env e → Turns.turnInv N U B (w, r) → freeUsers w ≠ [] →
  ∃ i w', create e k name w = Ret (inl i, w') ∧ ∃ u us p, freeUsers w = u :: us ∧ freeUsers w' = us ∧
    w_heap w' = w_heap w ++ [p] ∧ i = length (w_heap w) ∧ Process.p_user p = u.
Proof.
  intros He [[idf []] _] Hf. cbn [fst] in *. unfold create, createNewProcess, mbind, M_bind, getS. rewrite i_sched0. cbn [negb].
  unfold Users.GetAvailableUser, FixedQueue.DequeueAlone. unfold freeUsers in *.
  destruct (FixedQueue.q_queue _) as [|u us] eqn:Eq; [done|]. unfold Process.NewProcess. rewrite (ge_group _ He). cbn.
  eexists _, _. split; [reflexivity|]. eexists u, us, _. by split_and!.
Qed.

(** [C17] The users suffice for both process managers. When all the [MaxOriginalProcessNum * (CallContractDepth + 1)] users
    have been created before the first request for a process (the engine creates them while its servers already run), and
    under the conditions of [users_exclusive] (signals delivered, groups known, fewer than
    [2^64 / max] turns): at every moment no user is in two places among the free ones and the processes of both
    managers; any goroutine of either manager that is about to create its process gets a user at once, whatever the other
    manager's goroutines do, so that no handler waits for a user while it holds its manager's lock; and a manager with room
    and no handler running finds a free user. *)
Theorem engine_users_suffice um k s :
  0 ≤ MaxOriginalProcessNum → FixedQueue.q_waiting (Users.userQueue um) = [] →
  FixedQueue.q_queue (Users.userQueue um) ≡ₚ Users.NewUser <$> Users.uids MaxOriginalProcessNum →
  Z.of_nat k * MaxOriginalProcessNum < u64_max → Z.of_nat k * maxCrossProcessNum < u64_max →
  nsteps engineTurn k (startRun um) s →
  NoDup (free s ++ origHeld s ++ crossHeld s) ∧
  ∀ w r, (w, r) = (origWorld (er_manager s), er_orig s) ∨ (w, r) = (crossWorld (er_manager s), er_cross s) →
    (∀ e key name, good_env e → GNamed key name ∈ Turns.threads r →
       ∃ i w' u p, create e key name w = Ret (inl i, w') ∧ freeUsers w = u :: freeUsers w' ∧
         w_heap w' !! i = Some p ∧ Process.p_user p = u) ∧
    (r = None → 0 < getAvailableProcessNum (w_pm w) → freeUsers w ≠ []).
Proof.
  intros HN Hw HU HB1 HB2 Hs. destruct (run_reachable_inv _ _ _ HN Hw HB1 HB2 Hs) as (H1 & H2 & HA). rewrite HU in HA.
  assert (Z.of_nat (length (free s) + length (origHeld s) + length (crossHeld s))%nat
    = MaxOriginalProcessNum + maxCrossProcessNum) as Hlen.
  { pose proof (Permutation_length HA) as Hl. rewrite !length_app, length_fmap in Hl.
    rewrite <-Nat.add_assoc, Hl, Users.uids_length by (unfold Users.totalNum; pose proof depth_nonneg; nia).
    unfold Users.totalNum, maxCrossProcessNum. pose proof depth_nonneg. nia. }
  split.
  { rewrite HA. pose proof Users.NewUser_inj. apply (NoDup_fmap_2 Users.NewUser). unfold Users.uids.
    assert (Inj (=) (=) (λ i : Z, Users._baseUid + i)) by (intros x y; lia). apply NoDup_fmap_2, NoDup_seqZ. done. }
  pose proof (held_room _ _ _ _ _ H1) as R1. pose proof (held_room _ _ _ _ _ H2) as R2.
  fold (origHeld s) in R1. fold (crossHeld s) in R2.
  intros w r Hwr. assert (∃ N U B, Turns.turnInv N U B (w, r) ∧ freeUsers w = free s ∧
    (Z.of_nat (length (held w r)) < N → free s ≠ [])) as (N & U & B & HI & Ef & Hfree).
  { destruct Hwr as [[= -> ->]|[= -> ->]]; eexists _, _, _; (split_and!; [done|done|]); intros Hlt E; rewrite E in Hlen; cbn in Hlen;
      unfold origHeld, crossHeld in *; lia. }
  pose proof (held_room _ _ _ _ _ HI) as R. split.
  - intros e key name He Hin. destruct (create_succeeds e N U B w r key name He HI) as (i & w' & E & u & us & p & F1 & F2 & F3 & F4 & F5).
    + rewrite Ef. apply Hfree. assert (tt ∈ creators (Turns.threads r)) as Hc by (eapply elem_all; [exact Hin|by left]).
      destruct (creators (Turns.threads r)); [by apply elem_of_nil in Hc|]. cbn in R. lia.
    + subst i. exists (length (w_heap w)), w', u, p. split_and!; [done|by rewrite F1, F2|rewrite F3; by apply list_lookup_middle|done].
  - intros -> Hav. rewrite Ef. apply Hfree. destruct (turnInv_split _ _ _ _ _ HI) as (_ & _ & ->). destruct HI as [[idf []] _].
    unfold live, Turns.threads, all. cbn [fmap list_fmap concat]. rewrite app_nil_r, cachedPtrs_length. cbn [fst] in i_max0. lia.
Qed.
End engine.

(** *** Witness *)

(** One original process and one cross process, two users; the original manager creates its
    process. *)
Definition sampleEngine : ManagerImpl := NewManager (H := Users.sampleDepth) 1 (λ _, 0) (sampleUsers 2).

Definition e_asked : World :=
  Eval vm_compute in ret_world (PutMsg (AnyGetProcessReq (sampleReq "c1" "a" 1)) (origWorld sampleEngine)) (origWorld sampleEngine).
Definition e_created : World :=
  Eval vm_compute in ret_world (loopStep Process.sampleEnv SelEvent sampleConc sampleConc e_asked) e_asked.

Definition engineAt (w : World) : ManagerImpl :=
  mkManager (w_pm w) (w_heap w) (crossProcessManager sampleEngine) (crossProcesses sampleEngine) (w_users w).

Lemma sampleEngine_run : nsteps engineStep 2 sampleEngine (engineAt e_created).
Proof.
  apply (nsteps_l _ _ _ (engineAt e_asked)); [|apply nsteps_once].
  - apply (engine_orig sampleEngine e_asked). apply (pm_put (AnyGetProcessReq (sampleReq "c1" "a" 1)) _ None); [done|].
    vm_compute. reflexivity.
  - apply (engine_orig (engineAt e_asked) e_created).
    apply (pm_loop Process.sampleEnv SelEvent sampleConc sampleConc); [apply sampleEnv_good|constructor..|].
    vm_compute. reflexivity.
Qed.

Lemma sampleDepth_ok : @ProtocolConstsOk Users.sampleDepth.
Proof. split; cbn; lia. Qed.

(** The original manager has started a goroutine that creates a process and has its name; the other has not moved. *)
Definition r_named : World :=
  Eval vm_compute in ret_world (newName sampleKey (origWorld sampleEngine)) (origWorld sampleEngine).
Definition namedRun : EngineRun :=
  mkEngineRun (engineAt r_named) (Some (Turns.mkRun Turns.PCreate 1 [GNamed sampleKey "c1#o#a#v1#0#1"; GProcess []])) None.

Lemma namedRun_run : nsteps engineTurn 2 (startRun (H := Users.sampleDepth) 1 (λ _, 0) (sampleUsers 2)) namedRun.
Proof.
  apply (nsteps_l _ _ _ (mkEngineRun sampleEngine (Some (Turns.mkRun Turns.PCreate 1 [GCreate sampleKey; GProcess []])) None));
    [|apply nsteps_once].
  - apply (et_orig sampleEngine None None (origWorld sampleEngine)).
    apply (Turns.turn_create (origWorld sampleEngine) Turns.PCreate 1 [sampleKey] []); [by left|vm_compute; discriminate|constructor].
  - apply (et_orig sampleEngine _ None r_named).
    apply (Turns.turn_step Process.sampleEnv (origWorld sampleEngine) (Turns.mkRun Turns.PCreate 1 [GCreate sampleKey; GProcess []])
      0 (GCreate sampleKey)); [apply sampleEnv_good|reflexivity..|]. vm_compute. reflexivity.
Qed.


Lemma engine_users_suffice_witness :
  ∃ i w', create Process.sampleEnv sampleKey "c1#o#a#v1#0#1" (origWorld (er_manager namedRun)) = Ret (inl i, w').
Proof.
  destruct (engine_users_suffice (H := Users.sampleDepth) (H0 := sampleDepth_ok) 1 (λ _, 0) (sampleUsers 2) 2 namedRun)
    as [_ Hw]; [lia|reflexivity|reflexivity|vm_compute; reflexivity|vm_compute; reflexivity|apply namedRun_run|].
  destruct (Hw _ _ (or_introl eq_refl)) as [Hc _].
  destruct (Hc Process.sampleEnv sampleKey "c1#o#a#v1#0#1" sampleEnv_good) as (i & w' & u & p & E & _); [by left|].
  exists i, w'. exact E.
Defined.
End Engine.
