(* ===== verification/Flow.v ===== *)
(** * A transaction on its way through the engine

    The scheduler, the request groups and the processes of vm_mgr/module/core running together: a
    transaction is routed to its group, waits there for the contract, is taken by a process and sent on
    the stream of the sandbox. The processes are handed over between contracts on the way, their
    listeners wait on channels of contracts they no longer serve, and sandboxes die at any time. *)

From S2P Require Import Prelude Messages Interfaces EngineUtils Users RequestGroup RequestScheduler Process.

Module Flow.
Import RequestScheduler.

(** ** What a group holds *)

Section group.
Context `{ProtocolConsts} (P : DockerVMMessage → Prop).

(** The transactions that have reached the loop of a group. *)
Definition held (g : RequestGroup.RequestGroup) : list DockerVMMessage :=
  RequestGroup.r_bufCh g ++ (tp_Tx <$> RequestGroup.c_txCh (RequestGroup.r_orig g)) ++
  (tp_Tx <$> RequestGroup.c_txCh (RequestGroup.r_cross g)).

Definition own (g : RequestGroup.RequestGroup) : Prop := Forall P (held g).

Definition sameHeld (g g' : RequestGroup.RequestGroup) : Prop :=
  RequestGroup.r_bufCh g' = RequestGroup.r_bufCh g ∧
  RequestGroup.c_txCh (RequestGroup.r_orig g') = RequestGroup.c_txCh (RequestGroup.r_orig g) ∧
  RequestGroup.c_txCh (RequestGroup.r_cross g') = RequestGroup.c_txCh (RequestGroup.r_cross g).

#[local] Instance sameHeld_preorder : PreOrder sameHeld.
Proof. split; [done|]. unfold sameHeld. intros g1 g2 g3. naive_solver congruence. Qed.

Lemma sameHeld_own g g' : sameHeld g g' → own g → own g'.
Proof. unfold own, held. by intros (-> & -> & ->). Qed.

Ltac held_tac := preserves_tac ltac:(first [done|by case_match|by split_and!]).

Lemma held_update b w : preserves sameHeld (RequestGroup.updateControllerState b w).
Proof. unfold RequestGroup.updateControllerState. apply preserves_modify. intros g. by destruct b. Qed.
Lemma held_getProcesses e b : preserves sameHeld (RequestGroup.getProcesses e b).
Proof. unfold RequestGroup.getProcesses. held_tac; apply held_update. Qed.
Lemma held_sendGetContractReq e req : preserves sameHeld (RequestGroup.sendGetContractReq e req).
Proof. unfold RequestGroup.sendGetContractReq. held_tac. Qed.
Lemma held_returnTxErrorResp e id msg : preserves sameHeld (RequestGroup.returnTxErrorResp e id msg).
Proof. unfold RequestGroup.returnTxErrorResp. held_tac. Qed.
Lemma held_popTxs e txs : preserves sameHeld (RequestGroup.popTxs e txs).
Proof. induction txs as [|tx txs IH]; cbn [RequestGroup.popTxs]; held_tac; [apply held_returnTxErrorResp|apply IH..]. Qed.
Lemma held_stopTimer : preserves sameHeld RequestGroup.stopTimer.
Proof. unfold RequestGroup.stopTimer. held_tac. Qed.
Lemma held_onEvent e msg : preserves sameHeld (RequestGroup.onEvent e msg).
Proof.
  unfold RequestGroup.onEvent, RequestGroup.handleProcessReadyResp, RequestGroup.handleBadContractResp.
  held_tac; first [apply held_update|apply held_getProcesses|apply held_sendGetContractReq].
Qed.

Lemma own_cons g tx rest : RequestGroup.r_bufCh g = tx :: rest → own g → own (RequestGroup.set_bufCh rest g).
Proof. unfold own, held. intros -> Hf. by apply Forall_cons in Hf as [_ ?]. Qed.

Lemma own_buffer req g a g' : own g → P req → RequestGroup.buffer req g = Ret (a, g') → own g'.
Proof.
  intros Ho Hp Hr. unfold RequestGroup.buffer in Hr. minv. revert Ho. unfold own, held. cbn. rewrite !Forall_app.
  naive_solver.
Qed.

Lemma own_enqueueCh e req g a g' : own g → P req → RequestGroup.enqueueCh e req g = Ret (a, g') → own g'.
Proof.
  intros Ho Hp Hr. unfold RequestGroup.enqueueCh in Hr. minv. revert Ho. unfold own, held.
  match goal with b : bool |- _ => destruct b end; cbn; rewrite ?fmap_app, !Forall_app; naive_solver.
Qed.

Lemma own_moveTxs e txs g a g' : own g → Forall P txs → RequestGroup.r_bufCh g = txs →
  RequestGroup.moveTxs e txs g = Ret (a, g') → own g'.
Proof.
  revert g. induction txs as [|tx txs IH]; intros g Ho Hp Hb Hr; cbn [RequestGroup.moveTxs] in Hr; minv; [done|].
  apply Forall_cons in Hp as [Hp1 Hp]. apply (own_cons g tx txs Hb) in Ho.
  match goal with Hq : RequestGroup.enqueueCh _ _ _ = Ret (_, ?g1) |- _ =>
    assert (RequestGroup.r_bufCh g1 = txs) by (clear - Hq; unfold RequestGroup.enqueueCh in Hq; by minv);
    apply own_enqueueCh in Hq; [|done..] end.
  by eapply IH.
Qed.

Lemma own_handleGetBytecodeErr e g a g' : own g → RequestGroup.handleGetBytecodeErr e g = Ret (a, g') → own g'.
Proof.
  intros Ho Hr. unfold RequestGroup.handleGetBytecodeErr in Hr.
  apply bind_Ret in Hr as (? & ? & [= <- <-] & Hr). apply bind_Ret in Hr as (? & ? & [= <- <-] & Hr).
  destruct (RequestGroup.r_bufCh _) as [|tx rest] eqn:Hb; [done|]. apply bind_Ret in Hr as (? & ? & [= <- <-] & Hr).
  match type of Hr with ?m _ = _ => assert (preserves sameHeld m) as Hk end.
  { held_tac; first [apply held_returnTxErrorResp|apply held_sendGetContractReq]. }
  eapply sameHeld_own; [by eapply Hk|]. by apply (own_cons (RequestGroup.set_state RequestGroup._contractEmpty g) tx).
Qed.

Lemma own_handleContractReadyResp e msg g a g' :
  own g → RequestGroup.handleContractReadyResp e msg g = Ret (a, g') → own g'.
Proof.
  intros Ho Hr. unfold RequestGroup.handleContractReadyResp, RequestGroup.handleGetBytecodeFailed in Hr.
  apply bind_Ret in Hr as (? & g1 & H1 & Hr). apply held_stopTimer in H1. eapply sameHeld_own in Ho; [|exact H1].
  minv.
  - by match goal with Hq : RequestGroup.handleGetBytecodeErr _ _ = _ |- _ => apply own_handleGetBytecodeErr in Hq end.
  - match goal with Hq : RequestGroup.moveTxs _ _ _ = _ |- _ => apply own_moveTxs in Hq; [|done| |done] end.
    + repeat match goal with Hq : RequestGroup.getProcesses _ _ _ = _ |- _ => apply held_getProcesses in Hq end.
      eapply sameHeld_own; [eassumption|]. eapply sameHeld_own; eassumption.
    + unfold own, held in Ho. by apply Forall_app in Ho as [? _].
Qed.

Lemma own_onTx e msg g a g' : own g → (m_Type msg = TX_REQUEST → P msg) →
  RequestGroup.onTx e msg g = Ret (a, g') → own g'.
Proof.
  intros Ho Hp Hr. unfold RequestGroup.onTx in Hr. destruct (m_Type msg) eqn:Et; minv; try done.
  - specialize (Hp eq_refl).
    match goal with Hq : RequestGroup.handleTxReq _ _ _ = _ |- _ => unfold RequestGroup.handleTxReq in Hq; minv end.
    + match goal with Hq : RequestGroup.buffer _ _ = _ |- _ => apply own_buffer in Hq; [|done..] end.
      match goal with Hq : RequestGroup.sendGetContractReq _ _ _ = _ |- _ => apply held_sendGetContractReq in Hq end.
      by eapply sameHeld_own.
    + by match goal with Hq : RequestGroup.buffer _ _ = _ |- _ => apply own_buffer in Hq end.
    + match goal with Hq : RequestGroup.putTxReqToCh _ _ _ = _ |- _ => unfold RequestGroup.putTxReqToCh in Hq; minv; try done end.
    + match goal with Hq : RequestGroup.putTxReqToCh _ _ _ = _ |- _ => unfold RequestGroup.putTxReqToCh in Hq; minv; try done end.
      match goal with Hq : RequestGroup.enqueueCh _ _ _ = _ |- _ => apply own_enqueueCh in Hq; [|done..] end.
      match goal with Hq : RequestGroup.getProcesses _ _ _ = _ |- _ => apply held_getProcesses in Hq end.
      by eapply sameHeld_own.
  - by match goal with Hq : RequestGroup.handleContractReadyResp _ _ _ = _ |- _ => apply own_handleContractReadyResp in Hq end.
Qed.

Lemma own_loopStep e c g b g' : own g → Forall (λ m, m_Type m = TX_REQUEST → P m) (RequestGroup.r_txCh g) →
  RequestGroup.loopStep e c g = Ret (b, g') → own g'.
Proof.
  intros Ho Hf Hr. destruct c; unfold RequestGroup.loopStep in Hr; minv.
  - match goal with Hq : RequestGroup.onEvent _ _ _ = _ |- _ => apply held_onEvent in Hq end. by eapply sameHeld_own.
  - apply Forall_cons in Hf as [Hm _].
    by match goal with Hq : RequestGroup.onTx _ _ _ = _ |- _ => apply own_onTx in Hq end.
  - match goal with Hq : RequestGroup.handleStopRequestGroup _ _ = _ |- _ => unfold RequestGroup.handleStopRequestGroup in Hq; minv end.
    match goal with Hq : RequestGroup.popTxs _ _ _ = _ |- _ => apply held_popTxs in Hq end. by eapply sameHeld_own.
  - match goal with Hq : RequestGroup.handleGetBytecodeTimeout _ _ = _ |- _ => unfold RequestGroup.handleGetBytecodeTimeout in Hq; minv end.
    by match goal with Hq : RequestGroup.handleGetBytecodeErr _ _ = _ |- _ => apply own_handleGetBytecodeErr in Hq end.
Qed.
End group.

(** ** The groups of a scheduler, live or closed *)

Definition groupAt (s : RequestScheduler) (i : string + nat) : option RequestGroup.RequestGroup :=
  match i with inl key => s_requestGroups s !! key | inr j => s_closed s !! j end.

Definition setGroup (i : string + nat) (g : RequestGroup.RequestGroup) (s : RequestScheduler) : RequestScheduler :=
  match i with
  | inl key => set_groups (<[key := g]> (s_requestGroups s)) s
  | inr j => mkScheduler (s_eventCh s) (s_txCh s) (s_closeCh s) (s_requestGroups s) (<[j := g]> (s_closed s)) (s_outbox s)
  end.

(** A group only has transactions of its own contract, wherever they are. *)
Definition groupTx (g : RequestGroup.RequestGroup) (m : DockerVMMessage) : Prop :=
  m_Type m = TX_REQUEST ∧ txKey m = Some (groupKey g).

Definition groupOk (g : RequestGroup.RequestGroup) : Prop := group_pure g ∧ own (groupTx g) g.

Definition schedOk (s : RequestScheduler) : Prop :=
  map_Forall (λ key g, groupKey g = key ∧ groupOk g) (s_requestGroups s) ∧
  Forall groupOk (s_closed s) ∧ Forall (λ m, m_Type m = TX_REQUEST) (s_txCh s).

Lemma schedOk_at s i g : schedOk s → groupAt s i = Some g → groupOk g.
Proof.
  intros (Hg & Hc & _). destruct i as [key|j]; cbn.
  - intros Hk. by apply (Hg key g Hk).
  - by apply Forall_lookup.
Qed.

Lemma schedOk_set s i g g' : schedOk s → groupAt s i = Some g → groupKey g' = groupKey g → groupOk g' →
  schedOk (setGroup i g' s).
Proof.
  intros (Hg & Hc & Ht) Hk Hkey Hok. destruct i as [key|j]; cbn in Hk; split_and!; cbn; try done.
  - apply map_Forall_insert_2; [|done]. split; [|done]. rewrite Hkey. by apply (Hg key g Hk).
  - by apply Forall_insert.
Qed.

Lemma schedOk_same s s' : s_requestGroups s' = s_requestGroups s → s_closed s' = s_closed s →
  Forall (λ m, m_Type m = TX_REQUEST) (s_txCh s') → schedOk s → schedOk s'.
Proof. unfold schedOk. intros -> -> ? (? & ? & _). done. Qed.

Lemma groupPut_ok msg g e g' : RequestGroup.PutMsg msg g = Ret (e, g') →
  (∀ m, msg = AnyDockerVM m → m_Type m = TX_REQUEST → txKey m = Some (groupKey g)) → groupOk g →
  groupKey g' = groupKey g ∧ groupOk g'.
Proof.
  intros Hp Hm [Hpure Hown].
  destruct msg as [m|?|?|?|?| |?|]; [apply group_put_docker in Hp as ->|unfold RequestGroup.PutMsg in Hp; by minv..].
  split; [done|]. split; [|done]. unfold group_pure. cbn. apply Forall_app. split; [done|]. constructor; [|done].
  intros Hty. by apply Hm.
Qed.

Lemma handleTxReq_ok req s a s' : m_Type req = TX_REQUEST → schedOk s → handleTxReq req s = Ret (a, s') → schedOk s'.
Proof.
  intros Hty Hs Hh. unfold handleTxReq in Hh. destruct (m_Request req) as [rq|] eqn:Erq; [|by minv].
  set (key := contractKey _ _ _) in Hh.
  assert (∀ s1 a s2, schedOk s1 → groupPutMsg key (AnyDockerVM req) s1 = Ret (a, s2) → schedOk s2) as Hput.
  { intros s1 a1 s2 Hs1 Hp. unfold groupPutMsg in Hp.
    destruct (s_requestGroups s1 !! key) as [g|] eqn:Eg; [|done].
    destruct (RequestGroup.PutMsg (AnyDockerVM req) g) as [[e g']| |] eqn:Ep; [|done..]. injection Hp as _ <-.
    destruct Hs1 as (Hg & Hc & Ht) eqn:E. destruct (Hg key g Eg) as [Hk Hok].
    apply groupPut_ok in Ep as [Hk' Hok']; [|intros m [= <-] _; unfold txKey; by rewrite Erq, Hk|done].
    change (schedOk (setGroup (inl key) g' s1)). by eapply schedOk_set. }
  minv; [by eapply Hput|]. match goal with Hq : groupPutMsg _ _ _ = _ |- _ => eapply Hput; [|exact Hq] end.
  destruct Hs as (Hg & Hc & Ht). split_and!; [|done..]. cbn. apply map_Forall_insert_2; [|done].
  split; [done|]. split; constructor.
Qed.

Lemma handleCloseReq_ok k s a s' : schedOk s → handleCloseReq k s = Ret (a, s') → schedOk s'.
Proof.
  intros Hs Hh. unfold handleCloseReq in Hh. set (key := contractKey _ _ _) in Hh.
  assert (∀ a s1, groupPutMsg key AnyClose s = Ret (a, s1) → schedOk s1) as Hput.
  { intros a1 s1 Hp. unfold groupPutMsg in Hp. destruct (s_requestGroups s !! key) as [g|] eqn:Eg; [|done].
    destruct (RequestGroup.PutMsg AnyClose g) as [[e g']| |] eqn:Ep; [|done..]. injection Hp as _ <-.
    apply groupPut_ok in Ep as [Hk' Hok']; [|done|by apply (schedOk_at s (inl key))].
    change (schedOk (setGroup (inl key) g' s)). by eapply schedOk_set. }
  minv; try done; try (by eapply Hput).
  match goal with Hq : groupPutMsg _ _ _ = Ret (_, ?s1) |- _ => apply Hput in Hq as (Hg' & Hc' & Ht') end.
  split_and!; [|cbn|done].
  - cbn. by apply map_Forall_delete.
  - apply Forall_app. split; [done|]. constructor; [|done].
    match goal with E : s_requestGroups _ !! key = Some ?g |- groupOk ?g => by apply (Hg' key g E) end.
Qed.

Lemma loopStep_ok chainPutMsg `{ContractManagerI} c s a s' : schedOk s → loopStep chainPutMsg c s = Ret (a, s') → schedOk s'.
Proof.
  intros Hs Hl. destruct c; unfold loopStep in Hl; minv; try done.
  - match goal with Hq : handleGetContractReq _ _ _ = _ |- _ => unfold handleGetContractReq in Hq; by minv end.
  - match goal with Hq : handleGetContractResp _ _ = _ |- _ => unfold handleGetContractResp in Hq; by minv end.
  - match goal with Hq : handleErrResp _ _ _ = _ |- _ => unfold handleErrResp in Hq; by minv end.
  - destruct Hs as (Hg & Hc & Ht). match goal with E : s_txCh s = _ |- _ => rewrite E in Ht end.
    apply Forall_cons in Ht as [Hty Ht].
    match goal with Hq : handleTxReq _ _ = _ |- _ => eapply handleTxReq_ok; [done| |exact Hq] end. done.
  - match goal with Hq : handleCloseReq _ _ = _ |- _ => by apply handleCloseReq_ok in Hq end.
Qed.

Lemma PutMsg_ok msg s a s' : schedOk s → PutMsg msg s = Ret (a, s') → schedOk s'.
Proof.
  intros Hs Hp. unfold PutMsg in Hp. minv; try done. apply (schedOk_same s); [done..| |done]. cbn. apply Forall_app.
  split; [apply Hs|]. by constructor.
Qed.

Lemma groupLoop_ok `{ProtocolConsts} e c g b g' : RequestGroup.loopStep e c g = Ret (b, g') → groupOk g →
  groupKey g' = groupKey g ∧ groupOk g'.
Proof.
  intros Hl [Hp Ho]. pose proof (group_loop_rel _ _ _ _ _ Hl) as Hr. pose proof Hr as [Hk _]. split; [done|].
  split; [by eapply group_rel_pure|].
  assert (groupTx g' = groupTx g) as -> by (unfold groupTx; by rewrite Hk).
  eapply own_loopStep; [done| |done]. eapply Forall_impl; [exact Hp|]. intros m Hm Hty. split; auto.
Qed.

(** A process takes the first transaction of a channel. *)
Definition takeTx (b : bool) (rest : list TxPayload) (g : RequestGroup.RequestGroup) : RequestGroup.RequestGroup :=
  RequestGroup.set_controller b (RequestGroup.mkController rest (RequestGroup.processWaiting (RequestGroup.controller b g))) g.

Inductive taken (b : bool) (key : string) : TxPayload → RequestScheduler → RequestScheduler → Prop :=
| taken_intro tx rest i g s : groupAt s i = Some g → groupKey g = key → RequestGroup.GetTxCh b g = tx :: rest →
    taken b key tx s (setGroup i (takeTx b rest g) s).

Lemma taken_ok b key tx s s' : taken b key tx s s' → schedOk s →
  schedOk s' ∧ m_Type (tp_Tx tx) = TX_REQUEST ∧ txKey (tp_Tx tx) = Some key.
Proof.
  intros [tx' rest i g s0 Hi Hk Ht] Hs. destruct (schedOk_at _ _ _ Hs Hi) as [Hp Ho].
  assert (groupTx g (tp_Tx tx') ∧ own (groupTx g) (takeTx b rest g)) as [Htx Ho'].
  { unfold own, held in Ho |- *. rewrite !Forall_app in Ho. destruct Ho as (H1 & H2 & H3).
    unfold RequestGroup.GetTxCh, RequestGroup.controller in Ht. destruct b; rewrite Ht in *; cbn in *.
    - apply Forall_cons in H2 as [? ?]. split; [done|]. by rewrite !Forall_app.
    - apply Forall_cons in H3 as [? ?]. split; [done|]. by rewrite !Forall_app. }
  split; [|destruct Htx; by rewrite <-Hk]. eapply schedOk_set; [done..|by destruct b|]. split; by destruct b.
Qed.

Definition takenOpt (b : bool) (key : string) (h : option TxPayload) (s s' : RequestScheduler) : Prop :=
  match h with Some tx => taken b key tx s s' | None => s' = s end.

Lemma takenOpt_ok b key h s s' : takenOpt b key h s s' → schedOk s → schedOk s'.
Proof. destruct h; cbn; [intros Ht Hs; by eapply taken_ok|by intros ->]. Qed.

(** ** What a process sends to its sandbox and starts *)

Abbreviation Proc := Process.Process.

Definition sends (l : list Process.effect) : list DockerVMMessage :=
  omap (λ x, match x with Process.ESandbox m => Some m | _ => None end) l.

(** A goroutine of [startProcess]: about to launch; its command runs the executable of the contract
    [key] and has registered or not; the command has ended and the exit waits for the listener. *)
Inductive run := RStart | RRun (key : string) (registered : bool) | RExit (x : option Process.exitErr).

Definition starts (l : list Process.effect) : list run :=
  omap (λ x, match x with Process.EStartProcess | Process.EStart => Some RStart | _ => None end) l.

(** Code that neither sends to the sandbox nor starts one. *)
Definition hush (p p' : Proc) : Prop :=
  ∃ l, Process.p_outbox p' = Process.p_outbox p ++ l ∧ sends l = [] ∧ starts l = [].

#[local] Instance hush_preorder : PreOrder hush.
Proof.
  split; [intros p; exists []; by rewrite app_nil_r|]. intros p1 p2 p3 (l1 & O1 & S1 & T1) (l2 & O2 & S2 & T2).
  exists (l1 ++ l2). unfold sends, starts in *. rewrite O2, O1, app_assoc, !omap_app, S1, S2, T1, T2. done.
Qed.

Lemma hush_same p p' : Process.p_outbox p' = Process.p_outbox p → hush p p'.
Proof. intros E. exists []. by rewrite app_nil_r. Qed.
Lemma hush_emit x p : sends [x] = [] → starts [x] = [] → hush p (Process.emit x p).
Proof. intros Hs Ht. by exists [x]. Qed.

Lemma hush_effects p p' : hush p p' → sends (Process.effects p p') = [] ∧ starts (Process.effects p p') = [].
Proof. intros (l & Ho & Hs & Ht). by rewrite (Process.effects_app _ _ l Ho). Qed.

Ltac hush_tac := preserves_tac ltac:(first [by apply hush_same|by apply hush_emit]).

Lemma hush_popTimer : preserves hush Process.popTimer.
Proof. unfold Process.popTimer. hush_tac. Qed.
Lemma hush_startTimer : preserves hush Process.startTimer.
Proof. unfold Process.startTimer. hush_tac. apply hush_popTimer. Qed.
Lemma hush_deferredPop : preserves hush Process.deferredPop.
Proof. unfold Process.deferredPop. hush_tac. apply hush_popTimer. Qed.
Lemma hush_update st : preserves hush (Process.updateProcessState st).
Proof. unfold Process.updateProcessState. hush_tac; apply hush_startTimer. Qed.

Section hush.
Context (e : Process.env).

Lemma hush_kill sg : preserves hush (Process.killProcess e sg).
Proof. unfold Process.killProcess. hush_tac. Qed.
Lemma hush_returnTxErrorResp id msg : preserves hush (Process.returnTxErrorResp e id msg).
Proof. unfold Process.returnTxErrorResp. hush_tac. Qed.
Lemma hush_returnSandboxExitResp er : preserves hush (Process.returnSandboxExitResp e er).
Proof. unfold Process.returnSandboxExitResp. hush_tac. Qed.
Lemma hush_returnBadContractResp v : preserves hush (Process.returnBadContractResp e v).
Proof. unfold Process.returnBadContractResp. hush_tac. Qed.
Lemma hush_handleIdleTxRequest tx : preserves hush (Process.handleIdleTxRequest e tx).
Proof. unfold Process.handleIdleTxRequest. hush_tac. apply hush_update. Qed.
Lemma hush_handleTxResp m : preserves hush (Process.handleTxResp e m).
Proof. unfold Process.handleTxResp. hush_tac; first [apply hush_update|apply hush_kill]. Qed.
Lemma hush_onTimer : preserves hush (Process.onTimer e).
Proof. unfold Process.onTimer, Process.takeTimer, Process.handleTimeout. hush_tac; first [apply hush_update|apply hush_kill]. Qed.
Lemma hush_decideExit x h : preserves hush (Process.decideExit e x h).
Proof. unfold Process.decideExit. hush_tac; apply hush_update. Qed.

(** The message of a transaction is the only one for the sandbox. *)
Lemma handleTxRequest_sends tx p a p' : Process.handleTxRequest e tx p = Ret (a, p') →
  ∃ l, Process.p_outbox p' = Process.p_outbox p ++ l ∧ starts l = [] ∧
    Forall (λ m, m_Request m = m_Request (tp_Tx tx)) (sends l).
Proof.
  intros Hr. unfold Process.handleTxRequest in Hr. cbv zeta in Hr. minv; try (exists []; by rewrite app_nil_r).
  match goal with Hq : Process.updateProcessState _ _ = _ |- _ => apply hush_update in Hq as (l & Ho & Hs & Ht) end.
  unfold Process.sendMsg in Hr. minv.
  - exists l. rewrite Hs. cbn. rewrite Ho. by split_and!.
  - match goal with |- context [Process.ESandbox ?m] => exists (l ++ [Process.ESandbox m]) end.
    unfold sends, starts in *. rewrite !omap_app, Hs, Ht. cbn. rewrite Ho, <-app_assoc. split_and!; [done..|].
    by repeat constructor.
Qed.

(** A new sandbox is started for a process that is not ready yet or has been handed over. *)
Lemma handleProcessExit_starts x h p b p' : Process.handleProcessExit e x h p = Ret (b, p') →
  ∃ l, Process.p_outbox p' = Process.p_outbox p ++ l ∧ sends l = [] ∧
    (starts l = [] ∨ starts l = [RStart] ∧ Process.p_state p' = Process.created ∧
      (Process.p_state p = Process.created ∨ Process.p_state p = Process.changing)).
Proof.
  intros Hr. pose proof (Process.handleProcessExit_moved e x h p b p' Hr) as Hm.
  unfold Process.handleProcessExit in Hr. apply bind_Ret in Hr as (d & p1 & H1 & Hr).
  pose proof (hush_decideExit _ _ _ _ _ H1) as (l1 & O1 & S1 & T1).
  assert (Process.d_restartSandbox d = false ∧ Process.d_restartAll d = false ∨
    Process.d_restartSandbox d = true ∧ Process.d_restartAll d = false ∧ Process.p_state p = Process.created ∨
    Process.d_restartSandbox d = false ∧ Process.d_restartAll d = true ∧ Process.p_state p = Process.changing ∧
      Process.p_state p1 = Process.created) as Hd.
  { clear - H1. unfold Process.decideExit in H1. minv; cbn; auto.
    match goal with Hq : Process.updateProcessState _ _ = _ |- _ => apply Process.update_moved in Hq as (_ & ? & _) end. auto 7. }
  apply bind_Ret in Hr as (? & p2 & H2 & [= _ <-]). pose proof (Process.calm_finishExit _ _ _ _ _ _ H2) as (_ & Est & _).
  unfold Process.finishExit in H2.
  apply bind_Ret in H2 as (? & p3 & H3 & H2). apply bind_Ret in H2 as (? & ? & [= <- <-] & H2).
  apply bind_Ret in H2 as (? & p4 & H4 & H2). apply bind_Ret in H2 as (? & p5 & H5 & H2).
  assert (hush p3 p4) as (l4 & O4 & S4 & T4).
  { match type of H4 with ?m _ = _ => assert (preserves hush m) as Hk end; [hush_tac; apply hush_returnTxErrorResp|by eapply Hk]. }
  assert (hush p4 p5) as (l5 & O5 & S5 & T5).
  { match type of H5 with ?m _ = _ => assert (preserves hush m) as Hk end; [hush_tac; apply hush_returnSandboxExitResp|by eapply Hk]. }
  destruct Hd as [[Hd1 Hd2]|[(Hd1 & Hd2 & Hst)|(Hd1 & Hd2 & Hst & Hst1)]]; rewrite Hd1 in H3; rewrite Hd2 in H2.
  3: { injection H3 as _ <-. injection H2 as _ <-. exists (l1 ++ l4 ++ l5 ++ [Process.EStart]). unfold sends, starts in *.
    rewrite !omap_app, S1, S4, S5, T1, T4, T5. cbn. rewrite O5, O4, O1, <-!app_assoc. split_and!; [done..|]. right.
    split_and!; [done| |by right]. etrans; [exact Est|exact Hst1]. }
  all: assert (hush p5 p2) as (l6 & O6 & S6 & T6).
  1,3: match type of H2 with ?m _ = _ => assert (preserves hush m) as Hk end;
    [hush_tac; first [apply hush_returnBadContractResp|apply hush_deferredPop]|by eapply Hk].
  - injection H3 as _ <-. exists (l1 ++ l4 ++ l5 ++ l6). unfold sends, starts in *.
    rewrite !omap_app, S1, S4, S5, S6, T1, T4, T5, T6. rewrite O6, O5, O4, O1, <-!app_assoc. auto.
  - injection H3 as _ <-. exists (l1 ++ [Process.EStartProcess] ++ l4 ++ l5 ++ l6). unfold sends, starts in *.
    rewrite !omap_app, S1, S4, S5, S6, T1, T4, T5, T6. rewrite O6, O5, O4. cbn. rewrite O1, <-!app_assoc.
    split_and!; [done..|]. right. split_and!; [done| |by left].
    destruct Hm as [(_ & E & _)|[(_ & E & _) _]]; [by rewrite E|done].
Qed.
End hush.

(** ** A process with its sandbox *)

(** The key of the contract a process is named after, and of a group. *)
Definition nkey (p : Proc) : string :=
  contractKey (Process.p_chainID p) (Process.p_contractName p) (Process.p_contractVersion p).
Definition gkey (k : RequestGroupKey) : string := contractKey (gk_ChainID k) (gk_ContractName k) (gk_ContractVersion k).

(** The process with the manager's view and its listener; the goroutines of [startProcess]; the group whose
    channel is [p.txCh], and the one whose channel the listener's [select] was entered with; the contract
    whose executable the sandbox behind [p.stream] runs. *)
Record proc := mkProc {
  q_sys : Process.system;
  q_runs : list run;
  q_txCh : string;
  q_selCh : string;
  q_stream : option string;
}.

(** The channel after [resetContext]. *)
Definition txChOf (p : Proc) (old : string) : string :=
  match Process.p_group p with Some k => gkey k | None => old end.

(** What a launch leaves: the executable is the file of the group's contract, whose path is built from the
    key of the group. *)
Definition launched (o : Process.launch) (x : option Process.exitErr) (p : Proc) : run :=
  match o, Process.p_group p with Process.LRuns, Some k => RRun (gkey k) false | _, _ => RExit x end.

Definition sentOn (st : option string) (p p' : Proc) : list (option string * DockerVMMessage) :=
  pair st <$> sends (Process.effects p p').

(** The steps of one process; [s] is the scheduler with the groups, the last argument what is sent to the
    sandbox. The manager hands over idle processes only, under a name it has not used before. *)
Inductive procStep : proc → RequestScheduler → proc → RequestScheduler → list (option string * DockerVMMessage) → Prop :=
| ps_head p view name runs ch sel st s :
    procStep (mkProc (Process.mkSystem p view name Process.LHead) runs ch sel st) s
      (mkProc (Process.mkSystem p view name (Process.LSelect (Process.p_state p))) runs ch ch st) s []
| ps_tx p view name seen runs ch sel st s e tx b p' s' :
    taken (Process.p_isOrig p) sel tx s s' → Process.answers e view name →
    Process.listenProcess e seen (Process.ChTx tx) p = Ret (b, p') →
    procStep (mkProc (Process.mkSystem p view name (Process.LSelect seen)) runs ch sel st) s
      (mkProc (Process.mkSystem p' (Process.viewAfter view (Process.effects p p')) name Process.LHead) runs ch sel st) s'
      (sentOn st p p')
| ps_event p view name seen runs ch sel st s e c b p' :
    c = Process.ChTimer ∨ c = Process.ChResp ∨ c = Process.ChUpdate → Process.answers e view name →
    Process.listenProcess e seen c p = Ret (b, p') →
    procStep (mkProc (Process.mkSystem p view name (Process.LSelect seen)) runs ch sel st) s
      (mkProc (Process.mkSystem p' (Process.viewAfter view (Process.effects p p')) name Process.LHead) runs ch sel st) s
      (sentOn st p p')
| ps_exit p view name seen r1 x r2 ch sel st s e h b p' s' :
    takenOpt (Process.p_isOrig p) ch h s s' → Process.answers e view name →
    Process.listenProcess e seen (Process.ChExit x h) p = Ret (b, p') →
    procStep (mkProc (Process.mkSystem p view name (Process.LSelect seen)) (r1 ++ RExit x :: r2) ch sel st) s
      (mkProc (Process.mkSystem p' (Process.viewAfter view (Process.effects p p')) name
         (if negb b || Process.restarts (Process.effects p p') then Process.LHead else Process.LOff))
         (r1 ++ r2 ++ starts (Process.effects p p')) ch sel st) s' (sentOn st p p')
| ps_launch sy r1 r2 ch sel st s e o x p' :
    Process.launchProcess e o (Process.y_p sy) = Ret (x, p') →
    procStep (mkProc sy (r1 ++ RStart :: r2) ch sel st) s
      (mkProc (Process.mkSystem p' (Process.y_view sy) (Process.y_name sy) (Process.y_listener sy))
         (r1 ++ launched o x (Process.y_p sy) :: r2) ch sel st) s []
| ps_die sy r1 k reg x r2 ch sel st s :
    Process.launchFailed x = false →
    procStep (mkProc sy (r1 ++ RRun k reg :: r2) ch sel st) s (mkProc sy (r1 ++ RExit x :: r2) ch sel st) s []
| ps_stream sy r1 k r2 ch sel st s p' :
    Process.SetStream (Process.y_p sy) = Ret (tt, p') →
    procStep (mkProc sy (r1 ++ RRun k false :: r2) ch sel st) s
      (mkProc (Process.mkSystem p' (Process.y_view sy) (Process.y_name sy) (Process.y_listener sy))
         (r1 ++ RRun k true :: r2) ch sel (Some k)) s []
| ps_change p name l runs ch sel st s e c n v name' er p' :
    name' ≠ name → Process.ChangeSandbox e c n v name' p = Ret (er, p') →
    procStep (mkProc (Process.mkSystem p Process.PMIdle name l) runs ch sel st) s
      (mkProc (if er is None then Process.mkSystem p' Process.PMBusy name' l else Process.mkSystem p' Process.PMIdle name l)
         runs (txChOf p' ch) sel st) s []
| ps_change_raced p name r1 x r2 ch sel st s e c n v name' h b p' s' :
    takenOpt (Process.p_isOrig p) (contractKey c n v) h s s' → Process.changeRaced e c n v name' x h p = Ret (b, p') →
    procStep (mkProc (Process.mkSystem p Process.PMIdle name (Process.LSelect Process.idle)) (r1 ++ RExit x :: r2) ch sel st) s
      (mkProc (Process.mkSystem p' Process.PMBusy name' (if b then Process.LOff else Process.LHead))
         (r1 ++ r2 ++ starts (Process.effects p p')) (txChOf p' ch) sel st) s' (sentOn st p p')
| ps_close p name l runs ch sel st s e er p' :
    Process.CloseSandbox e p = Ret (er, p') →
    procStep (mkProc (Process.mkSystem p Process.PMIdle name l) runs ch sel st) s
      (mkProc (Process.mkSystem p' (if er is None then Process.PMGone else Process.PMIdle) name l) runs ch sel st) s []
| ps_close_raced p name r1 x r2 ch sel st s e h b p' s' :
    takenOpt (Process.p_isOrig p) ch h s s' → Process.closeRaced e x h p = Ret (b, p') →
    procStep (mkProc (Process.mkSystem p Process.PMIdle name (Process.LSelect Process.idle)) (r1 ++ RExit x :: r2) ch sel st) s
      (mkProc (Process.mkSystem p' Process.PMGone name (if b then Process.LOff else Process.LHead))
         (r1 ++ r2 ++ starts (Process.effects p p')) ch sel st) s' (sentOn st p p')
| ps_other sy runs ch sel st s p' :
    (∃ m, Process.PutMsg m (Process.y_p sy) = Ret (tt, p')) ∨ Process.resumeExit (Process.y_p sy) = Ret (tt, p') ∨
    (Process.p_timerArmed (Process.y_p sy) = true ∧
      p' = Process.set_timer false true (Process.p_timerPopped (Process.y_p sy)) (Process.y_p sy)) →
    procStep (mkProc sy runs ch sel st) s
      (mkProc (Process.mkSystem p' (Process.y_view sy) (Process.y_name sy) (Process.y_listener sy)) runs ch sel st) s [].

(** ** The engine's processes, groups and scheduler *)

Record flow := mkFlow {
  f_sched : RequestScheduler;
  f_procs : list proc;
  f_sent : list (option string * DockerVMMessage);
}.

Definition NewFlow : flow := mkFlow NewRequestScheduler [] [].

Section flow.
Context `{ProtocolConsts}.

Inductive flowStep : flow → flow → Prop :=
| fl_put f msg er s' :  (* the chain, a process, a group or a manager *)
    PutMsg msg (f_sched f) = Ret (er, s') → flowStep f (mkFlow s' (f_procs f) (f_sent f))
| fl_loop f chainPutMsg (CM : ContractManagerI) c s' :
    loopStep chainPutMsg c (f_sched f) = Ret (tt, s') → flowStep f (mkFlow s' (f_procs f) (f_sent f))
| fl_group f i g e c b g' :
    groupAt (f_sched f) i = Some g → RequestGroup.loopStep e c g = Ret (b, g') →
    flowStep f (mkFlow (setGroup i g' (f_sched f)) (f_procs f) (f_sent f))
| fl_group_put f i g msg er g' :  (* the contract manager, a process or a process manager *)
    groupAt (f_sched f) i = Some g → (∀ m, msg = AnyDockerVM m → m_Type m ≠ TX_REQUEST) →
    RequestGroup.PutMsg msg g = Ret (er, g') →
    flowStep f (mkFlow (setGroup i g' (f_sched f)) (f_procs f) (f_sent f))
| fl_fire f i g :  (* the bytecode timer of a group expires *)
    groupAt (f_sched f) i = Some g → RequestGroup.r_timerArmed g = true →
    flowStep f (mkFlow (setGroup i (RequestGroup.set_timer false true g) (f_sched f)) (f_procs f) (f_sent f))
| fl_new f u c n v name isOrig p :  (* a process manager creates and starts a process *)
    Process.NewProcess (asInterface (f_sched f)) u c n v name isOrig = Some p →
    flowStep f (mkFlow (f_sched f)
      (f_procs f ++ [mkProc (Process.mkSystem p Process.PMBusy name Process.LHead) [RStart] (nkey p) (nkey p) None]) (f_sent f))
| fl_proc f i q q' s' l :
    f_procs f !! i = Some q → procStep q (f_sched f) q' s' l →
    flowStep f (mkFlow s' (<[i := q']> (f_procs f)) (f_sent f ++ l)).
End flow.

(** ** The invariant of a process *)

Definition fresh (r : run) : bool := match r with RStart | RRun _ false => true | _ => false end.

Record procOk (q : proc) : Prop := {
  ok_runs : (length (q_runs q) ≤ 1)%nat;
  ok_fresh r : r ∈ q_runs q → fresh r = true → Process.p_state (Process.y_p (q_sys q)) = Process.created;
  ok_key k : RRun k false ∈ q_runs q → k = nkey (Process.y_p (q_sys q));
  ok_stream : Process.IsReadyOrBusy (Process.y_p (q_sys q)) = true → q_stream q = Some (nkey (Process.y_p (q_sys q)));
  ok_idle : Process.p_state (Process.y_p (q_sys q)) = Process.idle →
    Process.p_processName (Process.y_p (q_sys q)) = Process.y_name (q_sys q) →
    q_stream q = Some (nkey (Process.y_p (q_sys q)));
  ok_view : Process.y_view (q_sys q) = Process.PMIdle → Process.p_state (Process.y_p (q_sys q)) = Process.idle;
  ok_seen : Process.listener_ok (Process.y_listener (q_sys q)) (Process.p_state (Process.y_p (q_sys q)));
  ok_ch : q_txCh q = nkey (Process.y_p (q_sys q));
  ok_sel : Process.y_listener (q_sys q) = Process.LSelect Process.ready → q_selCh q = nkey (Process.y_p (q_sys q));
  ok_group k : Process.p_group (Process.y_p (q_sys q)) = Some k → gkey k = nkey (Process.y_p (q_sys q));
}.

Lemma names_nkey p p' : Process.names p' = Process.names p → nkey p' = nkey p.
Proof. unfold nkey. by intros [= _ -> -> -> _ _]. Qed.
Lemma names_group p p' : Process.names p' = Process.names p → Process.p_group p' = Process.p_group p.
Proof. by intros [= _ _ _ _ -> _]. Qed.

Lemma IsReadyOrBusy_spec p : Process.IsReadyOrBusy p = true ↔
  Process.p_state p = Process.ready ∨ Process.p_state p = Process.busy.
Proof. unfold Process.IsReadyOrBusy. by rewrite orb_true_iff, !bool_decide_eq_true. Qed.

(** A step that keeps the names. The obligations that remain are those about the state. *)
Lemma procOk_keep sy runs ch sel st p' view' l' runs' st' :
  procOk (mkProc sy runs ch sel st) → Process.names p' = Process.names (Process.y_p sy) →
  (length runs' ≤ 1)%nat →
  (∀ r, r ∈ runs' → fresh r = true → Process.p_state p' = Process.created) →
  (∀ k, RRun k false ∈ runs' → k = nkey (Process.y_p sy)) →
  (Process.IsReadyOrBusy p' = true → st' = Some (nkey (Process.y_p sy))) →
  (Process.p_state p' = Process.idle → Process.p_processName (Process.y_p sy) = Process.y_name sy →
    st' = Some (nkey (Process.y_p sy))) →
  (view' = Process.PMIdle → Process.p_state p' = Process.idle) →
  Process.listener_ok l' (Process.p_state p') →
  (l' = Process.LSelect Process.ready → sel = nkey (Process.y_p sy)) →
  procOk (mkProc (Process.mkSystem p' view' (Process.y_name sy) l') runs' ch sel st').
Proof.
  intros [] Hn H1 H2 H3 H4 H5 H6 H7 H8. cbn in *.
  split; cbn [q_sys q_runs q_txCh q_selCh q_stream Process.y_p Process.y_view Process.y_name Process.y_listener];
    rewrite ?(names_nkey _ _ Hn), ?(Process.names_name _ _ Hn), ?(names_group _ _ Hn); auto.
Qed.

Lemma runs_split {A} (r1 r2 : list A) r : (length (r1 ++ r :: r2) ≤ 1)%nat → r1 = [] ∧ r2 = [].
Proof. rewrite length_app. cbn. intros Hl. destruct r1, r2; cbn in Hl; try lia. done. Qed.

(** Nothing but the timer, a channel or the listener changes. *)
Lemma procOk_calm sy runs ch sel st p' :
  procOk (mkProc sy runs ch sel st) → Process.calm (Process.y_p sy) p' →
  procOk (mkProc (Process.mkSystem p' (Process.y_view sy) (Process.y_name sy) (Process.y_listener sy)) runs ch sel st).
Proof.
  intros Hok (Hn & Hs & _). pose proof Hok as []. cbn in *. eapply procOk_keep; [done|done|done| | | | | | |].
  all: rewrite ?Hs; try done. intros Hr. apply ok_stream0. rewrite IsReadyOrBusy_spec in *. by rewrite <-Hs.
Qed.

(** The listener changes the state. *)
Lemma procOk_moved sy runs ch sel st p' st0 :
  procOk (mkProc sy runs ch sel st) → Process.moved st0 (Process.y_p sy) p' →
  Process.p_state (Process.y_p sy) ≠ Process.created → Process.p_state (Process.y_p sy) ≠ Process.idle →
  st0 ≠ Process.idle → (st0 = Process.ready ∨ st0 = Process.busy → st = Some (nkey (Process.y_p sy))) →
  procOk (mkProc (Process.mkSystem p' (Process.y_view sy) (Process.y_name sy) Process.LHead) runs ch sel st).
Proof.
  intros Hok (Hn & Hs & _) Hc Hi Hi' Hst. pose proof Hok as []. cbn in *. eapply procOk_keep; [done|done|done| | | | | | |]; rewrite ?Hs.
  - intros r Hr Hf. by apply ok_fresh0 in Hf.
  - done.
  - rewrite IsReadyOrBusy_spec, Hs. done.
  - done.
  - intros Hv. by apply ok_view0 in Hv.
  - done.
  - done.
Qed.

(** ** The steps preserve it *)

#[local] Existing Instance Process.calm_preorder.
#[local] Existing Instance Process.processState_eq_dec.

Definition sentOk (l : list (option string * DockerVMMessage)) : Prop :=
  Forall (λ x, ∃ k, x.1 = Some k ∧ txKey x.2 = Some k) l.

Lemma sentOn_hush st p p' : hush p p' → sentOn st p p' = [].
Proof. intros [Hs _]%hush_effects. unfold sentOn. by rewrite Hs. Qed.

Lemma procOk_head p view name l runs ch sel st :
  procOk (mkProc (Process.mkSystem p view name l) runs ch sel st) →
  procOk (mkProc (Process.mkSystem p view name Process.LHead) runs ch sel st).
Proof. intros []. by split. Qed.

(** The manager's answers decide what becomes of a process that asks it. *)
Lemma handleIdleTxRequest_cases e view name tx p a p' : Process.answers e view name →
  Process.handleIdleTxRequest e tx p = Ret (a, p') →
  Process.calm p p' ∨ (Process.p_processName p = name ∧ view = Process.PMIdle ∧ Process.names p' = Process.names p ∧
    Process.p_state p' = Process.ready ∧ Process.viewAfter view (Process.effects p p') = Process.PMBusy).
Proof.
  intros Ha Hr. unfold Process.handleIdleTxRequest in Hr. apply bind_Ret in Hr as (? & ? & [= <- <-] & Hr).
  destruct (Process.e_ChangeProcessState e (Process.p_processName p) true) eqn:Hc.
  - left. match type of Hr with ?m _ = _ => assert (preserves Process.calm m) as Hk end; [|by eapply Hk].
    Process.calm_tac.
  - right. apply Ha in Hc as [Hn Hv]. apply bind_Ret in Hr as (? & p1 & H1 & Hr).
    apply bind_Ret in H1 as (? & ? & [= <- <-] & H1). apply Process.update_moved in H1.
    match type of Hr with ?m _ = _ => assert (preserves Process.calm m) as Hk end.
    { Process.calm_tac. }
    apply Hk in Hr. destruct (Process.moved_calm _ _ _ _ H1 Hr) as (Hn' & Hs' & l & Ho & Hl).
    split_and!; [done..|]. rewrite (Process.effects_app p p' ([Process.EChangeState (Process.p_processName p) true] ++ l))
      by (rewrite Ho; cbn; by rewrite <-app_assoc).
    cbn. by apply (Process.viewAfter_noChange Process.PMBusy l).
Qed.

Lemma onTimer_cases e view name p a p' : Process.answers e view name →
  Process.p_state p = Process.ready ∨ Process.p_state p = Process.busy → Process.onTimer e p = Ret (a, p') →
  Process.calm p p' ∨ (Process.p_state p = Process.busy ∧ Process.moved Process.timeout p p') ∨
  (Process.p_state p = Process.ready ∧ Process.names p' = Process.names p ∧ Process.p_processName p = name ∧
    Process.p_state p' = Process.idle ∧ Process.viewAfter view (Process.effects p p') = Process.PMIdle).
Proof.
  intros Ha Hst Hr. unfold Process.onTimer in Hr. apply bind_Ret in Hr as (? & p1 & H1 & Hr).
  unfold Process.takeTimer in H1. minv. unfold Process.handleTimeout in Hr.
  apply bind_Ret in Hr as (? & ? & [= <- <-] & Hr). apply bind_Ret in Hr as (? & ? & [= <- <-] & Hr).
  set (q := Process.set_timer _ _ _ _) in Hr. assert (Process.calm p q) as Hq by by apply Process.calm_same.
  change (Process.p_state q) with (Process.p_state p) in Hr. destruct Hst as [Hst|Hst]; rewrite Hst in Hr.
  - destruct (Process.e_ChangeProcessState e (Process.p_processName q) false) eqn:Hc; [left; by injection Hr as _ <-|].
    apply Ha in Hc as [Hn Hv]. right; right. apply bind_Ret in Hr as (? & ? & [= <- <-] & Hr).
    apply bind_Ret in Hr as (? & ? & H2 & [= _ <-]). apply Process.update_moved in H2 as (Hn' & Hs' & l & Ho & Hl).
    split_and!; [done..|]. rewrite (Process.effects_app p _ ([Process.EChangeState (Process.p_processName p) false] ++ l))
      by (rewrite Ho; cbn; by rewrite <-app_assoc).
    cbn. by apply (Process.viewAfter_noChange Process.PMIdle l).
  - right; left. split; [done|]. apply bind_Ret in Hr as (? & p2 & H2 & Hr). destruct (Process.p_Tx q); [|done].
    injection H2 as _ <-. eapply Process.calm_moved; [exact Hq|]. eapply Process.move_then; [|exact Hr].
    intros ?. Process.calm_tac. apply Process.calm_kill.
Qed.

Lemma ps_tx_ok p view name seen runs ch sel st s e tx b p' s' :
  taken (Process.p_isOrig p) sel tx s s' → Process.answers e view name →
  Process.listenProcess e seen (Process.ChTx tx) p = Ret (b, p') → schedOk s →
  procOk (mkProc (Process.mkSystem p view name (Process.LSelect seen)) runs ch sel st) →
  procOk (mkProc (Process.mkSystem p' (Process.viewAfter view (Process.effects p p')) name Process.LHead) runs ch sel st) ∧
  sentOk (sentOn st p p').
Proof.
  intros Htk Ha Hl Hs Hok. destruct (taken_ok _ _ _ _ _ Htk Hs) as (_ & _ & Htx). pose proof Hok as []. cbn in *.
  unfold Process.listenProcess in Hl. apply bind_Ret in Hl as (? & ? & [= <- <-] & Hl). destruct seen; try done.
  - (* ready *)
    assert (Process.p_state p = Process.ready) as Hst by (apply Process.seen_timed in ok_seen0; auto).
    assert (st = Some (nkey p)) as Hstream by (apply ok_stream0, IsReadyOrBusy_spec; auto).
    rewrite (ok_sel0 eq_refl) in Htx. apply bind_Ret in Hl as (er & p1 & H1 & Hl).
    assert (Process.calm p1 p' ∧ hush p1 p') as [Hc (l2 & O2 & S2 & T2)].
    { destruct er as [er|]; [|injection Hl as _ <-; by split]. apply bind_Ret in Hl as (? & ? & Hl & [= _ <-]).
      split; [by eapply Process.calm_returnTxErrorResp|by eapply hush_returnTxErrorResp]. }
    split.
    + apply Process.handleTxRequest_moved in H1 as [Hc1|Hm].
      * assert (Process.calm p p') as Hcp by (etrans; eassumption). rewrite (Process.moved_view _ _ _ view Hcp).
        eapply procOk_head, (procOk_calm (Process.mkSystem p view name (Process.LSelect Process.ready))); done.
      * pose proof (Process.moved_calm _ _ _ _ Hm Hc) as Hmp. rewrite (Process.moved_view _ _ _ view Hmp).
        eapply (procOk_moved (Process.mkSystem p view name (Process.LSelect Process.ready))); [done..| | |done|done]; cbn; by rewrite Hst.
    + apply handleTxRequest_sends in H1 as (l1 & O1 & T1 & F1). unfold sentOk, sentOn.
      rewrite (Process.effects_app p p' (l1 ++ l2)) by (by rewrite O2, O1, app_assoc). unfold sends in *.
      rewrite omap_app, S2, app_nil_r. apply Forall_fmap. eapply Forall_impl; [exact F1|].
      intros m Hm. cbn. exists (nkey p). split; [done|]. unfold txKey in *. by rewrite Hm.
  - (* idle *)
    apply bind_Ret in Hl as (? & ? & Hl & [= _ <-]). split.
    2: { rewrite sentOn_hush; [constructor|]. by eapply hush_handleIdleTxRequest. }
    apply (handleIdleTxRequest_cases e view name) in Hl as [Hc|(Hn & -> & Hn' & Hs' & Hv)]; [| |done].
    + rewrite (Process.moved_view _ _ _ view Hc).
      eapply procOk_head, (procOk_calm (Process.mkSystem p view name (Process.LSelect Process.idle))); done.
    + rewrite Hv. specialize (ok_view0 eq_refl).
      eapply (procOk_keep (Process.mkSystem p Process.PMIdle name (Process.LSelect Process.idle)));
        [done|done|done|cbn..]; try done.
      * intros r Hr Hf. specialize (ok_fresh0 r Hr Hf). congruence.
      * auto.
      * rewrite Hs'. done.
Qed.

Lemma ps_event_ok p view name seen runs ch sel st e c b p' :
  c = Process.ChTimer ∨ c = Process.ChResp ∨ c = Process.ChUpdate → Process.answers e view name →
  Process.listenProcess e seen c p = Ret (b, p') →
  procOk (mkProc (Process.mkSystem p view name (Process.LSelect seen)) runs ch sel st) →
  procOk (mkProc (Process.mkSystem p' (Process.viewAfter view (Process.effects p p')) name Process.LHead) runs ch sel st) ∧
  sentOk (sentOn st p p').
Proof.
  intros Hc Ha Hl Hok. pose proof Hok as []. cbn in *.
  assert (∀ p', Process.calm p p' → hush p p' →
    procOk (mkProc (Process.mkSystem p' (Process.viewAfter view (Process.effects p p')) name Process.LHead) runs ch sel st) ∧
    sentOk (sentOn st p p')) as Hcalm.
  { intros q Hq Hh. rewrite (Process.moved_view _ _ _ view Hq), (sentOn_hush _ _ _ Hh). split; [|constructor].
    eapply procOk_head, (procOk_calm (Process.mkSystem p view name (Process.LSelect seen))); done. }
  unfold Process.listenProcess in Hl. apply bind_Ret in Hl as (? & ? & [= <- <-] & Hl).
  assert ((seen = Process.ready ∨ seen = Process.busy) ∧ c = Process.ChTimer ∨ seen = Process.busy ∧ c = Process.ChResp ∨
    (Process.p_updateCh p = true ∧ p' = Process.set_updateCh false p)) as [[Hsn ->]|[[-> ->]|[_ ->]]].
  { destruct Hc as [->|[->| ->]], seen; try done; auto; (destruct (Process.p_updateCh p); [by injection Hl as _ <-; auto|done]). }
  - assert (Process.p_state p = seen) as Hst by by apply Process.seen_timed.
    assert (∃ a, Process.onTimer e p = Ret (a, p')) as [a Hr].
    { destruct Hsn as [-> | ->]; apply bind_Ret in Hl as (a & ? & Hl & [= _ <-]); by exists a. }
    pose proof (hush_onTimer _ _ _ _ Hr) as Hh.
    apply (onTimer_cases e view name) in Hr as [Hq|[[Hb Hm]|(Hrd & Hn' & Hn & Hs' & Hv)]]; [by apply Hcalm| | |done|by rewrite Hst].
    + rewrite (Process.moved_view _ _ _ view Hm), (sentOn_hush _ _ _ Hh). split; [|constructor].
      eapply (procOk_moved (Process.mkSystem p view name (Process.LSelect seen))); [done..| | |done|by intros [?|?]]; cbn; by rewrite Hb.
    + rewrite Hv, (sentOn_hush _ _ _ Hh). split; [|constructor].
      assert (st = Some (nkey p)) by (apply ok_stream0, IsReadyOrBusy_spec; auto).
      eapply (procOk_keep (Process.mkSystem p view name (Process.LSelect seen))); [done|done|done|cbn..]; try done.
      intros r Hr Hf. specialize (ok_fresh0 r Hr Hf). congruence.
  - assert (Process.p_state p = Process.busy) as Hst by (apply Process.seen_timed in ok_seen0; auto).
    destruct (Process.p_respCh p) as [|resp rest]; [done|]. apply bind_Ret in Hl as (? & ? & [= <- <-] & Hl).
    apply bind_Ret in Hl as (? & p1 & Hl & [= _ ->]).
    assert (hush p p') as Hh by (etrans; [by apply (hush_same p (Process.set_respCh rest p))|by eapply hush_handleTxResp]).
    apply Process.handleTxResp_moved in Hl as Hm.
    assert (Process.moved Process.ready p p') as Hm'.
    { eapply Process.calm_moved; [|exact Hm]. by apply Process.calm_same. }
    rewrite (Process.moved_view _ _ _ view Hm'), (sentOn_hush _ _ _ Hh). split; [|constructor].
    eapply (procOk_moved (Process.mkSystem p view name (Process.LSelect Process.busy))); [done..| | |done|]; cbn; [by rewrite Hst..|].
    intros _. apply ok_stream0, IsReadyOrBusy_spec; auto.
  - apply Hcalm; [by apply Process.calm_same|by apply hush_same].
Qed.

Lemma ps_exit_ok p view name seen r1 x r2 ch sel st e h b p' l :
  Process.handleProcessExit e x h p = Ret (b, p') → l = Process.LHead ∨ l = Process.LOff →
  procOk (mkProc (Process.mkSystem p view name (Process.LSelect seen)) (r1 ++ RExit x :: r2) ch sel st) →
  procOk (mkProc (Process.mkSystem p' (Process.viewAfter view (Process.effects p p')) name l)
    (r1 ++ r2 ++ starts (Process.effects p p')) ch sel st) ∧ sentOk (sentOn st p p').
Proof.
  intros Hr Hl Hok. pose proof Hok as []. cbn in *. destruct (runs_split _ _ _ ok_runs0) as [-> ->]. cbn [app].
  pose proof (handleProcessExit_starts _ _ _ _ _ _ Hr) as (o & Ho & Hsend & Hstart).
  unfold sentOn. rewrite (Process.effects_app _ _ o Ho), Hsend. split; [|constructor].
  assert (∃ st0, Process.moved st0 p p' ∧ (st0 = Process.p_state p ∨ st0 = Process.created ∧
    Process.p_state p ≠ Process.idle)) as (st0 & Hm & Hst0).
  { apply Process.handleProcessExit_moved in Hr as [Hc|[Hm Hst]]; [by eauto|].
    exists Process.created. split; [done|]. right. split; [done|]. by destruct Hst as [->|[->| ->]]. }
  assert (Process.viewAfter view o = view) as ->.
  { rewrite <-(Process.effects_app _ _ o Ho). by eapply Process.moved_view. }
  destruct Hm as (Hn & Hs & _).
  eapply (procOk_keep (Process.mkSystem p view name (Process.LSelect seen))); [done|done|cbn..].
  - by destruct Hstart as [->|[-> _]]; cbn; lia.
  - intros r Hrr Hf. destruct Hstart as [E|(E & Hcr & _)]; rewrite E in Hrr; [by apply not_elem_of_nil in Hrr|done].
  - intros k Hk. destruct Hstart as [E|(E & _)]; rewrite E in Hk; [by apply not_elem_of_nil in Hk|].
    apply list_elem_of_singleton in Hk. done.
  - rewrite IsReadyOrBusy_spec, Hs. destruct Hst0 as [->|[-> _]]; [|by intros [?|?]].
    intros ?. apply ok_stream0. by apply IsReadyOrBusy_spec.
  - rewrite Hs. destruct Hst0 as [->|[-> _]]; done.
  - intros Hv. rewrite Hs. destruct Hst0 as [->|[_ Hni]]; [by auto|]. by apply ok_view0 in Hv.
  - by destruct Hl as [->| ->].
  - by destruct Hl as [->| ->].
Qed.

(** A hand-over renames the process, with or without success. *)
Lemma ChangeSandbox_cases e c n v name' p er p' : Process.ChangeSandbox e c n v name' p = Ret (er, p') →
  (er ≠ None ∧ Process.p_state p' = Process.p_state p ∧ nkey p' = nkey p ∧
    Process.p_processName p' = Process.p_processName p ∧
    (Process.p_group p' = Process.p_group p ∨ Process.p_group p' = None)) ∨
  (Process.p_state p = Process.idle ∧ Process.p_state p' = (if er is None then Process.changing else Process.idle) ∧
    nkey p' = contractKey c n v ∧ Process.p_processName p' = name' ∧ Process.p_group p' = Some (mkGroupKey c n v)).
Proof.
  intros Hr. unfold Process.ChangeSandbox, Process.resetContext in Hr. minv; simplify_eq.
  - left. split_and!; try done. by left.
  - match goal with Hq : Process.killProcess _ _ _ = _ |- _ => apply Process.calm_kill in Hq as (Hn & Hs & _) end.
    right. assert (Process.p_state p = Process.idle) as Hst by by apply dec_stable.
    cbn in Hs. rewrite (names_nkey _ _ Hn), (names_group _ _ Hn), (Process.names_name _ _ Hn), Hs. by split_and!.
  - match goal with Hq : Process.killProcess _ _ _ = _ |- _ => apply Process.calm_kill in Hq as (Hn & Hs & _) end.
    match goal with Hq : Process.updateProcessState _ _ = _ |- _ => apply Process.update_moved in Hq as (Hn' & Hs' & _) end.
    right. assert (Process.p_state p = Process.idle) as Hst by by apply dec_stable. rewrite Hn in Hn'.
    rewrite (names_nkey _ _ Hn'), (names_group _ _ Hn'), (Process.names_name _ _ Hn'), Hs'. by split_and!.
  - left. split_and!; try done. by right.
Qed.

Lemma CloseSandbox_cases e p er p' : Process.CloseSandbox e p = Ret (er, p') → Process.names p' = Process.names p ∧
  (er ≠ None ∧ Process.p_state p' = Process.p_state p ∨
   er = None ∧ Process.p_state p = Process.idle ∧ Process.p_state p' = Process.closing).
Proof.
  intros Hr. unfold Process.CloseSandbox in Hr. minv; simplify_eq; [by auto| |].
  all: match goal with Hq : Process.killProcess _ _ _ = _ |- _ => apply Process.calm_kill in Hq as (Hn & Hs & _) end.
  - auto.
  - match goal with Hq : Process.updateProcessState _ _ = _ |- _ => apply Process.update_moved in Hq as (Hn' & Hs' & _) end.
    split; [congruence|]. right. split_and!; try done. by apply dec_stable.
Qed.

(** A process that leaves [idle] because of its manager has no sandbox that is about to register. *)
Lemma idle_no_fresh sy runs ch sel st r : procOk (mkProc sy runs ch sel st) →
  Process.p_state (Process.y_p sy) = Process.idle → r ∈ runs → fresh r = true → False.
Proof. intros [] Hst Hr Hf. cbn in *. specialize (ok_fresh0 r Hr Hf). congruence. Qed.

Lemma procOk_renamed sy runs ch sel st p' view' name' l' runs' k :
  procOk (mkProc sy runs ch sel st) → Process.p_state (Process.y_p sy) = Process.idle →
  nkey p' = gkey k → Process.p_group p' = Some k →
  (Process.p_state p' = Process.changing ∧ view' ≠ Process.PMIdle ∨
   Process.p_state p' = Process.idle ∧ Process.p_processName p' ≠ name') →
  Process.listener_ok l' (Process.p_state p') → (length runs' ≤ 1)%nat → (∀ r, r ∈ runs' → fresh r = true → False) →
  procOk (mkProc (Process.mkSystem p' view' name' l') runs' (txChOf p' ch) sel st).
Proof.
  intros Hok Hst Hk Hg Hst' Hl Hr Hf. split; cbn.
  - done.
  - intros r Hr' Hf'. by destruct (Hf r).
  - intros k' Hk'. by destruct (Hf (RRun k' false)).
  - rewrite IsReadyOrBusy_spec. destruct Hst' as [[-> _]|[-> _]]; by intros [?|?].
  - destruct Hst' as [[-> _]|[-> ?]]; done.
  - destruct Hst' as [[_ ?]|[? _]]; done.
  - done.
  - unfold txChOf. by rewrite Hg.
  - intros ->. cbn in Hl. destruct Hst' as [[E _]|[E _]]; rewrite E in Hl; by destruct Hl as [?|[[? _]|[? _]]].
  - intros k'. rewrite Hg. by intros [= <-].
Qed.

Lemma ps_change_ok p name l runs ch sel st e c n v name' er p' :
  name' ≠ name → Process.ChangeSandbox e c n v name' p = Ret (er, p') →
  procOk (mkProc (Process.mkSystem p Process.PMIdle name l) runs ch sel st) →
  procOk (mkProc (if er is None then Process.mkSystem p' Process.PMBusy name' l else Process.mkSystem p' Process.PMIdle name l)
    runs (txChOf p' ch) sel st).
Proof.
  intros Hne Hr Hok. apply ChangeSandbox_cases in Hr as [(Her & Hs & Hk & Hn & Hg)|(Hst & Hs & Hk & Hn & Hg)].
  - destruct er; [|done]. destruct Hok. cbn in *. split; cbn; rewrite ?Hs, ?Hk, ?Hn; try done.
    + intros Hr. apply ok_stream0. rewrite IsReadyOrBusy_spec in *. by rewrite <-Hs.
    + unfold txChOf. destruct Hg as [-> | ->]; [|done]. destruct (Process.p_group p); [by apply ok_group0|done].
    + intros k. destruct Hg as [-> | ->]; [|done]. apply ok_group0.
  - assert (∀ r, r ∈ runs → fresh r = true → False) as Hf by (intros r; by eapply idle_no_fresh).
    assert (Process.listener_ok l Process.idle) as Hl by (rewrite <-Hst; apply (ok_seen _ Hok)).
    pose proof (ok_runs _ Hok) as Hlen.
    destruct er; (eapply procOk_renamed with (sy := Process.mkSystem p Process.PMIdle name l) (k := mkGroupKey c n v);
      [exact Hok|done|exact Hk|done| | |done|exact Hf]).
    + right. by rewrite Hn.
    + by rewrite Hs.
    + by left.
    + rewrite Hs. apply Process.listener_change; auto.
Qed.

Lemma ps_close_ok p name l runs ch sel st e er p' :
  Process.CloseSandbox e p = Ret (er, p') →
  procOk (mkProc (Process.mkSystem p Process.PMIdle name l) runs ch sel st) →
  procOk (mkProc (Process.mkSystem p' (if er is None then Process.PMGone else Process.PMIdle) name l) runs ch sel st).
Proof.
  intros Hr Hok. pose proof Hok as []. cbn in *. specialize (ok_view0 eq_refl).
  apply CloseSandbox_cases in Hr as (Hn & [[Her Hs]|(-> & Hst & Hs)]).
  - destruct er; [|done]. eapply (procOk_keep (Process.mkSystem p Process.PMIdle name l)); [done|done|done|cbn..]; rewrite ?Hs; auto.
    rewrite IsReadyOrBusy_spec, Hs, ok_view0. by intros [?|?].
  - assert (∀ r, r ∈ runs → fresh r = true → False) as Hf by (intros r; by eapply idle_no_fresh).
    rewrite Hst in ok_seen0.
    eapply (procOk_keep (Process.mkSystem p Process.PMIdle name l)); [done|done|done|cbn..]; rewrite ?Hs; try done.
    + intros r Hr Hf'. by destruct (Hf r).
    + rewrite IsReadyOrBusy_spec, Hs. by intros [?|?].
    + apply Process.listener_change; auto.
Qed.

(** An exit handled in the middle of a hand-over or a close starts nothing. *)
Lemma raced_exit e x h p p1 b p2 p3 st a a' :
  Process.p_state p1 = Process.idle → Process.p_outbox p1 = Process.p_outbox p →
  Process.killProcess e Process.SIGTERM p1 = Ret (a, p2) → Process.handleProcessExit e x h p2 = Ret (b, p3) →
  ∀ p', Process.updateProcessState st p3 = Ret (a', p') →
  Process.names p' = Process.names p1 ∧ Process.p_state p' = st ∧
  sends (Process.effects p p') = [] ∧ starts (Process.effects p p') = [].
Proof.
  intros Hst Hout Hk He p' Hu.
  pose proof (Process.calm_kill _ _ _ _ _ Hk) as (N2 & S2 & _). pose proof (Process.update_moved _ _ _ _ Hu) as (N4 & S4 & _).
  pose proof (hush_kill _ _ _ _ _ Hk) as (l2 & O2 & Q2 & T2). pose proof (hush_update _ _ _ _ Hu) as (l4 & O4 & Q4 & T4).
  pose proof (handleProcessExit_starts _ _ _ _ _ _ He) as (l3 & O3 & Q3 & T3).
  assert (Process.names p3 = Process.names p2) as N3.
  { apply Process.handleProcessExit_moved in He as [(? & _)|[(? & _) _]]; done. }
  assert (starts l3 = []) as T3'. { destruct T3 as [?|(_ & _ & [E|E])]; [done|rewrite S2, Hst in E; done..]. }
  rewrite (Process.effects_app p p' (l2 ++ l3 ++ l4)) by (by rewrite O4, O3, O2, Hout, <-!app_assoc).
  unfold sends, starts in *. rewrite !omap_app, Q2, Q3, Q4, T2, T3', T4. split_and!; [congruence|done..].
Qed.

Lemma ps_change_raced_ok p name r1 x r2 ch sel st e c n v name' h b p' :
  Process.changeRaced e c n v name' x h p = Ret (b, p') →
  procOk (mkProc (Process.mkSystem p Process.PMIdle name (Process.LSelect Process.idle)) (r1 ++ RExit x :: r2) ch sel st) →
  procOk (mkProc (Process.mkSystem p' Process.PMBusy name' (if b then Process.LOff else Process.LHead))
    (r1 ++ r2 ++ starts (Process.effects p p')) (txChOf p' ch) sel st) ∧ sentOk (sentOn st p p').
Proof.
  intros Hr Hok. destruct (runs_split _ _ _ (ok_runs _ Hok)) as [-> ->].
  unfold Process.changeRaced, Process.resetContext in Hr. minv; simplify_eq.
  assert (Process.p_state p = Process.idle) as Hst by by apply dec_stable.
  set (p1 := Process.set_names _ _ _ _ _ _) in *.
  assert (Process.names p' = Process.names p1 ∧ Process.p_state p' = Process.changing ∧
    sends (Process.effects p p') = [] ∧ starts (Process.effects p p') = []) as (Hn & Hs & Hse & Hta).
  { eapply (raced_exit e x h p p1); [done|done|eassumption..]. }
  unfold sentOn. rewrite Hse, Hta. split; [|constructor].
  eapply procOk_renamed with (k := mkGroupKey c n v); [exact Hok|exact Hst| | | | |cbn; lia|].
  - by rewrite (names_nkey _ _ Hn).
  - by rewrite (names_group _ _ Hn).
  - by left.
  - by case_match.
  - cbn. intros r Hin. by apply not_elem_of_nil in Hin.
Qed.

Lemma ps_close_raced_ok p name r1 x r2 ch sel st e h b p' :
  Process.closeRaced e x h p = Ret (b, p') →
  procOk (mkProc (Process.mkSystem p Process.PMIdle name (Process.LSelect Process.idle)) (r1 ++ RExit x :: r2) ch sel st) →
  procOk (mkProc (Process.mkSystem p' Process.PMGone name (if b then Process.LOff else Process.LHead))
    (r1 ++ r2 ++ starts (Process.effects p p')) ch sel st) ∧ sentOk (sentOn st p p').
Proof.
  intros Hr Hok. destruct (runs_split _ _ _ (ok_runs _ Hok)) as [-> ->].
  unfold Process.closeRaced in Hr. minv; simplify_eq.
  assert (Process.p_state p = Process.idle) as Hst by by apply dec_stable.
  assert (Process.names p' = Process.names p ∧ Process.p_state p' = Process.closing ∧
    sends (Process.effects p p') = [] ∧ starts (Process.effects p p') = []) as (Hn & Hs & Hse & Hta).
  { eapply (raced_exit e x h p p); [done|done|eassumption..]. }
  unfold sentOn. rewrite Hse, Hta. split; [|constructor].
  eapply (procOk_keep (Process.mkSystem p Process.PMIdle name (Process.LSelect Process.idle))); [exact Hok|done|cbn..]; rewrite ?Hs; try done.
  - lia.
  - intros r Hin. by apply not_elem_of_nil in Hin.
  - intros k Hin. by apply not_elem_of_nil in Hin.
  - rewrite IsReadyOrBusy_spec, Hs. by intros [?|?].
  - by case_match.
  - by case_match.
Qed.

Lemma ps_launch_ok sy r1 r2 ch sel st e o x p' :
  Process.launchProcess e o (Process.y_p sy) = Ret (x, p') → procOk (mkProc sy (r1 ++ RStart :: r2) ch sel st) →
  procOk (mkProc (Process.mkSystem p' (Process.y_view sy) (Process.y_name sy) (Process.y_listener sy))
    (r1 ++ launched o x (Process.y_p sy) :: r2) ch sel st).
Proof.
  intros Hl Hok. destruct (runs_split _ _ _ (ok_runs _ Hok)) as [-> ->]. cbn [app] in *.
  apply Process.calm_launch in Hl as Hc. apply (procOk_calm _ _ _ _ _ _ Hok) in Hc as Hok'. destruct Hok'. cbn in *.
  destruct Hc as (Hn & Hs & _). split; cbn; try done.
  - intros r Hr Hf. apply list_elem_of_singleton in Hr as ->. apply (ok_fresh0 RStart); [by left|done].
  - intros k Hk. apply list_elem_of_singleton in Hk. unfold launched in Hk.
    destruct o; try done. destruct (Process.p_group (Process.y_p sy)) as [g|] eqn:Hg; [|done]. injection Hk as ->.
    apply ok_group0. by rewrite (names_group _ _ Hn).
Qed.

Lemma ps_stream_ok sy r1 k r2 ch sel st p' :
  Process.SetStream (Process.y_p sy) = Ret (tt, p') → procOk (mkProc sy (r1 ++ RRun k false :: r2) ch sel st) →
  procOk (mkProc (Process.mkSystem p' (Process.y_view sy) (Process.y_name sy) (Process.y_listener sy))
    (r1 ++ RRun k true :: r2) ch sel (Some k)).
Proof.
  intros Hl Hok. destruct (runs_split _ _ _ (ok_runs _ Hok)) as [-> ->]. cbn [app] in *. pose proof Hok as []. cbn in *.
  unfold Process.SetStream in Hl. apply (Process.move_then Process.ready) in Hl as (Hn & Hs & _);
    [|intros ?; Process.calm_tac].
  assert (Process.p_state (Process.y_p sy) = Process.created) as Hst by (apply (ok_fresh0 (RRun k false)); [by left|done]).
  assert (k = nkey (Process.y_p sy)) as -> by (apply ok_key0; by left).
  eapply (procOk_keep sy); [exact Hok|done|cbn; lia|cbn..]; rewrite ?Hs; try done.
  - intros r Hr Hf. by apply list_elem_of_singleton in Hr as ->.
  - intros k Hk. by apply list_elem_of_singleton in Hk.
  - intros Hv. apply ok_view0 in Hv. congruence.
  - rewrite Hst in ok_seen0. destruct (Process.y_listener sy) as [| |seen]; [done..|]. cbn in *.
    destruct ok_seen0 as [->|[[_ ?]|[_ [?|?]]]]; [|done..]. right. by left.
Qed.

Lemma and_mid (A B C : Prop) : B → A ∧ C → A ∧ B ∧ C.
Proof. tauto. Qed.

Lemma procStep_ok q s q' s' l : procStep q s q' s' l → schedOk s → procOk q → procOk q' ∧ schedOk s' ∧ sentOk l.
Proof.
  intros Hst Hs Hok. destruct Hst.
  - split_and!; [|done|constructor]. destruct Hok. cbn in *. split; cbn; try done. by left.
  - apply and_mid; [by eapply taken_ok|]. by eapply ps_tx_ok.
  - apply and_mid; [done|]. by eapply ps_event_ok.
  - apply and_mid; [by eapply takenOpt_ok|].
    unfold Process.listenProcess in H1. apply bind_Ret in H1 as (? & ? & [= <- <-] & H1).
    assert (Process.handleProcessExit e x h p = Ret (b, p')) as He by by destruct seen.
    eapply ps_exit_ok; [exact He|destruct (_ || _); auto|exact Hok].
  - split_and!; [by eapply ps_launch_ok|done|constructor].
  - split_and!; [|done|constructor]. destruct (runs_split _ _ _ (ok_runs _ Hok)) as [-> ->]. destruct Hok. cbn in *.
    split; cbn; try done.
    + intros r Hr Hf. by apply list_elem_of_singleton in Hr as ->.
    + intros k' Hk. by apply list_elem_of_singleton in Hk.
  - split_and!; [by eapply ps_stream_ok|done|constructor].
  - split_and!; [by eapply ps_change_ok|done|constructor].
  - apply and_mid; [by eapply takenOpt_ok|]. by eapply ps_change_raced_ok.
  - split_and!; [by eapply ps_close_ok|done|constructor].
  - apply and_mid; [by eapply takenOpt_ok|]. by eapply ps_close_raced_ok.
  - split_and!; [|done|constructor]. apply procOk_calm; [done|].
    destruct H as [[m Hm]|[Hm|[_ ->]]]; [by eapply Process.calm_put|by eapply Process.calm_resume|by apply Process.calm_same].
Qed.

Section theorem.
Context `{ProtocolConsts}.

Definition flowOk (f : flow) : Prop := schedOk (f_sched f) ∧ Forall procOk (f_procs f) ∧ sentOk (f_sent f).

Lemma flowStep_ok f f' : flowStep f f' → flowOk f → flowOk f'.
Proof.
  intros Hst (Hs & Hp & Hl). destruct Hst; unfold flowOk; cbn in *; split_and!; try done.
  - by eapply PutMsg_ok.
  - by eapply loopStep_ok.
  - apply groupLoop_ok in H1 as [Hk Hg]; [by eapply schedOk_set|by eapply schedOk_at].
  - apply groupPut_ok in H2 as [Hk Hg]; [by eapply schedOk_set| |by eapply schedOk_at]. intros m Hm Hty. by destruct (H1 m).
  - eapply schedOk_set; [done..|]. change (groupOk g). by eapply schedOk_at.
  - apply Forall_app. split; [done|]. constructor; [|done]. unfold Process.NewProcess in H0. case_match; [|done].
    injection H0 as <-. split; cbn; try done.
    + intros k Hk. by apply list_elem_of_singleton in Hk.
    + by intros k [= <-].
  - pose proof (Forall_lookup_1 _ _ _ _ Hp H0) as Hq. by apply (procStep_ok _ _ _ _ _ H1 Hs Hq).
  - pose proof (Forall_lookup_1 _ _ _ _ Hp H0) as Hq. destruct (procStep_ok _ _ _ _ _ H1 Hs Hq) as (? & _ & _).
    by apply Forall_insert.
  - pose proof (Forall_lookup_1 _ _ _ _ Hp H0) as Hq. apply Forall_app. split; [done|].
    by apply (procStep_ok _ _ _ _ _ H1 Hs Hq).
Qed.

Lemma reachable_ok f : rtc flowStep NewFlow f → flowOk f.
Proof.
  intros Hr. remember NewFlow as f0 eqn:E.
  assert (flowOk f0) as H0 by (subst; split_and!; [split_and!; [apply map_Forall_empty|constructor..]|constructor..]).
  clear E. induction Hr; eauto using flowStep_ok.
Qed.

(** The transactions the processes find in the channels of the groups are requests of the groups' contracts. *)
Lemma channel_txs f i g b tx : rtc flowStep NewFlow f → groupAt (f_sched f) i = Some g → tx ∈ RequestGroup.GetTxCh b g →
  groupTx g (tp_Tx tx).
Proof.
  intros (Hs & _ & _)%reachable_ok Hi Htx. destruct (schedOk_at _ _ _ Hs Hi) as [_ Ho].
  unfold own, held in Ho. rewrite !Forall_app in Ho. destruct Ho as (_ & H1 & H2).
  rewrite Forall_forall in H1, H2. unfold RequestGroup.GetTxCh, RequestGroup.controller in Htx.
  destruct b; [apply H1|apply H2]; by apply list_elem_of_fmap_2.
Qed.

(** A process has at most one sandbox at a time: never is a second command started before the exit of the
    first has been handled, and a sandbox that has not registered yet finds its process in the state
    [created]. *)
Theorem one_sandbox_at_a_time f i q :
  rtc flowStep NewFlow f → f_procs f !! i = Some q →
  (length (q_runs q) ≤ 1)%nat ∧
  ∀ r, r ∈ q_runs q → fresh r = true → Process.p_state (Process.y_p (q_sys q)) = Process.created.
Proof.
  intros (_ & Hp & _)%reachable_ok Hi. destruct (Forall_lookup_1 _ _ _ _ Hp Hi). split; [done|by apply ok_fresh0].
Qed.

(** [C7] A sandbox is only ever sent the transactions of its own contract. In every reachable state of the
    scheduler, the groups and the processes together, whatever messages arrive, however sandboxes die,
    register and are handed over to other contracts (with or without success), and although a listener
    may wait on the channel of a contract its process no longer serves: every message for a sandbox goes to
    one that has registered, and is a request of the chain, contract and version whose key names the
    executable that this sandbox was launched from. *)
Theorem sandbox_runs_own_contract f st m :
  rtc flowStep NewFlow f → (st, m) ∈ f_sent f →
  ∃ rq, m_Request m = Some rq ∧ st = Some (contractKey (rq_ChainId rq) (rq_ContractName rq) (rq_ContractVersion rq)).
Proof.
  intros (_ & _ & Hl)%reachable_ok Hm. unfold sentOk in Hl. rewrite Forall_forall in Hl.
  destruct (Hl _ Hm) as (k & Hst & Hk). cbn in Hst, Hk. unfold txKey in Hk.
  destruct (m_Request m) as [rq|] eqn:E; [|done]. exists rq. split; [done|]. cbn in Hk. by rewrite Hst, <-Hk.
Qed.
End theorem.

(** *** Witness: a transaction from the chain to the sandbox *)

Definition retS {A S} (o : outcome (A * S)) (d : S) : S := match o with Ret (_, s) => s | _ => d end.

Definition w_tx : DockerVMMessage := sampleTx "t1" "a".
Definition w_put : RequestScheduler := Eval vm_compute in retS (PutMsg (AnyDockerVM w_tx) NewRequestScheduler) NewRequestScheduler.
Definition w_routed : RequestScheduler := Eval vm_compute in retS (loopStep (λ _, None) (H := openCM) ChTx w_put) w_put.
Definition w_group : RequestGroup.RequestGroup :=
  Eval vm_compute in default (RequestGroup.NewRequestGroup "" "" "") (groupAt w_routed (inl "chain1#a#v1")).
Definition w_buffered : RequestGroup.RequestGroup :=
  Eval vm_compute in retS (RequestGroup.loopStep (H := sampleConsts) RequestGroup.sampleEnv RequestGroup.ChTx w_group) w_group.
Definition w_answered : RequestGroup.RequestGroup :=
  Eval vm_compute in retS (RequestGroup.PutMsg (AnyDockerVM (RequestGroup.sampleReady OK)) w_buffered) w_buffered.
Definition w_ready : RequestGroup.RequestGroup :=
  Eval vm_compute in retS (RequestGroup.loopStep (H := sampleConsts) RequestGroup.sampleEnv RequestGroup.ChTx w_answered) w_answered.

Definition w_new : Proc :=
  Eval vm_compute in default Process.sampleProcess
    (Process.NewProcess openScheduler (Users.NewUser 10000) "chain1" "a" "v1" "p1" true).
Definition w_launched : Proc := Eval vm_compute in retS (Process.launchProcess Process.sampleEnv Process.LRuns w_new) w_new.
Definition w_stream : Proc := Eval vm_compute in retS (Process.SetStream w_launched) w_launched.
Definition w_payload : TxPayload := Eval vm_compute in default (mkTxPayload w_tx 0) (head (RequestGroup.GetTxCh true w_ready)).
Definition w_busy : Proc :=
  Eval vm_compute in retS (Process.listenProcess Process.sampleEnv Process.ready (Process.ChTx w_payload) w_stream) w_stream.

Definition w_sched : RequestScheduler := setGroup (inl "chain1#a#v1") w_ready w_routed.
Definition w_proc (p : Proc) (l : Process.listener) (r : run) (st : option string) : proc :=
  mkProc (Process.mkSystem p Process.PMBusy "p1" l) [r] "chain1#a#v1" "chain1#a#v1" st.
Definition w_taken : RequestScheduler := setGroup (inl "chain1#a#v1") (takeTx true [] w_ready) w_sched.

Definition w_flow : flow :=
  mkFlow w_taken [w_proc w_busy Process.LHead (RRun "chain1#a#v1" true) (Some "chain1#a#v1")]
    (sentOn (Some "chain1#a#v1") w_stream w_busy).

Lemma w_flow_reachable : rtc (flowStep (H := sampleConsts)) NewFlow w_flow.
Proof.
  eapply rtc_l; [apply (fl_put NewFlow (AnyDockerVM w_tx) None w_put); reflexivity|].
  eapply rtc_l; [apply (fl_loop _ (λ _, None) openCM ChTx w_routed); reflexivity|].
  eapply rtc_l; [apply (fl_group _ (inl "chain1#a#v1") w_group RequestGroup.sampleEnv RequestGroup.ChTx true w_buffered); vm_compute; reflexivity|].
  eapply rtc_l; [apply (fl_group_put _ (inl "chain1#a#v1") w_buffered (AnyDockerVM (RequestGroup.sampleReady OK)) None w_answered);
    [vm_compute; reflexivity|by intros m [= <-]|vm_compute; reflexivity]|].
  eapply rtc_l; [apply (fl_group _ (inl "chain1#a#v1") w_answered RequestGroup.sampleEnv RequestGroup.ChTx true w_ready); vm_compute; reflexivity|].
  eapply rtc_l; [apply (fl_new _ (Users.NewUser 10000) "chain1" "a" "v1" "p1" true w_new); vm_compute; reflexivity|].
  eapply rtc_l; [eapply (fl_proc _ 0); [reflexivity|];
    apply (ps_launch (Process.mkSystem w_new Process.PMBusy "p1" Process.LHead) [] [] _ _ _ _ Process.sampleEnv Process.LRuns None w_launched);
    vm_compute; reflexivity|].
  eapply rtc_l; [eapply (fl_proc _ 0); [reflexivity|];
    apply (ps_stream (Process.mkSystem w_launched Process.PMBusy "p1" Process.LHead) [] _ [] _ _ _ _ w_stream); vm_compute; reflexivity|].
  eapply rtc_l; [eapply (fl_proc _ 0); [reflexivity|]; apply ps_head|].
  eapply rtc_l; [|apply rtc_refl].
  match goal with |- flowStep ?f _ =>
    replace w_flow with (mkFlow (setGroup (inl "chain1#a#v1") (takeTx true [] w_ready) (f_sched f))
      (<[0%nat := w_proc w_busy Process.LHead (RRun "chain1#a#v1" true) (Some "chain1#a#v1")]> (f_procs f))
      (f_sent f ++ sentOn (Some "chain1#a#v1") w_stream w_busy)) by (vm_compute; reflexivity) end.
  eapply (fl_proc _ 0); [reflexivity|].
  apply (ps_tx w_stream Process.PMBusy "p1" Process.ready _ _ _ _ _ Process.sampleEnv w_payload false w_busy).
  - apply (taken_intro true _ w_payload [] (inl "chain1#a#v1") w_ready); vm_compute; reflexivity.
  - apply Process.sampleEnv_answers.
  - vm_compute. reflexivity.
Qed.

Lemma sandbox_runs_own_contract_witness :
  ∃ m, f_sent w_flow = [(Some "chain1#a#v1", m)] ∧ m_TxId m = "t1" ∧
  ∃ rq, m_Request m = Some rq ∧
    Some "chain1#a#v1" = Some (contractKey (rq_ChainId rq) (rq_ContractName rq) (rq_ContractVersion rq)).
Proof.
  eexists. split; [vm_compute; reflexivity|]. split; [reflexivity|].
  apply (sandbox_runs_own_contract (H := sampleConsts) w_flow); [apply w_flow_reachable|].
  vm_compute. constructor.
Defined.
End Flow.
