(* ===== verification/Once.v ===== *)
(** * A transaction is executed at most once

    The composition of Flow.v with an account of where requests come from: the chain, or a process that gives a
    transaction back to the scheduler. A request that was received is in one place at a time: a channel, the hands
    of a process on its way back, or a sandbox it has been sent to. *)

From S2P Require Import Prelude Messages Interfaces EngineUtils Users RequestGroup RequestScheduler Process Flow.

Module Once.
Import RequestScheduler Flow.

(** ** The requests inside the scheduler and its groups *)

Definition reqs (l : list DockerVMMessage) : list DockerVMMessage := filter (λ m, m_Type m = TX_REQUEST) l.

(** The requests of a group: in its channel, and those that have reached its loop. *)
Definition inGroup (g : RequestGroup.RequestGroup) : list DockerVMMessage := reqs (RequestGroup.r_txCh g) ++ held g.

Definition inGroups (m : gmap string RequestGroup.RequestGroup) : list DockerVMMessage := map_to_list m ≫= λ kg, inGroup kg.2.

Definition inSched (s : RequestScheduler) : list DockerVMMessage :=
  s_txCh s ++ inGroups (s_requestGroups s) ++ (s_closed s ≫= inGroup).

(** The request a message is. *)
Definition reqOf (msg : AnyMsg) : list DockerVMMessage := match msg with AnyDockerVM m => reqs [m] | _ => [] end.

Lemma perm_mid {A} (x : A) a b c : a ++ (b ++ [x]) ++ c ≡ₚ x :: a ++ b ++ c.
Proof. rewrite <-app_assoc, (app_assoc a). cbn. rewrite <-Permutation_middle. by rewrite <-app_assoc. Qed.

(** *** Groups *)

Section group.
Context `{ProtocolConsts}.

#[local] Existing Instance sameHeld_preorder.

Ltac held_tac := preserves_tac ltac:(first [done|by case_match|by split_and!]).

Lemma sameHeld_held g g' : sameHeld g g' → held g' = held g.
Proof. unfold held. by intros (-> & -> & ->). Qed.

Lemma buffer_held req g a g' : RequestGroup.buffer req g = Ret (a, g') → held g' ≡ₚ req :: held g.
Proof.
  intros Hr. unfold RequestGroup.buffer in Hr. minv. unfold held. cbn. rewrite <-app_assoc. cbn. symmetry. apply Permutation_middle.
Qed.

Lemma enqueueCh_held e req g a g' : RequestGroup.enqueueCh e req g = Ret (a, g') → held g' ≡ₚ req :: held g.
Proof.
  intros Hr. unfold RequestGroup.enqueueCh in Hr. minv. unfold held.
  match goal with b : bool |- _ => destruct b end; cbn; rewrite fmap_app; cbn.
  - apply perm_mid.
  - rewrite !app_assoc. symmetry. apply Permutation_cons_append.
Qed.

Lemma moveTxs_held e txs g a g' : RequestGroup.r_bufCh g = txs → RequestGroup.moveTxs e txs g = Ret (a, g') → held g' ≡ₚ held g.
Proof.
  revert g. induction txs as [|tx txs IH]; intros g Hb Hr; cbn [RequestGroup.moveTxs] in Hr; minv; [done|].
  match goal with Hq : RequestGroup.enqueueCh _ _ _ = Ret (_, ?g1) |- _ =>
    assert (RequestGroup.r_bufCh g1 = txs) as Hb1 by (clear - Hq; unfold RequestGroup.enqueueCh in Hq; by minv);
    apply enqueueCh_held in Hq end.
  rewrite (IH _ Hb1 Hr). etrans; [eassumption|]. unfold held. cbn. by rewrite Hb.
Qed.

Lemma getBytecodeErr_held e g a g' : RequestGroup.handleGetBytecodeErr e g = Ret (a, g') → held g' ⊆+ held g.
Proof.
  intros Hr. unfold RequestGroup.handleGetBytecodeErr in Hr.
  apply bind_Ret in Hr as (? & ? & [= <- <-] & Hr). apply bind_Ret in Hr as (? & ? & [= <- <-] & Hr).
  destruct (RequestGroup.r_bufCh _) as [|tx rest] eqn:Hb; [done|]. apply bind_Ret in Hr as (? & ? & [= <- <-] & Hr).
  match type of Hr with ?m _ = _ => assert (preserves sameHeld m) as Hk end.
  { held_tac; first [apply held_returnTxErrorResp|apply held_sendGetContractReq]. }
  rewrite (sameHeld_held _ _ (Hk _ _ _ Hr)). unfold held. cbn in Hb |- *. rewrite Hb. cbn. by apply submseteq_cons.
Qed.

Lemma contractReady_held e msg g a g' : RequestGroup.handleContractReadyResp e msg g = Ret (a, g') → held g' ⊆+ held g.
Proof.
  intros Hr. unfold RequestGroup.handleContractReadyResp, RequestGroup.handleGetBytecodeFailed in Hr.
  apply bind_Ret in Hr as (? & g1 & H1 & Hr). apply held_stopTimer, sameHeld_held in H1. rewrite <-H1. clear H1. minv.
  - by match goal with Hq : RequestGroup.handleGetBytecodeErr _ _ = _ |- _ => apply getBytecodeErr_held in Hq end.
  - match goal with Hq : RequestGroup.moveTxs _ _ _ = _ |- _ => apply moveTxs_held in Hq; [|done] end.
    repeat match goal with Hq : RequestGroup.getProcesses _ _ _ = _ |- _ => apply held_getProcesses, sameHeld_held in Hq end.
    apply Permutation_submseteq. repeat match goal with Hq : held ?a = held _ |- held ?a ≡ₚ _ => rewrite Hq end. eassumption.
Qed.

Lemma onTx_held e msg g a g' : RequestGroup.onTx e msg g = Ret (a, g') → held g' ⊆+ reqs [msg] ++ held g.
Proof.
  intros Hr. unfold RequestGroup.onTx in Hr. unfold reqs. rewrite filter_cons, filter_nil.
  destruct (m_Type msg) eqn:Et; minv; try done; rewrite ?decide_True by done; rewrite ?decide_False by done; cbn [app].
  - match goal with Hq : RequestGroup.handleTxReq _ _ _ = _ |- _ => unfold RequestGroup.handleTxReq in Hq; minv end.
    + match goal with Hq : RequestGroup.sendGetContractReq _ _ _ = _ |- _ => apply held_sendGetContractReq, sameHeld_held in Hq; rewrite Hq end.
      match goal with Hq : RequestGroup.buffer _ _ = _ |- _ => by rewrite (buffer_held _ _ _ _ Hq) end.
    + match goal with Hq : RequestGroup.buffer _ _ = _ |- _ => by rewrite (buffer_held _ _ _ _ Hq) end.
    + match goal with Hq : RequestGroup.putTxReqToCh _ _ _ = _ |- _ => unfold RequestGroup.putTxReqToCh in Hq; minv end;
        by apply submseteq_cons.
    + match goal with Hq : RequestGroup.getProcesses _ _ _ = _ |- _ => apply held_getProcesses, sameHeld_held in Hq; rewrite Hq end.
      match goal with Hq : RequestGroup.putTxReqToCh _ _ _ = _ |- _ => unfold RequestGroup.putTxReqToCh in Hq; minv end.
      match goal with Hq : RequestGroup.enqueueCh _ _ _ = _ |- _ => by rewrite (enqueueCh_held _ _ _ _ _ Hq) end.
  - by match goal with Hq : RequestGroup.handleContractReadyResp _ _ _ = _ |- _ => apply contractReady_held in Hq end.
Qed.

(** The loop takes from the channel of the group only. *)
Lemma txCh_drop e c g b g' : RequestGroup.loopStep e c g = Ret (b, g') → ∃ k, RequestGroup.r_txCh g' = drop k (RequestGroup.r_txCh g).
Proof. intros Hl. by destruct (group_loop_rel _ _ _ _ _ Hl) as [_ ?]. Qed.

Lemma reqs_drop k l : reqs (drop k l) ⊆+ reqs l.
Proof. unfold reqs. rewrite <-(take_drop k l) at 2. rewrite filter_app. by apply submseteq_inserts_l. Qed.

(** A round of the loop of a group makes no request. *)
Lemma group_loop_less e c g b g' : RequestGroup.loopStep e c g = Ret (b, g') → inGroup g' ⊆+ inGroup g.
Proof.
  intros Hl. destruct (txCh_drop _ _ _ _ _ Hl) as [k Hk]. unfold inGroup.
  assert (c ≠ RequestGroup.ChTx → held g' ⊆+ held g) as Hheld.
  { intros Hc. clear Hk. destruct c; [| done | |]; unfold RequestGroup.loopStep in Hl; minv.
    - match goal with Hq : RequestGroup.onEvent _ _ _ = _ |- _ => apply held_onEvent, sameHeld_held in Hq; by rewrite Hq end.
    - match goal with Hq : RequestGroup.handleStopRequestGroup _ _ = _ |- _ => unfold RequestGroup.handleStopRequestGroup in Hq; minv end.
      match goal with Hq : RequestGroup.popTxs _ _ _ = _ |- _ => apply held_popTxs, sameHeld_held in Hq; by rewrite Hq end.
    - match goal with Hq : RequestGroup.handleGetBytecodeTimeout _ _ = _ |- _ => unfold RequestGroup.handleGetBytecodeTimeout in Hq; minv end.
      match goal with Hq : RequestGroup.handleGetBytecodeErr _ _ = _ |- _ => apply getBytecodeErr_held in Hq; done end. }
  assert (c = RequestGroup.ChTx ∨ c ≠ RequestGroup.ChTx) as [->|Hc] by (destruct c; auto).
  - clear Hk Hheld. unfold RequestGroup.loopStep in Hl. apply bind_Ret in Hl as (? & ? & [= <- <-] & Hl).
    destruct (RequestGroup.r_txCh g) as [|msg rest] eqn:Et; [done|]. apply bind_Ret in Hl as (? & ? & [= <- <-] & Hl).
    apply bind_Ret in Hl as (? & g1 & H1 & [= _ <-]). pose proof (quiet_onTx _ _ _ _ _ H1) as [_ [k1 Hk]].
    apply onTx_held in H1. cbn in Hk, H1. rewrite Hk. change (msg :: rest) with ([msg] ++ rest).
    unfold reqs at 2. rewrite filter_app. fold (reqs [msg]) (reqs rest).
    rewrite <-(Permutation_app_comm (reqs rest)), <-app_assoc. by apply submseteq_app; [apply reqs_drop|].
  - rewrite Hk. apply submseteq_app; [apply reqs_drop|auto].
Qed.

Lemma group_put_more msg g e g' : RequestGroup.PutMsg msg g = Ret (e, g') → inGroup g' ≡ₚ reqOf msg ++ inGroup g.
Proof.
  intros Hp. destruct msg as [m|?|?|?|?| |?|]; [apply group_put_docker in Hp as ->|unfold RequestGroup.PutMsg in Hp; by minv..].
  unfold inGroup, reqOf, reqs. cbn [RequestGroup.r_txCh RequestGroup.set_txCh]. rewrite filter_app.
  change (held (RequestGroup.set_txCh _ g)) with (held g). rewrite (Permutation_app_comm (filter _ (RequestGroup.r_txCh g))). by rewrite <-app_assoc.
Qed.
End group.

(** *** The scheduler *)

Lemma inGroups_insert m k g : m !! k = None → inGroups (<[k:=g]> m) ≡ₚ inGroup g ++ inGroups m.
Proof. intros Hn. unfold inGroups. by rewrite map_to_list_insert. Qed.

Lemma inGroups_delete m k g : m !! k = Some g → inGroups m ≡ₚ inGroup g ++ inGroups (delete k m).
Proof. intros Hk. unfold inGroups. by rewrite <-(map_to_list_delete m k g Hk). Qed.

(** One group among the requests. *)
Lemma inSched_group s i g : groupAt s i = Some g →
  ∃ R, inSched s ≡ₚ inGroup g ++ R ∧ ∀ g', inSched (setGroup i g' s) ≡ₚ inGroup g' ++ R.
Proof.
  unfold inSched. destruct i as [key|j]; cbn; intros Hi.
  - exists (s_txCh s ++ inGroups (delete key (s_requestGroups s)) ++ (s_closed s ≫= inGroup)). split.
    + rewrite (inGroups_delete _ _ _ Hi), <-app_assoc. apply Permutation_app_swap_app.
    + intros g'. rewrite <-(insert_delete_eq (s_requestGroups s)), inGroups_insert by apply lookup_delete_eq.
      rewrite <-app_assoc. apply Permutation_app_swap_app.
  - exists (s_txCh s ++ inGroups (s_requestGroups s) ++ (take j (s_closed s) ≫= inGroup) ++ (drop (S j) (s_closed s) ≫= inGroup)).
    assert (∀ x, (take j (s_closed s) ++ x :: drop (S j) (s_closed s)) ≫= inGroup ≡ₚ
      inGroup x ++ (take j (s_closed s) ≫= inGroup) ++ (drop (S j) (s_closed s) ≫= inGroup)) as Hx.
    { intros x. rewrite bind_app, bind_cons. apply Permutation_app_swap_app. }
    assert (∀ y z, s_txCh s ++ inGroups (s_requestGroups s) ++ y ++ z ≡ₚ y ++ s_txCh s ++ inGroups (s_requestGroups s) ++ z) as Hy.
    { intros y z. rewrite (app_assoc (s_txCh s)), (app_assoc (s_txCh s) (inGroups _) z). apply Permutation_app_swap_app. }
    split.
    + rewrite <-(take_drop_middle _ _ _ Hi) at 1. rewrite Hx. apply Hy.
    + intros g'. rewrite insert_take_drop by (by eapply lookup_lt_Some). rewrite Hx. apply Hy.
Qed.

Lemma sched_put_more msg s er s' : PutMsg msg s = Ret (er, s') → inSched s' ⊆+ reqOf msg ++ inSched s.
Proof.
  intros Hp. unfold PutMsg in Hp. minv; try (by apply submseteq_inserts_l).
  unfold reqOf, reqs, inSched. cbn. rewrite decide_True by done. rewrite <-app_assoc. cbn. by rewrite <-Permutation_middle.
Qed.

Lemma groupPutMsg_more key msg s a s' : groupPutMsg key msg s = Ret (a, s') → inSched s' ≡ₚ reqOf msg ++ inSched s.
Proof.
  unfold groupPutMsg. destruct (s_requestGroups s !! key) as [g|] eqn:Eg; [|done].
  destruct (RequestGroup.PutMsg msg g) as [[e g']| |] eqn:Ep; [|done..]. intros [= _ <-].
  destruct (inSched_group s (inl key) g Eg) as (R & E1 & E2). specialize (E2 g'). cbn [setGroup] in E2.
  rewrite E2, E1, (group_put_more _ _ _ _ Ep). by rewrite app_assoc.
Qed.

Lemma handleTxReq_less req s a s' : handleTxReq req s = Ret (a, s') → inSched s' ⊆+ req :: inSched s.
Proof.
  intros Hh.
  assert (∀ key s1 a1 s2, groupPutMsg key (AnyDockerVM req) s1 = Ret (a1, s2) → inSched s2 ⊆+ req :: inSched s1) as Hput.
  { intros key s1 a1 s2 Hp. rewrite (groupPutMsg_more _ _ _ _ _ Hp). unfold reqOf, reqs. rewrite filter_cons, filter_nil.
    case_decide; [done|]. by apply submseteq_cons. }
  unfold handleTxReq in Hh. minv; try (by apply submseteq_cons); try (by eapply Hput).
  match goal with Hq : groupPutMsg ?k _ (set_groups _ ?s0) = _, Hn : s_requestGroups ?s0 !! ?k = None |- _ =>
    etrans; [by eapply Hput|]; unfold inSched; cbn; rewrite (inGroups_insert _ _ _ Hn); done end.
Qed.

Lemma handleCloseReq_less k s a s' : handleCloseReq k s = Ret (a, s') → inSched s' ⊆+ inSched s.
Proof.
  intros Hh. unfold handleCloseReq in Hh. minv; try done;
    match goal with Hq : groupPutMsg _ _ _ = _ |- _ => apply groupPutMsg_more in Hq; cbn [reqOf app] in Hq; apply Permutation_submseteq; try exact Hq end.
  etrans; [|eassumption].
  match goal with E : s_requestGroups ?s0 !! ?k = Some ?g |- _ ≡ₚ inSched ?s0 => unfold inSched; cbn; rewrite (inGroups_delete _ _ _ E) end.
  rewrite bind_app. cbn. rewrite app_nil_r. apply Permutation_app_head.
  rewrite <-app_assoc, (app_assoc (inGroups _)). apply Permutation_app_comm.
Qed.

(** The loop of the scheduler makes no request. *)
Lemma sched_loop_less chainPutMsg `{ContractManagerI} c s a s' : loopStep chainPutMsg c s = Ret (a, s') → inSched s' ⊆+ inSched s.
Proof.
  intros Hl. destruct c; unfold loopStep in Hl; minv; try done.
  - match goal with Hq : handleGetContractReq _ _ _ = _ |- _ => unfold handleGetContractReq in Hq; by minv end.
  - match goal with Hq : handleGetContractResp _ _ = _ |- _ => unfold handleGetContractResp in Hq; by minv end.
  - match goal with Hq : handleErrResp _ _ _ = _ |- _ => unfold handleErrResp in Hq; by minv end.
  - match goal with Hq : handleTxReq _ _ = _, E : s_txCh ?s0 = _ :: _ |- _ => etrans; [by eapply handleTxReq_less|]; unfold inSched; cbn; by rewrite E end.
  - match goal with Hq : handleCloseReq _ _ = _ |- _ => by apply handleCloseReq_less in Hq end.
Qed.

Lemma taken_less b key tx s s' : taken b key tx s s' → inSched s ≡ₚ tp_Tx tx :: inSched s'.
Proof.
  intros [tx' rest i g s0 Hi Hk Ht]. destruct (inSched_group s0 i g Hi) as (R & E1 & E2). rewrite E1, (E2 (takeTx b rest g)).
  rewrite app_comm_cons. apply Permutation_app_tail. unfold inGroup.
  assert (reqs (RequestGroup.r_txCh (takeTx b rest g)) = reqs (RequestGroup.r_txCh g)) as -> by by destruct b.
  rewrite Permutation_middle. apply Permutation_app_head. unfold held, takeTx.
  unfold RequestGroup.GetTxCh, RequestGroup.controller in Ht. destruct b; rewrite Ht; cbn.
  - by rewrite <-Permutation_middle.
  - rewrite !app_assoc. by rewrite <-Permutation_middle.
Qed.

Definition heads (h : option TxPayload) : list DockerVMMessage := option_list (tp_Tx <$> h).

Lemma takenOpt_less b key h s s' : takenOpt b key h s s' → inSched s ≡ₚ heads h ++ inSched s'.
Proof. destruct h; cbn; [apply taken_less|by intros ->]. Qed.

(** ** What a process does with requests *)

(** What makes a request: its key, its context and the call. *)
Definition payload (m : DockerVMMessage) : string * option CrossContext * option TxRequest :=
  (m_TxId m, m_CrossContext m, m_Request m).

(** The requests a process gives back to the scheduler, and with them those it sends. *)
Definition requeued (l : list Process.effect) : list DockerVMMessage :=
  l ≫= λ x, match x with Process.EScheduler msg => reqOf msg | _ => [] end.
Definition spent (l : list Process.effect) : list DockerVMMessage := sends l ++ requeued l.

Lemma spent_app l1 l2 : spent (l1 ++ l2) ≡ₚ spent l1 ++ spent l2.
Proof.
  unfold spent, sends, requeued. rewrite omap_app, bind_app, <-!app_assoc. apply Permutation_app_head. apply Permutation_app_swap_app.
Qed.

(** From [p] to [p'] the process has spent at most the requests [L]. *)
Definition spends (L : list DockerVMMessage) (p p' : Proc) : Prop :=
  ∃ l, Process.p_outbox p' = Process.p_outbox p ++ l ∧ payload <$> spent l ⊆+ payload <$> L.

Lemma spends_trans L1 L2 p1 p2 p3 : spends L1 p1 p2 → spends L2 p2 p3 → spends (L1 ++ L2) p1 p3.
Proof.
  intros (l1 & O1 & S1) (l2 & O2 & S2). exists (l1 ++ l2). split; [by rewrite O2, O1, app_assoc|].
  rewrite spent_app, !fmap_app. by apply submseteq_app.
Qed.

Lemma spends_weaken L L' p p' : spends L p p' → L ⊆+ L' → spends L' p p'.
Proof. intros (l & Ho & Hs) HL. exists l. split; [done|]. etrans; [done|]. by apply fmap_submseteq. Qed.

#[local] Instance spends_preorder : PreOrder (spends []).
Proof.
  split; [intros p; exists []; by rewrite app_nil_r|]. intros p1 p2 p3 H1 H2. apply (spends_trans [] []  _ _ _ H1 H2).
Qed.

Lemma spends_same p p' : Process.p_outbox p' = Process.p_outbox p → spends [] p p'.
Proof. intros E. exists []. by rewrite app_nil_r. Qed.
Lemma spends_emit x p : spent [x] = [] → spends [] p (Process.emit x p).
Proof. intros Hs. exists [x]. by rewrite Hs. Qed.

Ltac mute_tac := preserves_tac ltac:(first [by apply spends_same|by apply spends_emit]).

Lemma mute_popTimer : preserves (spends []) Process.popTimer.
Proof. unfold Process.popTimer. mute_tac. Qed.
Lemma mute_startTimer : preserves (spends []) Process.startTimer.
Proof. unfold Process.startTimer. mute_tac. apply mute_popTimer. Qed.
Lemma mute_deferredPop : preserves (spends []) Process.deferredPop.
Proof. unfold Process.deferredPop. mute_tac. apply mute_popTimer. Qed.
Lemma mute_update st : preserves (spends []) (Process.updateProcessState st).
Proof. unfold Process.updateProcessState. mute_tac; apply mute_startTimer. Qed.
Lemma mute_stream : preserves (spends []) Process.SetStream.
Proof. unfold Process.SetStream. mute_tac. apply mute_update. Qed.
Lemma mute_put m : preserves (spends []) (Process.PutMsg m).
Proof. unfold Process.PutMsg. mute_tac. Qed.
Lemma mute_resume : preserves (spends []) Process.resumeExit.
Proof. unfold Process.resumeExit. mute_tac. apply mute_deferredPop. Qed.

Section processes.
Context (e : Process.env).

Lemma mute_kill sg : preserves (spends []) (Process.killProcess e sg).
Proof. unfold Process.killProcess. mute_tac. Qed.
Lemma mute_txError id msg : preserves (spends []) (Process.returnTxErrorResp e id msg).
Proof. unfold Process.returnTxErrorResp. mute_tac. Qed.
Lemma mute_exitResp er : preserves (spends []) (Process.returnSandboxExitResp e er).
Proof. unfold Process.returnSandboxExitResp. mute_tac. Qed.
Lemma mute_badContract v : preserves (spends []) (Process.returnBadContractResp e v).
Proof. unfold Process.returnBadContractResp. mute_tac. Qed.
Lemma mute_resp m : preserves (spends []) (Process.handleTxResp e m).
Proof. unfold Process.handleTxResp. mute_tac; first [apply mute_update|apply mute_kill]. Qed.
Lemma mute_timer : preserves (spends []) (Process.onTimer e).
Proof. unfold Process.onTimer, Process.takeTimer, Process.handleTimeout. mute_tac; first [apply mute_update|apply mute_kill]. Qed.
Lemma mute_launch o : preserves (spends []) (Process.launchProcess e o).
Proof. unfold Process.launchProcess. mute_tac. Qed.
Lemma mute_change c n v name : preserves (spends []) (Process.ChangeSandbox e c n v name).
Proof. unfold Process.ChangeSandbox, Process.resetContext. mute_tac; first [apply mute_update|apply mute_kill]. Qed.
Lemma mute_close : preserves (spends []) (Process.CloseSandbox e).
Proof. unfold Process.CloseSandbox. mute_tac; first [apply mute_update|apply mute_kill]. Qed.
Lemma mute_finishExit x d : preserves (spends []) (Process.finishExit e x d).
Proof.
  unfold Process.finishExit. mute_tac; first [apply mute_txError|apply mute_exitResp|apply mute_badContract|apply mute_deferredPop].
Qed.

(** A request given back. *)
Lemma requeue_spends tx p a p' :
  (match @sched_PutMsg (Process.e_sched e) (AnyDockerVM tx) with
   | Some _ => mret tt
   | None => modifyS (Process.emit (Process.EScheduler (AnyDockerVM tx)))
   end : M Proc unit) p = Ret (a, p') → spends [tx] p p'.
Proof.
  destruct (sched_PutMsg _); intros Hr; minv.
  - eapply spends_weaken; [by apply spends_same|apply submseteq_nil_l].
  - exists [Process.EScheduler (AnyDockerVM tx)]. split; [done|]. unfold spent, requeued, reqOf, reqs. cbn.
    case_decide; [done|apply submseteq_nil_l].
Qed.

Lemma handleIdle_spends tx p a p' : Process.handleIdleTxRequest e tx p = Ret (a, p') → spends [tp_Tx tx] p p'.
Proof.
  intros Hr. unfold Process.handleIdleTxRequest in Hr. apply bind_Ret in Hr as (? & ? & [= <- <-] & Hr).
  apply bind_Ret in Hr as (? & p1 & H1 & Hr). apply bind_Ret in Hr as (? & p2 & H2 & [= _ <-]).
  apply (spends_trans [] [tp_Tx tx] p p1); [|by eapply requeue_spends].
  match type of H1 with ?m _ = _ => assert (preserves (spends []) m) as Hk end; [mute_tac; apply mute_update|by eapply Hk].
Qed.

Lemma handleTxRequest_spends tx p a p' : Process.handleTxRequest e tx p = Ret (a, p') → spends [tp_Tx tx] p p'.
Proof.
  intros Hr. unfold Process.handleTxRequest in Hr. cbv zeta in Hr.
  minv; try (eapply spends_weaken; [by apply spends_same|apply submseteq_nil_l]).
  match goal with Hq : Process.updateProcessState _ _ = Ret (_, ?p1) |- _ => apply mute_update in Hq; apply (spends_trans [] [tp_Tx tx] p p1); [exact Hq|] end.
  unfold Process.sendMsg in Hr. minv; [eapply spends_weaken; [by apply spends_same|apply submseteq_nil_l]|].
  match goal with |- context [Process.ESandbox ?m] => exists [Process.ESandbox m] end. done.
Qed.

Lemma decideExit_spends x h p a p' : Process.decideExit e x h p = Ret (a, p') → spends (heads h) p p'.
Proof.
  intros Hr. unfold Process.decideExit in Hr. cbv zeta in Hr. apply bind_Ret in Hr as (? & ? & [= <- <-] & Hr).
  destruct (decide (_ = ContractExecError)); [|destruct (decide (_ = ContractNotExistError))].
  - destruct h; minv; (eapply spends_weaken; [by apply spends_same|apply submseteq_nil_l]).
  - destruct h as [tx|]; [|minv; by apply spends_same]. apply bind_Ret in Hr as (? & ? & [= <- <-] & Hr).
    apply bind_Ret in Hr as (? & p2 & H2 & [= _ <-]). by apply requeue_spends in H2.
  - match type of Hr with ?m _ = _ => assert (preserves (spends []) m) as Hk end; [mute_tac; apply mute_update|].
    eapply spends_weaken; [by eapply Hk|apply submseteq_nil_l].
Qed.

Lemma handleProcessExit_spends x h p a p' : Process.handleProcessExit e x h p = Ret (a, p') → spends (heads h) p p'.
Proof.
  intros Hr. unfold Process.handleProcessExit in Hr. apply bind_Ret in Hr as (d & p1 & H1 & Hr).
  apply bind_Ret in Hr as (? & p2 & H2 & [= _ <-]). rewrite <-(app_nil_r (heads h)).
  eapply spends_trans; [by eapply decideExit_spends|by eapply mute_finishExit].
Qed.

(** The requests a round of the listener receives. *)
Definition received (c : Process.choice) : list DockerVMMessage :=
  match c with Process.ChTx tx => [tp_Tx tx] | Process.ChExit _ h => heads h | _ => [] end.

Lemma listen_spends seen c p b p' : Process.listenProcess e seen c p = Ret (b, p') → spends (received c) p p'.
Proof.
  intros Hr. unfold Process.listenProcess in Hr. apply bind_Ret in Hr as (? & ? & [= <- <-] & Hr).
  assert (∀ m : M Proc bool, preserves (spends []) m → m p = Ret (b, p') → spends [] p p') as Hm by (intros m Hk; apply Hk).
  destruct c as [tx| | |x h|]; cbn [received].
  - destruct seen; try done.
    + apply bind_Ret in Hr as (er & p1 & H1 & Hr). apply handleTxRequest_spends in H1.
      apply (spends_trans [tp_Tx tx] [] p p1); [done|]. destruct er; [|minv; reflexivity].
      apply bind_Ret in Hr as (? & p2 & H2 & [= _ <-]). by apply mute_txError in H2.
    + apply bind_Ret in Hr as (? & p1 & H1 & [= _ <-]). by apply handleIdle_spends in H1.
  - destruct seen; try done; (eapply Hm; [|exact Hr]); mute_tac; apply mute_timer.
  - destruct seen; try done. (eapply Hm; [|exact Hr]). mute_tac. apply mute_resp.
  - assert (Process.handleProcessExit e x h p = Ret (b, p')) as He by by destruct seen. by apply handleProcessExit_spends in He.
  - destruct seen; try done; (eapply Hm; [|exact Hr]); mute_tac.
Qed.

Lemma changeRaced_spends c n v name x h p b p' : Process.changeRaced e c n v name x h p = Ret (b, p') → spends (heads h) p p'.
Proof.
  intros Hr. unfold Process.changeRaced, Process.resetContext in Hr. minv.
  all: match goal with Hk : Process.killProcess _ _ _ = Ret (_, ?p1), He : Process.handleProcessExit _ _ _ _ = Ret (_, ?p2),
    Hu : Process.updateProcessState _ _ = _ |- _ => apply mute_kill in Hk; apply handleProcessExit_spends in He; apply mute_update in Hu;
    rewrite <-(app_nil_r (heads h)); apply (spends_trans _ [] _ p2); [apply (spends_trans [] (heads h) _ p1); [exact Hk|exact He]|exact Hu] end.
Qed.

Lemma closeRaced_spends x h p b p' : Process.closeRaced e x h p = Ret (b, p') → spends (heads h) p p'.
Proof.
  intros Hr. unfold Process.closeRaced in Hr. minv.
  all: match goal with Hk : Process.killProcess _ _ _ = Ret (_, ?p1), He : Process.handleProcessExit _ _ _ _ = Ret (_, ?p2),
    Hu : Process.updateProcessState _ _ = _ |- _ => apply mute_kill in Hk; apply handleProcessExit_spends in He; apply mute_update in Hu;
    rewrite <-(app_nil_r (heads h)); apply (spends_trans _ [] _ p2); [apply (spends_trans [] (heads h) _ p1); [exact Hk|exact He]|exact Hu] end.
Qed.
End processes.

Lemma spends_effects L p p' : spends L p p' → payload <$> spent (Process.effects p p') ⊆+ payload <$> L.
Proof. intros (l & Ho & Hs). by rewrite (Process.effects_app _ _ l Ho). Qed.

(** What a step of a process sends and gives back, it has taken from the channels. *)
Definition stepSpent (q q' : proc) : list Process.effect := Process.effects (Process.y_p (q_sys q)) (Process.y_p (q_sys q')).

Lemma spent_nil l : payload <$> spent l ⊆+ payload <$> [] → sends l = [] ∧ requeued l = [].
Proof.
  cbn. intros Hs%submseteq_nil_r. apply fmap_nil_inv in Hs. unfold spent in Hs. by apply app_eq_nil in Hs.
Qed.

Lemma sentOn_sends st p p' : (sentOn st p p').*2 = sends (Process.effects p p').
Proof. unfold sentOn. rewrite <-list_fmap_compose. apply list_fmap_id. Qed.

Lemma account L p p' st s s' :
  spends L p p' → inSched s ≡ₚ L ++ inSched s' →
  (payload <$> (sentOn st p p').*2 ++ requeued (Process.effects p p')) ++ (payload <$> inSched s') ⊆+ payload <$> inSched s.
Proof.
  intros Hs%spends_effects Hi. rewrite Hi, sentOn_sends, (fmap_app _ L). by apply submseteq_app.
Qed.

Lemma account_mute p p' s : spends [] p p' → (payload <$> [] ++ requeued (Process.effects p p')) ++ (payload <$> inSched s) ⊆+ payload <$> inSched s.
Proof. intros Hs%spends_effects. apply spent_nil in Hs as [_ ->]. done. Qed.

Lemma procStep_account q s q' s' l :
  procStep q s q' s' l → (payload <$> l.*2 ++ requeued (stepSpent q q')) ++ (payload <$> inSched s') ⊆+ payload <$> inSched s.
Proof.
  intros Hst. unfold stepSpent. destruct Hst; cbn [q_sys Process.y_p fmap list_fmap].
  - apply account_mute. reflexivity.
  - eapply account; [by eapply listen_spends|by apply taken_less in H].
  - eapply account; [by eapply listen_spends|]. by destruct H as [->|[->| ->]].
  - eapply account; [by eapply listen_spends|by apply takenOpt_less in H].
  - apply account_mute. by eapply mute_launch.
  - apply account_mute. reflexivity.
  - apply account_mute. by eapply mute_stream.
  - apply account_mute. destruct er; by eapply mute_change.
  - eapply account; [by eapply changeRaced_spends|by apply takenOpt_less in H].
  - apply account_mute. by eapply mute_close.
  - eapply account; [by eapply closeRaced_spends|by apply takenOpt_less in H].
  - apply account_mute. destruct H as [[m Hm]|[Hm|[_ ->]]]; [by eapply mute_put|by eapply mute_resume|by apply spends_same].
Qed.

(** ** The engine with an account of its requests *)

(** The engine, the requests that came from the chain, and those that processes have given back and that the scheduler
    has not taken yet. *)
Record ledger := mkLedger {
  l_flow : flow;
  l_received : list DockerVMMessage;
  l_returning : list DockerVMMessage;
}.

Definition NewLedger : ledger := mkLedger NewFlow [] [].

Definition withSched (s : RequestScheduler) (f : flow) : flow := mkFlow s (f_procs f) (f_sent f).

Section ledger.
Context `{ProtocolConsts}.

(** The steps of [Flow.flowStep]; a request reaches the scheduler from the chain or from a process that gives it back, all
    other messages from anywhere. *)
Inductive ledgerStep : ledger → ledger → Prop :=
| ls_chain f R back m er s' :
    PutMsg (AnyDockerVM m) (f_sched f) = Ret (er, s') → ledgerStep (mkLedger f R back) (mkLedger (withSched s' f) (R ++ [m]) back)
| ls_back f R b1 m b2 er s' :
    PutMsg (AnyDockerVM m) (f_sched f) = Ret (er, s') →
    ledgerStep (mkLedger f R (b1 ++ m :: b2)) (mkLedger (withSched s' f) R (b1 ++ b2))
| ls_put f R back msg er s' :
    reqOf msg = [] → PutMsg msg (f_sched f) = Ret (er, s') → ledgerStep (mkLedger f R back) (mkLedger (withSched s' f) R back)
| ls_loop f R back chainPutMsg (CM : ContractManagerI) c s' :
    loopStep chainPutMsg c (f_sched f) = Ret (tt, s') → ledgerStep (mkLedger f R back) (mkLedger (withSched s' f) R back)
| ls_group f R back i g e c b g' :
    groupAt (f_sched f) i = Some g → RequestGroup.loopStep e c g = Ret (b, g') →
    ledgerStep (mkLedger f R back) (mkLedger (withSched (setGroup i g' (f_sched f)) f) R back)
| ls_group_put f R back i g msg er g' :
    groupAt (f_sched f) i = Some g → reqOf msg = [] → RequestGroup.PutMsg msg g = Ret (er, g') →
    ledgerStep (mkLedger f R back) (mkLedger (withSched (setGroup i g' (f_sched f)) f) R back)
| ls_fire f R back i g :
    groupAt (f_sched f) i = Some g → RequestGroup.r_timerArmed g = true →
    ledgerStep (mkLedger f R back) (mkLedger (withSched (setGroup i (RequestGroup.set_timer false true g) (f_sched f)) f) R back)
| ls_new f R back u c n v name isOrig p :
    Process.NewProcess (asInterface (f_sched f)) u c n v name isOrig = Some p →
    ledgerStep (mkLedger f R back) (mkLedger (mkFlow (f_sched f)
      (f_procs f ++ [mkProc (Process.mkSystem p Process.PMBusy name Process.LHead) [RStart] (nkey p) (nkey p) None]) (f_sent f)) R back)
| ls_proc f R back i q q' s' l :
    f_procs f !! i = Some q → procStep q (f_sched f) q' s' l →
    ledgerStep (mkLedger f R back)
      (mkLedger (mkFlow s' (<[i := q']> (f_procs f)) (f_sent f ++ l)) R (back ++ requeued (stepSpent q q'))).

Lemma reqOf_nil msg m : reqOf msg = [] → msg = AnyDockerVM m → m_Type m ≠ TX_REQUEST.
Proof. intros Hr ->. unfold reqOf, reqs in Hr. rewrite filter_cons in Hr. by case_decide. Qed.

(** The account watches the engine without changing it. *)
Lemma ledger_flow a b : ledgerStep a b → flowStep (l_flow a) (l_flow b).
Proof.
  intros Hst. destruct Hst; cbn [l_flow].
  - by eapply fl_put.
  - by eapply fl_put.
  - by eapply fl_put.
  - by eapply fl_loop.
  - by eapply fl_group.
  - eapply fl_group_put; [done| |done]. intros m. by apply reqOf_nil.
  - by eapply fl_fire.
  - by eapply fl_new.
  - by eapply fl_proc.
Qed.

(** Where the requests of the engine are: sent to a sandbox, on their way back, in the channels. *)
Definition everywhere (a : ledger) : list DockerVMMessage :=
  (f_sent (l_flow a)).*2 ++ l_returning a ++ inSched (f_sched (l_flow a)).

Definition balanced (a : ledger) : Prop := payload <$> everywhere a ⊆+ payload <$> l_received a.

Lemma fmap_more {A B} (f : A → B) l1 l2 R : l1 ⊆+ l2 → f <$> l2 ⊆+ R → f <$> l1 ⊆+ R.
Proof. intros H1 H2. etrans; [by apply fmap_submseteq|done]. Qed.

Lemma reqs_one m : reqs [m] ⊆+ [m].
Proof. unfold reqs. rewrite filter_cons, filter_nil. case_decide; [done|apply submseteq_nil_l]. Qed.

(** A step inside the scheduler that makes no request. *)
Lemma balanced_sched f R back s' :
  inSched s' ⊆+ inSched (f_sched f) → balanced (mkLedger f R back) → balanced (mkLedger (withSched s' f) R back).
Proof. intros Hs. apply fmap_more. unfold everywhere. cbn. by apply submseteq_app, submseteq_app. Qed.

Lemma balanced_group f R back i g g' :
  groupAt (f_sched f) i = Some g → inGroup g' ⊆+ inGroup g → balanced (mkLedger f R back) →
  balanced (mkLedger (withSched (setGroup i g' (f_sched f)) f) R back).
Proof.
  intros Hi Hg. apply balanced_sched. destruct (inSched_group _ _ _ Hi) as (L & E1 & E2). rewrite E1, E2. by apply submseteq_app.
Qed.

Lemma ledger_balanced_step a b : ledgerStep a b → balanced a → balanced b.
Proof.
  intros Hst Hb. destruct Hst.
  - apply sched_put_more in H0. unfold balanced in *. cbn [l_received] in *. rewrite fmap_app. etrans; [|by apply submseteq_app].
    unfold everywhere. cbn. rewrite <-(fmap_app payload _ [m]). apply fmap_submseteq. rewrite <-!app_assoc.
    apply submseteq_app; [done|]. apply submseteq_app; [done|]. etrans; [done|]. rewrite Permutation_app_comm.
    apply submseteq_app; [done|]. apply reqs_one.
  - apply sched_put_more in H0. revert Hb. apply fmap_more. unfold everywhere. cbn. apply submseteq_app; [done|].
    rewrite <-!app_assoc. apply submseteq_app; [done|]. cbn. rewrite (Permutation_middle b2). apply submseteq_app; [done|].
    etrans; [done|]. apply (submseteq_app _ [m]); [apply reqs_one|done].
  - apply balanced_sched; [|done]. apply sched_put_more in H1. by rewrite H0 in H1.
  - apply balanced_sched; [|done]. by eapply sched_loop_less.
  - by eapply balanced_group; [|eapply group_loop_less|].
  - eapply balanced_group; [done| |done]. rewrite (group_put_more _ _ _ _ H2), H1. done.
  - by eapply balanced_group.
  - done.
  - apply procStep_account in H1. revert Hb. unfold balanced, everywhere. cbn. intros Hb. etrans; [|exact Hb].
    rewrite !fmap_app, <-!app_assoc. rewrite !fmap_app in H1. apply submseteq_app; [done|].
    etrans; [|apply submseteq_app; [reflexivity|exact H1]]. rewrite <-!app_assoc. apply Permutation_submseteq, Permutation_app_swap_app.
Qed.

Lemma reachable_balanced a : rtc ledgerStep NewLedger a → balanced a.
Proof.
  intros Hr. remember NewLedger as a0 eqn:E. assert (balanced a0) as H0 by (subst; apply submseteq_nil_l). clear E. induction Hr; eauto using ledger_balanced_step.
Qed.

(** [C2] A transaction is executed at most once, and as it was asked for. In every reachable state of the scheduler, the groups and
    the processes together, whatever happens to the sandboxes and however often processes give transactions back to the
    scheduler, the requests that have been sent to sandboxes are, each with its key, its context and its call,
    among the requests received from the chain, none more often than it was received; so when the keys of the received
    requests differ no key is ever sent twice. *)
Theorem executed_at_most_once a :
  rtc ledgerStep NewLedger a →
  payload <$> (f_sent (l_flow a)).*2 ⊆+ payload <$> l_received a ∧
  (NoDup (m_TxId <$> l_received a) → NoDup (m_TxId <$> (f_sent (l_flow a)).*2)).
Proof.
  intros Hb%reachable_balanced. unfold balanced, everywhere in Hb. rewrite fmap_app in Hb.
  assert (payload <$> (f_sent (l_flow a)).*2 ⊆+ payload <$> l_received a) as Hs.
  { etrans; [|exact Hb]. by apply submseteq_inserts_r. }
  split; [done|]. apply (fmap_submseteq (λ x, x.1.1)) in Hs. rewrite <-!(list_fmap_compose payload) in Hs.
  intros Hn. apply submseteq_Permutation in Hs as [k Hk]. change (_ ∘ payload) with m_TxId in Hk. rewrite Hk in Hn.
  by apply NoDup_app in Hn as (Hn & _ & _).
Qed.
End ledger.

(** *** Witness: the transaction of Flow.v *)

Definition w_selecting : proc := w_proc w_stream (Process.LSelect Process.ready) (RRun "chain1#a#v1" true) (Some "chain1#a#v1").
Definition w_sending : proc := w_proc w_busy Process.LHead (RRun "chain1#a#v1" true) (Some "chain1#a#v1").

Definition w_ledger : ledger := mkLedger w_flow [w_tx] [].

Lemma w_ledger_reachable : rtc (ledgerStep (H := sampleConsts)) NewLedger w_ledger.
Proof.
  eapply rtc_l; [apply (ls_chain NewFlow [] [] w_tx None w_put); reflexivity|].
  eapply rtc_l; [apply (ls_loop _ _ _ (λ _, None) openCM ChTx w_routed); reflexivity|].
  eapply rtc_l; [apply (ls_group _ _ _ (inl "chain1#a#v1") w_group RequestGroup.sampleEnv RequestGroup.ChTx true w_buffered); vm_compute; reflexivity|].
  eapply rtc_l; [apply (ls_group_put _ _ _ (inl "chain1#a#v1") w_buffered (AnyDockerVM (RequestGroup.sampleReady OK)) None w_answered);
    vm_compute; reflexivity|].
  eapply rtc_l; [apply (ls_group _ _ _ (inl "chain1#a#v1") w_answered RequestGroup.sampleEnv RequestGroup.ChTx true w_ready); vm_compute; reflexivity|].
  eapply rtc_l; [apply (ls_new _ _ _ (Users.NewUser 10000) "chain1" "a" "v1" "p1" true w_new); vm_compute; reflexivity|].
  eapply rtc_l; [eapply (ls_proc _ _ _ 0); [reflexivity|];
    apply (ps_launch (Process.mkSystem w_new Process.PMBusy "p1" Process.LHead) [] [] _ _ _ _ Process.sampleEnv Process.LRuns None w_launched);
    vm_compute; reflexivity|].
  eapply rtc_l; [eapply (ls_proc _ _ _ 0); [reflexivity|];
    apply (ps_stream (Process.mkSystem w_launched Process.PMBusy "p1" Process.LHead) [] _ [] _ _ _ _ w_stream); vm_compute; reflexivity|].
  eapply rtc_l; [eapply (ls_proc _ _ _ 0); [reflexivity|]; apply ps_head|].
  eapply rtc_l; [|apply rtc_refl].
  match goal with |- ledgerStep (mkLedger ?f ?R ?b) _ =>
    replace w_ledger with (mkLedger (mkFlow (setGroup (inl "chain1#a#v1") (takeTx true [] w_ready) (f_sched f))
      (<[0%nat := w_sending]> (f_procs f))
      (f_sent f ++ sentOn (Some "chain1#a#v1") w_stream w_busy)) R (b ++ requeued (stepSpent w_selecting w_sending)))
      by (vm_compute; reflexivity) end.
  apply (ls_proc _ _ _ 0 w_selecting w_sending); [vm_compute; reflexivity|].
  apply (ps_tx w_stream Process.PMBusy "p1" Process.ready _ _ _ _ _ Process.sampleEnv w_payload false w_busy).
  - apply (taken_intro true _ w_payload [] (inl "chain1#a#v1") w_ready); vm_compute; reflexivity.
  - apply Process.sampleEnv_answers.
  - vm_compute. reflexivity.
Qed.

Lemma executed_at_most_once_witness :
  m_TxId <$> (f_sent (l_flow w_ledger)).*2 = ["t1"] ∧
  payload <$> (f_sent (l_flow w_ledger)).*2 ⊆+ payload <$> l_received w_ledger.
Proof.
  split; [vm_compute; reflexivity|]. apply (executed_at_most_once (H := sampleConsts) w_ledger). apply w_ledger_reachable.
Defined.
End Once.
