(* ===== verification/Pools.v ===== *)
(** * vm_mgr/utils/pbpool.go, and the sharing of messages in the engine

    The other files pass messages as values. In the engine they are objects: a message is taken from a
    pool, filled by the stream it is received from, passed on by reference, and reset and given back to
    the pool when it is no longer used; the message sent to a sandbox shares the step records of the
    request. Here the objects, the pool and the references are explicit, and the engine with
    objects is shown to behave like the engine with values. *)

From S2P Require Import Prelude Messages Interfaces EngineUtils Users Process.

Module Pools.

#[local] Existing Instance Process.processState_eq_dec.

(** ** The memory *)

(** References are numbers. *)
Abbreviation loc := nat.

(** A message: its fields, and references to its step records ([[]*protogo.StepDuration]). *)
Record object := mkObject { o_fields : DockerVMMessage; o_steps : list loc }.

(** The objects, the step records, what the pool holds, and the first address that is not in use. *)
Record memory := mkMemory {
  objects : gmap loc object;
  steps : gmap loc StepDuration;
  pbPool : list loc;
  brk : loc;
}.

Definition no_step : StepDuration := mkStep RUNTIME_PREPARE_TX_REQUEST 0 0 0 "".
Definition empty_object : object := mkObject emptyMessage [].

(** What a message contains. *)
Definition stepsOf (st : gmap loc StepDuration) (l : list loc) : list StepDuration :=
  map (λ s, default no_step (st !! s)) l.
Definition read (mm : memory) (o : object) : DockerVMMessage :=
  set_steps (stepsOf (steps mm) (o_steps o)) (o_fields o).
Definition get (mm : memory) (l : loc) : DockerVMMessage := read mm (default empty_object (objects mm !! l)).

Definition set_objects (h : gmap loc object) (mm : memory) : memory := mkMemory h (steps mm) (pbPool mm) (brk mm).
Definition set_stepRecords (st : gmap loc StepDuration) (mm : memory) : memory :=
  mkMemory (objects mm) st (pbPool mm) (brk mm).
Definition set_pool (l : list loc) (mm : memory) : memory := mkMemory (objects mm) (steps mm) l (brk mm).
Definition set_brk (n : loc) (mm : memory) : memory := mkMemory (objects mm) (steps mm) (pbPool mm) n.
Definition write (l : loc) (o : object) (mm : memory) : memory := set_objects (<[l:=o]> (objects mm)) mm.

Definition objectAt (l : loc) : M memory object := mm ← getS; deref (objects mm !! l).

(** [&protogo.DockerVMMessage{}]. *)
Definition newMessage : M memory loc :=
  mm ← getS; putS (set_brk (S (brk mm)) (write (brk mm) empty_object mm));; mret (brk mm).

Definition newStep (st : StepDuration) : M memory loc :=
  mm ← getS; putS (set_brk (S (brk mm)) (set_stepRecords (<[brk mm:=st]> (steps mm)) mm));; mret (brk mm).

Fixpoint newSteps (l : list StepDuration) : M memory (list loc) :=
  match l with
  | [] => mret []
  | st :: l => s ← newStep st; r ← newSteps l; mret (s :: r)
  end.

(** ** The pool *)

(** [DockerVMMessageFromPool()]. [sync.Pool] gives any of the objects it holds ([pick], a position) or
    a new one. *)
Definition DockerVMMessageFromPool (pick : option nat) : M memory loc :=
  mm ← getS;
  match pick ≫= (λ i, (i,.) <$> pbPool mm !! i) with
  | Some (i, l) => putS (set_pool (delete i (pbPool mm)) mm);; mret l
  | None => newMessage
  end.

(** [ReturnToPool(m)]: [m.Reset()] and [pbPool.Put(m)], nothing for a nil message. *)
Definition ReturnToPool (m : option loc) : M memory unit :=
  match m with
  | None => mret tt
  | Some l => objectAt l;; modifyS (λ mm, set_pool (l :: pbPool mm) (write l empty_object mm))
  end.

(** The collector may drop any object that only the pool refers to. *)
Definition collect (i : nat) : M memory unit := modifyS (λ mm, set_pool (delete i (pbPool mm)) mm).

(** ** The steps of a message *)

Definition endTxStep (now : Z) (l : loc) : M memory unit :=
  o ← objectAt l;
  match o_steps o with
  | [] => mret tt
  | first :: _ =>
    let currStep := List.last (o_steps o) first in
    mm ← getS;
    firstStep ← deref (steps mm !! first);
    putS (set_stepRecords (alter (endStep now (sd_StartTime firstStep)) currStep (steps mm)) mm)
  end.

Definition addTxStep (now : Z) (l : loc) (stepType : StepType) (log : string) : M memory unit :=
  s ← newStep (mkStep stepType now 0 0 log);
  o ← objectAt l;
  modifyS (write l (mkObject (o_fields o) (o_steps o ++ [s]))).

Definition EnterNextStep (slowDisable : bool) (now now' now'' : Z) (l : loc) (stepType : StepType) (log : string) :
    M memory unit :=
  if slowDisable then mret tt
  else
    (if decide (stepType ≠ RUNTIME_PREPARE_TX_REQUEST) then endTxStep now l else mret tt);;
    addTxStep now' l stepType log;;
    if decide (stepType = RUNTIME_HANDLE_TX_RESPONSE ∨ stepType = ENGINE_PROCESS_RECEIVE_TX_RESPONSE)
    then endTxStep now'' l else mret tt.

(** [stream.RecvMsg(msg)]: the message that arrives is decoded into the object; [merge] is what the decoder makes of
    an object that is not empty. *)
Definition RecvMsg (merge : DockerVMMessage → DockerVMMessage → DockerVMMessage) (l : loc) (arrived : DockerVMMessage) :
    M memory unit :=
  o ← objectAt l;
  mm ← getS;
  let m := merge (read mm o) arrived in
  ss ← newSteps (m_StepDurations m);
  modifyS (write l (mkObject (set_steps [] m) ss)).

(** ** A process with references *)

(** [q_p] is the process but for its transaction and its channel of responses. *)
Record process := mkProc { q_p : Process.Process; q_Tx : option loc; q_respCh : list loc }.

(** The process with the contents of its messages. *)
Definition view (mm : memory) (q : process) : Process.Process :=
  Process.set_respCh (map (get mm) (q_respCh q)) (Process.set_tx (get mm <$> q_Tx q) (q_p q)).

Abbreviation MP A := (M (memory * process) A).

Definition inMem {A} (m : M memory A) : MP A := λ '(mm, q),
  match m mm with Ret (a, mm') => Ret (a, (mm', q)) | Panic => Panic | Block => Block end.

(** Code of the process that follows references without changing any. *)
Definition via {A} (f : M Process.Process A) : MP A := λ '(mm, q),
  match f (view mm q) with
  | Ret (a, p) => Ret (a, (mm, mkProc p (q_Tx q) (q_respCh q)))
  | Panic => Panic
  | Block => Block
  end.

Definition setTx (o : option loc) : MP unit := modifyS (λ '(mm, q), (mm, mkProc (q_p q) o (q_respCh q))).
Definition setRespCh (l : list loc) : MP unit := modifyS (λ '(mm, q), (mm, mkProc (q_p q) (q_Tx q) l)).
Definition contents (l : loc) : MP DockerVMMessage := inMem (o ← objectAt l; mm ← getS; mret (read mm o)).

Section handlers.
Context (e : Process.env).

(** [handleTxRequest(tx)]: the transaction before is given back to the pool, and the message that is sent
    comes from the pool. *)
Definition handleTxRequest (tx : loc) (startTime : Z) (pick : option nat) : MP (option gerr) :=
  let elapsedTime := Process.e_now e - startTime in
  if Process._removeTxTime <? elapsedTime then mret None
  else if Process.e_ExecTxTimeout e <? elapsedTime then mret (Some (Err "tx expired"))
  else
    '(_, q) ← getS;
    inMem (ReturnToPool (q_Tx q));;
    setTx (Some tx);;
    via (Process.updateProcessState Process.busy);;
    msg ← inMem (DockerVMMessageFromPool pick);
    '(_, q) ← getS;
    t ← inMem (objectAt tx);
    o ← inMem (objectAt msg);
    inMem (modifyS (write msg (mkObject
      (mkMessage (m_TxId (o_fields t)) (m_Type (o_fields o)) (m_CrossContext (o_fields t))
         (m_SysCallMessage (o_fields o)) (m_Request (o_fields t)) (m_Response (o_fields o))
         (Process.p_chainID (q_p q)) [])
      (o_steps t))));;
    inMem (EnterNextStep (Process.e_slowDisable e) (Process.e_now e) (Process.e_now e) (Process.e_now e) tx
             ENGINE_PROCESS_SEND_TX_REQUEST ("waitingLen:" +:+ itoa (Process.e_txChLen e)));;
    m ← contents msg;
    via (Process.sendMsg e m).

(** The two errors of a launch after which the handler takes a transaction from the channel. *)
Definition takesHead (x : option Process.exitErr) : bool :=
  bool_decide (Process.exitError x = ContractExecError) || bool_decide (Process.exitError x = ContractNotExistError).

Definition handleProcessExit (x : option Process.exitErr) (head : option (loc * Z)) : MP bool :=
  txHead ← (match head with
            | None => mret None
            | Some (l, startTime) => m ← contents l; mret (Some (mkTxPayload m startTime))
            end);
  d ← via (Process.decideExit e x txHead);
  (match head with
   | Some (l, _) => if takesHead x then setTx (Some l) else mret tt
   | None => mret tt
   end);;
  via (Process.finishExit e x d);;
  mret (Process.d_released d).

(** What the listener receives, with references. *)
Inductive choice :=
| ChTx (tx : loc) (startTime : Z) (pick : option nat)
| ChTimer
| ChResp
| ChExit (x : option Process.exitErr) (head : option (loc * Z))
| ChUpdate.

Definition listenProcess (seen : Process.processState) (c : choice) : MP bool :=
  match seen, c with
  | Process.ready, ChTx tx startTime pick =>
    er ← handleTxRequest tx startTime pick;
    match er with
    | Some x => m ← contents tx; via (Process.returnTxErrorResp e (m_TxId m) (Process.errText x));; mret false
    | None => mret false
    end
  | Process.idle, ChTx tx startTime _ =>
    m ← contents tx; via (Process.handleIdleTxRequest e (mkTxPayload m startTime));; mret false
  | Process.ready, ChTimer | Process.busy, ChTimer => via (Process.onTimer e);; mret false
  | Process.busy, ChResp =>
    '(_, q) ← getS;
    match q_respCh q with
    | resp :: rest =>
      setRespCh rest;; m ← contents resp; via (Process.handleTxResp e m);; inMem (ReturnToPool (Some resp));; mret false
    | [] => block
    end
  | (Process.created | Process.changing | Process.closing | Process.timeout), ChUpdate =>
    via (Process.listenProcess e seen Process.ChUpdate)
  | _, ChExit x head => handleProcessExit x head
  | _, _ => block
  end.
End handlers.

(** ** Who holds what *)

(** Where the reference to a message is: in the pool, in the channels of requests, with a process, or in the hands
    of the handler that runs. *)
Inductive place := Nowhere | InPool | Held | InChan | TxOf (name : string) | RespOf (name : string).

#[export] Instance place_eq_dec : EqDecision place.
Proof. solve_decision. Defined.

Definition upd (ow : loc → place) (l : loc) (x : place) : loc → place := λ l', if decide (l' = l) then x else ow l'.

Lemma upd_eq ow l x : upd ow l x l = x.
Proof. unfold upd. by rewrite decide_True. Qed.
Lemma upd_ne ow l l' x : l' ≠ l → upd ow l x l' = ow l'.
Proof. intros. unfold upd. by rewrite decide_False. Qed.

(** The memory agrees with the places: every message that is somewhere exists, with step records of its own; the
    pool holds each of its messages once, and they are empty. *)
Record sound (ow : loc → place) (mm : memory) : Prop := {
  s_objects : ∀ l, ow l ≠ Nowhere → ∃ o, objects mm !! l = Some o ∧ NoDup (o_steps o) ∧
    (∀ s, s ∈ o_steps o → is_Some (steps mm !! s));
  s_apart : ∀ l l' o o' s, ow l ≠ Nowhere → ow l' ≠ Nowhere → l ≠ l' → objects mm !! l = Some o →
    objects mm !! l' = Some o' → s ∈ o_steps o → s ∈ o_steps o' → False;
  s_brk : (∀ l, is_Some (objects mm !! l) → (l < brk mm)%nat) ∧ (∀ s, is_Some (steps mm !! s) → (s < brk mm)%nat);
  s_pool : ∀ l, l ∈ pbPool mm → ow l = InPool ∧ objects mm !! l = Some empty_object;
  s_once : NoDup (pbPool mm);
}.

(** The messages that are somewhere, other than [l], are as before. *)
Definition frame (ow : loc → place) (l : loc) (mm mm' : memory) : Prop :=
  ∀ l', ow l' ≠ Nowhere → l' ≠ l → get mm' l' = get mm l'.

Lemma get_object mm l o : objects mm !! l = Some o → get mm l = read mm o.
Proof. unfold get. by intros ->. Qed.

Lemma sound_object ow mm l : sound ow mm → ow l ≠ Nowhere → ∃ o, objects mm !! l = Some o ∧ get mm l = read mm o.
Proof. intros Hs (o & Ho & _)%(s_objects _ _ Hs). exists o. split; [done|]. by apply get_object. Qed.

Lemma contents_eval ow mm l q : sound ow mm → ow l ≠ Nowhere → contents l (mm, q) = Ret (get mm l, (mm, q)).
Proof.
  intros Hs Hl. destruct (sound_object _ _ _ Hs Hl) as (o & Ho & Hg).
  unfold contents, inMem, objectAt, mbind, M_bind, getS, deref, mret, M_ret. by rewrite Ho, Hg.
Qed.

(** A message goes from one place to another. *)
Lemma sound_move ow mm l x : sound ow mm → ow l ≠ Nowhere → ow l ≠ InPool → sound (upd ow l x) mm.
Proof.
  intros Hs Hl Hp. assert (∀ l', upd ow l x l' ≠ Nowhere → ow l' ≠ Nowhere) as Hn.
  { intros l'. unfold upd. by case_decide; subst. }
  split; [| |apply (s_brk _ _ Hs)| |apply (s_once _ _ Hs)].
  - intros l' Hl'. by apply (s_objects _ _ Hs), Hn.
  - intros l1 l2 o o' s H1%Hn H2%Hn. by apply (s_apart _ _ Hs).
  - intros l' Hl'. destruct (s_pool _ _ Hs l' Hl') as [E ?]. rewrite upd_ne by (intros ->; congruence). done.
Qed.

(** [l] is handed out: an empty message that nobody refers to. *)
Definition gives (ow : loc → place) (l : loc) (mm mm' : memory) : Prop :=
  (ow l = InPool ∨ ow l = Nowhere) ∧ objects mm' !! l = Some empty_object ∧ steps mm' = steps mm ∧
  sound (upd ow l Held) mm' ∧ frame ow l mm mm' ∧ (∀ l', l' ≠ l → objects mm' !! l' = objects mm !! l').

Lemma delete_once {A} (l : list A) i x y : NoDup l → l !! i = Some x → y ∈ delete i l → y ≠ x ∧ y ∈ l.
Proof.
  intros Hd Hi. rewrite <-(take_drop_middle _ _ _ Hi) in Hd at 1. rewrite delete_take_drop.
  apply NoDup_app in Hd as (_ & Hd1 & [Hd2 _]%NoDup_cons).
  rewrite elem_of_app. intros Hy. split.
  - intros ->. destruct Hy as [H|H]; [|done]. apply (Hd1 _ H). apply list_elem_of_here.
  - rewrite <-(take_drop_middle _ _ _ Hi), elem_of_app, elem_of_cons. destruct Hy; auto.
Qed.

Lemma take_spec ow mm i l :
  sound ow mm → pbPool mm !! i = Some l → gives ow l mm (set_pool (delete i (pbPool mm)) mm).
Proof.
  intros Hs Hi. assert (l ∈ pbPool mm) as Hl by by eapply list_elem_of_lookup_2.
  destruct (s_pool _ _ Hs l Hl) as [Ho Hob]. unfold gives. cbn [objects steps set_pool].
  split_and!; [by left|done|done| |done|done].
  assert (∀ l', upd ow l Held l' ≠ Nowhere → ow l' ≠ Nowhere) as Hn by (intros l'; unfold upd; case_decide; congruence).
  split; [| |apply (s_brk _ _ Hs)| |].
  - intros l' Hl'. by apply (s_objects _ _ Hs), Hn.
  - intros l1 l2 o o' s H1%Hn H2%Hn. by apply (s_apart _ _ Hs).
  - intros l' [Hd Hl']%(delete_once _ _ _ _ (s_once _ _ Hs) Hi). rewrite upd_ne by done. by apply (s_pool _ _ Hs).
  - cbn. eapply sublist_NoDup; [apply (s_once _ _ Hs)|apply sublist_delete].
Qed.

(** An address that is not in use is nowhere. *)
Lemma sound_fresh ow mm : sound ow mm → objects mm !! brk mm = None ∧ ow (brk mm) = Nowhere.
Proof.
  intros Hs. destruct (s_brk _ _ Hs) as [Hb _]. assert (objects mm !! brk mm = None) as Hn.
  { apply eq_None_not_Some. intros H%Hb. lia. }
  split; [done|]. destruct (decide (ow (brk mm) = Nowhere)) as [|H]; [done|].
  apply (s_objects _ _ Hs) in H as (?&?&_). congruence.
Qed.

(** A message with no steps is written where the memory has no message of its own. *)
Lemma sound_write_empty ow mm l x :
  sound ow mm → (l ≤ brk mm)%nat → l ∉ pbPool mm →
  sound (upd ow l x) (set_brk (S (brk mm)) (write l empty_object mm)).
Proof.
  intros Hs Hb Hnp. destruct (s_brk _ _ Hs) as [Hb1 Hb2].
  assert (∀ l', l' ≠ l → objects (write l empty_object mm) !! l' = objects mm !! l') as Hne.
  { intros l' ?. cbn. by rewrite lookup_insert_ne. }
  assert (objects (write l empty_object mm) !! l = Some empty_object) as Heq by (cbn; by rewrite lookup_insert_eq).
  assert (∀ s, s ∈ o_steps empty_object → False) as He by (intros s Hx%elem_of_nil; done).
  split; cbn [objects steps brk pbPool set_brk]; [| | | |apply (s_once _ _ Hs)].
  - intros l' Hl'. destruct (decide (l' = l)) as [->|Hd].
    { exists empty_object. split_and!; [done|constructor|]. by intros s ?%He. }
    rewrite upd_ne in Hl' by done. rewrite (Hne _ Hd). by apply (s_objects _ _ Hs).
  - intros l1 l2 o o' s H1 H2 Hd Ho1 Ho2 Hx1 Hx2.
    destruct (decide (l1 = l)) as [->|E1]; [simplify_eq; by apply (He s)|].
    destruct (decide (l2 = l)) as [->|E2]; [simplify_eq; by apply (He s)|].
    rewrite upd_ne in H1, H2 by done. rewrite Hne in Ho1, Ho2 by done. by eapply (s_apart _ _ Hs l1 l2).
  - split; [|intros s ?%Hb2; lia].
    intros l'. destruct (decide (l' = l)) as [->|Hd]; [lia|]. rewrite Hne by done. intros ?%Hb1. lia.
  - intros l' Hl'. assert (l' ≠ l) by (by intros ->). rewrite upd_ne, Hne by done. by apply (s_pool _ _ Hs).
Qed.

Lemma frame_write ow mm l o n : frame ow l mm (set_brk n (write l o mm)).
Proof. intros l' _ Hd. unfold get, read. cbn. by rewrite lookup_insert_ne. Qed.

Lemma FromPool_spec pick ow mm :
  sound ow mm → ∃ l mm', DockerVMMessageFromPool pick mm = Ret (l, mm') ∧ gives ow l mm mm'.
Proof.
  intros Hs. unfold DockerVMMessageFromPool, mbind at 1, M_bind at 1, getS at 1.
  destruct (pick ≫= _) as [[i l]|] eqn:Ep.
  - eexists l, _. split; [reflexivity|]. apply take_spec; [done|].
    destruct pick as [j|]; [|done]. cbn in Ep. destruct (pbPool mm !! j) eqn:?; by simplify_eq/=.
  - destruct (sound_fresh _ _ Hs) as [Hn How]. eexists (brk mm), _. split; [reflexivity|].
    split_and!; [by right|cbn; by rewrite lookup_insert_eq|done| |apply frame_write|].
    + apply sound_write_empty; [done|lia|]. intros ?%(s_pool _ _ Hs). naive_solver.
    + intros l' ?. cbn. by rewrite lookup_insert_ne.
Qed.

(** Giving a message back. *)
Lemma ReturnToPool_spec ow mm l :
  sound ow mm → ow l ≠ Nowhere → ow l ≠ InPool →
  ∃ mm', ReturnToPool (Some l) mm = Ret (tt, mm') ∧ sound (upd ow l InPool) mm' ∧ frame ow l mm mm'.
Proof.
  intros Hs Hl Hp. destruct (sound_object _ _ _ Hs Hl) as (o & Ho & _).
  assert (l ∉ pbPool mm) as Hnp by (intros ?%(s_pool _ _ Hs); naive_solver).
  destruct (s_brk _ _ Hs) as [Hb1 Hb2].
  assert (sound (upd ow l InPool) (set_brk (S (brk mm)) (write l empty_object mm))) as Hs'.
  { apply sound_write_empty; try done. assert (l < brk mm)%nat by by apply Hb1. lia. }
  eexists. split; [|split].
  - unfold ReturnToPool, objectAt, mbind, M_bind, getS, deref, modifyS, mret, M_ret. by rewrite Ho.
  - split; cbn [objects steps brk pbPool set_pool]; [apply (s_objects _ _ Hs')|apply (s_apart _ _ Hs')| | |].
    + split; [|apply Hb2]. intros l'. cbn. destruct (decide (l' = l)) as [->|Hd]; [by intros; apply Hb1|].
      rewrite lookup_insert_ne by done. apply Hb1.
    + intros l'. rewrite elem_of_cons. intros [->|Hl']; [|by apply (s_pool _ _ Hs')].
      rewrite upd_eq. cbn. by rewrite lookup_insert_eq.
    + apply NoDup_cons. split; [done|apply (s_once _ _ Hs)].
  - apply (frame_write ow mm l empty_object (brk mm)).
Qed.

(** ** The step records *)

Lemma stepsOf_fresh st ss s x : s ∉ ss → stepsOf (<[s:=x]> st) ss = stepsOf st ss.
Proof.
  intros Hs. apply map_ext_in. intros y Hy%list_elem_of_In. rewrite lookup_insert_ne; [done|]. by intros ->.
Qed.

Lemma stepsOf_alter_ne f st ss s : s ∉ ss → stepsOf (alter f s st) ss = stepsOf st ss.
Proof.
  intros Hs. apply map_ext_in. intros y Hy%list_elem_of_In. rewrite lookup_alter_ne; [done|]. by intros ->.
Qed.

(** A change of the last record is a change of the last step. *)
Lemma stepsOf_alter_last f st ss s :
  NoDup (ss ++ [s]) → is_Some (st !! s) →
  stepsOf (alter f s st) (ss ++ [s]) = alter f (length ss) (stepsOf st (ss ++ [s])).
Proof.
  intros (_ & Hd & _)%NoDup_app [x Hx]. unfold stepsOf. rewrite !map_app. cbn [map].
  fold (stepsOf (alter f s st) ss) (stepsOf st ss). rewrite stepsOf_alter_ne.
  - rewrite lookup_alter_eq, Hx. cbn. unfold stepsOf. rewrite alter_app_r_alt by (by rewrite length_map).
    rewrite length_map, Nat.sub_diag. done.
  - intros Hs. by apply (Hd _ Hs), list_elem_of_here.
Qed.

Lemma sound_step_fresh ow mm l o s :
  sound ow mm → ow l ≠ Nowhere → objects mm !! l = Some o → s ∈ o_steps o → (s < brk mm)%nat.
Proof.
  intros Hs Hl Ho Hin. destruct (s_objects _ _ Hs l Hl) as (o' & Ho' & _ & Hx). simplify_eq.
  by apply (s_brk _ _ Hs), Hx.
Qed.

Lemma newStep_spec ow mm st :
  sound ow mm → ∃ mm', newStep st mm = Ret (brk mm, mm') ∧ sound ow mm' ∧ objects mm' = objects mm ∧
    steps mm' = <[brk mm:=st]> (steps mm) ∧ brk mm' = S (brk mm) ∧ pbPool mm' = pbPool mm.
Proof.
  intros Hs. eexists. split; [reflexivity|]. cbn. split_and!; try done. destruct (s_brk _ _ Hs) as [Hb1 Hb2].
  split; cbn; [|apply (s_apart _ _ Hs)| |apply (s_pool _ _ Hs)|apply (s_once _ _ Hs)].
  - intros l Hl. destruct (s_objects _ _ Hs l Hl) as (o & Ho & Hd & Hx). exists o. split_and!; [done|done|].
    intros s Hin. rewrite lookup_insert_ne; [by apply Hx|]. specialize (Hx _ Hin). apply Hb2 in Hx. lia.
  - split; [intros l ?%Hb1; lia|]. intros s. destruct (decide (s = brk mm)) as [->|]; [lia|].
    rewrite lookup_insert_ne by done. intros ?%Hb2. lia.
Qed.

(** New records are part of no message that is somewhere. *)
Lemma get_new_records ow mm mm' l :
  sound ow mm → ow l ≠ Nowhere → objects mm' = objects mm →
  (∀ s, (s < brk mm)%nat → steps mm' !! s = steps mm !! s) → get mm' l = get mm l.
Proof.
  intros Hs Hl Ho Hst. destruct (sound_object _ _ _ Hs Hl) as (o & Hlo & ->).
  rewrite (get_object _ _ o) by by rewrite Ho. unfold read. f_equal. apply map_ext_in.
  intros s Hin%list_elem_of_In. rewrite Hst; [done|]. by eapply sound_step_fresh.
Qed.

Lemma newSteps_spec l ow mm :
  sound ow mm → ∃ ss mm', newSteps l mm = Ret (ss, mm') ∧ sound ow mm' ∧ objects mm' = objects mm ∧
    stepsOf (steps mm') ss = l ∧ NoDup ss ∧ (∀ s, s ∈ ss → (brk mm ≤ s)%nat ∧ is_Some (steps mm' !! s)) ∧
    (∀ s, (s < brk mm)%nat → steps mm' !! s = steps mm !! s) ∧ (brk mm ≤ brk mm')%nat ∧ pbPool mm' = pbPool mm.
Proof.
  revert mm. induction l as [|st l IH]; intros mm Hs.
  { eexists [], mm. split_and!; try done; [constructor|]. by intros s ?%elem_of_nil. }
  destruct (newStep_spec _ _ st Hs) as (m1 & E1 & Hs1 & Ho1 & Hst1 & Hb1 & Hp1).
  destruct (IH m1 Hs1) as (ss & m2 & E2 & Hs2 & Ho2 & Hst2 & Hd & Hin & Hk & Hb2 & Hp2).
  exists (brk mm :: ss), m2. assert (steps m2 !! brk mm = Some st) as Hg.
  { rewrite Hk by lia. by rewrite Hst1, lookup_insert_eq. }
  split_and!; [|done|congruence| | | | |lia|congruence].
  - cbn. unfold mbind, M_bind. by rewrite E1, E2.
  - cbn. by rewrite Hg, <-Hst2.
  - apply NoDup_cons. split; [|done]. intros [? _]%Hin. lia.
  - intros s [->|[? ?]%Hin]%elem_of_cons; [|split; [lia|done]]. split; [lia|by rewrite Hg].
  - intros s Hlt. rewrite Hk by lia. rewrite Hst1, lookup_insert_ne by lia. done.
Qed.

(** A message that is not in the pool gets step records that belong to no other. *)
Lemma sound_write ow mm l o :
  sound ow mm → ow l ≠ Nowhere → ow l ≠ InPool → NoDup (o_steps o) → (∀ s, s ∈ o_steps o → is_Some (steps mm !! s)) →
  (∀ l' o' s, ow l' ≠ Nowhere → l' ≠ l → objects mm !! l' = Some o' → s ∈ o_steps o → s ∈ o_steps o' → False) →
  sound ow (write l o mm).
Proof.
  intros Hs Hl Hp Hd Hx Hap. assert (∀ l', l' ≠ l → objects (write l o mm) !! l' = objects mm !! l') as Hne.
  { intros l' ?. cbn. by rewrite lookup_insert_ne. }
  assert (objects (write l o mm) !! l = Some o) as Heq by (cbn; by rewrite lookup_insert_eq).
  split; [| | | |apply (s_once _ _ Hs)].
  - intros l' Hl'. destruct (decide (l' = l)) as [->|E]; [by exists o|]. rewrite (Hne _ E). by apply (s_objects _ _ Hs).
  - intros l1 l2 o1 o2 s H1 H2 Hlt Ho1 Ho2 Hx1 Hx2.
    destruct (decide (l1 = l)) as [->|E1]; [|destruct (decide (l2 = l)) as [->|E2]].
    + simplify_eq. rewrite Hne in Ho2 by done. by eapply (Hap l2).
    + simplify_eq. rewrite Hne in Ho1 by done. by eapply (Hap l1).
    + rewrite Hne in Ho1, Ho2 by done. by eapply (s_apart _ _ Hs l1 l2).
  - destruct (s_brk _ _ Hs) as [Hb1 Hb2]. split; [|done]. intros l'. destruct (decide (l' = l)) as [->|E].
    + intros _. apply Hb1. by destruct (s_objects _ _ Hs l Hl) as (? & -> & _).
    + rewrite Hne by done. apply Hb1.
  - intros l' Hl'. destruct (s_pool _ _ Hs l' Hl'). split; [done|]. rewrite Hne; congruence.
Qed.

(** A message that is sent is no longer anybody's: it may share its step records. *)
Lemma sound_forget ow mm l o :
  sound ow mm → ow l ≠ Nowhere → ow l ≠ InPool → sound (upd ow l Nowhere) (write l o mm).
Proof.
  intros Hs Hl Hp. assert (∀ l', l' ≠ l → objects (write l o mm) !! l' = objects mm !! l') as Hne.
  { intros l' ?. cbn. by rewrite lookup_insert_ne. }
  assert (∀ l', upd ow l Nowhere l' ≠ Nowhere → ow l' ≠ Nowhere ∧ l' ≠ l) as Hn.
  { intros l'. unfold upd. by case_decide. }
  split; [| | | |apply (s_once _ _ Hs)].
  - intros l' [? ?]%Hn. rewrite Hne by done. by apply (s_objects _ _ Hs).
  - intros l1 l2 o1 o2 s [? ?]%Hn [? ?]%Hn Hd. rewrite !Hne by done. by apply (s_apart _ _ Hs).
  - destruct (s_brk _ _ Hs) as [Hb1 Hb2]. split; [|done]. intros l'. destruct (decide (l' = l)) as [->|E].
    + intros _. apply Hb1. by destruct (s_objects _ _ Hs l Hl) as (? & -> & _).
    + rewrite Hne by done. apply Hb1.
  - intros l' Hl'. destruct (s_pool _ _ Hs l' Hl'). assert (l' ≠ l) by congruence. by rewrite upd_ne, Hne by done.
Qed.

(** The end of a step. *)
Lemma endTxStep_spec now ow mm l :
  sound ow mm → ow l ≠ Nowhere →
  ∃ mm', endTxStep now l mm = Ret (tt, mm') ∧ sound ow mm' ∧ objects mm' = objects mm ∧ frame ow l mm mm' ∧
    get mm' l = EngineUtils.endTxStep now (get mm l).
Proof.
  intros Hs Hl. destruct (s_objects _ _ Hs l Hl) as (o & Ho & Hd & Hx).
  unfold endTxStep, objectAt, mbind, M_bind, getS, mret, M_ret. rewrite Ho. cbn [deref mret M_ret].
  rewrite (get_object _ _ _ Ho). destruct (o_steps o) as [|f r] eqn:Eo.
  { exists mm. split_and!; [done|done|done|by intros ???|].
    rewrite (get_object _ _ _ Ho). unfold EngineUtils.endTxStep, read. by rewrite Eo. }
  destruct (Hx f) as [fs Hf]; [apply list_elem_of_here|]. rewrite Hf. cbn [deref mret M_ret].
  destruct (exists_last (l := f :: r)) as (ss & c & E); [done|]. rewrite E, List.last_last in *.
  assert (c ∈ ss ++ [c]) as Hc by (rewrite elem_of_app, list_elem_of_singleton; by right).
  eexists. split; [reflexivity|]. split_and!.
  - split; cbn; [|apply (s_apart _ _ Hs)| |apply (s_pool _ _ Hs)|apply (s_once _ _ Hs)].
    + intros l' Hl'. destruct (s_objects _ _ Hs l' Hl') as (o' & ? & ? & Hx'). exists o'. split_and!; [done|done|].
      intros s Hin. apply lookup_alter_is_Some. by apply Hx'.
    + destruct (s_brk _ _ Hs) as [Hb1 Hb2]. split; [done|]. intros s ?%lookup_alter_is_Some. by apply Hb2.
  - done.
  - intros l' Hl' Hne. destruct (sound_object _ _ _ Hs Hl') as (o' & Ho' & ->). rewrite (get_object _ _ o') by done.
    unfold read. cbn [steps set_stepRecords]. rewrite stepsOf_alter_ne; [done|]. intros Hin.
    eapply (s_apart _ _ Hs l l' o o' c); try done. by rewrite Eo.
  - rewrite (get_object _ _ o) by done. unfold read, EngineUtils.endTxStep. cbn [steps set_stepRecords].
    rewrite Eo, stepsOf_alter_last by (done || by apply Hx).
    assert (stepsOf (steps mm) (ss ++ [c]) = fs :: stepsOf (steps mm) r) as E2 by (rewrite <-E; cbn; by rewrite Hf).
    assert (length ss = length (stepsOf (steps mm) r)) as El.
    { apply (f_equal length) in E. unfold stepsOf. rewrite length_map. rewrite length_app in E. cbn in E. lia. }
    cbn [m_StepDurations set_steps]. rewrite E2, El. done.
Qed.

Lemma endTxStep_if P `{Decision P} now ow mm l :
  sound ow mm → ow l ≠ Nowhere →
  ∃ mm', (if decide P then endTxStep now l else mret tt) mm = Ret (tt, mm') ∧ sound ow mm' ∧ objects mm' = objects mm ∧
    frame ow l mm mm' ∧ get mm' l = if decide P then EngineUtils.endTxStep now (get mm l) else get mm l.
Proof. intros Hs Hl. case_decide; [by apply endTxStep_spec|]. by exists mm. Qed.

(** A new step. *)
Lemma addTxStep_spec now t log ow mm l o :
  sound ow mm → ow l ≠ Nowhere → ow l ≠ InPool → objects mm !! l = Some o →
  ∃ mm' s, addTxStep now l t log mm = Ret (tt, mm') ∧ sound ow mm' ∧
    objects mm' = <[l:=mkObject (o_fields o) (o_steps o ++ [s])]> (objects mm) ∧ frame ow l mm mm' ∧
    get mm' l = EngineUtils.addTxStep now (get mm l) t log.
Proof.
  intros Hs Hl Hp Ho. destruct (newStep_spec _ _ (mkStep t now 0 0 log) Hs) as (m1 & E1 & Hs1 & Ho1 & Hst1 & Hb1 & Hp1).
  destruct (s_objects _ _ Hs l Hl) as (o1 & Ho' & Hd & Hx). simplify_eq.
  assert (brk mm ∉ o_steps o) as Hn. { intros Hin. eapply (Nat.lt_irrefl (brk mm)), sound_step_fresh; done. }
  assert (∀ l', ow l' ≠ Nowhere → get m1 l' = get mm l') as Hg.
  { intros l' Hl'. eapply (get_new_records ow); try done. intros s ?. rewrite Hst1, lookup_insert_ne by lia. done. }
  eexists (write l _ m1), (brk mm). split_and!.
  - unfold addTxStep, objectAt, mbind, M_bind, getS. rewrite E1, Ho1, Ho. reflexivity.
  - apply sound_write; [done|done|done| | |]; cbn [o_steps].
    + apply NoDup_app. split_and!; [done| |apply NoDup_singleton]. intros s Hin ->%list_elem_of_singleton. done.
    + intros s [Hin| ->%list_elem_of_singleton]%elem_of_app; rewrite Hst1; [|by rewrite lookup_insert_eq].
      rewrite lookup_insert_ne; [by apply Hx|]. by intros <-.
    + intros l' o' s Hl' Hne Ho2 [Hin| ->%list_elem_of_singleton]%elem_of_app Hin'; rewrite Ho1 in Ho2.
      * by eapply (s_apart _ _ Hs l l' o o').
      * eapply (Nat.lt_irrefl (brk mm)), sound_step_fresh; done.
  - cbn. by rewrite Ho1.
  - intros l' Hl' Hne. rewrite <-Hg by done. by apply (frame_write ow m1 l _ (brk m1)).
  - rewrite (get_object _ l (mkObject (o_fields o) (o_steps o ++ [brk mm]))) by (cbn; by rewrite lookup_insert_eq).
    unfold EngineUtils.addTxStep. rewrite (get_object _ _ _ Ho). unfold read. cbn [steps write set_objects o_steps o_fields].
    unfold stepsOf at 1. rewrite map_app. cbn [map]. rewrite Hst1, lookup_insert_eq. fold (stepsOf (<[brk mm:=mkStep t now 0 0 log]> (steps mm)) (o_steps o)).
    by rewrite stepsOf_fresh.
Qed.

(** [EnterNextStep] changes the message it is given like the function on values, and no other message; the
    step records it adds come last. *)
Lemma EnterNextStep_spec d now now' now'' t log ow mm l o :
  sound ow mm → ow l ≠ Nowhere → ow l ≠ InPool → objects mm !! l = Some o →
  ∃ mm' new, EnterNextStep d now now' now'' l t log mm = Ret (tt, mm') ∧ sound ow mm' ∧
    objects mm' = <[l:=mkObject (o_fields o) (o_steps o ++ new)]> (objects mm) ∧ frame ow l mm mm' ∧
    get mm' l = EngineUtils.EnterNextStep d now now' now'' (get mm l) t log.
Proof.
  intros Hs Hl Hp Ho. unfold EnterNextStep, EngineUtils.EnterNextStep. destruct d.
  { exists mm, []. split_and!; try done. rewrite app_nil_r. symmetry. apply insert_id. rewrite Ho. by destruct o. }
  destruct (endTxStep_if (t ≠ RUNTIME_PREPARE_TX_REQUEST) now ow mm l Hs Hl) as (m1 & E1 & Hs1 & Ho1 & Hf1 & Hg1).
  destruct (addTxStep_spec now' t log ow m1 l o) as (m2 & s & E2 & Hs2 & Ho2 & Hf2 & Hg2); [done|done|done|by rewrite Ho1|].
  destruct (endTxStep_if (t = RUNTIME_HANDLE_TX_RESPONSE ∨ t = ENGINE_PROCESS_RECEIVE_TX_RESPONSE) now'' ow m2 l Hs2 Hl)
    as (m3 & E3 & Hs3 & Ho3 & Hf3 & Hg3).
  exists m3, [s]. split_and!; [|done|congruence| |].
  - unfold mbind, M_bind. by rewrite E1, E2, E3.
  - intros l' Hl' Hne. by rewrite Hf3, Hf2, Hf1.
  - by rewrite Hg3, Hg2, Hg1.
Qed.

(** An arriving message is decoded into an empty object. *)
Lemma RecvMsg_spec merge ow mm l m :
  (∀ m, merge emptyMessage m = m) → sound ow mm → ow l ≠ Nowhere → ow l ≠ InPool →
  objects mm !! l = Some empty_object →
  ∃ mm', RecvMsg merge l m mm = Ret (tt, mm') ∧ sound ow mm' ∧ frame ow l mm mm' ∧ get mm' l = m.
Proof.
  intros Hm Hs Hl Hp Ho. destruct (newSteps_spec (m_StepDurations m) ow mm Hs)
    as (ss & m1 & E1 & Hs1 & Ho1 & Hst & Hd & Hin & Hk & Hb & Hp1).
  eexists (write l (mkObject (set_steps [] m) ss) m1). split_and!.
  - unfold RecvMsg, objectAt, mbind, M_bind, getS. rewrite Ho. cbn [deref mret M_ret].
    change (read mm empty_object) with emptyMessage. rewrite Hm, E1. reflexivity.
  - apply sound_write; [done|done|done|done|by intros s [_ ?]%Hin|]. cbn. rewrite Ho1.
    intros l' o' s Hl' Hne Ho' [Hge _]%Hin Hin'. eapply (sound_step_fresh ow mm l') in Hin'; [lia|done..].
  - intros l' Hl' Hne. trans (get m1 l'); [by apply (frame_write ow m1 l _ (brk m1))|]. by eapply (get_new_records ow).
  - rewrite (get_object _ l (mkObject (set_steps [] m) ss)) by (cbn; by rewrite lookup_insert_eq).
    unfold read. cbn [o_steps o_fields steps write set_objects]. rewrite Hst. by destruct m.
Qed.

(** ** Code with references behaves like code with values *)

(** Two runs that end in the same way, with related results. *)
Definition rel_out {A B} (R : A → B → Prop) (x : outcome A) (y : outcome B) : Prop :=
  match x, y with
  | Ret a, Ret b => R a b
  | Panic, Panic | Block, Block => True
  | _, _ => False
  end.

(** From a state that satisfies [P], [m] does with references what [f] does with values, and ends in [Q]. *)
Definition sim {A} (P : memory → process → Prop) (m : MP A) (f : M Process.Process A)
    (Q : A → memory → process → Prop) : Prop :=
  ∀ mm q, P mm q →
    rel_out (λ '(a, (mm', q')) '(b, p'), a = b ∧ p' = view mm' q' ∧ Q a mm' q') (m (mm, q)) (f (view mm q)).

Lemma sim_bind {A B} P R Q (m : MP A) (f : M Process.Process A) (k : A → MP B) (g : A → M Process.Process B) :
  sim P m f R → (∀ a, sim (R a) (k a) (g a) Q) → sim P (m ≫= k) (f ≫= g) Q.
Proof.
  intros Hm Hk mm q HP. specialize (Hm mm q HP). unfold mbind, M_bind.
  destruct (m (mm, q)) as [[a [mm' q']]| |], (f (view mm q)) as [[b p']| |]; try done.
  destruct Hm as (-> & -> & HR). by apply Hk.
Qed.

Lemma sim_ret {A} (P : memory → process → Prop) (a : A) (Q : A → memory → process → Prop) :
  (∀ mm q, P mm q → Q a mm q) → sim P (mret a) (mret a) Q.
Proof. intros HQ mm q HP. cbn. auto. Qed.

Lemma sim_pre {A} (P P' : memory → process → Prop) (m : MP A) f Q :
  (∀ mm q, P mm q → P' mm q) → sim P' m f Q → sim P m f Q.
Proof. intros Hp Hm mm q HP. auto. Qed.

Lemma sim_block {A} P Q : sim (A := A) P block block Q.
Proof. done. Qed.

(** The state is known. *)
Lemma sim_at {A} P (m : MP A) f Q :
  (∀ mm q, P mm q → sim (λ mm' q', mm' = mm ∧ q' = q) m f Q) → sim P m f Q.
Proof. intros Hm mm q HP. by apply (Hm mm q HP). Qed.

(** Work on the memory that the process does not see. *)
Lemma sim_mem {A B} (P : memory → process → Prop) (op : M memory A) (k : A → MP B) f R Q :
  (∀ mm q, P mm q → ∃ a mm', op mm = Ret (a, mm') ∧ view mm' q = view mm q ∧ R a mm' q) →
  (∀ a, sim (R a) (k a) f Q) → sim P (inMem op ≫= k) f Q.
Proof.
  intros Ho Hk mm q HP. destruct (Ho mm q HP) as (a & mm' & E & Hv & HR). unfold mbind, M_bind. cbn. rewrite E, <-Hv.
  by apply Hk.
Qed.

(** The references of a process stay as they are. *)
Definition keepsRefs (p p' : Process.Process) : Prop :=
  Process.p_Tx p' = Process.p_Tx p ∧ Process.p_respCh p' = Process.p_respCh p.

#[local] Instance keepsRefs_preorder : PreOrder keepsRefs.
Proof. split; unfold keepsRefs; [by intros p|intros p1 p2 p3; naive_solver congruence]. Qed.

Lemma view_refs mm q p : keepsRefs (view mm q) p → view mm (mkProc p (q_Tx q) (q_respCh q)) = p.
Proof. intros [Ht Hr]. destruct p. unfold view. cbn in *. by rewrite Ht, Hr. Qed.

Lemma sim_via {A} (P : memory → process → Prop) (f : M Process.Process A) (Q : A → memory → process → Prop) :
  preserves keepsRefs f →
  (∀ mm q a p, P mm q → f (view mm q) = Ret (a, p) → Q a mm (mkProc p (q_Tx q) (q_respCh q))) → sim P (via f) f Q.
Proof.
  intros Hk HQ mm q HP. unfold via. destruct (f (view mm q)) as [[a p]| |] eqn:E; [|done..].
  cbn. split_and!; [done| |by apply HQ]. by rewrite view_refs by (by eapply Hk).
Qed.

Ltac refs_tac := preserves_tac ltac:(done).

Lemma refs_popTimer : preserves keepsRefs Process.popTimer.
Proof. unfold Process.popTimer. refs_tac. Qed.
Lemma refs_startTimer : preserves keepsRefs Process.startTimer.
Proof. unfold Process.startTimer. refs_tac. apply refs_popTimer. Qed.
Lemma refs_update st : preserves keepsRefs (Process.updateProcessState st).
Proof. unfold Process.updateProcessState. refs_tac; apply refs_startTimer. Qed.
Lemma refs_stream : preserves keepsRefs Process.SetStream.
Proof. unfold Process.SetStream. refs_tac. apply refs_update. Qed.

Section refs.
Context (e : Process.env).

Lemma refs_kill s : preserves keepsRefs (Process.killProcess e s).
Proof. unfold Process.killProcess. refs_tac. Qed.
Lemma refs_send m : preserves keepsRefs (Process.sendMsg e m).
Proof. unfold Process.sendMsg. refs_tac. Qed.
Lemma refs_txError id msg : preserves keepsRefs (Process.returnTxErrorResp e id msg).
Proof. unfold Process.returnTxErrorResp. refs_tac. Qed.
Lemma refs_exitResp er : preserves keepsRefs (Process.returnSandboxExitResp e er).
Proof. unfold Process.returnSandboxExitResp. refs_tac. Qed.
Lemma refs_badContract v : preserves keepsRefs (Process.returnBadContractResp e v).
Proof. unfold Process.returnBadContractResp. refs_tac. Qed.
Lemma refs_idle tx : preserves keepsRefs (Process.handleIdleTxRequest e tx).
Proof. unfold Process.handleIdleTxRequest. refs_tac; apply refs_update. Qed.
Lemma refs_resp m : preserves keepsRefs (Process.handleTxResp e m).
Proof. unfold Process.handleTxResp. refs_tac; first [apply refs_update|apply refs_kill]. Qed.
Lemma refs_timer : preserves keepsRefs (Process.onTimer e).
Proof.
  unfold Process.onTimer, Process.takeTimer, Process.handleTimeout. refs_tac; first [apply refs_update|apply refs_kill].
Qed.
Lemma refs_finishExit x d : preserves keepsRefs (Process.finishExit e x d).
Proof.
  unfold Process.finishExit, Process.deferredPop.
  refs_tac; first [apply refs_txError|apply refs_exitResp|apply refs_badContract|apply refs_popTimer].
Qed.
Lemma refs_change c n v name : preserves keepsRefs (Process.ChangeSandbox e c n v name).
Proof. unfold Process.ChangeSandbox, Process.resetContext. refs_tac; first [apply refs_update|apply refs_kill]. Qed.
Lemma refs_close : preserves keepsRefs (Process.CloseSandbox e).
Proof. unfold Process.CloseSandbox. refs_tac; first [apply refs_update|apply refs_kill]. Qed.
Lemma refs_launch o : preserves keepsRefs (Process.launchProcess e o).
Proof. unfold Process.launchProcess. refs_tac. Qed.
End refs.

(** ** A transaction is handled *)

(** The messages of a process are its own. *)
Definition owned (ow : loc → place) (name : string) (q : process) : Prop :=
  (∀ l, q_Tx q = Some l → ow l = TxOf name) ∧ (∀ l, l ∈ q_respCh q → ow l = RespOf name) ∧ NoDup (q_respCh q).

(** The messages that are neither in the pool nor in [T] stay where they are and as they are. *)
Definition kept (T : list loc) (ow ow' : loc → place) (mm mm' : memory) : Prop :=
  ∀ l, ow l ≠ Nowhere → ow l ≠ InPool → l ∉ T → ow' l = ow l ∧ get mm' l = get mm l.

Lemma kept_frame T ow ow1 ow2 l mm mm1 mm2 :
  kept T ow ow1 mm mm1 → frame ow1 l mm1 mm2 → (∀ l', l' ≠ l → ow2 l' = ow1 l') →
  (l ∈ T ∨ ow1 l = InPool ∨ ow1 l = Nowhere ∨ ow1 l = Held) → (∀ l', ow l' ≠ Held) → kept T ow ow2 mm mm2.
Proof.
  intros Hk Hf Ho Hl Hh l' H1 H2 HT. destruct (Hk l' H1 H2 HT) as [Eo Eg].
  assert (l' ≠ l) as Hne. { intros ->. specialize (Hh l). destruct Hl as [?|[?|[?|?]]]; congruence. }
  split; [by rewrite Ho|]. rewrite Hf; [done|congruence|done].
Qed.

Lemma view_ext mm mm' q :
  (∀ l, q_Tx q = Some l ∨ l ∈ q_respCh q → get mm' l = get mm l) → view mm' q = view mm q.
Proof.
  intros Hg. unfold view. f_equal.
  - apply map_ext_in. intros l Hl%list_elem_of_In. auto.
  - f_equal. destruct (q_Tx q) eqn:E; [|done]. cbn. by rewrite Hg by auto.
Qed.

Lemma sim_get {A} (P : memory → process → Prop) (k : memory * process → MP A) g Q :
  (∀ mm q, P mm q → sim (λ mm' q', mm' = mm ∧ q' = q) (k (mm, q)) (g (view mm q)) Q) → sim P (getS ≫= k) (getS ≫= g) Q.
Proof. intros Hk mm q HP. by apply (Hk mm q HP). Qed.

Lemma sim_get_l {A} (P : memory → process → Prop) (k : memory * process → MP A) g Q :
  (∀ mm q, P mm q → sim (λ mm' q', mm' = mm ∧ q' = q) (k (mm, q)) g Q) → sim P (getS ≫= k) g Q.
Proof. intros Hk mm q HP. by apply (Hk mm q HP). Qed.

(** Work on the memory and on the references, in the way of an update of the process. *)
Lemma sim_mem_modify {A B} (P : memory → process → Prop) (op : M memory A) (k : A → MP B) h g R Q :
  (∀ mm q, P mm q → ∃ a mm', op mm = Ret (a, mm') ∧ view mm' q = h (view mm q) ∧ R a mm' q) →
  (∀ a, sim (R a) (k a) (g tt) Q) → sim P (inMem op ≫= k) (modifyS h ≫= g) Q.
Proof.
  intros Ho Hk mm q HP. destruct (Ho mm q HP) as (a & mm' & E & Hv & HR). unfold mbind, M_bind. cbn. rewrite E, <-Hv.
  by apply Hk.
Qed.

Section handleTx.
Context (e : Process.env) (name : string) (tx : loc) (ow0 : loc → place) (mm0 : memory) (q0 : process).
Hypothesis (Hs0 : sound ow0 mm0) (Hq0 : owned ow0 name q0) (Htx : ow0 tx = InChan) (Hheld : ∀ l, ow0 l ≠ Held).

(** Between the assignments of the handler: the process has its new transaction, [ow] says where the messages are. *)
Definition taken (ow : loc → place) (mm : memory) (q : process) : Prop :=
  sound ow mm ∧ owned ow name q ∧ kept (tx :: option_list (q_Tx q0)) ow0 ow mm0 mm ∧ q_Tx q = Some tx.

Lemma taken_tx ow mm q : taken ow mm q → ow tx = TxOf name.
Proof. intros (_ & [H _] & _ & E). auto. Qed.

(** What is done to a message that the process does not have leaves the process as it is. *)
Lemma taken_frame ow ow' mm mm' q l :
  taken ow mm q → frame ow l mm mm' → sound ow' mm' → (∀ l', l' ≠ l → ow' l' = ow l') →
  (ow l = InPool ∨ ow l = Nowhere ∨ ow l = Held) →
  taken ow' mm' q ∧ view mm' q = view mm q ∧ get mm' tx = get mm tx.
Proof.
  intros (Hs & (Ht & Hr & Hd) & Hk & Etx) Hf Hs' Ho Hl.
  assert (∀ l', q_Tx q = Some l' ∨ l' ∈ q_respCh q → l' ≠ l ∧ ow l' ≠ Nowhere) as Hn.
  { intros l' [H%Ht|H%Hr]; (split; [|congruence]); intros ->; destruct Hl as [|[|]]; congruence. }
  assert (∀ l', q_Tx q = Some l' ∨ l' ∈ q_respCh q → get mm' l' = get mm l') as Hg.
  { intros l' [? ?]%Hn. by apply Hf. }
  split_and!; [|by apply view_ext|by auto]. split_and!; [done| |by eapply kept_frame; eauto|done].
  split_and!; [| |done]; intros l' Hl'; rewrite Ho; auto; apply Hn; auto.
Qed.

(** The transaction before goes to the pool and the new one takes its place. *)
Lemma swap_spec :
  ∃ ow mm, ReturnToPool (q_Tx q0) mm0 = Ret (tt, mm) ∧ taken ow mm (mkProc (q_p q0) (Some tx) (q_respCh q0)) ∧
    get mm tx = get mm0 tx ∧ view mm (mkProc (q_p q0) (Some tx) (q_respCh q0)) = Process.set_tx (Some (get mm0 tx)) (view mm0 q0).
Proof.
  destruct Hq0 as (Ht & Hr & Hd).
  assert (∃ ow mm, ReturnToPool (q_Tx q0) mm0 = Ret (tt, mm) ∧ sound ow mm ∧
    (∀ l, ow0 l ≠ Nowhere → l ∉ option_list (q_Tx q0) → ow l = ow0 l ∧ get mm l = get mm0 l)) as (ow & mm & E & Hs & Hk).
  { destruct (q_Tx q0) as [l|] eqn:El; [|by exists ow0, mm0].
    destruct (ReturnToPool_spec ow0 mm0 l) as (mm & E & Hs & Hf); [done|rewrite (Ht l); done..|].
    exists (upd ow0 l InPool), mm. split_and!; [done|done|]. cbn. intros l' Hl' Hn%not_elem_of_cons.
    rewrite upd_ne by naive_solver. split; [done|]. apply Hf; naive_solver. }
  assert (∀ l, l ∈ option_list (q_Tx q0) → ow0 l = TxOf name) as Hold.
  { intros l. destruct (q_Tx q0); cbn; [|by intros ?%elem_of_nil]. intros ->%list_elem_of_singleton. by apply Ht. }
  assert (∀ l, ow0 l ≠ Nowhere → ow0 l ≠ TxOf name → ow l = ow0 l ∧ get mm l = get mm0 l) as Hk'.
  { intros l ? ?. apply Hk; [done|]. intros ?%Hold. done. }
  destruct (Hk' tx) as [Eo Eg]; [congruence..|].
  assert (∀ l, l ∈ q_respCh q0 → l ≠ tx ∧ ow l = RespOf name ∧ get mm l = get mm0 l) as Hresp.
  { intros l Hl%Hr. destruct (Hk' l) as [-> ->]; [congruence..|]. split_and!; [congruence|done|done]. }
  exists (upd ow tx (TxOf name)), mm. split_and!; [done| |done|].
  - split_and!; [apply sound_move; congruence| | |done].
    + split_and!; cbn; [intros l [= <-]; apply upd_eq| |done]. intros l (? & ? & ?)%Hresp. by rewrite upd_ne.
    + intros l H1 H2 [? ?]%not_elem_of_cons. rewrite upd_ne by done. by apply Hk.
  - unfold view. cbn. rewrite Eg. replace (map (get mm) (q_respCh q0)) with (map (get mm0) (q_respCh q0)); [done|].
    apply map_ext_in. intros l Hl%list_elem_of_In. symmetry. by apply Hresp.
Qed.

(** The message that is sent, after [EnterNextStep] has been applied to the transaction it shares its steps with. *)
Lemma shared_steps ow mm mm' q msg t o d now ty log :
  taken ow mm q → ow msg = Nowhere → objects mm !! tx = Some t → objects mm !! msg = Some o → o_steps o = o_steps t →
  EnterNextStep d now now now tx ty log mm = Ret (tt, mm') →
  taken ow mm' q ∧ view mm' q = Process.set_tx (Some (EngineUtils.EnterNextStep d now now now (get mm tx) ty log)) (view mm q) ∧
  get mm' tx = EngineUtils.EnterNextStep d now now now (get mm tx) ty log ∧ objects mm' !! msg = Some o ∧
  get mm' msg = set_steps (take (length (m_StepDurations (get mm tx)))
    (m_StepDurations (EngineUtils.EnterNextStep d now now now (get mm tx) ty log))) (o_fields o).
Proof.
  intros Htk Hn Ht Ho Eo Em. pose proof (taken_tx _ _ _ Htk) as Hot.
  destruct Htk as (Hs & (Htq & Hr & Hd) & Hk & Etx).
  destruct (EnterNextStep_spec d now now now ty log ow mm tx t) as (mm1 & new & E & Hs1 & Ho1 & Hf & Hg); [done|congruence..|done|].
  rewrite E in Em. injection Em as <-. assert (tx ≠ msg) as Hne by congruence.
  assert (objects mm1 !! msg = Some o) as Hom by by rewrite Ho1, lookup_insert_ne.
  assert (∀ l, l ∈ q_respCh q → get mm1 l = get mm l) as Hgr.
  { intros l Hl. specialize (Hr _ Hl). apply Hf; congruence. }
  split_and!; [| |done|done|].
  - split_and!; [done|done| |done]. eapply kept_frame; [done|done|done|left; apply list_elem_of_here|done].
  - unfold view. cbn. rewrite Etx. cbn. rewrite Hg.
    replace (map (get mm1) (q_respCh q)) with (map (get mm) (q_respCh q)); [done|].
    apply map_ext_in. intros l Hl%list_elem_of_In. symmetry. by apply Hgr.
  - rewrite (get_object _ _ _ Hom). unfold read. f_equal. rewrite Eo, <-Hg.
    rewrite (get_object _ tx _ Ht), (get_object mm1 tx (mkObject (o_fields t) (o_steps t ++ new))) by (by rewrite Ho1, lookup_insert_eq).
    unfold read. cbn. unfold stepsOf. rewrite map_app, length_map, take_app_length'; [done|by rewrite length_map].
Qed.
(** The states of the handler: where the messages are, the contents of the transaction, the responses. *)
Definition running (ow : loc → place) (mm : memory) (q : process) : Prop :=
  taken ow mm q ∧ get mm tx = get mm0 tx ∧ q_respCh q = q_respCh q0.

Lemma sim_swap {A} (k : unit → MP A) g Q :
  sim (λ mm q, ∃ ow, running ow mm q) (k tt) (g tt) Q →
  sim (λ mm q, mm = mm0 ∧ q = q0) (inMem (ReturnToPool (q_Tx q0)) ≫= λ _, setTx (Some tx) ≫= k)
    (modifyS (Process.set_tx (Some (get mm0 tx))) ≫= g) Q.
Proof.
  intros Hk mm q [-> ->]. destruct swap_spec as (ow & mm & E & Ht & Hg & Hv).
  unfold mbind, M_bind. cbn. rewrite E. cbn. rewrite <-Hv. apply Hk. by exists ow.
Qed.

(** How the handler leaves the memory. *)
Definition handled (mm : memory) (q : process) : Prop :=
  m_TxId (get mm tx) = m_TxId (get mm0 tx) ∧ q_respCh q = q_respCh q0 ∧
  ∃ ow, sound ow mm ∧ owned ow name q ∧ kept (tx :: option_list (q_Tx q0)) ow0 ow mm0 mm ∧ ow tx ≠ Nowhere.

(** The transaction after its step, and the message that is sent for it. *)
Definition stepped : DockerVMMessage :=
  EngineUtils.EnterNextStep (Process.e_slowDisable e) (Process.e_now e) (Process.e_now e) (Process.e_now e) (get mm0 tx)
    ENGINE_PROCESS_SEND_TX_REQUEST ("waitingLen:" +:+ itoa (Process.e_txChLen e)).
Definition outgoing (chainID : string) : DockerVMMessage :=
  let t := get mm0 tx in
  mkMessage (m_TxId t) UNDEFINED (m_CrossContext t) None (m_Request t) None chainID
    (take (length (m_StepDurations t)) (m_StepDurations stepped)).

(** The fields of the message are set, and the transaction enters its next step. *)
Lemma assemble ow mm q msg chainID :
  running ow mm q → ow msg = Held →
  ∃ t mm2, objects mm !! tx = Some t ∧
    let f := o_fields t in
    let o := mkObject (mkMessage (m_TxId f) UNDEFINED (m_CrossContext f) None (m_Request f) None chainID []) (o_steps t) in
    EnterNextStep (Process.e_slowDisable e) (Process.e_now e) (Process.e_now e) (Process.e_now e) tx
      ENGINE_PROCESS_SEND_TX_REQUEST ("waitingLen:" +:+ itoa (Process.e_txChLen e)) (write msg o mm) = Ret (tt, mm2) ∧
    view (write msg o mm) q = view mm q ∧ view mm2 q = Process.set_tx (Some stepped) (view mm q) ∧
    objects mm2 !! msg = Some o ∧ get mm2 msg = outgoing chainID ∧ get mm2 tx = stepped ∧ taken (upd ow msg Nowhere) mm2 q.
Proof.
  intros (Htk & Hg & Hq) Hmsg. pose proof (taken_tx _ _ _ Htk) as Hot.
  destruct (sound_object ow mm tx) as (t & Hto & Hgt); [apply Htk|congruence|]. assert (tx ≠ msg) as Hne by congruence.
  exists t. set (f := o_fields t). cbn zeta.
  set (o := mkObject (mkMessage (m_TxId f) UNDEFINED (m_CrossContext f) None (m_Request f) None chainID []) (o_steps t)).
  assert (objects (write msg o mm) !! msg = Some o) as Ho1 by (cbn; by rewrite lookup_insert_eq).
  assert (objects (write msg o mm) !! tx = Some t) as Ht1 by (cbn; by rewrite lookup_insert_ne).
  destruct (taken_frame ow (upd ow msg Nowhere) mm (write msg o mm) q msg) as (Htk1 & Hv1 & Hg1);
    [done|apply (frame_write ow mm msg o (brk mm))|apply sound_forget; [apply Htk|congruence..]|by intros; apply upd_ne|naive_solver|].
  destruct (EnterNextStep_spec (Process.e_slowDisable e) (Process.e_now e) (Process.e_now e) (Process.e_now e)
    ENGINE_PROCESS_SEND_TX_REQUEST ("waitingLen:" +:+ itoa (Process.e_txChLen e)) (upd ow msg Nowhere) (write msg o mm) tx t)
    as (mm2 & new & E2 & _); [apply Htk1|rewrite upd_ne by done; congruence..|done|].
  destruct (shared_steps (upd ow msg Nowhere) _ mm2 q msg t o _ _ _ _ Htk1 (upd_eq _ _ _) Ht1 Ho1 eq_refl E2)
    as (Htk2 & Hv2 & Hg2 & Ho2 & Hm2).
  rewrite Hg1, Hg in Hv2, Hg2, Hm2. fold stepped in Hv2, Hg2, Hm2. rewrite Hv1 in Hv2.
  exists mm2. split_and!; try done. rewrite Hm2. unfold outgoing. rewrite <-Hg, Hgt. by destruct t.
Qed.

(** The message from the pool, its fields, the step, and the sending. *)
Lemma send_sim pick :
  sim (λ mm q, ∃ ow, running ow mm q)
    (msg ← inMem (DockerVMMessageFromPool pick);
     '(_, q) ← getS;
     t ← inMem (objectAt tx);
     o ← inMem (objectAt msg);
     inMem (modifyS (write msg (mkObject
       (mkMessage (m_TxId (o_fields t)) (m_Type (o_fields o)) (m_CrossContext (o_fields t))
          (m_SysCallMessage (o_fields o)) (m_Request (o_fields t)) (m_Response (o_fields o))
          (Process.p_chainID (q_p q)) [])
       (o_steps t))));;
     inMem (EnterNextStep (Process.e_slowDisable e) (Process.e_now e) (Process.e_now e) (Process.e_now e) tx
              ENGINE_PROCESS_SEND_TX_REQUEST ("waitingLen:" +:+ itoa (Process.e_txChLen e)));;
     m ← contents msg;
     via (Process.sendMsg e m))
    (p ← getS; modifyS (Process.set_tx (Some stepped));; Process.sendMsg e (outgoing (Process.p_chainID p)))
    (λ _, handled).
Proof.
  apply (sim_mem _ _ _ _ (λ msg mm q, ∃ ow, running ow mm q ∧ ow msg = Held ∧ objects mm !! msg = Some empty_object)).
  { intros mm q (ow & Htk & Hg & Hq). destruct (FromPool_spec pick ow mm) as (msg & mm' & E & Hpl & Ho & _ & Hs & Hf & _); [apply Htk|].
    destruct (taken_frame ow (upd ow msg Held) mm mm' q msg) as (Htk' & Hv & Hg'); [done..|by intros; apply upd_ne|naive_solver|].
    exists msg, mm'. split_and!; [done|done|]. exists (upd ow msg Held). split_and!; [|apply upd_eq|done].
    split_and!; [done|congruence|done]. }
  intros msg. apply sim_get. intros mm q (ow & Hrun & Hmsg & Hom).
  destruct (assemble ow mm q msg (Process.p_chainID (q_p q)) Hrun Hmsg) as (t & mm2 & Hto & E2 & Hv1 & Hv2 & Ho2 & Hm2 & Hg2 & Htk2).
  set (mm1 := write _ _ _) in E2, Hv1.
  apply (sim_mem _ _ _ _ (λ a mm' q', a = t ∧ mm' = mm ∧ q' = q)).
  { intros ? ? [-> ->]. exists t, mm. split_and!; try done. unfold objectAt, mbind, M_bind, getS. by rewrite Hto. }
  intros a. apply sim_at. intros ? ? (-> & -> & ->).
  apply (sim_mem _ _ _ _ (λ a mm' q', a = empty_object ∧ mm' = mm ∧ q' = q)).
  { intros ? ? [-> ->]. exists empty_object, mm. split_and!; try done. unfold objectAt, mbind, M_bind, getS. by rewrite Hom. }
  intros a. apply sim_at. intros ? ? (-> & -> & ->).
  apply (sim_mem _ _ _ _ (λ _ mm' q', mm' = mm1 ∧ q' = q)); [by intros ? ? [-> ->]; exists tt, mm1|].
  intros _. apply (sim_mem_modify _ _ _ _ _ (λ _ mm' q', mm' = mm2 ∧ q' = q)).
  { intros ? ? [-> ->]. exists tt, mm2. rewrite Hv1. by split_and!. }
  intros _. unfold contents.
  apply (sim_mem _ _ _ _ (λ m mm' q', m = get mm2 msg ∧ mm' = mm2 ∧ q' = q)).
  { intros ? ? [-> ->]. eexists _, mm2. unfold objectAt, mbind, M_bind, getS. rewrite Ho2. cbn.
    split_and!; [reflexivity|done|by rewrite (get_object _ _ _ Ho2)|done|done]. }
  intros a. apply sim_at. intros ? ? (-> & -> & ->). rewrite Hm2. apply sim_via; [apply refs_send|].
  intros ? ? ? p' [-> ->] _. split_and!; [rewrite Hg2; apply EnterNextStep_frame|apply Hrun|].
  exists (upd ow msg Nowhere). pose proof (taken_tx _ _ _ Htk2). split_and!; [apply Htk2|apply Htk2|apply Htk2|congruence].
Qed.

(** [handleTxRequest] with objects and the pool does what it does with values. *)
Lemma handleTxRequest_sim startTime pick :
  sim (λ mm q, mm = mm0 ∧ q = q0) (handleTxRequest e tx startTime pick)
    (Process.handleTxRequest e (mkTxPayload (get mm0 tx) startTime)) (λ _, handled).
Proof.
  unfold handleTxRequest, Process.handleTxRequest. cbn [tp_StartTime tp_Tx].
  assert (handled mm0 q0) as Hh0.
  { split_and!; [done|done|]. exists ow0. split_and!; [done|done|by intros ?|congruence]. }
  case_match; [by apply sim_ret; intros ? ? [-> ->]|]. case_match; [by apply sim_ret; intros ? ? [-> ->]|].
  apply sim_get_l. intros mm q [-> ->]. apply sim_swap.
  eapply sim_bind; [|intros u; apply send_sim]. apply sim_via; [apply refs_update|].
  intros mm q [] p' (ow & (Hs & Ho & Hk & Et) & Hg & Hq) _. by exists ow.
Qed.
End handleTx.

(** ** The engine *)

(** What happens in the engine to its messages, by position in the channels of requests and by name of the process. *)
Inductive pick :=
| PickTx (i : nat) (startTime : Z) (pick : option nat)
| PickTimer
| PickResp
| PickExit (x : option Process.exitErr) (head : option (nat * Z))
| PickUpdate.

(** Work of a process that does not touch its messages. *)
Inductive other :=
| OStream
| OChange (e : Process.env) (chainID contractName contractVersion processName : string)
| OClose (e : Process.env)
| OLaunch (e : Process.env) (l : Process.launch)
| OFire.

Definition runOther (o : other) : M Process.Process unit :=
  match o with
  | OStream => Process.SetStream
  | OChange e c n v name => Process.ChangeSandbox e c n v name;; mret tt
  | OClose e => Process.CloseSandbox e;; mret tt
  | OLaunch e l => Process.launchProcess e l;; mret tt
  | OFire => modifyS (λ p, if Process.p_timerArmed p then Process.set_timer false true (Process.p_timerPopped p) p else p)
  end.

Inductive action :=
| ARequest (pick : option nat) (slowDisable : bool) (now : Z) (arrived : DockerVMMessage)  (* a request from the chain *)
| AResponse (name : string) (pick : option nat) (arrived : DockerVMMessage)  (* an answer from a sandbox *)
| AListen (e : Process.env) (name : string) (seen : Process.processState) (c : pick)
| AOther (name : string) (o : other)
| ANew (name : string) (p : Process.Process)
| ACollect (i : nat).

(** The position of the request that a listener takes from its channel. *)
Definition takes (c : pick) : option nat :=
  match c with
  | PickTx i _ _ => Some i
  | PickExit x (Some (i, _)) => if takesHead x then Some i else None
  | _ => None
  end.

(** Whether the request that was taken is put into the scheduler again. *)
Definition givesBack (e : Process.env) (seen : Process.processState) (c : pick) (m : DockerVMMessage) : bool :=
  match c with
  | PickTx _ _ _ => bool_decide (seen = Process.idle)
  | PickExit x _ => bool_decide (Process.exitError x = ContractNotExistError)
  | _ => false
  end && match @sched_PutMsg (Process.e_sched e) (AnyDockerVM m) with None => true | Some _ => false end.

(** The channels of requests after a round of the listener, of references and of values alike. *)
Definition chanAfter {A} (content : A → DockerVMMessage) (e : Process.env) (seen : Process.processState) (c : pick)
    (l : list A) : list A :=
  match takes c ≫= (λ i, (i,.) <$> l !! i) with
  | Some (i, x) => if givesBack e seen c (content x) then delete i l ++ [x] else delete i l
  | None => l
  end.

(** With objects: the requests in the channels of the scheduler and of the groups, and the processes. *)
Record world := mkWorld { w_mem : memory; w_chan : list loc; w_procs : gmap string process }.

(** With values. *)
Record vworld := mkVWorld { v_chan : list DockerVMMessage; v_procs : gmap string Process.Process }.

Definition abs (w : world) : vworld := mkVWorld (map (get (w_mem w)) (w_chan w)) (view (w_mem w) <$> w_procs w).

(** The choice of a listener, as references and as values. *)
Definition refChoice (l : list loc) (c : pick) : option choice :=
  match c with
  | PickTx i t p => x ← l !! i; Some (ChTx x t p)
  | PickTimer => Some ChTimer
  | PickResp => Some ChResp
  | PickExit x None => Some (ChExit x None)
  | PickExit x (Some (i, t)) => y ← l !! i; Some (ChExit x (Some (y, t)))
  | PickUpdate => Some ChUpdate
  end.

Definition valChoice (l : list DockerVMMessage) (c : pick) : option Process.choice :=
  match c with
  | PickTx i t p => x ← l !! i; Some (Process.ChTx (mkTxPayload x t))
  | PickTimer => Some Process.ChTimer
  | PickResp => Some Process.ChResp
  | PickExit x None => Some (Process.ChExit x None)
  | PickExit x (Some (i, t)) => y ← l !! i; Some (Process.ChExit x (Some (mkTxPayload y t)))
  | PickUpdate => Some Process.ChUpdate
  end.

(** A released process is gone unless its exit handler starts it again, for another contract. *)
Definition stays (released : bool) (p : Process.Process) (c : pick) : bool :=
  negb released || match c with
                   | PickExit x _ => negb (takesHead x) && bool_decide (Process.p_state p = Process.changing)
                   | _ => false
                   end.

Section world.
Context (merge : DockerVMMessage → DockerVMMessage → DockerVMMessage).

(** [recvMsg] of the two services: a message from the pool, filled by the stream. *)
Definition receive (pick : option nat) (arrived : DockerVMMessage) : M memory loc :=
  l ← DockerVMMessageFromPool pick; RecvMsg merge l arrived;; mret l.

Definition receiveRequest (pick : option nat) (slowDisable : bool) (now : Z) (arrived : DockerVMMessage) : M memory loc :=
  l ← receive pick arrived; EnterNextStep slowDisable now now now l ENGINE_GRPC_RECEIVE_TX_REQUEST "";; mret l.

Definition wstep (a : action) (w : world) : outcome world :=
  let '(mkWorld mm chan procs) := w in
  match a with
  | ARequest pick d now m =>
    match receiveRequest pick d now m mm with
    | Ret (l, mm') => Ret (mkWorld mm' (chan ++ [l]) procs)
    | Panic => Panic | Block => Block
    end
  | AResponse name pick m =>
    match procs !! name with
    | None => Block
    | Some q =>
      match q_respCh q with
      | [] => match receive pick m mm with
              | Ret (l, mm') => Ret (mkWorld mm' chan (<[name:=mkProc (q_p q) (q_Tx q) [l]]> procs))
              | Panic => Panic | Block => Block
              end
      | _ => Block
      end
    end
  | AListen e name seen c =>
    match procs !! name, refChoice chan c with
    | Some q, Some ch =>
      match listenProcess e seen ch (mm, q) with
      | Ret (released, (mm', q')) =>
        Ret (mkWorld mm' (chanAfter (get mm) e seen c chan)
               (if stays released (q_p q) c then <[name:=q']> procs else delete name procs))
      | Panic => Panic | Block => Block
      end
    | _, _ => Block
    end
  | AOther name o =>
    match procs !! name with
    | None => Block
    | Some q => match via (runOther o) (mm, q) with
                | Ret (_, (mm', q')) => Ret (mkWorld mm' chan (<[name:=q']> procs))
                | Panic => Panic | Block => Block
                end
    end
  | ANew name p => if decide (procs !! name = None) then Ret (mkWorld mm chan (<[name:=mkProc p None []]> procs)) else Block
  | ACollect i => Ret (mkWorld (set_pool (delete i (pbPool mm)) mm) chan procs)
  end.

Definition vstep (a : action) (w : vworld) : outcome vworld :=
  let '(mkVWorld chan procs) := w in
  match a with
  | ARequest _ d now m =>
    Ret (mkVWorld (chan ++ [EngineUtils.EnterNextStep d now now now m ENGINE_GRPC_RECEIVE_TX_REQUEST ""]) procs)
  | AResponse name _ m =>
    match procs !! name with
    | None => Block
    | Some p => match Process.PutMsg m p with
                | Ret (_, p') => Ret (mkVWorld chan (<[name:=p']> procs))
                | Panic => Panic | Block => Block
                end
    end
  | AListen e name seen c =>
    match procs !! name, valChoice chan c with
    | Some p, Some ch =>
      match Process.listenProcess e seen ch p with
      | Ret (released, p') =>
        Ret (mkVWorld (chanAfter id e seen c chan)
               (if stays released p c then <[name:=p']> procs else delete name procs))
      | Panic => Panic | Block => Block
      end
    | _, _ => Block
    end
  | AOther name o =>
    match procs !! name with
    | None => Block
    | Some p => match runOther o p with
                | Ret (_, p') => Ret (mkVWorld chan (<[name:=p']> procs))
                | Panic => Panic | Block => Block
                end
    end
  | ANew name p =>
    if decide (procs !! name = None)
    then Ret (mkVWorld chan (<[name:=Process.set_respCh [] (Process.set_tx None p)]> procs)) else Block
  | ACollect _ => Ret (mkVWorld chan procs)
  end.

(** A sequence of actions, up to the first that does not end. *)
Fixpoint wrun (l : list action) (w : world) : outcome world :=
  match l with
  | [] => Ret w
  | a :: l => match wstep a w with Ret w' => wrun l w' | Panic => Panic | Block => Block end
  end.
Fixpoint vrun (l : list action) (w : vworld) : outcome vworld :=
  match l with
  | [] => Ret w
  | a :: l => match vstep a w with Ret w' => vrun l w' | Panic => Panic | Block => Block end
  end.
End world.

Definition empty_world : world := mkWorld (mkMemory ∅ ∅ [] 0) [] ∅.

(** ** The invariant of the engine *)

Record winv (ow : loc → place) (w : world) : Prop := {
  wi_sound : sound ow (w_mem w);
  wi_chan : ∀ l, l ∈ w_chan w → ow l = InChan;
  wi_once : NoDup (w_chan w);
  wi_procs : ∀ name q, w_procs w !! name = Some q → owned ow name q;
  wi_held : ∀ l, ow l ≠ Held;
}.

(** Where the messages are that a listener may change: the one it receives and those of its process. *)
Definition headOf (c : choice) : list loc :=
  match c with ChTx tx _ _ => [tx] | ChExit _ (Some (l, _)) => [l] | _ => [] end.
Definition touched (c : choice) (q : process) : list loc := headOf c ++ option_list (q_Tx q) ++ q_respCh q.

Definition valOf (mm : memory) (c : choice) : Process.choice :=
  match c with
  | ChTx tx t _ => Process.ChTx (mkTxPayload (get mm tx) t)
  | ChTimer => Process.ChTimer
  | ChResp => Process.ChResp
  | ChExit x h => Process.ChExit x ((λ '(l, t), mkTxPayload (get mm l) t) <$> h)
  | ChUpdate => Process.ChUpdate
  end.

(** The handler of an exit that takes a request releases its process. *)
Lemma decideExit_refs e x h p d p1 :
  Process.decideExit e x h p = Ret (d, p1) →
  Process.p_respCh p1 = Process.p_respCh p ∧
  Process.p_Tx p1 = (if takesHead x then from_option (λ tx, Some (tp_Tx tx)) (Process.p_Tx p) h else Process.p_Tx p) ∧
  (takesHead x = true → Process.d_released d = true).
Proof.
  unfold Process.decideExit, takesHead. intros Hd. apply bind_Ret in Hd as (? & ? & [= <- <-] & Hd).
  destruct (decide (_ = ContractExecError)) as [E|E].
  { rewrite bool_decide_eq_true_2 by done. destruct h; minv; by cbn. }
  destruct (decide (_ = ContractNotExistError)) as [E'|E'].
  { rewrite (bool_decide_eq_true_2 (_ = ContractNotExistError)), orb_true_r by done. destruct h; minv; by cbn. }
  rewrite !bool_decide_eq_false_2 by done. cbn.
  match type of Hd with ?m _ = _ => assert (preserves keepsRefs m) as Hk by (refs_tac; apply refs_update) end.
  destruct (Hk _ _ _ Hd). done.
Qed.

(** What the running handler still held is forgotten. *)
Definition clean (ow : loc → place) : loc → place := λ l, if decide (ow l = Held) then Nowhere else ow l.

Lemma clean_spec ow l : clean ow l ≠ Held ∧ (ow l ≠ Held → clean ow l = ow l) ∧ (clean ow l ≠ Nowhere → ow l ≠ Nowhere).
Proof. unfold clean. case_decide; naive_solver congruence. Qed.

Lemma sound_clean ow mm : sound ow mm → sound (clean ow) mm.
Proof.
  intros Hs. assert (∀ l, clean ow l ≠ Nowhere → ow l ≠ Nowhere) as Hn by (intros l; apply clean_spec).
  split; [| |apply (s_brk _ _ Hs)| |apply (s_once _ _ Hs)].
  - intros l Hl%Hn. by apply (s_objects _ _ Hs).
  - intros l1 l2 o o' s H1%Hn H2%Hn. by apply (s_apart _ _ Hs).
  - intros l [Ho ?]%(s_pool _ _ Hs). destruct (clean_spec ow l) as (_ & E & _). by rewrite E; rewrite Ho.
Qed.

Lemma bind_run {S A B} (m : M S A) (f : A → M S B) s :
  (m ≫= f) s = match m s with Ret (a, s') => f a s' | Panic => Panic | Block => Block end.
Proof. done. Qed.

Section listen.
Context (e : Process.env) (name : string) (ow0 : loc → place) (mm0 : memory) (q0 : process).
Hypothesis (Hs0 : sound ow0 mm0) (Hq0 : owned ow0 name q0) (Hheld : ∀ l, ow0 l ≠ Held).

(** A request is taken by the handler of an exit. *)
Definition headTaken (c : choice) : bool := match c with ChExit x (Some _) => takesHead x | _ => false end.

(** How a round of the listener leaves the memory. *)
Definition listened (seen : Process.processState) (c : choice) (released : bool) (mm : memory) (q : process) : Prop :=
  (headTaken c = true → released = true) ∧
  ∃ ow, sound ow mm ∧ (∀ l, ow l ≠ Held) ∧ kept (touched c q0) ow0 ow mm0 mm ∧ (headTaken c = false → owned ow name q) ∧
    (seen ≠ Process.ready ∨ (∀ l t k, c ≠ ChTx l t k) → ∀ l, l ∈ headOf c → ow l = InChan ∧ get mm l = get mm0 l).

(** Rounds that change no message. *)
Lemma listened_same seen c released q :
  (∀ l, l ∈ headOf c → ow0 l = InChan) → (headTaken c = true → released = true) →
  (headTaken c = false → q_Tx q = q_Tx q0 ∧ q_respCh q = q_respCh q0) → listened seen c released mm0 q.
Proof.
  intros Hh Hr Hq. split; [done|]. exists ow0. split_and!; [done|done|by intros ?| |by auto].
  intros [E1 E2]%Hq. unfold owned. by rewrite E1, E2.
Qed.

(** A round that follows references without changing any. *)
Lemma via_round {A} seen c (f : M Process.Process A) :
  (∀ l, l ∈ headOf c → ow0 l = InChan) → headTaken c = false → preserves keepsRefs f →
  sim (λ mm q, mm = mm0 ∧ q = q0) (via f;; mret false) (f;; mret false) (listened seen c).
Proof.
  intros Hh Ht Hf. apply (sim_bind _ (λ _ mm q, mm = mm0 ∧ q_Tx q = q_Tx q0 ∧ q_respCh q = q_respCh q0)).
  - apply sim_via; [done|]. by intros ? ? ? ? [-> ->] _.
  - intros _. apply sim_ret. intros ? q (-> & E1 & E2). apply listened_same; [done|by rewrite Ht|done].
Qed.

Lemma exit_round seen x h :
  (∀ l, l ∈ headOf (ChExit x h) → ow0 l = InChan) →
  sim (λ mm q, mm = mm0 ∧ q = q0) (handleProcessExit e x h)
    (Process.handleProcessExit e x ((λ '(l, t), mkTxPayload (get mm0 l) t) <$> h)) (listened seen (ChExit x h)).
Proof.
  intros Hh mm q [-> ->]. unfold handleProcessExit, Process.handleProcessExit.
  set (h' := (λ '(l, t), mkTxPayload (get mm0 l) t) <$> h).
  unfold mbind at 1, M_bind at 1.
  assert ((match h with None => mret None | Some (l, startTime) => m ← contents l; mret (Some (mkTxPayload m startTime)) end : MP _)
    (mm0, q0) = Ret (h', (mm0, q0))) as ->.
  { destruct h as [[l t]|]; [|done]. unfold mbind, M_bind. rewrite (contents_eval ow0); [done|done|].
    rewrite Hh; [done|]. by left. }
  rewrite (bind_run (via _)), (bind_run (Process.decideExit _ _ _)). unfold via at 1.
  destruct (Process.decideExit e x h' (view mm0 q0)) as [[d p1]| |] eqn:Ed; [|done..].
  destruct (decideExit_refs _ _ _ _ _ _ Ed) as (Er & Et & Hrel).
  set (tx1 := match h with Some (l, _) => if takesHead x then Some l else q_Tx q0 | None => q_Tx q0 end).
  assert (view mm0 (mkProc p1 tx1 (q_respCh q0)) = p1) as Hv.
  { clear Ed. destruct p1. unfold view. cbn in *. rewrite Er, Et. f_equal. unfold tx1, h'. by destruct h as [[l t]|], (takesHead x). }
  unfold mbind at 1, M_bind at 1.
  assert ((match h with Some (l, _) => if takesHead x then setTx (Some l) else mret tt | None => mret tt end : MP unit)
    (mm0, mkProc p1 (q_Tx q0) (q_respCh q0)) = Ret (tt, (mm0, mkProc p1 tx1 (q_respCh q0)))) as ->.
  { unfold tx1. by destruct h as [[l t]|], (takesHead x). }
  rewrite <-Hv at 2.
  apply (sim_bind (λ mm q, mm = mm0 ∧ q = mkProc p1 tx1 (q_respCh q0))
    (λ _ mm q, mm = mm0 ∧ q_Tx q = tx1 ∧ q_respCh q = q_respCh q0)); [| |done].
  - apply sim_via; [apply refs_finishExit|]. by intros ? ? ? ? [-> ->] _.
  - intros _. apply sim_ret. intros ? q (-> & E1 & E2). apply listened_same; [done| |].
    + unfold headTaken. destruct h; [|done]. apply Hrel.
    + unfold headTaken. intros Ht. rewrite E1, E2. unfold tx1. destruct h as [[l t]|]; [|done]. by rewrite Ht.
Qed.
Lemma owned_clean ow q : owned ow name q → owned (clean ow) name q.
Proof.
  intros (H1 & H2 & H3). split_and!; [| |done]; intros l Hl; destruct (clean_spec ow l) as (_ & E & _); rewrite E; auto.
  - by rewrite (H1 _ Hl).
  - by rewrite (H2 _ Hl).
Qed.

Lemma kept_weaken T T' ow mm : kept T ow0 ow mm0 mm → (∀ l, l ∈ T → l ∈ T') → kept T' ow0 (clean ow) mm0 mm.
Proof.
  intros Hk HT l H1 H2 Hl. destruct (Hk l H1 H2) as [E1 E2]; [auto|]. split; [|done].
  destruct (clean_spec ow l) as (_ & E & _). rewrite E; [done|]. rewrite E1. auto.
Qed.

Lemma tx_round tx startTime pick :
  ow0 tx = InChan →
  sim (λ mm q, mm = mm0 ∧ q = q0) (listenProcess e Process.ready (ChTx tx startTime pick))
    (Process.listenProcess e Process.ready (Process.ChTx (mkTxPayload (get mm0 tx) startTime)))
    (listened Process.ready (ChTx tx startTime pick)).
Proof.
  intros Htx. assert (∀ mm q, handled name tx ow0 mm0 q0 mm q → listened Process.ready (ChTx tx startTime pick) false mm q) as Hl.
  { intros mm q (_ & _ & ow & Hs & Ho & Hk & _). split; [done|]. exists (clean ow). split_and!.
    - by apply sound_clean.
    - intros l. apply clean_spec.
    - eapply kept_weaken; [done|]. intros l. unfold touched. cbn. rewrite !elem_of_cons, elem_of_app. naive_solver.
    - intros _. by apply owned_clean.
    - intros [?|Hn]; [done|]. by destruct (Hn tx startTime pick). }
  unfold Process.listenProcess, listenProcess. intros mm q Hat. rewrite (bind_run getS). cbn [getS].
  revert mm q Hat. change (sim (λ mm q, mm = mm0 ∧ q = q0)
    (er ← handleTxRequest e tx startTime pick;
     match er with
     | Some x => m ← contents tx; via (Process.returnTxErrorResp e (m_TxId m) (Process.errText x));; mret false
     | None => mret false
     end)
    (er ← Process.handleTxRequest e (mkTxPayload (get mm0 tx) startTime);
     match er with
     | Some x => Process.returnTxErrorResp e (m_TxId (get mm0 tx)) (Process.errText x);; mret false
     | None => mret false
     end) (listened Process.ready (ChTx tx startTime pick))).
  eapply sim_bind; [by apply (handleTxRequest_sim e name tx ow0)|]. intros [x|]; [|by apply sim_ret].
  intros mm q Hh. pose proof Hh as (Eid & Er & ow & Hs & Ho & Hk & Hn). rewrite bind_run, (contents_eval ow), Eid by done.
  apply (sim_bind (λ mm' q', mm' = mm ∧ q' = q) (λ _ mm' q', mm' = mm ∧ q_Tx q' = q_Tx q ∧ q_respCh q' = q_respCh q)); [| |done].
  - apply sim_via; [apply refs_txError|]. by intros ? ? ? ? [-> ->] _.
  - intros _. apply sim_ret. intros ? q' (-> & E1 & E2). apply Hl. split_and!; [done|congruence|].
    exists ow. split_and!; [done| |done|done]. unfold owned. by rewrite E1, E2.
Qed.

Lemma resp_round :
  sim (λ mm q, mm = mm0 ∧ q = q0) (listenProcess e Process.busy ChResp) (Process.listenProcess e Process.busy Process.ChResp)
    (listened Process.busy ChResp).
Proof.
  unfold Process.listenProcess, listenProcess. apply sim_get. intros mm q [-> ->]. cbn [view Process.p_respCh Process.set_respCh].
  destruct (q_respCh q0) as [|r rest] eqn:Eq; [by apply sim_block|]. cbn [map].
  destruct Hq0 as (Ht & Hr & Hd). rewrite Eq in Hr, Hd. apply NoDup_cons in Hd as [Hnr Hd].
  assert (ow0 r = RespOf name) as Hor by (apply Hr; by left).
  intros mm q [-> ->]. rewrite (bind_run (setRespCh rest)). cbn [setRespCh modifyS].
  rewrite (bind_run (contents r)), (contents_eval ow0) by (done || congruence).
  set (q1 := mkProc (q_p q0) (q_Tx q0) rest).
  rewrite (bind_run (modifyS (Process.set_respCh _))). cbn [modifyS].
  rewrite (bind_run (via _)), (bind_run (Process.handleTxResp _ _)). unfold via.
  change (Process.set_respCh (map (get mm0) rest) (view mm0 q0)) with (view mm0 q1).
  destruct (Process.handleTxResp e (get mm0 r) (view mm0 q1)) as [[er p1]| |] eqn:E1; [|done..].
  pose proof (refs_resp e _ _ _ _ E1) as Hk1. pose proof (view_refs _ _ _ Hk1) as Hv1. cbn [q_Tx q_respCh q1] in *.
  destruct (ReturnToPool_spec ow0 mm0 r Hs0) as (mm2 & E2 & Hs2 & Hf2); [congruence..|].
  rewrite (bind_run (inMem _)). unfold inMem. rewrite E2. cbn. split_and!; [done| |split; [done|]].
  - rewrite <-Hv1 at 1. symmetry. apply view_ext. cbn. intros l Hl. apply Hf2.
    + destruct Hl as [Hl|Hl]; [rewrite (Ht _ Hl)|rewrite Hr by (by right)]; done.
    + intros ->. destruct Hl as [Hl|Hl]; [|done]. apply Ht in Hl. congruence.
  - exists (upd ow0 r InPool). split_and!; [done| | | |by intros _ l ?%elem_of_nil].
    + intros l. unfold upd. by case_decide.
    + intros l H1 H2 Hl. assert (l ≠ r). { intros ->. apply Hl. unfold touched. rewrite Eq. cbn. rewrite elem_of_app. right. by left. }
      rewrite upd_ne by done. split; [done|]. by apply Hf2.
    + intros _. split_and!; cbn; [| |done].
      * intros l Hl%Ht. rewrite upd_ne; [done|]. congruence.
      * intros l Hl. rewrite upd_ne by (by intros ->). apply Hr. by right.
Qed.
Lemma update_round seen :
  match seen with Process.created | Process.changing | Process.closing | Process.timeout => True | _ => False end →
  sim (λ mm q, mm = mm0 ∧ q = q0) (listenProcess e seen ChUpdate) (Process.listenProcess e seen Process.ChUpdate)
    (listened seen ChUpdate).
Proof.
  intros Hseen. assert (listenProcess e seen ChUpdate = via (Process.listenProcess e seen Process.ChUpdate)) as -> by by destruct seen.
  apply sim_via.
  - unfold Process.listenProcess. destruct seen; refs_tac.
  - intros ? ? a p [-> ->] _. apply listened_same; [by intros l ?%elem_of_nil|done|done].
Qed.

Lemma idle_round tx startTime pick :
  ow0 tx = InChan →
  sim (λ mm q, mm = mm0 ∧ q = q0) (listenProcess e Process.idle (ChTx tx startTime pick))
    (Process.listenProcess e Process.idle (Process.ChTx (mkTxPayload (get mm0 tx) startTime)))
    (listened Process.idle (ChTx tx startTime pick)).
Proof.
  intros Htx mm q [-> ->]. unfold listenProcess, Process.listenProcess.
  rewrite (bind_run (contents tx)), (contents_eval ow0) by (done || congruence).
  rewrite (bind_run getS). cbn [getS].
  apply via_round; [by intros l ->%list_elem_of_singleton|done|apply refs_idle|done].
Qed.

Lemma timer_round seen :
  seen = Process.ready ∨ seen = Process.busy →
  sim (λ mm q, mm = mm0 ∧ q = q0) (listenProcess e seen ChTimer) (Process.listenProcess e seen Process.ChTimer)
    (listened seen ChTimer).
Proof.
  intros Hseen mm q [-> ->]. unfold Process.listenProcess. rewrite (bind_run getS). cbn [getS].
  assert (listenProcess e seen ChTimer = (via (Process.onTimer e);; mret false)) as -> by by destruct Hseen; subst.
  pose proof (via_round seen ChTimer (Process.onTimer e)) as H. 
  specialize (H ltac:(by intros l ?%elem_of_nil) eq_refl (refs_timer e) mm0 q0 (conj eq_refl eq_refl)).
 by destruct Hseen; subst.
Qed.

(** A round of the listener with objects is a round with values. *)
Lemma listen_sim seen c :
  (∀ l, l ∈ headOf c → ow0 l = InChan) →
  sim (λ mm q, mm = mm0 ∧ q = q0) (listenProcess e seen c) (Process.listenProcess e seen (valOf mm0 c)) (listened seen c).
Proof.
  intros Hh. destruct c as [tx t k| | |x h|].
  - assert (ow0 tx = InChan) by (apply Hh; by left).
    destruct seen; try (by intros mm q [-> ->]); [by apply tx_round|by apply idle_round].
  - destruct seen; try (by intros mm q [-> ->]); apply timer_round; auto.
  - destruct seen; try (by intros mm q [-> ->]). by apply resp_round.
  - pose proof (exit_round seen x h Hh) as He. by destruct seen; intros mm q Hat; apply He.
  - destruct seen; try (by intros mm q [-> ->]); by apply update_round.
Qed.
End listen.

(** ** The engine with objects behaves like the engine with values *)

(** The other processes are not concerned. *)
Lemma others_kept T ow ow' mm mm' chan procs n q :
  winv ow (mkWorld mm chan procs) → kept T ow ow' mm mm' →
  (∀ l, l ∈ T → ow l ≠ TxOf n ∧ ow l ≠ RespOf n) → procs !! n = Some q →
  owned ow' n q ∧ view mm' q = view mm q.
Proof.
  intros Hw Hk HT Hq. destruct (wi_procs _ _ Hw n q Hq) as (Ht & Hr & Hd).
  assert (∀ l, q_Tx q = Some l ∨ l ∈ q_respCh q → ow' l = ow l ∧ get mm' l = get mm l) as H.
  { intros l Hl. apply Hk; [destruct Hl as [H%Ht|H%Hr]; congruence..|].
    intros [? ?]%HT. destruct Hl as [?%Ht|?%Hr]; done. }
  split; [|apply view_ext; intros l Hl; by apply H].
  split_and!; [| |done]; intros l Hl; destruct (H l) as [-> _]; auto.
Qed.

Lemma places_others {T : list loc} {ow name n} :
  (∀ l, l ∈ T → ow l = TxOf name ∨ ow l = RespOf name ∨ ow l = InChan) → n ≠ name →
  ∀ l, l ∈ T → ow l ≠ TxOf n ∧ ow l ≠ RespOf n.
Proof. intros HT Hn l [H|[H|H]]%HT; rewrite H; split; congruence. Qed.

(** The world after a step of one process. *)
Lemma winv_process T ow ow' mm mm' chan chan' procs name (o : option process) :
  winv ow (mkWorld mm chan procs) → sound ow' mm' → (∀ l, ow' l ≠ Held) → kept T ow ow' mm mm' →
  (∀ l, l ∈ T → ow l = TxOf name ∨ ow l = RespOf name ∨ ow l = InChan) →
  (∀ l, l ∈ chan' → ow' l = InChan) → NoDup chan' → (∀ q, o = Some q → owned ow' name q) →
  winv ow' (mkWorld mm' chan' (partial_alter (λ _, o) name procs)) ∧
  view mm' <$> partial_alter (λ _, o) name procs = partial_alter (λ _, view mm' <$> o) name (view mm <$> procs).
Proof.
  intros Hw Hs Hh Hk HT Hc Hd Hq. split.
  - split; [done|done|done| |done]. intros n q. cbn. destruct (decide (n = name)) as [->|Hn].
    + rewrite lookup_partial_alter_eq. apply Hq.
    + rewrite lookup_partial_alter_ne by done. intros E. eapply others_kept; [done|done|by eapply places_others|done].
  - apply map_eq. intros n. rewrite lookup_fmap. destruct (decide (n = name)) as [->|Hn].
    { by rewrite !lookup_partial_alter_eq. }
    rewrite !lookup_partial_alter_ne by done. rewrite lookup_fmap. destruct (procs !! n) as [q|] eqn:E; [|done]. cbn.
    f_equal. eapply others_kept; [done|done|by eapply places_others|done].
Qed.

Lemma choice_values mm chan c :
  valChoice (map (get mm) chan) c = valOf mm <$> refChoice chan c.
Proof.
  destruct c as [i t k| | |x [[i t]|]|]; try done; cbn; rewrite list_lookup_fmap; by destruct (chan !! i).
Qed.

Lemma map_delete {A B} (f : A → B) i (l : list A) : map f (delete i l) = delete i (map f l).
Proof. rewrite !delete_take_drop, map_app, firstn_map, skipn_map. done. Qed.

(** Which request a choice takes. *)
Lemma takes_head chan c ch i :
  refChoice chan c = Some ch → takes c = Some i → ∃ l, chan !! i = Some l ∧ headOf ch = [l].
Proof.
  destruct c as [j t k| | |x [[j t]|]|]; cbn; try done.
  - intros Hr [= ->]. destruct (chan !! i) eqn:?; simplify_eq/=. eauto.
  - intros Hr Ht. case_match; simplify_eq. destruct (chan !! i) eqn:?; simplify_eq/=. eauto.
Qed.

(** A request that is not taken for a handler to keep stays as it is. *)
Definition stable (seen : Process.processState) (ch : choice) : Prop :=
  seen ≠ Process.ready ∨ (∀ l t k, ch ≠ ChTx l t k).

Section channels.
Context (name : string) (seen : Process.processState) (c : pick) (ch : choice) (ow ow' : loc → place)
  (mm mm' : memory) (chan : list loc) (q : process).
Hypothesis (Hc : ∀ l, l ∈ chan → ow l = InChan) (Hd : NoDup chan) (Hq : owned ow name q)
  (Hr : refChoice chan c = Some ch) (Hk : kept (touched ch q) ow ow' mm mm')
  (Hst : stable seen ch → ∀ l, l ∈ headOf ch → ow' l = InChan ∧ get mm' l = get mm l).

Lemma request_stays l : l ∈ chan → l ∉ headOf ch ∨ stable seen ch → ow' l = InChan ∧ get mm' l = get mm l.
Proof.
  intros Hl Hcase. pose proof (Hc l Hl) as Ho. destruct (decide (l ∈ headOf ch)) as [Hin|Hin]; [destruct Hcase; [done|auto]|].
  rewrite <-Ho. destruct Hq as (Hqt & Hqr & _). apply Hk; try congruence. unfold touched. rewrite !elem_of_app.
  intros [?|[Ht|Ht]]; [done| |apply Hqr in Ht; congruence].
  destruct (q_Tx q) eqn:E; cbn in Ht; [|by apply elem_of_nil in Ht].
  apply list_elem_of_singleton in Ht as ->. specialize (Hqt _ eq_refl). congruence.
Qed.

Lemma requests_stay l' :
  (∀ l, l ∈ l' → l ∈ chan ∧ (l ∉ headOf ch ∨ stable seen ch)) →
  (∀ l, l ∈ l' → ow' l = InChan) ∧ map (get mm') l' = map (get mm) l'.
Proof.
  intros Hl'. split; [intros l [? ?]%Hl'; by apply request_stays|].
  apply map_ext_in. intros l Hl%list_elem_of_In%Hl'. apply request_stays; naive_solver.
Qed.

Lemma gives_back_stable e m : givesBack e seen c m = true → stable seen ch.
Proof.
  unfold givesBack. intros [Hg _]%andb_prop. destruct c as [i t k| | |x [[i t]|]|]; try done.
  - left. apply bool_decide_eq_true in Hg. by subst.
  - right. cbn in Hr. by destruct (chan !! i); simplify_eq/=.
  - right. by simplify_eq/=.
Qed.

(** The channels of requests after a round of the listener. *)
Lemma chan_sim e :
  let chan' := chanAfter (get mm) e seen c chan in
  (∀ l, l ∈ chan' → ow' l = InChan) ∧ NoDup chan' ∧ map (get mm') chan' = chanAfter id e seen c (map (get mm) chan).
Proof.
  cbn zeta. unfold chanAfter. destruct (takes c) as [i|] eqn:Et; cbn.
  - destruct (takes_head _ _ _ _ Hr Et) as (l & Hl & Hh). rewrite list_lookup_fmap, Hl. cbn.
    assert (∀ x, x ∈ delete i chan → x ∈ chan ∧ (x ∉ headOf ch ∨ stable seen ch)) as Hx.
    { intros x [? ?]%(delete_once _ _ _ _ Hd Hl). split; [done|]. left. rewrite Hh. by intros ?%list_elem_of_singleton. }
    destruct (requests_stay _ Hx) as [H1 H2].
    assert (NoDup (delete i chan)) as Hnd by (eapply sublist_NoDup; [apply Hd|apply sublist_delete]).
    unfold id. destruct (givesBack e seen c (get mm l)) eqn:Hg; [|split_and!; [done|done|by rewrite H2, map_delete]].
    apply gives_back_stable in Hg. destruct (request_stays l) as [E1 E2]; [by eapply list_elem_of_lookup_2|by right|].
    split_and!.
    + intros x [?| ->%list_elem_of_singleton]%elem_of_app; auto.
    + apply NoDup_app. split_and!; [done| |apply NoDup_singleton].
      intros x [? _]%(delete_once _ _ _ _ Hd Hl) ?%list_elem_of_singleton. done.
    + rewrite map_app, H2, map_delete. cbn. by rewrite E2.
  - assert (∀ x, x ∈ chan → x ∈ chan ∧ (x ∉ headOf ch ∨ stable seen ch)) as Hx.
    { intros x Hin. split; [done|]. destruct c as [i t k| | |y [[i t]|]|]; cbn in Et, Hr; simplify_eq; cbn;
        try (left; by intros ?%elem_of_nil).
      right. right. by destruct (chan !! i); simplify_eq/=. }
    destruct (requests_stay _ Hx). done.
Qed.
End channels.

(** A step with objects and the same step with values. *)
Definition matches (w : world) (v : vworld) : Prop := v = abs w ∧ ∃ ow, winv ow w.

Lemma touched_places ow name ch q :
  owned ow name q → (∀ l, l ∈ headOf ch → ow l = InChan) →
  ∀ l, l ∈ touched ch q → ow l = TxOf name ∨ ow l = RespOf name ∨ ow l = InChan.
Proof.
  intros (Ht & Hr & _) Hh l. unfold touched. rewrite !elem_of_app. intros [?|[H|?]]; [auto| |auto].
  destruct (q_Tx q) eqn:E; cbn in H; [|by apply elem_of_nil in H]. apply list_elem_of_singleton in H as ->. auto.
Qed.

Lemma head_in_chan chan c ch l : refChoice chan c = Some ch → l ∈ headOf ch → l ∈ chan.
Proof.
  destruct c as [i t k| | |x [[i t]|]|]; cbn; intros Hr; simplify_eq/=; try (by intros ?%elem_of_nil).
  all: destruct (chan !! i) eqn:?; simplify_eq/=; intros ->%list_elem_of_singleton; by eapply list_elem_of_lookup_2.
Qed.

Lemma listen_step merge e name seen c ow w :
  winv ow w → rel_out matches (wstep merge (AListen e name seen c) w) (vstep (AListen e name seen c) (abs w)).
Proof.
  destruct w as [mm chan procs]. intros Hw. cbn [wstep vstep abs w_mem w_chan w_procs].
  rewrite lookup_fmap, choice_values. destruct (procs !! name) as [q|] eqn:Eq; [|done].
  destruct (refChoice chan c) as [ch|] eqn:Ec; [|done]. cbn [fmap option_fmap option_map].
  pose proof (wi_procs _ _ Hw name q Eq) as Hq.
  assert (∀ l, l ∈ headOf ch → ow l = InChan) as Hh.
  { intros l Hl. apply (wi_chan _ _ Hw). by eapply head_in_chan. }
  pose proof (listen_sim e name ow mm q (wi_sound _ _ Hw) Hq (wi_held _ _ Hw) seen ch Hh mm q (conj eq_refl eq_refl)) as Hsim.
  destruct (listenProcess e seen ch (mm, q)) as [[b [mm' q']]| |], (Process.listenProcess e seen (valOf mm ch) (view mm q)) as [[b' p']| |];
    try done.
  destruct Hsim as (<- & -> & Hrel & ow' & Hs' & Hh' & Hk & Hown & Hst).
  destruct (chan_sim name seen c ch ow ow' mm mm' chan q (wi_chan _ _ Hw) (wi_once _ _ Hw) Hq Ec Hk Hst e) as (Hc1 & Hc2 & Hc3).
  set (o := if stays b (q_p q) c then Some q' else None).
  destruct (winv_process (touched ch q) ow ow' mm mm' chan (chanAfter (get mm) e seen c chan) procs name o Hw) as [Hw' Hv'];
    [done|done|done|by eapply touched_places|done|done| |].
  { intros q1. unfold o. destruct (stays b (q_p q) c) eqn:Es; [|done]. intros [= <-]. apply Hown.
    destruct (headTaken ch) eqn:Et; [|done]. specialize (Hrel eq_refl). subst b. exfalso.
    destruct c as [i t k| | |x [[i t]|]|]; cbn in Ec; simplify_eq/=; try done; destruct (chan !! i); simplify_eq/=.
    unfold stays in Es. by rewrite Et in Es. }
  cbn. split; [|exists ow'].
  - unfold abs. cbn [w_mem w_chan w_procs]. rewrite Hc3. f_equal.
    change (Process.p_state (view mm q)) with (Process.p_state (q_p q)). unfold o in Hv'. unfold stays in *. cbn [Process.p_state view] in *.
    destruct (negb b || _); symmetry; apply Hv'.
  - unfold o in Hw'. by destruct (stays b (q_p q) c).
Qed.

Section arrivals.
Context (merge : DockerVMMessage → DockerVMMessage → DockerVMMessage).
Hypothesis (Hmerge : ∀ m, merge emptyMessage m = m).

(** What a service receives is a message of its own. *)
Lemma receive_spec pick m ow mm :
  sound ow mm → ∃ l mm', receive merge pick m mm = Ret (l, mm') ∧ (ow l = InPool ∨ ow l = Nowhere) ∧
    sound (upd ow l Held) mm' ∧ frame ow l mm mm' ∧ get mm' l = m.
Proof.
  intros Hs. destruct (FromPool_spec pick ow mm Hs) as (l & m1 & E1 & Hl & Ho & _ & Hs1 & Hf1 & _).
  destruct (RecvMsg_spec merge (upd ow l Held) m1 l m Hmerge Hs1) as (m2 & E2 & Hs2 & Hf2 & Hg2); [by rewrite upd_eq..|done|].
  exists l, m2. split_and!; [|done|done| |done].
  - unfold receive, mbind, M_bind. by rewrite E1, E2.
  - intros l' Hl' Hne. rewrite Hf2; [by apply Hf1|by rewrite upd_ne|done].
Qed.

Lemma receiveRequest_spec pick d now m ow mm :
  sound ow mm → ∃ l mm', receiveRequest merge pick d now m mm = Ret (l, mm') ∧ (ow l = InPool ∨ ow l = Nowhere) ∧
    sound (upd ow l Held) mm' ∧ frame ow l mm mm' ∧
    get mm' l = EngineUtils.EnterNextStep d now now now m ENGINE_GRPC_RECEIVE_TX_REQUEST "".
Proof.
  intros Hs. destruct (receive_spec pick m ow mm Hs) as (l & m1 & E1 & Hl & Hs1 & Hf1 & Hg1).
  destruct (sound_object _ _ l Hs1) as (o & Ho & _); [by rewrite upd_eq|].
  destruct (EnterNextStep_spec d now now now ENGINE_GRPC_RECEIVE_TX_REQUEST "" (upd ow l Held) m1 l o Hs1) as (m2 & new & E2 & Hs2 & _ & Hf2 & Hg2);
    [by rewrite upd_eq..|done|].
  exists l, m2. split_and!; [|done|done| |by rewrite Hg2, Hg1].
  - unfold receiveRequest, mbind, M_bind. by rewrite E1, E2.
  - intros l' Hl' Hne. rewrite Hf2; [by apply Hf1|by rewrite upd_ne|done].
Qed.

(** The new message goes to its place. *)
Lemma arrival ow mm mm' l x :
  sound (upd ow l Held) mm' → frame ow l mm mm' → (ow l = InPool ∨ ow l = Nowhere) → (∀ l, ow l ≠ Held) → x ≠ Held →
  let ow' := upd (upd ow l Held) l x in
  sound ow' mm' ∧ (∀ l, ow' l ≠ Held) ∧ kept [] ow ow' mm mm' ∧ ow' l = x.
Proof.
  intros Hs Hf Hl Hh Hx ow'. split_and!.
  - apply sound_move; [done|by rewrite upd_eq..].
  - intros l'. unfold ow', upd. repeat case_decide; auto.
  - intros l' H1 H2 _. assert (l' ≠ l) by naive_solver. unfold ow'. rewrite !upd_ne by done. split; [done|by apply Hf].
  - apply upd_eq.
Qed.

(** Steps that add a request or change nothing that the processes have. *)
Lemma winv_chan ow ow' mm mm' chan chan' procs :
  winv ow (mkWorld mm chan procs) → sound ow' mm' → (∀ l, ow' l ≠ Held) → kept [] ow ow' mm mm' →
  (∀ l, l ∈ chan' → ow' l = InChan) → NoDup chan' →
  winv ow' (mkWorld mm' chan' procs) ∧ view mm' <$> procs = view mm <$> procs.
Proof.
  intros Hw Hs Hh Hk Hc Hd. assert (∀ n q, procs !! n = Some q → owned ow' n q ∧ view mm' q = view mm q) as Ho.
  { intros n q Hq. eapply others_kept; [done|done| |done]. by intros l ?%elem_of_nil. }
  split; [split; try done; intros n q Hq; by apply Ho|].
  apply map_eq. intros n. rewrite !lookup_fmap. destruct (procs !! n) eqn:E; [|done]. cbn. f_equal. by eapply Ho.
Qed.

Lemma chan_unchanged ow ow' mm mm' chan :
  (∀ l, l ∈ chan → ow l = InChan) → kept [] ow ow' mm mm' →
  (∀ l, l ∈ chan → ow' l = InChan) ∧ map (get mm') chan = map (get mm) chan.
Proof.
  intros Hc Hk. assert (∀ l, l ∈ chan → ow' l = InChan ∧ get mm' l = get mm l) as H.
  { intros l Hl. rewrite <-(Hc l Hl). apply Hk; rewrite ?(Hc l Hl); try done. by intros ?%elem_of_nil. }
  split; [intros l Hl; by apply H|]. apply map_ext_in. intros l Hl%list_elem_of_In. by apply H.
Qed.

Lemma request_step pick d now m ow w :
  winv ow w → rel_out matches (wstep merge (ARequest pick d now m) w) (vstep (ARequest pick d now m) (abs w)).
Proof.
  destruct w as [mm chan procs]. intros Hw. cbn [wstep vstep abs w_mem w_chan w_procs].
  destruct (receiveRequest_spec pick d now m ow mm (wi_sound _ _ Hw)) as (l & mm' & E & Hl & Hs & Hf & Hg). rewrite E.
  destruct (arrival ow mm mm' l InChan Hs Hf Hl (wi_held _ _ Hw)) as (Hs' & Hh' & Hk & Hp); [done|].
  destruct (chan_unchanged _ _ _ _ chan (wi_chan _ _ Hw) Hk) as [Hc1 Hc2].
  assert (l ∉ chan) as Hn by (intros Hin; pose proof (wi_chan _ _ Hw l Hin); destruct Hl; congruence).
  destruct (winv_chan _ _ _ _ _ (chan ++ [l]) _ Hw Hs' Hh' Hk) as [Hw' Hv'].
  { intros x [?| ->%list_elem_of_singleton]%elem_of_app; auto. }
  { apply NoDup_app. split_and!; [apply (wi_once _ _ Hw)| |apply NoDup_singleton]. by intros x ? ->%list_elem_of_singleton. }
  split; [|by eexists]. unfold abs. cbn [w_mem w_chan w_procs]. rewrite map_app, Hc2, Hv'. cbn. by rewrite Hg.
Qed.

Lemma response_step name pick m ow w :
  winv ow w → rel_out matches (wstep merge (AResponse name pick m) w) (vstep (AResponse name pick m) (abs w)).
Proof.
  destruct w as [mm chan procs]. intros Hw. cbn [wstep vstep abs w_mem w_chan w_procs].
  rewrite lookup_fmap. destruct (procs !! name) as [q|] eqn:Eq; [|done]. cbn [fmap option_fmap option_map].
  unfold Process.PutMsg, mbind, M_bind, getS. cbn [view Process.p_respCh Process.set_respCh].
  destruct (q_respCh q) eqn:Er; [|done]. cbn [map].
  destruct (receive_spec pick m ow mm (wi_sound _ _ Hw)) as (l & mm' & E & Hl & Hs & Hf & Hg). rewrite E.
  destruct (arrival ow mm mm' l (RespOf name) Hs Hf Hl (wi_held _ _ Hw)) as (Hs' & Hh' & Hk & Hp); [done|].
  destruct (chan_unchanged _ _ _ _ chan (wi_chan _ _ Hw) Hk) as [Hc1 Hc2].
  destruct (others_kept _ _ _ _ _ _ _ name q Hw Hk) as [(Ho1 & _) Hv]; [by intros ? ?%elem_of_nil|done|].
  destruct (winv_process [] _ _ mm mm' chan chan procs name (Some (mkProc (q_p q) (q_Tx q) [l])) Hw Hs' Hh' Hk) as [Hw' Hv'].
  { by intros x ?%elem_of_nil. }
  { done. }
  { apply (wi_once _ _ Hw). }
  { intros ? [= <-]. split_and!; [done| |apply NoDup_singleton]. by intros x ->%list_elem_of_singleton. }
  split; [|by eexists]. unfold abs. cbn [w_mem w_chan w_procs]. rewrite Hc2. f_equal.
  etrans; [|symmetry; apply Hv'].
  assert (view mm' (mkProc (q_p q) (q_Tx q) [l]) = Process.set_respCh [m] (view mm q)) as Hvq.
  { apply (f_equal Process.p_Tx) in Hv. unfold view in *. cbn in Hv |- *. by rewrite Hg, Hv. }
  cbn [fmap option_fmap option_map]. by rewrite Hvq.
Qed.
(** Work of a process that does not touch messages. *)
Lemma refs_other o : preserves keepsRefs (runOther o).
Proof.
  destruct o; cbn [runOther]; [apply refs_stream|refs_tac; apply refs_change|refs_tac; apply refs_close|refs_tac; apply refs_launch|].
  apply preserves_modify. intros p. by case_match.
Qed.

Lemma kept_refl T ow mm : kept T ow ow mm mm.
Proof. by intros ?. Qed.

Lemma other_step name o ow w :
  winv ow w → rel_out matches (wstep merge (AOther name o) w) (vstep (AOther name o) (abs w)).
Proof.
  destruct w as [mm chan procs]. intros Hw. cbn [wstep vstep abs w_mem w_chan w_procs].
  rewrite lookup_fmap. destruct (procs !! name) as [q|] eqn:Eq; [|done]. cbn [fmap option_fmap option_map].
  unfold via. destruct (runOther o (view mm q)) as [[a p]| |] eqn:Eo; [|done..].
  pose proof (view_refs _ _ _ (refs_other o _ _ _ Eo)) as Hv.
  destruct (winv_process [] ow ow mm mm chan chan procs name (Some (mkProc p (q_Tx q) (q_respCh q))) Hw (wi_sound _ _ Hw) (wi_held _ _ Hw)
    (kept_refl _ _ _)) as [Hw' Hv']; [by intros x ?%elem_of_nil|apply (wi_chan _ _ Hw)|apply (wi_once _ _ Hw)| |].
  { intros ? [= <-]. apply (wi_procs _ _ Hw name q Eq). }
  split; [|by eexists]. unfold abs. cbn [w_mem w_chan w_procs]. f_equal. etrans; [|symmetry; apply Hv'].
  cbn [fmap option_fmap option_map]. by rewrite Hv.
Qed.

Lemma new_step name p ow w :
  winv ow w → rel_out matches (wstep merge (ANew name p) w) (vstep (ANew name p) (abs w)).
Proof.
  destruct w as [mm chan procs]. intros Hw. cbn [wstep vstep abs w_mem w_chan w_procs].
  rewrite lookup_fmap. destruct (procs !! name) as [q|] eqn:Eq; cbn [fmap option_fmap option_map].
  { by rewrite !decide_False. }
  rewrite !decide_True by done.
  destruct (winv_process [] ow ow mm mm chan chan procs name (Some (mkProc p None [])) Hw (wi_sound _ _ Hw) (wi_held _ _ Hw)
    (kept_refl _ _ _)) as [Hw' Hv']; [by intros x ?%elem_of_nil|apply (wi_chan _ _ Hw)|apply (wi_once _ _ Hw)| |].
  { intros ? [= <-]. split_and!; [done|by intros ? ?%elem_of_nil|constructor]. }
  split; [|by eexists]. unfold abs. cbn [w_mem w_chan w_procs]. f_equal. symmetry. apply Hv'.
Qed.

Lemma collect_step i ow w :
  winv ow w → rel_out matches (wstep merge (ACollect i) w) (vstep (ACollect i) (abs w)).
Proof.
  destruct w as [mm chan procs]. intros Hw. cbn [wstep vstep abs w_mem w_chan w_procs]. cbn.
  split; [done|]. exists ow. split; [|apply (wi_chan _ _ Hw)|apply (wi_once _ _ Hw)|apply (wi_procs _ _ Hw)|apply (wi_held _ _ Hw)].
  pose proof (wi_sound _ _ Hw) as Hs. cbn in Hs |- *. assert (sublist (delete i (pbPool mm)) (pbPool mm)) as Hsub by apply sublist_delete.
  split; [apply (s_objects _ _ Hs)|apply (s_apart _ _ Hs)|apply (s_brk _ _ Hs)| |].
  - intros l Hl. apply (s_pool _ _ Hs). by eapply sublist_subseteq.
  - eapply sublist_NoDup; [apply (s_once _ _ Hs)|done].
Qed.

Lemma step_sim a ow w : winv ow w → rel_out matches (wstep merge a w) (vstep a (abs w)).
Proof.
  intros Hw. destruct a; [by eapply request_step|by eapply response_step|by eapply listen_step|by eapply other_step
    |by eapply new_step|by eapply collect_step].
Qed.

Lemma world_run_sim acts ow w : winv ow w → rel_out matches (wrun merge acts w) (vrun acts (abs w)).
Proof.
  revert ow w. induction acts as [|a acts IH]; intros ow w Hw; [by split; [|exists ow]|]. cbn [wrun vrun].
  pose proof (step_sim a ow w Hw) as Hs. destruct (wstep merge a w) as [w'| |], (vstep a (abs w)) as [v'| |]; try done.
  destruct Hs as (-> & ow' & Hw'). by eapply IH.
Qed.
End arrivals.

Lemma empty_winv : winv (λ _, Nowhere) empty_world.
Proof.
  split; [|by intros ? ?%elem_of_nil|constructor|done|done].
  split; [done|done| |by intros ? ?%elem_of_nil|constructor].
  split; intros ?; cbn; rewrite lookup_empty; by intros [].
Qed.

(** [C12] The engine with message objects, references and the pool behaves like the engine with messages passed by value,
    whatever objects the pool hands out: from the start, for every sequence of arriving requests and answers, rounds of the listeners and
    other work of the processes, the two end in the same way, and what the channels and processes refer to
    contains exactly the messages of the engine with values. *)
Theorem pooled_engine_refines merge acts :
  (∀ m, merge emptyMessage m = m) →
  rel_out (λ w v, v = abs w) (wrun merge acts empty_world) (vrun acts (mkVWorld [] ∅)).
Proof.
  intros Hm. pose proof (world_run_sim merge Hm acts _ _ empty_winv) as H. change (abs empty_world) with (mkVWorld [] ∅) in H.
  destruct (wrun merge acts empty_world), (vrun acts (mkVWorld [] ∅)); try done. by destruct H.
Qed.

(** [C13] What is in the pool is in use nowhere: in every state the engine reaches, the messages in the pool are empty and
    distinct, none of them is in a channel or with a process, and no message is with two processes or with a
    process and in a channel of requests. *)
Theorem pool_exclusive merge acts w :
  (∀ m, merge emptyMessage m = m) → wrun merge acts empty_world = Ret w →
  NoDup (pbPool (w_mem w)) ∧ NoDup (w_chan w) ∧
  (∀ l, l ∈ pbPool (w_mem w) → get (w_mem w) l = emptyMessage ∧ l ∉ w_chan w) ∧
  (∀ name q l, w_procs w !! name = Some q → q_Tx q = Some l ∨ l ∈ q_respCh q →
    l ∉ pbPool (w_mem w) ∧ l ∉ w_chan w ∧
    ∀ name' q', w_procs w !! name' = Some q' → q_Tx q' = Some l ∨ l ∈ q_respCh q' → name' = name).
Proof.
  intros Hm Hr. pose proof (world_run_sim merge Hm acts _ _ empty_winv) as H. rewrite Hr in H.
  destruct (vrun _ _); [|done..]. destruct H as (_ & ow & Hw). pose proof (wi_sound _ _ Hw) as Hs.
  assert (∀ name q l, w_procs w !! name = Some q → q_Tx q = Some l ∨ l ∈ q_respCh q → ow l = TxOf name ∨ ow l = RespOf name) as Ho.
  { intros name q l (Ht & Hresp & _)%(wi_procs _ _ Hw) [?|?]; auto. }
  split_and!; [apply (s_once _ _ Hs)|apply (wi_once _ _ Hw)| |].
  - intros l [Hp Hob]%(s_pool _ _ Hs). split; [by rewrite (get_object _ _ _ Hob)|]. intros Hc%(wi_chan _ _ Hw). congruence.
  - intros name q l Hq Hl. destruct (Ho _ _ _ Hq Hl) as [E|E]; split_and!;
      try (intros [? _]%(s_pool _ _ Hs); congruence); try (intros ?%(wi_chan _ _ Hw); congruence);
      intros name' q' Hq' Hl'; destruct (Ho _ _ _ Hq' Hl') as [E'|E']; congruence.
Qed.

(** A request is executed and answered, a second one takes its place: the answer and the first request are back in the
    pool, the second request is with the process. *)
Definition sampleRequest (id : string) : DockerVMMessage :=
  mkMessage id TX_REQUEST (Some (mkCross 0 "" 0)) None (Some (mkRequest "c" "v1" "m" ∅ "chain1")) None "chain1" [].
Definition sampleProc : Process.Process :=
  Process.mkProcess "p1" "chain1" "c" "v1" (Users.NewUser 10000) Process.ready true true true false [] true false false
    None true (Some (mkGroupKey "chain1" "c" "v1")) 0 [].
Definition sampleActs : list action :=
  [ANew "p1" sampleProc; ARequest None false 1 (sampleRequest "t1"); ARequest None false 2 (sampleRequest "t2");
   AListen Process.sampleEnv "p1" Process.ready (PickTx 0 0 None);
   AResponse "p1" None (mkMessage "t1" TX_RESPONSE None None None None "chain1" []);
   AListen Process.sampleEnv "p1" Process.busy PickResp;
   AListen Process.sampleEnv "p1" Process.ready (PickTx 0 0 (Some 1%nat))].

Definition sampleWorld : world :=
  match wrun (λ _ m, m) sampleActs empty_world with Ret w => w | _ => empty_world end.

Lemma sampleWorld_run : wrun (λ _ m, m) sampleActs empty_world = Ret sampleWorld.
Proof. vm_compute. reflexivity. Qed.

Lemma pooled_engine_refines_witness :
  (∃ w, wrun (λ _ m, m) sampleActs empty_world = Ret w ∧ length (pbPool (w_mem w)) = 1%nat) ∧
  rel_out (λ w v, v = abs w) (wrun (λ _ m, m) sampleActs empty_world) (vrun sampleActs (mkVWorld [] ∅)).
Proof.
  split; [|by apply (pooled_engine_refines (λ _ m, m) sampleActs)].
  exists sampleWorld. split; [apply sampleWorld_run|]. vm_compute. reflexivity.
Defined.

Lemma pool_exclusive_witness :
  wrun (λ _ m, m) sampleActs empty_world = Ret sampleWorld ∧ NoDup (pbPool (w_mem sampleWorld)).
Proof.
  split; [apply sampleWorld_run|]. apply (pool_exclusive (λ _ m, m) sampleActs sampleWorld); [done|apply sampleWorld_run].
Defined.

End Pools.
