(* ===== verification/Protocol.v ===== *)
(** * The messages between the components of the engine

    [PutMsg(msg interface{})] takes any value and answers an error for a type it does not know; the senders only
    log that error, so that a message of a wrong type would be lost. Here: no component ever sends one. *)

From S2P Require Import Prelude Messages Interfaces EngineUtils.
From S2P Require Import ContractManager RequestGroup RequestScheduler Process ProcessManager Engine Flow.

Module Protocol.

(** A receiver that takes everything. *)
Definition openSched (S : SchedulerI) : SchedulerI :=
  {| sched_PutMsg := λ _, None; sched_GetRequestGroup := @sched_GetRequestGroup S; group_PutMsg := λ _, None |}.
Definition openPM (P : ProcessManagerI) : ProcessManagerI :=
  {| pm_PutMsg := λ _, None; pm_GetProcessNumByContractKey := @pm_GetProcessNumByContractKey P;
     pm_GetReadyOrBusyProcessNum := @pm_GetReadyOrBusyProcessNum P |}.
Definition openCM : ContractManagerI := {| cmgr_PutMsg := λ _, None |}.

Definition openProcess (e : Process.env) : Process.env :=
  Process.mkEnv (Process.e_now e) (Process.e_ExecTxTimeout e) (Process.e_slowDisable e) (openSched (Process.e_sched e))
    (λ _, None) (Process.e_ChangeProcessState e) (Process.e_streamSend e) (Process.e_signalErr e)
    (Process.e_ContractFileVersion e) (Process.e_txChLen e).
Definition openGroup (e : RequestGroup.env) : RequestGroup.env :=
  RequestGroup.mkEnv (RequestGroup.e_now e) (openSched (RequestGroup.e_sched e)) openCM (λ b, openPM (RequestGroup.e_pm e b)).

(** ** Programs that do the same *)

Lemma bind_ext {S A B} (m m' : M S A) (f f' : A → M S B) s :
  m s = m' s → (∀ a s, f a s = f' a s) → (m ≫= f) s = (m' ≫= f') s.
Proof. intros Hm Hf. unfold mbind, M_bind. rewrite Hm. destruct (m' s) as [[a s']| |]; [apply Hf|done..]. Qed.

Create HintDb same.

(** Follows two programs of the same shape. *)
Ltac same_tac :=
  intros; cbv beta zeta;
  repeat match goal with
  | |- ?x = ?x => reflexivity
  | |- (_ ≫= _) _ = (_ ≫= _) _ => apply bind_ext; [|intros ? ?; cbv beta zeta]
  | |- (match ?x with _ => _ end) _ = (match ?x with _ => _ end) _ => destruct x
  | |- _ => progress (autorewrite with same)
  | |- _ => solve [auto with same]
  end.

(** ** The process *)

Section process.
Context (e : Process.env) (s : RequestScheduler.RequestScheduler).
Context (Hs : Process.e_sched e = RequestScheduler.asInterface s) (Hp : Process.e_pmPutMsg e = Engine.pmPutErr).

Lemma same_returnTxErrorResp id msg p :
  Process.returnTxErrorResp e id msg p = Process.returnTxErrorResp (openProcess e) id msg p.
Proof. unfold Process.returnTxErrorResp, openProcess, openSched. cbn. rewrite Hs. done. Qed.
Lemma same_returnSandboxExitResp er p :
  Process.returnSandboxExitResp e er p = Process.returnSandboxExitResp (openProcess e) er p.
Proof. unfold Process.returnSandboxExitResp, openProcess. cbn. rewrite Hp. done. Qed.
Lemma same_returnBadContractResp v p :
  Process.returnBadContractResp e v p = Process.returnBadContractResp (openProcess e) v p.
Proof. unfold Process.returnBadContractResp, openProcess, openSched. cbn. rewrite Hs. done. Qed.

Hint Resolve same_returnTxErrorResp same_returnSandboxExitResp same_returnBadContractResp : same.

Lemma sched_takes_tx tx : m_Type (tp_Tx tx) = TX_REQUEST → @sched_PutMsg (Process.e_sched e) (AnyDockerVM (tp_Tx tx)) = None.
Proof. intros Ht. rewrite Hs. cbn. by rewrite Ht. Qed.

Lemma same_handleIdleTxRequest tx p : m_Type (tp_Tx tx) = TX_REQUEST →
  Process.handleIdleTxRequest e tx p = Process.handleIdleTxRequest (openProcess e) tx p.
Proof. intros Ht. unfold Process.handleIdleTxRequest. rewrite (sched_takes_tx tx Ht). done. Qed.

Lemma same_handleProcessExit x h p : (∀ tx, h = Some tx → m_Type (tp_Tx tx) = TX_REQUEST) →
  Process.handleProcessExit e x h p = Process.handleProcessExit (openProcess e) x h p.
Proof.
  intros Hh. unfold Process.handleProcessExit. apply bind_ext.
  - unfold Process.decideExit. destruct h as [tx|]; [|by same_tac]. rewrite (sched_takes_tx tx) by auto. by same_tac.
  - intros d p1. apply bind_ext; [|done]. unfold Process.finishExit. same_tac.
Qed.

(** The transactions a choice of the listener brings are requests. *)
Definition typed (c : Process.choice) : Prop :=
  match c with
  | Process.ChTx tx | Process.ChExit _ (Some tx) => m_Type (tp_Tx tx) = TX_REQUEST
  | _ => True
  end.

Lemma same_listenProcess seen c p : typed c → Process.listenProcess e seen c p = Process.listenProcess (openProcess e) seen c p.
Proof.
  intros Hc. unfold Process.listenProcess. apply bind_ext; [done|]. intros a p1.
  destruct seen, c as [tx| | |x h|]; try done;
    try (apply same_handleProcessExit; intros tx ->; exact Hc);
    try (apply bind_ext; [by apply same_handleIdleTxRequest|done]).
  by same_tac.
Qed.
End process.

(** ** The request group *)

Section group.
Context `{ProtocolConsts} (e : RequestGroup.env) (s : RequestScheduler.RequestScheduler).
Context (Hs : RequestGroup.e_sched e = RequestScheduler.asInterface s) (Hc : RequestGroup.e_cmgr e = Engine.contractManager).
Context (Hp : ∀ b m, @pm_PutMsg (RequestGroup.e_pm e b) m = Engine.pmPutErr m).

Lemma same_groupErrorResp id msg g :
  RequestGroup.returnTxErrorResp e id msg g = RequestGroup.returnTxErrorResp (openGroup e) id msg g.
Proof. unfold RequestGroup.returnTxErrorResp, openGroup, openSched. cbn. rewrite Hs. done. Qed.
Lemma same_sendGetContractReq req g :
  RequestGroup.sendGetContractReq e req g = RequestGroup.sendGetContractReq (openGroup e) req g.
Proof. unfold RequestGroup.sendGetContractReq, openGroup, openCM. cbn. rewrite Hc. done. Qed.
Lemma same_getProcesses b g : RequestGroup.getProcesses e b g = RequestGroup.getProcesses (openGroup e) b g.
Proof. unfold RequestGroup.getProcesses, openGroup, openPM. cbn. apply bind_ext; [done|]. intros r g1. rewrite Hp. done. Qed.
Lemma same_enqueueCh req g : RequestGroup.enqueueCh e req g = RequestGroup.enqueueCh (openGroup e) req g.
Proof. done. Qed.
Lemma same_moveTxs txs g : RequestGroup.moveTxs e txs g = RequestGroup.moveTxs (openGroup e) txs g.
Proof.
  revert g. induction txs as [|tx txs IH]; intros g; [done|]. cbn [RequestGroup.moveTxs].
  apply bind_ext; [done|]. intros _ g1. apply bind_ext; [apply same_enqueueCh|]. intros _ g2. apply IH.
Qed.
Lemma same_putTxReqToCh req g : RequestGroup.putTxReqToCh e req g = RequestGroup.putTxReqToCh (openGroup e) req g.
Proof. unfold RequestGroup.putTxReqToCh, openGroup, openSched. cbn. rewrite Hs. done. Qed.

Hint Resolve same_groupErrorResp same_sendGetContractReq same_getProcesses same_moveTxs same_putTxReqToCh same_enqueueCh : same.

Lemma same_handleGetBytecodeErr g : RequestGroup.handleGetBytecodeErr e g = RequestGroup.handleGetBytecodeErr (openGroup e) g.
Proof. unfold RequestGroup.handleGetBytecodeErr. same_tac. Qed.
Hint Resolve same_handleGetBytecodeErr : same.

Lemma same_onTx msg g : RequestGroup.onTx e msg g = RequestGroup.onTx (openGroup e) msg g.
Proof.
  unfold RequestGroup.onTx, RequestGroup.handleTxReq, RequestGroup.handleContractReadyResp, RequestGroup.handleGetBytecodeFailed.
  same_tac.
Qed.
Lemma same_onEvent msg g : RequestGroup.onEvent e msg g = RequestGroup.onEvent (openGroup e) msg g.
Proof.
  unfold RequestGroup.onEvent, RequestGroup.handleProcessReadyResp, RequestGroup.handleBadContractResp.
  rewrite Hc. cbn [cmgr_PutMsg Engine.contractManager Engine.cmPutErr openGroup RequestGroup.e_cmgr openCM]. same_tac.
Qed.
Lemma same_popTxs txs g : RequestGroup.popTxs e txs g = RequestGroup.popTxs (openGroup e) txs g.
Proof.
  revert g. induction txs as [|tx txs IH]; intros g; [done|]. cbn [RequestGroup.popTxs]. same_tac.
Qed.
Hint Resolve same_onTx same_onEvent same_popTxs : same.

Lemma same_groupLoop c g : RequestGroup.loopStep e c g = RequestGroup.loopStep (openGroup e) c g.
Proof.
  unfold RequestGroup.loopStep, RequestGroup.handleStopRequestGroup, RequestGroup.handleGetBytecodeTimeout.
  apply bind_ext; [done|]. intros r g1. destruct c; same_tac.
Qed.
End group.

(** ** The contract manager *)

Section contract_manager.
Context (tcp : bool) (rmErr wrErr : string → option gerr) (s : RequestScheduler.RequestScheduler).

Lemma same_cmLoop cm :
  ContractManager.loopStep tcp rmErr wrErr (Some (RequestScheduler.asInterface s)) cm =
  ContractManager.loopStep tcp rmErr wrErr (Some (openSched (RequestScheduler.asInterface s))) cm.
Proof.
  unfold ContractManager.loopStep, ContractManager.handleEvent. apply bind_ext; [done|]. intros r cm1.
  destruct (ContractManager.eventCh r) as [|msg rest]; [done|]. apply bind_ext; [done|]. intros _ cm2.
  destruct msg as [m|?|?|?|?| |?|]; try done. destruct (m_Type m) eqn:Ht; try done.
  apply bind_ext; [|done]. unfold ContractManager.handleGetContractReq, ContractManager.requestContractFromChain.
  cbn [sched_PutMsg RequestScheduler.asInterface openSched RequestScheduler.putErr]. by rewrite Ht.
Qed.
End contract_manager.

(** ** The process manager *)

Section process_manager.
Context `{LI : LinkedHashMap string nat} `{LW : LinkedHashMap RequestGroupKey bool}.
Context (e : Process.env) (s : RequestScheduler.RequestScheduler) (Hs : Process.e_sched e = RequestScheduler.asInterface s).
Import ProcessManager.

Lemma same_sendProcessReadyResp n a b c w :
  sendProcessReadyResp e n a b c w = sendProcessReadyResp (openProcess e) n a b c w.
Proof. unfold sendProcessReadyResp, openProcess, openSched. cbn. rewrite Hs. done. Qed.
Hint Resolve same_sendProcessReadyResp : same.

Lemma same_removeFromWaitingGroup a b c w : removeFromWaitingGroup e a b c w = removeFromWaitingGroup (openProcess e) a b c w.
Proof. unfold removeFromWaitingGroup. same_tac. Qed.
Hint Resolve same_removeFromWaitingGroup : same.
Lemma same_removeFromProcessGroup a b c d w :
  removeFromProcessGroup e a b c d w = removeFromProcessGroup (openProcess e) a b c d w.
Proof. unfold removeFromProcessGroup. same_tac. Qed.
Hint Resolve same_removeFromProcessGroup : same.
Lemma same_addProcessToCache a b c d i busy w :
  addProcessToCache e a b c d i busy w = addProcessToCache (openProcess e) a b c d i busy w.
Proof. unfold addProcessToCache, addProcessToIdle. same_tac. Qed.
Lemma same_removeProcessFromCache a b c d w :
  removeProcessFromCache e a b c d w = removeProcessFromCache (openProcess e) a b c d w.
Proof. unfold removeProcessFromCache. same_tac. Qed.
Hint Resolve same_addProcessToCache same_removeProcessFromCache : same.
Lemma same_closeSandbox a b c d w : closeSandbox e a b c d w = closeSandbox (openProcess e) a b c d w.
Proof. unfold closeSandbox. same_tac. Qed.
Hint Resolve same_closeSandbox : same.

(** A goroutine, and the handlers that wait for goroutines. *)
Lemma same_lift {A} (m m' : M World A) x : (∀ w, m w = m' w) → lift m x = lift m' x.
Proof. intros Hm. destruct x as [w n]. cbn. by rewrite Hm. Qed.
Hint Resolve same_lift : same.

Lemma run_group_ext {T W} (step step' : T → M W T) done sch ts w :
  (∀ t w, step t w = step' t w) → run_group step done sch ts w = run_group step' done sch ts w.
Proof.
  intros Hst. revert ts w. induction sch as [|i sch IH]; intros ts w; cbn; [done|]. rewrite !IH.
  destruct (ts !! i) as [t|]; [|done]. destruct (done t); [done|]. rewrite Hst.
  destruct (step' t w) as [[t' w']| |]; [apply IH|done..].
Qed.

Lemma same_goroutines st st' c ts n w : (∀ t x, st t x = st' t x) → goroutines st c ts n w = goroutines st' c ts n w.
Proof. intros Hst. unfold goroutines. by rewrite (run_group_ext st st'). Qed.

Lemma same_createStep t x : createStep e t x = createStep (openProcess e) t x.
Proof. destruct t; cbn [createStep]; unfold cacheNew; same_tac. Qed.
Lemma same_takeStep t x : takeStep e t x = takeStep (openProcess e) t x.
Proof. destruct t; cbn [takeStep]; unfold cacheNew, uncache; same_tac. Qed.
Lemma same_cleanStep t x : cleanStep e t x = cleanStep (openProcess e) t x.
Proof. destruct t; cbn [cleanStep]; same_tac. Qed.
Lemma same_idleStep t x : idleStep e t x = idleStep (openProcess e) t x.
Proof. destruct t; cbn [idleStep]; unfold cacheNew, uncache, unwait, ready; same_tac. Qed.
Lemma same_newStep t x : newStep e t x = newStep (openProcess e) t x.
Proof. destruct t; cbn [newStep]; unfold cacheNew, unwait, ready; same_tac. Qed.
Hint Resolve same_goroutines same_createStep same_takeStep same_cleanStep same_idleStep same_newStep : same.

Lemma same_pmLoop sel c1 c2 w : loopStep e sel c1 c2 w = loopStep (openProcess e) sel c1 c2 w.
Proof.
  unfold loopStep, handleGetProcessReq, handleSandboxExitMsg, handleCleanIdleProcesses, handleAllocateIdleProcesses,
    handleAllocateNewProcesses, unwait, ready.
  apply bind_ext; [done|]. intros r w1. destruct sel; same_tac.
Qed.
End process_manager.

(** ** The scheduler *)

(** The chain RPC service as the scheduler calls it. *)
Definition chainPutMsg (m : DockerVMMessage) : option gerr := Engine.chainPutErr (AnyDockerVM m).

Lemma groupPutMsg_taken key msg s er s' : RequestScheduler.groupPutErr msg = None →
  RequestScheduler.groupPutMsg key msg s = Ret (er, s') → er = None.
Proof.
  intros Hm. unfold RequestScheduler.groupPutMsg. destruct (_ !! key) as [g|]; [|done].
  destruct (RequestGroup.PutMsg msg g) as [[e g']| |] eqn:E; [|done..]. intros [= <- _].
  apply RequestScheduler.groupPutMsg_err in E. congruence.
Qed.

Lemma handleTxReq_taken req s er s' : RequestScheduler.handleTxReq req s = Ret (er, s') →
  er = if decide (m_Request req = None) then Some (Err "empty request payload") else None.
Proof.
  unfold RequestScheduler.handleTxReq. destruct (m_Request req) as [rq|]; [|by intros [= <- _]]. cbv zeta. intros Hr.
  apply bind_Ret in Hr as (? & ? & [= <- <-] & Hr). apply bind_Ret in Hr as (? & s1 & _ & Hr).
  apply bind_Ret in Hr as (e & s2 & H2 & [= <- _]). by rewrite (groupPutMsg_taken _ (AnyDockerVM req) _ _ _ eq_refl H2).
Qed.

Lemma handleCloseReq_taken k s er s' : RequestScheduler.handleCloseReq k s = Ret (er, s') →
  er = None ∨ er = Some (Err "request group not found").
Proof.
  unfold RequestScheduler.handleCloseReq. cbv zeta. intros Hr.
  apply bind_Ret in Hr as (? & ? & [= <- <-] & Hr). destruct (_ !! _) as [g|]; [|injection Hr as <- _; by right].
  apply bind_Ret in Hr as (e & s2 & H2 & Hr). rewrite (groupPutMsg_taken _ AnyClose _ _ _ eq_refl H2) in Hr.
  apply bind_Ret in Hr as (? & ? & _ & Hr). apply bind_Ret in Hr as (? & ? & _ & Hr).
  apply bind_Ret in Hr as (? & ? & _ & Hr). apply bind_Ret in Hr as (? & ? & _ & [= <- _]). by left.
Qed.

(** ** The theorem *)

Section accepted.
Context `{LI : LinkedHashMap string nat} `{LW : LinkedHashMap RequestGroupKey bool} `{ProtocolConsts}.

(** What the listener of a process can be woken by when the groups are those of [f]. *)
Definition offered (f : Flow.flow) (c : Process.choice) : Prop :=
  match c with
  | Process.ChTx tx | Process.ChExit _ (Some tx) =>
    ∃ i g b, Flow.groupAt (Flow.f_sched f) i = Some g ∧ tx ∈ RequestGroup.GetTxCh b g
  | _ => True
  end.

Lemma offered_typed f c : rtc Flow.flowStep Flow.NewFlow f → offered f c → typed c.
Proof.
  intros Hf. destruct c as [tx| | |x [tx|]|]; cbn; try done; intros (i & g & b & Hi & Htx);
    by destruct (Flow.channel_txs f i g b tx Hf Hi Htx).
Qed.

(** [C18] The engine's messages are well typed. In every reachable state, each round of a process, a request group,
    the contract manager and a process manager does exactly what it would do if its receivers took every
    message; and no handler of the scheduler is refused by the chain service, the contract manager or a request group: it
    returns an error only for a request without payload and for the closing of a group it does not have. So
    no [PutMsg] between the components of the engine ever answers that it does not know the type of a
    message, an error that its callers would only log. *)
Theorem messages_accepted f s :
  rtc Flow.flowStep Flow.NewFlow f → s = Flow.f_sched f →
  (∀ e seen c p, Process.e_sched e = RequestScheduler.asInterface s → Process.e_pmPutMsg e = Engine.pmPutErr → offered f c →
    Process.listenProcess e seen c p = Process.listenProcess (openProcess e) seen c p) ∧
  (∀ e c g, RequestGroup.e_sched e = RequestScheduler.asInterface s → RequestGroup.e_cmgr e = Engine.contractManager →
    (∀ b m, @pm_PutMsg (RequestGroup.e_pm e b) m = Engine.pmPutErr m) →
    RequestGroup.loopStep e c g = RequestGroup.loopStep (openGroup e) c g) ∧
  (∀ tcp rmErr wrErr cm,
    ContractManager.loopStep tcp rmErr wrErr (Some (RequestScheduler.asInterface s)) cm =
    ContractManager.loopStep tcp rmErr wrErr (Some (openSched (RequestScheduler.asInterface s))) cm) ∧
  (∀ e sel c1 c2 w, Process.e_sched e = RequestScheduler.asInterface s →
    ProcessManager.loopStep e sel c1 c2 w = ProcessManager.loopStep (openProcess e) sel c1 c2 w) ∧
  (∀ m s er s', RequestScheduler.handleGetContractReq chainPutMsg m s = Ret (er, s') ∨
     RequestScheduler.handleErrResp chainPutMsg m s = Ret (er, s') ∨
     RequestScheduler.handleGetContractResp (H := Engine.contractManager) m s = Ret (er, s') → er = None) ∧
  (∀ m s er s', RequestScheduler.handleTxReq m s = Ret (er, s') →
     er = if decide (m_Request m = None) then Some (Err "empty request payload") else None) ∧
  (∀ k s er s', RequestScheduler.handleCloseReq k s = Ret (er, s') → er = None ∨ er = Some (Err "request group not found")).
Proof.
  intros Hf ->. split_and!.
  - intros e seen c p Hs Hp Hc. eapply same_listenProcess; [done|done|]. by eapply offered_typed.
  - intros. by eapply same_groupLoop.
  - intros. apply same_cmLoop.
  - intros. by eapply same_pmLoop.
  - intros m s er s' [Hr|[Hr|Hr]]; by apply bind_Ret in Hr as (? & ? & _ & [= <- _]).
  - apply handleTxReq_taken.
  - apply handleCloseReq_taken.
Qed.
End accepted.

(** *** Witness: the sandbox of the sample run dies while it executes a transaction *)

Definition w_env : Process.env :=
  Process.mkEnv 5 100 true (RequestScheduler.asInterface (Flow.f_sched Flow.w_flow)) Engine.pmPutErr
    (λ _ _, Some (Err "unknown")) (λ _, None) (λ _, None) 7 0.

Lemma messages_accepted_witness :
  Process.listenProcess w_env Process.busy (Process.ChExit None None) Flow.w_busy =
  Process.listenProcess (openProcess w_env) Process.busy (Process.ChExit None None) Flow.w_busy ∧
  match Process.listenProcess w_env Process.busy (Process.ChExit None None) Flow.w_busy with
  | Ret (_, p) => Process.txAnswers (Process.effects Flow.w_busy p) = ["t1"]
  | _ => False
  end.
Proof.
  split; [|vm_compute; reflexivity].
  refine (proj1 (messages_accepted (H := sampleConsts) Flow.w_flow (Flow.f_sched Flow.w_flow) Flow.w_flow_reachable eq_refl)
    w_env Process.busy (Process.ChExit None None) Flow.w_busy eq_refl eq_refl I).
Defined.
End Protocol.
