(* ===== verification/Gas.v ===== *)
(** * gas/: the gas a transaction uses

    gas_old.go charges for block versions below 2030102, gas2312.go from there on, and gas.go
    selects. A function returns the new gas used and an error, as in Go: when it fails the
    first result is zero. Gas is a [uint64]; sums and products are reduced modulo 2^64. *)

From S2P Require Import Prelude Messages.

Module Gas.

(** [chainmaker.org/chainmaker/utils/v2/gas] and the constant [utils.PrefixContractByteCode]:
    the gas prices and the product of a size and a price, a [uint64] or an error. The events of
    [commonPb] are marshalled with the tags of that package. *)
Class GasUtils := {
  GasConfig : Type;
  GasPrice : Type;
  price_zero : GasPrice;
  GetGasPriceForInvoke : GasConfig → GasPrice;
  MultiplyGasPrice : Z → GasPrice → Z + gerr;
  PrefixContractByteCode : string;
}.

(** [commonPb.ContractEvent]. *)
Record ContractEvent := mkContractEvent {
  ce_Topic : string;
  ce_TxId : string;
  ce_ContractName : string;
  ce_EventData : list string;
}.

#[export] Instance ContractEvent_eq_dec : EqDecision ContractEvent.
Proof. solve_decision. Defined.

Definition blockVersion2312 : Z := 2030102.

(** The prices that are used. *)
Definition GetStateGasPrice : Z := 1.
Definition GetBatchStateGasPrice : Z := 1.
Definition PutStateGasPrice : Z := 10.
Definition EmitEventGasPrice : Z := 5.
Definition KvIteratorCreateGasPrice : Z := 1.
Definition KvIteratorNextGasPrice : Z := 1.
Definition KeyHistoryIterCreateGasPrice : Z := 1.
Definition KeyHistoryIterHasNextGasPrice : Z := 1.
Definition GetSenderAddressGasPrice : Z := 1.

Definition initContract : string := "init_contract".
Definition upgradeContract : string := "upgrade".
Definition defaultInvokeBaseGas : Z := 10000.
Definition initFuncGas : Z := 1250.

(** The keys of the parameters of a system call (config/config.go). *)
Definition KeyIterStartKey : string := "KEY_ITERATOR_START_KEY".
Definition KeyIterStartField : string := "KEY_ITERATOR_START_FIELD".
Definition KeyIterLimitKey : string := "KEY_ITERATOR_LIMIT_KEY".
Definition KeyIterLimitField : string := "KEY_ITERATOR_LIMIT_FIELD".
Definition KeyHistoryIterKey : string := "KEY_HISTORY_ITERATOR_KEY".
Definition KeyHistoryIterField : string := "KEY_HISTORY_ITERATOR_FIELD".

Definition len (s : string) : Z := Z.of_nat (String.length s).

(** The value of a key in a map of byte slices: a missing key is the nil slice. *)
Definition param (params : gmap string string) (k : string) : string := default "" (params !! k).

Definition overLimit : gerr := Err "over gas limited".
Definition overLimitSp : gerr := Err "over gas limited ".

Section gas.
Context `{ProtocolConsts} `{GU : GasUtils}.

(** [json.Marshal(contractEvent)] of the event's generated struct. *)
Context (marshalEvent : ContractEvent → string + gerr).

Definition CheckGasLimit (gasUsed : Z) : bool := GasLimit <? gasUsed.

(** ** gas_old.go *)

Definition GetStateGasUsedLt2312 (gasUsed : Z) (value : string) : Z * option gerr :=
  let gasUsed := u64_add gasUsed (u64_mul (len value) GetStateGasPrice) in
  if CheckGasLimit gasUsed then (0, Some overLimitSp) else (gasUsed, None).

Definition GetBatchStateGasUsedLt2312 (gasUsed : Z) (payload : string) : Z * option gerr :=
  let gasUsed := u64_add gasUsed (u64_mul (len payload) GetBatchStateGasPrice) in
  if CheckGasLimit gasUsed then (0, Some overLimitSp) else (gasUsed, None).

Definition PutStateGasUsedLt2312 (gasUsed : Z) (contractName key field value : string) : Z * option gerr :=
  let gasUsed := u64_add gasUsed
    (u64_mul (u64_add (len value) (len (contractName +:+ key +:+ field))) PutStateGasPrice) in
  if CheckGasLimit gasUsed then (0, Some overLimitSp) else (gasUsed, None).

Definition EmitEventGasUsedLt2312 (gasUsed : Z) (contractEvent : ContractEvent) : Z * option gerr :=
  match marshalEvent contractEvent with
  | inr err => (0, Some err)
  | inl bytes =>
    let gasUsed := u64_add gasUsed (u64_mul (len bytes) EmitEventGasPrice) in
    if CheckGasLimit gasUsed then (0, Some overLimitSp) else (gasUsed, None)
  end.

Definition getInitFuncGasUsed (gasUsed configDefaultGas : Z) : Z :=
  if configDefaultGas =? 0 then u64_add (u64_add gasUsed defaultInvokeBaseGas) initFuncGas
  else u64_add (u64_add gasUsed configDefaultGas) initFuncGas.

Definition InitFuncGasUsedLt2312 (gasUsed configDefaultGas : Z) : Z * option gerr :=
  let gasUsed := getInitFuncGasUsed gasUsed configDefaultGas in
  if CheckGasLimit gasUsed then (0, Some overLimitSp) else (gasUsed, None).

Definition ContractGasUsed (gasUsed : Z) (method contractName byteCode : string) : Z * option gerr :=
  let gasUsed :=
    if String.eqb method initContract
    then u64_add gasUsed (u64_mul (u64_add (len (contractName +:+ PrefixContractByteCode)) (len byteCode)) PutStateGasPrice)
    else gasUsed in
  let gasUsed :=
    if String.eqb method upgradeContract
    then u64_add gasUsed (u64_mul (len byteCode) PutStateGasPrice)
    else gasUsed in
  if CheckGasLimit gasUsed then (0, Some overLimitSp) else (gasUsed, None).

(** The iterator operations and the sender's address cost ten times their price. *)
Definition fixedGas (price gasUsed : Z) : Z * option gerr :=
  let gasUsed := u64_add gasUsed (u64_mul 10 price) in
  if CheckGasLimit gasUsed then (0, Some overLimit) else (gasUsed, None).

Definition CreateKeyHistoryIterGasUsedLt2312 (gasUsed : Z) := fixedGas KeyHistoryIterCreateGasPrice gasUsed.
Definition ConsumeKeyHistoryIterGasUsedLt2312 (gasUsed : Z) := fixedGas KeyHistoryIterHasNextGasPrice gasUsed.
Definition CreateKvIteratorGasUsedLt2312 (gasUsed : Z) := fixedGas KvIteratorCreateGasPrice gasUsed.
Definition ConsumeKvIteratorGasUsedLt2312 (gasUsed : Z) := fixedGas KvIteratorNextGasPrice gasUsed.

(** ** gas2312.go: most operations are free *)

Definition PutStateGasUsed2312 (gasUsed : Z) : Z * option gerr := (gasUsed, None).
Definition GetStateGasUsed2312 (gasUsed : Z) : Z * option gerr := (gasUsed, None).
Definition GetBatchStateGasUsed2312 (gasUsed : Z) : Z * option gerr := (gasUsed, None).
Definition EmitEventGasUsed2312 (gasUsed : Z) : Z * option gerr := (gasUsed, None).
Definition ConsumeKeyHistoryIterGasUsed2312 (gasUsed : Z) : Z * option gerr := (gasUsed, None).
Definition ConsumeKvIteratorGasUsed2312 (gasUsed : Z) : Z * option gerr := (gasUsed, None).
Definition ConsumeKvIteratorNextGasUsed2312 (gasUsed : Z) : Z * option gerr := (gasUsed, None).
Definition ConsumeKeyHistoryIterNextGasUsed2312 (gasUsed : Z) : Z * option gerr := (gasUsed, None).

Definition invokePrice (gasConfig : option GasConfig) : GasPrice :=
  match gasConfig with None => price_zero | Some c => GetGasPriceForInvoke c end.

(** The size of the data times the price of the configuration. *)
Definition sizeGas (gasConfig : option GasConfig) (dataSize gasUsed : Z) : Z * option gerr :=
  match MultiplyGasPrice dataSize (invokePrice gasConfig) with
  | inr err => (0, Some err)
  | inl gas =>
    let gasUsed := u64_add gasUsed gas in
    if CheckGasLimit gasUsed then (0, Some overLimit) else (gasUsed, None)
  end.

Definition CreateKeyHistoryIterGasUsed2312 (gasConfig : option GasConfig) (params : gmap string string)
    (gasUsed : Z) : Z * option gerr :=
  sizeGas gasConfig (len (param params KeyHistoryIterKey) + len (param params KeyHistoryIterField)) gasUsed.

Definition CreateKvIteratorGasUsed2312 (gasConfig : option GasConfig) (params : gmap string string)
    (gasUsed : Z) : Z * option gerr :=
  sizeGas gasConfig
    (len (param params KeyIterStartKey) + len (param params KeyIterStartField) +
     len (param params KeyIterLimitKey) + len (param params KeyIterLimitField)) gasUsed.

(** [strings.HasPrefix(key, "__") && strings.HasSuffix(key, "__")]. *)
Definition reserved (key : string) : bool :=
  String.prefix "__" key && String.eqb (String.substring (String.length key - 2) 2 key) "__".

(** The order in which Go ranges over the map does not matter for the sum. *)
Definition paramsSize (parameters : gmap string string) : Z :=
  foldr (λ '(k, v) acc, if reserved k then acc else acc + (len k + len v)) 0 (map_to_list parameters).

Definition CallContractGasUsed2312 (gasConfig : option GasConfig) (gasUsed : Z) (contractName contractMethod : string)
    (parameters : gmap string string) : Z * option gerr :=
  sizeGas gasConfig (len contractName + len contractMethod + paramsSize parameters) gasUsed.

(** ** gas.go *)

Definition GetSenderAddressGasUsed (gasUsed : Z) : Z * option gerr := fixedGas GetSenderAddressGasPrice gasUsed.

Definition PutStateGasUsed (blockVersion gasUsed : Z) (contractName key field value : string) : Z * option gerr :=
  if blockVersion <? blockVersion2312 then PutStateGasUsedLt2312 gasUsed contractName key field value
  else PutStateGasUsed2312 gasUsed.

Definition GetStateGasUsed (blockVersion gasUsed : Z) (value : string) : Z * option gerr :=
  if blockVersion <? blockVersion2312 then GetStateGasUsedLt2312 gasUsed value else GetStateGasUsed2312 gasUsed.

Definition GetBatchStateGasUsed (blockVersion gasUsed : Z) (payload : string) : Z * option gerr :=
  if blockVersion <? blockVersion2312 then GetBatchStateGasUsedLt2312 gasUsed payload
  else GetBatchStateGasUsed2312 gasUsed.

Definition EmitEventGasUsed (blockVersion gasUsed : Z) (contractEvent : ContractEvent) : Z * option gerr :=
  if blockVersion <? blockVersion2312 then EmitEventGasUsedLt2312 gasUsed contractEvent else EmitEventGasUsed2312 gasUsed.

Definition CreateKeyHistoryIterGasUsed (blockVersion : Z) (gasConfig : option GasConfig) (params : gmap string string)
    (gasUsed : Z) : Z * option gerr :=
  if blockVersion <? blockVersion2312 then CreateKeyHistoryIterGasUsedLt2312 gasUsed
  else CreateKeyHistoryIterGasUsed2312 gasConfig params gasUsed.

Definition ConsumeKeyHistoryIterGasUsed (blockVersion gasUsed : Z) : Z * option gerr :=
  if blockVersion <? blockVersion2312 then ConsumeKeyHistoryIterGasUsedLt2312 gasUsed
  else ConsumeKeyHistoryIterGasUsed2312 gasUsed.

Definition CreateKvIteratorGasUsed (blockVersion : Z) (gasConfig : option GasConfig) (params : gmap string string)
    (gasUsed : Z) : Z * option gerr :=
  if blockVersion <? blockVersion2312 then CreateKvIteratorGasUsedLt2312 gasUsed
  else CreateKvIteratorGasUsed2312 gasConfig params gasUsed.

Definition ConsumeKvIteratorGasUsed (blockVersion gasUsed : Z) : Z * option gerr :=
  if blockVersion <? blockVersion2312 then ConsumeKvIteratorGasUsedLt2312 gasUsed
  else ConsumeKvIteratorGasUsed2312 gasUsed.

Definition CallContractGasUsed (blockVersion : Z) (gasConfig : option GasConfig) (gasUsed : Z)
    (contractName contractMethod : string) (parameters : gmap string string) : Z * option gerr :=
  if blockVersion <? blockVersion2312 then (gasUsed, None)
  else CallContractGasUsed2312 gasConfig gasUsed contractName contractMethod parameters.

(** ** Exactness of the accounting *)

(** The operations that are charged. *)
Inductive gasOp :=
| OpInitFunc (defaultGas : Z)
| OpContract (method contractName byteCode : string)
| OpGetState (value : string)
| OpGetBatchState (payload : string)
| OpPutState (contractName key field value : string)
| OpEmitEvent (ev : ContractEvent)
| OpCreateKv (params : gmap string string)
| OpConsumeKv
| OpCreateHistory (params : gmap string string)
| OpConsumeHistory
| OpCallContract (contractName contractMethod : string) (parameters : gmap string string)
| OpSenderAddress.

(** How the code charges an operation; the start of a transaction is charged by the old rules
    only. *)
Definition charge (version : Z) (cfg : option GasConfig) (op : gasOp) (gasUsed : Z) : Z * option gerr :=
  match op with
  | OpInitFunc d => if version <? blockVersion2312 then InitFuncGasUsedLt2312 gasUsed d else (gasUsed, None)
  | OpContract m c b => if version <? blockVersion2312 then ContractGasUsed gasUsed m c b else (gasUsed, None)
  | OpGetState v => GetStateGasUsed version gasUsed v
  | OpGetBatchState p => GetBatchStateGasUsed version gasUsed p
  | OpPutState c k f v => PutStateGasUsed version gasUsed c k f v
  | OpEmitEvent ev => EmitEventGasUsed version gasUsed ev
  | OpCreateKv ps => CreateKvIteratorGasUsed version cfg ps gasUsed
  | OpConsumeKv => ConsumeKvIteratorGasUsed version gasUsed
  | OpCreateHistory ps => CreateKeyHistoryIterGasUsed version cfg ps gasUsed
  | OpConsumeHistory => ConsumeKeyHistoryIterGasUsed version gasUsed
  | OpCallContract c m ps => CallContractGasUsed version cfg gasUsed c m ps
  | OpSenderAddress => GetSenderAddressGasUsed gasUsed
  end.

(** What an operation costs, as a plain number. *)
Definition cost (version : Z) (cfg : option GasConfig) (op : gasOp) : Z + gerr :=
  if version <? blockVersion2312 then
    match op with
    | OpInitFunc d => inl ((if d =? 0 then 10000 else d) + 1250)
    | OpContract m c b =>
      inl (if String.eqb m initContract then 10 * (len (c +:+ PrefixContractByteCode) + len b)
           else if String.eqb m upgradeContract then 10 * len b else 0)
    | OpGetState v => inl (len v)
    | OpGetBatchState p => inl (len p)
    | OpPutState c k f v => inl (10 * (len v + len (c +:+ k +:+ f)))
    | OpEmitEvent ev => match marshalEvent ev with inl b => inl (5 * len b) | inr e => inr e end
    | OpCreateKv _ | OpConsumeKv | OpCreateHistory _ | OpConsumeHistory | OpSenderAddress => inl 10
    | OpCallContract _ _ _ => inl 0
    end
  else
    match op with
    | OpInitFunc _ | OpContract _ _ _ | OpGetState _ | OpGetBatchState _ | OpPutState _ _ _ _ | OpEmitEvent _
    | OpConsumeKv | OpConsumeHistory => inl 0
    | OpCreateKv ps =>
      MultiplyGasPrice (len (param ps KeyIterStartKey) + len (param ps KeyIterStartField) +
                        len (param ps KeyIterLimitKey) + len (param ps KeyIterLimitField)) (invokePrice cfg)
    | OpCreateHistory ps =>
      MultiplyGasPrice (len (param ps KeyHistoryIterKey) + len (param ps KeyHistoryIterField)) (invokePrice cfg)
    | OpCallContract c m ps => MultiplyGasPrice (len c + len m + paramsSize ps) (invokePrice cfg)
    | OpSenderAddress => inl 10
    end.

(** Charged exactly: the sum when it fits, else zero and an error. *)
Definition charged (gasUsed c : Z) (r : Z * option gerr) : Prop :=
  if GasLimit <? gasUsed + c then r.1 = 0 ∧ is_Some r.2 else r = (gasUsed + c, None).

Context `{!ProtocolConstsOk}.

Lemma charged_add g c e : 0 ≤ g ≤ GasLimit → 0 ≤ c < 2 ^ 63 →
  charged g c (let g' := u64_add g c in if CheckGasLimit g' then (0, Some e) else (g', None)).
Proof.
  intros Hg Hc. pose proof gas_limit_range as HL. unfold charged, CheckGasLimit, u64_add.
  rewrite u64_small by (unfold u64_max; lia). cbv zeta. destruct (GasLimit <? g + c); eauto.
Qed.

Lemma charged_zero g : 0 ≤ g ≤ GasLimit → charged g 0 (g, None).
Proof. intros Hg. unfold charged. rewrite Z.add_0_r. destruct (Z.ltb_spec GasLimit g); [lia|done]. Qed.

Lemma len_nonneg s : 0 ≤ len s.
Proof. unfold len. lia. Qed.

Lemma u64_mul_small a b : 0 ≤ a → 0 ≤ b → a * b < 2 ^ 63 → u64_mul a b = a * b.
Proof. intros. unfold u64_mul. apply u64_small. unfold u64_max. nia. Qed.

Lemma u64_add_small a b : 0 ≤ a → 0 ≤ b → a + b < 2 ^ 64 → u64_add a b = a + b.
Proof. intros. unfold u64_add. apply u64_small. unfold u64_max. lia. Qed.

Lemma charged_fixed g price : 0 ≤ g ≤ GasLimit → price = 1 → charged g 10 (fixedGas price g).
Proof. intros Hg ->. by apply charged_add. Qed.

Lemma charged_size cfg size g c : 0 ≤ g ≤ GasLimit → 0 ≤ c < 2 ^ 63 →
  MultiplyGasPrice size (invokePrice cfg) = inl c → charged g c (sizeGas cfg size g).
Proof. intros Hg Hc Hm. unfold sizeGas. rewrite Hm. by apply charged_add. Qed.

(** The old rules. *)
Lemma charge_old cfg op g c v :
  (v <? blockVersion2312) = true → 0 ≤ g ≤ GasLimit → cost v cfg op = inl c → 0 ≤ c < 2 ^ 63 → charged g c (charge v cfg op g).
Proof.
  intros Hv Hg Hcost Hc. pose proof gas_limit_range as HL. unfold cost in Hcost. rewrite Hv in Hcost.
  destruct op as [d|m n b|s|s|n k f s|ev|ps| |ps| |n m ps|]; cbn [charge];
    unfold GetStateGasUsed, GetBatchStateGasUsed, PutStateGasUsed, EmitEventGasUsed, CreateKvIteratorGasUsed,
      ConsumeKvIteratorGasUsed, CreateKeyHistoryIterGasUsed, ConsumeKeyHistoryIterGasUsed, CallContractGasUsed;
    rewrite ?Hv; try (injection Hcost as <-; by apply charged_fixed).
  - injection Hcost as <-. unfold InitFuncGasUsedLt2312, getInitFuncGasUsed, defaultInvokeBaseGas, initFuncGas.
    assert (∀ x, 0 ≤ x + 1250 < 2 ^ 63 → -1250 ≤ x → charged g (x + 1250)
      (let g' := u64_add (u64_add g x) 1250 in if CheckGasLimit g' then (0, Some overLimitSp) else (g', None))) as Hx.
    { intros x Hx Hx'. replace (u64_add (u64_add g x) 1250) with (u64_add g (x + 1250)); [by apply charged_add|].
      unfold u64_add, u64. rewrite Z.add_assoc, Zplus_mod_idemp_l. done. }
    destruct (d =? 0); apply Hx; lia.
  - injection Hcost as <-. unfold ContractGasUsed, PutStateGasPrice.
    pose proof (len_nonneg b). pose proof (len_nonneg (n +:+ PrefixContractByteCode)).
    destruct (String.eqb_spec m initContract) as [->|Hm].
    + change (String.eqb initContract upgradeContract) with false. cbv beta iota.
      rewrite (u64_add_small (len (n +:+ _))), u64_mul_small by lia. rewrite (Z.mul_comm _ 10). by apply charged_add.
    + destruct (String.eqb m upgradeContract).
      * rewrite u64_mul_small by lia. rewrite (Z.mul_comm _ 10). by apply charged_add.
      * cbv zeta. unfold CheckGasLimit. destruct (Z.ltb_spec GasLimit g); [lia|]. by apply charged_zero.
  - injection Hcost as <-. unfold GetStateGasUsedLt2312, GetStateGasPrice.
    rewrite u64_mul_small, Z.mul_1_r by lia. by apply charged_add.
  - injection Hcost as <-. unfold GetBatchStateGasUsedLt2312, GetBatchStateGasPrice.
    rewrite u64_mul_small, Z.mul_1_r by lia. by apply charged_add.
  - injection Hcost as <-. unfold PutStateGasUsedLt2312, PutStateGasPrice.
    pose proof (len_nonneg s). pose proof (len_nonneg (n +:+ k +:+ f)).
    rewrite (u64_add_small (len s)), u64_mul_small by lia. rewrite (Z.mul_comm _ 10). by apply charged_add.
  - unfold EmitEventGasUsedLt2312, EmitEventGasPrice. destruct (marshalEvent ev) as [b|]; [|done]. injection Hcost as <-.
    pose proof (len_nonneg b). rewrite u64_mul_small by lia. rewrite (Z.mul_comm _ 5). by apply charged_add.
  - injection Hcost as <-. by apply charged_zero.
Qed.

(** The rules from version 2030102. *)
Lemma charge_new cfg op g c v :
  (v <? blockVersion2312) = false → 0 ≤ g ≤ GasLimit → cost v cfg op = inl c → 0 ≤ c < 2 ^ 63 → charged g c (charge v cfg op g).
Proof.
  intros Hv Hg Hcost Hc. unfold cost in Hcost. rewrite Hv in Hcost.
  destruct op as [d|m n b|s|s|n k f s|ev|ps| |ps| |n m ps|]; cbn [charge];
    unfold GetStateGasUsed, GetBatchStateGasUsed, PutStateGasUsed, EmitEventGasUsed, CreateKvIteratorGasUsed,
      ConsumeKvIteratorGasUsed, CreateKeyHistoryIterGasUsed, ConsumeKeyHistoryIterGasUsed, CallContractGasUsed;
    rewrite ?Hv; try (injection Hcost as <-; by apply charged_zero); try by apply charged_size.
  injection Hcost as <-. by apply charged_fixed.
Qed.

Lemma charge_charged cfg op g c v :
  0 ≤ g ≤ GasLimit → cost v cfg op = inl c → 0 ≤ c < 2 ^ 63 → charged g c (charge v cfg op g).
Proof. destruct (v <? blockVersion2312) eqn:Hv; [by apply charge_old|by apply charge_new]. Qed.

(** Whatever the operands, the gas that an operation leaves is within the limit. *)
Definition within (g : Z) : Prop := 0 ≤ g ≤ GasLimit.

Lemma within_zero : within 0.
Proof. pose proof gas_limit_range. split; lia. Qed.

Lemma within_check g (e : gerr) : 0 ≤ g → within (if CheckGasLimit g then (0, Some e) else (g, None)).1.
Proof.
  intros Hg. unfold CheckGasLimit. destruct (Z.ltb_spec GasLimit g); cbn; [apply within_zero|]. split; lia.
Qed.

Lemma u64_add_nonneg a b : 0 ≤ u64_add a b.
Proof. apply u64_range. Qed.

Lemma within_charge v cfg op g : within g → within (charge v cfg op g).1.
Proof.
  intros Hg. assert (∀ price, within (fixedGas price g).1) as Hfix by (intros; apply within_check, u64_add_nonneg).
  assert (∀ size, within (sizeGas cfg size g).1) as Hsize.
  { intros size. unfold sizeGas. destruct (MultiplyGasPrice _ _); [apply within_check, u64_add_nonneg|apply within_zero]. }
  destruct op as [d|m n b|x|x|n k f x|ev|ps| |ps| |n m ps|]; cbn [charge];
    unfold GetStateGasUsed, GetBatchStateGasUsed, PutStateGasUsed, EmitEventGasUsed, CreateKvIteratorGasUsed,
      ConsumeKvIteratorGasUsed, CreateKeyHistoryIterGasUsed, ConsumeKeyHistoryIterGasUsed, CallContractGasUsed;
    try (destruct (v <? blockVersion2312); try exact Hg; try apply Hfix; try apply Hsize).
  - apply within_check. unfold getInitFuncGasUsed. destruct (d =? 0); apply u64_add_nonneg.
  - unfold ContractGasUsed. cbv zeta. apply within_check.
    destruct (String.eqb m upgradeContract); [apply u64_add_nonneg|].
    destruct (String.eqb m initContract); [apply u64_add_nonneg|apply Hg].
  - apply within_check, u64_add_nonneg.
  - apply within_check, u64_add_nonneg.
  - apply within_check, u64_add_nonneg.
  - unfold EmitEventGasUsedLt2312. destruct (marshalEvent ev); [apply within_check, u64_add_nonneg|apply within_zero].
Qed.

Lemma within_fixed price g : within (fixedGas price g).1.
Proof. apply within_check, u64_add_nonneg. Qed.

Lemma within_emitEvent v g ev : within g → within (EmitEventGasUsed v g ev).1.
Proof. apply (within_charge v None (OpEmitEvent ev)). Qed.

(** A sequence of operations that ends at the first error. *)
Fixpoint chargeAll (version : Z) (cfg : option GasConfig) (ops : list gasOp) (gasUsed : Z) : Z * option gerr :=
  match ops with
  | [] => (gasUsed, None)
  | op :: ops' =>
    match charge version cfg op gasUsed with
    | (g, None) => chargeAll version cfg ops' g
    | (g, Some e) => (g, Some e)
    end
  end.

(** [C16] The gas accounting is exact at machine width: for any block version, a sequence of
    charged operations, each of a cost below 2^63, leaves exactly the gas used before plus the
    sum of the costs when this stays within the limit, and ends in an error, with gas zero, when
    it does not; no wrap-around of the 64-bit sums ever hides a cost. *)
Theorem gas_accounting_exact version cfg ops costs g :
  0 ≤ g ≤ GasLimit → Forall2 (λ op c, cost version cfg op = inl c ∧ 0 ≤ c < 2 ^ 63) ops costs →
  let total := foldr Z.add 0 costs in
  if g + total <=? GasLimit then chargeAll version cfg ops g = (g + total, None)
  else (chargeAll version cfg ops g).1 = 0 ∧ is_Some (chargeAll version cfg ops g).2.
Proof.
  intros Hg Hcs. revert g Hg. induction Hcs as [|op c ops costs [Hop Hc] Hcs IH]; intros g Hg; cbn.
  - rewrite Z.add_0_r. destruct (Z.leb_spec g GasLimit); [done|lia].
  - assert (0 ≤ foldr Z.add 0 costs) as Hpos.
    { clear -Hcs. induction Hcs as [|? ? ? ? [_ ?] _ IH]; cbn; lia. }
    pose proof (charge_charged cfg op g c version Hg Hop Hc) as Hch. unfold charged in Hch.
    destruct (Z.ltb_spec GasLimit (g + c)).
    + destruct (charge version cfg op g) as [g' [e|]]; cbn in Hch; destruct Hch as [-> [e' He]]; [|done].
      destruct (Z.leb_spec (g + (c + foldr Z.add 0 costs)) GasLimit); [lia|]. cbn. eauto.
    + rewrite Hch. specialize (IH (g + c) ltac:(lia)). by rewrite Z.add_assoc.
Qed.
End gas.

Section within.
Context `{ProtocolConsts} `{GU : GasUtils} `{!ProtocolConstsOk}.

Lemma within_getState v g x : within g → within (GetStateGasUsed v g x).1.
Proof. apply (within_charge (λ _, inl "") v None (OpGetState x)). Qed.
Lemma within_getBatch v g x : within g → within (GetBatchStateGasUsed v g x).1.
Proof. apply (within_charge (λ _, inl "") v None (OpGetBatchState x)). Qed.
Lemma within_putState v g n k f x : within g → within (PutStateGasUsed v g n k f x).1.
Proof. apply (within_charge (λ _, inl "") v None (OpPutState n k f x)). Qed.
Lemma within_createKv v cfg ps g : within g → within (CreateKvIteratorGasUsed v cfg ps g).1.
Proof. apply (within_charge (λ _, inl "") v cfg (OpCreateKv ps)). Qed.
Lemma within_consumeKv v g : within g → within (ConsumeKvIteratorGasUsed v g).1.
Proof. apply (within_charge (λ _, inl "") v None OpConsumeKv). Qed.
Lemma within_createHistory v cfg ps g : within g → within (CreateKeyHistoryIterGasUsed v cfg ps g).1.
Proof. apply (within_charge (λ _, inl "") v cfg (OpCreateHistory ps)). Qed.
Lemma within_consumeHistory v g : within g → within (ConsumeKeyHistoryIterGasUsed v g).1.
Proof. apply (within_charge (λ _, inl "") v None OpConsumeHistory). Qed.
Lemma within_callContract v cfg g n m ps : within g → within (CallContractGasUsed v cfg g n m ps).1.
Proof. apply (within_charge (λ _, inl "") v cfg (OpCallContract n m ps)). Qed.
Lemma within_initFunc g d : within g → within (InitFuncGasUsedLt2312 g d).1.
Proof. apply (within_charge (λ _, inl "") 0 None (OpInitFunc d)). Qed.
Lemma within_contract g m n b : within g → within (ContractGasUsed g m n b).1.
Proof. apply (within_charge (λ _, inl "") 0 None (OpContract m n b)). Qed.
End within.

Create HintDb gasdb.
#[global] Hint Resolve within_zero within_fixed within_getState within_getBatch within_putState within_emitEvent
  within_createKv within_consumeKv within_createHistory within_consumeHistory within_callContract within_initFunc
  within_contract : gasdb.

(** A price of one unit of gas per byte. *)
Definition sampleGas : GasUtils := {|
  GasConfig := unit;
  GasPrice := Z;
  price_zero := 0;
  GetGasPriceForInvoke _ := 1;
  MultiplyGasPrice size price := inl (Z.max 0 (Z.min (2 ^ 63 - 1) (size * price)));
  PrefixContractByteCode := "_CB_";
|}.

Lemma gas_accounting_exact_witness :
  chargeAll (H := sampleConsts) (GU := sampleGas) (λ _, inl "event") 2030100 None
    [OpInitFunc 0; OpPutState "c" "k" "f" "value"; OpSenderAddress] 0 = (11250 + 80 + 10, None).
Proof.
  exact (gas_accounting_exact (H := sampleConsts) (GU := sampleGas) (λ _, inl "event") (H0 := sampleConsts_ok)
    2030100 None [OpInitFunc 0; OpPutState "c" "k" "f" "value"; OpSenderAddress] [11250; 80; 10] 0
    ltac:(cbn; lia) ltac:(repeat constructor; vm_compute; congruence)).
Defined.
End Gas.
