(* ===== verification/TimeStatics.v ===== *)
(** * utils/time_statics.go: durations of system calls, transactions and blocks

    A transaction keeps a list of its system calls and of the cross-contract calls it made;
    the durations are shared objects: the runtime instance changes its own, the manager of
    the blocks reaches all of them from the root of a transaction, and the records of system
    calls come from a pool and go back to it. So they live in heaps, and a pointer is a
    number. The clock's readings are arguments. *)

From S2P Require Import Prelude Messages EngineUtils.

Module TimeStatics.

(** ** Machine integers *)

Definition i32 (z : Z) : Z := (z + 2 ^ 31) mod 2 ^ 32 - 2 ^ 31.
Definition i64 (z : Z) : Z := (z + 2 ^ 63) mod 2 ^ 64 - 2 ^ 63.

(** ** Data *)

Record SysCallDuration := mkSysCallDuration {
  sy_OpType : DockerVMType;
  sy_StartTime : Z;
  sy_TotalDuration : Z;
  sy_StorageDuration : Z;
}.

Abbreviation sysref := nat (only parsing).
Abbreviation txref := nat (only parsing).

Record TxDuration := mkTxDuration {
  td_OriginalTxId : string;
  td_TxId : string;
  td_StartTime : Z;
  td_EndTime : Z;
  td_TotalDuration : Z;
  td_SysCallCnt : Z;
  td_SysCallDuration : Z;
  td_StorageDuration : Z;
  td_ContingentSysCallCnt : Z;
  td_ContingentSysCallDuration : Z;
  td_CrossCallCnt : Z;
  td_CrossCallDuration : Z;
  td_SysCallList : list sysref;
  td_CrossCallList : list txref;
  td_Sealed : bool;
}.

(** [BlockTxsDuration]: the roots by original transaction id; nil and an empty map behave alike. *)
Abbreviation BlockTxsDuration := (gmap string txref).

(** The objects of the package: the records of system calls, the pool that holds some of
    them (a record may be in it more than once), the durations of transactions, and the
    blocks of the [BlockTxsDurationMgr]. A heap gives its length as the next pointer. *)
Record Dur := mkDur {
  d_sys : list SysCallDuration;
  d_sysCallPool : list sysref;
  d_tx : list TxDuration;
  d_blockDurations : gmap string BlockTxsDuration;
}.

Definition set_sys (f : list SysCallDuration → list SysCallDuration) (d : Dur) : Dur :=
  mkDur (f (d_sys d)) (d_sysCallPool d) (d_tx d) (d_blockDurations d).
Definition set_pool (f : list sysref → list sysref) (d : Dur) : Dur :=
  mkDur (d_sys d) (f (d_sysCallPool d)) (d_tx d) (d_blockDurations d).
Definition set_txs (f : list TxDuration → list TxDuration) (d : Dur) : Dur :=
  mkDur (d_sys d) (d_sysCallPool d) (f (d_tx d)) (d_blockDurations d).
Definition set_blocks (f : gmap string BlockTxsDuration → gmap string BlockTxsDuration) (d : Dur) : Dur :=
  mkDur (d_sys d) (d_sysCallPool d) (d_tx d) (f (d_blockDurations d)).

(** A field update through a pointer. *)
Definition upd_tx (t : txref) (f : TxDuration → TxDuration) : M Dur unit := modifyS (set_txs (alter f t)).
Definition get_tx (t : txref) : M Dur TxDuration := d ← getS; deref (d_tx d !! t).
Definition upd_sys (s : sysref) (f : SysCallDuration → SysCallDuration) : M Dur unit := modifyS (set_sys (alter f s)).
Definition get_sys (s : sysref) : M Dur SysCallDuration := d ← getS; deref (d_sys d !! s).

Definition set_SysCallList (f : list sysref → list sysref) (e : TxDuration) : TxDuration :=
  mkTxDuration (td_OriginalTxId e) (td_TxId e) (td_StartTime e) (td_EndTime e) (td_TotalDuration e)
    (td_SysCallCnt e) (td_SysCallDuration e) (td_StorageDuration e) (td_ContingentSysCallCnt e)
    (td_ContingentSysCallDuration e) (td_CrossCallCnt e) (td_CrossCallDuration e)
    (f (td_SysCallList e)) (td_CrossCallList e) (td_Sealed e).
Definition set_CrossCallList (f : list txref → list txref) (e : TxDuration) : TxDuration :=
  mkTxDuration (td_OriginalTxId e) (td_TxId e) (td_StartTime e) (td_EndTime e) (td_TotalDuration e)
    (td_SysCallCnt e) (td_SysCallDuration e) (td_StorageDuration e) (td_ContingentSysCallCnt e)
    (td_ContingentSysCallDuration e) (td_CrossCallCnt e) (td_CrossCallDuration e)
    (td_SysCallList e) (f (td_CrossCallList e)) (td_Sealed e).
Definition set_Sealed (b : bool) (e : TxDuration) : TxDuration :=
  mkTxDuration (td_OriginalTxId e) (td_TxId e) (td_StartTime e) (td_EndTime e) (td_TotalDuration e)
    (td_SysCallCnt e) (td_SysCallDuration e) (td_StorageDuration e) (td_ContingentSysCallCnt e)
    (td_ContingentSysCallDuration e) (td_CrossCallCnt e) (td_CrossCallDuration e)
    (td_SysCallList e) (td_CrossCallList e) b.
Definition set_TotalDuration (x : Z) (e : TxDuration) : TxDuration :=
  mkTxDuration (td_OriginalTxId e) (td_TxId e) (td_StartTime e) (td_EndTime e) x
    (td_SysCallCnt e) (td_SysCallDuration e) (td_StorageDuration e) (td_ContingentSysCallCnt e)
    (td_ContingentSysCallDuration e) (td_CrossCallCnt e) (td_CrossCallDuration e)
    (td_SysCallList e) (td_CrossCallList e) (td_Sealed e).

(** The sums of a transaction: counts and durations of the system calls, the storage, the
    loading of bytecode and the cross-contract calls are increased. *)
Definition add_sums (cnt dur storage ccnt cdur xcnt xdur : Z) (e : TxDuration) : TxDuration :=
  mkTxDuration (td_OriginalTxId e) (td_TxId e) (td_StartTime e) (td_EndTime e) (td_TotalDuration e)
    (i32 (td_SysCallCnt e + cnt)) (i64 (td_SysCallDuration e + dur)) (i64 (td_StorageDuration e + storage))
    (i32 (td_ContingentSysCallCnt e + ccnt)) (i64 (td_ContingentSysCallDuration e + cdur))
    (i32 (td_CrossCallCnt e + xcnt)) (i64 (td_CrossCallDuration e + xdur))
    (td_SysCallList e) (td_CrossCallList e) (td_Sealed e).

(** ** The system calls of a transaction *)

Definition NewTxDuration (originalTxId txId : string) (startTime : Z) : M Dur txref :=
  d ← getS;
  modifyS (set_txs (λ l, l ++ [mkTxDuration originalTxId txId startTime 0 0 0 0 0 0 0 0 0 [] [] false]));;
  mret (length (d_tx d)).

(** [sysCallPool.Get()]: any element of the pool, or a new record; [pick] chooses. *)
Definition poolGet (pick : option nat) : M Dur sysref :=
  d ← getS;
  match pick ≫= (λ i, d_sysCallPool d !! i) with
  | Some s => modifyS (set_pool (λ l, delete (default 0%nat pick) l));; mret s
  | None =>
    modifyS (set_sys (λ l, l ++ [mkSysCallDuration UNDEFINED 0 0 0]));;
    mret (length (d_sys d))
  end.

Definition StartSysCall (e : txref) (msgType : DockerVMType) (now : Z) (pick : option nat) : M Dur unit :=
  duration ← poolGet pick;
  upd_sys duration (λ _, mkSysCallDuration msgType now 0 0);;
  upd_tx e (set_SysCallList (λ l, l ++ [duration])).

Definition GetLatestSysCall (e : txref) : M Dur (sysref + gerr) :=
  t ← get_tx e;
  match last (td_SysCallList t) with
  | Some s => mret (inl s)
  | None => mret (inr (Err "sys call list length == 0"))
  end.

Definition AddLatestStorageDuration (e : txref) (duration : Z) : M Dur (option gerr) :=
  r ← GetLatestSysCall e;
  match r with
  | inr err => mret (Some (Wrap "failed to get latest sys call, " err))
  | inl s =>
    upd_sys s (λ x, mkSysCallDuration (sy_OpType x) (sy_StartTime x) (sy_TotalDuration x)
      (i64 (sy_StorageDuration x + duration)));;
    mret None
  end.

Definition addSysCallDuration (e : txref) (x : SysCallDuration) : M Dur unit :=
  match sy_OpType x with
  | GET_BYTECODE_REQUEST => upd_tx e (add_sums 0 0 (sy_StorageDuration x) 1 (sy_TotalDuration x) 0 0)
  | GET_STATE_REQUEST | GET_BATCH_STATE_REQUEST | CREATE_KV_ITERATOR_REQUEST | CONSUME_KV_ITERATOR_REQUEST
  | CREATE_KEY_HISTORY_ITER_REQUEST | CONSUME_KEY_HISTORY_ITER_REQUEST | GET_SENDER_ADDRESS_REQUEST =>
    upd_tx e (add_sums 1 (sy_TotalDuration x) (sy_StorageDuration x) 0 0 0 0)
  | CALL_CONTRACT_REQUEST => upd_tx e (add_sums 0 0 0 0 0 1 (sy_TotalDuration x))
  | _ => mret tt
  end.

Definition EndSysCall (e : txref) (now : Z) : M Dur (option gerr) :=
  r ← GetLatestSysCall e;
  match r with
  | inr err => mret (Some (Wrap "failed to get latest sys call, " err))
  | inl s =>
    upd_sys s (λ x, mkSysCallDuration (sy_OpType x) (sy_StartTime x) (now - sy_StartTime x) (sy_StorageDuration x));;
    x ← get_sys s;
    addSysCallDuration e x;; mret None
  end.

(** [Add], with which the sums of a block are computed, and [AddContingentSysCall]. *)
Definition Add (e : txref) (txDuration : txref) : M Dur unit :=
  x ← get_tx txDuration;
  upd_tx e (λ y, set_TotalDuration (i64 (td_TotalDuration y + td_TotalDuration x)) y);;
  upd_tx e (add_sums (td_SysCallCnt x) (td_SysCallDuration x) (td_StorageDuration x)
    (td_ContingentSysCallCnt x) (td_ContingentSysCallDuration x) (td_CrossCallCnt x) (td_CrossCallDuration x)).

Definition AddContingentSysCall (e : txref) (spend : Z) : M Dur unit := upd_tx e (add_sums 0 0 0 1 spend 0 0).

Definition Seal (e : txref) : M Dur unit := upd_tx e (set_Sealed true).

(** ** The transactions of a block *)

(** [getCallerNode()]: the first child that is not sealed is followed. The recursion ends
    because a child is younger than its parent; the number of objects is fuel enough. *)
Fixpoint getCallerNode (fuel : nat) (h : list TxDuration) (e : txref) : option txref :=
  match fuel with
  | 0%nat => None
  | S fuel' =>
    match h !! e with
    | None => None
    | Some t =>
      match list_find (λ c, td_Sealed <$> h !! c ≠ Some true) (td_CrossCallList t) with
      | Some (_, c) => getCallerNode fuel' h c
      | None => Some e
      end
    end
  end.

Definition AddTxDuration (id : string) (b : BlockTxsDuration) (t : txref) : M Dur unit :=
  x ← get_tx t;
  match b !! td_OriginalTxId x with
  | None => modifyS (set_blocks (<[id := <[td_OriginalTxId x := t]> b]>))
  | Some root =>
    d ← getS;
    callerNode ← deref (getCallerNode (S (length (d_tx d))) (d_tx d) root);
    upd_tx callerNode (set_CrossCallList (λ l, l ++ [t]))
  end.

Definition FinishTxDuration (b : BlockTxsDuration) (t : txref) : M Dur unit :=
  x ← get_tx t;
  match b !! td_OriginalTxId x with
  | None => mret tt
  | Some root =>
    upd_tx root (add_sums (td_SysCallCnt x) (td_SysCallDuration x) 0
      (td_ContingentSysCallCnt x) (td_ContingentSysCallDuration x) (td_CrossCallCnt x) (td_CrossCallDuration x));;
    r ← get_tx root;
    modifyS (set_pool (λ l, l ++ td_SysCallList r))
  end.

Definition AddBlockTxsDuration (id : string) : M Dur unit :=
  d ← getS;
  match d_blockDurations d !! id with
  | None => modifyS (set_blocks (<[id := ∅]>))
  | Some _ => mret tt
  end.

Definition RemoveBlockTxsDuration (id : string) : M Dur unit := modifyS (set_blocks (delete id)).

(** The methods of the manager hold its lock, so they are atomic. *)
Definition AddTx (id : string) (txTime : txref) : M Dur unit :=
  d ← getS;
  match d_blockDurations d !! id with
  | None => mret tt
  | Some b => AddTxDuration id b txTime
  end.

Definition FinishTx (id : string) (txTime : txref) : M Dur unit :=
  Seal txTime;;
  d ← getS;
  match d_blockDurations d !! id with
  | None => mret tt
  | Some b => FinishTxDuration b txTime
  end.

(** [EnterNextStep] of the chain's side; the functions it calls are the same as the engine's. *)
Definition EnterNextStep (slowDisable : bool) (now now' now'' : Z) (msg : DockerVMMessage) (stepType : StepType)
    (log : string) : DockerVMMessage :=
  if slowDisable then msg
  else
    let m1 := if decide (stepType ≠ RUNTIME_PREPARE_TX_REQUEST) then EngineUtils.endTxStep now msg else msg in
    let m2 := EngineUtils.addTxStep now' m1 stepType log in
    if decide (stepType = RUNTIME_HANDLE_TX_RESPONSE) then EngineUtils.endTxStep now'' m2 else m2.

(** ** Cross-contract calls are recorded under their callers *)

(** What the search of [getCallerNode] reads of the durations. *)
Definition children (h : list TxDuration) (p : txref) : option (list txref) := td_CrossCallList <$> h !! p.
Definition sealed (h : list TxDuration) (p : txref) : option bool := td_Sealed <$> h !! p.
Definition origin (h : list TxDuration) (p : txref) : option string := td_OriginalTxId <$> h !! p.

(** The calls in progress below [r]: each is the last child of the one before, the children
    before it have returned, and the last one has no child in progress. *)
Fixpoint down (h : list TxDuration) (r : txref) (l : list txref) : Prop :=
  match l with
  | [] => ∃ cs, children h r = Some cs ∧ Forall (λ c, sealed h c = Some true) cs
  | c :: l' =>
    (∃ pre, children h r = Some (pre ++ [c]) ∧ Forall (λ x, sealed h x = Some true) pre) ∧
    sealed h c = Some false ∧ (r < c)%nat ∧ down h c l'
  end.

Lemma sealed_lt h p b : sealed h p = Some b → (p < length h)%nat.
Proof. unfold sealed. intros (t & Ht & _)%fmap_Some. by eapply lookup_lt_Some. Qed.

Lemma children_lt h p b : children h p = Some b → (p < length h)%nat.
Proof. unfold children. intros (t & Ht & _)%fmap_Some. by eapply lookup_lt_Some. Qed.

Lemma down_lt h r l : down h r l → (r + length l < length h)%nat.
Proof.
  revert r. induction l as [|c l IH]; intros r; cbn.
  - intros (cs & Hc & _). apply children_lt in Hc. lia.
  - intros (_ & _ & Hlt & Hd). apply IH in Hd. lia.
Qed.

Lemma down_last_lt h r l c : down h r (l ++ [c]) → (r < c)%nat.
Proof.
  revert r. induction l as [|x l IH]; intros r; cbn; [by intros (_ & _ & ? & _)|].
  intros (_ & _ & ? & Hd). apply IH in Hd. lia.
Qed.

(** The search finds the innermost call in progress. *)
Lemma getCallerNode_down h r l fuel :
  down h r l → (length l < fuel)%nat → getCallerNode fuel h r = Some (default r (last l)).
Proof.
  revert r fuel. induction l as [|c l IH]; intros r [|fuel] Hd Hf; cbn in Hf; try lia; cbn in Hd.
  - destruct Hd as (cs & Hc & Hs). unfold children in Hc. cbn.
    destruct (h !! r) as [t|]; [|done]. injection Hc as <-.
    destruct (list_find _ _) as [[i c]|] eqn:E; [|done]. apply list_find_Some in E as (Hi & Hn & _).
    rewrite Forall_lookup in Hs. by destruct Hn, (Hs i c Hi).
  - destruct Hd as ((pre & Hc & Hs) & Hcs & Hlt & Hd). unfold children in Hc. cbn.
    destruct (h !! r) as [t|]; [|done]. injection Hc as Hc. rewrite Hc.
    destruct (list_find _ _) as [[i x]|] eqn:E.
    + apply list_find_Some in E as (Hi & Hn & _). apply lookup_app_Some in Hi as [Hi|[_ Hi]].
      * rewrite Forall_lookup in Hs. by destruct Hn, (Hs i x Hi).
      * apply list_lookup_singleton_Some in Hi as [_ <-]. rewrite (IH c) by (done || lia).
        rewrite last_cons. by destruct (last l).
    + apply list_find_None in E. apply list.Forall_app in E as [_ E]. rewrite Forall_singleton in E.
      exfalso. apply E. unfold sealed in Hcs. by rewrite Hcs.
Qed.

Lemma sealed_all h h' cs :
  (∀ p, sealed h p = Some true → sealed h' p = Some true) →
  Forall (λ x, sealed h x = Some true) cs → Forall (λ x, sealed h' x = Some true) cs.
Proof. intros Hs. rewrite !Forall_forall. auto. Qed.

(** Nothing changes below [r] when no duration on the way does, and no other one is unsealed. *)
Lemma down_frame h h' r l :
  (∀ p, p ∈ r :: l → children h' p = children h p) →
  (∀ p, p ∈ l → sealed h' p = sealed h p) →
  (∀ p, sealed h p = Some true → sealed h' p = Some true) →
  down h r l → down h' r l.
Proof.
  intros Hc Hs Ht. pose proof (λ cs, sealed_all h h' cs Ht) as HF.
  revert r Hc Hs. induction l as [|c l IH]; intros r Hc Hs; cbn.
  - rewrite Hc by set_solver. intros (cs & ? & ?). eauto.
  - rewrite (Hc r), (Hs c) by set_solver. intros ((pre & ? & ?) & ? & ? & Hd).
    split; [by eauto|]. split_and!; [done..|]. apply IH; [set_solver..|done].
Qed.

(** A new call made by the innermost one. *)
Lemma down_extend h h' r l c :
  down h r l → let q := default r (last l) in
  (∀ p, p ∈ r :: l → p ≠ q → children h' p = children h p) →
  children h' q = (λ cs, cs ++ [c]) <$> children h q →
  (∀ p, p ∈ l → sealed h' p = sealed h p) →
  (∀ p, sealed h p = Some true → sealed h' p = Some true) →
  children h' c = Some [] → sealed h' c = Some false → (q < c)%nat → down h' r (l ++ [c]).
Proof.
  intros Hd q Hc Hq Hs Ht Hcc Hcs Hlt.
  pose proof (λ cs, sealed_all h h' cs Ht) as HF.
  subst q. revert r Hd Hc Hq Hs Hlt. induction l as [|x l IH]; intros r Hd Hc Hq Hs Hlt; cbn in Hd |- *.
  - destruct Hd as (cs & Hch & Hsl). cbn in Hq. rewrite Hch in Hq. split; [by exists cs; auto|].
    split_and!; [done..|]. exists []. by rewrite Hcc.
  - destruct Hd as ((pre & Hch & Hpre) & Hx & Hrx & Hd).
    assert (default r (last (x :: l)) = default x (last l)) as Elast.
    { rewrite last_cons. by destruct (last l). }
    rewrite Elast in Hc, Hq, Hlt. assert (x ≤ default x (last l))%nat as Hxq.
    { clear -Hd. revert x Hd. induction l as [|y l IH]; intros x Hd; [cbn; lia|].
      destruct Hd as (_ & _ & Hxy & Hd). apply IH in Hd. rewrite last_cons. destruct (last l); cbn in *; lia. }
    rewrite Hc by (set_solver || lia). rewrite Hs by set_solver. split; [by eauto|]. split_and!; [done..|].
    apply IH; [done|set_solver|done|set_solver|done].
Qed.

(** The innermost call returns. *)
Lemma down_seal h h' r l c :
  down h r (l ++ [c]) →
  (∀ p, children h' p = children h p) →
  (∀ p, sealed h' p = if decide (p = c) then Some true else sealed h p) → down h' r l.
Proof.
  intros Hd Hc Hs.
  assert (∀ p, sealed h p = Some true → sealed h' p = Some true) as Ht by (intros p; rewrite Hs; by case_decide).
  pose proof (λ cs, sealed_all h h' cs Ht) as HF.
  revert r Hd. induction l as [|x l IH]; intros r; cbn.
  - intros ((pre & Hch & Hpre) & _). rewrite Hc. eexists. split; [done|]. apply list.Forall_app. split; [by apply HF|].
    apply Forall_singleton. rewrite Hs. by rewrite decide_True.
  - intros ((pre & Hch & Hpre) & Hx & Hrx & Hd). rewrite Hc. split; [by eauto|].
    apply down_last_lt in Hd as ?.
    rewrite Hs, decide_False by lia. split_and!; [done..|]. by apply IH.
Qed.

(** What happens in a block: an invocation begins (for an original transaction or for a call it
    makes), system calls are measured, and the innermost invocation of a transaction ends. *)
Inductive event :=
| EBegin (originalTxId txId : string) (now : Z)
| EStartSys (t : txref) (msgType : DockerVMType) (now : Z) (pick : option nat)
| EStorage (t : txref) (duration : Z)
| EEndSys (t : txref) (now : Z)
| EEnd (originalTxId : string) (total : Z).

(** The calls as they happened: the first invocation of each transaction, the invocations in
    progress, innermost first, and who called whom. *)
Record calls := mkCalls {
  c_roots : gmap string txref;
  c_stack : gmap string (list txref);
  c_log : list (txref * txref);
}.

Definition stackOf (c : calls) (o : string) : list txref := default [] (c_stack c !! o).

Definition caller (c : calls) (o : string) (root : txref) : txref := default root (head (stackOf c o)).

Definition begun (o : string) (t : txref) (c : calls) : calls :=
  match c_roots c !! o with
  | None => mkCalls (<[o := t]> (c_roots c)) (<[o := [t]]> (c_stack c)) (c_log c)
  | Some root =>
    mkCalls (c_roots c) (<[o := t :: stackOf c o]> (c_stack c)) (c_log c ++ [(caller c o root, t)])
  end.

Definition ended (o : string) (c : calls) : calls :=
  mkCalls (c_roots c) (<[o := tail (stackOf c o)]> (c_stack c)) (c_log c).

Definition callees (c : calls) (p : txref) : list txref := (filter (λ x, x.1 = p) (c_log c)).*2.

#[local] Arguments callees : simpl never.

(** The operations of an invocation, on the durations. A system call is measured by an
    invocation that exists. *)
Definition measured (t : txref) (m : M Dur unit) : M Dur unit :=
  d ← getS; if decide (t < length (d_tx d))%nat then m else mret tt.

Definition exec (id : string) (ev : event) (c : calls) : M Dur calls :=
  match ev with
  | EBegin o key now => t ← NewTxDuration o key now; AddTx id t;; mret (begun o t c)
  | EStartSys t ty now pick => measured t (StartSysCall t ty now pick;; mret tt);; mret c
  | EStorage t x => measured t (AddLatestStorageDuration t x;; mret tt);; mret c
  | EEndSys t now => measured t (EndSysCall t now;; mret tt);; mret c
  | EEnd o total =>
    match head (stackOf c o) with
    | None => mret c
    | Some t => upd_tx t (set_TotalDuration total);; FinishTx id t;; mret (ended o c)
    end
  end.

Fixpoint execAll (id : string) (evs : list event) (c : calls) : M Dur calls :=
  match evs with
  | [] => mret c
  | ev :: evs' => c' ← exec id ev c; execAll id evs' c'
  end.

(** A manager with one block. *)
Definition newBlock (id : string) : Dur := mkDur [] [] [] {[ id := ∅ ]}.

Record wf (h : list TxDuration) (b : BlockTxsDuration) (c : calls) : Prop := {
  wf_roots : b = c_roots c;
  wf_none o : b !! o = None → stackOf c o = [];
  wf_path o r : b !! o = Some r → ∃ l s,
    down h r l ∧ (∀ p, p ∈ r :: l → origin h p = Some o) ∧ sealed h r = Some s ∧
    stackOf c o = reverse (if s then l else r :: l);
  wf_children p cs : children h p = Some cs → cs = callees c p;
  wf_log p q : (p, q) ∈ c_log c → (p < q < length h)%nat;
}.

(** Updates that do not touch the tree. *)
Definition same (h h' : list TxDuration) : Prop :=
  length h' = length h ∧
  ∀ p, children h' p = children h p ∧ sealed h' p = sealed h p ∧ origin h' p = origin h p.

Lemma lookup_alter_case {A} (f : A → A) (l : list A) q p :
  alter f q l !! p = if decide (p = q) then f <$> l !! q else l !! p.
Proof. case_decide; [subst; apply list_lookup_alter_eq|by apply list_lookup_alter_ne]. Qed.

Lemma lookup_snoc_case {A} (l : list A) x p :
  (l ++ [x]) !! p = if decide (p = length l) then Some x else l !! p.
Proof.
  case_decide; subst; [by rewrite lookup_app_r, Nat.sub_diag by lia|].
  destruct (decide (p < length l)%nat); [by rewrite lookup_app_l|].
  rewrite (lookup_ge_None_2 l), lookup_ge_None_2; [done| |lia]. rewrite length_app. cbn. lia.
Qed.

Lemma same_alter h t f :
  (∀ e, td_CrossCallList (f e) = td_CrossCallList e ∧ td_Sealed (f e) = td_Sealed e ∧
        td_OriginalTxId (f e) = td_OriginalTxId e) → same h (alter f t h).
Proof.
  intros Hf. split; [apply length_alter|]. intros p. unfold children, sealed, origin. rewrite lookup_alter_case.
  case_decide as E; [subst|done]. destruct (h !! t) as [e|]; [|done]. cbn. by destruct (Hf e) as (-> & -> & ->).
Qed.

Lemma wf_same h h' b c : same h h' → wf h b c → wf h' b c.
Proof.
  intros [Hlen Hs] [Hr Hn Hp Hc Hl]. split; [done|done| | |].
  - intros o r Hor. destruct (Hp o r Hor) as (l & s & Hd & Ho & Hsr & Hst). exists l, s.
    split_and!; [| |by rewrite (proj1 (proj2 (Hs r)))|done].
    + apply (down_frame h); [..|done]; intros p; by destruct (Hs p) as (? & ? & ?); intros; congruence.
    + intros p Hin. rewrite (proj2 (proj2 (Hs p))). by apply Ho.
  - intros p cs. rewrite (proj1 (Hs p)). apply Hc.
  - intros p q. rewrite Hlen. apply Hl.
Qed.

(** A new duration that is not in the tree yet. *)
Definition fresh (o key : string) (now : Z) : TxDuration := mkTxDuration o key now 0 0 0 0 0 0 0 0 0 [] [] false.

Lemma snoc_reads h o key now p : let h' := h ++ [fresh o key now] in
  children h' p = (if decide (p = length h) then Some [] else children h p) ∧
  sealed h' p = (if decide (p = length h) then Some false else sealed h p) ∧
  origin h' p = (if decide (p = length h) then Some o else origin h p).
Proof.
  cbn. unfold children, sealed, origin. rewrite lookup_snoc_case. by case_decide.
Qed.

Lemma callees_fresh c n : (∀ p q, (p, q) ∈ c_log c → (p < n)%nat) → callees c n = [].
Proof.
  intros Hl. unfold callees. enough (filter (λ x : nat * nat, x.1 = n) (c_log c) = []) as -> by done.
  destruct (filter _ _) as [|[p q] l] eqn:E; [done|]. exfalso.
  assert ((p, q) ∈ filter (λ x : nat * nat, x.1 = n) (c_log c)) as Hin by (rewrite E; set_solver).
  apply list_elem_of_filter in Hin as [Heq Hin]. cbn in Heq. subst. specialize (Hl _ _ Hin). lia.
Qed.

(** The other transactions' trees stay when one tree grows at [q] and [length h] is new. *)
Lemma down_grow h h' o o' key now r l :
  (∀ p, origin h p = Some o' → children h' p = children (h ++ [fresh o key now]) p) →
  (∀ p, sealed h' p = sealed (h ++ [fresh o key now]) p) →
  down h r l → (∀ p, p ∈ r :: l → origin h p = Some o') → down h' r l.
Proof.
  intros Hc Hs Hd Ho. assert (∀ p v, origin h p = Some v → p ≠ length h) as Hne.
  { intros p v Hp ->. unfold origin in Hp. by rewrite lookup_ge_None_2 in Hp. }
  apply (down_frame h); [..|done].
  - intros p Hin. rewrite Hc by by apply Ho. destruct (snoc_reads h o key now p) as (-> & _ & _).
    by rewrite decide_False by by eapply Hne, Ho.
  - intros p Hin. rewrite Hs. destruct (snoc_reads h o key now p) as (_ & -> & _).
    rewrite decide_False; [done|]. eapply Hne, Ho. set_solver.
  - intros p Hp. rewrite Hs. destruct (snoc_reads h o key now p) as (_ & -> & _).
    rewrite decide_False; [done|]. apply sealed_lt in Hp. lia.
Qed.

Lemma wf_begin_root h b c o key now :
  wf h b c → b !! o = None → wf (h ++ [fresh o key now]) (<[o := length h]> b) (begun o (length h) c).
Proof.
  intros [Hr Hn Hp Hc Hl] Ho. unfold begun. rewrite <-Hr, Ho. split; cbn.
  - done.
  - intros o' Ho'. unfold stackOf. cbn. apply lookup_insert_None in Ho' as [Ho' Hne].
    rewrite lookup_insert_ne by done. by apply Hn.
  - intros o' r. unfold stackOf. cbn. rewrite !lookup_insert. destruct (decide (o = o')) as [<-|Hne].
    + intros [= <-]. exists [], false. cbn. destruct (snoc_reads h o key now (length h)) as (Hch & Hse & Hor).
      case_decide; [|done]. split_and!; [by eexists| |done|done]. intros p ->%list_elem_of_singleton. done.
    + intros Hb. destruct (Hp o' r Hb) as (l & s & Hd & Hol & Hsr & Hst). exists l, s.
      assert (∀ p, p ∈ r :: l → p ≠ length h) as Hlt.
      { intros p Hin ->. apply Hol in Hin. unfold origin in Hin. by rewrite lookup_ge_None_2 in Hin. }
      split_and!; [by eapply down_grow|..|done].
      * intros p Hin. destruct (snoc_reads h o key now p) as (_ & _ & ->). rewrite decide_False by auto. by apply Hol.
      * destruct (snoc_reads h o key now r) as (_ & -> & _). rewrite decide_False; [done|]. apply Hlt. set_solver.
  - intros p cs. destruct (snoc_reads h o key now p) as (-> & _ & _). case_decide as E.
    + intros [= <-]. subst. symmetry. apply callees_fresh. intros x y Hin%Hl. lia.
    + apply Hc.
  - intros p q Hin. rewrite length_app. apply Hl in Hin. lia.
Qed.

(** The tree after the new duration is appended to the calls of [q]. *)
Definition attach (q t : txref) : list TxDuration → list TxDuration := alter (set_CrossCallList (λ l, l ++ [t])) q.

Definition called (h : list TxDuration) (o key : string) (now : Z) (q : txref) : list TxDuration :=
  attach q (length h) (h ++ [fresh o key now]).

Lemma called_reads h o key now q p : (q < length h)%nat → let h' := called h o key now q in
  children h' p = (if decide (p = q) then (λ cs, cs ++ [length h]) <$> children h q
                   else if decide (p = length h) then Some [] else children h p) ∧
  sealed h' p = (if decide (p = length h) then Some false else sealed h p) ∧
  origin h' p = (if decide (p = length h) then Some o else origin h p).
Proof.
  intros Hq. unfold called, attach, children, sealed, origin. cbn. rewrite lookup_alter_case, !lookup_snoc_case.
  repeat case_decide; subst; try lia; try done; by destruct (h !! q).
Qed.

(** The calls in progress of the transaction that makes the call. *)
Lemma called_own h o key now r l :
  down h r l → (∀ p, p ∈ r :: l → origin h p = Some o) → (r < length h)%nat →
  let h' := called h o key now (default r (last l)) in
  down h' r (l ++ [length h]) ∧ ∀ p, p ∈ r :: l ++ [length h] → origin h' p = Some o.
Proof.
  intros Hd Hol Hr. set (q := default r (last l)). assert (q ∈ r :: l) as Hq.
  { unfold q. destruct (last l) as [x|] eqn:E; cbn; [|set_solver]. apply last_Some_elem_of in E. set_solver. }
  assert (∀ p, p ∈ r :: l → (p < length h)%nat) as Hlt.
  { intros p Hin%Hol. unfold origin in Hin. destruct (h !! p) eqn:E; [|done]. by eapply lookup_lt_Some. }
  pose proof (Hlt q Hq) as Hql. pose proof (λ p, called_reads h o key now q p Hql) as Hrd. cbn in Hrd.
  split.
  - apply (down_extend h); [done|..]; fold q.
    + intros p Hin Hpq. destruct (Hrd p) as (-> & _). apply Hlt in Hin. by rewrite !decide_False by lia.
    + destruct (Hrd q) as (-> & _). by rewrite decide_True.
    + intros p Hin. destruct (Hrd p) as (_ & -> & _). assert (p < length h)%nat by (apply Hlt; set_solver).
      by rewrite decide_False by lia.
    + intros p Hp. destruct (Hrd p) as (_ & -> & _). apply sealed_lt in Hp as ?. by rewrite decide_False by lia.
    + destruct (Hrd (length h)) as (-> & _). by rewrite decide_False, decide_True by lia.
    + destruct (Hrd (length h)) as (_ & -> & _). by rewrite decide_True.
    + done.
  - intros p Hin. destruct (Hrd p) as (_ & _ & ->). case_decide; [done|]. apply Hol. set_solver.
Qed.

(** The calls in progress of another transaction. *)
Lemma called_other h o o' key now q r l :
  (q < length h)%nat → origin h q = Some o → o ≠ o' →
  down h r l → (∀ p, p ∈ r :: l → origin h p = Some o') →
  let h' := called h o key now q in down h' r l ∧ ∀ p, p ∈ r :: l → origin h' p = Some o'.
Proof.
  intros Hql Hq Hoo Hd Hol. pose proof (λ p, called_reads h o key now q p Hql) as Hrd. cbn in Hrd.
  assert (∀ p, p ∈ r :: l → p ≠ q ∧ p ≠ length h) as Hne.
  { intros p Hin%Hol. split; [congruence|]. intros ->. unfold origin in Hin. by rewrite lookup_ge_None_2 in Hin. }
  split.
  - apply (down_frame h); [..|done].
    + intros p Hin. destruct (Hrd p) as (-> & _). destruct (Hne p Hin). by rewrite !decide_False.
    + intros p Hin. destruct (Hrd p) as (_ & -> & _). rewrite decide_False; [done|]. apply Hne. set_solver.
    + intros p Hp. destruct (Hrd p) as (_ & -> & _). apply sealed_lt in Hp as ?. by rewrite decide_False by lia.
  - intros p Hin. destruct (Hrd p) as (_ & _ & ->). destruct (Hne p Hin). rewrite decide_False by done. by apply Hol.
Qed.

Lemma callees_snoc c c' q t p :
  c_log c' = c_log c ++ [(q, t)] → callees c' p = callees c p ++ (if decide (p = q) then [t] else []).
Proof.
  intros E. unfold callees. rewrite E, filter_app, fmap_app, filter_cons, filter_nil. cbn.
  repeat case_decide; cbn in *; congruence.
Qed.

Lemma wf_caller h b c o root : wf h b c → b !! o = Some root →
  ∃ l, down h root l ∧ caller c o root = default root (last l) ∧
    (∀ p, p ∈ root :: l → origin h p = Some o) ∧ (caller c o root < length h)%nat.
Proof.
  intros Hw Ho. destruct (wf_path _ _ _ Hw o root Ho) as (l & s & Hd & Hol & Hsr & Hst). exists l.
  assert (caller c o root = default root (last l)) as Ecaller.
  { unfold caller. rewrite Hst, head_reverse. destruct s; [done|]. rewrite last_cons. by destruct (last l). }
  split_and!; [done..|]. assert (caller c o root ∈ root :: l) as Hq.
  { rewrite Ecaller. destruct (last l) as [x|] eqn:E; cbn; [|set_solver].
    apply last_Some_elem_of in E. set_solver. }
  apply Hol in Hq. unfold origin in Hq. destruct (h !! caller c o root) eqn:E; [|done]. by eapply lookup_lt_Some.
Qed.

Lemma wf_begin_call h b c o key now root :
  wf h b c → b !! o = Some root →
  wf (called h o key now (caller c o root)) b (begun o (length h) c).
Proof.
  intros Hw Ho. destruct (wf_caller h b c o root Hw Ho) as (l & Hd & Ecaller & Hol & Hql).
  destruct Hw as [Hr Hn Hp Hc Hl]. unfold begun. rewrite <-Hr, Ho.
  set (q := caller c o root) in *. pose proof (λ p, called_reads h o key now q p Hql) as Hrd. cbn in Hrd.
  split; cbn.
  - done.
  - intros o' Ho'. unfold stackOf. cbn. rewrite lookup_insert_ne by congruence. by apply Hn.
  - intros o' r Hb. unfold stackOf at 1. cbn. rewrite lookup_insert.
    destruct (Hp o' r Hb) as (l' & s & Hd' & Hol' & Hsr & Hst).
    assert (r < length h)%nat as Hrlt by by eapply sealed_lt.
    assert (sealed (called h o key now q) r = Some s) as Hsr'.
    { destruct (Hrd r) as (_ & -> & _). by rewrite decide_False by lia. }
    destruct (decide (o = o')) as [<-|Hoo].
    + exists (l' ++ [length h]), s. assert (q = default r (last l')) as Eq'.
      { unfold q, caller. rewrite Hst, head_reverse. assert (r = root) as -> by congruence.
        destruct s; [done|]. rewrite last_cons. by destruct (last l'). }
      rewrite Eq' in Hsr' |- *. destruct (called_own h o key now r l' Hd' Hol' Hrlt) as [? ?].
      split_and!; [done..|]. cbn. rewrite Hst. destruct s; [by rewrite reverse_snoc|].
      by rewrite app_comm_cons, reverse_snoc.
    + exists l', s. assert (origin h q = Some o) as Hqo.
      { apply Hol. rewrite Ecaller. destruct (last l) as [x|] eqn:E; cbn; [|set_solver].
        apply last_Some_elem_of in E. set_solver. }
      destruct (called_other h o o' key now q r l' Hql Hqo Hoo Hd' Hol') as [? ?]. by split_and!.
  - intros p cs. destruct (Hrd p) as (-> & _). rewrite (callees_snoc c _ q (length h)) by done.
    case_decide as Epq; [subst p|rewrite app_nil_r; case_decide].
    + destruct (children h q) as [cs'|] eqn:E; [|done]. cbn. intros [= <-]. f_equal. by apply Hc.
    + intros [= <-]. subst. symmetry. apply callees_fresh. intros x y Hin%Hl. lia.
    + apply Hc.
  - unfold called, attach. rewrite length_alter, length_app. intros p x [Hin|Hin]%elem_of_app.
    + apply Hl in Hin. lia.
    + apply list_elem_of_singleton in Hin. simplify_eq. cbn [length]. lia.
Qed.

Lemma seal_reads h t p : (t < length h)%nat → let h' := alter (set_Sealed true) t h in
  children h' p = children h p ∧ origin h' p = origin h p ∧
  sealed h' p = (if decide (p = t) then Some true else sealed h p).
Proof.
  intros Ht. unfold children, origin, sealed. cbn. rewrite lookup_alter_case. case_decide as E; [subst|done].
  apply lookup_lt_is_Some in Ht as [x ->]. done.
Qed.

(** The tree and the stack of a transaction after its innermost call has returned. *)
Lemma down_return h r l s t rest :
  down h r l → sealed h r = Some s → reverse (if s then l else r :: l) = t :: rest →
  let h' := alter (set_Sealed true) t h in
  ∃ l' s', down h' r l' ∧ l' ⊆ l ∧ sealed h' r = Some s' ∧ rest = reverse (if s' then l' else r :: l').
Proof.
  intros Hd Hr Hst. assert ((if s then l else r :: l) = reverse rest ++ [t]) as E.
  { by rewrite <-(reverse_involutive (if s then l else r :: l)), Hst, reverse_cons. }
  assert (t ∈ r :: l) as Hin.
  { assert (t ∈ (if s then l else r :: l)) by (rewrite E; set_solver). destruct s; set_solver. }
  assert (t < length h)%nat as Ht.
  { clear -Hd Hin. revert r Hd Hin. induction l as [|c l IH]; intros r Hd Hin.
    - apply list_elem_of_singleton in Hin as ->. destruct Hd as (? & Hd & _). by eapply children_lt.
    - apply elem_of_cons in Hin as [->|Hin]; [|by eapply IH, Hin; apply Hd].
      destruct Hd as ((? & Hd & _) & _). by eapply children_lt. }
  intros h'. pose proof (λ p, seal_reads h t p Ht) as Hrd. cbn in Hrd. fold h' in Hrd.
  destruct (decide (l = [])) as [->|Hl].
  - destruct s; [by destruct rest using rev_ind; rewrite ?reverse_snoc in E|].
    destruct rest as [|x rest]; [|by apply (f_equal length) in E; rewrite reverse_cons, !length_app, length_reverse in E; cbn in E; lia].
    injection E as ->. exists [], true. split_and!; [|done| |done].
    + apply (down_frame h); [intros p _; apply Hrd|set_solver| |done]. intros p Hp.
      destruct (Hrd p) as (_ & _ & ->). by case_decide.
    + destruct (Hrd t) as (_ & _ & ->). by case_decide.
  - destruct (exists_last Hl) as (l0 & c & ->).
    assert (c = t ∧ rest = reverse (if s then l0 else r :: l0)) as [-> Hrest].
    { destruct s; [|rewrite app_comm_cons in E]; apply app_inj_tail in E as [E ->];
        by rewrite E, reverse_involutive. }
    exists l0, s. split_and!; [|set_solver| |done].
    + apply (down_seal h h' r l0 t); [done|apply Hrd|apply Hrd].
    + destruct (Hrd r) as (_ & _ & ->). rewrite decide_False; [done|].
      intros <-. apply down_last_lt in Hd. lia.
Qed.

Lemma stack_in_path h b c o t : wf h b c → head (stackOf c o) = Some t →
  ∃ r, b !! o = Some r ∧ origin h t = Some o.
Proof.
  intros [Hr Hn Hp Hc Hl] Ht. destruct (b !! o) as [r|] eqn:Hb; [|by rewrite (Hn o Hb) in Ht].
  destruct (Hp o r Hb) as (l & s & Hd & Hol & Hsr & Hst). exists r. split; [done|]. apply Hol.
  rewrite Hst, head_reverse in Ht. apply last_Some_elem_of in Ht. destruct s; set_solver.
Qed.

Lemma wf_end h b c o t : wf h b c → head (stackOf c o) = Some t → wf (alter (set_Sealed true) t h) b (ended o c).
Proof.
  intros Hw Ht. destruct (stack_in_path h b c o t Hw Ht) as (r & Hb & Hto).
  assert (t < length h)%nat as Htl.
  { unfold origin in Hto. destruct (h !! t) eqn:E; [|done]. by eapply lookup_lt_Some. }
  pose proof (λ p, seal_reads h t p Htl) as Hrd. cbn in Hrd. destruct Hw as [Hr Hn Hp Hc Hl].
  split.
  - done.
  - intros o' Ho'. unfold ended, stackOf at 1. cbn. rewrite lookup_insert_ne by congruence. by apply Hn.
  - intros o' r' Hb'. destruct (Hp o' r' Hb') as (l & s & Hd & Hol & Hsr & Hst).
    unfold ended, stackOf at 1. cbn. rewrite lookup_insert. destruct (decide (o = o')) as [<-|Hoo].
    + destruct (stackOf c o) as [|t' rest] eqn:Est; [done|]. cbn in Ht |- *. injection Ht as ->.
      destruct (down_return h r' l s t rest Hd Hsr (eq_sym Hst)) as (l' & s' & Hd' & Hsub & Hs' & Hrest).
      exists l', s'. split_and!; [done| |done|done].
      intros p Hin. destruct (Hrd p) as (_ & -> & _). apply Hol. set_solver.
    + exists l, s. assert (∀ p, p ∈ r' :: l → p ≠ t) as Hne by (intros p Hin%Hol; congruence).
      split_and!; [| | |done].
      * apply (down_frame h); [intros p _; apply Hrd|..|done]; intros p Hin.
        -- destruct (Hrd p) as (_ & _ & ->). rewrite decide_False; [done|]. apply Hne. set_solver.
        -- destruct (Hrd p) as (_ & _ & ->). by case_decide.
      * intros p Hin. destruct (Hrd p) as (_ & -> & _). by apply Hol.
      * destruct (Hrd r') as (_ & _ & ->). rewrite decide_False; [done|]. apply Hne. set_solver.
  - intros p cs. destruct (Hrd p) as (-> & _ & _). apply Hc.
  - intros p q Hin. rewrite length_alter. by eapply Hl.
Qed.

(** ** The operations keep the invariant *)

Definition sysOk (d : Dur) : Prop :=
  Forall (λ t, Forall (λ s, s < length (d_sys d))%nat (td_SysCallList t)) (d_tx d) ∧
  Forall (λ s, s < length (d_sys d))%nat (d_sysCallPool d).

Lemma sysOk_alter d t f :
  (∀ e, td_SysCallList (f e) = td_SysCallList e) → sysOk d → sysOk (set_txs (alter f t) d).
Proof.
  intros Hf [Ht Hp]. split; [|done]. cbn. rewrite Forall_lookup in Ht |- *. intros i x.
  rewrite lookup_alter_case. case_decide; [|by eauto]. intros (y & Hy & ->)%fmap_Some. rewrite Hf. by eauto.
Qed.

(** A duration outside the tree may change its sums and its system calls. *)
Definition quiet (d d' : Dur) : Prop :=
  d_blockDurations d' = d_blockDurations d ∧ same (d_tx d) (d_tx d') ∧ (sysOk d → sysOk d').

#[local] Instance same_pre : PreOrder same.
Proof.
  split; [by intros h; split|]. intros h1 h2 h3 [L1 H1] [L2 H2]. split; [congruence|]. intros p.
  destruct (H1 p) as (? & ? & ?), (H2 p) as (? & ? & ?). split_and!; congruence.
Qed.

#[local] Instance quiet_pre : PreOrder quiet.
Proof.
  split; [intros d; split_and!; [done|reflexivity|done]|]. intros d1 d2 d3 (B1 & S1 & K1) (B2 & S2 & K2).
  split_and!; [congruence|by etrans|auto].
Qed.

Lemma quiet_upd_tx t f : (∀ e, td_CrossCallList (f e) = td_CrossCallList e ∧ td_Sealed (f e) = td_Sealed e ∧
    td_OriginalTxId (f e) = td_OriginalTxId e ∧ td_SysCallList (f e) = td_SysCallList e) → preserves quiet (upd_tx t f).
Proof.
  intros Hf. apply preserves_modify. intros d. split_and!; [done| |].
  - apply same_alter. intros e. by destruct (Hf e) as (? & ? & ? & ?).
  - apply sysOk_alter. intros e. apply Hf.
Qed.

Lemma quiet_upd_sys s f : preserves quiet (upd_sys s f).
Proof.
  apply preserves_modify. intros d. split_and!; [done|reflexivity|]. unfold sysOk. cbn. by rewrite length_alter.
Qed.

(** The measuring operations return and leave the tree alone. *)
Definition quietly {A} (m : M Dur A) (d : Dur) : Prop := ∃ a d', m d = Ret (a, d') ∧ quiet d d'.

Lemma poolGet_spec pick d : sysOk d → ∃ s d', poolGet pick d = Ret (s, d') ∧
  d_blockDurations d' = d_blockDurations d ∧ d_tx d' = d_tx d ∧ sysOk d' ∧ (s < length (d_sys d'))%nat.
Proof.
  intros [Ht Hp]. unfold poolGet, mbind at 1, M_bind at 1, getS.
  destruct (pick ≫= λ i, d_sysCallPool d !! i) as [s|] eqn:E.
  - destruct pick as [i|]; [|done]. cbn in E. do 2 eexists. split; [done|]. cbn. rewrite Forall_lookup in Hp.
    split_and!; [done..| |by eapply Hp]. split; [done|]. cbn. apply Forall_delete. by rewrite Forall_lookup.
  - do 2 eexists. split; [done|]. cbn. rewrite length_app. split_and!; [done..| |cbn; lia]. split; cbn; rewrite length_app.
    + eapply Forall_impl; [exact Ht|]. intros t Hx. eapply Forall_impl; [exact Hx|]. cbn. intros. lia.
    + eapply Forall_impl; [exact Hp|]. cbn. intros. lia.
Qed.

Lemma StartSysCall_quiet t ty now pick d : sysOk d → quietly (StartSysCall t ty now pick) d.
Proof.
  intros Hok. destruct (poolGet_spec pick d Hok) as (s & d1 & E & Hb & Ht & [Hok1 Hok1'] & Hs).
  unfold quietly, StartSysCall, mbind at 1, M_bind at 1. rewrite E. do 2 eexists. split; [reflexivity|].
  split_and!; [done| |intros _; split; cbn; rewrite length_alter; [|done]].
  - cbn. rewrite Ht. by apply same_alter.
  - rewrite Forall_lookup in Hok1 |- *. intros i x. rewrite lookup_alter_case. case_decide; [|by eauto].
    intros (y & Hy & ->)%fmap_Some. cbn. apply list.Forall_app. split; [by eauto|by rewrite Forall_singleton].
Qed.

Lemma latest_spec t d : sysOk d → (t < length (d_tx d))%nat → ∃ r, GetLatestSysCall t d = Ret (r, d) ∧
  match r with inl s => (s < length (d_sys d))%nat | inr _ => True end.
Proof.
  intros [Hok _] (x & Hx)%lookup_lt_is_Some. unfold GetLatestSysCall, get_tx, mbind, M_bind, getS, deref. rewrite Hx.
  cbn. destruct (last (td_SysCallList x)) as [s|] eqn:E; eexists; (split; [reflexivity|]); [|done].
  rewrite Forall_lookup in Hok. pose proof (Hok _ _ Hx) as Hs. rewrite Forall_forall in Hs. apply Hs.
  by apply last_Some_elem_of.
Qed.

Lemma AddLatest_quiet t x d : sysOk d → (t < length (d_tx d))%nat → quietly (AddLatestStorageDuration t x) d.
Proof.
  intros Hok Ht. destruct (latest_spec t d Hok Ht) as (r & E & _).
  unfold AddLatestStorageDuration, quietly, mbind at 1, M_bind at 1. rewrite E.
  destruct r as [s|err]; do 2 eexists; (split; [reflexivity|]); [|reflexivity].
  by eapply (quiet_upd_sys s _ d tt).
Qed.

Lemma addSysCallDuration_quiet t x : preserves quiet (addSysCallDuration t x).
Proof.
  unfold addSysCallDuration. case_match; try (apply preserves_ret; apply _); by apply quiet_upd_tx.
Qed.

Lemma addSysCallDuration_ret t x d : ∃ a d', addSysCallDuration t x d = Ret (a, d').
Proof. unfold addSysCallDuration. case_match; do 2 eexists; reflexivity. Qed.

Lemma EndSysCall_quiet t now d : sysOk d → (t < length (d_tx d))%nat → quietly (EndSysCall t now) d.
Proof.
  intros Hok Ht. destruct (latest_spec t d Hok Ht) as (r & E & Hs).
  unfold EndSysCall, quietly, mbind at 1, M_bind at 1. rewrite E.
  destruct r as [s|err]; [|do 2 eexists; split; reflexivity].
  match goal with |- context [upd_sys s ?f] => set (g := f) end.
  pose proof (quiet_upd_sys s g d tt _ eq_refl) as Hq. set (d1 := set_sys (alter g s) d) in *.
  assert (s < length (d_sys d1))%nat as (y & Hy)%lookup_lt_is_Some by (cbn; by rewrite length_alter).
  destruct (addSysCallDuration_ret t y d1) as (a & d2 & E2).
  exists None, d2. split; [|etrans; [exact Hq|]; by eapply addSysCallDuration_quiet].
  unfold get_sys, mbind, M_bind, getS, deref. change (upd_sys s g d) with (Ret (tt, d1)). cbv beta iota.
  rewrite Hy. unfold mret, M_ret. cbv beta iota. by rewrite E2.
Qed.

(** The invariant of the manager's state. *)
Definition dwf (id : string) (c : calls) (d : Dur) : Prop :=
  ∃ b, d_blockDurations d !! id = Some b ∧ wf (d_tx d) b c ∧ sysOk d.

Lemma dwf_quiet id c d d' : quiet d d' → dwf id c d → dwf id c d'.
Proof.
  intros (Hb & Hs & Hok) (b & Hid & Hw & Ho). exists b. rewrite Hb. split_and!; [done|by eapply wf_same|auto].
Qed.

Lemma measured_ok {A} id c t (m : M Dur A) d :
  dwf id c d → (sysOk d → (t < length (d_tx d))%nat → quietly m d) →
  ∃ d', measured t (m;; mret tt) d = Ret (tt, d') ∧ dwf id c d'.
Proof.
  intros Hd Hm. unfold measured, mbind at 1, M_bind at 1, getS. case_decide; [|by exists d].
  destruct Hd as (b & Hb & Hw & Hok). destruct (Hm Hok H) as (a & d' & E & Hq). exists d'.
  unfold mbind, M_bind. rewrite E. split; [done|]. eapply dwf_quiet; [exact Hq|]. by exists b.
Qed.

Lemma NewTxDuration_spec o key now d :
  NewTxDuration o key now d = Ret (length (d_tx d), set_txs (λ l, l ++ [fresh o key now]) d).
Proof. reflexivity. Qed.

Lemma sysOk_fresh o key now d : sysOk d → sysOk (set_txs (λ l, l ++ [fresh o key now]) d).
Proof.
  intros [Ht Hp]. split; [|done]. cbn. apply list.Forall_app. split; [done|]. rewrite Forall_singleton. cbn. constructor.
Qed.

Lemma begin_ok id c d o key now : dwf id c d →
  ∃ d', exec id (EBegin o key now) c d = Ret (begun o (length (d_tx d)) c, d') ∧ dwf id (begun o (length (d_tx d)) c) d'.
Proof.
  intros (b & Hb & Hw & Hok). set (h := d_tx d) in *. unfold exec, mbind at 1, M_bind at 1. rewrite NewTxDuration_spec.
  fold h. set (d1 := set_txs (λ l, l ++ [fresh o key now]) d). pose proof (sysOk_fresh o key now d Hok) as Hok1. fold d1 in Hok1.
  assert (d_tx d1 !! length h = Some (fresh o key now)) as Hnew.
  { cbn. fold h. rewrite lookup_snoc_case. by case_decide. }
  assert (∃ d', AddTx id (length h) d1 = Ret (tt, d') ∧ dwf id (begun o (length h) c) d') as (d' & E & Hd').
  { unfold AddTx, mbind, M_bind, getS. change (d_blockDurations d1) with (d_blockDurations d). rewrite Hb.
    unfold AddTxDuration, get_tx, mbind, M_bind, getS, deref. rewrite Hnew. unfold mret, M_ret. cbv beta iota.
    change (td_OriginalTxId (fresh o key now)) with o. destruct (b !! o) as [root|] eqn:Ho.
    - destruct (wf_caller h b c o root Hw Ho) as (l & Hd & Ecaller & Hol & Hql).
      assert (getCallerNode (S (length (d_tx d1))) (d_tx d1) root = Some (caller c o root)) as ->.
      { rewrite Ecaller. apply getCallerNode_down.
        - by apply (down_grow h _ o o key now).
        - apply down_lt in Hd. change (d_tx d1) with (h ++ [fresh o key now]). rewrite length_app. lia. }
      eexists. split; [reflexivity|]. exists b. split_and!; [done|by apply wf_begin_call|by apply sysOk_alter].
    - eexists. split; [reflexivity|]. exists (<[o := length h]> b). split_and!; [|by apply wf_begin_root|done].
      cbn. by rewrite lookup_insert_eq. }
  exists d'. split; [|done]. unfold mbind, M_bind. by rewrite E.
Qed.

Lemma end_ok id c d o total : dwf id c d →
  ∃ c' d', exec id (EEnd o total) c d = Ret (c', d') ∧ dwf id c' d'.
Proof.
  intros Hd. unfold exec. destruct (head (stackOf c o)) as [t|] eqn:Et; [|by exists c, d].
  set (d1 := set_txs (alter (set_TotalDuration total) t) d).
  assert (dwf id c d1) as (b & Hb & Hw & Hok).
  { eapply dwf_quiet, Hd. by apply (quiet_upd_tx t (set_TotalDuration total) ltac:(done) d tt). }
  destruct (stack_in_path _ b c o t Hw Et) as (root & Hroot & Hto).
  pose proof (wf_end _ _ _ _ _ Hw Et) as Hw2. set (d2 := set_txs (alter (set_Sealed true) t) d1).
  assert (sysOk d2) as Hok2 by by apply sysOk_alter.
  assert (dwf id (ended o c) d2) as Hd2 by (by exists b).
  assert (t < length (d_tx d2))%nat as (x & Hx)%lookup_lt_is_Some.
  { unfold origin in Hto. destruct (d_tx d1 !! t) eqn:E; [|done]. cbn. rewrite length_alter. by eapply lookup_lt_Some. }
  assert (∃ d', FinishTxDuration b t d2 = Ret (tt, d') ∧ quiet d2 d') as (d' & E & Hq).
  { unfold FinishTxDuration, get_tx, mbind, M_bind, getS, deref. rewrite Hx. unfold mret, M_ret. cbv beta iota.
    destruct (b !! td_OriginalTxId x) as [r|] eqn:Hr; [|exists d2; split; reflexivity].
    destruct (wf_path _ _ _ Hw2 _ r Hr) as (l & s & _ & _ & Hsr & _). apply sealed_lt in Hsr.
    match goal with |- context [upd_tx r ?f] => set (g := f) end. set (d3 := set_txs (alter g r) d2).
    assert (quiet d2 d3) as Hq3. { by apply (quiet_upd_tx r g ltac:(done) d2 tt). }
    change (upd_tx r g d2) with (Ret (tt, d3)). cbv beta iota.
    assert (r < length (d_tx d3))%nat as (y & Hy)%lookup_lt_is_Some by (cbn; by rewrite length_alter).
    rewrite Hy. unfold modifyS. eexists. split; [reflexivity|]. etrans; [exact Hq3|].
    split_and!; [done|reflexivity|]. intros [Hs Hp]. split; [done|]. cbn. apply list.Forall_app. split; [done|].
    rewrite Forall_lookup in Hs. by eapply Hs. }
  exists (ended o c), d'. split; [|by eapply dwf_quiet].
  unfold FinishTx, Seal, mbind, M_bind, getS.
  change (upd_tx t (set_TotalDuration total) d) with (Ret (tt, d1)). cbv beta iota.
  change (upd_tx t (set_Sealed true) d1) with (Ret (tt, d2)). cbv beta iota.
  change (d_blockDurations d2) with (d_blockDurations d1). by rewrite Hb, E.
Qed.

Lemma exec_ok id ev c d : dwf id c d → ∃ c' d', exec id ev c d = Ret (c', d') ∧ dwf id c' d'.
Proof.
  intros Hd. destruct ev as [o key now|t ty now pick|t x|t now|o total].
  - destruct (begin_ok id c d o key now Hd) as (d' & ? & ?). eauto.
  - destruct (measured_ok id c t (StartSysCall t ty now pick) d Hd) as (d' & E & ?); [by intros; apply StartSysCall_quiet|].
    exists c, d'. split; [|done]. unfold exec, mbind at 1, M_bind at 1. by rewrite E.
  - destruct (measured_ok id c t (AddLatestStorageDuration t x) d Hd) as (d' & E & ?); [by apply AddLatest_quiet|].
    exists c, d'. split; [|done]. unfold exec, mbind at 1, M_bind at 1. by rewrite E.
  - destruct (measured_ok id c t (EndSysCall t now) d Hd) as (d' & E & ?); [by apply EndSysCall_quiet|].
    exists c, d'. split; [|done]. unfold exec, mbind at 1, M_bind at 1. by rewrite E.
  - by apply end_ok.
Qed.

Lemma execAll_ok id evs c d : dwf id c d → ∃ c' d', execAll id evs c d = Ret (c', d') ∧ dwf id c' d'.
Proof.
  revert c d. induction evs as [|ev evs IH]; intros c d Hd; cbn; [by exists c, d|].
  destruct (exec_ok id ev c d Hd) as (c1 & d1 & E & Hd1). unfold mbind, M_bind. rewrite E. by apply IH.
Qed.

Definition noCalls : calls := mkCalls ∅ ∅ [].

Lemma newBlock_wf id : dwf id noCalls (newBlock id).
Proof.
  exists ∅. split_and!; [apply lookup_singleton_eq| |split; constructor].
  split; cbn; try done. intros p q Hin. by apply not_elem_of_nil in Hin.
Qed.

(** [C25] The statistics mirror the calls. Whatever invocations begin and end in a block, nested
    as calls are, and whatever is measured in between, no operation panics, the recursion of
    [getCallerNode] ends, and every cross-contract call is recorded exactly once, in order, in
    the list of the invocation that made it (the first invocation of a transaction stays the
    root, also for one that is executed again in the block). *)
Theorem calls_under_caller id evs :
  ∃ c d, execAll id evs noCalls (newBlock id) = Ret (c, d) ∧
    d_blockDurations d !! id = Some (c_roots c) ∧
    (∀ p, children (d_tx d) p = if decide (p < length (d_tx d))%nat then Some (callees c p) else None) ∧
    (∀ o, getCallerNode (S (length (d_tx d))) (d_tx d) <$> c_roots c !! o =
          (λ root, Some (caller c o root)) <$> c_roots c !! o).
Proof.
  destruct (execAll_ok id evs noCalls (newBlock id) (newBlock_wf id)) as (c & d & E & b & Hb & Hw & Hok).
  exists c, d. split; [done|]. split_and!.
  - by rewrite Hb, (wf_roots _ _ _ Hw).
  - intros p. case_decide as Hp.
    + apply lookup_lt_is_Some in Hp as [t Ht].
      assert (children (d_tx d) p = Some (td_CrossCallList t)) as Hc by (unfold children; by rewrite Ht).
      rewrite Hc. f_equal. by apply (wf_children _ _ _ Hw).
    + unfold children. by rewrite lookup_ge_None_2 by lia.
  - intros o. rewrite <-(wf_roots _ _ _ Hw). destruct (b !! o) as [root|] eqn:Ho; [|done]. cbn [fmap option_fmap option_map].
    f_equal. destruct (wf_caller _ _ _ _ _ Hw Ho) as (l & Hd & -> & _). apply getCallerNode_down; [done|].
    apply down_lt in Hd. lia.
Qed.

(** A transaction that calls twice, the second call calling again; then it is executed a second
    time in the same block, and is recorded as a call of its first execution. *)
Example calls_example :
  (λ r, match r with Ret (c, d) => Some (td_CrossCallList <$> d_tx d) | _ => None end)
    (execAll "b" [EBegin "tx" "tx#1" 0; EBegin "tx" "tx#2" 1; EEnd "tx" 2; EBegin "tx" "tx#3" 3; EBegin "tx" "tx#4" 4;
       EEnd "tx" 5; EEnd "tx" 6; EEnd "tx" 7; EBegin "tx" "tx#5" 8] noCalls (newBlock "b"))
  = Some [[1; 2; 4]; []; [3]; []; []]%nat.
Proof. vm_compute. reflexivity. Qed.

(** The sums of the root are added to themselves when the root itself ends: one call counts twice. *)
Example root_counted_twice :
  (λ r, match r with Ret (c, d) => Some (td_SysCallCnt <$> d_tx d) | _ => None end)
    (execAll "b" [EBegin "tx" "tx#1" 0; EStartSys 0 GET_STATE_REQUEST 1 None; EEndSys 0 2; EEnd "tx" 3] noCalls (newBlock "b"))
  = Some [2].
Proof. vm_compute. reflexivity. Qed.

(** The record of a call that is still measured goes to the pool when the called invocation ends,
    and the next system call of another transaction overwrites it: the cross-contract call is
    never counted, and a call to the state is counted in its place. *)
Example pooled_too_early :
  (λ r, match r with Ret (c, d) => Some ((λ t, (td_SysCallCnt t, td_CrossCallCnt t)) <$> d_tx d) | _ => None end)
    (execAll "b" [EBegin "tx" "tx#1" 0; EStartSys 0 CALL_CONTRACT_REQUEST 1 None; EBegin "tx" "tx#2" 2; EEnd "tx" 3;
       EBegin "ty" "ty#3" 4; EStartSys 2 GET_STATE_REQUEST 5 (Some 0%nat); EEndSys 0 6] noCalls (newBlock "b"))
  = Some [(1, 0); (0, 0); (0, 0)].
Proof. vm_compute. reflexivity. Qed.
End TimeStatics.
