(* ===== verification/Reports.v ===== *)
(** * The reports on slow transactions and on the durations of a block

    The printing functions of utils/time_statics.go and vm_mgr/utils/utils.go: which transactions are
    reported as slow, and what is printed of the durations of a transaction and of a block. *)

From S2P Require Import Prelude Messages EngineUtils TimeStatics.

Module Reports.

(** ** Texts *)

(** What [fmt] makes of an instant ([%v] of [time.Unix(0, ns)], in the local time zone) and of a duration in
    milliseconds ([%v] of a [float64]). *)
Class Formats := {
  fmtTime : Z → string;
  fmtMs : Z → string;
}.

Definition quote : string := String (Ascii.ascii_of_nat 34) "".

(** [StepType_name] and [DockerVMType_name] of the generated protocol code. *)
Definition StepType_name (t : StepType) : string :=
  match t with
  | RUNTIME_PREPARE_TX_REQUEST => "RUNTIME_PREPARE_TX_REQUEST"
  | RUNTIME_GRPC_SEND_TX_REQUEST => "RUNTIME_GRPC_SEND_TX_REQUEST"
  | ENGINE_GRPC_RECEIVE_TX_REQUEST => "ENGINE_GRPC_RECEIVE_TX_REQUEST"
  | ENGINE_SCHEDULER_RECEIVE_TX_REQUEST => "ENGINE_SCHEDULER_RECEIVE_TX_REQUEST"
  | ENGINE_SCHEDULER_SEND_TX_REQUEST => "ENGINE_SCHEDULER_SEND_TX_REQUEST"
  | ENGINE_GROUP_RECEIVE_TX_REQUEST => "ENGINE_GROUP_RECEIVE_TX_REQUEST"
  | ENGINE_GROUP_SEND_TX_REQUEST => "ENGINE_GROUP_SEND_TX_REQUEST"
  | ENGINE_PROCESS_RECEIVE_TX_REQUEST => "ENGINE_PROCESS_RECEIVE_TX_REQUEST"
  | ENGINE_PROCESS_SEND_TX_REQUEST => "ENGINE_PROCESS_SEND_TX_REQUEST"
  | ENGINE_PROCESS_RECEIVE_TX_RESPONSE => "ENGINE_PROCESS_RECEIVE_TX_RESPONSE"
  | SANDBOX_GRPC_RECEIVE_TX_REQUEST => "SANDBOX_GRPC_RECEIVE_TX_REQUEST"
  | SANDBOX_GRPC_SEND_TX_REQUEST => "SANDBOX_GRPC_SEND_TX_REQUEST"
  | SANDBOX_CHAN_SEND_TX_REQUEST => "SANDBOX_CHAN_SEND_TX_REQUEST"
  | SANDBOX_HANDLER_RECEIVE_TX_REQUEST => "SANDBOX_HANDLER_RECEIVE_TX_REQUEST"
  | SANDBOX_HANDLER_EXECUTE => "SANDBOX_HANDLER_EXECUTE"
  | SANDBOX_SEND_CHAIN_RESP => "SANDBOX_SEND_CHAIN_RESP"
  | SANDBOX_GRPC_SEND_CHAIN_RESP => "SANDBOX_GRPC_SEND_CHAIN_RESP"
  | SANDBOX_SEND_ENGINE_RESP => "SANDBOX_SEND_ENGINE_RESP"
  | RUNTIME_GRPC_RECEIVE_TX_RESPONSE => "RUNTIME_GRPC_RECEIVE_TX_RESPONSE"
  | RUNTIME_GET_NOTIFY_TX_RESPONSE => "RUNTIME_GET_NOTIFY_TX_RESPONSE"
  | RUNTIME_HANDLER_RECEIVE_TX_RESPONSE => "RUNTIME_HANDLER_RECEIVE_TX_RESPONSE"
  | RUNTIME_HANDLE_TX_RESPONSE => "RUNTIME_HANDLE_TX_RESPONSE"
  end.

Definition DockerVMType_name (t : DockerVMType) : string :=
  match t with
  | UNDEFINED => "UNDEFINED" | REGISTER => "REGISTER" | REGISTERED => "REGISTERED" | PREPARE => "PREPARE"
  | READY => "READY" | INIT => "INIT" | INVOKE => "INVOKE"
  | TX_REQUEST => "TX_REQUEST" | TX_RESPONSE => "TX_RESPONSE"
  | GET_STATE_REQUEST => "GET_STATE_REQUEST" | GET_STATE_RESPONSE => "GET_STATE_RESPONSE"
  | GET_BYTECODE_REQUEST => "GET_BYTECODE_REQUEST" | GET_BYTECODE_RESPONSE => "GET_BYTECODE_RESPONSE"
  | CALL_CONTRACT_REQUEST => "CALL_CONTRACT_REQUEST" | CALL_CONTRACT_RESPONSE => "CALL_CONTRACT_RESPONSE"
  | COMPLETED => "COMPLETED" | ERROR => "ERROR"
  | CREATE_KV_ITERATOR_REQUEST => "CREATE_KV_ITERATOR_REQUEST"
  | CREATE_KV_ITERATOR_RESPONSE => "CREATE_KV_ITERATOR_RESPONSE"
  | CONSUME_KV_ITERATOR_REQUEST => "CONSUME_KV_ITERATOR_REQUEST"
  | CONSUME_KV_ITERATOR_RESPONSE => "CONSUME_KV_ITERATOR_RESPONSE"
  | CREATE_KEY_HISTORY_ITER_REQUEST => "CREATE_KEY_HISTORY_ITER_REQUEST"
  | CREATE_KEY_HISTORY_TER_RESPONSE => "CREATE_KEY_HISTORY_TER_RESPONSE"
  | CONSUME_KEY_HISTORY_ITER_REQUEST => "CONSUME_KEY_HISTORY_ITER_REQUEST"
  | CONSUME_KEY_HISTORY_ITER_RESPONSE => "CONSUME_KEY_HISTORY_ITER_RESPONSE"
  | GET_SENDER_ADDRESS_REQUEST => "GET_SENDER_ADDRESS_REQUEST"
  | GET_SENDER_ADDRESS_RESPONSE => "GET_SENDER_ADDRESS_RESPONSE"
  | GET_BATCH_STATE_REQUEST => "GET_BATCH_STATE_REQUEST" | GET_BATCH_STATE_RESPONSE => "GET_BATCH_STATE_RESPONSE"
  end.

Section reports.
Context `{Formats}.

(** ** The steps of a transaction *)

Definition stepText (step : StepDuration) : string :=
  "<step: " +:+ quote +:+ StepType_name (sd_Type step) +:+ quote +:+ ", start time: " +:+ fmtTime (sd_StartTime step) +:+
  ", step cost: " +:+ fmtMs (sd_StepDuration step) +:+ "ms, until cost: " +:+ fmtMs (sd_UntilDuration step) +:+
  "ms, msg: " +:+ sd_Msg step +:+ "> ".

(** [PrintTxSteps(msg)], the same on both sides. *)
Definition PrintTxSteps (msg : DockerVMMessage) : string :=
  foldr (λ step s, stepText step +:+ s) "" (m_StepDurations msg).

(** The loop of [PrintTxStepsWithTime]: the first step over the limit. *)
Fixpoint slowStep (limit : Z) (l : list StepDuration) : option StepDuration :=
  match l with
  | [] => None
  | step :: l' => if limit <? sd_StepDuration step then Some step else slowStep limit l'
  end.

(** [PrintTxStepsWithTime(msg)], with the two limits in nanoseconds. *)
Definition printWithLimits (txLimit stepLimit : Z) (msg : DockerVMMessage) : string * bool :=
  match last (m_StepDurations msg) with
  | None => ("", false)
  | Some lastStep =>
    if txLimit <? sd_UntilDuration lastStep then ("slow tx overall: " +:+ PrintTxSteps msg, true)
    else
      match slowStep stepLimit (m_StepDurations msg) with
      | Some step =>
        ("slow tx at step " +:+ quote +:+ StepType_name (sd_Type step) +:+ quote +:+ ", step cost: " +:+
         fmtMs (sd_StepDuration step) +:+ "ms: " +:+ PrintTxSteps msg, true)
      | None => ("", false)
      end
  end.

(** The engine's limits are durations; those of the chain's side are numbers of seconds, multiplied as [int64]. *)
Definition PrintTxStepsWithTime (TxTime StepTime : Z) (msg : DockerVMMessage) : string * bool :=
  printWithLimits TxTime StepTime msg.

Definition RuntimePrintTxStepsWithTime (TxTime StepTime : Z) (msg : DockerVMMessage) : string * bool :=
  printWithLimits (TimeStatics.i64 (1000000000 * TxTime)) (TimeStatics.i64 (1000000000 * StepTime)) msg.

(** ** What is recorded *)

(** A call of [EnterNextStep] with the readings of the clock: when the step before ends, when its own step starts, and
    when its own step ends if the call ends it. *)
Record reading := mkReading { g_type : StepType; g_log : string; g_end : Z; g_start : Z; g_close : Z }.

Definition enter (engine : bool) (msg : DockerVMMessage) (g : reading) : DockerVMMessage :=
  if engine then EngineUtils.EnterNextStep false (g_end g) (g_start g) (g_close g) msg (g_type g) (g_log g)
  else TimeStatics.EnterNextStep false (g_end g) (g_start g) (g_close g) msg (g_type g) (g_log g).

Definition record (engine : bool) (l : list reading) (msg : DockerVMMessage) : DockerVMMessage := fold_left (enter engine) l msg.

Definition final (engine : bool) (t : StepType) : Prop :=
  t = RUNTIME_HANDLE_TX_RESPONSE ∨ (engine = true ∧ t = ENGINE_PROCESS_RECEIVE_TX_RESPONSE).

(** The steps as they should be: from the start of a step to the call that begins the next one, and from the start of
    the first. *)
Definition span (first : Z) (g : reading) (stop : Z) : StepDuration :=
  mkStep (g_type g) (g_start g) (stop - g_start g) (stop - first) (g_log g).

Fixpoint spans (first : Z) (g : reading) (l : list reading) : list StepDuration :=
  match l with
  | [] => [span first g (g_close g)]
  | g' :: l' => span first g (g_end g') :: spans first g' l'
  end.

Definition opened (g : reading) : StepDuration := mkStep (g_type g) (g_start g) 0 0 (g_log g).

Lemma endTxSteps_snoc now l st first : head (l ++ [st]) = Some first →
  EngineUtils.endTxSteps now (l ++ [st]) = l ++ [EngineUtils.endStep now (sd_StartTime first) st].
Proof.
  intros Hh. unfold EngineUtils.endTxSteps. destruct (l ++ [st]) as [|x l'] eqn:E; [done|]. injection Hh as ->. rewrite <-E.
  rewrite length_app. cbn [length]. replace (pred (length l + 1)) with (length l + 0)%nat by lia. by rewrite alter_app_r.
Qed.

(** A call in the middle ends the last step and opens its own. *)
Lemma enter_steps engine msg g done st first :
  g_type g ≠ RUNTIME_PREPARE_TX_REQUEST → m_StepDurations msg = done ++ [st] → head (done ++ [st]) = Some first →
  m_StepDurations (enter engine msg g) =
    (done ++ [EngineUtils.endStep (g_end g) (sd_StartTime first) st]) ++
    [if decide (final engine (g_type g)) then EngineUtils.endStep (g_close g) (sd_StartTime first) (opened g) else opened g].
Proof.
  intros Hp Hm Hh. assert (m_StepDurations (EngineUtils.addTxStep (g_start g)
    (EngineUtils.endTxStep (g_end g) msg) (g_type g) (g_log g)) =
    (done ++ [EngineUtils.endStep (g_end g) (sd_StartTime first) st]) ++ [opened g]) as Ha.
  { cbn. rewrite Hm. by rewrite (endTxSteps_snoc _ _ _ first). }
  assert (∀ m, m_StepDurations (EngineUtils.endTxStep (g_close g) m) = EngineUtils.endTxSteps (g_close g) (m_StepDurations m)) as He by done.
  assert (∃ f, head ((done ++ [EngineUtils.endStep (g_end g) (sd_StartTime first) st]) ++ [opened g]) = Some f ∧
    sd_StartTime f = sd_StartTime first) as (f & Hf & Hfs).
  { destruct done as [|d done]; cbn in Hh |- *; injection Hh as ->; eexists; split; done. }
  unfold enter, EngineUtils.EnterNextStep, TimeStatics.EnterNextStep, final.
  destruct engine; (destruct (decide (g_type g ≠ RUNTIME_PREPARE_TX_REQUEST)); [|done]); repeat case_decide; try naive_solver;
    rewrite ?He, Ha; try done; rewrite (endTxSteps_snoc _ _ _ f) by done; by rewrite Hfs.
Qed.

Lemma record_steps engine l g0 gn msg :
  Forall (λ g, g_type g ≠ RUNTIME_PREPARE_TX_REQUEST ∧ ¬ final engine (g_type g)) l →
  g_type gn ≠ RUNTIME_PREPARE_TX_REQUEST → final engine (g_type gn) →
  ∀ first done, m_StepDurations msg = done ++ [opened g0] → sd_StartTime <$> head (done ++ [opened g0]) = Some first →
  m_StepDurations (record engine (l ++ [gn]) msg) = done ++ spans first g0 (l ++ [gn]).
Proof.
  intros Hl Hn Hfin. revert g0 msg. induction Hl as [|g l [Hp Hf] _ IH]; intros g0 msg first done Hm Hh;
    apply fmap_Some in Hh as (f & Hh & ->).
  - cbn. rewrite (enter_steps engine msg gn done (opened g0) f) by done. rewrite decide_True by done. by rewrite <-app_assoc.
  - unfold record in *. cbn [app fold_left spans].
    rewrite (IH g (enter engine msg g) (sd_StartTime f) (done ++ [span (sd_StartTime f) g0 (g_end g)])).
    + by rewrite <-app_assoc.
    + rewrite (enter_steps engine msg g done (opened g0) f) by done. by rewrite decide_False.
    + destruct done as [|d done]; cbn in Hh |- *; by injection Hh as <-.
Qed.

Lemma spans_last first g l gn : last (spans first g (l ++ [gn])) = Some (span first gn (g_close gn)).
Proof.
  revert g. induction l as [|g' l IH]; intros g; [done|]. cbn [app spans]. rewrite last_cons, IH. done.
Qed.

Lemma slowStep_Some limit l : is_Some (slowStep limit l) ↔ Exists (λ st, limit < sd_StepDuration st) l.
Proof.
  induction l as [|st l IH]; cbn; [split; [by intros [? ?]|by inversion 1]|].
  destruct (Z.ltb_spec limit (sd_StepDuration st)); [split; [by left|by eexists]|].
  rewrite IH, Exists_cons. split; [by right|intros [?|?]; [lia|done]].
Qed.

(** [C28] Slow transactions are reported, and only those. When the steps of a transaction are entered one after
    another, from the preparation to the response, the recorded durations are exactly the times between the
    calls, and the transaction is reported if and only if its first and last reading are further apart than the
    limit for a transaction, or two consecutive ones further than the limit for a step. *)
Theorem slow_tx_reported engine txLimit stepLimit msg g0 l gn :
  m_StepDurations msg = [] → g_type g0 = RUNTIME_PREPARE_TX_REQUEST →
  Forall (λ g, g_type g ≠ RUNTIME_PREPARE_TX_REQUEST ∧ ¬ final engine (g_type g)) l →
  g_type gn ≠ RUNTIME_PREPARE_TX_REQUEST → final engine (g_type gn) →
  let m := record engine (g0 :: l ++ [gn]) msg in
  m_StepDurations m = spans (g_start g0) g0 (l ++ [gn]) ∧
  ((printWithLimits txLimit stepLimit m).2 = true ↔
   txLimit < g_close gn - g_start g0 ∨
   Exists (λ st, stepLimit < sd_StepDuration st) (spans (g_start g0) g0 (l ++ [gn]))).
Proof.
  intros Hm Ht Hl Hn Hfin m.
  assert (m_StepDurations m = spans (g_start g0) g0 (l ++ [gn])) as E.
  { unfold m, record. cbn [fold_left]. apply (record_steps engine l g0 gn _ Hl Hn Hfin (g_start g0) []); [|done].
    unfold enter, EngineUtils.EnterNextStep, TimeStatics.EnterNextStep. rewrite Ht.
    destruct engine; repeat case_decide; try (exfalso; naive_solver); cbn; by rewrite Hm, <-Ht. }
  split; [done|]. unfold printWithLimits. rewrite E, spans_last. cbn [sd_UntilDuration span].
  destruct (Z.ltb_spec txLimit (g_close gn - g_start g0)) as [Hlt|Hge]; [split; [by left|done]|].
  rewrite <-slowStep_Some. destruct (slowStep stepLimit _) as [st|]; cbn.
  - split; [intros _; right; by eexists|done].
  - split; [done|]. intros [?|[? ?]]; [lia|done].
Qed.

(** ** The system calls of a transaction *)

(** [SysCallDuration.ToString] and [TxDuration.ToString]; the divisions round towards zero. *)
Definition sysCallText (s : TimeStatics.SysCallDuration) : string :=
  DockerVMType_name (TimeStatics.sy_OpType s) +:+ " start: " +:+ fmtTime (TimeStatics.sy_StartTime s) +:+ ", spend: " +:+
  itoa (Z.quot (TimeStatics.sy_TotalDuration s) 1000) +:+ "μs, r/w store: " +:+
  itoa (Z.quot (TimeStatics.sy_StorageDuration s) 1000) +:+ "μs; ".

Definition txText (e : TimeStatics.TxDuration) : string :=
  TimeStatics.td_TxId e +:+ " spend time: " +:+ itoa (Z.quot (TimeStatics.td_TotalDuration e) 1000) +:+ "μs, syscall: " +:+
  itoa (Z.quot (TimeStatics.td_SysCallDuration e) 1000) +:+ "μs(count: " +:+ itoa (TimeStatics.td_SysCallCnt e) +:+
  "), r/w store: " +:+ itoa (Z.quot (TimeStatics.td_StorageDuration e) 1000) +:+ "μs, possible syscall: " +:+
  itoa (Z.quot (TimeStatics.td_ContingentSysCallDuration e) 1000) +:+ "μs(count: " +:+
  itoa (TimeStatics.td_ContingentSysCallCnt e) +:+ "), cross contract: " +:+
  itoa (Z.quot (TimeStatics.td_CrossCallDuration e) 1000) +:+ "μs(count: " +:+ itoa (TimeStatics.td_CrossCallCnt e) +:+ ")".

(** The loop of [PrintSysCallList]: the details of the next cross call follow the system call that made it. [None] is a
    nil dereference. *)
Fixpoint printCalls (details : nat → option string) (d : TimeStatics.Dur) (id : string) (calls cross : list nat) : option string :=
  match calls with
  | [] => Some ""
  | c :: calls' =>
    x ← TimeStatics.d_sys d !! c;
    if decide (TimeStatics.sy_OpType x = CALL_CONTRACT_REQUEST) then
      match cross with
      | [] => printCalls details d id calls' []
      | t :: cross' =>
        ds ← details t; rest ← printCalls details d id calls' cross';
        Some (sysCallText x +:+ "< details of the cross call from [" +:+ id +:+ "]: " +:+ ds +:+ "> " +:+ rest)
      end
    else rest ← printCalls details d id calls' cross; Some (sysCallText x +:+ rest)
  end.

(** [PrintSysCallList()]. The list of system calls is never nil: [NewTxDuration] makes it. *)
Fixpoint PrintSysCallList (fuel : nat) (d : TimeStatics.Dur) (e : nat) : option string :=
  match fuel with
  | O => None
  | S fuel' =>
    t ← TimeStatics.d_tx d !! e;
    printCalls (PrintSysCallList fuel' d) d (TimeStatics.td_TxId t) (TimeStatics.td_SysCallList t) (TimeStatics.td_CrossCallList t)
  end.

(** ** The durations of a block *)

(** [BlockTxsDuration.ToString]: the loop over the map takes the transactions in any order. *)
Fixpoint addAll (total : nat) (order : list nat) : M TimeStatics.Dur unit :=
  match order with
  | [] => mret tt
  | tx :: order' => TimeStatics.Add total tx;; addAll total order'
  end.

Definition BlockToString (order : list nat) : M TimeStatics.Dur string :=
  txTotal ← TimeStatics.NewTxDuration "" "" 0;
  addAll txTotal order;;
  x ← TimeStatics.get_tx txTotal;
  mret (txText x).

Definition PrintBlockTxsDuration (id : string) (order : list nat) : M TimeStatics.Dur string :=
  d ← getS;
  match TimeStatics.d_blockDurations d !! id with
  | None => mret ""
  | Some _ => BlockToString order
  end.

(** Every cross call below a transaction is younger than its caller, and the pointers are not nil. *)
Definition wellNested (d : TimeStatics.Dur) : Prop :=
  ∀ e t, TimeStatics.d_tx d !! e = Some t →
    Forall (λ c, (e < c < length (TimeStatics.d_tx d))%nat) (TimeStatics.td_CrossCallList t) ∧
    Forall (λ c, (c < length (TimeStatics.d_sys d))%nat) (TimeStatics.td_SysCallList t).

Lemma printCalls_total details d id calls cross :
  Forall (λ c, (c < length (TimeStatics.d_sys d))%nat) calls → Forall (λ t, is_Some (details t)) cross →
  is_Some (printCalls details d id calls cross).
Proof.
  revert cross. induction calls as [|c calls IH]; intros cross Hc Ht; cbn; [by eexists|].
  apply Forall_cons in Hc as [Hc1 Hc]. apply lookup_lt_is_Some_2 in Hc1 as [x ->]. cbn.
  case_decide.
  - destruct cross as [|t cross]; [by apply IH|]. apply Forall_cons in Ht as [[ds ->] Ht]. cbn.
    destruct (IH cross Hc Ht) as [rest ->]. by eexists.
  - destruct (IH cross Hc Ht) as [rest ->]. by eexists.
Qed.

(** The printing of the calls of a transaction ends, and the number of objects is fuel enough. *)
Lemma PrintSysCallList_ends d e : wellNested d → (e < length (TimeStatics.d_tx d))%nat →
  is_Some (PrintSysCallList (length (TimeStatics.d_tx d)) d e).
Proof.
  intros Hw He. assert (∀ fuel e, (e < length (TimeStatics.d_tx d))%nat → (length (TimeStatics.d_tx d) ≤ fuel + e)%nat →
    is_Some (PrintSysCallList fuel d e)) as Hgen; [|apply Hgen; lia].
  clear e He. intros fuel. induction fuel as [|fuel IH]; intros e He Hf; [lia|]. cbn.
  destruct (lookup_lt_is_Some_2 _ _ He) as [t Ht]. rewrite Ht. cbn. destruct (Hw e t Ht) as [Hx Hs].
  apply printCalls_total; [done|]. eapply Forall_impl; [exact Hx|]. cbn. intros c [Hlt Hc]. apply IH; lia.
Qed.

Lemma dwf_wellNested id c d : TimeStatics.dwf id c d → wellNested d.
Proof.
  intros (b & _ & Hw & Hs & _) e t Ht. split.
  - apply Forall_forall. intros x Hx. apply (TimeStatics.wf_log _ _ _ Hw).
    assert (TimeStatics.td_CrossCallList t = TimeStatics.callees c e) as E.
    { apply (TimeStatics.wf_children _ _ _ Hw). unfold TimeStatics.children. by rewrite Ht. }
    rewrite E in Hx. unfold TimeStatics.callees in Hx. apply list_elem_of_fmap in Hx as ([p q] & -> & [Hp Hin]%list_elem_of_filter).
    cbn in *. by subst.
  - rewrite Forall_forall in Hs. apply (Hs t). by eapply list_elem_of_lookup_2.
Qed.

(** ** The sums of a block *)

(** Adding a transaction to another: an update of the latter, in whatever order. *)
Definition addTo (x y : TimeStatics.TxDuration) : TimeStatics.TxDuration :=
  TimeStatics.add_sums (TimeStatics.td_SysCallCnt x) (TimeStatics.td_SysCallDuration x) (TimeStatics.td_StorageDuration x)
    (TimeStatics.td_ContingentSysCallCnt x) (TimeStatics.td_ContingentSysCallDuration x) (TimeStatics.td_CrossCallCnt x)
    (TimeStatics.td_CrossCallDuration x)
    (TimeStatics.set_TotalDuration (TimeStatics.i64 (TimeStatics.td_TotalDuration y + TimeStatics.td_TotalDuration x)) y).

Lemma wrap_add w a b c : 0 < w → let r z := (z + w / 2) mod w - w / 2 in r (r (a + b) + c) = r (a + b + c).
Proof. intros Hw r. unfold r. f_equal.
  replace ((a + b + w / 2) mod w - w / 2 + c + w / 2) with ((a + b + w / 2) mod w + c) by lia.
  rewrite Zplus_mod_idemp_l. f_equal. lia.
Qed.

Lemma i64_add a b c : TimeStatics.i64 (TimeStatics.i64 (a + b) + c) = TimeStatics.i64 (a + b + c).
Proof. apply (wrap_add (2 ^ 64)). done. Qed.
Lemma i32_add a b c : TimeStatics.i32 (TimeStatics.i32 (a + b) + c) = TimeStatics.i32 (a + b + c).
Proof. apply (wrap_add (2 ^ 32)). done. Qed.

Lemma addTo_comm x1 x2 y : addTo x1 (addTo x2 y) = addTo x2 (addTo x1 y).
Proof.
  unfold addTo, TimeStatics.add_sums, TimeStatics.set_TotalDuration. cbn. rewrite !i64_add, !i32_add. f_equal; f_equal; lia.
Qed.

Definition addedAll (xs : list TimeStatics.TxDuration) (y : TimeStatics.TxDuration) : TimeStatics.TxDuration :=
  foldl (λ y x, addTo x y) y xs.

Lemma addedAll_perm xs xs' y : xs ≡ₚ xs' → addedAll xs y = addedAll xs' y.
Proof.
  intros Hp. revert y. induction Hp as [|x xs xs' _ IH|x1 x2 xs|xs xs' xs'' _ IH1 _ IH2]; intros y; cbn; [done|apply IH| |].
  - by rewrite addTo_comm.
  - by rewrite IH1, IH2.
Qed.

Lemma alter_twice {A} (f g : A → A) (i : nat) (l : list A) : alter g i (alter f i l) = alter (g ∘ f) i l.
Proof. apply list_eq. intros j. rewrite !TimeStatics.lookup_alter_case. repeat case_decide; try done. by destruct (l !! i). Qed.

Lemma alter_nothing {A} (f : A → A) (i : nat) (l : list A) : (∀ x, f x = x) → alter f i l = l.
Proof. intros Hf. apply list_eq. intros j. rewrite TimeStatics.lookup_alter_case. case_decide; [subst|done]. destruct (l !! i); cbn; by rewrite ?Hf. Qed.

Lemma Forall2_in {A B} (P Q : A → B → Prop) l k : Forall2 P l k → (∀ a b, a ∈ l → P a b → Q a b) → Forall2 Q l k.
Proof. intros Hl HQ. induction Hl as [|a b l k Hab _ IH]; constructor; [apply HQ; [set_solver|done]|apply IH; set_solver]. Qed.

Lemma Add_run total t x d : TimeStatics.d_tx d !! t = Some x →
  TimeStatics.Add total t d = Ret (tt, TimeStatics.set_txs (alter (addTo x) total) d).
Proof.
  intros Hx. unfold TimeStatics.Add, TimeStatics.get_tx, TimeStatics.upd_tx, mbind, M_bind, getS, modifyS. rewrite Hx. cbn.
  do 2 f_equal. unfold TimeStatics.set_txs. cbn. f_equal. by rewrite alter_twice.
Qed.

(** What [addAll] leaves in the sums. *)
Lemma addAll_run total order : ∀ xs d, Forall2 (λ t x, TimeStatics.d_tx d !! t = Some x) order xs → total ∉ order →
  addAll total order d = Ret (tt, TimeStatics.set_txs (alter (addedAll xs) total) d).
Proof.
  induction order as [|t order IH]; intros xs d Hxs Hnin.
  { inversion Hxs; subst. cbn. unfold mret, M_ret. do 2 f_equal. destruct d. unfold TimeStatics.set_txs. cbn. f_equal.
    symmetry. by apply alter_nothing. }
  inversion Hxs as [|? x ? xs' Hx Hxs']; subst. apply not_elem_of_cons in Hnin as [Hne Hnin].
  cbn [addAll]. unfold mbind at 1, M_bind at 1. rewrite (Add_run total t x d Hx). rewrite (IH xs').
  - do 2 f_equal. unfold TimeStatics.set_txs. cbn. f_equal. by rewrite alter_twice.
  - eapply Forall2_in; [exact Hxs'|]. cbn. intros t' x' Hin Ht'. rewrite TimeStatics.lookup_alter_case.
    case_decide; [by subst|done].
  - done.
Qed.

Lemma alter_congr {A} (f g : A → A) (i : nat) (l : list A) : (∀ x, f x = g x) → alter f i l = alter g i l.
Proof. intros Hf. apply list_eq. intros j. rewrite !TimeStatics.lookup_alter_case. case_decide; [|done]. destruct (l !! i); cbn; by rewrite ?Hf. Qed.

Lemma lookup_all {A} (l : list A) order : Forall (λ t, (t < length l)%nat) order → ∃ xs, Forall2 (λ t x, l !! t = Some x) order xs.
Proof.
  induction 1 as [|t order Ht _ [xs IH]]; [by exists []|]. apply lookup_lt_is_Some_2 in Ht as [x Hx]. exists (x :: xs). by constructor.
Qed.

Lemma Forall2_perm {A B} (P : A → B → Prop) l l' k : l ≡ₚ l' → Forall2 P l k → ∃ k', k ≡ₚ k' ∧ Forall2 P l' k'.
Proof.
  intros Hp. revert k. induction Hp as [|a l l' _ IH|a b l|l l' l'' _ IH1 _ IH2]; intros k Hk.
  - by exists k.
  - apply Forall2_cons_inv_l in Hk as (x & k0 & Hx & Hk & ->). destruct (IH k0 Hk) as (k' & Hp' & Hk'). exists (x :: k').
    split; [by constructor|by constructor].
  - apply Forall2_cons_inv_l in Hk as (x & k0 & Hx & Hk & ->). apply Forall2_cons_inv_l in Hk as (y & k1 & Hy & Hk & ->).
    exists (y :: x :: k1). split; [by constructor|by repeat constructor].
  - destruct (IH1 k Hk) as (k1 & Hp1 & Hk1). destruct (IH2 k1 Hk1) as (k2 & Hp2 & Hk2). exists k2. split; [by etrans|done].
Qed.

(** The report of a block is the same in every order of its transactions. *)
Lemma BlockToString_any_order order order' d : order ≡ₚ order' → Forall (λ t, (t < length (TimeStatics.d_tx d))%nat) order →
  ∃ r, BlockToString order d = Ret r ∧ BlockToString order' d = Ret r.
Proof.
  intros Hp Hlt. set (zero := TimeStatics.mkTxDuration "" "" 0 0 0 0 0 0 0 0 0 0 [] [] false).
  set (d1 := TimeStatics.set_txs (λ l, l ++ [zero]) d). set (n := length (TimeStatics.d_tx d)).
  assert (n ∉ order) as Hn by (intros Hin; rewrite Forall_forall in Hlt; specialize (Hlt _ Hin); unfold n in *; lia).
  destruct (lookup_all (TimeStatics.d_tx d1) order) as [xs Hxs].
  { eapply Forall_impl; [exact Hlt|]. cbn. intros t Ht. rewrite length_app. unfold n in Ht. lia. }
  destruct (Forall2_perm _ _ _ _ Hp Hxs) as (xs' & Hpx & Hxs').
  assert (∀ o ys, Forall2 (λ t x, TimeStatics.d_tx d1 !! t = Some x) o ys → n ∉ o → BlockToString o d =
    Ret (txText (addedAll ys zero), TimeStatics.set_txs (alter (addedAll ys) n) d1)) as Hrun.
  { intros o ys Hys Hno. unfold BlockToString, TimeStatics.NewTxDuration, mbind, M_bind, getS, modifyS, mret, M_ret. cbn [fst snd].
    fold zero d1 n. rewrite (addAll_run n o ys d1 Hys Hno). unfold TimeStatics.get_tx, mbind, M_bind, getS. cbn [TimeStatics.d_tx TimeStatics.set_txs].
    rewrite TimeStatics.lookup_alter_case, decide_True by done. unfold d1, n. cbn. by rewrite lookup_app_r, Nat.sub_diag by lia. }
  eexists. split; [apply (Hrun order xs Hxs Hn)|]. rewrite (Hrun order' xs' Hxs') by (by rewrite <-Hp).
  rewrite (addedAll_perm xs xs' zero Hpx). do 2 f_equal. unfold TimeStatics.set_txs. f_equal.
  apply alter_congr. intros y. symmetry. by apply addedAll_perm.
Qed.

(** The reports can always be made. After any invocations of a block, nested as calls are, and whatever was
    measured, the system calls of every transaction, with those of the calls it made, are printed: the recursion
    ends and no nil pointer is followed. And the durations of the block are the same in whatever order the map
    of its transactions is traversed, although the sums may overflow. *)
Theorem reports_defined id evs : ∃ c d, TimeStatics.execAll id evs TimeStatics.noCalls (TimeStatics.newBlock id) = Ret (c, d) ∧
  (∀ e, (e < length (TimeStatics.d_tx d))%nat → is_Some (PrintSysCallList (length (TimeStatics.d_tx d)) d e)) ∧
  ∀ order, order ≡ₚ (map_to_list (TimeStatics.c_roots c)).*2 →
    ∃ r, PrintBlockTxsDuration id order d = Ret r ∧ PrintBlockTxsDuration id (map_to_list (TimeStatics.c_roots c)).*2 d = Ret r.
Proof.
  destruct (TimeStatics.execAll_ok id evs _ _ (TimeStatics.newBlock_wf id)) as (c & d & E & Hd). exists c, d. split; [done|].
  split; [intros e He; by apply PrintSysCallList_ends; [apply (dwf_wellNested id c)|]|].
  intros order Ho. destruct Hd as (b & Hb & Hw & _).
  assert (∀ o, PrintBlockTxsDuration id o d = BlockToString o d) as Hpr.
  { intros o. unfold PrintBlockTxsDuration, mbind, M_bind, getS. by rewrite Hb. }
  rewrite !Hpr. apply BlockToString_any_order; [done|]. rewrite Ho. apply Forall_forall. intros r Hr.
  apply list_elem_of_fmap in Hr as ([o r'] & -> & Hin%elem_of_map_to_list). cbn.
  rewrite <-(TimeStatics.wf_roots _ _ _ Hw) in Hin. destruct (TimeStatics.wf_path _ _ _ Hw o r' Hin) as (l & s & _ & _ & Hs & _).
  by eapply TimeStatics.sealed_lt.
Qed.
End reports.

(** ** A slow transaction *)

Definition plainFormats : Formats := {| fmtTime := itoa; fmtMs := itoa |}.

Lemma slow_tx_reported_witness :
  (printWithLimits (H := plainFormats) 100 50 (record true
     [mkReading RUNTIME_PREPARE_TX_REQUEST "" 0 0 0; mkReading ENGINE_GRPC_RECEIVE_TX_REQUEST "" 10 11 0;
      mkReading ENGINE_PROCESS_RECEIVE_TX_RESPONSE "" 80 81 82] (mkMessage "tx" TX_REQUEST None None None None "chain" []))).2 = true.
Proof.
  apply (slow_tx_reported (H := plainFormats) true 100 50 (mkMessage "tx" TX_REQUEST None None None None "chain" [])
    (mkReading RUNTIME_PREPARE_TX_REQUEST "" 0 0 0) [mkReading ENGINE_GRPC_RECEIVE_TX_REQUEST "" 10 11 0]
    (mkReading ENGINE_PROCESS_RECEIVE_TX_RESPONSE "" 80 81 82)); try done.
  - repeat constructor; cbn; [done|]. unfold final. naive_solver.
  - by right.
  - right. cbn. right. left. cbn. lia.
Defined.

(** The limits of the chain's side are multiplied as 64-bit integers: from a limit of some 292 years on every
    transaction is slow. *)
Example slow_limit_wraps :
  (RuntimePrintTxStepsWithTime (H := plainFormats) 9223372037 3 (mkMessage "tx" TX_RESPONSE None None None None "chain"
    [mkStep RUNTIME_PREPARE_TX_REQUEST 0 1 1 ""])).2 = true.
Proof. vm_compute. reflexivity. Qed.
End Reports.
