(* ===== verification/Clients.v ===== *)
(** * rpc/: the clients of the engine and the service for the sandboxes, on the chain's side

    Many invocations run at the same time on a chain node. They share the client manager
    (contract_engine_client_manager.go), whose clients receive the messages of the engine, and
    the runtime service (runtime_service.go), whose streams receive those of the sandboxes. Both
    keep a table from the key of an invocation to the function that puts a message into a
    channel of that invocation. The streams of gRPC are external; what arrives on them, and when,
    is arbitrary. *)

From S2P Require Import Prelude Messages.

Module Clients.

(** ** utils/utils.go *)

Definition ConstructNotifyMapKey (names : list string) : string := join names.
Definition ConstructUniqueTxKey (names : list string) : string := join names.

Definition txSize : Z := 50000.
Definition byteCodeRespSize : Z := 8.
Definition eventSize : Z := 100.

(** ** contract_engine_client_manager.go *)

(** A notification is the method [contractEngineMsgNotify] or [sandboxMsgNotify] of an invocation,
    given by its number. A client that is alive is given by its id. *)
Record ClientManager := mkCM {
  cm_count : Z;
  cm_index : Z;
  cm_aliveClientMap : gset Z;
  cm_txSendCh : list DockerVMMessage;
  cm_byteCodeRespCh : list DockerVMMessage;
  cm_notify : gmap string nat;
  cm_eventCh : list Z;
  cm_stop : bool;
}.

Definition NewClientManager : ClientManager := mkCM 0 0 ∅ [] [] ∅ [] false.

Definition set_count (n : Z) (cm : ClientManager) : ClientManager :=
  mkCM n (cm_index cm) (cm_aliveClientMap cm) (cm_txSendCh cm) (cm_byteCodeRespCh cm) (cm_notify cm) (cm_eventCh cm) (cm_stop cm).
Definition set_alive (n : Z) (a : gset Z) (cm : ClientManager) : ClientManager :=
  mkCM (cm_count cm) n a (cm_txSendCh cm) (cm_byteCodeRespCh cm) (cm_notify cm) (cm_eventCh cm) (cm_stop cm).
Definition set_txSendCh (l : list DockerVMMessage) (cm : ClientManager) : ClientManager :=
  mkCM (cm_count cm) (cm_index cm) (cm_aliveClientMap cm) l (cm_byteCodeRespCh cm) (cm_notify cm) (cm_eventCh cm) (cm_stop cm).
Definition set_byteCodeRespCh (l : list DockerVMMessage) (cm : ClientManager) : ClientManager :=
  mkCM (cm_count cm) (cm_index cm) (cm_aliveClientMap cm) (cm_txSendCh cm) l (cm_notify cm) (cm_eventCh cm) (cm_stop cm).
Definition set_notify (f : gmap string nat → gmap string nat) (cm : ClientManager) : ClientManager :=
  mkCM (cm_count cm) (cm_index cm) (cm_aliveClientMap cm) (cm_txSendCh cm) (cm_byteCodeRespCh cm) (f (cm_notify cm))
    (cm_eventCh cm) (cm_stop cm).
Definition set_eventCh (l : list Z) (cm : ClientManager) : ClientManager :=
  mkCM (cm_count cm) (cm_index cm) (cm_aliveClientMap cm) (cm_txSendCh cm) (cm_byteCodeRespCh cm) (cm_notify cm) l (cm_stop cm).

(** [registerNotify]: an entry that exists is only logged, and overwritten. *)
Definition registerNotify (chainId txId : string) (notify : nat) : M ClientManager unit :=
  modifyS (set_notify (<[ConstructNotifyMapKey [chainId; txId] := notify]>)).

(** The send of [PutTxRequestWithNotify], after the registration. *)
Definition sendTx (txRequest : DockerVMMessage) : M ClientManager unit :=
  cm ← getS;
  if decide (Z.of_nat (length (cm_txSendCh cm)) < txSize) then putS (set_txSendCh (cm_txSendCh cm ++ [txRequest]) cm) else block.

Definition PutTxRequestWithNotify (txRequest : DockerVMMessage) (chainId : string) (notify : nat) : M ClientManager unit :=
  registerNotify chainId (m_TxId txRequest) notify;; sendTx txRequest.

Definition PutByteCodeResp (getByteCodeResp : DockerVMMessage) : M ClientManager unit :=
  cm ← getS;
  if decide (Z.of_nat (length (cm_byteCodeRespCh cm)) < byteCodeRespSize)
  then putS (set_byteCodeRespCh (cm_byteCodeRespCh cm ++ [getByteCodeResp]) cm) else block.

Definition DeleteNotify (chainId txId : string) : M ClientManager bool :=
  cm ← getS;
  let notifyKey := ConstructNotifyMapKey [chainId; txId] in
  match cm_notify cm !! notifyKey with
  | Some _ => putS (set_notify (delete notifyKey) cm);; mret true
  | None => mret false
  end.

Definition GetUniqueTxKey (txId : string) : M ClientManager string :=
  cm ← getS;
  let nextCount := u64_add (cm_count cm) 1 in
  putS (set_count nextCount cm);;
  mret (ConstructUniqueTxKey [txId; itoa nextCount]).

Definition HasActiveConnections (cm : ClientManager) : bool := (0 <? size (cm_aliveClientMap cm))%nat.

Definition GetReceiveNotify (cm : ClientManager) (chainId txId : string) : option nat :=
  cm_notify cm !! ConstructNotifyMapKey [chainId; txId].

(** [getNextIndex] and the end of [establishConnections] and [reconnect]: a client that has been
    started is alive. *)
Definition getNextIndex : M ClientManager Z :=
  cm ← getS; putS (set_alive (u64_add (cm_index cm) 1) (cm_aliveClientMap cm) cm);; mret (cm_index cm).

Definition connected (newIndex : Z) : M ClientManager unit :=
  modifyS (λ cm, set_alive (cm_index cm) ({[ newIndex ]} ∪ cm_aliveClientMap cm) cm).

Definition dropConnection (id : Z) : M ClientManager unit :=
  modifyS (λ cm, set_alive (cm_index cm) (cm_aliveClientMap cm ∖ {[ id ]}) cm).

Definition PutEvent (id : Z) : M ClientManager unit :=
  cm ← getS;
  if decide (Z.of_nat (length (cm_eventCh cm)) < eventSize) then putS (set_eventCh (cm_eventCh cm ++ [id]) cm) else block.

(** One round of [listen]; the [reconnect] it starts is the action of its own. *)
Definition listen : M ClientManager unit :=
  cm ← getS;
  match cm_eventCh cm with
  | [] => block
  | id :: l => putS (set_eventCh l cm);; dropConnection id
  end.

(** ** contract_engine_client.go *)

(** The types that [receiveMsgRoutine] passes on; it looks the notification up, and calls it. *)
Definition engineType (t : DockerVMType) : bool :=
  match t with TX_RESPONSE | GET_BYTECODE_REQUEST | ERROR => true | _ => false end.

Definition receiveMsg (cm : ClientManager) (msg : DockerVMMessage) : option nat :=
  if engineType (m_Type msg) then GetReceiveNotify cm (m_ChainId msg) (m_TxId msg) else None.

(** ** runtime_service.go *)

Record RuntimeService := mkRS {
  rs_streamCounter : Z;
  rs_sandboxMsgNotify : gmap string nat;
}.

Definition NewRuntimeService : RuntimeService := mkRS 0 ∅.

Definition getStreamId : M RuntimeService Z :=
  s ← getS;
  let n := u64_add (rs_streamCounter s) 1 in putS (mkRS n (rs_sandboxMsgNotify s));; mret n.

Definition set_sandboxNotify (f : gmap string nat → gmap string nat) (s : RuntimeService) : RuntimeService :=
  mkRS (rs_streamCounter s) (f (rs_sandboxMsgNotify s)).

Definition RegisterSandboxMsgNotify (chainId txKey : string) (respNotify : nat) : M RuntimeService unit :=
  modifyS (set_sandboxNotify (<[ConstructNotifyMapKey [chainId; txKey] := respNotify]>)).

Definition getNotify (s : RuntimeService) (chainId txId : string) : option nat :=
  rs_sandboxMsgNotify s !! ConstructNotifyMapKey [chainId; txId].

Definition DeleteSandboxMsgNotify (chainId txId : string) : M RuntimeService bool :=
  s ← getS;
  let notifyKey := ConstructNotifyMapKey [chainId; txId] in
  match rs_sandboxMsgNotify s !! notifyKey with
  | None => mret false
  | Some _ => putS (set_sandboxNotify (delete notifyKey) s);; mret true
  end.

(** The types that [recvRoutine] passes on. *)
Definition sandboxType (t : DockerVMType) : bool :=
  match t with
  | TX_RESPONSE | CALL_CONTRACT_REQUEST | GET_STATE_REQUEST | GET_BATCH_STATE_REQUEST | CREATE_KV_ITERATOR_REQUEST
  | CONSUME_KV_ITERATOR_REQUEST | CREATE_KEY_HISTORY_ITER_REQUEST | CONSUME_KEY_HISTORY_ITER_REQUEST
  | GET_SENDER_ADDRESS_REQUEST => true
  | _ => false
  end.

Definition recvMsg (s : RuntimeService) (msg : DockerVMMessage) : option nat :=
  if sandboxType (m_Type msg) then getNotify s (m_ChainId msg) (m_TxId msg) else None.

(** ** Invocations side by side *)

(** How far an invocation ([Invoke] of runtime.go) has come in its use of the tables. *)
Inductive phase :=
| PStart | PKeyed | PSandbox | PRegistered | PRunning | PUnsandboxed | PReturned.

#[export] Instance phase_eq_dec : EqDecision phase.
Proof. solve_decision. Defined.

Record Invocation := mkInv {
  i_chainId : string;
  i_txId : string;
  i_txKey : string;
  i_phase : phase;
  i_contractEngineMsgCh : list DockerVMMessage;
  i_sandboxMsgCh : list DockerVMMessage;
}.

Definition set_phase (p : phase) (x : Invocation) : Invocation :=
  mkInv (i_chainId x) (i_txId x) (i_txKey x) p (i_contractEngineMsgCh x) (i_sandboxMsgCh x).
Definition set_key (k : string) (x : Invocation) : Invocation :=
  mkInv (i_chainId x) (i_txId x) k PKeyed (i_contractEngineMsgCh x) (i_sandboxMsgCh x).
Definition set_engineMsgs (l : list DockerVMMessage) (x : Invocation) : Invocation :=
  mkInv (i_chainId x) (i_txId x) (i_txKey x) (i_phase x) l (i_sandboxMsgCh x).
Definition set_sandboxMsgs (l : list DockerVMMessage) (x : Invocation) : Invocation :=
  mkInv (i_chainId x) (i_txId x) (i_txKey x) (i_phase x) (i_contractEngineMsgCh x) l.

(** A receiving goroutine holds the message it has to pass on, with the invocation it found. *)
Record node := mkNode {
  n_cm : ClientManager;
  n_rs : RuntimeService;
  n_inv : list Invocation;
  n_clients : list (nat * DockerVMMessage);
  n_streams : list (nat * DockerVMMessage);
}.

Definition newNode : node := mkNode NewClientManager NewRuntimeService [] [] [].

Inductive action :=
| ANew (chainId txId : string)
| AStep (i : nat) (request : DockerVMMessage)
| AReturn (i : nat)
| ATake (i : nat) (sandbox : bool)
| AClientRecv (msg : DockerVMMessage)
| AClientPass (c : nat)
| AStreamRecv (msg : DockerVMMessage)
| AStreamPass (c : nat)
| AByteCode (msg : DockerVMMessage)
| AClientSend (bytecode : bool)
| AConnect
| AStopped (id : Z)
| AListen.

(** Running an operation of the client manager or of the service; one that waits is no step. *)
Definition onCM {A} (m : M ClientManager A) (n : node) : option (A * node) :=
  match m (n_cm n) with Ret (a, cm) => Some (a, mkNode cm (n_rs n) (n_inv n) (n_clients n) (n_streams n)) | _ => None end.
Definition onRS {A} (m : M RuntimeService A) (n : node) : option (A * node) :=
  match m (n_rs n) with Ret (a, rs) => Some (a, mkNode (n_cm n) rs (n_inv n) (n_clients n) (n_streams n)) | _ => None end.
Definition updInv (i : nat) (f : Invocation → Invocation) (n : node) : node :=
  mkNode (n_cm n) (n_rs n) (alter f i (n_inv n)) (n_clients n) (n_streams n).

(** The next operation of an invocation on the tables, in the order of [Invoke]: the key, the test
    of the connections, the two registrations, the request, and the two deletions when the loop
    has ended. *)
Definition invStep (i : nat) (x : Invocation) (request : DockerVMMessage) (n : node) : option node :=
  match i_phase x with
  | PStart => '(k, n) ← onCM (GetUniqueTxKey (i_txId x)) n; Some (updInv i (set_key k) n)
  | PKeyed =>
    if negb (HasActiveConnections (n_cm n)) then Some (updInv i (set_phase PReturned) n)
    else '(_, n) ← onRS (RegisterSandboxMsgNotify (i_chainId x) (i_txKey x) i) n; Some (updInv i (set_phase PSandbox) n)
  | PSandbox => '(_, n) ← onCM (registerNotify (i_chainId x) (i_txKey x) i) n; Some (updInv i (set_phase PRegistered) n)
  | PRegistered => '(_, n) ← onCM (sendTx request) n; Some (updInv i (set_phase PRunning) n)
  | PRunning => None
  | PUnsandboxed => '(_, n) ← onCM (DeleteNotify (i_chainId x) (i_txKey x)) n; Some (updInv i (set_phase PReturned) n)
  | PReturned => None
  end.

(** The loop of [Invoke] ends, and the deferred deletions begin. *)
Definition invReturn (i : nat) (x : Invocation) (n : node) : option node :=
  match i_phase x with
  | PRunning => '(_, n) ← onRS (DeleteSandboxMsgNotify (i_chainId x) (i_txKey x)) n; Some (updInv i (set_phase PUnsandboxed) n)
  | _ => None
  end.

(** The channels of an invocation hold one message. *)
Definition act (a : action) (n : node) : option node :=
  match a with
  | ANew chainId txId =>
    Some (mkNode (n_cm n) (n_rs n) (n_inv n ++ [mkInv chainId txId "" PStart [] []]) (n_clients n) (n_streams n))
  | AStep i request => x ← n_inv n !! i; invStep i x request n
  | AReturn i => x ← n_inv n !! i; invReturn i x n
  | ATake i sandbox =>
    x ← n_inv n !! i;
    if decide (i_phase x ≠ PRunning) then None
    else Some (updInv i (if sandbox : bool then set_sandboxMsgs [] else set_engineMsgs []) n)
  | AClientRecv msg =>
    i ← receiveMsg (n_cm n) msg;
    Some (mkNode (n_cm n) (n_rs n) (n_inv n) (n_clients n ++ [(i, msg)]) (n_streams n))
  | AClientPass c =>
    '(i, msg) ← n_clients n !! c;
    x ← n_inv n !! i;
    if decide (i_contractEngineMsgCh x = [])
    then Some (mkNode (n_cm n) (n_rs n) (alter (set_engineMsgs [msg]) i (n_inv n)) (delete c (n_clients n)) (n_streams n))
    else None
  | AStreamRecv msg =>
    i ← recvMsg (n_rs n) msg;
    Some (mkNode (n_cm n) (n_rs n) (n_inv n) (n_clients n) (n_streams n ++ [(i, msg)]))
  | AStreamPass c =>
    '(i, msg) ← n_streams n !! c;
    x ← n_inv n !! i;
    if decide (i_sandboxMsgCh x = [])
    then Some (mkNode (n_cm n) (n_rs n) (alter (set_sandboxMsgs [msg]) i (n_inv n)) (n_clients n) (delete c (n_streams n)))
    else None
  | AByteCode msg => snd <$> onCM (PutByteCodeResp msg) n
  | AClientSend bytecode =>
    snd <$> onCM (modifyS (if bytecode : bool then λ cm, set_byteCodeRespCh (tail (cm_byteCodeRespCh cm)) cm
                           else λ cm, set_txSendCh (tail (cm_txSendCh cm)) cm)) n
  | AConnect => snd <$> onCM (j ← getNextIndex; connected j) n
  | AStopped id => snd <$> onCM (PutEvent id) n
  | AListen => snd <$> onCM listen n
  end.

Inductive reachable : node → Prop :=
| reach_new : reachable newNode
| reach_act a n n' : reachable n → act a n = Some n' → reachable n'.

Definition keyOf (x : Invocation) : string := ConstructNotifyMapKey [i_chainId x; i_txKey x].
Definition msgKey (m : DockerVMMessage) : string := ConstructNotifyMapKey [m_ChainId m; m_TxId m].

#[local] Arguments keyOf : simpl never.
#[local] Arguments msgKey : simpl never.

(** The invocations with an entry in each table. *)
Definition inEngineTable (p : phase) : bool := match p with PRegistered | PRunning | PUnsandboxed => true | _ => false end.
Definition inSandboxTable (p : phase) : bool := match p with PSandbox | PRegistered | PRunning => true | _ => false end.

(** The entries of a table: one for each invocation in the phases [f], under its key. *)
Definition table (t : gmap string nat) (l : list Invocation) (f : phase → bool) : Prop :=
  ∀ k i, t !! k = Some i ↔ ∃ x, l !! i = Some x ∧ f (i_phase x) = true ∧ k = keyOf x.

Record inv (n : node) : Prop := {
  inv_count : 0 ≤ cm_count (n_cm n) ≤ Z.of_nat (length (filter (λ x, i_phase x ≠ PStart) (n_inv n)));
  inv_key i x : n_inv n !! i = Some x → i_phase x ≠ PStart →
    ∃ k, i_txKey x = ConstructUniqueTxKey [i_txId x; itoa k] ∧ 1 ≤ k ≤ cm_count (n_cm n);
  inv_inj i j x y : n_inv n !! i = Some x → n_inv n !! j = Some y → i_phase x ≠ PStart → i_phase y ≠ PStart →
    keyOf x = keyOf y → i = j;
  inv_engine : table (cm_notify (n_cm n)) (n_inv n) inEngineTable;
  inv_sandbox : table (rs_sandboxMsgNotify (n_rs n)) (n_inv n) inSandboxTable;
  inv_clients i m : (i, m) ∈ n_clients n → engineType (m_Type m) = true ∧
    ∃ x, n_inv n !! i = Some x ∧ i_phase x ≠ PStart ∧ msgKey m = keyOf x;
  inv_streams i m : (i, m) ∈ n_streams n → sandboxType (m_Type m) = true ∧
    ∃ x, n_inv n !! i = Some x ∧ i_phase x ≠ PStart ∧ msgKey m = keyOf x;
  inv_msgs i x : n_inv n !! i = Some x →
    Forall (λ m, engineType (m_Type m) = true ∧ i_phase x ≠ PStart ∧ msgKey m = keyOf x) (i_contractEngineMsgCh x) ∧
    Forall (λ m, sandboxType (m_Type m) = true ∧ i_phase x ≠ PStart ∧ msgKey m = keyOf x) (i_sandboxMsgCh x);
}.

(** A table after the entry of invocation [i] with key [k0] has been set ([b]) or removed. *)
Definition entry (t t' : gmap string nat) (i : nat) (k0 : string) (b : bool) : Prop :=
  ∀ k j, t' !! k = Some j ↔ (j ≠ i ∧ t !! k = Some j) ∨ (j = i ∧ b = true ∧ k = k0).

Lemma entry_keep t l f i x b : table t l f → l !! i = Some x → f (i_phase x) = b → entry t t i (keyOf x) b.
Proof.
  intros Ht Hi <- k j. destruct (decide (j = i)) as [->|Hj]; [|naive_solver]. rewrite (Ht k i). split.
  - intros (y & Hy & Hp & ->). simplify_eq. naive_solver.
  - intros [[? _]|(_ & Hp & ->)]; [done|]. by exists x.
Qed.

Lemma entry_set t i k0 : (∀ k j, t !! k = Some j → k = k0 ↔ j = i) → entry t (<[k0 := i]> t) i k0 true.
Proof.
  intros Hu k j. rewrite lookup_insert_Some. split.
  - intros [[<- <-]|[Hk Hj]]; [naive_solver|]. left. split; [|done]. specialize (Hu k j Hj). naive_solver.
  - intros [[Hj Ht]|(-> & _ & ->)]; [|by left]. right. split; [|done]. specialize (Hu k j Ht). naive_solver.
Qed.

Lemma entry_delete t i k0 : (∀ k j, t !! k = Some j → k = k0 ↔ j = i) → entry t (delete k0 t) i k0 false.
Proof.
  intros Hu k j. rewrite lookup_delete_Some. split.
  - intros [Hk Hj]. left. split; [|done]. specialize (Hu k j Hj). naive_solver.
  - intros [[Hj Ht]|(_ & ? & _)]; [|done]. specialize (Hu k j Ht). naive_solver.
Qed.

(** In a table an entry belongs to its key alone. *)
Lemma table_unique n t f i x : inv n → table t (n_inv n) f → f PStart = false →
  n_inv n !! i = Some x → i_phase x ≠ PStart → ∀ k j, t !! k = Some j → k = keyOf x ↔ j = i.
Proof.
  intros Hn Ht Hf Hi Hp k j Hk. apply Ht in Hk as (y & Hy & Hpy & ->). split.
  - intros E. eapply inv_inj; eauto. congruence.
  - intros ->. by simplify_eq.
Qed.

Lemma alter_insert {A} (f : A → A) (l : list A) (i : nat) x : l !! i = Some x → alter f i l = <[i := f x]> l.
Proof.
  intros Hi. apply list_eq. intros j. destruct (decide (j = i)) as [->|Hj].
  - rewrite list_lookup_alter_eq, list_lookup_insert_eq, Hi; [done|]. by eapply lookup_lt_Some.
  - by rewrite list_lookup_alter_ne, list_lookup_insert_ne.
Qed.

Lemma split_at {A} (l : list A) (i : nat) x : l !! i = Some x →
  ∃ l1 l2, l = l1 ++ x :: l2 ∧ ∀ y, <[i := y]> l = l1 ++ y :: l2.
Proof.
  intros Hi. exists (take i l), (drop (S i) l). split; [by rewrite take_drop_middle|].
  intros y. rewrite insert_take_drop; [done|]. by eapply lookup_lt_Some.
Qed.

(** An update of one invocation that keeps its key. *)
Lemma inv_update n i x x' cm' rs' cl st :
  inv n → n_inv n !! i = Some x → i_phase x ≠ PStart → i_phase x' ≠ PStart →
  i_chainId x' = i_chainId x → i_txId x' = i_txId x → i_txKey x' = i_txKey x →
  cm_count cm' = cm_count (n_cm n) →
  entry (cm_notify (n_cm n)) (cm_notify cm') i (keyOf x) (inEngineTable (i_phase x')) →
  entry (rs_sandboxMsgNotify (n_rs n)) (rs_sandboxMsgNotify rs') i (keyOf x) (inSandboxTable (i_phase x')) →
  (∀ p, p ∈ cl → p ∈ n_clients n) → (∀ p, p ∈ st → p ∈ n_streams n) →
  Forall (λ m, engineType (m_Type m) = true ∧ msgKey m = keyOf x) (i_contractEngineMsgCh x') →
  Forall (λ m, sandboxType (m_Type m) = true ∧ msgKey m = keyOf x) (i_sandboxMsgCh x') →
  inv (mkNode cm' rs' (<[i := x']> (n_inv n)) cl st).
Proof.
  intros Hn Hi Hp Hp' Ec Et Ek Ecnt Hent Hent' Hcl Hst Hm1 Hm2.
  assert (i < length (n_inv n))%nat as Hlt by by eapply lookup_lt_Some.
  assert (keyOf x' = keyOf x) as EK by (unfold keyOf; congruence).
  assert (∀ j y, <[i := x']> (n_inv n) !! j = Some y → i_phase y ≠ PStart →
    ∃ y0, n_inv n !! j = Some y0 ∧ i_phase y0 ≠ PStart ∧ keyOf y0 = keyOf y ∧ i_txKey y0 = i_txKey y ∧ i_txId y0 = i_txId y) as Hback.
  { intros j y Hy Hpy. apply list_lookup_insert_Some in Hy as [(<- & <- & _)|[Hij Hy]]; [exists x|exists y]; naive_solver. }
  assert (∀ j y, n_inv n !! j = Some y → i_phase y ≠ PStart →
    ∃ y', <[i := x']> (n_inv n) !! j = Some y' ∧ i_phase y' ≠ PStart ∧ keyOf y' = keyOf y) as Hfwd.
  { intros j y Hy Hpy. destruct (decide (i = j)) as [<-|Hij].
    - exists x'. rewrite list_lookup_insert_eq by done. simplify_eq. naive_solver.
    - exists y. by rewrite list_lookup_insert_ne. }
  assert (∀ t t' f, f PStart = false → table t (n_inv n) f → entry t t' i (keyOf x) (f (i_phase x')) →
    table t' (<[i := x']> (n_inv n)) f) as Htab.
  { intros t t' f Hf Ht He k j. rewrite (He k j), (Ht k j). split.
    - intros [(Hj & y & Hy & Hfy & ->)|(-> & Hfx & ->)].
      + exists y. by rewrite list_lookup_insert_ne.
      + exists x'. by rewrite list_lookup_insert_eq.
    - intros (y & Hy & Hfy & ->). apply list_lookup_insert_Some in Hy as [(<- & <- & _)|[Hij Hy]]; naive_solver. }
  split; cbn.
  - rewrite Ecnt. destruct (inv_count n Hn) as [? Hc]. split; [done|]. etrans; [exact Hc|]. apply inj_le.
    destruct (split_at _ _ _ Hi) as (l1 & l2 & E & ->). rewrite E.
    rewrite !filter_app, !filter_cons, !length_app. rewrite !decide_True by done. cbn. lia.
  - rewrite Ecnt. intros j y Hy Hpy. destruct (Hback j y Hy Hpy) as (y0 & Hy0 & Hp0 & _ & <- & <-). by eapply inv_key.
  - intros j j' y y' Hy Hy' Hpy Hpy' E. destruct (Hback j y Hy Hpy) as (z & ? & ? & ? & _),
      (Hback j' y' Hy' Hpy') as (z' & ? & ? & ? & _). apply (inv_inj n Hn j j' z z'); [done..|congruence].
  - eapply (Htab _ _ inEngineTable); [done|apply (inv_engine n Hn)|done].
  - eapply (Htab _ _ inSandboxTable); [done|apply (inv_sandbox n Hn)|done].
  - intros j m Hin%Hcl. destruct (inv_clients n Hn j m Hin) as (Hty & y & Hy & Hpy & ->). split; [done|].
    destruct (Hfwd j y Hy Hpy) as (y' & ? & ? & ?). by exists y'.
  - intros j m Hin%Hst. destruct (inv_streams n Hn j m Hin) as (Hty & y & Hy & Hpy & ->). split; [done|].
    destruct (Hfwd j y Hy Hpy) as (y' & ? & ? & ?). by exists y'.
  - intros j y Hy. apply list_lookup_insert_Some in Hy as [(<- & <- & _)|[Hij Hy]]; [|by apply (inv_msgs n Hn j)].
    rewrite EK. split; [eapply Forall_impl; [exact Hm1|]|eapply Forall_impl; [exact Hm2|]]; naive_solver.
Qed.

(** Changes outside the tables. *)
Lemma inv_frame n cm' : inv n → cm_count cm' = cm_count (n_cm n) → cm_notify cm' = cm_notify (n_cm n) →
  inv (mkNode cm' (n_rs n) (n_inv n) (n_clients n) (n_streams n)).
Proof. intros [] E1 E2. split; cbn; rewrite ?E1, ?E2; done. Qed.

Lemma inv_new n chainId txId : inv n →
  inv (mkNode (n_cm n) (n_rs n) (n_inv n ++ [mkInv chainId txId "" PStart [] []]) (n_clients n) (n_streams n)).
Proof.
  intros Hn. set (x0 := mkInv chainId txId "" PStart [] []).
  assert (∀ j y, (n_inv n ++ [x0]) !! j = Some y → y = x0 ∨ n_inv n !! j = Some y) as Hback.
  { intros j y [?|[_ ?]]%lookup_app_Some; [by right|]. left. by apply list_lookup_singleton_Some in H as [_ ->]. }
  assert (∀ j y, n_inv n !! j = Some y → (n_inv n ++ [x0]) !! j = Some y) as Hfwd by (intros; by apply lookup_app_l_Some).
  assert (∀ t f, f PStart = false → table t (n_inv n) f → table t (n_inv n ++ [x0]) f) as Htab.
  { intros t f Hf Ht k j. rewrite (Ht k j). split; [naive_solver|]. intros (y & Hy & Hfy & ->).
    destruct (Hback j y Hy) as [->|?]; [|by eauto]. cbn in Hfy. congruence. }
  split; cbn.
  - rewrite filter_app, length_app, filter_cons, decide_False by (cbn; naive_solver). destruct (inv_count n Hn). cbn. lia.
  - intros j y Hy Hp. destruct (Hback j y Hy) as [->|?]; [done|by eapply inv_key].
  - intros j j' y y' Hy Hy' Hp Hp'. destruct (Hback j y Hy) as [->|?]; [done|]. destruct (Hback j' y' Hy') as [->|?]; [done|].
    by eapply inv_inj.
  - by apply Htab, inv_engine.
  - by apply Htab, inv_sandbox.
  - intros j m Hin. destruct (inv_clients n Hn j m Hin) as (? & y & ? & ? & ?). eauto 6.
  - intros j m Hin. destruct (inv_streams n Hn j m Hin) as (? & y & ? & ? & ?). eauto 6.
  - intros j y Hy. destruct (Hback j y Hy) as [->|?]; [by split|by eapply inv_msgs].
Qed.

Lemma notifyKey_pieces c t k : ConstructNotifyMapKey [c; ConstructUniqueTxKey [t; k]] = (c +:+ String hash t) +:+ String hash k.
Proof. unfold ConstructNotifyMapKey, ConstructUniqueTxKey. cbn. by rewrite <-str_app_assoc. Qed.

(** A new key differs from all the others, whatever characters chain and transaction have. *)
Lemma inv_setkey n i x : inv n → n_inv n !! i = Some x → i_phase x = PStart →
  Z.of_nat (length (n_inv n)) < 2 ^ 64 →
  inv (mkNode (set_count (u64_add (cm_count (n_cm n)) 1) (n_cm n)) (n_rs n)
    (<[i := set_key (ConstructUniqueTxKey [i_txId x; itoa (u64_add (cm_count (n_cm n)) 1)]) x]> (n_inv n))
    (n_clients n) (n_streams n)).
Proof.
  intros Hn Hi Hp Hlen. destruct (inv_count n Hn) as [Hc0 Hc1]. set (c := cm_count (n_cm n)) in *.
  assert (Z.of_nat (length (filter (λ x, i_phase x ≠ PStart) (n_inv n))) < Z.of_nat (length (n_inv n))) as Hf.
  { destruct (split_at _ _ _ Hi) as (l1 & l2 & -> & _).
    rewrite filter_app, filter_cons, decide_False by naive_solver. rewrite !length_app. cbn.
    pose proof (length_filter (λ x, i_phase x ≠ PStart) l1). pose proof (length_filter (λ x, i_phase x ≠ PStart) l2). lia. }
  assert (u64_add c 1 = c + 1) as -> by (unfold u64_add; apply u64_small; unfold u64_max; lia).
  set (x' := set_key _ x). assert (i < length (n_inv n))%nat as Hlt by by eapply lookup_lt_Some.
  assert (∀ j y, <[i := x']> (n_inv n) !! j = Some y → i_phase y ≠ PStart →
    (j = i ∧ y = x') ∨ (j ≠ i ∧ n_inv n !! j = Some y)) as Hback.
  { intros j y [(<- & <- & _)|[Hij Hy]]%list_lookup_insert_Some Hpy; naive_solver. }
  assert (∀ j y, n_inv n !! j = Some y → i_phase y ≠ PStart → keyOf y ≠ keyOf x') as Hfresh.
  { intros j y Hy Hpy E. destruct (inv_key n Hn j y Hy Hpy) as (k & Ek & Hk). unfold keyOf in E. rewrite Ek in E.
    cbn [i_chainId i_txKey x' set_key] in E. rewrite !notifyKey_pieces in E.
    apply last_piece_inj in E as [_ E]; [|apply itoa_no_hash..]. apply (inj itoa) in E. fold c in Hk. lia. }
  assert (∀ j y, n_inv n !! j = Some y → i_phase y ≠ PStart → <[i := x']> (n_inv n) !! j = Some y) as Hfwd.
  { intros j y Hy Hpy. rewrite list_lookup_insert_ne; [done|]. intros ->. by simplify_eq. }
  assert (∀ t f, f PStart = false → f PKeyed = false → table t (n_inv n) f → table t (<[i := x']> (n_inv n)) f) as Htab.
  { intros t f Hf1 Hf2 Ht k j. rewrite (Ht k j). split; intros (y & Hy & Hfy & ->).
    - exists y. split_and!; [|done..]. apply Hfwd; [done|]. congruence.
    - destruct (Hback j y Hy) as [[-> ->]|[_ ?]]; [congruence| |by eauto]. cbn in Hfy. congruence. }
  split; cbn [n_cm n_rs n_inv n_clients n_streams set_count cm_count cm_notify].
  - destruct (split_at _ _ _ Hi) as (l1 & l2 & El & ->). rewrite El, filter_app, filter_cons, decide_False, length_app in Hc1
      by naive_solver.
    rewrite filter_app, filter_cons, decide_True by done. rewrite length_app. cbn [length]. lia.
  - intros j y Hy Hpy. destruct (Hback j y Hy Hpy) as [[-> ->]|[_ Hy']]; [exists (c + 1); split; [done|lia]|].
    destruct (inv_key n Hn j y Hy' Hpy) as (k & ? & ?). exists k. fold c in H0. split; [done|lia].
  - intros j j' y y' Hy Hy' Hpy Hpy' E.
    destruct (Hback j y Hy Hpy) as [[-> ->]|[_ Hy0]], (Hback j' y' Hy' Hpy') as [[-> ->]|[_ Hy0']]; [done| | |].
    + by destruct (Hfresh j' y').
    + by destruct (Hfresh j y).
    + by eapply inv_inj.
  - apply Htab; [done..|apply inv_engine, Hn].
  - apply Htab; [done..|apply inv_sandbox, Hn].
  - intros j m Hin. destruct (inv_clients n Hn j m Hin) as (? & y & ? & ? & ?). eauto 6.
  - intros j m Hin. destruct (inv_streams n Hn j m Hin) as (? & y & ? & ? & ?). eauto 6.
  - intros j y [(<- & <- & _)|[Hij Hy]]%list_lookup_insert_Some; [|by eapply inv_msgs].
    destruct (inv_msgs n Hn i x Hi) as [H1 H2]. cbn. split.
    + destruct (i_contractEngineMsgCh x); [done|]. apply list.Forall_cons in H1. naive_solver.
    + destruct (i_sandboxMsgCh x); [done|]. apply list.Forall_cons in H2. naive_solver.
Qed.

Lemma inv_receive n i msg : inv n → receiveMsg (n_cm n) msg = Some i →
  inv (mkNode (n_cm n) (n_rs n) (n_inv n) (n_clients n ++ [(i, msg)]) (n_streams n)).
Proof.
  intros Hn Hr. unfold receiveMsg in Hr. destruct (engineType (m_Type msg)) eqn:Ety; [|done].
  apply (inv_engine n Hn) in Hr as (x & Hx & Hp & Hk).
  destruct Hn as [? ? ? ? ? Hcl ? ?]. split; try done. cbn.
  intros j m [?|Hin]%elem_of_app; [by apply Hcl|]. apply list_elem_of_singleton in Hin. simplify_eq.
  split; [done|]. exists x. split_and!; [done| |done]. intros E. by rewrite E in Hp.
Qed.

Lemma inv_recv n i msg : inv n → recvMsg (n_rs n) msg = Some i →
  inv (mkNode (n_cm n) (n_rs n) (n_inv n) (n_clients n) (n_streams n ++ [(i, msg)])).
Proof.
  intros Hn Hr. unfold recvMsg in Hr. destruct (sandboxType (m_Type msg)) eqn:Ety; [|done].
  apply (inv_sandbox n Hn) in Hr as (x & Hx & Hp & Hk).
  destruct Hn as [? ? ? ? ? ? Hst ?]. split; try done. cbn.
  intros j m [?|Hin]%elem_of_app; [by apply Hst|]. apply list_elem_of_singleton in Hin. simplify_eq.
  split; [done|]. exists x. split_and!; [done| |done]. intros E. by rewrite E in Hp.
Qed.

(** The messages an invocation already has, without the remark on its phase. *)
Lemma msgs_key n i x : inv n → n_inv n !! i = Some x →
  Forall (λ m, engineType (m_Type m) = true ∧ msgKey m = keyOf x) (i_contractEngineMsgCh x) ∧
  Forall (λ m, sandboxType (m_Type m) = true ∧ msgKey m = keyOf x) (i_sandboxMsgCh x).
Proof.
  intros Hn Hi. destruct (inv_msgs n Hn i x Hi) as [H1 H2].
  split; [eapply Forall_impl; [exact H1|]|eapply Forall_impl; [exact H2|]]; naive_solver.
Qed.

(** A step that leaves the tables and the phase alone. *)
Lemma inv_msgs_update n i x x' cl st :
  inv n → n_inv n !! i = Some x → i_phase x ≠ PStart → i_phase x' = i_phase x →
  i_chainId x' = i_chainId x → i_txId x' = i_txId x → i_txKey x' = i_txKey x →
  (∀ p, p ∈ cl → p ∈ n_clients n) → (∀ p, p ∈ st → p ∈ n_streams n) →
  Forall (λ m, engineType (m_Type m) = true ∧ msgKey m = keyOf x) (i_contractEngineMsgCh x') →
  Forall (λ m, sandboxType (m_Type m) = true ∧ msgKey m = keyOf x) (i_sandboxMsgCh x') →
  inv (mkNode (n_cm n) (n_rs n) (<[i := x']> (n_inv n)) cl st).
Proof.
  intros Hn Hi Hp Ep. intros. apply (inv_update n i x); try done; rewrite ?Ep; try done.
  - by apply (entry_keep _ (n_inv n) inEngineTable); [apply inv_engine| |].
  - by apply (entry_keep _ (n_inv n) inSandboxTable); [apply inv_sandbox| |].
Qed.

(** A change of phase, with the table entry the operation writes. *)
Lemma inv_phase n i x p cm' rs' :
  inv n → n_inv n !! i = Some x → i_phase x ≠ PStart → p ≠ PStart → cm_count cm' = cm_count (n_cm n) →
  entry (cm_notify (n_cm n)) (cm_notify cm') i (keyOf x) (inEngineTable p) →
  entry (rs_sandboxMsgNotify (n_rs n)) (rs_sandboxMsgNotify rs') i (keyOf x) (inSandboxTable p) →
  inv (mkNode cm' rs' (<[i := set_phase p x]> (n_inv n)) (n_clients n) (n_streams n)).
Proof. intros Hn Hi ? ? ? ? ?. apply (inv_update n i x); try done; by apply (msgs_key n i x). Qed.

Lemma keep_engine n i x b : inv n → n_inv n !! i = Some x → inEngineTable (i_phase x) = b →
  entry (cm_notify (n_cm n)) (cm_notify (n_cm n)) i (keyOf x) b.
Proof. intros. by apply (entry_keep _ (n_inv n) inEngineTable); [apply inv_engine| |]. Qed.

Lemma keep_sandbox n i x b : inv n → n_inv n !! i = Some x → inSandboxTable (i_phase x) = b →
  entry (rs_sandboxMsgNotify (n_rs n)) (rs_sandboxMsgNotify (n_rs n)) i (keyOf x) b.
Proof. intros. by apply (entry_keep _ (n_inv n) inSandboxTable); [apply inv_sandbox| |]. Qed.

Lemma DeleteNotify_spec c t cm :
  DeleteNotify c t cm = Ret (bool_decide (is_Some (cm_notify cm !! ConstructNotifyMapKey [c; t])),
                             set_notify (delete (ConstructNotifyMapKey [c; t])) cm).
Proof.
  unfold DeleteNotify, mbind, M_bind, getS, putS, mret, M_ret. destruct (cm_notify cm !! _) eqn:E; [done|].
  unfold set_notify. rewrite delete_id by done. by destruct cm.
Qed.

Lemma DeleteSandbox_spec c t rs :
  DeleteSandboxMsgNotify c t rs = Ret (bool_decide (is_Some (rs_sandboxMsgNotify rs !! ConstructNotifyMapKey [c; t])),
                             set_sandboxNotify (delete (ConstructNotifyMapKey [c; t])) rs).
Proof.
  unfold DeleteSandboxMsgNotify, mbind, M_bind, getS, putS, mret, M_ret. destruct (rs_sandboxMsgNotify rs !! _) eqn:E; [done|].
  unfold set_sandboxNotify. rewrite delete_id by done. by destruct rs.
Qed.

Lemma inv_step n i x request n' : inv n → n_inv n !! i = Some x → Z.of_nat (length (n_inv n)) < 2 ^ 64 →
  invStep i x request n = Some n' → inv n'.
Proof.
  intros Hn Hi Hlen. unfold invStep. destruct (i_phase x) eqn:Ep.
  - cbn. intros [= <-]. unfold updInv. cbn. rewrite (alter_insert _ _ _ _ Hi). by apply inv_setkey.
  - assert (i_phase x ≠ PStart) as Hp by congruence.
    pose proof (table_unique n _ inSandboxTable i x Hn (inv_sandbox n Hn) eq_refl Hi Hp) as Hus.
    assert (entry (cm_notify (n_cm n)) (cm_notify (n_cm n)) i (keyOf x) false) as He.
    { apply keep_engine; [done..|by rewrite Ep]. }
    case_match; intros [= <-]; unfold updInv; cbn; rewrite (alter_insert _ _ _ _ Hi); apply inv_phase; try done.
    + apply keep_sandbox; [done..|by rewrite Ep].
    + by apply entry_set.
  - assert (i_phase x ≠ PStart) as Hp by congruence.
    pose proof (table_unique n _ inEngineTable i x Hn (inv_engine n Hn) eq_refl Hi Hp) as Hue.
    cbn. intros [= <-]; unfold updInv; cbn; rewrite (alter_insert _ _ _ _ Hi); apply inv_phase; try done.
    + by apply entry_set.
    + apply keep_sandbox; [done..|by rewrite Ep].
  - unfold onCM, sendTx, mbind, M_bind, getS, putS, block. case_decide; [|done]. cbn.
    intros [= <-]; unfold updInv; cbn; rewrite (alter_insert _ _ _ _ Hi); apply inv_phase; try done; [congruence|..].
    + apply keep_engine; [done..|by rewrite Ep].
    + apply keep_sandbox; [done..|by rewrite Ep].
  - done.
  - assert (i_phase x ≠ PStart) as Hp by congruence.
    pose proof (table_unique n _ inEngineTable i x Hn (inv_engine n Hn) eq_refl Hi Hp) as Hue.
    unfold onCM. rewrite DeleteNotify_spec. cbn.
    intros [= <-]; unfold updInv; cbn; rewrite (alter_insert _ _ _ _ Hi); apply inv_phase; try done.
    + by apply entry_delete.
    + apply keep_sandbox; [done..|by rewrite Ep].
  - done.
Qed.

Lemma inv_return n i x n' : inv n → n_inv n !! i = Some x → invReturn i x n = Some n' → inv n'.
Proof.
  intros Hn Hi. unfold invReturn. destruct (i_phase x) eqn:Ep; try done.
  assert (i_phase x ≠ PStart) as Hp by congruence.
  pose proof (table_unique n _ inSandboxTable i x Hn (inv_sandbox n Hn) eq_refl Hi Hp) as Hus.
  unfold onRS. rewrite DeleteSandbox_spec. cbn.
  intros [= <-]; unfold updInv; cbn; rewrite (alter_insert _ _ _ _ Hi); apply inv_phase; try done.
  - apply keep_engine; [done..|by rewrite Ep].
  - by apply entry_delete.
Qed.

Lemma elem_of_delete {A} (l : list A) (c : nat) q : q ∈ delete c l → q ∈ l.
Proof.
  intros (k & Hq)%list_elem_of_lookup_1. destruct (decide (k < c)%nat).
  - rewrite list_lookup_delete_lt in Hq by done. by eapply list_elem_of_lookup_2.
  - rewrite list_lookup_delete_ge in Hq by lia. by eapply list_elem_of_lookup_2.
Qed.

(** What a client or a stream passes on was meant for this invocation. *)
Lemma inv_pass_client n c i msg x : inv n → n_clients n !! c = Some (i, msg) → n_inv n !! i = Some x →
  inv (mkNode (n_cm n) (n_rs n) (alter (set_engineMsgs [msg]) i (n_inv n)) (delete c (n_clients n)) (n_streams n)).
Proof.
  intros Hn Hc Hi. rewrite (alter_insert _ _ _ _ Hi).
  destruct (inv_clients n Hn i msg) as (Hty & y & Hy & Hp & Hk); [by eapply list_elem_of_lookup_2|]. simplify_eq.
  apply (inv_msgs_update n i x); try done.
  - intros q. apply elem_of_delete.
  - by apply Forall_singleton.
  - by apply (msgs_key n i x).
Qed.

Lemma inv_pass_stream n c i msg x : inv n → n_streams n !! c = Some (i, msg) → n_inv n !! i = Some x →
  inv (mkNode (n_cm n) (n_rs n) (alter (set_sandboxMsgs [msg]) i (n_inv n)) (n_clients n) (delete c (n_streams n))).
Proof.
  intros Hn Hc Hi. rewrite (alter_insert _ _ _ _ Hi).
  destruct (inv_streams n Hn i msg) as (Hty & y & Hy & Hp & Hk); [by eapply list_elem_of_lookup_2|]. simplify_eq.
  apply (inv_msgs_update n i x); try done.
  - intros q. apply elem_of_delete.
  - by apply (msgs_key n i x).
  - by apply Forall_singleton.
Qed.

(** Operations of the client manager outside the table of notifications. *)
Lemma inv_onCM {A} (m : M ClientManager A) n r :
  preserves (λ c c', cm_count c' = cm_count c ∧ cm_notify c' = cm_notify c) m →
  inv n → snd <$> onCM m n = Some r → inv r.
Proof.
  intros Hm Hn. unfold onCM. destruct (m (n_cm n)) as [[a cm']| |] eqn:E; [|done..]. intros [= <-].
  destruct (Hm _ _ _ E). by apply inv_frame.
Qed.

#[local] Instance cm_frame_pre : PreOrder (λ c c', cm_count c' = cm_count c ∧ cm_notify c' = cm_notify c).
Proof. split; [done|]. intros c1 c2 c3 [] []. split; congruence. Qed.

Lemma inv_act a n n' : inv n → Z.of_nat (length (n_inv n)) < 2 ^ 64 → act a n = Some n' → inv n'.
Proof.
  intros Hn Hlen. destruct a as [c t|i rq|i|i sb|msg|c|msg|c|msg|bc| |id|]; cbn [act].
  - intros [= <-]. by apply inv_new.
  - destruct (n_inv n !! i) as [x|] eqn:Hi; [|done]. by apply inv_step.
  - destruct (n_inv n !! i) as [x|] eqn:Hi; [|done]. by apply inv_return.
  - destruct (n_inv n !! i) as [x|] eqn:Hi; [|done]. cbn. case_decide as Hp; [done|].
    intros [= <-]. unfold updInv. rewrite (alter_insert _ _ _ _ Hi). destruct (msgs_key n i x Hn Hi).
    apply (inv_msgs_update n i x); try done; try congruence; by destruct sb.
  - destruct (receiveMsg (n_cm n) msg) as [i|] eqn:Hr; [|done]. intros [= <-]. by apply inv_receive.
  - destruct (n_clients n !! c) as [[i msg]|] eqn:Hc; [|done]. cbn.
    destruct (n_inv n !! i) as [x|] eqn:Hi; [|done]. cbn. case_decide; [|done]. intros [= <-]. by eapply inv_pass_client.
  - destruct (recvMsg (n_rs n) msg) as [i|] eqn:Hr; [|done]. intros [= <-]. by apply inv_recv.
  - destruct (n_streams n !! c) as [[i msg]|] eqn:Hc; [|done]. cbn.
    destruct (n_inv n !! i) as [x|] eqn:Hi; [|done]. cbn. case_decide; [|done]. intros [= <-]. by eapply inv_pass_stream.
  - apply inv_onCM; [|done]. intros cm u cm' H. unfold PutByteCodeResp in H. minv. done.
  - apply inv_onCM; [|done]. apply preserves_modify. by destruct bc.
  - apply inv_onCM; [|done]. intros cm u cm' H. unfold getNextIndex, connected in H. minv. done.
  - apply inv_onCM; [|done]. intros cm u cm' H. unfold PutEvent in H. minv. done.
  - apply inv_onCM; [|done]. intros cm u cm' H. unfold listen, dropConnection in H. minv. done.
Qed.

Lemma act_length a n n' : act a n = Some n' → (length (n_inv n) ≤ length (n_inv n'))%nat.
Proof.
  assert (∀ A (m : M ClientManager A) r, snd <$> onCM m n = Some r → n_inv r = n_inv n) as HCM.
  { intros A m r. unfold onCM. by destruct (m (n_cm n)) as [[]| |]; [intros [= <-]|..]. }
  destruct a as [c t|i rq|i|i sb|msg|c|msg|c|msg|bc| |id|]; cbn [act];
    try (intros H; apply HCM in H; by rewrite H).
  - intros [= <-]. cbn. rewrite length_app. lia.
  - destruct (n_inv n !! i); [|done]. cbn [mbind option_bind]. unfold invStep, onCM, onRS. 
    repeat case_match; intros; simplify_eq; cbn in *; simplify_eq; cbn; rewrite ?length_alter; done.
  - destruct (n_inv n !! i); [|done]. cbn [mbind option_bind]. unfold invReturn, onRS.
    repeat case_match; intros; simplify_eq; cbn in *; simplify_eq; cbn; rewrite ?length_alter; done.
  - destruct (n_inv n !! i); [|done]. cbn. case_decide; [done|]. intros [= <-]. cbn. by rewrite length_alter.
  - destruct (receiveMsg _ _); [|done]. by intros [= <-].
  - destruct (n_clients n !! c) as [[i msg]|]; [|done]. cbn. destruct (n_inv n !! i); [|done]. cbn. case_decide; [|done].
    intros [= <-]. cbn. by rewrite length_alter.
  - destruct (recvMsg _ _); [|done]. by intros [= <-].
  - destruct (n_streams n !! c) as [[i msg]|]; [|done]. cbn. destruct (n_inv n !! i); [|done]. cbn. case_decide; [|done].
    intros [= <-]. cbn. by rewrite length_alter.
Qed.

Lemma inv_reachable n : reachable n → Z.of_nat (length (n_inv n)) < 2 ^ 64 → inv n.
Proof.
  induction 1 as [|a n n' _ IH Ha]; intros Hlen.
  - split; try (cbn; done); cbn.
    + intros k i. rewrite lookup_empty. naive_solver.
    + intros k i. rewrite lookup_empty. naive_solver.
    + by intros i m ?%not_elem_of_nil.
    + by intros i m ?%not_elem_of_nil.
  - apply act_length in Ha as ?. eapply inv_act; [apply IH; lia|lia|done].
Qed.

(** The part before the first separator is determined. *)
Lemma first_piece_inj a b s t :
  has_char hash a = false → has_char hash b = false → a +:+ String hash s = b +:+ String hash t → a = b ∧ s = t.
Proof.
  revert b. induction a as [|x a IH]; intros [|y b]; strsimpl.
  - by intros _ _ [= ->].
  - intros _ [Hy _]%orb_false_iff [= <- _]. by rewrite Ascii.eqb_refl in Hy.
  - intros [Hx _]%orb_false_iff _ [= -> _]. by rewrite Ascii.eqb_refl in Hx.
  - intros [_ Ha]%orb_false_iff [_ Hb]%orb_false_iff [= -> E]. by destruct (IH b Ha Hb E) as [-> ->].
Qed.

(** [C10] Messages reach their own invocation and no other. In every reachable state of the chain
    node, however the invocations, the clients and the streams interleave: two invocations never
    have the same key, whatever the transaction ids; a message in a channel of an invocation has
    a type this channel is meant for and carries the key of this invocation (so its chain and
    transaction, when chain ids have no separator); and an invocation that has returned has no
    entry left in the tables. *)
Theorem messages_reach_own_invocation n :
  reachable n → Z.of_nat (length (n_inv n)) < 2 ^ 64 →
  (∀ i j x y, n_inv n !! i = Some x → n_inv n !! j = Some y → i_phase x ≠ PStart → i_phase y ≠ PStart →
     keyOf x = keyOf y → i = j) ∧
  (∀ i x m, n_inv n !! i = Some x → m ∈ i_contractEngineMsgCh x ++ i_sandboxMsgCh x →
     (if decide (m ∈ i_contractEngineMsgCh x) then engineType (m_Type m) else sandboxType (m_Type m)) = true ∧
     msgKey m = keyOf x ∧
     (has_char hash (m_ChainId m) = false → has_char hash (i_chainId x) = false →
      m_ChainId m = i_chainId x ∧ m_TxId m = i_txKey x)) ∧
  (∀ i x, n_inv n !! i = Some x → i_phase x = PReturned →
     cm_notify (n_cm n) !! keyOf x = None ∧ rs_sandboxMsgNotify (n_rs n) !! keyOf x = None).
Proof.
  intros Hr Hlen. pose proof (inv_reachable n Hr Hlen) as Hn. split_and!.
  - apply (inv_inj n Hn).
  - intros i x m Hi Hm. destruct (inv_msgs n Hn i x Hi) as [H1 H2]. rewrite Forall_forall in H1, H2.
    assert (msgKey m = keyOf x) as Hk by (apply elem_of_app in Hm as [Hm|Hm]; naive_solver).
    split_and!; [|done|].
    + case_decide; [by apply H1|]. apply elem_of_app in Hm as [Hm|Hm]; [done|by apply H2].
    + intros Hc1 Hc2. by apply first_piece_inj in Hk.
  - intros i x Hi Hp. assert (i_phase x ≠ PStart) as Hs by congruence.
    split; destruct (_ !! keyOf x) as [j|] eqn:E; try done; exfalso.
    + apply (inv_engine n Hn) in E as (y & Hy & Hpy & Hk).
      assert (j = i) as -> by (eapply (inv_inj n Hn); [exact Hy|exact Hi|intros Ey; by rewrite Ey in Hpy|done|done]).
      simplify_eq. by rewrite Hp in Hpy.
    + apply (inv_sandbox n Hn) in E as (y & Hy & Hpy & Hk).
      assert (j = i) as -> by (eapply (inv_inj n Hn); [exact Hy|exact Hi|intros Ey; by rewrite Ey in Hpy|done|done]).
      simplify_eq. by rewrite Hp in Hpy.
Qed.

Fixpoint runActs (l : list action) (n : node) : option node :=
  match l with
  | [] => Some n
  | a :: l' => n' ← act a n; runActs l' n'
  end.

Lemma runActs_reachable l n n' : reachable n → runActs l n = Some n' → reachable n'.
Proof.
  revert n. induction l as [|a l IH]; intros n Hr; cbn; [by intros [= <-]|].
  destruct (act a n) as [n1|] eqn:Ha; [|done]. cbn. apply IH. by eapply reach_act.
Qed.

(** Two invocations of the same transaction; a state request for the second one arrives. *)
Definition sampleRequest : DockerVMMessage := mkMessage "tx#2" GET_STATE_REQUEST None None None None "chain1" [].

Definition sampleActs : list action :=
  [AConnect; ANew "chain1" "tx"; ANew "chain1" "tx"; AStep 0 emptyMessage; AStep 1 emptyMessage;
   AStep 1 emptyMessage; AStep 0 emptyMessage; AStep 0 emptyMessage; AStep 1 emptyMessage;
   AStep 0 emptyMessage; AStep 1 emptyMessage; AStreamRecv sampleRequest; AStreamPass 0].

Definition sampleNode : node := Eval vm_compute in default newNode (runActs sampleActs newNode).

Lemma messages_reach_own_invocation_witness :
  ∃ x, n_inv sampleNode !! 1%nat = Some x ∧ i_sandboxMsgCh x = [sampleRequest] ∧ i_txKey x = "tx#2".
Proof.
  assert (reachable sampleNode) as Hr.
  { apply (runActs_reachable sampleActs newNode); [constructor|]. vm_compute. reflexivity. }
  assert (Z.of_nat (length (n_inv sampleNode)) < 2 ^ 64) as Hl by (vm_compute; reflexivity).
  destruct (messages_reach_own_invocation sampleNode Hr Hl) as (_ & Hm & _).
  eexists. split; [reflexivity|]. split; [reflexivity|].
  symmetry. apply (Hm 1%nat _ sampleRequest eq_refl); [|reflexivity..]. apply list_elem_of_here.
Defined.
End Clients.
