(* ===== verification/SimContext.v ===== *)
(** * The chain's side of a transaction: what the handlers of system calls rely on

    The handlers of runtime_handler.go work on the transaction's simulation context, an object
    of the chain behind the interface [protocol.TxSimContext], and on a few functions of the
    chain's other modules. They are not part of this repository: a class lists what the handlers
    call, on an abstract state, and a second class states the documented behaviour the theorems
    use. [sampleSim] is a context with this behaviour, for the witnesses. *)

From S2P Require Import Prelude Messages Gas.

Module SimContext.

(** The text of an error: [err.Error()]. *)
Fixpoint errorText (e : gerr) : string :=
  match e with
  | Err s => s
  | Wrap s e' => s +:+ errorText e'
  end.

(** [commonPb.Contract], [commonPb.ContractResult], [protocol.ExecOrderTxType]. *)
Record Contract := mkContract { ct_Name : string; ct_Version : string }.

Record ContractResult := mkResult {
  cr_Code : Z;
  cr_Result : string;
  cr_Message : string;
  cr_GasUsed : Z;
  cr_ContractEvent : list Gas.ContractEvent;
}.

Inductive ExecOrderTxType := TxTypeNormal | TxTypeIterator | TxTypeOther (n : Z).

#[local] Existing Instance Gas.ContractEvent_eq_dec.
#[export] Instance ContractResult_eq_dec : EqDecision ContractResult.
Proof. solve_decision. Defined.
#[export] Instance ExecOrderTxType_eq_dec : EqDecision ExecOrderTxType.
Proof. solve_decision. Defined.

(** [store.KeyModification]: a value a key had. *)
Record KeyModification := mkModification {
  km_TxId : string;
  km_Value : string;
  km_Timestamp : Z;
  km_IsDelete : bool;
  km_BlockHeight : Z;
}.

(** [protogo.CallContractRequest], [protogo.ContractResponse]. *)
Record CallContractRequest := mkCallRequest {
  cq_ContractName : string;
  cq_ContractMethod : string;
  cq_Args : gmap string string;
}.

Record ContractResponse := mkContractResponse {
  cs_Status : Z;
  cs_Message : string;
  cs_Payload : string;
  cs_ReadMap : gmap string string;
  cs_WriteMap : gmap string string;
}.

(** The context and the other modules. A byte slice that may be nil is an [option]; a status
    code is [None] for success, else its name. *)
Class Chain := {
  Sim : Type;
  KvIterator : Type;
  HistoryIterator : Type;
  BatchKey : Type;
  Get : string → string → Sim → (option string + gerr) * Sim;
  GetKeys : list BatchKey → Sim → (list BatchKey + gerr) * Sim;
  Put : string → string → string → Sim → option gerr * Sim;
  PutIntoReadSet : string → string → string → Sim → Sim;
  Select : string → string → string → Sim → (KvIterator + gerr) * Sim;
  GetHistoryIterForKey : string → string → Sim → (HistoryIterator + gerr) * Sim;
  SetIterHandle : Z → option (KvIterator + HistoryIterator) → Sim → Sim;
  GetIterHandle : Z → Sim → option (option (KvIterator + HistoryIterator));
  kvNext : KvIterator → Sim → bool * Sim;
  kvValue : KvIterator → Sim → (string * string) + gerr;
  kvRelease : KvIterator → Sim → Sim;
  historyNext : HistoryIterator → Sim → bool * Sim;
  historyValue : HistoryIterator → Sim → KeyModification + gerr;
  historyRelease : HistoryIterator → Sim → Sim;
  GetContractByName : string → Sim → Contract + gerr;
  GetContractBytecode : string → Sim → string + gerr;
  CallContract : Contract → Contract → string → gmap string string → Z → Sim →
    (option ContractResult * ExecOrderTxType * option string) * Sim;
  GetTxRWMapByContractName : string → Sim → gmap string string * gmap string string;
  GetStrAddr : Sim → string + gerr;
  GetKeyStr : string → string → string;
  CheckKeyFieldStr : string → string → option gerr;
  IntToBytes : Z → string;
  BytesToInt : string → Z + gerr;
  unmarshalWriteMap : string → gmap string string * option gerr;
  unmarshalCall : string → CallContractRequest + gerr;
  marshalCallResponse : ContractResponse → string + gerr;
  unmarshalKeys : string → list BatchKey + gerr;
  marshalKeys : list BatchKey → string + gerr;
  marshalEvent : Gas.ContractEvent → string + gerr;
  ContractSdkSignalResultSuccess : DockerVMCode;
  ContractSdkSignalResultFail : DockerVMCode;
}.

(** What is constant for a transaction: [GetTx().Payload.TxId], [GetBlockVersion()], the gas
    configuration and default gas of [GetLastChainConfig()], its address type, [GetCrossInfo()],
    [GetDepth()], [GetBlockFingerprint()]. *)
Record TxEnv `{Gas.GasUtils} := mkTxEnv {
  x_TxId : string;
  x_blockVersion : Z;
  x_gasConfig : option Gas.GasConfig;
  x_defaultGas : option Z;
  x_addrZXL : bool;
  x_crossInfo : Z;
  x_depth : Z;
  x_fingerprint : string;
}.

(** What can be observed of a context: the value a contract has under a key. *)
Class ChainView `{CH : Chain} := {
  peek : Sim → string → string → option string;
}.

(** The values and the registered iterators are as before. *)
Definition unchanged `{CH : Chain} `{!ChainView} (s s' : Sim) : Prop :=
  (∀ c k, peek s' c k = peek s c k) ∧ ∀ j, GetIterHandle j s' = GetIterHandle j s.

(** The documented behaviour: reading and iterating change no value and no registration, [Put]
    writes one value when it succeeds and none when it fails, an iterator is registered under the
    index given; indices survive their conversion to bytes; the empty key has an empty string; the
    signal codes are those of the protocol; and the call of a contract gives a result. *)
Class ChainLaws `{ProtocolConsts} `{CH : Chain} `{!ChainView} : Prop := {
  law_Get c k s : unchanged s (Get c k s).2;
  law_GetKeys l s : unchanged s (GetKeys l s).2;
  law_ReadSet c k v s : unchanged s (PutIntoReadSet c k v s);
  law_Select c k l s : unchanged s (Select c k l s).2;
  law_History c k s : unchanged s (GetHistoryIterForKey c k s).2;
  law_kvNext it s : unchanged s (kvNext it s).2;
  law_kvRelease it s : unchanged s (kvRelease it s);
  law_historyNext it s : unchanged s (historyNext it s).2;
  law_historyRelease it s : unchanged s (historyRelease it s);
  law_Set_peek i h s c k : peek (SetIterHandle i h s) c k = peek s c k;
  law_Set i h j s : GetIterHandle j (SetIterHandle i h s) = if decide (j = i) then Some h else GetIterHandle j s;
  law_Put c k v s : (Put c k v s).1 = None →
    ∀ c' k', peek (Put c k v s).2 c' k' = if decide (c' = c ∧ k' = k) then Some v else peek s c' k';
  law_Put_fail c k v s : is_Some (Put c k v s).1 → unchanged s (Put c k v s).2;
  law_Put_handle c k v s j : GetIterHandle j (Put c k v s).2 = GetIterHandle j s;
  law_GetKeyStr_empty : GetKeyStr "" "" = "";
  law_IntToBytes i : - 2 ^ 31 ≤ i < 2 ^ 31 → BytesToInt (IntToBytes i) = inl i;
  law_success : ContractSdkSignalResultSuccess = OK;
  law_fail : ContractSdkSignalResultFail = FAIL;
  law_call_result caller c m ps g s : is_Some (CallContract caller c m ps g s).1.1.1;
}.

#[export] Instance unchanged_pre `{CH : Chain} `{!ChainView} : PreOrder unchanged.
Proof. split; [by split|]. intros s1 s2 s3 [P1 H1] [P2 H2]. split; intros; by rewrite ?P2, ?H2. Qed.

(** ** A context *)

(** The values of the contracts and the iterators, which are all empty. *)
Record simState := mkSim {
  ss_values : gmap (string * string) string;
  ss_handles : gmap Z (option (unit + unit));
}.

Definition sampleSim : Chain := {|
  Sim := simState;
  KvIterator := unit;
  HistoryIterator := unit;
  BatchKey := string;
  Get c k s := (inl (ss_values s !! (c, k)), s);
  GetKeys l s := (inl l, s);
  Put c k v s := (None, mkSim (<[(c, k) := v]> (ss_values s)) (ss_handles s));
  PutIntoReadSet c k v s := s;
  Select c k l s := (inl tt, s);
  GetHistoryIterForKey c k s := (inl tt, s);
  SetIterHandle i h s := mkSim (ss_values s) (<[i := h]> (ss_handles s));
  GetIterHandle i s := ss_handles s !! i;
  kvNext it s := (false, s);
  kvValue it s := inr (Err "no value");
  kvRelease it s := s;
  historyNext it s := (false, s);
  historyValue it s := inr (Err "no value");
  historyRelease it s := s;
  GetContractByName n s := inl (mkContract n "v1");
  GetContractBytecode n s := inl "bytecode";
  CallContract caller c m ps g s := (Some (mkResult 0 "result" "" g []), TxTypeNormal, None, s);
  GetTxRWMapByContractName c s := (∅, ∅);
  GetStrAddr s := inl "address";
  GetKeyStr k f := if String.eqb f "" then k else k +:+ "#" +:+ f;
  CheckKeyFieldStr k f := if String.eqb k "" then Some (Err "empty key") else None;
  IntToBytes := itoa;
  BytesToInt b := match parse_int b with Some z => inl z | None => inr (Err "not a number") end;
  unmarshalWriteMap b := if String.eqb b "" then (∅, Some (Err "unexpected end of JSON input"))
    else if String.eqb b "{}" then (∅, None) else ({[ b := "value" ]}, None);
  unmarshalCall b := inl (mkCallRequest b "method" ∅);
  marshalCallResponse r := inl (cs_Payload r);
  unmarshalKeys b := inl [b];
  marshalKeys l := inl (String.concat "," l);
  marshalEvent e := inl (Gas.ce_Topic e);
  ContractSdkSignalResultSuccess := OK;
  ContractSdkSignalResultFail := FAIL;
|}.

Definition sampleView : @ChainView sampleSim := {| peek := λ (s : @Sim sampleSim) c k, ss_values s !! (c, k) |}.

Lemma sampleSim_laws : @ChainLaws sampleConsts sampleSim sampleView.
Proof.
  split; try done.
  - intros i h j s. cbn. rewrite lookup_insert. repeat case_decide; congruence.
  - intros c k v s _ c' k'. cbn. rewrite lookup_insert. repeat case_decide; naive_solver.
  - intros c k v s [e He]. done.
  - intros i Hi. cbn. rewrite parse_itoa; [done|]. unfold in_int64. apply andb_true_iff.
    rewrite Z.leb_le, Z.ltb_lt. lia.
Qed.
End SimContext.
