(* ===== verification/RuntimeHandler.v ===== *)
(** * runtime_handler.go: the system calls of a transaction

    While a contract runs in its sandbox it asks the chain for state, iterators, other contracts
    and its sender; each request is handled by one function here, which works on the simulation
    context, charges gas and builds the response. The end of the transaction merges what the
    contract has read and written into the context. A handler returns the response and the gas
    used, as in Go. *)

From S2P Require Import Prelude Messages EngineUtils Gas TimeStatics SimContext.

Module RuntimeHandler.
Export SimContext.

(** ** Constants: config/config.go and the heads of the two files *)

Definition version2310 : Z := 2030100.
Definition version2312 : Z := 2030102.
Definition blockVersion2312 : Z := 2030102.
Definition mountContractDir : string := "contract-bins".

Definition FuncKvIteratorCreate : string := "createKvIterator".
Definition FuncKvPreIteratorCreate : string := "createKvPreIterator".
Definition FuncKvIteratorHasNext : string := "kvIteratorHasNext".
Definition FuncKvIteratorNext : string := "kvIteratorNext".
Definition FuncKvIteratorClose : string := "kvIteratorClose".
Definition FuncKeyHistoryIterHasNext : string := "keyHistoryIterHasNext".
Definition FuncKeyHistoryIterNext : string := "keyHistoryIterNext".
Definition FuncKeyHistoryIterClose : string := "keyHistoryIterClose".
Definition BoolTrue : Z := 1.
Definition BoolFalse : Z := 0.

Definition KeySenderAddr : string := "KEY_SENDER_ADDR".
Definition KeyCallContractResp : string := "KEY_CALL_CONTRACT_RESPONSE".
Definition KeyCallContractReq : string := "KEY_CALL_CONTRACT_REQUEST".
Definition KeyStateKey : string := "KEY_STATE_KEY".
Definition KeyUserKey : string := "KEY_USER_KEY".
Definition KeyUserField : string := "KEY_USER_FIELD".
Definition KeyStateValue : string := "KEY_STATE_VALUE".
Definition KeyIterIndex : string := "KEY_KV_ITERATOR_INDEX".
Definition KeyContractName : string := "KEY_CONTRACT_NAME".
Definition KeyIteratorFuncName : string := "KEY_ITERATOR_FUNC_NAME".
Definition KeyWriteMap : string := "KEY_WRITE_MAP".
Definition KeyIteratorHasNext : string := "KEY_ITERATOR_HAS_NEXT".
Definition KeyTxId : string := "KEY_TX_ID".
Definition KeyBlockHeight : string := "KEY_BLOCK_HEIGHT".
Definition KeyIsDelete : string := "KEY_IS_DELETE".
Definition KeyTimestamp : string := "KEY_TIMESTAMP".

Abbreviation payload := (gmap string string) (only parsing).

(** ** Responses *)

Definition updSysCall (f : SysCallMessage → SysCallMessage) (m : DockerVMMessage) : DockerVMMessage :=
  mkMessage (m_TxId m) (m_Type m) (m_CrossContext m) (f <$> m_SysCallMessage m) (m_Request m) (m_Response m)
    (m_ChainId m) (m_StepDurations m).
Definition setCode (c : DockerVMCode) : DockerVMMessage → DockerVMMessage :=
  updSysCall (λ s, mkSysCall c (sc_Message s) (sc_Payload s)).
Definition setMessage (t : string) : DockerVMMessage → DockerVMMessage :=
  updSysCall (λ s, mkSysCall (sc_Code s) t (sc_Payload s)).
Definition setPayload (p : payload) : DockerVMMessage → DockerVMMessage :=
  updSysCall (λ s, mkSysCall (sc_Code s) (sc_Message s) p).

(** [setError]. *)
Definition setError (errMsg : string) (response : DockerVMMessage) : DockerVMMessage :=
  setMessage errMsg (setCode FAIL response).

(** [strings.Split(key, "#")] on the key of a read or write map: contract, key and field. *)
Definition splitMapKey (key : string) : list string := split key.

(** The limit of a prefix: the last byte plus one, converted to a string as a rune. *)
Definition runeOfByte (b : N) : string :=
  if (b <? 128)%N then String (ascii_of_N b) ""
  else String (ascii_of_N (192 + b / 64)) (String (ascii_of_N (128 + b mod 64)) "").

(** [keyStr[:len(keyStr)-1]] and the last byte; [None] when the index is out of range. *)
Fixpoint splitLast (s : string) : option (string * ascii) :=
  match s with
  | EmptyString => None
  | String a EmptyString => Some (EmptyString, a)
  | String a s' => '(t, b) ← splitLast s'; Some (String a t, b)
  end.

Definition prefixLimit (keyStr : string) : option string :=
  '(t, b) ← splitLast keyStr; Some (t +:+ runeOfByte ((N_of_ascii b + 1) mod 256)%N).

(** A path without its first separator. *)
Definition tail_str (s : string) : string := match s with EmptyString => EmptyString | String _ t => t end.

Definition constructContractKey (keys : list string) : string := join keys.

Section handler.
Context `{PC : ProtocolConsts} `{GU : Gas.GasUtils} `{CH : Chain}.

(** ** The state the handlers change *)

(** [RuntimeInstance]: the number of the last iterator, the events of the transaction; the
    context; the time statistics; the files the contracts are written to and the temporary directories; what has been sent:
    responses to the sandbox and bytecode to the engine; and the channel of the sandbox's stream for responses, from which its sending
    goroutine takes them. *)
Inductive sent := ToSandbox (m : DockerVMMessage) | ToEngine (m : DockerVMMessage).

Record RuntimeInstance := mkRI {
  r_rowIndex : Z;
  r_event : list Gas.ContractEvent;
  r_sim : Sim;
  r_dur : TimeStatics.Dur;
  r_disk : gmap string string;
  r_tmpDirs : gset string;
  r_sent : list sent;
  r_sendResponseCh : list DockerVMMessage;
}.

Definition set_row (i : Z) (r : RuntimeInstance) : RuntimeInstance :=
  mkRI i (r_event r) (r_sim r) (r_dur r) (r_disk r) (r_tmpDirs r) (r_sent r) (r_sendResponseCh r).
Definition add_event (e : Gas.ContractEvent) (r : RuntimeInstance) : RuntimeInstance :=
  mkRI (r_rowIndex r) (r_event r ++ [e]) (r_sim r) (r_dur r) (r_disk r) (r_tmpDirs r) (r_sent r) (r_sendResponseCh r).
Definition set_sim (s : Sim) (r : RuntimeInstance) : RuntimeInstance :=
  mkRI (r_rowIndex r) (r_event r) s (r_dur r) (r_disk r) (r_tmpDirs r) (r_sent r) (r_sendResponseCh r).
Definition set_dur (d : TimeStatics.Dur) (r : RuntimeInstance) : RuntimeInstance :=
  mkRI (r_rowIndex r) (r_event r) (r_sim r) d (r_disk r) (r_tmpDirs r) (r_sent r) (r_sendResponseCh r).
Definition set_disk (d : gmap string string) (t : gset string) (r : RuntimeInstance) : RuntimeInstance :=
  mkRI (r_rowIndex r) (r_event r) (r_sim r) (r_dur r) d t (r_sent r) (r_sendResponseCh r).
Definition add_sent (x : sent) (r : RuntimeInstance) : RuntimeInstance :=
  mkRI (r_rowIndex r) (r_event r) (r_sim r) (r_dur r) (r_disk r) (r_tmpDirs r) (r_sent r ++ [x]) (r_sendResponseCh r).
Definition set_sendResponseCh (l : list DockerVMMessage) (r : RuntimeInstance) : RuntimeInstance :=
  mkRI (r_rowIndex r) (r_event r) (r_sim r) (r_dur r) (r_disk r) (r_tmpDirs r) (r_sent r) l.

Abbreviation MH A := (M RuntimeInstance A).

(** Calls of the context. *)
Definition sim {A} (f : Sim → A * Sim) : MH A :=
  r ← getS; let '(a, s) := f (r_sim r) in putS (set_sim s r);; mret a.
Definition simRead {A} (f : Sim → A) : MH A := r ← getS; mret (f (r_sim r)).
Definition simDo (f : Sim → Sim) : MH unit := modifyS (λ r, set_sim (f (r_sim r)) r).

(** Calls of the time statistics. *)
Definition dur {A} (m : M TimeStatics.Dur A) : MH A := λ r,
  match m (r_dur r) with Ret (a, d) => Ret (a, set_dur d r) | Panic => Panic | Block => Block end.

(** What a handler is called with: the chain, the transaction, the connection to the engine
    ([tcp] needs the bytecode sent, else it is written to the mounted directory), the order in
    which the loops range over a map, and what the clock shows around a call of the storage. *)
Record Call := mkCall {
  c_chainId : string;
  c_env : TxEnv;
  c_txDuration : nat;
  c_sendContract : bool;
  c_mountPath : string;
  c_range : gmap string string → list (string * string);
  c_elapsed : Z;
}.
Context (c : Call).

Definition version : Z := x_blockVersion (c_env c).
Definition gasCfg : option Gas.GasConfig := x_gasConfig (c_env c).

(** [newEmptyResponse]. *)
Definition newEmptyResponse (txId : string) (msgType : DockerVMType) : DockerVMMessage :=
  mkMessage txId msgType None (Some (mkSysCall OK "" ∅)) None None (c_chainId c) [].

(** The assignments of the failing branches: the code, the error's text, no payload. *)
Definition failed (e : gerr) (response : DockerVMMessage) : DockerVMMessage :=
  setPayload ∅ (setMessage (errorText e) (setCode ContractSdkSignalResultFail response)).

Definition AddLatest : MH (option gerr) := dur (TimeStatics.AddLatestStorageDuration (c_txDuration c) (c_elapsed c)).

(** ** The read and write maps *)

Fixpoint mergeReadList (l : list (string * string)) (txContractName : string) : MH (option gerr) :=
  match l with
  | [] => mret None
  | (key, value) :: l' =>
    let keyList := splitMapKey key in
    match keyList with
    | contractName :: contractKey :: rest =>
      if negb (String.eqb contractName txContractName)
      then mret (Some (Err ("wrong contract name [" +:+ contractName +:+ "] of read map key, need [" +:+ txContractName +:+ "]")))
      else
        let contractField := match rest with [f] => f | _ => "" end in
        simDo (PutIntoReadSet contractName (GetKeyStr contractKey contractField) value);;
        mergeReadList l' txContractName
    | _ => mret (Some (Err (key +:+ "'s key list length == " +:+ itoa (Z.of_nat (length keyList)) +:+ ", needs to be >= 2")))
    end
  end.

Definition mergeSimContextReadMap (readMap : payload) (txContractName : string) : MH (option gerr) :=
  mergeReadList (c_range c readMap) txContractName.

Fixpoint mergeWriteList (l : list (string * string)) (gasUsed : Z) (txContractName : string) : MH (Z * option gerr) :=
  match l with
  | [] => mret (gasUsed, None)
  | (key, value) :: l' =>
    let keyList := splitMapKey key in
    match keyList with
    | contractName :: contractKey :: rest =>
      if negb (String.eqb contractName txContractName)
      then mret (gasUsed, Some (Err ("wrong contract name [" +:+ contractName +:+ "] of write map key, need [" +:+ txContractName +:+ "]")))
      else
        let contractField := match rest with [f] => f | _ => "" end in
        match Gas.PutStateGasUsed version gasUsed contractName contractKey contractField value with
        | (gasUsed, Some err) => mret (gasUsed, Some err)
        | (gasUsed, None) =>
          err ← sim (Put contractName (GetKeyStr contractKey contractField) value);
          match err with
          | Some e => mret (gasUsed, Some e)
          | None => mergeWriteList l' gasUsed txContractName
          end
        end
    | _ => mret (gasUsed, Some (Err ("key list length == " +:+ itoa (Z.of_nat (length keyList)) +:+ ", needs to be >= 2")))
    end
  end.

Definition mergeSimContextWriteMap (writeMap : payload) (gasUsed : Z) (txContractName : string) : MH (Z * option gerr) :=
  mergeWriteList (c_range c writeMap) gasUsed txContractName.

(** ** The end of the transaction *)

Definition errorResult (r : ContractResult) (errMsg : string) : ContractResult * ExecOrderTxType :=
  (mkResult 1 (cr_Result r) errMsg (cr_GasUsed r) (cr_ContractEvent r), TxTypeNormal).

Definition withGas (g : Z) (r : ContractResult) : ContractResult :=
  mkResult (cr_Code r) (cr_Result r) (cr_Message r) g (cr_ContractEvent r).

(** The loop over the events of the response. *)
Fixpoint emitEvents (txId : string) (l : list DockerContractEvent) (gasUsed : Z) : MH (Z * option gerr) :=
  match l with
  | [] => mret (gasUsed, None)
  | event :: l' =>
    let contractEvent := Gas.mkContractEvent (ev_Topic event) txId (ev_ContractName event) (ev_Data event) in
    match Gas.EmitEventGasUsed marshalEvent version gasUsed contractEvent with
    | (gasUsed, Some err) => mret (gasUsed, Some err)
    | (gasUsed, None) => modifyS (add_event contractEvent);; emitEvents txId l' gasUsed
    end
  end.

Definition handleTxResponse (txId : string) (recvMsg : DockerVMMessage) (gasUsed : Z) (txType : ExecOrderTxType)
    (contractName : string) : MH (ContractResult * ExecOrderTxType) :=
  txResponse ← deref (m_Response recvMsg);
  if decide (rp_Code txResponse ≠ OK)
  then mret (mkResult 1 (rp_Result txResponse) (rp_Message txResponse) gasUsed [], TxTypeNormal)
  else
    let contractResult := mkResult 0 (rp_Result txResponse) (rp_Message txResponse) 0 [] in
    err ← mergeSimContextReadMap (rp_ReadMap txResponse) contractName;
    match err with
    | Some e => mret (errorResult contractResult "fail to put in sim context")
    | None =>
      '(gasUsed, err) ← mergeSimContextWriteMap (rp_WriteMap txResponse) gasUsed contractName;
      match err with
      | Some e => mret (errorResult (withGas gasUsed contractResult) "fail to put in sim context")
      | None =>
        '(gasUsed, err) ← emitEvents txId (rp_Events txResponse) gasUsed;
        match err with
        | Some e => mret (errorResult (withGas gasUsed contractResult) (errorText e))
        | None =>
          r ← getS;
          mret (mkResult 0 (rp_Result txResponse) (rp_Message txResponse) gasUsed (r_event r), txType)
        end
      end
    end.

(** ** Cross-contract calls *)

(** The loop that merges the events of the called contract. *)
Fixpoint mergeEvents (l : list Gas.ContractEvent) (gasUsed : Z) : MH (Z * option gerr) :=
  match l with
  | [] => mret (gasUsed, None)
  | event :: l' =>
    match Gas.EmitEventGasUsed marshalEvent version gasUsed event with
    | (gasUsed, Some err) => mret (gasUsed, Some err)
    | (gasUsed, None) => modifyS (add_event event);; mergeEvents l' gasUsed
    end
  end.

Definition constructCallContractResponse (result : ContractResult) (contractName : string) : MH ContractResponse :=
  '(readMap, writeMap) ← simRead (GetTxRWMapByContractName contractName);
  mret (mkContractResponse (TimeStatics.i32 (cr_Code result)) (cr_Message result) (cr_Result result) readMap writeMap).

Definition handlerCallContract (txId : string) (recvMsg : DockerVMMessage) (gasUsed : Z) (caller : Contract)
    : MH (DockerVMMessage * Z * ExecOrderTxType) :=
  let response := newEmptyResponse txId CALL_CONTRACT_RESPONSE in
  sc ← deref (m_SysCallMessage recvMsg);
  match unmarshalCall (Gas.param (sc_Payload sc) KeyCallContractReq) with
  | inr err => mret (setError (errorText err) response, gasUsed, TxTypeNormal)
  | inl callContractReq =>
    let contractName := cq_ContractName callContractReq in
    let contractMethod := cq_ContractMethod callContractReq in
    if String.eqb contractName "" then mret (setError "missing contract name" response, gasUsed, TxTypeNormal)
    else if String.eqb contractMethod "" then mret (setError "missing contract method" response, gasUsed, TxTypeNormal)
    else
      cc ← deref (m_CrossContext recvMsg);
      if CallContractDepth <? cc_CurrentDepth cc then mret (setError "exceed max depth" response, gasUsed, TxTypeNormal)
      else
        ct ← simRead (GetContractByName contractName);
        match ct with
        | inr err =>
          mret (setError ("[call contract] failed to get contract by [" +:+ contractName +:+ "], err: " +:+ errorText err)
                  response, gasUsed, TxTypeNormal)
        | inl contract =>
          let parameters := cq_Args callContractReq in
          match Gas.CallContractGasUsed version gasCfg gasUsed contractName contractMethod parameters with
          | (gasUsed, Some err) =>
            mret (setError ("[call contract] failed to subtract gas by [" +:+ contractName +:+ "], err: " +:+ errorText err)
                    response, gasUsed, TxTypeNormal)
          | (gasUsed, None) =>
            '(result, specialTxType, code) ← sim (CallContract caller contract contractMethod parameters gasUsed);
            result ← deref result;
            match code with
            | Some name =>
              mret (setPayload {[ KeyCallContractResp := cr_Result result ]}
                      (setError ("[call contract] execute error code: " +:+ name +:+ ", msg: " +:+ cr_Message result) response),
                    gasUsed, specialTxType)
            | None =>
              '(gasUsed, err) ← mergeEvents (cr_ContractEvent result) (cr_GasUsed result);
              match err with
              | Some e => mret (setError (errorText e) response, gasUsed, specialTxType)
              | None =>
                callContractResponse ← constructCallContractResponse result (ct_Name caller);
                match marshalCallResponse callContractResponse with
                | inr err => mret (setError (errorText err) response, gasUsed, specialTxType)
                | inl respBytes =>
                  mret (setCode OK (setPayload {[ KeyCallContractResp := respBytes ]} response), gasUsed, specialTxType)
                end
              end
            end
          end
        end
  end.

(** ** State *)

Definition handleGetStateRequest (txId : string) (recvMsg : DockerVMMessage) (gasUsed : Z) : MH (DockerVMMessage * Z) :=
  let response := newEmptyResponse txId GET_STATE_RESPONSE in
  sc ← deref (m_SysCallMessage recvMsg);
  match sc_Payload sc !! KeyContractName with
  | None => mret (setCode ContractSdkSignalResultFail (setMessage "unknown contract name" response), gasUsed)
  | Some contractName =>
    let stateKey := Gas.param (sc_Payload sc) KeyStateKey in
    value ← sim (Get contractName stateKey);
    AddLatest;;
    match value with
    | inr err => mret (setCode ContractSdkSignalResultFail (setMessage (errorText err) response), gasUsed)
    | inl value =>
      let response := setCode ContractSdkSignalResultSuccess response in
      let response :=
        if (version <? version2310) || bool_decide (is_Some value)
        then setPayload {[ KeyStateValue := default "" value ]} response else response in
      match Gas.GetStateGasUsed version gasUsed (default "" value) with
      | (gasUsed, Some err) =>
        mret (setCode ContractSdkSignalResultFail (setMessage (errorText err) response), gasUsed)
      | (gasUsed, None) => mret (response, gasUsed)
      end
    end
  end.

Definition handleGetBatchStateRequest (txId : string) (recvMsg : DockerVMMessage) (gasUsed : Z) : MH (DockerVMMessage * Z) :=
  let response := newEmptyResponse txId GET_BATCH_STATE_RESPONSE in
  sc ← deref (m_SysCallMessage recvMsg);
  match unmarshalKeys (Gas.param (sc_Payload sc) KeyStateKey) with
  | inr err => mret (setCode ContractSdkSignalResultFail (setMessage (errorText err) response), gasUsed)
  | inl keys =>
    getKeys ← sim (GetKeys keys);
    AddLatest;;
    match getKeys with
    | inr err => mret (setMessage (errorText err) response, gasUsed)
    | inl getKeys =>
      match marshalKeys getKeys with
      | inr err => mret (setMessage (errorText err) response, gasUsed)
      | inl p =>
        let response := setPayload {[ KeyStateValue := p ]} (setCode ContractSdkSignalResultSuccess response) in
        match Gas.GetBatchStateGasUsed version gasUsed p with
        | (gasUsed, Some err) =>
          mret (setCode ContractSdkSignalResultFail (setMessage (errorText err) response), gasUsed)
        | (gasUsed, None) => mret (response, gasUsed)
        end
      end
    end
  end.

(** ** Iterators over keys *)

(** [atomic.AddInt32(&r.rowIndex, 1)] and [SetIterHandle]. *)
Definition newIterator (h : option (KvIterator + HistoryIterator)) : MH Z :=
  r ← getS;
  let index := TimeStatics.i32 (r_rowIndex r + 1) in
  putS (set_row index r);;
  simDo (SetIterHandle index h);; mret index.

(** The body of an [if err != nil] of [handleCreateKvIterator] that does not stop: the message is
    set, the gas charged again; only an error of the gas ends the handler. *)
Definition chargeAgain (p : payload) (response : DockerVMMessage) (gasUsed : Z) (err : option gerr)
    (k : DockerVMMessage → Z → MH (DockerVMMessage * Z)) : MH (DockerVMMessage * Z) :=
  match err with
  | None => k response gasUsed
  | Some e =>
    let response := setMessage (errorText e) response in
    match Gas.CreateKvIteratorGasUsed version gasCfg p gasUsed with
    | (gasUsed, Some _) => mret (setPayload ∅ (setCode ContractSdkSignalResultFail response), gasUsed)
    | (gasUsed, None) => k response gasUsed
    end
  end.

Definition kvIteratorCreate (calledContractName : string) (params : payload) (gasUsed : Z) : MH (KvIterator * Z + gerr * Z) :=
  match Gas.CreateKvIteratorGasUsed version gasCfg params gasUsed with
  | (gasUsed, Some err) => mret (inr (err, gasUsed))
  | (gasUsed, None) =>
    let key := GetKeyStr (Gas.param params Gas.KeyIterStartKey) (Gas.param params Gas.KeyIterStartField) in
    match CheckKeyFieldStr (Gas.param params Gas.KeyIterLimitKey) (Gas.param params Gas.KeyIterLimitField) with
    | Some err => mret (inr (err, gasUsed))
    | None =>
      let limit := GetKeyStr (Gas.param params Gas.KeyIterLimitKey) (Gas.param params Gas.KeyIterLimitField) in
      it ← sim (Select calledContractName key limit);
      match it with
      | inr err => mret (inr (err, gasUsed))
      | inl it => mret (inl (it, gasUsed))
      end
    end
  end.

(** The [case] of a prefix iterator. *)
Definition kvPreIteratorCreate (calledContractName key : string) (params : payload) (gasUsed : Z)
    : MH (KvIterator * Z + gerr * Z) :=
  match Gas.CreateKvIteratorGasUsed version gasCfg params gasUsed with
  | (gasUsed, Some err) => mret (inr (err, gasUsed))
  | (gasUsed, None) =>
    limit ← deref (prefixLimit key);
    it ← sim (Select calledContractName key limit);
    match it with
    | inr err => mret (inr (err, gasUsed))
    | inl it => mret (inl (it, gasUsed))
    end
  end.

(** The end of [handleCreateKvIterator]: the handle and the response. *)
Definition iteratorCreated (h : option (KvIterator + HistoryIterator)) (response : DockerVMMessage) (gasUsed : Z)
    : MH (DockerVMMessage * Z) :=
  index ← newIterator h;
  mret (setPayload {[ KeyIterIndex := IntToBytes index ]} (setCode ContractSdkSignalResultSuccess response), gasUsed).

Definition handleCreateKvIterator (txId : string) (recvMsg : DockerVMMessage) (gasUsed : Z) (contractName : string)
    : MH (DockerVMMessage * Z) :=
  let response := newEmptyResponse txId CREATE_KV_ITERATOR_RESPONSE in
  sc ← deref (m_SysCallMessage recvMsg);
  let p := sc_Payload sc in
  let calledContractName := Gas.param p KeyContractName in
  let startKey := Gas.param p Gas.KeyIterStartKey in
  let startField := Gas.param p Gas.KeyIterStartField in
  let '(writeMap, err) := unmarshalWriteMap (Gas.param p KeyWriteMap) in
  chargeAgain p response gasUsed err (λ response gasUsed,
    '(gasUsed, err) ← mergeSimContextWriteMap writeMap gasUsed contractName;
    chargeAgain p response gasUsed err (λ response gasUsed,
      chargeAgain p response gasUsed (CheckKeyFieldStr startKey startField) (λ response gasUsed,
        let key := GetKeyStr startKey startField in
        let createFunc := Gas.param p KeyIteratorFuncName in
        if String.eqb createFunc FuncKvIteratorCreate then
          res ← kvIteratorCreate calledContractName p gasUsed;
          match res with
          | inr (err, gasUsed) => mret (failed err response, gasUsed)
          | inl (it, gasUsed) => iteratorCreated (Some (inl it)) response gasUsed
          end
        else if String.eqb createFunc FuncKvPreIteratorCreate then
          res ← kvPreIteratorCreate calledContractName key p gasUsed;
          match res with
          | inr (err, gasUsed) => mret (failed err response, gasUsed)
          | inl (it, gasUsed) => iteratorCreated (Some (inl it)) response gasUsed
          end
        else iteratorCreated None response gasUsed))).

Definition boolBytes (b : bool) : string := IntToBytes (TimeStatics.i32 (if b then BoolTrue else BoolFalse)).

Definition kvIteratorHasNext (kvIterator : KvIterator) (gasUsed : Z) (response : DockerVMMessage) : MH (DockerVMMessage * Z) :=
  match Gas.ConsumeKvIteratorGasUsed version gasUsed with
  | (gasUsed, Some err) => mret (failed err response, gasUsed)
  | (gasUsed, None) =>
    b ← sim (kvNext kvIterator);
    mret (setPayload {[ KeyIteratorHasNext := boolBytes b ]} (setCode ContractSdkSignalResultSuccess response), gasUsed)
  end.

Definition kvIteratorClose (kvIterator : KvIterator) (gasUsed : Z) (response : DockerVMMessage) : MH (DockerVMMessage * Z) :=
  match Gas.ConsumeKvIteratorGasUsed version gasUsed with
  | (gasUsed, Some err) => mret (failed err response, gasUsed)
  | (gasUsed, None) =>
    simDo (kvRelease kvIterator);;
    mret (setPayload ∅ (setCode ContractSdkSignalResultSuccess response), gasUsed)
  end.

(** An iterator that passed the type assertion is not nil, so that test is left out. *)
Definition kvIteratorNext (kvIterator : KvIterator) (gasUsed : Z) (response : DockerVMMessage) : MH (DockerVMMessage * Z) :=
  match (if version <? blockVersion2312 then Gas.ConsumeKvIteratorGasUsedLt2312 gasUsed else (gasUsed, None)) with
  | (gasUsed, Some err) => mret (failed err response, gasUsed)
  | (gasUsed, None) =>
    kvRow ← simRead (kvValue kvIterator);
    match kvRow with
    | inr err => mret (failed err response, gasUsed)
    | inl (rowKey, value) =>
      let arrKey := split rowKey in
      let key := default "" (head arrKey) in
      let field := default "" (arrKey !! 1%nat) in
      let response := setPayload {[ KeyUserKey := key; KeyUserField := field; KeyStateValue := value ]}
                        (setCode ContractSdkSignalResultSuccess response) in
      match (if blockVersion2312 <=? version then Gas.ConsumeKvIteratorNextGasUsed2312 gasUsed else (gasUsed, None)) with
      | (gasUsed, Some err) => mret (failed err response, gasUsed)
      | (gasUsed, None) => mret (response, gasUsed)
      end
    end
  end.

(** An error path of [handleConsumeKvIterator]: a message, gas, and no failure code unless the gas
    is used up. *)
Definition consumeError (msg : string) (gasUsed : Z) (response : DockerVMMessage) : MH (DockerVMMessage * Z) :=
  let response := setMessage msg response in
  match Gas.ConsumeKvIteratorGasUsed version gasUsed with
  | (gasUsed, Some err) => mret (failed err response, gasUsed)
  | (gasUsed, None) => mret (response, gasUsed)
  end.

(** The [switch] over the operations of an iterator. *)
Definition kvIteratorOp (kvIterator : KvIterator) (func : string) (gasUsed : Z) (response : DockerVMMessage) : MH (DockerVMMessage * Z) :=
  if String.eqb func FuncKvIteratorHasNext then kvIteratorHasNext kvIterator gasUsed response
  else if String.eqb func FuncKvIteratorNext then kvIteratorNext kvIterator gasUsed response
  else if String.eqb func FuncKvIteratorClose then kvIteratorClose kvIterator gasUsed response
  else mret (failed (Err (func +:+ " not found")) response, gasUsed).

Definition handleConsumeKvIterator (txId : string) (recvMsg : DockerVMMessage) (gasUsed : Z) : MH (DockerVMMessage * Z) :=
  let response := newEmptyResponse txId CONSUME_KV_ITERATOR_RESPONSE in
  sc ← deref (m_SysCallMessage recvMsg);
  let p := sc_Payload sc in
  let func := Gas.param p KeyIteratorFuncName in
  match BytesToInt (Gas.param p KeyIterIndex) with
  | inr err => consumeError "" gasUsed response
  | inl kvIteratorIndex =>
    iter ← simRead (GetIterHandle kvIteratorIndex);
    match iter with
    | None => consumeError ("[kv iterator consume] can not found iterator index [" +:+ itoa kvIteratorIndex +:+ "]") gasUsed response
    | Some (Some (inl kvIterator)) => kvIteratorOp kvIterator func gasUsed response
    | Some _ => consumeError ("[kv iterator consume] failed, iterator " +:+ itoa kvIteratorIndex +:+ " assertion failed") gasUsed response
    end
  end.

(** ** Iterators over the history of a key *)

Definition handleCreateKeyHistoryIterator (txId : string) (recvMsg : DockerVMMessage) (gasUsed : Z) (contractName : string)
    : MH (DockerVMMessage * Z) :=
  let response := newEmptyResponse txId CREATE_KEY_HISTORY_TER_RESPONSE in
  sc ← deref (m_SysCallMessage recvMsg);
  let p := sc_Payload sc in
  let keyStr := Gas.param p Gas.KeyHistoryIterKey in
  let field := Gas.param p Gas.KeyHistoryIterField in
  match Gas.CreateKeyHistoryIterGasUsed version gasCfg p gasUsed with
  | (gasUsed, Some err) => mret (failed err response, gasUsed)
  | (gasUsed, None) =>
    let '(writeMap, err) := unmarshalWriteMap (Gas.param p KeyWriteMap) in
    match err with
    | Some e => mret (failed e response, gasUsed)
    | None =>
      '(gasUsed, err) ← mergeSimContextWriteMap writeMap gasUsed contractName;
      match err with
      | Some e => mret (failed e response, gasUsed)
      | None =>
        match CheckKeyFieldStr keyStr field with
        | Some e => mret (failed e response, gasUsed)
        | None =>
          it ← sim (GetHistoryIterForKey (Gas.param p KeyContractName) (GetKeyStr keyStr field));
          match it with
          | inr e => mret (failed e response, gasUsed)
          | inl it => iteratorCreated (Some (inr it)) response gasUsed
          end
        end
      end
    end
  end.

Definition keyHistoryIterHasNext (iter : HistoryIterator) (gasUsed : Z) (response : DockerVMMessage) : MH (DockerVMMessage * Z) :=
  match Gas.ConsumeKeyHistoryIterGasUsed version gasUsed with
  | (gasUsed, Some err) => mret (failed err response, gasUsed)
  | (gasUsed, None) =>
    b ← sim (historyNext iter);
    mret (setPayload {[ KeyIteratorHasNext := boolBytes b ]} (setCode ContractSdkSignalResultSuccess response), gasUsed)
  end.

Definition keyHistoryIterClose (iter : HistoryIterator) (gasUsed : Z) (response : DockerVMMessage) : MH (DockerVMMessage * Z) :=
  match Gas.ConsumeKeyHistoryIterGasUsed version gasUsed with
  | (gasUsed, Some err) => mret (failed err response, gasUsed)
  | (gasUsed, None) =>
    simDo (historyRelease iter);;
    mret (setPayload ∅ (setCode ContractSdkSignalResultSuccess response), gasUsed)
  end.

Definition keyHistoryIterNext (iter : HistoryIterator) (gasUsed : Z) (response : DockerVMMessage) : MH (DockerVMMessage * Z) :=
  match (if version <? blockVersion2312 then Gas.ConsumeKeyHistoryIterGasUsedLt2312 gasUsed else (gasUsed, None)) with
  | (gasUsed, Some err) => mret (failed err response, gasUsed)
  | (gasUsed, None) =>
    v ← simRead (historyValue iter);
    match v with
    | inr err => mret (failed err response, gasUsed)
    | inl v =>
      let response := setCode ContractSdkSignalResultSuccess response in
      match (if blockVersion2312 <=? version then Gas.ConsumeKeyHistoryIterNextGasUsed2312 gasUsed else (gasUsed, None)) with
      | (gasUsed, Some err) => mret (failed err response, gasUsed)
      | (gasUsed, None) =>
        mret (setPayload {[ KeyTxId := km_TxId v;
                            KeyBlockHeight := IntToBytes (TimeStatics.i32 (km_BlockHeight v));
                            KeyStateValue := km_Value v;
                            KeyIsDelete := boolBytes (km_IsDelete v);
                            KeyTimestamp := itoa (km_Timestamp v) ]} response, gasUsed)
      end
    end
  end.

(** [currentGasUsed] stays zero from version 2030102 on, and the failing paths return it. *)
Definition handleConsumeKeyHistoryIterator (txId : string) (recvMsg : DockerVMMessage) (gasUsed : Z) : MH (DockerVMMessage * Z) :=
  let response := newEmptyResponse txId CONSUME_KEY_HISTORY_ITER_RESPONSE in
  match (if version <? blockVersion2312 then Gas.ConsumeKvIteratorGasUsedLt2312 gasUsed else (0, None)) with
  | (currentGasUsed, Some err) => mret (failed err response, currentGasUsed)
  | (currentGasUsed, None) =>
    sc ← deref (m_SysCallMessage recvMsg);
    let p := sc_Payload sc in
    let func := Gas.param p KeyIteratorFuncName in
    match BytesToInt (Gas.param p KeyIterIndex) with
    | inr err => mret (failed err response, currentGasUsed)
    | inl index =>
      iter ← simRead (GetIterHandle index);
      match iter with
      | None => mret (failed (Err ("[key history iterator consume] can not found iterator index [" +:+ itoa index +:+ "]")) response,
                      currentGasUsed)
      | Some (Some (inr it)) =>
        if String.eqb func FuncKeyHistoryIterHasNext then keyHistoryIterHasNext it gasUsed response
        else if String.eqb func FuncKeyHistoryIterNext then keyHistoryIterNext it gasUsed response
        else if String.eqb func FuncKeyHistoryIterClose then keyHistoryIterClose it gasUsed response
        else mret (failed (Err (func +:+ " not found")) response, currentGasUsed)
      | Some _ => mret (failed (Err "assertion failed") response, currentGasUsed)
      end
    end
  end.

(** ** The sender *)

Definition handleGetSenderAddress (txId : string) (gasUsed : Z) : MH (DockerVMMessage * Z) :=
  let response := newEmptyResponse txId GET_SENDER_ADDRESS_RESPONSE in
  match Gas.GetSenderAddressGasUsed gasUsed with
  | (gasUsed, Some err) => mret (failed err response, gasUsed)
  | (gasUsed, None) =>
    address ← simRead GetStrAddr;
    match address with
    | inr err => mret (failed err response, gasUsed)
    | inl address =>
      let address := if x_addrZXL (c_env c) then "ZX" +:+ address else address in
      mret (setPayload {[ KeySenderAddr := address ]} (setCode ContractSdkSignalResultSuccess response), gasUsed)
    end
  end.

(** ** Bytecode *)

(** What the operating system answers to the calls of [saveBytesToDisk]: whether the file exists,
    the errors, and what a failed write leaves in the file. *)
Record SaveIo := mkSaveIo {
  io_exists : bool;
  io_mkdir : option gerr;
  io_open : option gerr;
  io_write : option (string * gerr);
  io_sync : option gerr;
}.

Definition saveBytesToDisk (io : SaveIo) (bytes newFilePath newFileDir : string) : MH (option gerr) :=
  err ← (if String.eqb newFileDir "" || io_exists io then mret None
         else match io_mkdir io with
              | Some e => mret (Some e)
              | None => modifyS (λ r, set_disk (r_disk r) ({[ newFileDir ]} ∪ r_tmpDirs r) r);; mret None
              end);
  match err with
  | Some e => mret (Some e)
  | None =>
    match io_open io with
    | Some e => mret (Some e)
    | None =>
      match io_write io with
      | Some (kept, e) => modifyS (λ r, set_disk (<[newFilePath := kept]> (r_disk r)) (r_tmpDirs r) r);; mret (Some e)
      | None => modifyS (λ r, set_disk (<[newFilePath := bytes]> (r_disk r)) (r_tmpDirs r) r);; mret (io_sync io)
      end
    end
  end.

(** What [extractContract] gets from outside: a fresh name, the outcomes of the two writes, of the
    7z command, of listing the directory and of reading the files in it. *)
Record ExtractIo := mkExtractIo {
  xi_uuid : string;
  xi_saveZip : SaveIo;
  xi_unzip : option gerr;
  xi_readDir : list (string * (string + gerr)) + gerr;
  xi_saveBin : SaveIo;
}.

Definition hasSuffix (suffix s : string) : bool :=
  let n := String.length s in
  let k := String.length suffix in
  (k <=? n)%nat && String.eqb (String.substring (n - k) k s) suffix.

(** [filepath.Join] of the mounted directory, which is rooted, and of the temporary one, which is
    relative and which a contract's name does not leave. *)
Definition contractPath (contractFullName : string) : string :=
  path_join (path_join (c_mountPath c) mountContractDir) contractFullName.
Definition tmpPath (dir name : string) : string := tail_str (path_join dir name).

(** The loop over the files: the first that is not the archive. *)
Fixpoint pickBinary (io : ExtractIo) (files : list (string * (string + gerr))) (contractFullName : string) : MH (string + gerr) :=
  match files with
  | [] => mret (inr (Err "no contract binaries satisfied"))
  | (name, content) :: files' =>
    if hasSuffix ".7z" name then pickBinary io files' contractFullName
    else
      match content with
      | inr e => mret (inr (Wrap ("read from byteCode file " +:+ tmpPath ("tmp-contract-" +:+ xi_uuid io) name +:+ " failed, ") e))
      | inl extBytecode =>
        if c_sendContract c then mret (inl extBytecode)
        else
          err ← saveBytesToDisk (xi_saveBin io) extBytecode (contractPath contractFullName) "";
          match err with
          | Some e => mret (inr (Wrap "failed to save bytecode to disk: " e))
          | None => mret (inl extBytecode)
          end
      end
  end.

Definition extractContract (io : ExtractIo) (bytecode contractFullName : string) : MH (string + gerr) :=
  let tmpContractDir := "tmp-contract-" +:+ xi_uuid io in
  let contractZipPath := tmpPath tmpContractDir (contractFullName +:+ ".7z") in
  err ← saveBytesToDisk (xi_saveZip io) bytecode contractZipPath tmpContractDir;
  match err with
  | Some _ => mret (inr (Err "failed to save tmp contract bin for version query"))
  | None =>
    match xi_unzip io with
    | Some e => mret (inr (Wrap "failed to extract contract, " e))
    | None =>
      res ← (match xi_readDir io with
             | inr e => mret (inr (Wrap ("failed to read tmp contract dir " +:+ tmpContractDir +:+ ", ") e))
             | inl files =>
               if decide (length files ≠ 2%nat)
               then mret (inr (Err ("file num in contract dir " +:+ tmpContractDir +:+ " != 2")))
               else pickBinary io files contractFullName
             end);
      modifyS (λ r, set_disk (delete contractZipPath (r_disk r)) (r_tmpDirs r ∖ {[ tmpContractDir ]}) r);;
      mret res
    end
  end.

Definition setRespMessage (t : string) (r : TxResponse) : TxResponse :=
  mkResponse (rp_TxId r) (rp_Code r) (rp_Result r) t (rp_WriteMap r) (rp_ReadMap r) (rp_Events r) (rp_ContractName r)
    (rp_ContractVersion r) (rp_ChainId r).
Definition setRespCode (x : DockerVMCode) (r : TxResponse) : TxResponse :=
  mkResponse (rp_TxId r) x (rp_Result r) (rp_Message r) (rp_WriteMap r) (rp_ReadMap r) (rp_Events r) (rp_ContractName r)
    (rp_ContractVersion r) (rp_ChainId r).
Definition setRespResult (x : string) (r : TxResponse) : TxResponse :=
  mkResponse (rp_TxId r) (rp_Code r) x (rp_Message r) (rp_WriteMap r) (rp_ReadMap r) (rp_Events r) (rp_ContractName r)
    (rp_ContractVersion r) (rp_ChainId r).

Definition handleGetByteCodeRequest (io : ExtractIo) (txId : string) (recvMsg : DockerVMMessage) (byteCode : string)
    : MH DockerVMMessage :=
  rq ← deref (m_Request recvMsg);
  let contractName := rq_ContractName rq in
  let response := mkResponse "" FAIL (String zero "") "" ∅ ∅ [] contractName (rq_ContractVersion rq) (c_chainId c) in
  let answer (rp : TxResponse) : DockerVMMessage :=
    mkMessage txId GET_BYTECODE_RESPONSE None None None (Some rp) (c_chainId c) [] in
  let contractFullName := constructContractKey [rq_ChainId rq; contractName; rq_ContractVersion rq] in
  if String.eqb byteCode "" then
    got ← simRead (GetContractBytecode contractName);
    err ← AddLatest;
    match got with
    | inr _ | inl EmptyString =>
      mret (answer (setRespMessage (match err with Some e => errorText e | None => "contract byte is nil" end) response))
    | inl byteCode =>
      extracted ← extractContract io byteCode contractFullName;
      match extracted with
      | inr e => mret (answer (setRespMessage (errorText e) response))
      | inl extractedBytecode =>
        let response := if c_sendContract c then setRespResult extractedBytecode response else response in
        mret (answer (setRespCode OK response))
      end
    end
  else if negb (c_sendContract c) then
    err ← saveBytesToDisk (xi_saveBin io) byteCode (contractPath contractFullName) "";
    let response := match err with Some e => setRespMessage (errorText e) response | None => response end in
    mret (answer (setRespCode OK response))
  else mret (answer (setRespResult byteCode (setRespCode OK response))).
End handler.

(** ** The range of a prefix iterator *)

(** The order of the keys in the store: byte by byte. *)
Fixpoint strLt (s t : string) : bool :=
  match s, t with
  | _, EmptyString => false
  | EmptyString, String _ _ => true
  | String a s', String b t' =>
    (N_of_ascii a <? N_of_ascii b)%N || ((N_of_ascii a =? N_of_ascii b)%N && strLt s' t')
  end.

(** [k] lies between [lo], included, and [hi], excluded. *)
Definition inRange (lo hi k : string) : bool := negb (strLt k lo) && strLt k hi.

Lemma splitLast_app s t b : splitLast s = Some (t, b) → s = t +:+ String b "".
Proof.
  revert t b. induction s as [|a s IH]; intros t b; [done|]. cbn. destruct s as [|a' s].
  - by intros [= <- <-].
  - destruct (splitLast (String a' s)) as [[t' b']|] eqn:E; [|done]. intros [= <- <-].
    rewrite (IH t' b' eq_refl). done.
Qed.

Lemma N_of_ascii_inj a b : N_of_ascii a = N_of_ascii b → a = b.
Proof. intros E. by rewrite <-(ascii_N_embedding a), <-(ascii_N_embedding b), E. Qed.

Lemma strLt_irrefl_head a s t : strLt (String a s) (String a t) = strLt s t.
Proof. cbn. by rewrite N.ltb_irrefl, N.eqb_refl. Qed.

(** Between [t ++ b] and [t ++ (b + 1)] lie the strings that start with [t ++ b]. *)
Lemma range_prefix t b b' k : N_of_ascii b' = (N_of_ascii b + 1)%N →
  inRange (t +:+ String b "") (t +:+ String b' "") k = String.prefix (t +:+ String b "") k.
Proof.
  intros Hb. revert k. induction t as [|a t IH]; intros k.
  - unfold inRange. rewrite !str_app_nil. destruct k as [|x k]; [done|]. cbn.
    destruct (ascii_dec b x) as [->|Hne].
    + rewrite N.ltb_irrefl, N.eqb_refl. cbn. destruct k; cbn; rewrite ?Hb;
        destruct (N.ltb_spec (N_of_ascii x) (N_of_ascii x + 1)); try done; lia.
    + assert (N_of_ascii b ≠ N_of_ascii x) by (intros ?%N_of_ascii_inj; done).
      destruct (N.ltb_spec (N_of_ascii x) (N_of_ascii b)), (N.eqb_spec (N_of_ascii x) (N_of_ascii b)),
        (N.ltb_spec (N_of_ascii x) (N_of_ascii b')), (N.eqb_spec (N_of_ascii x) (N_of_ascii b')); cbn;
        try done; try lia; destruct k; cbn; rewrite ?andb_false_r; done.
  - destruct k as [|x k]; [done|]. rewrite !str_app_cons. cbn [String.prefix]. destruct (ascii_dec a x) as [<-|Hne].
    + unfold inRange. rewrite !strLt_irrefl_head. apply IH.
    + unfold inRange. cbn [strLt]. assert (N_of_ascii x ≠ N_of_ascii a) as Hn by (intros ?%N_of_ascii_inj; done).
      rewrite (proj2 (N.eqb_neq _ _) Hn). cbn. rewrite !orb_false_r. by destruct (_ <? _)%N.
Qed.

Section proofs.
Context `{PC : ProtocolConsts} `{GU : Gas.GasUtils} `{CH : Chain}.

(** [C33] A prefix iterator is created over exactly the keys with the prefix: for a key whose last
    byte is below 127, the range that is selected from the store contains a key if and only if it
    starts with the given one. *)
Theorem prefix_iterator_exact c called key params g g' r t b :
  splitLast key = Some (t, b) → (N_of_ascii b < 127)%N →
  Gas.CreateKvIteratorGasUsed (version c) (gasCfg c) params g = (g', None) →
  ∃ limit,
    kvPreIteratorCreate c called key params g r =
      (let '(res, s) := Select called key limit (r_sim r) in
       Ret (match res with inl it => inl (it, g') | inr e => inr (e, g') end, set_sim s r)) ∧
    ∀ k, inRange key limit k = String.prefix key k.
Proof.
  intros Hsp Hb Hg. apply splitLast_app in Hsp as Hkey.
  exists (t +:+ String (ascii_of_N (N_of_ascii b + 1)) ""). split.
  - unfold kvPreIteratorCreate. rewrite Hg. unfold prefixLimit. rewrite Hsp. cbn [mbind option_bind].
    rewrite N.mod_small by lia. unfold runeOfByte. destruct (N.ltb_spec (N_of_ascii b + 1) 128); [|lia].
    unfold sim, mbind, M_bind, deref, getS, putS, mret, M_ret.
    destruct (Select called key _ (r_sim r)) as [[it|e] s]; done.
  - intros k. rewrite Hkey. apply range_prefix. rewrite N_ascii_embedding; [done|lia].
Qed.

(** ** What the handlers leave alone *)

Lemma preserves_sim {A} (R : RuntimeInstance → RuntimeInstance → Prop) (f : Sim → A * Sim) :
  (∀ r, R r (set_sim (f (r_sim r)).2 r)) → preserves R (sim f).
Proof.
  intros Hf r a r'. unfold sim, mbind, M_bind, getS, putS, mret, M_ret. specialize (Hf r).
  destruct (f (r_sim r)) as [x s]. by intros [= _ <-].
Qed.

Lemma preserves_simRead {A} (R : RuntimeInstance → RuntimeInstance → Prop) `{!PreOrder R} (f : Sim → A) : preserves R (simRead f).
Proof. intros r a r' [= _ <-]. reflexivity. Qed.

Lemma preserves_simDo (R : RuntimeInstance → RuntimeInstance → Prop) (f : Sim → Sim) :
  (∀ r, R r (set_sim (f (r_sim r)) r)) → preserves R (simDo f).
Proof. intros Hf. by apply preserves_modify. Qed.

Lemma preserves_dur {A} (R : RuntimeInstance → RuntimeInstance → Prop) (m : M TimeStatics.Dur A) :
  (∀ r d, R r (set_dur d r)) → preserves R (dur m).
Proof. intros Hd r a r'. unfold dur. destruct (m (r_dur r)) as [[x d]| |]; [|done..]. by intros [= _ <-]. Qed.

(** A relation that the elementary operations keep, apart from those on the values of the context
    and the registrations, is kept by the handlers. *)
Class Frame (R : RuntimeInstance → RuntimeInstance → Prop) : Prop := {
  frame_pre :: PreOrder R;
  frame_dur d r : R r (set_dur d r);
  frame_row i r : R r (set_row i r);
  frame_event e r : R r (add_event e r);
  frame_disk d t r : R r (set_disk d t r);
  frame_Get c k r : R r (set_sim (Get c k (r_sim r)).2 r);
  frame_GetKeys l r : R r (set_sim (GetKeys l (r_sim r)).2 r);
  frame_ReadSet c k v r : R r (set_sim (PutIntoReadSet c k v (r_sim r)) r);
  frame_Select c k l r : R r (set_sim (Select c k l (r_sim r)).2 r);
  frame_History c k r : R r (set_sim (GetHistoryIterForKey c k (r_sim r)).2 r);
  frame_kvNext it r : R r (set_sim (kvNext it (r_sim r)).2 r);
  frame_kvRelease it r : R r (set_sim (kvRelease it (r_sim r)) r);
  frame_historyNext it r : R r (set_sim (historyNext it (r_sim r)).2 r);
  frame_historyRelease it r : R r (set_sim (historyRelease it (r_sim r)) r);
  frame_Set i h r : R r (set_sim (SetIterHandle i h (r_sim r)) r);
}.

End proofs.

Ltac frame_tac :=
  repeat (cbv beta zeta; match goal with
    | |- preserves _ (_ ≫= _) => apply preserves_bind; [apply _| |intros ?]
    | |- preserves _ (mret _) => apply preserves_ret; apply _
    | |- preserves _ getS => apply preserves_get; apply _
    | |- preserves _ panic => apply preserves_panic
    | |- preserves _ (deref _) => apply preserves_deref; apply _
    | |- preserves _ (simRead _) => apply preserves_simRead; apply _
    | |- preserves _ (sim _) => apply preserves_sim; intros ?
    | |- preserves _ (simDo _) => apply preserves_simDo; intros ?
    | |- preserves _ (dur _) => apply preserves_dur; intros ? ?
    | |- preserves _ (modifyS _) => apply preserves_modify; intros ?
    | |- preserves _ (match _ with _ => _ end) => case_match
    end);
  try solve [apply frame_dur|apply frame_row|apply frame_event|apply frame_disk|apply frame_Get|apply frame_GetKeys
            |apply frame_ReadSet|apply frame_Select|apply frame_History|apply frame_kvNext|apply frame_kvRelease
            |apply frame_historyNext|apply frame_historyRelease|apply frame_Set].

Section frame.
Context `{PC : ProtocolConsts} `{GU : Gas.GasUtils} `{CH : Chain}.
Context (R : RuntimeInstance → RuntimeInstance → Prop) `{!Frame R} (c : Call).

Lemma frame_AddLatest : preserves R (AddLatest c).
Proof. unfold AddLatest. frame_tac. Qed.

Lemma frame_mergeRead l name : preserves R (mergeReadList l name).
Proof. induction l as [|[k v] l IH]; cbn [mergeReadList]; frame_tac. apply IH. Qed.

Lemma frame_emitEvents txId l g : preserves R (emitEvents c txId l g).
Proof. revert g. induction l as [|e l IH]; intros g; cbn [emitEvents]; frame_tac. apply IH. Qed.

Lemma frame_mergeEvents l g : preserves R (mergeEvents c l g).
Proof. revert g. induction l as [|e l IH]; intros g; cbn [mergeEvents]; frame_tac. apply IH. Qed.

Lemma frame_newIterator h : preserves R (newIterator h).
Proof.
  unfold newIterator. intros r a r'. unfold mbind, M_bind, getS, putS, simDo, modifyS, mret, M_ret. intros [= _ <-].
  set (i := TimeStatics.i32 (r_rowIndex r + 1)). etrans; [apply (frame_row i)|apply (frame_Set i h (set_row i r))].
Qed.

Lemma frame_iteratorCreated h resp g : preserves R (iteratorCreated h resp g).
Proof. unfold iteratorCreated. frame_tac. apply frame_newIterator. Qed.

Lemma frame_getState txId m g : preserves R (handleGetStateRequest c txId m g).
Proof. unfold handleGetStateRequest. frame_tac; apply frame_AddLatest. Qed.

Lemma frame_getBatch txId m g : preserves R (handleGetBatchStateRequest c txId m g).
Proof. unfold handleGetBatchStateRequest. frame_tac; apply frame_AddLatest. Qed.

Lemma frame_consumeKv txId m g : preserves R (handleConsumeKvIterator c txId m g).
Proof.
  unfold handleConsumeKvIterator, consumeError, kvIteratorOp, kvIteratorHasNext, kvIteratorNext, kvIteratorClose. frame_tac.
Qed.

Lemma frame_consumeHistory txId m g : preserves R (handleConsumeKeyHistoryIterator c txId m g).
Proof.
  unfold handleConsumeKeyHistoryIterator, keyHistoryIterHasNext, keyHistoryIterNext, keyHistoryIterClose. frame_tac.
Qed.

Lemma frame_sender txId g : preserves R (handleGetSenderAddress c txId g).
Proof. unfold handleGetSenderAddress. frame_tac. Qed.

Lemma frame_save io b path dir : preserves R (saveBytesToDisk io b path dir).
Proof. unfold saveBytesToDisk. frame_tac. Qed.

Lemma frame_extract io b name : preserves R (extractContract c io b name).
Proof.
  assert (∀ files, preserves R (pickBinary c io files name)) as Hp.
  { induction files as [|[n x] files IH]; cbn [pickBinary]; frame_tac; [apply IH|apply frame_save]. }
  unfold extractContract. frame_tac; [apply frame_save|apply Hp].
Qed.

Lemma frame_byteCode io txId m b : preserves R (handleGetByteCodeRequest c io txId m b).
Proof. unfold handleGetByteCodeRequest. frame_tac; (apply frame_AddLatest || apply frame_extract || apply frame_save). Qed.

(** The handlers that write values, when the relation allows it for the contract [name]. *)
Context (name : string).
Context (Hput : ∀ k v r, R r (set_sim (Put name k v (r_sim r)).2 r)).

Lemma frame_mergeWrite l g : preserves R (mergeWriteList c l g name).
Proof.
  revert g. induction l as [|[k v] l IH]; intros g; cbn [mergeWriteList]; frame_tac; try apply IH.
  all: match goal with H : negb (String.eqb _ _) = false |- _ => apply negb_false_iff, String.eqb_eq in H as -> end.
  all: apply Hput.
Qed.

Lemma frame_txResponse txId m g ty : preserves R (handleTxResponse c txId m g ty name).
Proof.
  unfold handleTxResponse, mergeSimContextReadMap, mergeSimContextWriteMap.
  frame_tac; (apply frame_mergeRead || apply frame_mergeWrite || apply frame_emitEvents).
Qed.

Lemma frame_chargeAgain p resp g e k : (∀ resp g, preserves R (k resp g)) → preserves R (chargeAgain c p resp g e k).
Proof. intros Hk. unfold chargeAgain. frame_tac; apply Hk. Qed.

Lemma frame_createKv txId m g : preserves R (handleCreateKvIterator c txId m g name).
Proof.
  unfold handleCreateKvIterator, mergeSimContextWriteMap, kvIteratorCreate, kvPreIteratorCreate. frame_tac.
  apply frame_chargeAgain. intros ? ?. frame_tac; [apply frame_mergeWrite|].
  do 2 (apply frame_chargeAgain; intros ? ?). frame_tac; apply frame_iteratorCreated.
Qed.

Lemma frame_createHistory txId m g : preserves R (handleCreateKeyHistoryIterator c txId m g name).
Proof.
  unfold handleCreateKeyHistoryIterator, mergeSimContextWriteMap. frame_tac; (apply frame_mergeWrite || apply frame_iteratorCreated).
Qed.

(** A call of another contract, when the relation allows whatever that contract does. *)
Lemma frame_callContract txId m g caller :
  (∀ r s, R r (set_sim s r)) → preserves R (handlerCallContract c txId m g caller).
Proof.
  intros Hs. unfold handlerCallContract, constructCallContractResponse. frame_tac; (apply frame_mergeEvents || apply Hs).
Qed.
End frame.

(** ** The handlers return *)

Section total.
Context `{PC : ProtocolConsts} `{GU : Gas.GasUtils} `{CH : Chain}.

(** The time statistics are in order and hold the duration of the transaction. *)
Definition ready (tx : nat) (r : RuntimeInstance) : Prop :=
  TimeStatics.sysOk (r_dur r) ∧ (tx < length (TimeStatics.d_tx (r_dur r)))%nat.

(** The code returns from every state in order, and leaves one. *)
Definition total {A} (tx : nat) (h : M RuntimeInstance A) : Prop := triple (ready tx) h (λ _, ready tx).

Lemma total_ret {A} tx (a : A) : total tx (mret a).
Proof. by apply triple_ret. Qed.

Lemma total_bind {A B} tx (m : M RuntimeInstance A) (f : A → M RuntimeInstance B) :
  total tx m → (∀ a, total tx (f a)) → total tx (m ≫= f).
Proof. intros Hm Hf. by eapply triple_bind. Qed.

Lemma total_get tx : total tx getS.
Proof. intros r Hr. by exists r, r. Qed.

Lemma total_modify tx f : (∀ r, r_dur (f r) = r_dur r) → total tx (modifyS f).
Proof. intros Hf r Hr. exists tt, (f r). split; [done|]. unfold ready. by rewrite Hf. Qed.

Lemma total_sim {A} tx (f : Sim → A * Sim) : total tx (sim f).
Proof.
  intros r Hr. unfold sim, mbind, M_bind, getS, putS, mret, M_ret. destruct (f (r_sim r)) as [a s]. by exists a, (set_sim s r).
Qed.

Lemma total_simRead {A} tx (f : Sim → A) : total tx (simRead f).
Proof. intros r Hr. by exists (f (r_sim r)), r. Qed.

Lemma total_simDo tx (f : Sim → Sim) : total tx (simDo f).
Proof. by apply total_modify. Qed.

Lemma total_deref {A} tx (o : option A) : is_Some o → total tx (deref o).
Proof. intros [a ->]. apply total_ret. Qed.

Lemma total_bind_deref {A B} tx (o : option A) a (f : A → M RuntimeInstance B) :
  o = Some a → total tx (f a) → total tx (deref o ≫= f).
Proof. by intros ->. Qed.

(** A call of the context whose answer is needed later. *)
Lemma total_sim_bind {A B} tx (f : Sim → A * Sim) (k : A → M RuntimeInstance B) :
  (∀ s, total tx (k (f s).1)) → total tx (sim f ≫= k).
Proof.
  intros Hk r Hr. destruct (Hk (r_sim r) (set_sim (f (r_sim r)).2 r) Hr) as (a & r' & E & Hr'). exists a, r'.
  split; [|done]. unfold sim, mbind, M_bind, getS, putS, mret, M_ret. by destruct (f (r_sim r)).
Qed.

Lemma total_dur {A} tx (m : M TimeStatics.Dur A) :
  (∀ d, TimeStatics.sysOk d → (tx < length (TimeStatics.d_tx d))%nat → TimeStatics.quietly m d) → total tx (dur m).
Proof.
  intros Hm r [Hok Htx]. destruct (Hm (r_dur r) Hok Htx) as (a & d & E & _ & [Hlen _] & Hd). unfold dur. rewrite E.
  exists a, (set_dur d r). split; [done|]. split; cbn; [auto|]. by rewrite Hlen.
Qed.
End total.

Ltac total_tac :=
  repeat (cbv beta zeta; match goal with
    | |- total _ (sim (CallContract _ _ _ _ _) ≫= _) => apply total_sim_bind; intros ?
    | |- total _ (_ ≫= _) => apply total_bind; [|intros ?]
    | |- total _ (mret _) => apply total_ret
    | |- total _ getS => apply total_get
    | |- total _ (simRead _) => apply total_simRead
    | |- total _ (sim _) => apply total_sim
    | |- total _ (simDo _) => apply total_simDo
    | |- total _ (modifyS _) => by apply total_modify
    | |- total _ (deref (m_SysCallMessage _)) => by apply total_deref
    | |- total _ (match _ with _ => _ end) => case_match
    end).

Section totals.
Context `{PC : ProtocolConsts} `{GU : Gas.GasUtils} `{CH : Chain}.
Context (c : Call).
Abbreviation tx := (c_txDuration c).

Lemma total_AddLatest : total tx (AddLatest c).
Proof. apply total_dur. intros d. apply TimeStatics.AddLatest_quiet. Qed.

Lemma total_mergeWrite l g name : total tx (mergeWriteList c l g name).
Proof. revert g. induction l as [|[k v] l IH]; intros g; cbn [mergeWriteList]; total_tac; apply IH. Qed.

Lemma total_mergeRead l name : total tx (mergeReadList l name).
Proof. induction l as [|[k v] l IH]; cbn [mergeReadList]; total_tac; apply IH. Qed.

Lemma total_emitEvents txId l g : total tx (emitEvents c txId l g).
Proof. revert g. induction l as [|e l IH]; intros g; cbn [emitEvents]; total_tac; apply IH. Qed.

Lemma total_mergeEvents l g : total tx (mergeEvents c l g).
Proof. revert g. induction l as [|e l IH]; intros g; cbn [mergeEvents]; total_tac; apply IH. Qed.

Lemma total_iteratorCreated h resp g : total tx (iteratorCreated h resp g).
Proof.
  unfold iteratorCreated. total_tac. intros r Hr. unfold newIterator. do 2 eexists. split; [reflexivity|]. done.
Qed.

Lemma total_getState txId m g : is_Some (m_SysCallMessage m) → total tx (handleGetStateRequest c txId m g).
Proof. intros. unfold handleGetStateRequest. total_tac; apply total_AddLatest. Qed.

Lemma total_getBatch txId m g : is_Some (m_SysCallMessage m) → total tx (handleGetBatchStateRequest c txId m g).
Proof. intros. unfold handleGetBatchStateRequest. total_tac; apply total_AddLatest. Qed.

Lemma total_consumeKv txId m g : is_Some (m_SysCallMessage m) → total tx (handleConsumeKvIterator c txId m g).
Proof.
  intros. unfold handleConsumeKvIterator, consumeError, kvIteratorOp, kvIteratorHasNext, kvIteratorNext, kvIteratorClose. total_tac.
Qed.

Lemma total_consumeHistory txId m g : is_Some (m_SysCallMessage m) → total tx (handleConsumeKeyHistoryIterator c txId m g).
Proof.
  intros. unfold handleConsumeKeyHistoryIterator, keyHistoryIterHasNext, keyHistoryIterNext, keyHistoryIterClose. total_tac.
Qed.

Lemma total_sender txId g : total tx (handleGetSenderAddress c txId g).
Proof. unfold handleGetSenderAddress. total_tac. Qed.

Lemma total_createHistory txId m g name :
  is_Some (m_SysCallMessage m) → total tx (handleCreateKeyHistoryIterator c txId m g name).
Proof.
  intros. unfold handleCreateKeyHistoryIterator, mergeSimContextWriteMap.
  total_tac; (apply total_mergeWrite || apply total_iteratorCreated).
Qed.

Lemma prefixLimit_some key : key ≠ "" → is_Some (prefixLimit key).
Proof.
  intros Hk. unfold prefixLimit. enough (is_Some (splitLast key)) as [[t b] ->] by by eexists.
  induction key as [|a key IH]; [done|]. cbn. destruct key as [|a' key]; [by eexists|].
  destruct IH as [[t b] E]; [done|]. rewrite E. by eexists.
Qed.

(** The start key of an iterator, as the store has it. *)
Definition startKey (m : DockerVMMessage) : string :=
  match m_SysCallMessage m with
  | Some sc => GetKeyStr (Gas.param (sc_Payload sc) Gas.KeyIterStartKey) (Gas.param (sc_Payload sc) Gas.KeyIterStartField)
  | None => ""
  end.

Lemma total_chargeAgain p resp g e k : (∀ resp g, total tx (k resp g)) → total tx (chargeAgain c p resp g e k).
Proof. intros Hk. unfold chargeAgain. total_tac; apply Hk. Qed.

Lemma total_createKv txId m g name :
  is_Some (m_SysCallMessage m) → startKey m ≠ "" → total tx (handleCreateKvIterator c txId m g name).
Proof.
  intros [sc Hsc] Hk. unfold startKey in Hk. unfold handleCreateKvIterator, mergeSimContextWriteMap, kvIteratorCreate, kvPreIteratorCreate.
  rewrite Hsc in Hk. apply (total_bind_deref _ _ sc); [done|]. cbv zeta.
  case_match. apply total_chargeAgain. intros ? ?. total_tac; [apply total_mergeWrite|].
  do 2 (apply total_chargeAgain; intros ? ?). total_tac; try apply total_iteratorCreated.
  all: by apply total_deref, prefixLimit_some.
Qed.

Lemma total_txResponse txId m g ty name : is_Some (m_Response m) → total tx (handleTxResponse c txId m g ty name).
Proof.
  intros. unfold handleTxResponse, mergeSimContextReadMap, mergeSimContextWriteMap. total_tac;
    try (apply total_mergeRead || apply total_mergeWrite || apply total_emitEvents). by apply total_deref.
Qed.

Lemma total_callContract `{!ChainView} `{!ChainLaws} txId m g caller :
  is_Some (m_SysCallMessage m) → is_Some (m_CrossContext m) → total tx (handlerCallContract c txId m g caller).
Proof.
  intros Hs Hc. unfold handlerCallContract, constructCallContractResponse.
  total_tac; try apply total_mergeEvents; apply total_deref; [done|].
  match goal with E : (CallContract ?a ?b ?d ?p ?x ?s).1 = _ |- _ =>
    pose proof (law_call_result a b d p x s) as Hr; rewrite E in Hr end. done.
Qed.
End totals.

(** ** The responses *)

Section answers.
Context `{PC : ProtocolConsts} `{GU : Gas.GasUtils} `{CH : Chain}.

(** Whatever is returned satisfies [P]. *)
Definition yields {A} (P : A → Prop) (h : M RuntimeInstance A) : Prop := ∀ r a r', h r = Ret (a, r') → P a.

Lemma yields_ret {A} (P : A → Prop) a : P a → yields P (mret a).
Proof. intros HP r x r' [= <- _]. done. Qed.

Lemma yields_bind {A B} (P : B → Prop) (m : M RuntimeInstance A) (f : A → M RuntimeInstance B) :
  (∀ a, yields P (f a)) → yields P (m ≫= f).
Proof. intros Hf r a r' (x & s1 & _ & H2)%bind_Ret. by eapply Hf. Qed.

(** A response to the sandbox: of the type asked for, with the key of the transaction. *)
Definition answer (chainId txId : string) (ty : DockerVMType) (resp : DockerVMMessage) : Prop :=
  m_TxId resp = txId ∧ m_Type resp = ty ∧ m_ChainId resp = chainId ∧ is_Some (m_SysCallMessage resp).

Lemma answer_upd chainId txId ty f resp : answer chainId txId ty resp → answer chainId txId ty (updSysCall f resp).
Proof. intros (? & ? & ? & [x Hx]). split_and!; [done..|]. cbn. rewrite Hx. by eexists. Qed.

Lemma answer_new c txId ty : answer (c_chainId c) txId ty (newEmptyResponse c txId ty).
Proof. split_and!; [done..|]. by eexists. Qed.
End answers.

Create HintDb answers.
#[export] Hint Resolve answer_upd answer_new : answers.
#[export] Hint Unfold setError failed setCode setMessage setPayload : answers.

Ltac yields_tac :=
  repeat (cbv beta zeta; match goal with
    | |- yields _ (_ ≫= _) => apply yields_bind; intros ?
    | |- yields _ (mret _) => apply yields_ret
    | |- yields _ (match _ with _ => _ end) => case_match
    end); cbn [fst];
  try match goal with |- answer _ _ _ _ => repeat case_match; autounfold with answers; auto 8 with answers end.

Section responses.
Context `{PC : ProtocolConsts} `{GU : Gas.GasUtils} `{CH : Chain}.
Context (c : Call) (txId : string).
Abbreviation answers ty := (yields (λ p, answer (c_chainId c) txId ty (p.1 : DockerVMMessage))).

Lemma answers_getState m g : answers GET_STATE_RESPONSE (handleGetStateRequest c txId m g).
Proof. unfold handleGetStateRequest. yields_tac. Qed.

Lemma answers_getBatch m g : answers GET_BATCH_STATE_RESPONSE (handleGetBatchStateRequest c txId m g).
Proof. unfold handleGetBatchStateRequest. yields_tac. Qed.

Lemma answers_consumeKv m g : answers CONSUME_KV_ITERATOR_RESPONSE (handleConsumeKvIterator c txId m g).
Proof.
  unfold handleConsumeKvIterator, consumeError, kvIteratorOp, kvIteratorHasNext, kvIteratorNext, kvIteratorClose. yields_tac.
Qed.

Lemma answers_consumeHistory m g : answers CONSUME_KEY_HISTORY_ITER_RESPONSE (handleConsumeKeyHistoryIterator c txId m g).
Proof.
  unfold handleConsumeKeyHistoryIterator, keyHistoryIterHasNext, keyHistoryIterNext, keyHistoryIterClose. yields_tac.
Qed.

Lemma answers_sender g : answers GET_SENDER_ADDRESS_RESPONSE (handleGetSenderAddress c txId g).
Proof. unfold handleGetSenderAddress. yields_tac. Qed.

Lemma answers_createHistory m g name : answers CREATE_KEY_HISTORY_TER_RESPONSE (handleCreateKeyHistoryIterator c txId m g name).
Proof. unfold handleCreateKeyHistoryIterator, iteratorCreated. yields_tac. Qed.

Lemma answers_chargeAgain ty p resp g e k : answer (c_chainId c) txId ty resp →
  (∀ resp g, answer (c_chainId c) txId ty resp → answers ty (k resp g)) → answers ty (chargeAgain c p resp g e k).
Proof. intros Hr Hk. unfold chargeAgain. yields_tac; apply Hk; autounfold with answers; auto with answers. Qed.

Lemma answers_createKv m g name : answers CREATE_KV_ITERATOR_RESPONSE (handleCreateKvIterator c txId m g name).
Proof.
  unfold handleCreateKvIterator. yields_tac. apply answers_chargeAgain; [auto with answers|]. intros ? ? ?. yields_tac.
  apply answers_chargeAgain; [done|]. intros ? ? ?. apply answers_chargeAgain; [done|]. intros ? ? ?.
  unfold iteratorCreated. yields_tac.
Qed.

Lemma answers_callContract m g caller :
  yields (λ p, answer (c_chainId c) txId CALL_CONTRACT_RESPONSE p.1.1) (handlerCallContract c txId m g caller).
Proof. unfold handlerCallContract. yields_tac. Qed.
End responses.

(** ** The gas stays within the limit *)

Section gasPrelude.
Context `{PC : ProtocolConsts} `{GU : Gas.GasUtils} `{CH : Chain}.

Lemma yields_bind_post {A B} (Q : A → Prop) (P : B → Prop) (m : M RuntimeInstance A) (f : A → M RuntimeInstance B) :
  yields Q m → (∀ a, Q a → yields P (f a)) → yields P (m ≫= f).
Proof. intros Hm Hf r a r' (x & s1 & H1 & H2)%bind_Ret. by eapply Hf; [eapply Hm|]. Qed.

Lemma yields_deref {A B} (P : B → Prop) (a : A) (f : A → M RuntimeInstance B) : yields P (f a) → yields P (deref (Some a) ≫= f).
Proof. done. Qed.

End gasPrelude.

(** What a gas function returned is within the limit when its argument was. *)
Ltac gas_known :=
  repeat match goal with
    | E : ?f = (?g, ?e) |- _ =>
      lazymatch type of g with Z => idtac end;
      lazymatch goal with _ : Gas.within g |- _ => fail | _ => idtac end;
      let Hw := fresh "Hw" in
      assert (Gas.within g) as Hw by (change g with ((g, e).1); rewrite <-E; repeat case_match; cbn [fst]; eauto with gasdb)
    end.

Ltac gas_tac :=
  repeat (cbv beta zeta; match goal with
    | |- yields _ (deref (Some _) ≫= _) => apply yields_deref
    | |- yields _ (_ ≫= _) => apply yields_bind; intros ?
    | |- yields _ (mret _) => apply yields_ret
    | |- yields _ (match _ with _ => _ end) => case_match
    end); cbn [fst snd]; gas_known; try (done || apply Gas.within_zero).

Section gasBounds.
Context `{PC : ProtocolConsts} `{GU : Gas.GasUtils} `{CH : Chain} `{!ChainView} `{!ProtocolConstsOk} `{!ChainLaws}.
Context (c : Call) (txId : string).
Abbreviation bounded := (yields (λ p, Gas.within (p.2 : Z))).
Abbreviation boundedFst := (yields (λ p, Gas.within (p.1 : Z))).

Lemma gas_getState m g : Gas.within g → bounded (handleGetStateRequest c txId m g).
Proof. intros Hg. unfold handleGetStateRequest. gas_tac. Qed.

Lemma gas_getBatch m g : Gas.within g → bounded (handleGetBatchStateRequest c txId m g).
Proof. intros Hg. unfold handleGetBatchStateRequest. gas_tac. Qed.

Lemma gas_consumeKv m g : Gas.within g → bounded (handleConsumeKvIterator c txId m g).
Proof.
  intros Hg. unfold handleConsumeKvIterator, consumeError, kvIteratorOp, kvIteratorHasNext, kvIteratorNext, kvIteratorClose. gas_tac.
Qed.

Lemma gas_consumeHistory m g : Gas.within g → bounded (handleConsumeKeyHistoryIterator c txId m g).
Proof.
  intros Hg. unfold handleConsumeKeyHistoryIterator, keyHistoryIterHasNext, keyHistoryIterNext, keyHistoryIterClose. gas_tac.
Qed.

Lemma gas_sender g : Gas.within g → bounded (handleGetSenderAddress c txId g).
Proof. intros Hg. unfold handleGetSenderAddress, Gas.GetSenderAddressGasUsed. gas_tac. Qed.

Lemma gas_mergeWrite l g name : Gas.within g → boundedFst (mergeWriteList c l g name).
Proof.
  revert g. induction l as [|[k v] l IH]; intros g Hg; cbn [mergeWriteList]; gas_tac; by apply IH.
Qed.

Lemma gas_emitEvents l g : Gas.within g → boundedFst (emitEvents c txId l g).
Proof. revert g. induction l as [|e l IH]; intros g Hg; cbn [emitEvents]; gas_tac; by apply IH. Qed.

Lemma gas_chargeAgain p resp g e k : Gas.within g → (∀ resp g, Gas.within g → bounded (k resp g)) →
  bounded (chargeAgain c p resp g e k).
Proof. intros Hg Hk. unfold chargeAgain. gas_tac; by apply Hk. Qed.

Lemma gas_iteratorCreated h resp g : Gas.within g → bounded (iteratorCreated h resp g).
Proof. intros Hg. unfold iteratorCreated. gas_tac. Qed.

Lemma gas_kvCreate (b : bool) called key p g : Gas.within g →
  yields (λ x : KvIterator * Z + gerr * Z, match x with inl (_, g) => Gas.within g | inr (_, g) => Gas.within g end)
    (if b then kvIteratorCreate c called p g else kvPreIteratorCreate c called key p g).
Proof. intros Hg. unfold kvIteratorCreate, kvPreIteratorCreate. gas_tac. Qed.

Lemma gas_createKv m g name : Gas.within g → bounded (handleCreateKvIterator c txId m g name).
Proof.
  intros Hg. unfold handleCreateKvIterator, mergeSimContextWriteMap. apply yields_bind. intros sc. cbv zeta.
  destruct (unmarshalWriteMap _) as [wm err]. apply gas_chargeAgain; [done|]. intros resp g1 Hg1.
  eapply yields_bind_post; [by apply gas_mergeWrite|]. intros [g2 e2] Hg2. cbn in Hg2.
  apply gas_chargeAgain; [done|]. intros resp2 g3 Hg3. apply gas_chargeAgain; [done|]. intros resp3 g4 Hg4. cbv zeta.
  case_match; [|case_match; [|by apply gas_iteratorCreated]].
  - eapply yields_bind_post; [by apply (gas_kvCreate true _ "")|].
    intros [[it g5]|[e g5]] Hg5; [by apply gas_iteratorCreated|by apply yields_ret].
  - eapply yields_bind_post; [by apply (gas_kvCreate false)|].
    intros [[it g5]|[e g5]] Hg5; [by apply gas_iteratorCreated|by apply yields_ret].
Qed.

Lemma gas_createHistory m g name : Gas.within g → bounded (handleCreateKeyHistoryIterator c txId m g name).
Proof.
  intros Hg. unfold handleCreateKeyHistoryIterator, mergeSimContextWriteMap. apply yields_bind. intros sc. cbv zeta.
  destruct (Gas.CreateKeyHistoryIterGasUsed _ _ _ _) as [g1 [e1|]] eqn:E1; gas_known; [by apply yields_ret|].
  destruct (unmarshalWriteMap _) as [wm [err|]]; [by apply yields_ret|].
  eapply yields_bind_post; [by apply gas_mergeWrite|]. intros [g2 [e2|]] Hg2; cbn in Hg2; [by apply yields_ret|].
  gas_tac. by apply gas_iteratorCreated.
Qed.

(** The gas of a result, too. *)
Lemma gas_txResponse m g ty name : Gas.within g →
  yields (λ p, Gas.within (cr_GasUsed p.1)) (handleTxResponse c txId m g ty name).
Proof.
  intros Hg. unfold handleTxResponse, mergeSimContextReadMap, mergeSimContextWriteMap. apply yields_bind. intros rp.
  cbv zeta. case_decide; [by apply yields_ret|]. apply yields_bind. intros [e|]; [apply yields_ret, Gas.within_zero|].
  eapply yields_bind_post; [by apply gas_mergeWrite|]. intros [g2 [e2|]] Hg2; cbn in Hg2; [by apply yields_ret|].
  eapply yields_bind_post; [by apply gas_emitEvents|]. intros [g3 [e3|]] Hg3; cbn in Hg3; [by apply yields_ret|].
  apply yields_bind. intros r. by apply yields_ret.
Qed.
End gasBounds.

(** ** Merging the results of a transaction *)

Section merge.
Context `{PC : ProtocolConsts} `{GU : Gas.GasUtils} `{CH : Chain} `{!ChainView} `{!ChainLaws}.
Context (c : Call) (name : string).

(** The key of the store that an entry of a read or write map stands for, when the entry belongs to
    the contract [name]. *)
Definition target (key : string) : option string :=
  match splitMapKey key with
  | contractName :: contractKey :: rest =>
    if String.eqb contractName name then Some (GetKeyStr contractKey (match rest with [f] => f | _ => "" end)) else None
  | _ => None
  end.

(** The last value that a list of entries has for a key of the store. *)
Fixpoint lastWrite (l : list (string * string)) (k : string) : option string :=
  match l with
  | [] => None
  | (key, v) :: l' =>
    match lastWrite l' k with
    | Some x => Some x
    | None => if decide (target key = Some k) then Some v else None
    end
  end.

Lemma target_inv key k : target key = Some k →
  ∃ ck rest, splitMapKey key = name :: ck :: rest ∧ k = GetKeyStr ck (match rest with [f] => f | _ => "" end).
Proof.
  unfold target. destruct (splitMapKey key) as [|n [|ck rest]]; [done..|].
  destruct (String.eqb_spec n name) as [->|]; [|done]. intros [= <-]. by exists ck, rest.
Qed.

Lemma mergeRead_ok l r : Forall (λ kv, is_Some (target kv.1)) l →
  ∃ s, mergeReadList l name r = Ret (None, set_sim s r) ∧ unchanged (r_sim r) s.
Proof.
  revert r. induction l as [|[key v] l IH]; intros r; cbn [mergeReadList].
  - intros _. exists (r_sim r). split; [by destruct r|reflexivity].
  - intros [[k Hk] Hl]%list.Forall_cons. cbn [fst] in Hk. apply target_inv in Hk as (ck & rest & -> & ->). rewrite String.eqb_refl. cbn [negb].
    set (s1 := PutIntoReadSet name (GetKeyStr ck match rest with [f] => f | _ => "" end) v (r_sim r)).
    destruct (IH (set_sim s1 r) Hl) as (s2 & E & Hu). exists s2.
    split; [exact E|]. etrans; [apply law_ReadSet|exact Hu].
Qed.

(** From version 2030102 on. *)
Context (Hversion : blockVersion2312 ≤ version c).

(** The store did not take a value of the list. *)
Definition putFails (l : list (string * string)) : Prop :=
  ∃ key v k s, (key, v) ∈ l ∧ target key = Some k ∧ is_Some (Put name k v s).1.

(** The values of the other contracts, and of the keys that the list does not write. *)
Definition restSame (l : list (string * string)) (s s' : Sim) : Prop :=
  (∀ n k, n ≠ name → peek s' n k = peek s n k) ∧
  (∀ k, (∀ kv, kv ∈ l → target kv.1 ≠ Some k) → peek s' name k = peek s name k).

Lemma mergeWrite_ok l g r : Forall (λ kv, is_Some (target kv.1)) l →
  ∃ e s, mergeWriteList c l g name r = Ret ((g, e), set_sim s r) ∧ restSame l (r_sim r) s ∧
    match e with
    | None => ∀ k, peek s name k = match lastWrite l k with Some v => Some v | None => peek (r_sim r) name k end
    | Some _ => putFails l
    end.
Proof.
  revert r. induction l as [|[key v] l IH]; intros r; cbn [mergeWriteList].
  - intros _. exists None, (r_sim r). split; [by destruct r|]. by repeat split.
  - intros [[sk Hk] Hl]%list.Forall_cons. cbn [fst] in Hk. cbn [lastWrite]. rewrite Hk. pose proof Hk as Htk.
    apply target_inv in Hk as (ck & rest & -> & ->). rewrite String.eqb_refl. cbn [negb]. cbv zeta.
    unfold Gas.PutStateGasUsed. change Gas.blockVersion2312 with blockVersion2312. rewrite (proj2 (Z.ltb_ge _ _) Hversion).
    unfold Gas.PutStateGasUsed2312. set (sk := GetKeyStr ck match rest with [f] => f | _ => "" end).
    pose proof (law_Put name sk v (r_sim r)) as Hpeek. pose proof (law_Put_fail name sk v (r_sim r)) as Hfail.
    unfold sim, mbind, M_bind, getS, putS, mret, M_ret. destruct (Put name sk v (r_sim r)) as [[e|] s1] eqn:E; cbn in Hpeek, Hfail.
    + exists (Some e), s1. split; [done|]. destruct Hfail as [Hs _]; [by eexists|]. split; [by split; intros; apply Hs|].
      exists key, v, sk, (r_sim r). split; [apply list_elem_of_here|]. split; [done|]. rewrite E. by eexists.
    + destruct (IH (set_sim s1 r) Hl) as (e & s2 & E2 & [Ho Hr] & Hs2). exists e, s2. cbn [r_sim set_sim] in *. split; [exact E2|]. split; [split|].
      * intros n k Hn. rewrite Ho, Hpeek, decide_False; naive_solver.
      * intros k Hk. rewrite Hr; [|set_solver]. rewrite Hpeek by done. rewrite decide_False; [done|]. intros [_ ->].
        by apply (Hk (key, v)); [set_solver|].
      * destruct e as [e|].
        -- destruct Hs2 as (key' & v' & k' & s' & ? & ?). exists key', v', k', s'. set_solver.
        -- intros k. rewrite Hs2. destruct (lastWrite l k); [done|]. rewrite Hpeek by done. repeat case_decide; naive_solver.
Qed.

Lemma emit_ok txId l g r : emitEvents c txId l g r =
  Ret ((g, None), mkRI (r_rowIndex r)
    (r_event r ++ ((λ e, Gas.mkContractEvent (ev_Topic e) txId (ev_ContractName e) (ev_Data e)) <$> l))
    (r_sim r) (r_dur r) (r_disk r) (r_tmpDirs r) (r_sent r) (r_sendResponseCh r)).
Proof.
  revert r. induction l as [|e l IH]; intros r; cbn [emitEvents].
  - cbn. rewrite app_nil_r. by destruct r.
  - unfold Gas.EmitEventGasUsed. change Gas.blockVersion2312 with blockVersion2312. rewrite (proj2 (Z.ltb_ge _ _) Hversion).
    unfold Gas.EmitEventGasUsed2312, mbind, M_bind, modifyS. rewrite IH. cbn. by rewrite <-app_assoc.
Qed.

Lemma lastWrite_none l k : (∀ kv, kv ∈ l → target kv.1 ≠ Some k) → lastWrite l k = None.
Proof.
  induction l as [|[a b] l IH]; intros Hno; [done|]. cbn [lastWrite]. rewrite IH by (intros; apply Hno; set_solver).
  rewrite decide_False; [done|]. apply (Hno (a, b)). set_solver.
Qed.

(** Distinct entries for distinct keys of the store: the order of the range does not matter. *)
Lemma lastWrite_perm (m : gmap string string) l k key v :
  l ≡ₚ map_to_list m → m !! key = Some v → target key = Some k →
  (∀ key', is_Some (m !! key') → target key' = Some k → key' = key) → lastWrite l k = Some v.
Proof.
  intros Hp Hm Hk Huniq. assert ((key, v) ∈ l) as Hin by (rewrite Hp; by apply elem_of_map_to_list).
  assert (∀ kv, kv ∈ l → target kv.1 = Some k → kv = (key, v)) as Hu.
  { intros [key' v'] Hin'. rewrite Hp in Hin'. apply elem_of_map_to_list in Hin'. cbn. intros Ht.
    assert (key' = key) as -> by (by apply Huniq; [eexists|]). congruence. }
  clear Hp. induction l as [|kv l IH]; [by apply not_elem_of_nil in Hin|]. destruct (decide ((key, v) ∈ l)) as [Hl|Hl].
  - destruct kv. cbn [lastWrite]. rewrite IH; [done..|]. intros. apply Hu; set_solver.
  - apply elem_of_cons in Hin as [<-|Hin]; [|done]. cbn [lastWrite]. rewrite lastWrite_none.
    + by rewrite decide_True.
    + intros kv Hkv Ht. rewrite <-(Hu kv) in Hl by set_solver. done.
Qed.

(** [C9] The effects of a transaction reach the chain's context exactly. From block version 2030102
    on, when all keys of the response belong to the contract and no two entries of the write map
    stand for the same key of the store: whatever the order in which Go ranges over the maps, no value of another contract and no value of
    a key without an entry changes, and the result has the response's result and the gas used so far. When the
    response's code is success, either every entry of the write map is the value of its key, the transaction succeeds, and the
    events follow those emitted before, with the transaction's id, or the store refused an entry, and the transaction fails. When the code
    is another one, the transaction fails with the response's message, and nothing at all has changed. *)
Theorem tx_response_merged txId m g ty r rp :
  m_Response m = Some rp →
  (∀ x, c_range c x ≡ₚ map_to_list x) →
  (∀ key, is_Some (rp_ReadMap rp !! key) → is_Some (target key)) →
  (∀ key, is_Some (rp_WriteMap rp !! key) → is_Some (target key)) →
  (∀ key key', is_Some (rp_WriteMap rp !! key) → is_Some (rp_WriteMap rp !! key') → target key = target key' → key = key') →
  ∃ res ty' r', handleTxResponse c txId m g ty name r = Ret ((res, ty'), r') ∧
    cr_GasUsed res = g ∧ cr_Result res = rp_Result rp ∧
    (∀ n k, n ≠ name → peek (r_sim r') n k = peek (r_sim r) n k) ∧
    (∀ k, (∀ key, is_Some (rp_WriteMap rp !! key) → target key ≠ Some k) → peek (r_sim r') name k = peek (r_sim r) name k) ∧
    if decide (rp_Code rp = OK) then
      (cr_Code res = 0 ∧ ty' = ty ∧
       (∀ key v k, rp_WriteMap rp !! key = Some v → target key = Some k → peek (r_sim r') name k = Some v) ∧
       cr_ContractEvent res =
         r_event r ++ ((λ e, Gas.mkContractEvent (ev_Topic e) txId (ev_ContractName e) (ev_Data e)) <$> rp_Events rp)) ∨
      (cr_Code res = 1 ∧ ty' = TxTypeNormal ∧
       ∃ key v k s, rp_WriteMap rp !! key = Some v ∧ target key = Some k ∧ is_Some (Put name k v s).1)
    else cr_Code res = 1 ∧ cr_Message res = rp_Message rp ∧ ty' = TxTypeNormal ∧ r' = r.
Proof.
  intros Hm Hrange Hread Hwrite Huniq.
  assert (∀ x key v, (key, v) ∈ c_range c x ↔ x !! key = Some v) as Hin.
  { intros x key v. rewrite Hrange. apply elem_of_map_to_list. }
  assert (∀ x, (∀ key, is_Some (x !! key) → is_Some (target key)) → Forall (λ kv, is_Some (target kv.1)) (c_range c x)) as HF.
  { intros x Hx. apply Forall_forall. intros [key v] Hi%Hin. apply Hx. by eexists. }
  destruct (mergeRead_ok _ r (HF _ Hread)) as (s1 & E1 & Hu1).
  destruct (mergeWrite_ok _ g (set_sim s1 r) (HF _ Hwrite)) as (e & s2 & E2 & [Ho Hr] & Hs2).
  unfold handleTxResponse, mergeSimContextReadMap, mergeSimContextWriteMap. rewrite Hm.
  unfold mbind, M_bind, deref, mret, M_ret. destruct (decide (rp_Code rp = OK)) as [Hc|Hc]; cycle 1.
  { rewrite decide_True by done. do 3 eexists. split; [reflexivity|]. by split_and!. }
  rewrite Hc. case_decide; [done|]. rewrite E1, E2.
  assert (∀ n k, n ≠ name → peek s2 n k = peek (r_sim r) n k) as Ho'.
  { intros n k Hn. rewrite Ho by done. apply Hu1. }
  assert (∀ k, (∀ key, is_Some (rp_WriteMap rp !! key) → target key ≠ Some k) → peek s2 name k = peek (r_sim r) name k) as Hr'.
  { intros k Hk. rewrite Hr; [apply Hu1|]. intros [key v] Hi%Hin. apply Hk. by eexists. }
  destruct e as [e|].
  - do 3 eexists. split; [reflexivity|]. split_and!; [done..|]. right. split_and!; [done..|].
    destruct Hs2 as (key & v & k & s & Hi%Hin & Hs2). by exists key, v, k, s.
  - rewrite emit_ok. unfold getS. do 3 eexists. split; [reflexivity|]. split_and!; [done..|]. left. split_and!; [done|done| |done].
    intros key v k Hkey Hk. cbn [r_sim set_sim]. rewrite Hs2. erewrite lastWrite_perm; [done|apply Hrange|done|done|].
    intros key' Hkey' Hk'. apply Huniq; [done|by eexists|congruence].
Qed.
End merge.

(** ** Iterators are found again *)

Section iterators.
Context `{PC : ProtocolConsts} `{GU : Gas.GasUtils} `{CH : Chain} `{!ChainView} `{!ChainLaws}.

Lemma i32_id z : - 2 ^ 31 ≤ z < 2 ^ 31 → TimeStatics.i32 z = z.
Proof. intros Hz. unfold TimeStatics.i32. rewrite Z.mod_small; lia. Qed.

(** No iterator is registered or lost. *)
Definition keepsIter (r r' : RuntimeInstance) : Prop :=
  r_rowIndex r' = r_rowIndex r ∧ ∀ j, GetIterHandle j (r_sim r') = GetIterHandle j (r_sim r).

#[local] Instance keepsIter_pre : PreOrder keepsIter.
Proof. split; [done|]. intros r1 r2 r3 [E1 H1] [E2 H2]. split; [congruence|]. intros j. by rewrite H2. Qed.

Lemma keeps_mergeWrite c l g name : preserves keepsIter (mergeWriteList c l g name).
Proof.
  revert g. induction l as [|[k v] l IH]; intros g; cbn [mergeWriteList]; frame_tac; try apply IH.
  all: split; [done|]; intros j; apply law_Put_handle.
Qed.

(** What the creation of an iterator leaves: a new registration, and its index in the response. *)
Definition created (h : option (KvIterator + HistoryIterator)) (r : RuntimeInstance) (resp : DockerVMMessage) (r' : RuntimeInstance) : Prop :=
  let i := TimeStatics.i32 (r_rowIndex r + 1) in
  r_rowIndex r' = i ∧ (∀ j, GetIterHandle j (r_sim r') = if decide (j = i) then Some h else GetIterHandle j (r_sim r)) ∧
  (∀ sc, m_SysCallMessage resp = Some sc → sc_Payload sc !! KeyIterIndex = Some (IntToBytes i)).

(** No index in the response. *)
Definition noIndex (resp : DockerVMMessage) : Prop :=
  ∀ sc, m_SysCallMessage resp = Some sc → sc_Payload sc !! KeyIterIndex = None.

Lemma noIndex_empty resp : noIndex (setPayload ∅ resp).
Proof. intros sc Hsc. cbn in Hsc. destruct (m_SysCallMessage resp); [|done]. by injection Hsc as <-. Qed.

Lemma iteratorCreated_spec h resp g r x r' : iteratorCreated h resp g r = Ret (x, r') → created h r x.1 r' ∧ x.2 = g.
Proof.
  unfold iteratorCreated, newIterator, mbind, M_bind, getS, putS, simDo, modifyS, mret, M_ret. intros [= <- <-].
  split; [|done]. split_and!; [done| |].
  - intros j. apply law_Set.
  - intros sc Hsc. cbn in Hsc. destruct (m_SysCallMessage resp); [|done]. injection Hsc as <-. cbn [sc_Payload]. apply lookup_insert_eq.
Qed.

Lemma chargeAgain_spec c p resp g e k r x r' : chargeAgain c p resp g e k r = Ret (x, r') →
  noIndex x.1 ∧ r' = r ∨ ∃ resp' g', k resp' g' r = Ret (x, r').
Proof.
  unfold chargeAgain. destruct e as [e|]; [|by eauto].
  destruct (Gas.CreateKvIteratorGasUsed _ _ _ _) as [g1 [e1|]]; [|by eauto]. intros [= <- <-]. left. split; [|done]. apply noIndex_empty.
Qed.

(** The range a request asks for: from its start key to its limit key, or the keys with its start
    key as a prefix. *)
Definition asksRange (p : payload) (lo hi : string) : Prop :=
  lo = GetKeyStr (Gas.param p Gas.KeyIterStartKey) (Gas.param p Gas.KeyIterStartField) ∧
  if String.eqb (Gas.param p KeyIteratorFuncName) FuncKvIteratorCreate
  then hi = GetKeyStr (Gas.param p Gas.KeyIterLimitKey) (Gas.param p Gas.KeyIterLimitField)
  else prefixLimit lo = Some hi.

(** The iterator that [Select] gave for the contract and the range of the request. *)
Definition selectedFor (p : payload) (it : KvIterator) : Prop :=
  ∃ lo hi s, asksRange p lo hi ∧ (Select (Gas.param p KeyContractName) lo hi s).1 = inl it.

(** The registered value: an iterator for the two functions that create one, else nil. *)
Definition selected (m : DockerVMMessage) (h : option (KvIterator + HistoryIterator)) : Prop :=
  ∀ sc, m_SysCallMessage m = Some sc →
    let func := Gas.param (sc_Payload sc) KeyIteratorFuncName in
    func = FuncKvIteratorCreate ∨ func = FuncKvPreIteratorCreate →
    ∃ it, h = Some (inl it) ∧ selectedFor (sc_Payload sc) it.

Lemma kvCreate_spec (b : bool) c p g r x r' : String.eqb (Gas.param p KeyIteratorFuncName) FuncKvIteratorCreate = b →
  (let key := GetKeyStr (Gas.param p Gas.KeyIterStartKey) (Gas.param p Gas.KeyIterStartField) in
   let called := Gas.param p KeyContractName in
   if b then kvIteratorCreate c called p g else kvPreIteratorCreate c called key p g) r = Ret (x, r') →
  keepsIter r r' ∧ match x with inl (it, _) => selectedFor p it | inr _ => True end.
Proof.
  intros Hb. cbv zeta.
  assert (∀ lo hi g', asksRange p lo hi → (it ← sim (Select (Gas.param p KeyContractName) lo hi);
      match it with inr err => mret (inr (err, g')) | inl it => mret (inl (it, g')) end) r = Ret (x, r') →
    keepsIter r r' ∧ match x with inl (it, _) => selectedFor p it | inr _ => True end) as Hsel.
  { intros lo hi g' Hrange (it & r1 & E1 & E2)%bind_Ret. pose proof (law_Select (Gas.param p KeyContractName) lo hi (r_sim r)) as [_ Hh].
    unfold sim, mbind, M_bind, getS, putS, mret, M_ret in E1. destruct (Select _ lo hi (r_sim r)) as [it' s'] eqn:E.
    injection E1 as <- <-. destruct it' as [it'|e]; injection E2 as <- <-; (split; [split; [done|exact Hh]|]); [|done].
    exists lo, hi, (r_sim r). by rewrite E. }
  destruct b; [unfold kvIteratorCreate|unfold kvPreIteratorCreate];
    destruct (Gas.CreateKvIteratorGasUsed _ _ _ _) as [g1 [e1|]]; try (by intros [= <- <-]); cbv zeta.
  - destruct (CheckKeyFieldStr _ _); [by intros [= <- <-]|]. apply Hsel. split; [done|]. by rewrite Hb.
  - destruct (prefixLimit _) as [hi|] eqn:E; [|done]. apply Hsel. split; [done|]. by rewrite Hb.
Qed.

Lemma createKv_spec c txId m g name r x r' : handleCreateKvIterator c txId m g name r = Ret (x, r') →
  noIndex x.1 ∨ ∃ h r1, keepsIter r r1 ∧ selected m h ∧ created h r1 x.1 r'.
Proof.
  unfold handleCreateKvIterator. intros (sc & r0 & E0 & E)%bind_Ret. cbv zeta in E.
  destruct (m_SysCallMessage m) as [sc'|] eqn:Hsc; [|done]. injection E0 as -> <-.
  destruct (unmarshalWriteMap _) as [wm err].
  apply chargeAgain_spec in E as [[? _]|(resp1 & g1 & ([g2 e2] & r1 & E1 & E)%bind_Ret)]; [by left|].
  pose proof (keeps_mergeWrite _ _ _ _ _ _ _ E1) as K1. cbv zeta in E.
  apply chargeAgain_spec in E as [[? _]|(resp2 & g3 & E)]; [by left|].
  apply chargeAgain_spec in E as [[? _]|(resp3 & g4 & E)]; [by left|]. cbv zeta in E.
  assert (∀ b, String.eqb (Gas.param (sc_Payload sc) KeyIteratorFuncName) FuncKvIteratorCreate = b →
    (res ← (let key := GetKeyStr (Gas.param (sc_Payload sc) Gas.KeyIterStartKey) (Gas.param (sc_Payload sc) Gas.KeyIterStartField) in
        let called := Gas.param (sc_Payload sc) KeyContractName in
        if b then kvIteratorCreate c called (sc_Payload sc) g4 else kvPreIteratorCreate c called key (sc_Payload sc) g4);
      match res with
      | inr (err, gasUsed) => mret (failed err resp3, gasUsed)
      | inl (it, gasUsed) => iteratorCreated (Some (inl it)) resp3 gasUsed
      end) r1 = Ret (x, r') → noIndex x.1 ∨ ∃ h r1, keepsIter r r1 ∧ selected m h ∧ created h r1 x.1 r') as Hkv.
  { intros b Hb ([[it g5]|[e g5]] & r2 & E2 & E3)%bind_Ret; apply kvCreate_spec in E2 as [K2 Hit]; try done.
    - apply iteratorCreated_spec in E3 as [? _]. right. exists (Some (inl it)), r2. split_and!; [by trans r1| |done].
      intros sc2 Hsc2. rewrite Hsc in Hsc2. injection Hsc2 as <-. cbv zeta. intros _. by exists it.
    - injection E3 as <- <-. left. apply noIndex_empty. }
  destruct (String.eqb (Gas.param (sc_Payload sc) KeyIteratorFuncName) FuncKvIteratorCreate) eqn:B1; [by apply (Hkv true)|].
  destruct (String.eqb (Gas.param (sc_Payload sc) KeyIteratorFuncName) FuncKvPreIteratorCreate) eqn:B2; [by apply (Hkv false)|].
  apply String.eqb_neq in B1, B2.
  apply iteratorCreated_spec in E as [? _]. right. exists None, r1. split_and!; [done| |done].
  intros sc2 Hsc2. rewrite Hsc in Hsc2. injection Hsc2 as <-. cbv zeta. by intros [|].
Qed.

Lemma consumeKv_lookup c txId m g r sc i it : m_SysCallMessage m = Some sc →
  BytesToInt (Gas.param (sc_Payload sc) KeyIterIndex) = inl i → GetIterHandle i (r_sim r) = Some (Some (inl it)) →
  handleConsumeKvIterator c txId m g r =
    kvIteratorOp c it (Gas.param (sc_Payload sc) KeyIteratorFuncName) g (newEmptyResponse c txId CONSUME_KV_ITERATOR_RESPONSE) r.
Proof.
  intros Hsc Hi Hit. unfold handleConsumeKvIterator. rewrite Hsc. cbn [deref]. unfold mbind at 1, M_bind at 1, mret at 1, M_ret at 1.
  cbv zeta. rewrite Hi. unfold simRead, mbind, M_bind, getS, mret, M_ret. by rewrite Hit.
Qed.

(** [C32] A new iterator is a round trip through the sandbox: when the answer to a request for a
    key-value iterator carries an index, that index is the next number, no iterator created before
    has lost its registration, and a later request that carries the same bytes, while the
    registration stands, is handled on the very iterator that [Select] gave for the contract and the range of the
    request. *)
Theorem iterator_roundtrip c txId m g name r x r' sc scR bytes : 0 ≤ r_rowIndex r < 2 ^ 31 - 1 →
  m_SysCallMessage m = Some sc →
  Gas.param (sc_Payload sc) KeyIteratorFuncName = FuncKvIteratorCreate ∨
  Gas.param (sc_Payload sc) KeyIteratorFuncName = FuncKvPreIteratorCreate →
  handleCreateKvIterator c txId m g name r = Ret (x, r') →
  m_SysCallMessage x.1 = Some scR → sc_Payload scR !! KeyIterIndex = Some bytes →
  r_rowIndex r' = r_rowIndex r + 1 ∧
  (∀ j, j ≤ r_rowIndex r → GetIterHandle j (r_sim r') = GetIterHandle j (r_sim r)) ∧
  ∃ it, selectedFor (sc_Payload sc) it ∧
    ∀ txId2 m2 sc2 g2 r2, m_SysCallMessage m2 = Some sc2 → sc_Payload sc2 !! KeyIterIndex = Some bytes →
      GetIterHandle (r_rowIndex r') (r_sim r2) = GetIterHandle (r_rowIndex r') (r_sim r') →
      handleConsumeKvIterator c txId2 m2 g2 r2 =
        kvIteratorOp c it (Gas.param (sc_Payload sc2) KeyIteratorFuncName) g2
          (newEmptyResponse c txId2 CONSUME_KV_ITERATOR_RESPONSE) r2.
Proof.
  intros Hr Hsc Hfunc E HR Hb.
  apply createKv_spec in E as [Hn|(h & r1 & [Krow Khandle] & Hsel & Hrow & Hh & Hresp)].
  { apply Hn in HR. congruence. }
  specialize (Hsel sc Hsc Hfunc) as (it & -> & Hit). pose proof (Hresp _ HR) as Hi. simplify_eq.
  assert (TimeStatics.i32 (r_rowIndex r1 + 1) = r_rowIndex r + 1) as Ei.
  { rewrite Krow. apply i32_id. lia. }
  rewrite Ei in *. split; [done|]. split.
  { intros j Hj. rewrite Hh. case_decide; [lia|]. apply Khandle. }
  exists it. split; [done|]. intros txId2 m2 sc2 g2 r2 Hsc2 Hp2 Hreg. eapply consumeKv_lookup; [done| |].
  - unfold Gas.param. rewrite Hp2. apply law_IntToBytes. lia.
  - rewrite Hrow in Hreg. rewrite Hreg, Hh. by case_decide.
Qed.

(** What creating an iterator costs before version 2030102. *)
Lemma createKv_charge v cfg p g `{!ProtocolConstsOk} : v < Gas.blockVersion2312 → 0 ≤ g →
  g + 10 ≤ GasLimit → Gas.CreateKvIteratorGasUsed v cfg p g = (g + 10, None).
Proof.
  intros Hv Hg Hl. unfold Gas.CreateKvIteratorGasUsed. rewrite (proj2 (Z.ltb_lt _ _) Hv).
  unfold Gas.CreateKvIteratorGasUsedLt2312, Gas.fixedGas, Gas.CheckGasLimit. pose proof gas_limit_range.
  change (u64_mul 10 Gas.KvIteratorCreateGasPrice) with 10.
  rewrite Gas.u64_add_small by lia. by rewrite (proj2 (Z.ltb_ge _ _) Hl).
Qed.

(** An empty prefix panics: the check of the start key only records its error, and the
    limit is computed from the last byte of the key; when a contract asks for the keys with the
    empty prefix and its gas lasts, the handler indexes an empty string, and nothing recovers. *)
Theorem empty_prefix_panics `{!ProtocolConstsOk} c txId m g name r sc :
  m_SysCallMessage m = Some sc → Gas.param (sc_Payload sc) KeyIteratorFuncName = FuncKvPreIteratorCreate →
  Gas.param (sc_Payload sc) Gas.KeyIterStartKey = "" → Gas.param (sc_Payload sc) Gas.KeyIterStartField = "" →
  unmarshalWriteMap (Gas.param (sc_Payload sc) KeyWriteMap) = (∅, None) → c_range c ∅ = [] →
  version c < version2312 → 0 ≤ g → g + 20 ≤ GasLimit →
  handleCreateKvIterator c txId m g name r = Panic.
Proof.
  intros Hsc Hf Hk Hfd Hw Hrange Hv Hg Hl.
  unfold handleCreateKvIterator. rewrite Hsc. cbn [deref]. unfold mbind at 1, M_bind at 1, mret at 1, M_ret at 1. cbv zeta.
  rewrite Hw, Hk, Hfd, Hf. cbn [chargeAgain]. unfold mergeSimContextWriteMap. rewrite Hrange. cbn [mergeWriteList].
  unfold mbind at 1, M_bind at 1, mret at 1, M_ret at 1. cbn [chargeAgain].
  change (String.eqb FuncKvPreIteratorCreate FuncKvIteratorCreate) with false.
  change (String.eqb FuncKvPreIteratorCreate FuncKvPreIteratorCreate) with true. cbv iota.
  assert (∀ resp g', 0 ≤ g' → g' + 10 ≤ GasLimit →
    (res ← kvPreIteratorCreate c (Gas.param (sc_Payload sc) KeyContractName) (GetKeyStr "" "") (sc_Payload sc) g';
     match res with
     | inr (err, gasUsed) => mret (failed err resp, gasUsed)
     | inl (it, gasUsed) => iteratorCreated (Some (inl it)) resp gasUsed
     end) r = Panic) as Hlast.
  { intros resp g' Hg' Hl'. unfold kvPreIteratorCreate. rewrite createKv_charge by done. by rewrite law_GetKeyStr_empty. }
  unfold chargeAgain. destruct (CheckKeyFieldStr "" "") as [e|]; [|apply Hlast; lia].
  rewrite createKv_charge by (done || lia). apply Hlast; lia.
Qed.
End iterators.

(** A last byte of 127 is not increased to a byte but to a rune of two bytes, so that the range
    holds keys without the prefix; from 255 the limit wraps around to zero, and the range is empty. *)
Example prefix_limit_127 :
  let key := String "127" "" in
  option_map (λ limit, inRange key limit (String "127" "#f")) (prefixLimit key) = Some true ∧
  option_map (λ limit, inRange key limit (String "193" "")) (prefixLimit key) = Some true ∧
  prefixLimit (String "255" "") = Some (String "000" "").
Proof. vm_compute. done. Qed.

(** ** Runs on a concrete context *)

Section samples.
#[local] Existing Instances sampleConsts sampleConsts_ok Gas.sampleGas sampleSim sampleView sampleSim_laws.

Definition sampleCall (blockVersion : Z) : Call :=
  mkCall "chain1" (mkTxEnv _ "tx1" blockVersion None None false 0 0 "") 0 true "/data" map_to_list 5.

(** One transaction has been started. *)
Definition sampleInstance : RuntimeInstance :=
  mkRI 3 [] (mkSim {[ ("erc20", "owner") := "alice" ]} {[ 3 := Some (inr tt) ]})
    (TimeStatics.mkDur [] [] [TimeStatics.mkTxDuration "tx1" "tx1#1" 0 0 0 0 0 0 0 0 0 0 [] [] false] ∅) ∅ ∅ [] [].

Definition sampleSysCall (ty : DockerVMType) (p : payload) : DockerVMMessage :=
  mkMessage "tx1#1" ty (Some (mkCross 0 "" 0)) (Some (mkSysCall OK "" p)) None None "chain1" [].

Definition sampleCreate : payload :=
  {[ KeyContractName := "erc20"; KeyIteratorFuncName := FuncKvPreIteratorCreate; Gas.KeyIterStartKey := "own"; KeyWriteMap := "{}" ]}.

Definition sampleResponse : DockerVMMessage :=
  mkMessage "tx1#1" TX_RESPONSE None None None
    (Some (mkResponse "tx1#1" OK "minted" "" {[ "erc20#owner" := "bob" ]} {[ "erc20#total#today" := "7" ]} [] "" "" "")) "chain1" [].
End samples.

Lemma prefix_iterator_exact_witness :
  ∃ limit, (kvPreIteratorCreate (GU := Gas.sampleGas) (PC := sampleConsts) (CH := sampleSim)
      (sampleCall 2030102) "erc20" "own" ∅ 0 sampleInstance = Ret (inl (tt, 0), sampleInstance)) ∧
    inRange "own" limit "owner" = true ∧ inRange "own" limit "oxide" = false.
Proof.
  destruct (prefix_iterator_exact (GU := Gas.sampleGas) (PC := sampleConsts) (CH := sampleSim)
    (sampleCall 2030102) "erc20" "own" ∅ 0 0 sampleInstance "ow" "n" eq_refl ltac:(vm_compute; reflexivity) ltac:(vm_compute; reflexivity))
    as (limit & E & H).
  exists limit. split; [exact E|]. rewrite !H. split; reflexivity.
Defined.

Lemma tx_response_merged_witness :
  ∃ res r', handleTxResponse (GU := Gas.sampleGas) (PC := sampleConsts) (CH := sampleSim)
      (sampleCall 2030102) "tx1" sampleResponse 11 TxTypeNormal "erc20" sampleInstance = Ret ((res, TxTypeNormal), r') ∧
    cr_GasUsed res = 11 ∧ ss_values (r_sim r') !! ("erc20", "owner") = Some "bob".
Proof.
  destruct (tx_response_merged (GU := Gas.sampleGas) (PC := sampleConsts) (CH := sampleSim) (H := sampleView)
    (H0 := sampleSim_laws) (sampleCall 2030102) "erc20" ltac:(vm_compute; congruence)
    "tx1" sampleResponse 11 TxTypeNormal sampleInstance _ eq_refl) as (res & ty' & r' & E & Hg & _ & _ & _ & H).
  - reflexivity.
  - intros key Hk. cbn [rp_ReadMap] in Hk. destruct Hk as [v [<- _]%lookup_singleton_Some]. vm_compute. eexists. reflexivity.
  - intros key Hk. cbn [rp_WriteMap] in Hk. destruct Hk as [v [<- _]%lookup_singleton_Some]. vm_compute. eexists. reflexivity.
  - intros key key' Hk Hk' _. cbn [rp_WriteMap] in Hk, Hk'. destruct Hk as [v [<- _]%lookup_singleton_Some].
    destruct Hk' as [v' [<- _]%lookup_singleton_Some]. reflexivity.
  - cbn [rp_Code] in H. rewrite decide_True in H by reflexivity. destruct H as [(_ & -> & Hv & _)|(_ & _ & key & v & k & s & _ & _ & [x Hx])].
    + exists res, r'. split; [exact E|]. split; [exact Hg|]. exact (Hv "erc20#owner" "bob" "owner" eq_refl eq_refl).
    + discriminate Hx.
Defined.

Lemma iterator_roundtrip_witness :
  match handleCreateKvIterator (GU := Gas.sampleGas) (PC := sampleConsts) (CH := sampleSim) (sampleCall 2030102) "tx1#1"
    (sampleSysCall CREATE_KV_ITERATOR_REQUEST sampleCreate) 0 "erc20" sampleInstance with
  | Ret (x, r') => r_rowIndex r' = 4 ∧ ss_handles (r_sim r') !! 3 = Some (Some (inr tt))
  | _ => False
  end.
Proof.
  assert (match handleCreateKvIterator (GU := Gas.sampleGas) (PC := sampleConsts) (CH := sampleSim) (sampleCall 2030102) "tx1#1"
    (sampleSysCall CREATE_KV_ITERATOR_REQUEST sampleCreate) 0 "erc20" sampleInstance with
    | Ret (x, r') => match m_SysCallMessage x.1 with Some sc => sc_Payload sc !! KeyIterIndex = Some "4" | None => False end
    | _ => False
    end) as Hp by (vm_compute; reflexivity).
  destruct (handleCreateKvIterator _ _ _ _ _ _) as [[x r']| |] eqn:E in Hp |- *; [|destruct Hp..].
  destruct (m_SysCallMessage x.1) as [scR|] eqn:HR; [|destruct Hp].
  destruct (iterator_roundtrip (GU := Gas.sampleGas) (PC := sampleConsts) (CH := sampleSim) (H := sampleView)
    (H0 := sampleSim_laws) (sampleCall 2030102) "tx1#1" (sampleSysCall CREATE_KV_ITERATOR_REQUEST sampleCreate) 0 "erc20" sampleInstance
    _ _ _ _ "4" ltac:(cbn; lia) eq_refl ltac:(right; reflexivity) E HR Hp) as (Hrow & Hold & _).
  split; [exact Hrow|]. exact (Hold 3 ltac:(cbn; lia)).
Defined.

Lemma empty_prefix_panics_witness :
  handleCreateKvIterator (GU := Gas.sampleGas) (PC := sampleConsts) (CH := sampleSim) (sampleCall 2030100) "tx1#1"
    (sampleSysCall CREATE_KV_ITERATOR_REQUEST {[ KeyIteratorFuncName := FuncKvPreIteratorCreate; KeyWriteMap := "{}" ]})
    100 "erc20" sampleInstance = Panic.
Proof.
  exact (empty_prefix_panics (GU := Gas.sampleGas) (PC := sampleConsts) (CH := sampleSim) (H := sampleView)
    (H0 := sampleSim_laws) (H1 := sampleConsts_ok) (sampleCall 2030100) "tx1#1"
    (sampleSysCall CREATE_KV_ITERATOR_REQUEST {[ KeyIteratorFuncName := FuncKvPreIteratorCreate; KeyWriteMap := "{}" ]})
    100 "erc20" sampleInstance _ eq_refl eq_refl eq_refl eq_refl eq_refl eq_refl
    ltac:(vm_compute; reflexivity) ltac:(lia) ltac:(vm_compute; congruence)).
Defined.
End RuntimeHandler.
