(* ===== verification/Runtime.v ===== *)
(** * runtime.go: the invocation of a contract

    [Invoke] sends the transaction to the engine and then serves, in one loop, the messages of the
    engine (requests for bytecode, errors) and of the sandbox (system calls, the response), until
    the response, an error, an unknown message or the timeout ends it. The channels of the
    invocation are the subject of Clients.v; here they are the sequence of messages that the loop
    takes, in any order. The responses to system calls go through the channel of the sandbox's stream, which has room for one: in
    between, the sending goroutine of the stream takes from it. *)

From S2P Require Import Prelude Messages EngineUtils Gas TimeStatics SimContext RuntimeHandler.

Module Runtime.
Export RuntimeHandler.

(** [strings.Contains(s, sub)]. *)
Fixpoint contains (sub s : string) : bool :=
  String.prefix sub s || match s with EmptyString => false | String _ s' => contains sub s' end.

Section runtime.
Context `{PC : ProtocolConsts} `{GU : Gas.GasUtils} `{CH : Chain}.

(** The arguments of [Invoke] and what it reads of the instance and of the client manager. *)
Record Args := mkArgs {
  v_chainId : string;
  v_env : TxEnv;
  v_contract : Contract;
  v_method : string;
  v_byteCode : string;
  v_parameters : gmap string string;
  v_uniqueTxKey : string;
  v_connected : bool;
  v_sendContract : bool;
  v_mountPath : string;
  v_slowDisable : bool;
  v_txSendChLen : Z;
}.
Context (v : Args).

Abbreviation MH A := (M RuntimeInstance A).

(** What a round of the loop meets: the clock when the system call starts and ends, the time spent
    in the storage, the record the pool gives, the order of the ranges over maps, the files. The last event is none of the loop: the
    sending goroutine of the sandbox's stream takes a response from its channel. *)
Record Tick := mkTick {
  t_start : Z;
  t_end : Z;
  t_elapsed : Z;
  t_pick : option nat;
  t_range : gmap string string → list (string * string);
  t_io : ExtractIo;
}.

Inductive event :=
| FromEngine (msg : DockerVMMessage) (t : Tick)
| FromSandbox (msg : DockerVMMessage) (t : Tick)
| TimeoutC
| ResponseTaken.

Definition callOf (tx : nat) (t : Tick) : Call :=
  mkCall (v_chainId v) (v_env v) tx (v_sendContract v) (v_mountPath v) (t_range t) (t_elapsed t).

Definition result : Type := ContractResult * ExecOrderTxType.

Definition initResult : ContractResult := mkResult 1 "" "" 0 [].

Definition getChainConfigDefaultGas : Z :=
  match x_defaultGas (v_env v) with Some g => if 0 <? g then g else 0 | None => 0 end.

(** The gas of the start, for versions below 2030102. *)
Definition startGas (gasUsed : Z) : Z * option gerr :=
  if x_blockVersion (v_env v) <? version2312 then
    match Gas.InitFuncGasUsedLt2312 gasUsed getChainConfigDefaultGas with
    | (gasUsed, Some err) => (gasUsed, Some err)
    | (gasUsed, None) => Gas.ContractGasUsed gasUsed (v_method v) (ct_Name (v_contract v)) (v_byteCode v)
    end
  else (gasUsed, None).

(** The parameters whose key contains "CONTRACT" are deleted. *)
Definition cleanParameters : gmap string string :=
  filter (λ kv, contains "CONTRACT" kv.1 = false) (v_parameters v).

Definition txRequest (now : Z) : DockerVMMessage :=
  TimeStatics.EnterNextStep (v_slowDisable v) now now now
    (mkMessage (v_uniqueTxKey v) TX_REQUEST (Some (mkCross (x_depth (v_env v)) "" (x_crossInfo (v_env v)))) None
       (Some (mkRequest (ct_Name (v_contract v)) (ct_Version (v_contract v)) (v_method v) cleanParameters (v_chainId v)))
       None (v_chainId v) [])
    RUNTIME_PREPARE_TX_REQUEST ("pos:" +:+ itoa (v_txSendChLen v)).

(** [Invoke] up to the loop: a result, or the gas used and the duration of the transaction. *)
Definition invokeStart (gasUsed now : Z) : MH (result + (Z * nat)) :=
  if negb (v_connected v) then mret (inl (errorResult initResult "contract engine client not connected"))
  else
    match startGas gasUsed with
    | (gasUsed, Some err) => mret (inl (errorResult (withGas gasUsed initResult) (errorText err)))
    | (gasUsed, None) =>
      tx ← dur (TimeStatics.NewTxDuration (x_TxId (v_env v)) (v_uniqueTxKey v) now);
      (if String.eqb (x_fingerprint (v_env v)) "" then mret tt else dur (TimeStatics.AddTx (x_fingerprint (v_env v)) tx));;
      modifyS (add_sent (ToEngine (txRequest now)));;
      mret (inr (gasUsed, tx))
    end.

(** The deferred functions: the durations. *)
Definition invokeEnd (tx : nat) (total : Z) : MH unit :=
  dur (TimeStatics.upd_tx tx (TimeStatics.set_TotalDuration total));;
  dur (TimeStatics.FinishTx (x_fingerprint (v_env v)) tx).

Definition endSysCall (tx : nat) (t : Tick) : MH unit := dur (TimeStatics.EndSysCall tx (t_end t));; mret tt.

(** [putResp] of the sandbox's stream: it waits while the channel, which has room for one response, is full. *)
Definition sendResponseChSize : nat := 1.
Definition sendSysResponse (m : DockerVMMessage) : MH unit :=
  r ← getS;
  if decide (length (r_sendResponseCh r) < sendResponseChSize)%nat
  then putS (set_sendResponseCh (r_sendResponseCh r ++ [m]) (add_sent (ToSandbox m) r)) else block.

(** The state of the loop: the gas used and the type of the transaction. *)
Definition loopState : Type := Z * ExecOrderTxType.

(** A system call whose handler gives a response and the gas. *)
Definition serve (tx : nat) (t : Tick) (special : ExecOrderTxType) (h : MH (DockerVMMessage * Z)) : MH (result + loopState) :=
  '(response, gasUsed) ← h;
  sendSysResponse response;;
  endSysCall tx t;;
  mret (inr (gasUsed, special)).

Definition onEngine (tx : nat) (msg : DockerVMMessage) (t : Tick) (st : loopState) : MH (result + loopState) :=
  let '(gasUsed, special) := st in
  dur (TimeStatics.StartSysCall tx (m_Type msg) (t_start t) (t_pick t));;
  match m_Type msg with
  | GET_BYTECODE_REQUEST =>
    response ← handleGetByteCodeRequest (callOf tx t) (t_io t) (v_uniqueTxKey v) msg (v_byteCode v);
    modifyS (add_sent (ToEngine response));;
    endSysCall tx t;;
    mret (inr st)
  | ERROR =>
    rp ← deref (m_Response msg);
    mret (inl (errorResult (withGas gasUsed initResult) (rp_Message rp)))
  | _ => mret (inl (errorResult (withGas gasUsed initResult) "unknown msg type"))
  end.

Definition onSandbox (tx : nat) (msg : DockerVMMessage) (t : Tick) (st : loopState) : MH (result + loopState) :=
  let '(gasUsed, special) := st in
  let c := callOf tx t in
  let key := v_uniqueTxKey v in
  let name := ct_Name (v_contract v) in
  dur (TimeStatics.StartSysCall tx (m_Type msg) (t_start t) (t_pick t));;
  match m_Type msg with
  | GET_STATE_REQUEST => serve tx t special (handleGetStateRequest c key msg gasUsed)
  | GET_BATCH_STATE_REQUEST =>
    if x_blockVersion (v_env v) <? version2310 then endSysCall tx t;; mret (inr st)
    else serve tx t special (handleGetBatchStateRequest c key msg gasUsed)
  | TX_RESPONSE =>
    res ← handleTxResponse c (x_TxId (v_env v)) msg gasUsed special name;
    endSysCall tx t;;
    mret (inl res)
  | CALL_CONTRACT_REQUEST =>
    '(response, gasUsed, crossTxType) ← handlerCallContract c key msg gasUsed (v_contract v);
    let special := if decide (crossTxType = TxTypeNormal) then special else crossTxType in
    sendSysResponse response;;
    endSysCall tx t;;
    mret (inr (gasUsed, special))
  | CREATE_KV_ITERATOR_REQUEST => serve tx t TxTypeIterator (handleCreateKvIterator c key msg gasUsed name)
  | CONSUME_KV_ITERATOR_REQUEST => serve tx t TxTypeIterator (handleConsumeKvIterator c key msg gasUsed)
  | CREATE_KEY_HISTORY_ITER_REQUEST => serve tx t TxTypeIterator (handleCreateKeyHistoryIterator c key msg gasUsed name)
  | CONSUME_KEY_HISTORY_ITER_REQUEST => serve tx t TxTypeIterator (handleConsumeKeyHistoryIterator c key msg gasUsed)
  | GET_SENDER_ADDRESS_REQUEST => serve tx t special (handleGetSenderAddress c key gasUsed)
  | _ => mret (inl (errorResult (withGas gasUsed initResult) "unknown msg type"))
  end.

Definition loopStep (tx : nat) (ev : event) (st : loopState) : MH (result + loopState) :=
  match ev with
  | FromEngine msg t => onEngine tx msg t st
  | FromSandbox msg t => onSandbox tx msg t st
  | TimeoutC => mret (inl (errorResult (withGas st.1 initResult) "tx timeout"))
  | ResponseTaken => modifyS (λ r, set_sendResponseCh (tail (r_sendResponseCh r)) r);; mret (inr st)
  end.

(** The loop on the messages it takes; [None] when it still waits after the last one. *)
Fixpoint loop (tx : nat) (evs : list event) (st : loopState) : MH (option result) :=
  match evs with
  | [] => mret None
  | ev :: evs' =>
    r ← loopStep tx ev st;
    match r with
    | inl res => mret (Some res)
    | inr st' => loop tx evs' st'
    end
  end.

(** [Invoke]: the result, or [None] while it waits for the next message. *)
Definition Invoke (gasUsed now total : Z) (evs : list event) : MH (option result) :=
  r ← invokeStart gasUsed now;
  match r with
  | inl res => mret (Some res)
  | inr (gasUsed, tx) =>
    res ← loop tx evs (gasUsed, TxTypeNormal);
    match res with
    | None => mret None
    | Some res => invokeEnd tx total;; mret (Some res)
    end
  end.
End runtime.

(** ** Proofs *)

Section proofs.
Context `{PC : ProtocolConsts} `{GU : Gas.GasUtils} `{CH : Chain} `{CV : !ChainView} `{CL : !ChainLaws}.

(** *** A transaction writes to its own contract *)

(** The other contracts' values are as before. *)
Definition ownOnly (name : string) (r r' : RuntimeInstance) : Prop :=
  ∀ c k, c ≠ name → peek (r_sim r') c k = peek (r_sim r) c k.

Lemma unchanged_own name r s : unchanged (r_sim r) s → ownOnly name r (set_sim s r).
Proof. intros [Hp _] c k _. apply Hp. Qed.

#[local] Instance ownOnly_frame name : Frame (ownOnly name).
Proof.
  assert (PreOrder (ownOnly name)).
  { split; [done|]. intros r1 r2 r3 H1 H2 c k Hc. by rewrite H2, H1. }
  split; try done; intros; try solve [apply unchanged_own; apply law_Get || apply law_GetKeys || apply law_ReadSet ||
    apply law_Select || apply law_History || apply law_kvNext || apply law_kvRelease || apply law_historyNext ||
    apply law_historyRelease].
  intros ? ? _. apply law_Set_peek.
Qed.

Lemma ownOnly_put name k v r : ownOnly name r (set_sim (Put name k v (r_sim r)).2 r).
Proof.
  intros c k' Hc. cbn. destruct (Put name k v (r_sim r)).1 as [e|] eqn:E.
  - by apply law_Put_fail.
  - rewrite law_Put by done. rewrite decide_False; naive_solver.
Qed.

(** A relation that what is sent does not concern. *)
Definition sendFree (R : RuntimeInstance → RuntimeInstance → Prop) : Prop :=
  (∀ x r, R r (add_sent x r)) ∧ (∀ l r, R r (set_sendResponseCh l r)).

(** The elementary steps of the loop. *)
Lemma frame_send (R : RuntimeInstance → RuntimeInstance → Prop) `{!Frame R} (Hs : sendFree R) m : preserves R (sendSysResponse m).
Proof.
  intros r a r'. unfold sendSysResponse, mbind, M_bind, getS, putS. case_decide; [|done]. intros [= _ <-].
  etrans; [apply (proj1 Hs (ToSandbox m))|apply Hs].
Qed.

Lemma frame_sent (R : RuntimeInstance → RuntimeInstance → Prop) `{!Frame R} (Hs : sendFree R) tx t special h :
  preserves R h → preserves R (serve tx t special h).
Proof.
  intros Hh. unfold serve, endSysCall. apply preserves_bind; [apply _|done|]. intros [m g].
  apply preserves_bind; [apply _|by apply frame_send|]. intros _. frame_tac.
Qed.

Lemma frame_onEngine (R : RuntimeInstance → RuntimeInstance → Prop) `{!Frame R} (Hs : sendFree R) v tx msg t st :
  preserves R (onEngine v tx msg t st).
Proof. unfold onEngine, endSysCall. frame_tac; (apply frame_byteCode || apply Hs); apply _. Qed.

Lemma frame_onSandbox (R : RuntimeInstance → RuntimeInstance → Prop) `{!Frame R} (Hs : sendFree R) v tx msg t st :
  (∀ k x r, R r (set_sim (Put (ct_Name (v_contract v)) k x (r_sim r)).2 r)) →
  m_Type msg ≠ CALL_CONTRACT_REQUEST ∨ (∀ r s, R r (set_sim s r)) →
  preserves R (onSandbox v tx msg t st).
Proof.
  intros Hput Hcall. unfold onSandbox. destruct st as [g special]. frame_tac; try done;
    try (apply frame_sent; [done..|]);
    try solve [apply frame_getState; apply _|apply frame_getBatch; apply _|by apply frame_createKv|by apply frame_createHistory
      |apply frame_consumeKv; apply _|apply frame_consumeHistory; apply _|apply frame_sender; apply _|by apply frame_txResponse].
  all: unfold endSysCall; frame_tac; try by apply frame_send.
  destruct Hcall as [Hcall|Hcall]; [congruence|by apply frame_callContract].
Qed.

(** No message of the run asks for a call of another contract. *)
Definition noCalls (evs : list event) : Prop :=
  Forall (λ ev, match ev with FromSandbox msg _ => m_Type msg ≠ CALL_CONTRACT_REQUEST | _ => True end) evs.

Lemma frame_loop (R : RuntimeInstance → RuntimeInstance → Prop) `{!Frame R} (Hs : sendFree R) v tx evs st :
  (∀ k x r, R r (set_sim (Put (ct_Name (v_contract v)) k x (r_sim r)).2 r)) → noCalls evs →
  preserves R (loop v tx evs st).
Proof.
  intros Hput. revert st. induction evs as [|ev evs IH]; intros st Hev; cbn [loop].
  - apply preserves_ret. apply _.
  - apply list.Forall_cons in Hev as [Hev Hevs]. apply preserves_bind; [apply _| |].
    + destruct ev as [m t|m t| |]; cbn [loopStep]; [by apply frame_onEngine| |apply preserves_ret; apply _|frame_tac; apply Hs].
      apply frame_onSandbox; auto.
    + intros [res|st']; [apply preserves_ret; apply _|by apply IH].
Qed.

Lemma frame_Invoke (R : RuntimeInstance → RuntimeInstance → Prop) `{!Frame R} (Hs : sendFree R) v g now total evs :
  (∀ k x r, R r (set_sim (Put (ct_Name (v_contract v)) k x (r_sim r)).2 r)) → noCalls evs →
  preserves R (Invoke v g now total evs).
Proof.
  intros Hput Hev. unfold Invoke, invokeStart, invokeEnd. frame_tac; [apply Hs|by apply frame_loop].
Qed.

(** [C20] A transaction changes the state of its own contract only. Whatever the sandbox and the
    engine send, in any order, as long as the contract does not call another one: when [Invoke]
    is over, every value of every other contract is what it was. *)
Theorem tx_writes_own_contract v g now total evs r res r' :
  noCalls evs → Invoke v g now total evs r = Ret (res, r') →
  ∀ c k, c ≠ ct_Name (v_contract v) → peek (r_sim r') c k = peek (r_sim r) c k.
Proof.
  intros Hev Hi. apply (frame_Invoke (ownOnly (ct_Name (v_contract v))) ltac:(by split) v g now total evs) in Hi; [done| |done].
  intros k x r0. apply ownOnly_put.
Qed.

(** *** System calls are answered *)

Definition responseType (ty : DockerVMType) : option DockerVMType :=
  match ty with
  | GET_STATE_REQUEST => Some GET_STATE_RESPONSE
  | GET_BATCH_STATE_REQUEST => Some GET_BATCH_STATE_RESPONSE
  | CALL_CONTRACT_REQUEST => Some CALL_CONTRACT_RESPONSE
  | CREATE_KV_ITERATOR_REQUEST => Some CREATE_KV_ITERATOR_RESPONSE
  | CONSUME_KV_ITERATOR_REQUEST => Some CONSUME_KV_ITERATOR_RESPONSE
  | CREATE_KEY_HISTORY_ITER_REQUEST => Some CREATE_KEY_HISTORY_TER_RESPONSE
  | CONSUME_KEY_HISTORY_ITER_REQUEST => Some CONSUME_KEY_HISTORY_ITER_RESPONSE
  | GET_SENDER_ADDRESS_REQUEST => Some GET_SENDER_ADDRESS_RESPONSE
  | _ => None
  end.

(** A system call as the SDK of a contract builds it: it has its payload (and context, for a call),
    batches are used from version 2030100 on, and an iterator has a start key. *)
Definition wellFormed (v : Args) (msg : DockerVMMessage) : Prop :=
  is_Some (m_SysCallMessage msg) ∧
  match m_Type msg with
  | GET_BATCH_STATE_REQUEST => version2310 ≤ x_blockVersion (v_env v)
  | CREATE_KV_ITERATOR_REQUEST => startKey msg ≠ ""
  | CALL_CONTRACT_REQUEST => is_Some (m_CrossContext msg)
  | _ => True
  end.

(** The handlers send nothing themselves. *)
Definition sentSame (r r' : RuntimeInstance) : Prop := r_sent r' = r_sent r ∧ r_sendResponseCh r' = r_sendResponseCh r.

#[local] Instance sentSame_frame : Frame sentSame.
Proof. split; try done. split; [done|]. intros r1 r2 r3 [H1 H2] [H3 H4]. split; congruence. Qed.

(** The state after an answered call. *)
Definition answeredIn (v : Args) (tx : nat) (ty : DockerVMType) (r : RuntimeInstance) (m : M RuntimeInstance (result + loopState)) : Prop :=
  ∃ st' r' resp, m r = Ret (inr st', r') ∧ r_sent r' = r_sent r ++ [ToSandbox resp] ∧ r_sendResponseCh r' = [resp] ∧
    answer (v_chainId v) (v_uniqueTxKey v) ty resp ∧ ready tx r'.

Lemma total_endSysCall tx t : total tx (endSysCall tx t).
Proof.
  unfold endSysCall. total_tac. apply total_dur. intros d. apply TimeStatics.EndSysCall_quiet.
Qed.

(** What a system call does with the channel as it is: it is answered when the channel is empty, and else it waits. *)
Definition served (v : Args) (tx : nat) (ty : DockerVMType) (r : RuntimeInstance) (m : M RuntimeInstance (result + loopState)) : Prop :=
  if decide (r_sendResponseCh r = []) then answeredIn v tx ty r m else m r = Block.

Lemma sendSysResponse_empty m r : r_sendResponseCh r = [] → sendSysResponse m r = Ret (tt, set_sendResponseCh [m] (add_sent (ToSandbox m) r)).
Proof. intros H. unfold sendSysResponse, mbind, M_bind, getS, putS. rewrite H. by rewrite decide_True by (unfold sendResponseChSize; cbn; lia). Qed.

Lemma sendSysResponse_full m r : r_sendResponseCh r ≠ [] → sendSysResponse m r = Block.
Proof.
  intros H. unfold sendSysResponse, mbind, M_bind, getS. rewrite decide_False; [done|]. destruct (r_sendResponseCh r); [done|].
  unfold sendResponseChSize. cbn. lia.
Qed.

Lemma answered {A} v tx ty t (h : M RuntimeInstance A) (body : A → M RuntimeInstance (result + loopState)) f k r :
  total tx h → yields (λ a, answer (v_chainId v) (v_uniqueTxKey v) ty (f a)) h → preserves sentSame h →
  (∀ a, body a = (sendSysResponse (f a);; endSysCall tx t;; mret (inr (k a)))) →
  ready tx r → served v tx ty r (h ≫= body).
Proof.
  intros Ht Hy Hs Hb Hr. destruct (Ht r Hr) as (a & r1 & E & Hr1). specialize (Hb a). destruct (Hs _ _ _ E) as [Hs1 Hs2].
  unfold served. rewrite <-Hs2. unfold mbind, M_bind. case_decide as Hd; cycle 1.
  { rewrite E, Hb. unfold mbind, M_bind. by rewrite sendSysResponse_full. }
  set (r2 := set_sendResponseCh [f a] (add_sent (ToSandbox (f a)) r1)).
  destruct (total_endSysCall tx t r2 Hr1) as ([] & r3 & E3 & Hr3).
  assert (preserves sentSame (endSysCall tx t)) as Hend by (unfold endSysCall; frame_tac). destruct (Hend _ _ _ E3) as [H1 H2].
  exists (k a), r3, (f a). split_and!; [| |by rewrite H2|by eapply Hy|done].
  - rewrite E, Hb. unfold mbind, M_bind. rewrite sendSysResponse_empty by done. fold r2. by rewrite E3.
  - rewrite H1. cbn. by rewrite Hs1.
Qed.

Lemma serve_answered v tx ty t special h r :
  total tx h → yields (λ p, answer (v_chainId v) (v_uniqueTxKey v) ty p.1) h → preserves sentSame h → ready tx r →
  served v tx ty r (serve tx t special h).
Proof. intros. apply (answered v tx ty t h _ fst (λ p, (p.2, special))); [done..| |done]. by intros []. Qed.

(** Starting the measurement changes nothing else. *)
Lemma start_then {A} tx msg t (m : M RuntimeInstance A) r : ready tx r →
  ∃ d, (dur (TimeStatics.StartSysCall tx (m_Type msg) (t_start t) (t_pick t));; m) r = m (set_dur d r) ∧ ready tx (set_dur d r).
Proof.
  intros Hr. assert (total tx (dur (TimeStatics.StartSysCall tx (m_Type msg) (t_start t) (t_pick t)))) as Ht.
  { apply total_dur. intros d Hd _. by apply TimeStatics.StartSysCall_quiet. }
  destruct (Ht r Hr) as (a & r' & E & Hr'). unfold dur in E.
  destruct (TimeStatics.StartSysCall _ _ _ _ _) as [[x d]| |] eqn:Ed; [|done..]. injection E as _ <-.
  exists d. split; [|done]. unfold mbind, M_bind, dur. by rewrite Ed.
Qed.

Lemma syscall_served v tx msg t st r ty :
  ready tx r → wellFormed v msg → responseType (m_Type msg) = Some ty → served v tx ty r (onSandbox v tx msg t st).
Proof.
  intros Hr [Hsc Hwf] Hty. unfold onSandbox. destruct st as [g special]. cbv zeta.
  match goal with |- served _ _ _ _ (_ ≫= λ _, ?m) => destruct (start_then tx msg t m r Hr) as (d & E & Hr') end.
  unfold served, answeredIn. rewrite E. change (r_sent r) with (r_sent (set_dur d r)).
  change (r_sendResponseCh r) with (r_sendResponseCh (set_dur d r)). clear E Hr. revert Hr'. generalize (set_dur d r).
  clear r d. intros r Hr.
  destruct (m_Type msg) eqn:Ety; try discriminate Hty; injection Hty as <-.
  - apply serve_answered; [by apply (total_getState (callOf v tx t))|apply (answers_getState (callOf v tx t))|apply frame_getState, _|done].
  - apply (answered v tx _ t _ _ (λ p, p.1.1) (λ p, (p.1.2, if decide (p.2 = TxTypeNormal) then special else p.2))); [..|done].
    + by apply (total_callContract (callOf v tx t)).
    + apply (answers_callContract (callOf v tx t)).
    + by apply frame_callContract; [apply _|].
    + by intros [[? ?] ?].
  - apply serve_answered; [by apply (total_createKv (callOf v tx t))|apply (answers_createKv (callOf v tx t))| |done].
    by apply frame_createKv; [apply _|].
  - apply serve_answered; [by apply (total_consumeKv (callOf v tx t))|apply (answers_consumeKv (callOf v tx t))|apply frame_consumeKv, _|done].
  - apply serve_answered; [by apply (total_createHistory (callOf v tx t))|apply (answers_createHistory (callOf v tx t))| |done].
    by apply frame_createHistory; [apply _|].
  - apply serve_answered; [by apply (total_consumeHistory (callOf v tx t))|apply (answers_consumeHistory (callOf v tx t))
      |apply frame_consumeHistory, _|done].
  - apply serve_answered; [by apply (total_sender (callOf v tx t))|apply (answers_sender (callOf v tx t))|apply frame_sender, _|done].
  - rewrite (proj2 (Z.ltb_ge _ _) Hwf).
    apply serve_answered; [by apply (total_getBatch (callOf v tx t))|apply (answers_getBatch (callOf v tx t))|apply frame_getBatch, _|done].
Qed.

(** [C19] Every well-formed system call is answered, exactly once. From any state in order, the loop
    of [Invoke] serves it and does not panic: whatever the outcome of the call, it makes one response to the sandbox,
    of the type that belongs to the request and with the chain and key of the transaction. When the sandbox's stream has taken
    the response before, and so its channel is empty, the response is put into the channel and the loop goes on with the next message;
    otherwise the loop waits for the stream. *)
Theorem syscall_answered v tx msg t st r ty :
  ready tx r → wellFormed v msg → responseType (m_Type msg) = Some ty →
  if decide (r_sendResponseCh r = []) then answeredIn v tx ty r (onSandbox v tx msg t st)
  else onSandbox v tx msg t st r = Block.
Proof. apply syscall_served. Qed.

(** *** Gas *)

Context `{!ProtocolConstsOk}.

Definition stepBounded (x : result + loopState) : Prop :=
  match x with inl res => Gas.within (cr_GasUsed res.1) | inr st => Gas.within st.1 end.

Lemma serve_bounded tx t special h :
  yields (λ p, Gas.within p.2) h → yields stepBounded (serve tx t special h).
Proof.
  intros Hh. unfold serve. eapply yields_bind_post; [exact Hh|]. intros [resp g] Hg. cbn in Hg.
  do 2 (apply yields_bind; intros ?). by apply yields_ret.
Qed.

Lemma loopStep_bounded v tx ev st :
  match ev with FromSandbox msg _ => m_Type msg ≠ CALL_CONTRACT_REQUEST | _ => True end →
  Gas.within st.1 → yields stepBounded (loopStep v tx ev st).
Proof.
  destruct st as [g special]. cbn [fst]. intros Hev Hg. destruct ev as [msg t|msg t| |]; cbn [loopStep].
  - unfold onEngine. apply yields_bind. intros _.
    destruct (m_Type msg); try (by apply yields_ret); do 3 (try apply yields_bind; intros ?); by apply yields_ret.
  - unfold onSandbox. cbv zeta. apply yields_bind. intros _. destruct (m_Type msg); try (by apply yields_ret); try apply serve_bounded.
    + eapply yields_bind_post; [by apply gas_txResponse|]. intros res Hres. apply yields_bind. intros ?. by apply yields_ret.
    + by apply gas_getState.
    + done.
    + by apply gas_createKv.
    + by apply gas_consumeKv.
    + by apply gas_createHistory.
    + by apply gas_consumeHistory.
    + by apply gas_sender.
    + case_match; [apply yields_bind; intros ?; by apply yields_ret|]. apply serve_bounded. by apply gas_getBatch.
  - by apply yields_ret.
  - apply yields_bind. intros ?. by apply yields_ret.
Qed.

Lemma loop_bounded v tx evs st : noCalls evs → Gas.within st.1 →
  yields (λ o, match o with Some res => Gas.within (cr_GasUsed res.1) | None => True end) (loop v tx evs st).
Proof.
  intros Hev. revert st. induction Hev as [|ev evs Hev _ IH]; intros st Hg; cbn [loop]; [by apply yields_ret|].
  eapply yields_bind_post; [by apply loopStep_bounded|]. intros [res|st'] Hx; [by apply yields_ret|by apply IH].
Qed.

Lemma startGas_bounded v g : Gas.within g → Gas.within (startGas v g).1.
Proof.
  intros Hg. unfold startGas. case_match; [|done].
  pose proof (Gas.within_initFunc g (getChainConfigDefaultGas v) Hg) as Hi.
  destruct (Gas.InitFuncGasUsedLt2312 _ _) as [g1 [e|]]; cbn in Hi; [done|]. by apply Gas.within_contract.
Qed.

(** [C24] The gas of a result never exceeds the limit: when the gas used before is between zero and the limit, then, whatever the
    messages of the run, as long as the contract does not call another one (the gas of whose result is taken over unchecked), [Invoke]
    reports a number of gas units between zero and the limit of the protocol. *)
Theorem invoke_gas_bounded v g now total evs r res ty r' :
  0 ≤ g ≤ GasLimit → noCalls evs → Invoke v g now total evs r = Ret (Some (res, ty), r') → 0 ≤ cr_GasUsed res ≤ GasLimit.
Proof.
  intros Hg Hev Hi. apply (λ H : yields (λ o, match o with Some res => Gas.within (cr_GasUsed res.1) | None => True end)
    (Invoke v g now total evs), H _ _ _ Hi). clear Hi. unfold Invoke.
  pose proof (startGas_bounded v g Hg) as Hs. eapply (yields_bind_post (λ x, match x with
    inl res => Gas.within (cr_GasUsed res.1) | inr st => Gas.within st.1 end)).
  - unfold invokeStart. case_match; [apply yields_ret, Gas.within_zero|]. destruct (startGas v g) as [g1 [e|]]; cbn in Hs.
    + by apply yields_ret.
    + do 3 (apply yields_bind; intros ?). by apply yields_ret.
  - intros [res0|[g1 tx]] Hx; [by apply yields_ret|]. eapply yields_bind_post; [by apply loop_bounded|].
    intros [res0|] Hr; [|by apply yields_ret]. apply yields_bind. intros ?. by apply yields_ret.
Qed.

(** A response of a contract that has succeeded and written nothing. *)
Definition emptySuccess (m : DockerVMMessage) : Prop :=
  m_Type m = TX_RESPONSE ∧
  ∃ rp, m_Response m = Some rp ∧ rp_Code rp = OK ∧ rp_WriteMap rp = ∅ ∧ rp_ReadMap rp = ∅ ∧ rp_Events rp = [].

(** The system call for the sender when the gas does not suffice: it fails, and the gas is zero. *)
Lemma sender_over_limit v tx msg t g special r :
  ready tx r → r_sendResponseCh r = [] → Gas.within g → GasLimit < g + 10 → m_Type msg = GET_SENDER_ADDRESS_REQUEST →
  ∃ r', onSandbox v tx msg t (g, special) r = Ret (inr (0, special), r') ∧ ready tx r' ∧
    ∃ resp sc, r_sent r' = r_sent r ++ [ToSandbox resp] ∧ m_SysCallMessage resp = Some sc ∧ sc_Code sc = FAIL.
Proof.
  intros Hr Hch Hg Hover Hty. unfold onSandbox. cbv zeta.
  match goal with |- ∃ r', (_ ≫= λ _, ?m) r = _ ∧ _ => destruct (start_then tx msg t m r Hr) as (d & E & Hr') end.
  rewrite E, Hty. set (resp := failed Gas.overLimit (newEmptyResponse (callOf v tx t) (v_uniqueTxKey v) GET_SENDER_ADDRESS_RESPONSE)).
  assert (handleGetSenderAddress (callOf v tx t) (v_uniqueTxKey v) g = mret (resp, 0)) as Hh.
  { unfold handleGetSenderAddress, Gas.GetSenderAddressGasUsed, Gas.fixedGas, Gas.CheckGasLimit, Gas.GetSenderAddressGasPrice.
    pose proof gas_limit_range. destruct Hg. change (u64_mul 10 1) with 10. rewrite Gas.u64_add_small by lia. rewrite (proj2 (Z.ltb_lt _ _) Hover). done. }
  rewrite Hh. destruct (total_endSysCall tx t (set_sendResponseCh [resp] (add_sent (ToSandbox resp) (set_dur d r))) Hr') as ([] & r3 & E3 & Hr3).
  exists r3. split_and!; [|done|].
  - unfold serve, mbind, M_bind, mret at 1, M_ret at 1. rewrite sendSysResponse_empty by done. by rewrite E3.
  - exists resp. assert (preserves sentSame (endSysCall tx t)) as Hend by (unfold endSysCall; frame_tac).
    rewrite (proj1 (Hend _ _ _ E3)). eexists. split_and!; [done|done|]. cbn. apply law_fail.
Qed.

Lemma empty_response_ends v tx m t g special r :
  ready tx r → emptySuccess m → t_range t ∅ = [] →
  ∃ rp r', onSandbox v tx m t (g, special) r = Ret (inl (mkResult 0 (rp_Result rp) (rp_Message rp) g (r_event r), special), r').
Proof.
  intros Hr (Hty & rp & Hrp & Hc & Hw & Hrd & He) Hrange. exists rp. unfold onSandbox. cbv zeta.
  match goal with |- ∃ r', (_ ≫= λ _, ?k) r = _ => destruct (start_then tx m t k r Hr) as (d & E & Hr') end.
  rewrite E, Hty. destruct (total_endSysCall tx t (set_dur d r) Hr') as ([] & r3 & E3 & Hr3). exists r3.
  unfold handleTxResponse, mergeSimContextReadMap, mergeSimContextWriteMap. rewrite Hrp.
  unfold mbind, M_bind, deref, mret, M_ret, getS. rewrite Hc. case_decide; [done|].
  rewrite Hw, Hrd, He. cbn [c_range callOf]. rewrite Hrange. cbn [mergeReadList mergeWriteList emitEvents].
  unfold mret, M_ret. by rewrite E3.
Qed.

(** The gas limit can be passed: a transaction that asks for its sender when the gas left is
    less than the price gets a failure for this call, but its gas starts again from zero; when the
    contract then returns, the transaction succeeds and is charged nothing at all for what it has
    done. *)
Theorem over_limit_succeeds v tx msg m t1 t2 g special r :
  ready tx r → r_sendResponseCh r = [] → 0 ≤ g ≤ GasLimit → GasLimit < g + 10 → m_Type msg = GET_SENDER_ADDRESS_REQUEST →
  emptySuccess m → t_range t2 ∅ = [] →
  ∃ res r', loop v tx [FromSandbox msg t1; FromSandbox m t2] (g, special) r = Ret (Some (res, special), r') ∧
    cr_Code res = 0 ∧ cr_GasUsed res = 0.
Proof.
  intros Hr Hch Hg Hover Hty Hm Hrange. destruct (sender_over_limit v tx msg t1 g special r Hr Hch Hg Hover Hty) as (r1 & E1 & Hr1 & _).
  destruct (empty_response_ends v tx m t2 0 special r1 Hr1 Hm Hrange) as (rp & r2 & E2).
  exists (mkResult 0 (rp_Result rp) (rp_Message rp) 0 (r_event r1)), r2. split; [|by split].
  cbn [loop loopStep]. unfold mbind, M_bind. by rewrite E1, E2.
Qed.
End proofs.

(** ** Runs on a concrete context *)

Section samples.
#[local] Existing Instances sampleConsts sampleConsts_ok Gas.sampleGas sampleSim sampleView sampleSim_laws.

Definition sampleArgs : Args :=
  mkArgs "chain1" (mkTxEnv _ "tx1" 2030102 None None false 0 0 "") (mkContract "erc20" "v1") "mint" "bytes"
    {[ "amount" := "7"; "__CONTRACT_NAME__" := "erc20" ]} "tx1#1" true true "/data" true 0.

Definition sampleTick : Tick :=
  mkTick 10 12 1 None map_to_list
    (mkExtractIo "u" (mkSaveIo true None None None None) None (inl []) (mkSaveIo true None None None None)).

Definition sampleEvents : list event :=
  [FromSandbox (sampleSysCall GET_STATE_REQUEST {[ KeyContractName := "erc20"; KeyStateKey := "owner" ]}) sampleTick;
   ResponseTaken; FromSandbox (sampleSysCall CREATE_KV_ITERATOR_REQUEST sampleCreate) sampleTick;
   FromSandbox sampleResponse sampleTick].

Definition sampleEmpty : DockerVMMessage :=
  mkMessage "tx1#1" TX_RESPONSE None None None (Some emptyResponse) "chain1" [].
End samples.

Lemma sampleInstance_ready : ready (CH := sampleSim) 0 sampleInstance.
Proof. split; [|cbn; lia]. repeat constructor. Qed.

Lemma tx_writes_own_contract_witness :
  match Invoke (PC := sampleConsts) (GU := Gas.sampleGas) (CH := sampleSim) sampleArgs 0 5 9 sampleEvents sampleInstance with
  | Ret (Some (res, ty), r') => cr_Code res = 0 ∧ ss_values (r_sim r') !! ("erc20", "owner") = Some "bob" ∧
      ss_values (r_sim r') !! ("other", "owner") = None
  | _ => False
  end.
Proof.
  assert (match Invoke (PC := sampleConsts) (GU := Gas.sampleGas) (CH := sampleSim) sampleArgs 0 5 9 sampleEvents sampleInstance with
  | Ret (Some (res, ty), r') => cr_Code res = 0 ∧ ss_values (r_sim r') !! ("erc20", "owner") = Some "bob"
  | _ => False
  end) as Hp by (vm_compute; split; reflexivity).
  destruct (Invoke _ _ _ _ _ _) as [[[[res ty]|] r']| |] eqn:E in Hp |- *; try (destruct Hp; fail).
  destruct Hp as [Hc Hv]. split; [exact Hc|]. split; [exact Hv|].
  assert (noCalls sampleEvents) as Hn by (repeat constructor; cbn; discriminate).
  exact (tx_writes_own_contract (CV := sampleView) (CL := sampleSim_laws) sampleArgs 0 5 9 sampleEvents sampleInstance _ r'
    Hn E "other" "owner" ltac:(discriminate)).
Defined.

Lemma syscall_answered_witness :
  answeredIn (GU := Gas.sampleGas) (CH := sampleSim) sampleArgs 0 GET_SENDER_ADDRESS_RESPONSE sampleInstance
    (onSandbox (PC := sampleConsts) sampleArgs 0 (sampleSysCall GET_SENDER_ADDRESS_REQUEST ∅) sampleTick (0, TxTypeNormal)).
Proof.
  refine (syscall_answered (PC := sampleConsts) (GU := Gas.sampleGas) (CH := sampleSim) (CV := sampleView) (CL := sampleSim_laws)
    sampleArgs 0 (sampleSysCall GET_SENDER_ADDRESS_REQUEST ∅) sampleTick (0, TxTypeNormal) sampleInstance GET_SENDER_ADDRESS_RESPONSE _ _ _).
  - exact sampleInstance_ready.
  - split; [eexists; reflexivity|exact I].
  - reflexivity.
Defined.

Lemma invoke_gas_bounded_witness :
  match Invoke (PC := sampleConsts) (GU := Gas.sampleGas) (CH := sampleSim) sampleArgs 50 5 9 sampleEvents sampleInstance with
  | Ret (Some (res, ty), r') => 0 ≤ cr_GasUsed res ≤ 10000000000
  | _ => False
  end.
Proof.
  assert (match Invoke (PC := sampleConsts) (GU := Gas.sampleGas) (CH := sampleSim) sampleArgs 50 5 9 sampleEvents sampleInstance with
    | Ret (Some _, _) => true | _ => false end = true) as Hp by (vm_compute; reflexivity).
  destruct (Invoke _ _ _ _ _ _) as [[[[res ty]|] r']| |] eqn:E in Hp |- *; try discriminate Hp.
  exact (invoke_gas_bounded (H := sampleConsts_ok) sampleArgs 50 5 9 sampleEvents
    sampleInstance res ty r' ltac:(cbn; lia) ltac:(repeat constructor; cbn; discriminate) E).
Defined.

Lemma over_limit_succeeds_witness :
  ∃ res r', loop (PC := sampleConsts) (GU := Gas.sampleGas) (CH := sampleSim) sampleArgs 0
      [FromSandbox (sampleSysCall GET_SENDER_ADDRESS_REQUEST ∅) sampleTick; FromSandbox sampleEmpty sampleTick]
      (9999999995, TxTypeNormal) sampleInstance = Ret (Some (res, TxTypeNormal), r') ∧ cr_Code res = 0 ∧ cr_GasUsed res = 0.
Proof.
  apply (over_limit_succeeds (PC := sampleConsts) (GU := Gas.sampleGas) (CH := sampleSim) (CV := sampleView) (CL := sampleSim_laws)
    (H := sampleConsts_ok) sampleArgs 0 (sampleSysCall GET_SENDER_ADDRESS_REQUEST ∅) sampleEmpty sampleTick sampleTick).
  - exact sampleInstance_ready.
  - reflexivity.
  - cbn. lia.
  - cbn. lia.
  - reflexivity.
  - split; [reflexivity|]. exists emptyResponse. repeat split; reflexivity.
  - reflexivity.
Defined.
End Runtime.
