(* ===== verification/Streams.v ===== *)
(** * A stream with its two goroutines

    The servers and clients of both sides drive a gRPC stream with one goroutine that receives and
    one that sends. Each tells the other that the stream has failed by closing a stop channel, and
    reports its own end to a wait group. This file has the part that is the same everywhere: the
    program counters, the two stop channels and the wait group, and that no channel is closed twice,
    the wait group never becomes negative, and a goroutine that ends leaves the other one told or
    ended. *)

From S2P Require Import Prelude Messages.

Module Streams.

(** Where a goroutine is: at its [select], in the call of the stream, with a message that it has to
    pass on, or returned. *)
Inductive recvPc := RSelect | RRecv | RPass (m : DockerVMMessage) | REnd.
Inductive sendPc := SSelect | SSend (m : DockerVMMessage) | SEnd.

#[export] Instance recvPc_eq_dec : EqDecision recvPc.
Proof. solve_decision. Defined.
#[export] Instance sendPc_eq_dec : EqDecision sendPc.
Proof. solve_decision. Defined.

(** The stop channels (whether they are closed), the wait group and the two goroutines. *)
Record conn := mkConn {
  k_stopSend : bool;
  k_stopRecv : bool;
  k_wg : Z;
  k_recv : recvPc;
  k_send : sendPc;
}.

(** [wg.Add(2)] and the two [go] statements. *)
Definition newConn : conn := mkConn false false 2 RSelect SSelect.

Definition setRecv (p : recvPc) : M conn unit := modifyS (λ c, mkConn (k_stopSend c) (k_stopRecv c) (k_wg c) p (k_send c)).
Definition setSend (p : sendPc) : M conn unit := modifyS (λ c, mkConn (k_stopSend c) (k_stopRecv c) (k_wg c) (k_recv c) p).

(** [close] of a closed channel panics, and so does a wait group below zero. *)
Definition closeSend : M conn unit :=
  c ← getS; if k_stopSend c then panic else putS (mkConn true (k_stopRecv c) (k_wg c) (k_recv c) (k_send c)).
Definition closeRecv : M conn unit :=
  c ← getS; if k_stopRecv c then panic else putS (mkConn (k_stopSend c) true (k_wg c) (k_recv c) (k_send c)).
Definition wgDone : M conn unit :=
  c ← getS; if k_wg c <=? 0 then panic else putS (mkConn (k_stopSend c) (k_stopRecv c) (k_wg c - 1) (k_recv c) (k_send c)).

(** The error of a [Send] of the stream: [codes.ResourceExhausted], or another one. *)
Inductive sendError := ResourceExhausted | OtherError.

(** A component of the state that a goroutine works on. *)
Definition onFst {A B X} (m : M A X) : M (A * B) X := λ '(a, b),
  match m a with Ret (x, a') => Ret (x, (a', b)) | Panic => Panic | Block => Block end.
Definition onSnd {A B X} (m : M B X) : M (A * B) X := λ '(a, b),
  match m b with Ret (x, b') => Ret (x, (a, b')) | Panic => Panic | Block => Block end.

(** ** What holds in every state *)

(** The stop channels: each is closed only by a goroutine that returns, and one that has returned has
    told the other, or been told by it. *)
Record flagsOk (c : conn) : Prop := {
  fl_send : k_stopSend c = true → k_recv c = REnd;
  fl_recv : k_stopRecv c = true → k_send c = SEnd;
  fl_recvEnd : k_recv c = REnd → k_stopSend c = true ∨ k_stopRecv c = true;
  fl_sendEnd : k_send c = SEnd → k_stopRecv c = true ∨ k_stopSend c = true;
}.

(** The wait group counts the goroutines that run. *)
Definition running (c : conn) : Z := (if decide (k_recv c = REnd) then 0 else 1) + (if decide (k_send c = SEnd) then 0 else 1).
Definition wgOk (c : conn) : Prop := k_wg c = running c.

Lemma newConn_flags : flagsOk newConn.
Proof. by split. Qed.

Lemma newConn_wg : wgOk newConn.
Proof. done. Qed.

(** Moves of a goroutine that stays. *)
Lemma setRecv_ok c p : flagsOk c → k_recv c ≠ REnd → p ≠ REnd →
  ∃ c', setRecv p c = Ret (tt, c') ∧ flagsOk c' ∧ (wgOk c → wgOk c') ∧ k_recv c' = p ∧ k_send c' = k_send c.
Proof.
  intros [] Hc Hp. eexists. split; [reflexivity|]. split; [split; cbn; naive_solver|]. split; [|done].
  unfold wgOk, running. cbn. repeat case_decide; naive_solver.
Qed.

Lemma setSend_ok c p : flagsOk c → k_send c ≠ SEnd → p ≠ SEnd →
  ∃ c', setSend p c = Ret (tt, c') ∧ flagsOk c' ∧ (wgOk c → wgOk c') ∧ k_send c' = p ∧ k_recv c' = k_recv c.
Proof.
  intros [] Hc Hp. eexists. split; [reflexivity|]. split; [split; cbn; naive_solver|]. split; [|done].
  unfold wgOk, running. cbn. repeat case_decide; naive_solver.
Qed.

(** The ends of the goroutines, with the wait group. *)
Lemma recvStopped_ok c : flagsOk c → wgOk c → k_recv c ≠ REnd → k_stopRecv c = true →
  ∃ c', (wgDone;; setRecv REnd) c = Ret (tt, c') ∧ flagsOk c' ∧ wgOk c' ∧ k_recv c' = REnd ∧ k_send c' = k_send c.
Proof.
  intros [] Hw Hc Hs. unfold wgOk, running in Hw. rewrite decide_False in Hw by done.
  unfold wgDone, mbind, M_bind, getS, putS. destruct (Z.leb_spec (k_wg c) 0); [case_decide; lia|].
  eexists. split; [reflexivity|]. split; [split; cbn; naive_solver|]. split; [|done].
  unfold wgOk, running. cbn [k_wg k_recv k_send]. repeat case_decide; done || lia.
Qed.

Lemma recvFailed_ok c : flagsOk c → wgOk c → k_recv c ≠ REnd →
  ∃ c', (closeSend;; wgDone;; setRecv REnd) c = Ret (tt, c') ∧ flagsOk c' ∧ wgOk c' ∧ k_recv c' = REnd ∧ k_send c' = k_send c.
Proof.
  intros [] Hw Hc. unfold wgOk, running in Hw. rewrite decide_False in Hw by done.
  unfold closeSend, wgDone, mbind, M_bind, getS, putS. destruct (k_stopSend c) eqn:E; [naive_solver|]. cbn.
  destruct (Z.leb_spec (k_wg c) 0); [case_decide; lia|].
  eexists. split; [reflexivity|]. split; [split; cbn; naive_solver|]. split; [|done].
  unfold wgOk, running. cbn [k_wg k_recv k_send]. repeat case_decide; done || lia.
Qed.

Lemma sendStopped_ok c : flagsOk c → wgOk c → k_send c ≠ SEnd → k_stopSend c = true →
  ∃ c', (wgDone;; setSend SEnd) c = Ret (tt, c') ∧ flagsOk c' ∧ wgOk c' ∧ k_send c' = SEnd ∧ k_recv c' = k_recv c.
Proof.
  intros [] Hw Hc Hs. unfold wgOk, running in Hw. rewrite (decide_False (P := k_send c = SEnd)) in Hw by done.
  unfold wgDone, mbind, M_bind, getS, putS. destruct (Z.leb_spec (k_wg c) 0); [case_decide; lia|].
  eexists. split; [reflexivity|]. split; [split; cbn; naive_solver|]. split; [|done].
  unfold wgOk, running. cbn [k_wg k_recv k_send]. repeat case_decide; done || lia.
Qed.

Lemma sendFailed_ok c : flagsOk c → wgOk c → k_send c ≠ SEnd →
  ∃ c', (closeRecv;; wgDone;; setSend SEnd) c = Ret (tt, c') ∧ flagsOk c' ∧ wgOk c' ∧ k_send c' = SEnd ∧ k_recv c' = k_recv c.
Proof.
  intros [] Hw Hc. unfold wgOk, running in Hw. rewrite (decide_False (P := k_send c = SEnd)) in Hw by done.
  unfold closeRecv, wgDone, mbind, M_bind, getS, putS. destruct (k_stopRecv c) eqn:E; [naive_solver|]. cbn.
  destruct (Z.leb_spec (k_wg c) 0); [case_decide; lia|].
  eexists. split; [reflexivity|]. split; [split; cbn; naive_solver|]. split; [|done].
  unfold wgOk, running. cbn [k_wg k_recv k_send]. repeat case_decide; done || lia.
Qed.

(** The goroutines of the client have no wait group. *)
Lemma recvQuit_ok c : flagsOk c → k_recv c ≠ REnd → k_stopRecv c = true → ∃ c', setRecv REnd c = Ret (tt, c') ∧ flagsOk c' ∧ k_recv c' = REnd.
Proof. intros [] Hc Hs. eexists. split; [reflexivity|]. split; [split; cbn; naive_solver|done]. Qed.

Lemma recvBroken_ok c : flagsOk c → k_recv c ≠ REnd → ∃ c', (closeSend;; setRecv REnd) c = Ret (tt, c') ∧ flagsOk c' ∧ k_recv c' = REnd.
Proof.
  intros [] Hc. unfold closeSend, mbind, M_bind, getS, putS. destruct (k_stopSend c) eqn:E; [naive_solver|].
  eexists. split; [reflexivity|]. split; [split; cbn; naive_solver|done].
Qed.

Lemma sendQuit_ok c : flagsOk c → k_send c ≠ SEnd → k_stopSend c = true →
  ∃ c', setSend SEnd c = Ret (tt, c') ∧ flagsOk c' ∧ k_recv c' = k_recv c.
Proof. intros [] Hc Hs. eexists. split; [reflexivity|]. split; [split; cbn; naive_solver|done]. Qed.

Lemma sendBroken_ok c : flagsOk c → k_send c ≠ SEnd →
  ∃ c', (closeRecv;; setSend SEnd) c = Ret (tt, c') ∧ flagsOk c' ∧ k_recv c' = k_recv c.
Proof.
  intros [] Hc. unfold closeRecv, mbind, M_bind, getS, putS. destruct (k_stopRecv c) eqn:E; [naive_solver|].
  eexists. split; [reflexivity|]. split; [split; cbn; naive_solver|done].
Qed.
End Streams.
