(* ===== verification/RequestPool.v ===== *)
(** * runtime.go and contract_engine_client.go: the pool of requests

    [Invoke] takes the message of its request from a pool, assigns the fields, puts the message into the channel of
    the client manager, and gives it back to the pool when it returns, without a reset. The clients of all connections take messages
    from that channel; each records a step in the message it has taken and sends what the message contains then, and the
    send may fail. Here the objects are explicit: as long as no invocation returns
    while its request waits in the channel or in the hands of a client, what is sent is what the invocations asked for; an invocation that
    times out earlier breaks this. *)

From S2P Require Import Prelude Messages EngineUtils Gas TimeStatics SimContext RuntimeHandler Runtime Clients Streams.

Module RequestPool.
Import Runtime Streams.

(** ** Where a request waits *)

(** The sending goroutine of a client: at its [select], with a message it has taken, or with one in which it has recorded
    its step and which it is about to send. *)
Inductive hand (A : Type) := Idle | Took (a : A) | Ready (a : A).
Arguments Idle {A}.
Arguments Took {A} a.
Arguments Ready {A} a.

Definition held {A} (h : hand A) : option A := match h with Idle => None | Took a | Ready a => Some a end.
Definition hand_map {A B} (f : A → B) (h : hand A) : hand B :=
  match h with Idle => Idle | Took a => Took (f a) | Ready a => Ready (f a) end.

(** The requests of the invocations that are not yet in the channel, by their keys, the channel, and the clients. What waits is an
    object, or in the specification a value. *)
Record places (A : Type) := mkPlaces {
  prepared : gmap string A;
  txSendCh : list A;
  hands : gmap nat (hand A);
}.
Arguments mkPlaces {A} _ _ _.
Arguments prepared {A} _.
Arguments txSendCh {A} _.
Arguments hands {A} _.

Section places.
Context {A : Type}.

(** [cm.txSendCh <- txRequest]. *)
Definition putCh (key : string) (p : places A) : option (places A) :=
  a ← prepared p !! key;
  if decide (Z.of_nat (length (txSendCh p)) < Clients.txSize)
  then Some (mkPlaces (delete key (prepared p)) (txSendCh p ++ [a]) (hands p)) else None.

(** A client is started, and one at its [select] stops. *)
Definition connect (c : nat) (p : places A) : option (places A) :=
  if decide (hands p !! c = None) then Some (mkPlaces (prepared p) (txSendCh p) (<[c := Idle]> (hands p))) else None.
Definition stop (c : nat) (p : places A) : option (places A) :=
  match hands p !! c with Some Idle => Some (mkPlaces (prepared p) (txSendCh p) (delete c (hands p))) | _ => None end.

(** [sendMsgRoutine]: [txReq := <-c.clientMgr.GetTxSendCh()]. *)
Definition take (c : nat) (p : places A) : option (places A) :=
  match hands p !! c, txSendCh p with
  | Some Idle, a :: r => Some (mkPlaces (prepared p) r (<[c := Took a]> (hands p)))
  | _, _ => None
  end.

(** The step is recorded ([g]) in the message the client has taken. *)
Definition recorded (c : nat) (g : A → A) (p : places A) : option (A * places A) :=
  match hands p !! c with
  | Some (Took a) => Some (a, mkPlaces (prepared p) (txSendCh p) (<[c := Ready (g a)]> (hands p)))
  | _ => None
  end.

(** The [Send] of the stream has returned: the client goes on, unless the error is not [ResourceExhausted]. *)
Definition sent (c : nat) (o : option sendError) (p : places A) : option (A * places A) :=
  match hands p !! c with
  | Some (Ready a) =>
    Some (a, mkPlaces (prepared p) (txSendCh p)
               (match o with Some OtherError => delete c (hands p) | _ => <[c := Idle]> (hands p) end))
  | _ => None
  end.

(** The invocation returns with its request not in the channel. *)
Definition unprepare (key : string) (p : places A) : places A := mkPlaces (delete key (prepared p)) (txSendCh p) (hands p).

Definition inHands (h : gmap nat (hand A)) : list A := omap held (map_to_list h).*2.
Definition waiting (p : places A) : list A := (map_to_list (prepared p)).*2 ++ txSendCh p ++ inHands (hands p).

(** The places one by one. *)
Inductive place := PPrep (k : string) | PChan (i : nat) | PHand (c : nat).
#[export] Instance place_eq_dec : EqDecision place.
Proof. solve_decision. Defined.
Definition ref (p : places A) (q : place) : option A :=
  match q with PPrep k => prepared p !! k | PChan i => txSendCh p !! i | PHand c => hands p !! c ≫= held end.

Lemma inHands_elem h a : a ∈ inHands h ↔ ∃ c, h !! c ≫= held = Some a.
Proof.
  unfold inHands. rewrite list_elem_of_omap. split.
  - intros (x & ([c y] & -> & Hx)%list_elem_of_fmap & Hh). apply elem_of_map_to_list in Hx. exists c. cbn in *. by rewrite Hx.
  - intros [c Hc]. destruct (h !! c) as [x|] eqn:E; [|done]. exists x. split; [|done].
    apply list_elem_of_fmap. exists (c, x). split; [done|]. by apply elem_of_map_to_list.
Qed.

(** A client changes what it holds. *)
Lemma inHands_delete c h x : h !! c = Some x → inHands h ≡ₚ option_list (held x) ++ inHands (delete c h).
Proof.
  intros Hc. unfold inHands. rewrite <-(insert_delete_id _ _ _ Hc) at 1. rewrite map_to_list_insert by apply lookup_delete_eq.
  cbn. by destruct (held x).
Qed.

Lemma inHands_insert c h y : inHands (<[c := y]> h) ≡ₚ option_list (held y) ++ inHands (delete c h).
Proof.
  unfold inHands. rewrite <-insert_delete_eq, map_to_list_insert by apply lookup_delete_eq. cbn. by destruct (held y).
Qed.
End places.

Definition mapP {A B} (f : A → B) (p : places A) : places B :=
  mkPlaces (f <$> prepared p) (f <$> txSendCh p) (hand_map f <$> hands p).

Lemma mapP_ext {A B} (f g : A → B) p : (∀ q a, ref p q = Some a → f a = g a) → mapP f p = mapP g p.
Proof.
  intros H. unfold mapP. f_equal.
  - apply map_fmap_ext. intros k a Hk. by apply (H (PPrep k)).
  - apply list_fmap_ext. intros i a Hi. by apply (H (PChan i)).
  - apply map_fmap_ext. intros c h Hc. destruct h as [|a|a]; cbn; [done|f_equal..]; apply (H (PHand c)); cbn; by rewrite Hc.
Qed.

Section mapP.
Context {A B : Type} (f : A → B).

(** The operations do not look at what waits. *)
Lemma putCh_map key p : putCh key (mapP f p) = mapP f <$> putCh key p.
Proof.
  unfold putCh, mapP. cbn. rewrite lookup_fmap, length_fmap. destruct (prepared p !! key) as [a|]; [|done]. cbn.
  case_decide; [|done]. cbn. by rewrite fmap_delete, fmap_app.
Qed.

Lemma connect_map c p : connect c (mapP f p) = mapP f <$> connect c p.
Proof.
  unfold connect, mapP. cbn. rewrite lookup_fmap. rewrite (decide_ext _ (hands p !! c = None)) by apply fmap_None.
  case_decide; [|done]. cbn. by rewrite fmap_insert.
Qed.

Lemma stop_map c p : stop c (mapP f p) = mapP f <$> stop c p.
Proof. unfold stop, mapP. cbn. rewrite lookup_fmap. destruct (hands p !! c) as [[]|]; cbn; [|done..]. by rewrite fmap_delete. Qed.

Lemma take_map c p : take c (mapP f p) = mapP f <$> take c p.
Proof.
  unfold take, mapP. cbn. rewrite lookup_fmap. destruct (hands p !! c) as [[]|], (txSendCh p); cbn; try done. by rewrite fmap_insert.
Qed.

Lemma sent_map c o p : sent c o (mapP f p) = prod_map f (mapP f) <$> sent c o p.
Proof.
  unfold sent, mapP. cbn. rewrite lookup_fmap. destruct (hands p !! c) as [[]|]; cbn; try done.
  destruct o as [[]|]; unfold prod_map; cbn; by rewrite ?fmap_insert, ?fmap_delete.
Qed.

Lemma recorded_rest p c b :
  mkPlaces (prepared (mapP f p)) (txSendCh (mapP f p)) (<[c := Ready b]> (hands (mapP f p))) =
  let p' := mapP f (mkPlaces (prepared p) (txSendCh p) (delete c (hands p))) in
  mkPlaces (prepared p') (txSendCh p') (<[c := Ready b]> (hands p')).
Proof. unfold mapP. cbn. by rewrite fmap_delete, insert_delete_eq. Qed.

Lemma unprepare_map key p : unprepare key (mapP f p) = mapP f (unprepare key p).
Proof. unfold unprepare, mapP. cbn. by rewrite fmap_delete. Qed.

Lemma prepare_map k a p :
  mapP f (mkPlaces (<[k:=a]> (prepared p)) (txSendCh p) (hands p)) =
  mkPlaces (<[k:=f a]> (prepared (mapP f p))) (txSendCh (mapP f p)) (hands (mapP f p)).
Proof. unfold mapP. cbn. by rewrite fmap_insert. Qed.

Lemma waiting_map p : waiting (mapP f p) ≡ₚ f <$> waiting p.
Proof.
  unfold waiting, inHands, mapP. cbn. rewrite !map_to_list_fmap, !fmap_app, <-!list_fmap_compose. f_equiv; [|f_equiv].
  - done.
  - rewrite list_fmap_omap. apply reflexive_eq, list_omap_ext. rewrite Forall2_fmap_l, Forall2_fmap_r. apply Forall_Forall2_diag, Forall_true.
    by intros [c [|a|a]].
Qed.
End mapP.

(** ** The objects *)

Section pool.
Context `{GU : Gas.GasUtils}.

(** [dockerVMMsgPool.New]. *)
Definition newRequest : DockerVMMessage :=
  mkMessage "" UNDEFINED (Some (mkCross 0 "" 0)) None (Some (mkRequest "" "" "" ∅ "")) None "" [].

(** The assignments of [Invoke] to the message; a message without its parts is a nil dereference. *)
Definition assign (v : Args) (m : DockerVMMessage) : option DockerVMMessage :=
  match m_Request m, m_CrossContext m with
  | Some _, Some cc =>
    Some (mkMessage (v_uniqueTxKey v) TX_REQUEST (Some (mkCross (x_depth (v_env v)) (cc_ProcessName cc) (x_crossInfo (v_env v))))
            (m_SysCallMessage m)
            (Some (mkRequest (ct_Name (v_contract v)) (ct_Version (v_contract v)) (v_method v) (cleanParameters v) (v_chainId v)))
            (m_Response m) (v_chainId v) [])
  | _, _ => None
  end.

(** The objects, the pool, the requests of the invocations that have not returned, by their keys, and where they wait; what has
    been sent, and what was lost: a [Send] failed, or the invocation returned before its request was in the channel. *)
Record state := mkState {
  objects : list DockerVMMessage;
  dockerVMMsgPool : list nat;
  running : gmap string nat;
  waits : places nat;
  wire : list DockerVMMessage;
  lost : list DockerVMMessage;
}.

Definition set_waits (p : places nat) (s : state) : state :=
  mkState (objects s) (dockerVMMsgPool s) (running s) p (wire s) (lost s).

(** [dockerVMMsgPool.Get()]: any object of the pool ([pick]) or a new one. *)
Definition Get (pick : option nat) (s : state) : nat * state :=
  match pick ≫= (λ i, (i,.) <$> dockerVMMsgPool s !! i) with
  | Some (i, l) => (l, mkState (objects s) (delete i (dockerVMMsgPool s)) (running s) (waits s) (wire s) (lost s))
  | None => (length (objects s), mkState (objects s ++ [newRequest]) (dockerVMMsgPool s) (running s) (waits s) (wire s) (lost s))
  end.

Inductive act :=
| Prepare (v : Args) (now : Z) (pick : option nat)
| Put (key : string)
| Connect (c : nat)
| Stop (c : nat)
| Take (c : nat)
| Record_ (c : nat) (slowDisable : bool) (now : Z) (log : string)
| Sent (c : nat) (o : option sendError)
| Finish (key : string).

(** [Invoke] from the pool to the first step. *)
Definition prepare (v : Args) (now : Z) (pick : option nat) (s : state) : option state :=
  let '(l, s) := Get pick s in
  o ← objects s !! l;
  m ← assign v o;
  let m := TimeStatics.EnterNextStep (v_slowDisable v) now now now m RUNTIME_PREPARE_TX_REQUEST
             ("pos:" +:+ itoa (v_txSendChLen v)) in
  Some (mkState (<[l:=m]> (objects s)) (dockerVMMsgPool s) (<[v_uniqueTxKey v:=l]> (running s))
          (mkPlaces (<[v_uniqueTxKey v:=l]> (prepared (waits s))) (txSendCh (waits s)) (hands (waits s))) (wire s) (lost s)).

(** [EnterNextStep] of a client in the message it has taken. *)
Definition enter (slowDisable : bool) (now : Z) (log : string) (m : DockerVMMessage) : DockerVMMessage :=
  TimeStatics.EnterNextStep slowDisable now now now m RUNTIME_GRPC_SEND_TX_REQUEST log.

Definition record (c : nat) (slowDisable : bool) (now : Z) (log : string) (s : state) : option state :=
  '(l, p) ← recorded c id (waits s);
  o ← objects s !! l;
  Some (mkState (<[l:=enter slowDisable now log o]> (objects s)) (dockerVMMsgPool s) (running s) p (wire s) (lost s)).

(** [c.stream.Send(msg)]: what the object contains now is sent, or not. *)
Definition sendMsg (c : nat) (o : option sendError) (s : state) : option state :=
  '(l, p) ← sent c o (waits s);
  m ← objects s !! l;
  Some (match o with
        | None => mkState (objects s) (dockerVMMsgPool s) (running s) p (wire s ++ [m]) (lost s)
        | Some _ => mkState (objects s) (dockerVMMsgPool s) (running s) p (wire s) (lost s ++ [m])
        end).

(** [Invoke] returns: the deferred [dockerVMMsgPool.Put(dockerVMMsg)]. With [strict] it returns only when its request is neither
    in the channel nor in the hands of a client. *)
Definition finish (strict : bool) (key : string) (s : state) : option state :=
  l ← running s !! key;
  if strict && bool_decide (l ∈ txSendCh (waits s) ++ inHands (hands (waits s))) then None
  else
    Some (mkState (objects s) (l :: dockerVMMsgPool s) (delete key (running s)) (unprepare key (waits s)) (wire s)
            (lost s ++ option_list (prepared (waits s) !! key ≫= (objects s !!.)))).

Definition step (strict : bool) (a : act) (s : state) : option state :=
  match a with
  | Prepare v now pick => if decide (running s !! v_uniqueTxKey v = None) then prepare v now pick s else None
  | Put key => (λ p, set_waits p s) <$> putCh key (waits s)
  | Connect c => (λ p, set_waits p s) <$> connect c (waits s)
  | Stop c => (λ p, set_waits p s) <$> stop c (waits s)
  | Take c => (λ p, set_waits p s) <$> take c (waits s)
  | Record_ c slowDisable now log => record c slowDisable now log s
  | Sent c o => sendMsg c o s
  | Finish key => finish strict key s
  end.

Fixpoint run (strict : bool) (l : list act) (s : state) : option state :=
  match l with [] => Some s | a :: l => s' ← step strict a s; run strict l s' end.

Definition noPlaces {A} : places A := mkPlaces ∅ [] ∅.
Definition empty_state : state := mkState [] [] ∅ noPlaces [] [].

(** ** The specification: every invocation has a message of its own *)

Record vstate := mkV { v_waits : places DockerVMMessage; v_wire : list DockerVMMessage; v_lost : list DockerVMMessage }.

Definition vset (v : vstate) (p : places DockerVMMessage) : vstate := mkV p (v_wire v) (v_lost v).

Definition vstep (a : act) (s : vstate) : option vstate :=
  let p := v_waits s in
  match a with
  | Prepare v now _ =>
    if decide (prepared p !! v_uniqueTxKey v = None)
    then Some (vset s (mkPlaces (<[v_uniqueTxKey v:=txRequest v now]> (prepared p)) (txSendCh p) (hands p))) else None
  | Put key => vset s <$> putCh key p
  | Connect c => vset s <$> connect c p
  | Stop c => vset s <$> stop c p
  | Take c => vset s <$> take c p
  | Record_ c slowDisable now log => (λ x, vset s x.2) <$> recorded c (enter slowDisable now log) p
  | Sent c o =>
    (λ x, match o with None => mkV x.2 (v_wire s ++ [x.1]) (v_lost s) | Some _ => mkV x.2 (v_wire s) (v_lost s ++ [x.1]) end)
      <$> sent c o p
  | Finish key => Some (mkV (unprepare key p) (v_wire s) (v_lost s ++ option_list (prepared p !! key)))
  end.

Fixpoint vrun (l : list act) (s : vstate) : option vstate :=
  match l with [] => Some s | a :: l => s' ← vstep a s; vrun l s' end.

Definition vempty : vstate := mkV noPlaces [] [].

(** ** The account of the specification *)

(** A message without the times of its steps, what an invocation asks for, and the invocations. *)
Definition body (m : DockerVMMessage) : DockerVMMessage :=
  mkMessage (m_TxId m) (m_Type m) (m_CrossContext m) (m_SysCallMessage m) (m_Request m) (m_Response m) (m_ChainId m) [].
Definition request (v : Args) : DockerVMMessage :=
  mkMessage (v_uniqueTxKey v) TX_REQUEST (Some (mkCross (x_depth (v_env v)) "" (x_crossInfo (v_env v)))) None
    (Some (mkRequest (ct_Name (v_contract v)) (ct_Version (v_contract v)) (v_method v) (cleanParameters v) (v_chainId v)))
    None (v_chainId v) [].
Definition invocations (acts : list act) : list Args :=
  omap (λ a, match a with Prepare v _ _ => Some v | _ => None end) acts.

Lemma enter_body d a b c m t log : body (TimeStatics.EnterNextStep d a b c m t log) = body m.
Proof. unfold TimeStatics.EnterNextStep. by repeat case_match. Qed.

Lemma txRequest_body v now : body (txRequest v now) = request v.
Proof. unfold txRequest. by rewrite enter_body. Qed.

Definition everything (s : vstate) : list DockerVMMessage := v_wire s ++ v_lost s ++ waiting (v_waits s).

Definition asks (a : act) : list DockerVMMessage := match a with Prepare v _ _ => [request v] | _ => [] end.

Local Ltac account := cbn; rewrite !fmap_app; cbn; rewrite ?fmap_app, ?txRequest_body; cbn; solve_Permutation.

(** A step neither loses a request nor sends one twice. *)
Lemma vstep_account a s s' : vstep a s = Some s' → body <$> everything s' ≡ₚ (body <$> everything s) ++ asks a.
Proof.
  destruct s as [[pr ch hs] w lo]. unfold everything, waiting.
  destruct a as [v now pick|key|c|c|c|c d now log|c o|key]; cbn; rewrite ?app_nil_r.
  - case_decide as Hn; [|done]. intros [= <-]. cbn. rewrite map_to_list_insert by done. account.
  - unfold putCh. cbn. destruct (pr !! key) as [m|] eqn:Ek; [|done]. cbn. case_decide; [|done]. intros [= <-]. cbn.
    rewrite <-(map_to_list_delete _ _ _ Ek). account.
  - unfold connect. cbn. case_decide as Hn; [|done]. intros [= <-]. cbn. rewrite inHands_insert, delete_id by done. done.
  - unfold stop. cbn. destruct (hs !! c) as [[]|] eqn:Ec; [|done..]. intros [= <-]. cbn. by rewrite (inHands_delete c hs Idle Ec).
  - unfold take. cbn. destruct (hs !! c) as [[]|] eqn:Ec, ch as [|m r]; try done. intros [= <-]. cbn.
    rewrite inHands_insert, (inHands_delete c hs Idle Ec). account.
  - unfold recorded. cbn. destruct (hs !! c) as [[|m|m]|] eqn:Ec; try done. intros [= <-]. cbn.
    rewrite inHands_insert, (inHands_delete c hs _ Ec). cbn. rewrite !fmap_app. cbn. unfold enter. by rewrite enter_body.
  - unfold sent. cbn. destruct (hs !! c) as [[|m|m]|] eqn:Ec; try done. rewrite (inHands_delete c hs _ Ec).
    destruct o as [[]|]; intros [= <-]; cbn; rewrite ?inHands_insert; account.
  - intros [= <-]. cbn. destruct (pr !! key) as [m|] eqn:Ek; cbn.
    + rewrite <-(map_to_list_delete _ _ _ Ek). account.
    + rewrite delete_id, app_nil_r by done. done.
Qed.

Lemma vrun_account acts s s' :
  vrun acts s = Some s' → body <$> everything s' ≡ₚ (body <$> everything s) ++ (request <$> invocations acts).
Proof.
  revert s. induction acts as [|a acts IH]; intros s; cbn [vrun].
  { intros [= <-]. cbn. by rewrite app_nil_r. }
  destruct (vstep a s) as [s1|] eqn:Es; [|done]. cbn. intros Hr. rewrite (IH _ Hr), (vstep_account _ _ _ Es), <-app_assoc.
  f_equiv. by destruct a.
Qed.

(** ** The simulation *)

(** A message of the pool has only fields that [Invoke] assigns. *)
Definition clean (m : DockerVMMessage) : Prop :=
  (∃ r, m_Request m = Some r) ∧ (∃ cc, m_CrossContext m = Some cc ∧ cc_ProcessName cc = "") ∧ m_SysCallMessage m = None ∧
  m_Response m = None.

Lemma assign_clean v m : clean m → assign v m = Some (request v) ∧ clean (request v).
Proof.
  intros ([r Hr] & (cc & Hc & Hp) & Hs & Hq). unfold assign. rewrite Hr, Hc, Hs, Hq, Hp. split; [done|].
  split_and!; [by eexists|by eexists|done|done].
Qed.

Lemma enter_clean d a b c m t log : clean m → clean (TimeStatics.EnterNextStep d a b c m t log).
Proof. unfold TimeStatics.EnterNextStep. intros H. repeat case_match; apply H. Qed.

(** No object is in two places, and none that waits or belongs to an invocation is in the pool. *)
Record inv (s : state) : Prop := {
  i_clean : ∀ l m, objects s !! l = Some m → clean m;
  i_pool : NoDup (dockerVMMsgPool s) ∧ ∀ l, l ∈ dockerVMMsgPool s → (l < length (objects s))%nat;
  i_running : ∀ k l, running s !! k = Some l → (l < length (objects s))%nat ∧ l ∉ dockerVMMsgPool s;
  i_apart : ∀ k k' l, running s !! k = Some l → running s !! k' = Some l → k = k';
  i_prepared : ∀ k l, prepared (waits s) !! k = Some l → running s !! k = Some l;
  i_ref : ∀ q l, ref (waits s) q = Some l → (l < length (objects s))%nat ∧ l ∉ dockerVMMsgPool s;
  i_once : ∀ q q' l, ref (waits s) q = Some l → ref (waits s) q' = Some l → q = q';
}.

Definition contents (s : state) (l : nat) : DockerVMMessage := default newRequest (objects s !! l).
Definition abs (s : state) : vstate := mkV (mapP (contents s) (waits s)) (wire s) (lost s).

Lemma lookup_contents s l : (l < length (objects s))%nat → objects s !! l = Some (contents s l).
Proof. intros H. unfold contents. destruct (objects s !! l) eqn:E; [done|]. apply lookup_ge_None in E. lia. Qed.

(** Every place of [p'] is a place of [p], and they stay apart. *)
Definition moved {A} (p p' : places A) : Prop :=
  ∃ f : place → place, (∀ q a, ref p' q = Some a → ref p (f q) = Some a) ∧
    (∀ q q' a, ref p' q = Some a → ref p' q' = Some a → f q = f q' → q = q') ∧
    (∀ k a, prepared p' !! k = Some a → prepared p !! k = Some a).

Lemma inv_moved s p w lo :
  inv s → moved (waits s) p → inv (mkState (objects s) (dockerVMMsgPool s) (running s) p w lo).
Proof.
  intros Hi (f & Hf & Hff & Hp).
  split; cbn; [apply (i_clean _ Hi)|apply (i_pool _ Hi)|apply (i_running _ Hi)|apply (i_apart _ Hi)| | |].
  - intros k l ?%Hp. by apply (i_prepared _ Hi).
  - intros q l ?%Hf. by apply (i_ref _ Hi (f q)).
  - intros q q' l Hq Hq'. eapply Hff; [done..|]. eapply (i_once _ Hi); by apply Hf.
Qed.

Lemma inv_write s l m :
  inv s → clean m → inv (mkState (<[l:=m]> (objects s)) (dockerVMMsgPool s) (running s) (waits s) (wire s) (lost s)).
Proof.
  intros Hi Hm.
  split; cbn; rewrite ?length_insert;
    [|apply (i_pool _ Hi)|apply (i_running _ Hi)|apply (i_apart _ Hi)|apply (i_prepared _ Hi)|apply (i_ref _ Hi)|apply (i_once _ Hi)].
  intros x y [(-> & <- & _)|[_ ?]]%list_lookup_insert_Some; [done|by eapply (i_clean _ Hi)].
Qed.

(** *** The moves *)

Lemma moved_same {A} (p p' : places A) : (∀ q a, ref p' q = Some a → ref p q = Some a) → moved p p'.
Proof. intros H. exists id. split_and!; [done|done|]. intros k a. apply (H (PPrep k)). Qed.

Lemma moved_hand {A} (p : places A) c h :
  (∀ a, held h = Some a → hands p !! c ≫= held = Some a) → moved p (mkPlaces (prepared p) (txSendCh p) (<[c := h]> (hands p))).
Proof.
  intros Hh. apply moved_same. intros [k|i|c'] a; cbn; [done..|]. destruct (decide (c' = c)) as [->|Hne].
  - rewrite lookup_insert_eq. apply Hh.
  - by rewrite lookup_insert_ne.
Qed.

Lemma moved_leave {A} (p : places A) c : moved p (mkPlaces (prepared p) (txSendCh p) (delete c (hands p))).
Proof.
  apply moved_same. intros [k|i|c'] a; cbn; [done..|]. destruct (decide (c' = c)) as [->|Hne].
  - by rewrite lookup_delete_eq.
  - by rewrite lookup_delete_ne.
Qed.

Lemma putCh_moved {A} key (p p' : places A) : putCh key p = Some p' → moved p p'.
Proof.
  unfold putCh. destruct (prepared p !! key) as [a|] eqn:Ek; [|done]. cbn. case_decide; [|done]. intros [= <-].
  exists (λ q, if decide (q = PChan (length (txSendCh p))) then PPrep key else q).
  assert (∀ i b, (txSendCh p ++ [a]) !! i = Some b → i ≠ length (txSendCh p) → txSendCh p !! i = Some b) as Hch.
  { intros i b [?|[Hle Hx]]%lookup_app_Some Hne; [done|]. apply list_lookup_singleton_Some in Hx as [? _]. lia. }
  split_and!.
  - intros q b. case_decide as Hq; [subst q; cbn|destruct q as [k|i|c]; cbn].
    + rewrite lookup_app_r, Nat.sub_diag by done. cbn. by rewrite Ek.
    + by intros [_ ?]%lookup_delete_Some.
    + intros Hi. apply Hch; [done|]. by intros ->.
    + done.
  - intros q q' b Hq Hq'. repeat case_decide; subst; try done.
    + intros <-. cbn in Hq'. by rewrite lookup_delete_eq in Hq'.
    + intros ->. cbn in Hq. by rewrite lookup_delete_eq in Hq.
  - cbn. by intros k b [_ ?]%lookup_delete_Some.
Qed.

Lemma take_moved {A} c (p p' : places A) : take c p = Some p' → moved p p'.
Proof.
  unfold take. destruct (hands p !! c) as [[|?|?]|] eqn:Ec, (txSendCh p) as [|x r] eqn:Er; try done. intros [= <-].
  exists (λ q, match q with PChan i => PChan (S i) | PHand c' => if decide (c' = c) then PChan 0 else PHand c' | _ => q end).
  split_and!; [| |done].
  - intros [k|i|c'] b; cbn; [done|by rewrite Er|]. case_decide as Hd; [subst c'|].
    + rewrite lookup_insert_eq. cbn. by rewrite Er.
    + by rewrite lookup_insert_ne.
  - intros [k|i|c1] [k'|i'|c2] b _ _; repeat case_decide; intros; simplify_eq; done.
Qed.

(** *** The pool *)

(** What the pool hands out is in no other use. *)
Lemma messageGet_spec pick s :
  inv s → ∃ l s', Get pick s = (l, s') ∧ inv s' ∧ (l < length (objects s'))%nat ∧ l ∉ dockerVMMsgPool s' ∧
    (∀ k, running s' !! k ≠ Some l) ∧ (∀ q, ref (waits s') q ≠ Some l) ∧
    (∀ q x, ref (waits s) q = Some x → contents s' x = contents s x) ∧
    waits s' = waits s ∧ running s' = running s ∧ wire s' = wire s ∧ lost s' = lost s.
Proof.
  intros Hi. destruct (i_pool _ Hi) as [Hd Hlt]. unfold Get. destruct (pick ≫= _) as [[i l]|] eqn:E.
  - assert (dockerVMMsgPool s !! i = Some l) as Hl.
    { destruct pick as [j|]; [|done]. cbn in E. destruct (dockerVMMsgPool s !! j) eqn:?; by simplify_eq/=. }
    pose proof (list_elem_of_lookup_2 _ _ _ Hl) as Hin.
    pose proof (delete_Permutation _ _ _ Hl) as Hperm. rewrite Hperm in Hd. apply NoDup_cons in Hd as [Hnot Hd].
    assert (∀ x, x ∈ delete i (dockerVMMsgPool s) → x ∈ dockerVMMsgPool s) as Hsub by (intros x; apply list_elem_of_delete_inv).
    eexists l, _. split; [reflexivity|]. cbn.
    split_and!; try done; [|by apply Hlt|by intros k [_ ?]%(i_running _ Hi)|by intros q [_ ?]%(i_ref _ Hi)].
    split; cbn; [apply (i_clean _ Hi)| | |apply (i_apart _ Hi)|apply (i_prepared _ Hi)| |apply (i_once _ Hi)].
    + split; [done|]. by intros x ?%Hsub%Hlt.
    + intros k x [? ?]%(i_running _ Hi). split; [done|]. by intros ?%Hsub.
    + intros q x [? ?]%(i_ref _ Hi). split; [done|]. by intros ?%Hsub.
  - eexists _, _. split; [reflexivity|]. cbn. rewrite length_app. cbn. split_and!; try done; try lia.
    + split; cbn; rewrite ?length_app; cbn; [| | |apply (i_apart _ Hi)|apply (i_prepared _ Hi)| |apply (i_once _ Hi)].
      * intros x m [?|[? Hx]]%lookup_app_Some; [by eapply (i_clean _ Hi)|].
        apply list_lookup_singleton_Some in Hx as [_ <-]. split_and!; [by eexists|by eexists|done|done].
      * split; [done|]. intros x ?%Hlt. lia.
      * intros k x [? ?]%(i_running _ Hi). split; [lia|done].
      * intros q x [? ?]%(i_ref _ Hi). split; [lia|done].
    + intros ?%Hlt. lia.
    + intros k [? _]%(i_running _ Hi). lia.
    + intros q [? _]%(i_ref _ Hi). lia.
    + intros q x [? _]%(i_ref _ Hi). unfold contents. cbn. by rewrite lookup_app_l.
Qed.

(** *** The steps *)

Lemma abs_moved s p w lo : abs (mkState (objects s) (dockerVMMsgPool s) (running s) p w lo) = mkV (mapP (contents s) p) w lo.
Proof. done. Qed.

(** The steps that only move what waits. *)
Lemma move_sim (f : ∀ A, places A → option (places A)) s s' :
  (∀ A B (g : A → B) p, f B (mapP g p) = mapP g <$> f A p) → (∀ A (p p' : places A), f A p = Some p' → moved p p') →
  inv s → (λ p, set_waits p s) <$> f nat (waits s) = Some s' →
  inv s' ∧ vset (abs s) <$> f DockerVMMessage (v_waits (abs s)) = Some (abs s').
Proof.
  intros Hmap Hmv Hi. destruct (f nat (waits s)) as [p|] eqn:Ef; [|done]. intros [= <-]. split; [by apply inv_moved, (Hmv _ _ _ Ef)|].
  cbn [abs v_waits]. rewrite Hmap, Ef. done.
Qed.

Lemma prepare_sim v now pick s s' :
  inv s → step true (Prepare v now pick) s = Some s' → inv s' ∧ vstep (Prepare v now pick) (abs s) = Some (abs s').
Proof.
  intros Hi. cbn [step]. case_decide as Hn; [|done]. unfold prepare.
  destruct (messageGet_spec pick s Hi) as (l & s1 & -> & Hi1 & Hl & Hp & Hr & Hq & Hob & Ewt & Ern & Ew & Elo).
  rewrite (lookup_contents _ _ Hl). cbn. destruct (assign_clean v (contents s1 l)) as [-> Hc].
  { eapply (i_clean _ Hi1). by apply lookup_contents. }
  cbn. intros [= <-]. split.
  - split; cbn; rewrite ?length_insert; [|apply (i_pool _ Hi1)| | | | |].
    + intros x y [(-> & <- & _)|[_ ?]]%list_lookup_insert_Some; [by apply enter_clean|by eapply (i_clean _ Hi1)].
    + intros k x [[_ <-]|[_ ?]]%lookup_insert_Some; [done|by apply (i_running _ Hi1 k)].
    + intros k k' x [[<- <-]|[_ H1]]%lookup_insert_Some [[<- E]|[_ H2]]%lookup_insert_Some; try done; try (exfalso; by eapply Hr).
      * subst x. by eapply Hr in H1.
      * by eapply (i_apart _ Hi1).
    + intros k x [[<- <-]|[Hne ?]]%lookup_insert_Some; [by rewrite lookup_insert_eq|]. rewrite lookup_insert_ne by done.
      by apply (i_prepared _ Hi1).
    + intros [k|i|c] x; cbn; [|by apply (i_ref _ Hi1 (PChan i))|by apply (i_ref _ Hi1 (PHand c))].
      intros [[_ <-]|[_ ?]]%lookup_insert_Some; [done|by apply (i_ref _ Hi1 (PPrep k))].
    + assert (∀ q x, ref (mkPlaces (<[v_uniqueTxKey v:=l]> (prepared (waits s1))) (txSendCh (waits s1)) (hands (waits s1))) q = Some x →
        (q = PPrep (v_uniqueTxKey v) ∧ x = l) ∨ ref (waits s1) q = Some x) as Hc'.
      { intros [k|i|c] x; cbn; [|by right..]. intros [[-> <-]|[_ ?]]%lookup_insert_Some; [by left|by right]. }
      intros q q' x [[-> ->]|Hx]%Hc' [[-> E]|Hx']%Hc'; [done|by apply Hq in Hx'|subst x; by apply Hq in Hx|by eapply (i_once _ Hi1)].
  - cbn [vstep abs v_waits mapP prepared]. rewrite lookup_fmap. assert (prepared (waits s) !! v_uniqueTxKey v = None) as Hnp.
    { destruct (prepared (waits s) !! _) eqn:E; [|done]. apply (i_prepared _ Hi) in E. congruence. }
    rewrite Hnp. cbn [fmap option_fmap option_map]. rewrite decide_True by done. f_equal. unfold abs, vset. cbn [wire lost waits v_wire v_lost].
    rewrite Ew, Elo. f_equal. rewrite prepare_map, Ewt. set (s' := mkState _ _ _ _ _ _).
    assert (contents s' l = txRequest v now) as -> by (unfold contents; cbn; by rewrite list_lookup_insert_eq).
    enough (mapP (contents s) (waits s) = mapP (contents s') (waits s)) as <- by done.
    apply mapP_ext. intros q x Hx. rewrite <-(Hob q x Hx). unfold contents. cbn.
    rewrite list_lookup_insert_ne; [done|]. intros ->. rewrite <-Ewt in Hx. by apply Hq in Hx.
Qed.

Lemma record_sim c d now log s s' :
  inv s → step true (Record_ c d now log) s = Some s' → inv s' ∧ vstep (Record_ c d now log) (abs s) = Some (abs s').
Proof.
  intros Hi. cbn. unfold record, recorded. cbn. rewrite lookup_fmap.
  destruct (hands (waits s) !! c) as [[|l|l]|] eqn:Ec; try done. cbn.
  assert (ref (waits s) (PHand c) = Some l) as Hc by (cbn; by rewrite Ec).
  destruct (i_ref _ Hi _ _ Hc) as [Hl _]. rewrite (lookup_contents _ _ Hl). cbn. intros [= <-]. split.
  - apply (inv_write (mkState (objects s) (dockerVMMsgPool s) (running s) _ (wire s) (lost s))).
    + apply inv_moved; [done|]. apply moved_hand. intros a [= <-]. by rewrite Ec.
    + apply enter_clean. eapply (i_clean _ Hi). by apply lookup_contents.
  - unfold abs, vset. cbn [wire lost waits v_wire v_lost snd]. f_equal. f_equal. set (s' := mkState _ _ _ _ _ _).
    assert (contents s' l = enter d now log (contents s l)) as El by (unfold contents; cbn; by rewrite list_lookup_insert_eq).
    etrans; [apply (recorded_rest (contents s) (waits s))|]. rewrite <-El. cbv zeta.
    enough (mapP (contents s) (mkPlaces (prepared (waits s)) (txSendCh (waits s)) (delete c (hands (waits s)))) =
      mapP (contents s') (mkPlaces (prepared (waits s)) (txSendCh (waits s)) (delete c (hands (waits s))))) as ->.
    { unfold mapP. cbn. rewrite fmap_insert, fmap_delete, insert_delete_eq. done. }
    apply mapP_ext. intros q x Hx. unfold contents, s'. cbn [objects]. rewrite list_lookup_insert_ne; [done|]. intros <-.
    assert (ref (waits s) q = Some l ∧ q ≠ PHand c) as [Hq Hne]; [|by apply Hne; eapply (i_once _ Hi)].
    destruct q as [k|i|c']; cbn in *; [done..|]. destruct (decide (c' = c)) as [->|?]; [by rewrite lookup_delete_eq in Hx|].
    rewrite lookup_delete_ne in Hx by done. split; [done|congruence].
Qed.

Lemma sendMsg_sim c o s s' :
  inv s → step true (Sent c o) s = Some s' → inv s' ∧ vstep (Sent c o) (abs s) = Some (abs s').
Proof.
  intros Hi. cbn [step vstep]. unfold sendMsg. cbn [abs v_waits]. rewrite sent_map.
  destruct (sent c o (waits s)) as [[l p]|] eqn:Es; [|done]. cbn.
  assert (moved (waits s) p ∧ ref (waits s) (PHand c) = Some l) as [Hm Hc].
  { revert Es. unfold sent. cbn. destruct (hands (waits s) !! c) as [[|?|?]|]; try done.
    intros [= -> <-]. split; [|done]. destruct o as [[]|]; [by apply moved_hand|apply moved_leave|by apply moved_hand]. }
  rewrite (lookup_contents s l); [|by apply (i_ref _ Hi _ _ Hc)]. cbn. intros [= <-].
  destruct o as [er|]; (split; [by apply inv_moved|done]).
Qed.

Lemma finish_sim k s s' : inv s → step true (Finish k) s = Some s' → inv s' ∧ vstep (Finish k) (abs s) = Some (abs s').
Proof.
  intros Hi. cbn [step vstep]. unfold finish. destruct (running s !! k) as [l|] eqn:Ek; [|done]. cbn.
  case_bool_decide as Hc; [done|]. intros [= <-]. destruct (i_running _ Hi k l Ek) as [Hl Hp].
  rewrite elem_of_app, inHands_elem in Hc. split.
  - split; cbn; [apply (i_clean _ Hi)| | | | | |].
    + split; [apply NoDup_cons; split; [done|apply (i_pool _ Hi)]|].
      intros x [->|Hx]%elem_of_cons; [done|by apply (i_pool _ Hi)].
    + intros k' x [Hne Hr]%lookup_delete_Some. destruct (i_running _ Hi k' x Hr) as [? ?]. split; [done|].
      intros [->|?]%elem_of_cons; [|done]. by destruct Hne; eapply (i_apart _ Hi).
    + intros k1 k2 x [_ ?]%lookup_delete_Some [_ ?]%lookup_delete_Some. by eapply (i_apart _ Hi).
    + intros k' x [? ?]%lookup_delete_Some. rewrite lookup_delete_ne by done. by apply (i_prepared _ Hi).
    + intros q x Hq. assert (ref (waits s) q = Some x ∧ x ≠ l) as [Hq' Hne].
      { destruct q as [k'|i|c]; cbn in *.
        - apply lookup_delete_Some in Hq as [Hne Hq]. split; [done|]. intros ->. apply (i_prepared _ Hi) in Hq.
          by destruct Hne; eapply (i_apart _ Hi).
        - split; [done|]. intros ->. apply Hc. left. by eapply list_elem_of_lookup_2.
        - split; [done|]. intros ->. apply Hc. right. by exists c. }
      destruct (i_ref _ Hi _ _ Hq') as [? ?]. split; [done|]. by intros [->|?]%elem_of_cons.
    + assert (∀ q x, ref (unprepare k (waits s)) q = Some x → ref (waits s) q = Some x) as Hu.
      { intros [k'|i|c] x; cbn; [|done..]. by intros [_ ?]%lookup_delete_Some. }
      intros q q' x ?%Hu ?%Hu. by eapply (i_once _ Hi).
  - unfold abs. cbn. rewrite unprepare_map, lookup_fmap. f_equal. f_equal. f_equal.
    destruct (prepared (waits s) !! k) as [x|] eqn:Ex; cbn; [|done]. apply (i_prepared _ Hi) in Ex.
    rewrite lookup_contents; [done|]. by apply (i_running _ Hi k).
Qed.

Lemma empty_inv : inv empty_state.
Proof. split; cbn; try done; [by split; [constructor|intros ? ?%elem_of_nil]| |]; intros [?|?|?]; done. Qed.

Lemma requestStep_sim a s s' : inv s → step true a s = Some s' → inv s' ∧ vstep a (abs s) = Some (abs s').
Proof.
  destruct a as [v now pick|key|c|c|c|c d now log|c o|key].
  - apply prepare_sim.
  - apply (move_sim (λ A, putCh key)); [intros; apply putCh_map|intros A; apply putCh_moved].
  - apply (move_sim (λ A, connect c)); [intros; apply connect_map|]. intros A p p'. unfold connect. case_decide; [|done]. intros [= <-].
    by apply moved_hand.
  - apply (move_sim (λ A, stop c)); [intros; apply stop_map|]. intros A p p'. unfold stop. destruct (_ !! c) as [[]|]; [|done..].
    intros [= <-]. apply moved_leave.
  - apply (move_sim (λ A, take c)); [intros; apply take_map|intros A; apply take_moved].
  - apply record_sim.
  - apply sendMsg_sim.
  - apply finish_sim.
Qed.

Lemma requests_sim acts s s' : inv s → run true acts s = Some s' → inv s' ∧ vrun acts (abs s) = Some (abs s').
Proof.
  revert s. induction acts as [|a acts IH]; intros s Hi; cbn [run].
  { intros [= <-]. done. }
  destruct (step true a s) as [s1|] eqn:Es; [|done]. cbn. intros Hr. destruct (requestStep_sim a s s1 Hi Es) as [Hi1 Ha].
  cbn. rewrite Ha. cbn. by apply IH.
Qed.

Lemma requests_account acts s :
  run true acts empty_state = Some s →
  body <$> (wire s ++ lost s ++ (contents s <$> waiting (waits s))) ≡ₚ request <$> invocations acts.
Proof.
  intros Hr. destruct (requests_sim acts _ _ empty_inv Hr) as [_ Ha]. apply vrun_account in Ha.
  unfold everything in Ha. cbn [abs v_wire v_lost v_waits] in Ha. rewrite !fmap_app, waiting_map in Ha. rewrite !fmap_app, Ha. done.
Qed.
End pool.

(** [C14] The clients send the requests that the invocations asked for: when no invocation returns while its request waits in the
    channel or in the hands of a client, then, whatever messages the pool hands out and although they are not reset in between, the requests
    that are prepared, in the channel and with the clients, those that are sent, in the order of the sends, and those that are lost
    are those of the specification in which every invocation has a message of its own; and without the times of their steps they are,
    each once, what the invocations asked for. Any number of clients share the channel; a [Send] that fails loses its message. *)
Theorem requests_sent_as_asked `{GU : Gas.GasUtils} acts s :
  run true acts empty_state = Some s →
  vrun acts vempty = Some (abs s) ∧
  body <$> (wire s ++ lost s ++ (contents s <$> waiting (waits s))) ≡ₚ request <$> invocations acts.
Proof.
  intros Hr. split; [|by apply requests_account]. by destruct (requests_sim acts _ _ empty_inv Hr) as [_ Ha].
Qed.

Definition sampleArgs (key : string) : @Args Gas.sampleGas :=
  mkArgs (GU := Gas.sampleGas) "chain1" (mkTxEnv _ key 2030102 None None false 0 0 "") (mkContract "erc20" "v1") "mint" "bytes"
    ∅ key true false "" true 0.

(** The invocation "a" times out while its request waits; "b" gets the message. *)
Definition timeoutActs : list (@act Gas.sampleGas) :=
  [Connect 0; Prepare (sampleArgs "a") 1 None; Put "a"; Finish "a"; Prepare (sampleArgs "b") 2 (Some 0%nat); Put "b"; Take 0; Record_ 0 true 3 "";
   Sent 0 None; Take 0; Record_ 0 true 4 ""; Sent 0 None].

(** The same when a client has taken the request, but not yet sent it. *)
Definition takenActs : list (@act Gas.sampleGas) :=
  [Connect 0; Prepare (sampleArgs "a") 1 None; Put "a"; Take 0; Record_ 0 true 2 ""; Finish "a"; Prepare (sampleArgs "b") 3 (Some 0%nat); Put "b";
   Sent 0 None; Take 0; Record_ 0 true 4 ""; Sent 0 None].

(** When an invocation times out with its request in the channel or in the hands of a client, the next invocation overwrites it: its own
    request is sent twice and the one before never. *)
Theorem request_overwritten_after_timeout acts :
  acts = timeoutActs ∨ acts = takenActs →
  (∃ s, run false acts empty_state = Some s ∧ map m_TxId (wire s) = ["b"; "b"]) ∧
  (∃ s, vrun acts vempty = Some s ∧ map m_TxId (v_wire s) = ["a"; "b"]).
Proof.
  intros [->| ->]; (split; eexists; (split; [vm_compute; reflexivity|]); by vm_compute).
Qed.

(** Two clients: the second one sends first; "c" is lost with its connection. *)
Definition sampleActs : list (@act Gas.sampleGas) :=
  [Connect 0; Connect 1; Prepare (sampleArgs "a") 1 None; Put "a"; Prepare (sampleArgs "b") 2 None; Put "b"; Take 0; Take 1;
   Record_ 1 true 3 ""; Sent 1 None; Finish "b"; Record_ 0 true 4 ""; Prepare (sampleArgs "c") 5 (Some 0%nat); Put "c"; Sent 0 None;
   Finish "a"; Take 1; Record_ 1 true 6 ""; Sent 1 (Some OtherError); Prepare (sampleArgs "d") 7 (Some 0%nat)].

Definition sampleState : @state :=
  Eval vm_compute in default empty_state (run true sampleActs empty_state).

Lemma requests_sent_as_asked_witness :
  map m_TxId (wire sampleState) = ["b"; "a"] ∧ map m_TxId (lost sampleState) = ["c"] ∧
  body <$> (wire sampleState ++ lost sampleState ++ (contents sampleState <$> waiting (waits sampleState))) ≡ₚ
    request <$> invocations sampleActs.
Proof.
  split; [by vm_compute|]. split; [by vm_compute|]. apply (requests_sent_as_asked sampleActs sampleState). vm_compute. reflexivity.
Defined.
End RequestPool.
