(* ===== verification/EndToEnd.v ===== *)
(** * From an invocation to the sandbox

    The chain's side and the engine's side together: the keys of the client manager, the pool and the channel of the
    requests with the clients (RequestPool), the streams between the two processes, and the engine from its scheduler to the sandboxes
    (Once, Flow). *)

From S2P Require Import Prelude Messages Interfaces EngineUtils Users Gas TimeStatics SimContext RuntimeHandler Runtime Clients.
From S2P Require Import RequestGroup RequestScheduler Process Flow Once RequestPool.

Module EndToEnd.

(** ** The keys of the invocations *)

(** The keys that invocations of the transactions [ids] take, one after another, from the client manager. *)
Fixpoint takeKeys (ids : list string) (cm : Clients.ClientManager) : list string :=
  match ids with
  | [] => []
  | id :: r => match Clients.GetUniqueTxKey id cm with Ret (k, cm') => k :: takeKeys r cm' | _ => [] end
  end.

Lemma takeKeys_cons id ids cm :
  0 ≤ Clients.cm_count cm → Clients.cm_count cm + Z.of_nat (length (id :: ids)) < u64_max →
  takeKeys (id :: ids) cm = Clients.ConstructUniqueTxKey [id; itoa (Clients.cm_count cm + 1)]
    :: takeKeys ids (Clients.set_count (Clients.cm_count cm + 1) cm).
Proof.
  intros H0 Hlt. cbn [length] in Hlt.
  assert (u64_add (Clients.cm_count cm) 1 = Clients.cm_count cm + 1) as E by (apply u64_small; lia).
  rewrite <-!E. reflexivity.
Qed.

Lemma takeKeys_later ids cm k :
  0 ≤ Clients.cm_count cm → Clients.cm_count cm + Z.of_nat (length ids) < u64_max → k ∈ takeKeys ids cm →
  ∃ id n, k = Clients.ConstructUniqueTxKey [id; itoa n] ∧ Clients.cm_count cm < n.
Proof.
  revert cm. induction ids as [|id ids IH]; intros cm H0 Hlt; [by intros ?%elem_of_nil|].
  rewrite takeKeys_cons by done. cbn [length] in Hlt. intros [->|Hk]%elem_of_cons.
  - exists id, (Clients.cm_count cm + 1). split; [done|lia].
  - apply IH in Hk as (id' & n & -> & Hn); cbn [Clients.cm_count Clients.set_count] in *; [|lia|lia]. exists id', n. split; [done|lia].
Qed.

(** The keys differ, whatever the ids of the transactions. *)
Lemma takeKeys_distinct ids cm :
  0 ≤ Clients.cm_count cm → Clients.cm_count cm + Z.of_nat (length ids) < u64_max → NoDup (takeKeys ids cm).
Proof.
  revert cm. induction ids as [|id ids IH]; intros cm H0 Hlt; [constructor|].
  rewrite takeKeys_cons by done. cbn [length] in Hlt. apply NoDup_cons. split.
  - intros (id' & n & Ek & Hn)%takeKeys_later; cbn [Clients.cm_count Clients.set_count] in *; [|lia|lia].
    assert (n = Clients.cm_count cm + 1) as ->; [|lia].
    unfold Clients.ConstructUniqueTxKey in Ek. symmetry in Ek.
    change (join ([id'] ++ [itoa n]) = join ([id] ++ [itoa (Clients.cm_count cm + 1)])) in Ek.
    rewrite !join_snoc in Ek by done. apply last_piece_inj in Ek as [_ Ek]; [by apply (inj itoa)|apply itoa_no_hash..].
  - apply IH; cbn [Clients.cm_count Clients.set_count]; lia.
Qed.

(** ** The requests of the invocations *)

Section requests.
Context `{GU : Gas.GasUtils}.
Import Runtime.

(** What an invocation asks for. *)
Definition asked (v : Args) : string * option CrossContext * option TxRequest :=
  (v_uniqueTxKey v, Some (mkCross (x_depth (v_env v)) "" (x_crossInfo (v_env v))),
   Some (mkRequest (ct_Name (v_contract v)) (ct_Version (v_contract v)) (v_method v) (cleanParameters v) (v_chainId v))).

(** What has been sent is what was asked for. *)
Lemma wire_asked acts s :
  RequestPool.run true acts RequestPool.empty_state = Some s →
  Once.payload <$> RequestPool.wire s ⊆+ asked <$> RequestPool.invocations acts.
Proof.
  intros Hr. apply RequestPool.requests_account, (fmap_Permutation Once.payload) in Hr.
  rewrite <-!list_fmap_compose in Hr. change (Once.payload ∘ RequestPool.request) with asked in Hr.
  change (Once.payload ∘ RequestPool.body) with Once.payload in Hr. rewrite <-Hr, fmap_app. by apply submseteq_inserts_r.
Qed.
End requests.

(** [C1] A contract call reaches a sandbox of its contract at most once, as it was made. For all invocations whose keys come from the client manager (fewer
    than 2^64 of them) and none of which returns while its request waits in the channel or in the hands of a client that has taken it and not
    yet sent it, when the streams between chain and engine deliver no message more often than it was sent: whatever the pool, the scheduler, the groups, the processes and the sandboxes do, the
    keys of what sandboxes have been sent differ, and each message is the call of one of the invocations, with its key, contract, method
    and parameters, in a sandbox launched from the executable of that contract. *)
Theorem invocation_executed_as_asked `{GU : Gas.GasUtils} `{ProtocolConsts} acts ids s a :
  RequestPool.run true acts RequestPool.empty_state = Some s →
  Runtime.v_uniqueTxKey <$> RequestPool.invocations acts ⊆+ takeKeys ids Clients.NewClientManager →
  Z.of_nat (length ids) < u64_max →
  rtc Once.ledgerStep Once.NewLedger a →
  Once.payload <$> Once.l_received a ⊆+ Once.payload <$> RequestPool.wire s →
  NoDup (m_TxId <$> (Flow.f_sent (Once.l_flow a)).*2) ∧
  ∀ st m, (st, m) ∈ Flow.f_sent (Once.l_flow a) → ∃ v, v ∈ RequestPool.invocations acts ∧ Once.payload m = asked v ∧
    st = Some (contractKey (Runtime.v_chainId v) (SimContext.ct_Name (Runtime.v_contract v))
                 (SimContext.ct_Version (Runtime.v_contract v))).
Proof.
  intros Hrun Hkeys Hlen Ha Hwire.
  assert (Once.payload <$> (Flow.f_sent (Once.l_flow a)).*2 ⊆+ asked <$> RequestPool.invocations acts) as Hs.
  { etrans; [|by apply (wire_asked acts s)]. etrans; [|exact Hwire]. etrans; [|by apply Once.reachable_balanced].
    unfold Once.everywhere. rewrite fmap_app. by apply submseteq_inserts_r. }
  split.
  - apply (fmap_submseteq (λ x, x.1.1)) in Hs. rewrite <-!list_fmap_compose in Hs.
    change ((λ x, x.1.1) ∘ asked) with Runtime.v_uniqueTxKey in Hs.
    assert (m_TxId <$> (Flow.f_sent (Once.l_flow a)).*2 ⊆+ takeKeys ids Clients.NewClientManager) as Hsub.
    { rewrite <-list_fmap_compose. etrans; [exact Hs|exact Hkeys]. }
    apply submseteq_Permutation in Hsub as [k Hk].
    assert (NoDup (takeKeys ids Clients.NewClientManager)) as Hn by (apply takeKeys_distinct; cbn; lia).
    rewrite Hk in Hn. by apply NoDup_app in Hn as (Hn & _ & _).
  - intros st m Hm. assert (Once.payload m ∈ asked <$> RequestPool.invocations acts) as Hin.
    { eapply elem_of_submseteq; [|exact Hs]. apply list_elem_of_fmap_2, (list_elem_of_fmap_2 snd _ (st, m) Hm). }
    apply list_elem_of_fmap in Hin as (v & Hv & Hin). exists v. split_and!; [done|done|].
    assert (rtc Flow.flowStep Flow.NewFlow (Once.l_flow a)) as Hf.
    { change Flow.NewFlow with (Once.l_flow Once.NewLedger). clear - Ha. induction Ha as [|? ? ? H1 _ IH]; [apply rtc_refl|].
      eapply rtc_l; [by apply Once.ledger_flow|exact IH]. }
    destruct (Flow.reachable_ok _ Hf) as (_ & _ & Hl). unfold Flow.sentOk in Hl. rewrite Forall_forall in Hl.
    destruct (Hl _ Hm) as (k & Hst & Hk). cbn in Hst, Hk. injection Hv as _ _ Hrq.
    unfold RequestScheduler.txKey in Hk. rewrite Hrq in Hk. cbn in Hk. by rewrite Hst, <-Hk.
Qed.

(** *** Witness: one call, from the invocation to the sandbox *)

Import RequestScheduler Flow Once.

Definition e_acts : list (@RequestPool.act Gas.sampleGas) :=
  [RequestPool.Connect 0; RequestPool.Prepare (RequestPool.sampleArgs "t1#1") 1 None; RequestPool.Put "t1#1"; RequestPool.Take 0;
   RequestPool.Record_ 0 true 2 ""; RequestPool.Sent 0 None; RequestPool.Finish "t1#1"].
Definition e_pool : RequestPool.state :=
  Eval vm_compute in default RequestPool.empty_state (RequestPool.run true e_acts RequestPool.empty_state).
Definition e_tx : DockerVMMessage := Eval vm_compute in default emptyMessage (head (RequestPool.wire e_pool)).

Definition e_put : RequestScheduler := Eval vm_compute in retS (PutMsg (AnyDockerVM e_tx) NewRequestScheduler) NewRequestScheduler.
Definition e_routed : RequestScheduler := Eval vm_compute in retS (loopStep (λ _, None) (H := openCM) ChTx e_put) e_put.
Definition e_group : RequestGroup.RequestGroup :=
  Eval vm_compute in default (RequestGroup.NewRequestGroup "" "" "") (groupAt e_routed (inl "chain1#erc20#v1")).
Definition e_buffered : RequestGroup.RequestGroup :=
  Eval vm_compute in retS (RequestGroup.loopStep (H := sampleConsts) RequestGroup.sampleEnv RequestGroup.ChTx e_group) e_group.
Definition e_answered : RequestGroup.RequestGroup :=
  Eval vm_compute in retS (RequestGroup.PutMsg (AnyDockerVM (RequestGroup.sampleReady OK)) e_buffered) e_buffered.
Definition e_ready : RequestGroup.RequestGroup :=
  Eval vm_compute in retS (RequestGroup.loopStep (H := sampleConsts) RequestGroup.sampleEnv RequestGroup.ChTx e_answered) e_answered.
Definition e_new : Proc :=
  Eval vm_compute in default Process.sampleProcess
    (Process.NewProcess openScheduler (Users.NewUser 10000) "chain1" "erc20" "v1" "p1" true).
Definition e_launched : Proc := Eval vm_compute in retS (Process.launchProcess Process.sampleEnv Process.LRuns e_new) e_new.
Definition e_stream : Proc := Eval vm_compute in retS (Process.SetStream e_launched) e_launched.
Definition e_payload : TxPayload := Eval vm_compute in default (mkTxPayload e_tx 0) (head (RequestGroup.GetTxCh true e_ready)).
Definition e_busy : Proc :=
  Eval vm_compute in retS (Process.listenProcess Process.sampleEnv Process.ready (Process.ChTx e_payload) e_stream) e_stream.

Definition e_sched : RequestScheduler := setGroup (inl "chain1#erc20#v1") e_ready e_routed.
Definition e_proc (p : Proc) (l : Process.listener) : proc :=
  mkProc (Process.mkSystem p Process.PMBusy "p1" l) [RRun "chain1#erc20#v1" true] "chain1#erc20#v1" "chain1#erc20#v1" (Some "chain1#erc20#v1").
Definition e_taken : RequestScheduler := setGroup (inl "chain1#erc20#v1") (takeTx true [] e_ready) e_sched.

Definition e_ledger : ledger :=
  mkLedger (mkFlow e_taken [e_proc e_busy Process.LHead] (sentOn (Some "chain1#erc20#v1") e_stream e_busy)) [e_tx] [].

Lemma e_ledger_reachable : rtc (ledgerStep (H := sampleConsts)) NewLedger e_ledger.
Proof.
  eapply rtc_l; [apply (ls_chain NewFlow [] [] e_tx None e_put); reflexivity|].
  eapply rtc_l; [apply (ls_loop _ _ _ (λ _, None) openCM ChTx e_routed); reflexivity|].
  eapply rtc_l; [apply (ls_group _ _ _ (inl "chain1#erc20#v1") e_group RequestGroup.sampleEnv RequestGroup.ChTx true e_buffered); vm_compute; reflexivity|].
  eapply rtc_l; [apply (ls_group_put _ _ _ (inl "chain1#erc20#v1") e_buffered (AnyDockerVM (RequestGroup.sampleReady OK)) None e_answered);
    vm_compute; reflexivity|].
  eapply rtc_l; [apply (ls_group _ _ _ (inl "chain1#erc20#v1") e_answered RequestGroup.sampleEnv RequestGroup.ChTx true e_ready); vm_compute; reflexivity|].
  eapply rtc_l; [apply (ls_new _ _ _ (Users.NewUser 10000) "chain1" "erc20" "v1" "p1" true e_new); vm_compute; reflexivity|].
  eapply rtc_l; [eapply (ls_proc _ _ _ 0); [reflexivity|];
    apply (ps_launch (Process.mkSystem e_new Process.PMBusy "p1" Process.LHead) [] [] _ _ _ _ Process.sampleEnv Process.LRuns None e_launched);
    vm_compute; reflexivity|].
  eapply rtc_l; [eapply (ls_proc _ _ _ 0); [reflexivity|];
    apply (ps_stream (Process.mkSystem e_launched Process.PMBusy "p1" Process.LHead) [] _ [] _ _ _ _ e_stream); vm_compute; reflexivity|].
  eapply rtc_l; [eapply (ls_proc _ _ _ 0); [reflexivity|]; apply ps_head|].
  eapply rtc_l; [|apply rtc_refl].
  match goal with |- ledgerStep (mkLedger ?f ?R ?b) _ =>
    replace e_ledger with (mkLedger (mkFlow (setGroup (inl "chain1#erc20#v1") (takeTx true [] e_ready) (f_sched f))
      (<[0%nat := e_proc e_busy Process.LHead]> (f_procs f))
      (f_sent f ++ sentOn (Some "chain1#erc20#v1") e_stream e_busy)) R
      (b ++ requeued (stepSpent (e_proc e_stream (Process.LSelect Process.ready)) (e_proc e_busy Process.LHead))))
      by (vm_compute; reflexivity) end.
  apply (ls_proc _ _ _ 0 (e_proc e_stream (Process.LSelect Process.ready)) (e_proc e_busy Process.LHead)); [vm_compute; reflexivity|].
  apply (ps_tx e_stream Process.PMBusy "p1" Process.ready _ _ _ _ _ Process.sampleEnv e_payload false e_busy).
  - apply (taken_intro true _ e_payload [] (inl "chain1#erc20#v1") e_ready); vm_compute; reflexivity.
  - apply Process.sampleEnv_answers.
  - vm_compute. reflexivity.
Qed.

Lemma e_pool_run : RequestPool.run true e_acts RequestPool.empty_state = Some e_pool.
Proof. vm_compute. reflexivity. Qed.

Lemma invocation_executed_as_asked_witness :
  m_TxId <$> (f_sent (l_flow e_ledger)).*2 = ["t1#1"] ∧ NoDup (m_TxId <$> (f_sent (l_flow e_ledger)).*2).
Proof.
  split; [vm_compute; reflexivity|].
  apply (invocation_executed_as_asked (GU := Gas.sampleGas) (H := sampleConsts) e_acts ["t1"] e_pool e_ledger).
  - apply e_pool_run.
  - reflexivity.
  - reflexivity.
  - apply e_ledger_reachable.
  - reflexivity.
Defined.
End EndToEnd.
