(* ===== verification/EngineConfig.v ===== *)
(** * vm_mgr/config/config.go: the configuration of the engine

    The engine reads its configuration from a file, through the viper package, and then lets
    environment variables override single settings. Here is the second part, [setEnv], with the
    conversions of the strconv package it uses, and [InitConfig], for which the result of viper
    is an argument. A [time.Duration] is its number of nanoseconds, a 64-bit integer. *)

From S2P Require Import Prelude Messages Users TimeStatics.

Module EngineConfig.

(** ** strconv *)

(** The digits of a number, as [ParseUint] reads them: it stops at the first character that is no
    digit and at the first digit that leads out of 64 bits. *)
Inductive numError := ErrSyntax | ErrRange.

#[export] Instance numError_eq_dec : EqDecision numError.
Proof. solve_decision. Defined.

Fixpoint readDigits (s : string) (n : Z) : Z + numError :=
  match s with
  | EmptyString => inl n
  | String a s' =>
    match digit a with
    | None => inr ErrSyntax
    | Some d => if 2 ^ 64 <=? 10 * n + d then inr ErrRange else readDigits s' (10 * n + d)
    end
  end.

Definition numErrorText (e : numError) : gerr :=
  match e with ErrSyntax => Err "invalid syntax" | ErrRange => Err "value out of range" end.

(** [strconv.ParseInt(s, 10, 64)], and [strconv.Atoi] where an [int] has 64 bits: the value and the
    error. Without digits the value is zero; out of range it is the nearest bound. *)
Definition ParseInt (s : string) : Z * option numError :=
  let '(neg, ds) :=
    match s with
    | String "-" s' => (true, s')
    | String "+" s' => (false, s')
    | _ => (false, s)
    end in
  let clamp := if neg : bool then - 2 ^ 63 else 2 ^ 63 - 1 in
  match ds with
  | EmptyString => (0, Some ErrSyntax)
  | _ =>
    match readDigits ds 0 with
    | inr ErrSyntax => (0, Some ErrSyntax)
    | inr ErrRange => (clamp, Some ErrRange)
    | inl n =>
      let z := if neg then - n else n in
      if in_int64 z then (z, None) else (clamp, Some ErrRange)
    end
  end.

(** [strconv.ParseBool]. *)
Definition ParseBool (s : string) : bool * option numError :=
  if decide (s ∈ ["1"; "t"; "T"; "TRUE"; "true"; "True"]) then (true, None)
  else if decide (s ∈ ["0"; "f"; "F"; "FALSE"; "false"; "False"]) then (false, None)
  else (false, Some ErrSyntax).

(** ** The configuration *)

Record rpcConf := mkRpc {
  ChainRPCProtocol : Z;
  ChainHost : string;
  ChainRPCPort : Z;
  SandboxRPCPort : Z;
  MaxSendMsgSize : Z;
  MaxRecvMsgSize : Z;
  ServerMinInterval : Z;
  ConnectionTimeout : Z;
  ServerKeepAliveTime : Z;
  ServerKeepAliveTimeout : Z;
}.

Record processConf := mkProcessConf {
  MaxOriginalProcessNum : Z;
  ExecTxTimeout : Z;
  WaitingTxTime : Z;
  ReleaseRate : Z;
  ReleasePeriod : Z;
}.

Record logInstanceConf := mkLogInstance { Level : string; Console : bool }.
Record logConf := mkLog { ContractEngineLog : logInstanceConf; SandboxLog : logInstanceConf }.
Record pprofInstanceConf := mkPprofInstance { Enable : bool; Port : Z }.
Record pprofConf := mkPprof { ContractEnginePprof : pprofInstanceConf; SandboxPprof : pprofInstanceConf }.
Record contractConf := mkContractConf { MaxFileSize : Z }.
Record slowConf := mkSlow { Disable : bool; StepTime : Z; TxTime : Z }.

Record conf := mkConf {
  RPC : rpcConf;
  Process : processConf;
  Log : logConf;
  Pprof : pprofConf;
  Contract : contractConf;
  Slow : slowConf;
}.

(** Assignments to single fields. *)
Definition set_rpc (f : rpcConf → rpcConf) (c : conf) : conf :=
  mkConf (f (RPC c)) (Process c) (Log c) (Pprof c) (Contract c) (Slow c).
Definition set_process (f : processConf → processConf) (c : conf) : conf :=
  mkConf (RPC c) (f (Process c)) (Log c) (Pprof c) (Contract c) (Slow c).
Definition set_log (f : logConf → logConf) (c : conf) : conf :=
  mkConf (RPC c) (Process c) (f (Log c)) (Pprof c) (Contract c) (Slow c).
Definition set_slow (f : slowConf → slowConf) (c : conf) : conf :=
  mkConf (RPC c) (Process c) (Log c) (Pprof c) (Contract c) (f (Slow c)).

Definition set_ChainRPCProtocol (x : Z) : conf → conf := set_rpc (λ r,
  mkRpc x (ChainHost r) (ChainRPCPort r) (SandboxRPCPort r) (MaxSendMsgSize r) (MaxRecvMsgSize r)
    (ServerMinInterval r) (ConnectionTimeout r) (ServerKeepAliveTime r) (ServerKeepAliveTimeout r)).
Definition set_ChainHost (x : string) : conf → conf := set_rpc (λ r,
  mkRpc (ChainRPCProtocol r) x (ChainRPCPort r) (SandboxRPCPort r) (MaxSendMsgSize r) (MaxRecvMsgSize r)
    (ServerMinInterval r) (ConnectionTimeout r) (ServerKeepAliveTime r) (ServerKeepAliveTimeout r)).
Definition set_ChainRPCPort (x : Z) : conf → conf := set_rpc (λ r,
  mkRpc (ChainRPCProtocol r) (ChainHost r) x (SandboxRPCPort r) (MaxSendMsgSize r) (MaxRecvMsgSize r)
    (ServerMinInterval r) (ConnectionTimeout r) (ServerKeepAliveTime r) (ServerKeepAliveTimeout r)).
Definition set_SandboxRPCPort (x : Z) : conf → conf := set_rpc (λ r,
  mkRpc (ChainRPCProtocol r) (ChainHost r) (ChainRPCPort r) x (MaxSendMsgSize r) (MaxRecvMsgSize r)
    (ServerMinInterval r) (ConnectionTimeout r) (ServerKeepAliveTime r) (ServerKeepAliveTimeout r)).
Definition set_MaxSendMsgSize (x : Z) : conf → conf := set_rpc (λ r,
  mkRpc (ChainRPCProtocol r) (ChainHost r) (ChainRPCPort r) (SandboxRPCPort r) x (MaxRecvMsgSize r)
    (ServerMinInterval r) (ConnectionTimeout r) (ServerKeepAliveTime r) (ServerKeepAliveTimeout r)).
Definition set_MaxRecvMsgSize (x : Z) : conf → conf := set_rpc (λ r,
  mkRpc (ChainRPCProtocol r) (ChainHost r) (ChainRPCPort r) (SandboxRPCPort r) (MaxSendMsgSize r) x
    (ServerMinInterval r) (ConnectionTimeout r) (ServerKeepAliveTime r) (ServerKeepAliveTimeout r)).
Definition set_ConnectionTimeout (x : Z) : conf → conf := set_rpc (λ r,
  mkRpc (ChainRPCProtocol r) (ChainHost r) (ChainRPCPort r) (SandboxRPCPort r) (MaxSendMsgSize r) (MaxRecvMsgSize r)
    (ServerMinInterval r) x (ServerKeepAliveTime r) (ServerKeepAliveTimeout r)).
Definition set_MaxOriginalProcessNum (x : Z) : conf → conf := set_process (λ p,
  mkProcessConf x (ExecTxTimeout p) (WaitingTxTime p) (ReleaseRate p) (ReleasePeriod p)).
Definition set_ExecTxTimeout (x : Z) : conf → conf := set_process (λ p,
  mkProcessConf (MaxOriginalProcessNum p) x (WaitingTxTime p) (ReleaseRate p) (ReleasePeriod p)).
Definition set_ReleaseRate (x : Z) : conf → conf := set_process (λ p,
  mkProcessConf (MaxOriginalProcessNum p) (ExecTxTimeout p) (WaitingTxTime p) x (ReleasePeriod p)).
Definition set_EngineLevel (x : string) : conf → conf := set_log (λ l,
  mkLog (mkLogInstance x (Console (ContractEngineLog l))) (SandboxLog l)).
Definition set_SandboxLevel (x : string) : conf → conf := set_log (λ l,
  mkLog (ContractEngineLog l) (mkLogInstance x (Console (SandboxLog l)))).
Definition set_NoConsole : conf → conf := set_log (λ l,
  mkLog (mkLogInstance (Level (ContractEngineLog l)) false) (mkLogInstance (Level (SandboxLog l)) false)).
Definition set_SlowDisable (x : bool) : conf → conf := set_slow (λ s, mkSlow x (StepTime s) (TxTime s)).
Definition set_StepTime (x : Z) : conf → conf := set_slow (λ s, mkSlow (Disable s) x (TxTime s)).
Definition set_TxTime (x : Z) : conf → conf := set_slow (λ s, mkSlow (Disable s) (StepTime s) x).

(** ** The environment *)

(** [time.Duration(n) * time.Second], modulo 64 bits. *)
Definition seconds (n : Z) : Z := TimeStatics.i64 (n * 1000000000).

(** [os.LookupEnv]. *)
Definition environment : Type := string → option string.

(** What a block of [setEnv] works on: the configuration and the errors so far. *)
Definition envState : Type := conf * list gerr.

Definition assign (f : conf → conf) (st : envState) : envState := (f st.1, st.2).
Definition addError (text : string) (e : option gerr) (st : envState) : envState :=
  (st.1, st.2 ++ [match e with Some e => Wrap text e | None => Err (text +:+ "<nil>") end]).

(** [if v, ok := os.LookupEnv(name); ok]. *)
Definition lookupEnv (env : environment) (name : string) (f : string → envState → envState) (st : envState) : envState :=
  match env name with Some v => f v st | None => st end.

(** The block of a port, a size or a number: the field is assigned whether or not there is an
    error. *)
Definition intEnv (set : Z → conf → conf) (text v : string) (st : envState) : envState :=
  let '(n, err) := ParseInt v in
  let st := assign (set n) st in
  match err with Some e => addError text (Some (numErrorText e)) st | None => st end.

(** The block of a timeout in seconds: zero leaves the field as it is. *)
Definition timeEnv (set : Z → conf → conf) (text v : string) (st : envState) : envState :=
  let '(timeout, err) := ParseInt v in
  let st := match err with Some e => addError text (Some (numErrorText e)) st | None => st end in
  if decide (timeout = 0) then st else assign (set (seconds timeout)) st.

(** The blocks that differ from these. *)
Definition protocolEnv (v : string) (st : envState) : envState :=
  let '(p, err) := ParseInt v in
  match err with
  | Some e => addError "failed to Atoi chainRPCProtocol: " (Some (numErrorText e)) st
  | None => assign (set_ChainRPCProtocol p) st
  end.

Definition hostEnv (v : string) (st : envState) : envState :=
  if String.eqb v "" then addError "chainHost is empty: " None st else assign (set_ChainHost v) st.

Definition connTimeoutEnv (v : string) (st : envState) : envState :=
  let '(timeout, err) := ParseInt v in
  match err with
  | Some e => addError "failed to ParseInt connectionTimeout: " (Some (numErrorText e)) st
  | None => assign (set_ConnectionTimeout (seconds timeout)) st
  end.

Definition consoleEnv (v : string) (st : envState) : envState :=
  if (ParseBool v).1 then st else assign set_NoConsole st.

Definition slowEnv (env : environment) (v : string) (st : envState) : envState :=
  let '(isDisable, err) := ParseBool v in
  let st := match err with Some e => addError "failed to ParseBool slowDisable: " (Some (numErrorText e)) st | None => st end in
  if isDisable then assign (set_SlowDisable true) st
  else
    lookupEnv env "SLOW_TX_TIME" (timeEnv set_TxTime "failed to ParseInt slowTxTime: ")
      (lookupEnv env "SLOW_STEP_TIME" (timeEnv set_StepTime "failed to ParseInt slowStepTime: ") st).

(** The blocks of [setEnv], in their order. *)
Definition envBlocks (env : environment) : list (envState → envState) :=
  [lookupEnv env "CHAIN_RPC_PROTOCOL" protocolEnv;
   lookupEnv env "CHAIN_HOST" hostEnv;
   lookupEnv env "CHAIN_RPC_PORT" (intEnv set_ChainRPCPort "failed to Atoi chainRPCPort: ");
   lookupEnv env "SANDBOX_RPC_PORT" (intEnv set_SandboxRPCPort "failed to Atoi sandboxRPCPort: ");
   lookupEnv env "MAX_SEND_MSG_SIZE" (intEnv set_MaxSendMsgSize "failed to Atoi maxSendMsgSize: ");
   lookupEnv env "MAX_RECV_MSG_SIZE" (intEnv set_MaxRecvMsgSize "failed to Atoi maxRecvMsgSize: ");
   lookupEnv env "MAX_CONN_TIMEOUT" connTimeoutEnv;
   lookupEnv env "MAX_ORIGINAL_PROCESS_NUM" (intEnv set_MaxOriginalProcessNum "failed to ParseInt processNum: ");
   lookupEnv env "DOCKERVM_CONTRACT_ENGINE_LOG_LEVEL" (λ v, assign (set_EngineLevel v));
   lookupEnv env "DOCKERVM_SANDBOX_LOG_LEVEL" (λ v, assign (set_SandboxLevel v));
   lookupEnv env "DOCKERVM_LOG_IN_CONSOLE" consoleEnv;
   lookupEnv env "PROCESS_TIMEOUT" (timeEnv set_ExecTxTimeout "failed to ParseInt busyTimout: ");
   lookupEnv env "SLOW_DISABLE" (slowEnv env)].

(** [setEnv]: the configuration and the errors, none of which means [nil]. *)
Definition setEnv (env : environment) (c : conf) : conf * list gerr :=
  foldl (λ st block, block st) (c, []) (envBlocks env).

(** What viper gives: the error of reading the file, and of the decoding, with the configuration
    decoded from the file and the defaults. *)
Record viperResult := mkViper {
  vp_readErr : option gerr;
  vp_conf : conf;
  vp_marsErr : option gerr;
}.

(** [InitConfig]: the configuration, and the pieces of the error's text, none of which means [nil].
    The test of the last step is on [err], not on the error of [setEnv]. *)
Definition InitConfig (vp : viperResult) (env : environment) : conf * list gerr :=
  let err := match vp_readErr vp with Some e => [Wrap "failed to read conf, use default configs: " e] | None => [] end in
  let err := match vp_marsErr vp with Some e => err ++ [Wrap "failed to unmarshal conf file, " e] | None => err end in
  let '(c, envErr) := setEnv env (vp_conf vp) in
  (c, if decide (err = []) then err else err ++ (Wrap "failed to set config env, " <$> envErr)).

(** The values of [setDefaultConfigs], in the fields that the tags of the structs name. *)
Definition setDefaultConfigs : conf :=
  mkConf (mkRpc 1 "127.0.0.1" 22351 32351 100 100 (seconds 60) (seconds 5) (seconds 60) (seconds 20))
    (mkProcessConf 20 (seconds 8) 200000000 0 (seconds 600))
    (mkLog (mkLogInstance "info" false) (mkLogInstance "info" false))
    (mkPprof (mkPprofInstance false 21215) (mkPprofInstance false 21522))
    (mkContractConf 20480) (mkSlow false (seconds 3) (seconds 6)).

(** [restrainConfig], which nothing calls. *)
Definition restrainConfig (c : conf) : conf :=
  if ReleaseRate (Process c) <? 0 then set_ReleaseRate 0 c
  else if 100 <? ReleaseRate (Process c) then set_ReleaseRate 100 c else c.

(** ** Numbers *)

#[local] Arguments Z.mul : simpl never.
#[local] Arguments Z.add : simpl never.
#[local] Arguments Z.leb : simpl never.

Lemma digit_range a d : digit a = Some d → 0 ≤ d ≤ 9.
Proof.
  unfold digit. destruct (_ && _) eqn:E; [|done]. intros [= <-]. apply andb_true_iff in E as [?%Z.leb_le ?%Z.leb_le]. lia.
Qed.

Lemma parse_digits_mono s n z : parse_digits s n = Some z → 0 ≤ n → n ≤ z.
Proof.
  revert n. induction s as [|a s IH]; intros n; cbn; [by intros [= ->]|]. destruct (digit a) as [d|] eqn:E; [|done].
  intros Hp Hn. apply digit_range in E. apply IH in Hp; lia.
Qed.

Lemma readDigits_parse s n z : parse_digits s n = Some z → 0 ≤ n → z < 2 ^ 64 → readDigits s n = inl z.
Proof.
  revert n. induction s as [|a s IH]; intros n; cbn; [by intros [= ->]|]. destruct (digit a) as [d|] eqn:E; [|done].
  intros Hp Hn Hz. apply digit_range in E. pose proof (parse_digits_mono _ _ _ Hp ltac:(lia)).
  rewrite (proj2 (Z.leb_gt _ _)) by lia. apply IH; [done|lia|done].
Qed.

Lemma ParseInt_parse s z : parse_int s = Some z → ParseInt s = (z, None).
Proof.
  unfold parse_int, ParseInt. set (sg := match s with String "-" s' => _ | _ => _ end). destruct sg as [neg ds].
  destruct ds as [|a ds]; [done|]. destruct (parse_digits (String a ds) 0) as [n|] eqn:E; [|done]. cbv zeta.
  destruct (in_int64 _) eqn:Hz; [|done]. intros [= <-].
  pose proof (parse_digits_mono _ _ _ E ltac:(lia)) as Hn. pose proof Hz as Hr. unfold in_int64 in Hr.
  apply andb_true_iff in Hr as [?%Z.leb_le ?%Z.ltb_lt].
  rewrite (readDigits_parse _ _ _ E) by (destruct neg; lia). by rewrite Hz.
Qed.

Lemma ParseInt_itoa z : in_int64 z = true → ParseInt (itoa z) = (z, None).
Proof. intros Hz. by apply ParseInt_parse, parse_itoa. Qed.

(** ** The settings arrive *)

(** What an operator writes: the timeouts in seconds, and the two switches. *)
Record settings := mkSettings {
  s_protocol : Z;
  s_host : string;
  s_chainPort : Z;
  s_sandboxPort : Z;
  s_sendSize : Z;
  s_recvSize : Z;
  s_connTimeout : Z;
  s_processNum : Z;
  s_engineLevel : string;
  s_sandboxLevel : string;
  s_console : bool;
  s_execTimeout : Z;
  s_slowDisable : bool;
  s_stepTime : Z;
  s_txTime : Z;
}.

(** [strconv.FormatBool]. *)
Definition boolText (b : bool) : string := if b then "true" else "false".

(** The environment that asks for it. *)
Definition envOf (s : settings) : environment := λ name,
  al_get [("CHAIN_RPC_PROTOCOL", itoa (s_protocol s)); ("CHAIN_HOST", s_host s); ("CHAIN_RPC_PORT", itoa (s_chainPort s));
    ("SANDBOX_RPC_PORT", itoa (s_sandboxPort s)); ("MAX_SEND_MSG_SIZE", itoa (s_sendSize s));
    ("MAX_RECV_MSG_SIZE", itoa (s_recvSize s)); ("MAX_CONN_TIMEOUT", itoa (s_connTimeout s));
    ("MAX_ORIGINAL_PROCESS_NUM", itoa (s_processNum s)); ("DOCKERVM_CONTRACT_ENGINE_LOG_LEVEL", s_engineLevel s);
    ("DOCKERVM_SANDBOX_LOG_LEVEL", s_sandboxLevel s); ("DOCKERVM_LOG_IN_CONSOLE", boolText (s_console s));
    ("PROCESS_TIMEOUT", itoa (s_execTimeout s)); ("SLOW_DISABLE", boolText (s_slowDisable s)); ("SLOW_STEP_TIME", itoa (s_stepTime s));
    ("SLOW_TX_TIME", itoa (s_txTime s))] name.

(** The configuration that results; the rest is that of [c]. The switches work in one direction only: the variable of the console turns
    the logs there off, never on; that of the slow transactions turns the reports off, never on, and then the two times are not read. *)
Definition configured (s : settings) (c : conf) : conf :=
  mkConf
    (mkRpc (s_protocol s) (s_host s) (s_chainPort s) (s_sandboxPort s) (s_sendSize s) (s_recvSize s) (ServerMinInterval (RPC c))
       (s_connTimeout s * 1000000000) (ServerKeepAliveTime (RPC c)) (ServerKeepAliveTimeout (RPC c)))
    (mkProcessConf (s_processNum s) (s_execTimeout s * 1000000000) (WaitingTxTime (Process c)) (ReleaseRate (Process c))
       (ReleasePeriod (Process c)))
    (mkLog (mkLogInstance (s_engineLevel s) (Console (ContractEngineLog (Log c)) && s_console s))
       (mkLogInstance (s_sandboxLevel s) (Console (SandboxLog (Log c)) && s_console s)))
    (Pprof c) (Contract c)
    (if s_slowDisable s then mkSlow true (StepTime (Slow c)) (TxTime (Slow c))
     else mkSlow (Disable (Slow c)) (s_stepTime s * 1000000000) (s_txTime s * 1000000000)).

(** A number of seconds that is a positive duration. *)
Definition validSeconds (n : Z) : Prop := 0 < n ∧ n * 1000000000 < 2 ^ 63.

Definition validSettings (s : settings) : Prop :=
  Forall (λ z, in_int64 z = true) [s_protocol s; s_chainPort s; s_sandboxPort s; s_sendSize s; s_recvSize s; s_processNum s] ∧
  s_host s ≠ "" ∧ Forall validSeconds [s_connTimeout s; s_execTimeout s; s_stepTime s; s_txTime s].

Lemma seconds_valid n : validSeconds n → seconds n = n * 1000000000.
Proof. intros [? ?]. unfold seconds, TimeStatics.i64. rewrite Z.mod_small; lia. Qed.

Lemma validSeconds_int n : validSeconds n → in_int64 n = true.
Proof. intros [? ?]. unfold in_int64. apply andb_true_iff. rewrite Z.leb_le, Z.ltb_lt. lia. Qed.

Lemma lookupEnv_Some env name v f st : env name = Some v → lookupEnv env name f st = f v st.
Proof. unfold lookupEnv. by intros ->. Qed.

Lemma intEnv_itoa set text z st : in_int64 z = true → intEnv set text (itoa z) st = assign (set z) st.
Proof. intros Hz. unfold intEnv. by rewrite ParseInt_itoa. Qed.

Lemma timeEnv_itoa set text n st : validSeconds n → timeEnv set text (itoa n) st = assign (set (n * 1000000000)) st.
Proof.
  intros Hn. unfold timeEnv. rewrite ParseInt_itoa by by apply validSeconds_int.
  rewrite decide_False by (destruct Hn; lia). by rewrite seconds_valid.
Qed.

Lemma ParseBool_text b : ParseBool (boolText b) = (b, None).
Proof. by destruct b. Qed.

(** [C35] Settings survive their way through the environment: for every choice of settings with
    numbers of 64 bits, a host, and timeouts of at least one second and less than 2^63 nanoseconds, written into the environment in decimal,
    [setEnv] reports no error and gives the configuration with exactly these settings and
    everything else as it was, up to the two switches: logs go to the console only if the configuration before said so and the variable
    does not deny it; reports of slow transactions are off if the configuration before or the variable says so, and the times
    for them are taken over only if the variable does not turn them off. *)
Theorem env_roundtrip s c : validSettings s → setEnv (envOf s) c = (configured s c, []).
Proof.
  intros (Hint & Hhost & Hsec). repeat setoid_rewrite Forall_cons in Hint. repeat setoid_rewrite Forall_cons in Hsec.
  destruct Hint as (? & ? & ? & ? & ? & ? & _). destruct Hsec as (S1 & S2 & S3 & S4 & _).
  unfold setEnv, envBlocks. cbn [foldl].
  erewrite !(lookupEnv_Some (envOf s)) by reflexivity. rewrite !intEnv_itoa, timeEnv_itoa by done.
  unfold protocolEnv, connTimeoutEnv, hostEnv. rewrite !ParseInt_itoa by auto using validSeconds_int.
  rewrite (proj2 (String.eqb_neq _ _) Hhost), (seconds_valid (s_connTimeout s)) by done.
  unfold consoleEnv, slowEnv. rewrite !ParseBool_text. cbv beta iota zeta. cbn [fst].
  erewrite !(lookupEnv_Some (envOf s)) by reflexivity. rewrite !timeEnv_itoa by done.
  unfold configured. destruct (s_console s), (s_slowDisable s), c as [? ? [[? x] [? y]] ? ? ?], x, y; reflexivity.
Qed.

(** ** Errors of the environment *)

(** Blocks that keep the errors there are and the number of processes. *)
Definition harmless (f : envState → envState) : Prop :=
  ∀ st, st.2 `prefix_of` (f st).2 ∧ MaxOriginalProcessNum (Process (f st).1) = MaxOriginalProcessNum (Process st.1).

Lemma harmless_lookup env name f : (∀ v, harmless (f v)) → harmless (lookupEnv env name f).
Proof. intros Hf st. unfold lookupEnv. destruct (env name); [apply Hf|done]. Qed.

Lemma harmless_assign f : (∀ c, MaxOriginalProcessNum (Process (f c)) = MaxOriginalProcessNum (Process c)) → harmless (assign f).
Proof. intros Hf st. split; [cbn; reflexivity|apply Hf]. Qed.

Lemma harmless_error text e : harmless (addError text e).
Proof. intros st. split; [by eexists|done]. Qed.

Lemma harmless_id : harmless (λ st, st).
Proof. by intros st. Qed.

Lemma harmless_comp f g : harmless f → harmless g → harmless (λ st, g (f st)).
Proof. intros Hf Hg st. destruct (Hf st), (Hg (f st)). split; [by etrans|congruence]. Qed.

Lemma harmless_foldl l : Forall harmless l → harmless (λ st, foldl (λ st (block : envState → envState), block st) st l).
Proof.
  induction 1 as [|f l Hf _ IH]; [apply harmless_id|]. cbn [foldl]. apply (harmless_comp f _ Hf IH).
Qed.

Lemma harmless_time set text v : (∀ n c, MaxOriginalProcessNum (Process (set n c)) = MaxOriginalProcessNum (Process c)) →
  harmless (timeEnv set text v).
Proof.
  intros Hs. unfold timeEnv. destruct (ParseInt v) as [n [e|]]; cbv zeta; destruct (decide (n = 0)).
  - apply harmless_error.
  - apply (harmless_comp (addError text _) (assign _)); [apply harmless_error|by apply harmless_assign].
  - apply harmless_id.
  - by apply harmless_assign.
Qed.

Lemma harmless_slow env v : harmless (slowEnv env v).
Proof.
  assert (harmless (λ st, lookupEnv env "SLOW_TX_TIME" (timeEnv set_TxTime "failed to ParseInt slowTxTime: ")
    (lookupEnv env "SLOW_STEP_TIME" (timeEnv set_StepTime "failed to ParseInt slowStepTime: ") st))) as Ht.
  { apply (harmless_comp (lookupEnv _ _ _) (lookupEnv _ _ _)); apply harmless_lookup; intros; by apply harmless_time. }
  unfold slowEnv. destruct (ParseBool v) as [[] [e|]]; cbv zeta.
  - apply (harmless_comp (addError _ _) (assign _)); [apply harmless_error|by apply harmless_assign].
  - by apply harmless_assign.
  - apply (harmless_comp (addError _ _) _ (harmless_error _ _) Ht).
  - exact Ht.
Qed.

(** The blocks before and after that of the number of processes. *)
Lemma harmless_later env : Forall harmless (drop 8 (envBlocks env)).
Proof.
  repeat (apply Forall_cons; split); [..|apply Forall_nil_2]; apply harmless_lookup; intros v.
  - by apply harmless_assign.
  - by apply harmless_assign.
  - unfold consoleEnv. destruct (ParseBool v).1; [apply harmless_id|by apply harmless_assign].
  - by apply harmless_time.
  - apply harmless_slow.
Qed.

(** A mistake in the environment starts an engine that can run nothing, and nothing is reported:
    when the file is in order but the variable of the number of processes is no number, [setEnv]
    gives an error, which [InitConfig] drops since it tests another variable; the number of processes
    is zero, whatever the file says, and so is the number of users. *)
Theorem env_errors_dropped `{ProtocolConsts} vp env v : vp_readErr vp = None → vp_marsErr vp = None →
  env "MAX_ORIGINAL_PROCESS_NUM" = Some v → (ParseInt v).2 = Some ErrSyntax →
  (setEnv env (vp_conf vp)).2 ≠ [] ∧ (InitConfig vp env).2 = [] ∧
  MaxOriginalProcessNum (Process (InitConfig vp env).1) = 0 ∧
  Users.GetMaxUserNum (MaxOriginalProcessNum (Process (InitConfig vp env).1)) = 0.
Proof.
  intros Hr Hm Hv He.
  assert (∃ st st', setEnv env (vp_conf vp) = foldl (λ st block, block st) st' (drop 8 (envBlocks env)) ∧
    st' = intEnv set_MaxOriginalProcessNum "failed to ParseInt processNum: " v st) as (st & st' & E & E').
  { exists (foldl (λ st block, block st) (vp_conf vp, []) (take 7 (envBlocks env))). eexists. split; [|reflexivity].
    unfold setEnv, envBlocks. cbn [foldl take drop]. by rewrite (lookupEnv_Some env "MAX_ORIGINAL_PROCESS_NUM" v _ _ Hv). }
  assert (st'.2 ≠ [] ∧ MaxOriginalProcessNum (Process st'.1) = 0) as [Hne H0].
  { rewrite E'. unfold intEnv. destruct (ParseInt v) as [n err] eqn:Ep. cbn in He. subst err.
    assert (n = 0) as ->. { revert Ep. unfold ParseInt. repeat case_match; intros; simplify_eq; done. }
    cbn. split; [|done]. by destruct st.2. }
  destruct (harmless_foldl _ (harmless_later env) st') as [[l Hl] Hn]. rewrite <-E in Hl, Hn.
  assert (MaxOriginalProcessNum (Process (InitConfig vp env).1) = 0) as Hz.
  { unfold InitConfig. destruct (setEnv env (vp_conf vp)). cbn in *. congruence. }
  split_and!; [|..|done|by rewrite Hz].
  - rewrite Hl. by destruct st'.2.
  - unfold InitConfig. rewrite Hr, Hm. by destruct (setEnv env (vp_conf vp)).
Qed.

(** ** Examples *)

Definition sampleSettings : settings :=
  mkSettings 0 "chain.example" 22351 32351 50 50 5 12 "debug" "warn" true 9 false 3 6.

Lemma env_roundtrip_witness :
  MaxOriginalProcessNum (Process (setEnv (envOf sampleSettings) setDefaultConfigs).1) = 12 ∧
  ExecTxTimeout (Process (setEnv (envOf sampleSettings) setDefaultConfigs).1) = 9000000000 ∧
  Console (SandboxLog (Log (setEnv (envOf sampleSettings) setDefaultConfigs).1)) = false ∧
  (setEnv (envOf sampleSettings) setDefaultConfigs).2 = [].
Proof.
  rewrite (env_roundtrip sampleSettings setDefaultConfigs).
  - repeat split; reflexivity.
  - split; [repeat constructor|]. split; [discriminate|]. repeat constructor; cbn; lia.
Defined.

Lemma env_errors_dropped_witness :
  let vp := mkViper None setDefaultConfigs None in
  let env := λ name, if String.eqb name "MAX_ORIGINAL_PROCESS_NUM" then Some "twenty" else None in
  (InitConfig vp env).2 = [] ∧ MaxOriginalProcessNum (Process (InitConfig vp env).1) = 0.
Proof.
  cbv zeta.
  destruct (env_errors_dropped (H := sampleConsts) (mkViper None setDefaultConfigs None)
    (λ name, if String.eqb name "MAX_ORIGINAL_PROCESS_NUM" then Some "twenty" else None) "twenty"
    eq_refl eq_refl eq_refl ltac:(vm_compute; reflexivity)) as (_ & He & Hn & _).
  split; [exact He|exact Hn].
Defined.

(** A timeout that is too large becomes a negative one: the value is clamped, and the multiplication
    overflows. *)
Example process_timeout_wraps :
  let env := λ name, if String.eqb name "PROCESS_TIMEOUT" then Some "9223372036854775808" else None in
  ExecTxTimeout (Process (setEnv env setDefaultConfigs).1) = -1000000000.
Proof. vm_compute. reflexivity. Qed.
End EngineConfig.
