(* ===== verification/Instances.v ===== *)
(** * instance_manager.go: starting the chain's side

    A chain node has an instance manager for each of its chains. [NewInstancesManager] checks the
    configuration, creates the directories that are mounted into the engine's container and the
    server for the sandboxes; the client manager and the server are shared by all chains of the
    process, created once. The file system and the listening socket are parameters. *)

From S2P Require Import Prelude Messages TimeStatics RuntimeHandler.

Module Instances.

(** ** config/config.go *)

Record RuntimeServerConfig := mkServerConfig { rs_Host : string; rs_Port : Z }.
Record ContractEngineConfig := mkEngineConfig { ce_Host : string; ce_Port : Z; ce_MaxConnection : Z }.
Record SlowConfig := mkSlowConfig { sl_Disable : bool; sl_StepTime : Z; sl_TxTime : Z }.

Record DockerVMConfig := mkVMConfig {
  EnableDockerVM : bool;
  DockerVMMountPath : string;
  DockerVMLogPath : string;
  ConnectionProtocol : string;
  TxTimeout : Z;
  MaxConcurrency : Z;
  MaxSendMsgSize : Z;
  MaxRecvMsgSize : Z;
  RuntimeServer : RuntimeServerConfig;
  ContractEngine : ContractEngineConfig;
  Slow : SlowConfig;
}.

Record DockerContainerConfig := mkContainer { HostMountDir : string; HostLogDir : string }.

Definition DefaultMaxSendSize : Z := 100.
Definition DefaultMaxRecvSize : Z := 100.
Definition ContractsDir : string := "contract-bins".
Definition SockDir : string := "contract-engine-sock".
Definition DefaultTxTimeout : Z := 9.
Definition DefaultSlowStepLogTime : Z := 3.
Definition DefaultSlowTxLogTime : Z := 6.
Definition DefaultMaxConnection : Z := 1.

(** ** utils/utils.go *)

Definition SplitContractName (contractNameAndVersion : string) : string := default "" (head (split contractNameAndVersion)).

Definition GetMaxSendMsgSizeFromConfig (conf : DockerVMConfig) : Z :=
  if MaxSendMsgSize conf <? DefaultMaxSendSize then DefaultMaxSendSize else MaxSendMsgSize conf.

Definition GetMaxRecvMsgSizeFromConfig (conf : DockerVMConfig) : Z :=
  if MaxRecvMsgSize conf <? DefaultMaxRecvSize then DefaultMaxRecvSize else MaxRecvMsgSize conf.

(** The number has 64 bits in the configuration and 32 in the result. *)
Definition GetMaxConnectionFromConfig (conf : DockerVMConfig) : Z :=
  if ce_MaxConnection (ContractEngine conf) =? 0 then DefaultMaxConnection
  else ce_MaxConnection (ContractEngine conf) mod 2 ^ 32.

(** ** validateVMSettings *)

(** [filepath.IsAbs], [filepath.Abs] in the working directory [cwd]. *)
Definition IsAbs (p : string) : bool := match p with String a _ => Ascii.eqb a slash | EmptyString => false end.
Definition Abs (cwd : string + gerr) (p : string) : string + gerr :=
  match cwd with inl d => inl (path_join d p) | inr e => inr e end.

Definition withDefaults (c : DockerVMConfig) : DockerVMConfig :=
  mkVMConfig (EnableDockerVM c) (DockerVMMountPath c) (DockerVMLogPath c) (ConnectionProtocol c)
    (if TxTimeout c =? 0 then DefaultTxTimeout else TxTimeout c) (MaxConcurrency c) (MaxSendMsgSize c) (MaxRecvMsgSize c)
    (RuntimeServer c) (ContractEngine c)
    (mkSlowConfig (sl_Disable (Slow c)) (if sl_StepTime (Slow c) =? 0 then DefaultSlowStepLogTime else sl_StepTime (Slow c))
       (if sl_TxTime (Slow c) =? 0 then DefaultSlowTxLogTime else sl_TxTime (Slow c))).

(** The two configurations it leaves, or an error. When the path of the logs is absolute the code
    assigns the directory of the mount. *)
Definition validateVMSettings (cwd : string + gerr) (c : DockerVMConfig) : (DockerVMConfig * DockerContainerConfig) + gerr :=
  if String.eqb (DockerVMMountPath c) "" then inr (Err "doesn't set host mount directory path correctly")
  else if String.eqb (DockerVMLogPath c) "" then inr (Err "doesn't set host log directory path correctly")
  else
    match (if IsAbs (DockerVMMountPath c) then inl (DockerVMMountPath c) else Abs cwd (DockerVMMountPath c)) with
    | inr _ => inr (Err ("failed to abs DockerVMMountPath filepath, " +:+ DockerVMMountPath c))
    | inl hostMountDir =>
      if IsAbs (DockerVMLogPath c) then
        let hostMountDir := DockerVMLogPath c in
        inl (withDefaults c, mkContainer hostMountDir "")
      else
        match Abs cwd (DockerVMLogPath c) with
        | inr _ => inr (Err ("failed to abs DockerVMLogPath filepath, " +:+ DockerVMLogPath c))
        | inl hostLogDir => inl (withDefaults c, mkContainer hostMountDir hostLogDir)
        end
    end.

(** ** The file system *)

(** [os.Stat], with "not exist" told apart from other errors, and [os.MkdirAll]. *)
Class FileSystem := {
  FS : Type;
  statDir : string → FS → bool + gerr;
  mkdirAll : string → FS → option gerr * FS;
}.

(** What is documented: a directory that was made exists, one that existed still does, and the
    empty path is no directory. *)
Class FileSystemLaws `{FS0 : FileSystem} : Prop := {
  law_mkdir d s : (mkdirAll d s).1 = None → statDir d (mkdirAll d s).2 = inl true;
  law_mkdir_keeps d p s : statDir p s = inl true → statDir p (mkdirAll d s).2 = inl true;
  law_mkdir_empty s : is_Some (mkdirAll "" s).1;
  law_stat_empty s : statDir "" s = inl false;
}.

Section instances.
Context `{FS0 : FileSystem}.

(** What the chains of a process share: the file system, the configurations that the client manager
    and the server were created with, whether the creation of the server has been tried, whether the
    server runs, and [config.VMConfig]. *)
Record Globals := mkGlobals {
  g_fs : FS;
  g_clientMgr : option DockerVMConfig;
  g_serverOnce : bool;
  g_server : option DockerVMConfig;
  g_serverStarted : bool;
  g_VMConfig : option DockerVMConfig;
}.

Definition set_fs (s : FS) (g : Globals) : Globals :=
  mkGlobals s (g_clientMgr g) (g_serverOnce g) (g_server g) (g_serverStarted g) (g_VMConfig g).
Definition set_clientMgr (c : DockerVMConfig) (g : Globals) : Globals :=
  mkGlobals (g_fs g) (Some c) (g_serverOnce g) (g_server g) (g_serverStarted g) (g_VMConfig g).
Definition set_server (o : option DockerVMConfig) (g : Globals) : Globals :=
  mkGlobals (g_fs g) (g_clientMgr g) true o (g_serverStarted g) (g_VMConfig g).
Definition set_started (g : Globals) : Globals :=
  mkGlobals (g_fs g) (g_clientMgr g) (g_serverOnce g) (g_server g) true (g_VMConfig g).
Definition set_VMConfig (c : DockerVMConfig) (g : Globals) : Globals :=
  mkGlobals (g_fs g) (g_clientMgr g) (g_serverOnce g) (g_server g) (g_serverStarted g) (Some c).

Abbreviation MG A := (M Globals A).

Definition exists_ (path : string) : MG (bool + gerr) := g ← getS; mret (statDir path (g_fs g)).

Definition createDir (directory : string) : MG (option gerr) :=
  exist ← exists_ directory;
  match exist with
  | inr err => mret (Some err)
  | inl true => mret None
  | inl false =>
    g ← getS;
    let '(err, s) := mkdirAll directory (g_fs g) in
    putS (set_fs s g);; mret err
  end.

(** [initMountDirectory]: an error of the first and of the last directory is not returned. *)
Definition initMountDirectory (d : DockerContainerConfig) : MG (option gerr) :=
  let mountDir := HostMountDir d in
  err ← createDir mountDir;
  match err with
  | Some _ => mret None
  | None =>
    err ← createDir (path_join mountDir ContractsDir);
    match err with
    | Some e => mret (Some e)
    | None =>
      err ← createDir (path_join mountDir SockDir);
      match err with
      | Some e => mret (Some e)
      | None => createDir (HostLogDir d);; mret None
      end
    end
  end.

(** ** The shared client manager and server *)

(** [rpc.NewClientManager]: the manager of the first call. *)
Definition NewClientManager (c : DockerVMConfig) : MG DockerVMConfig :=
  g ← getS;
  match g_clientMgr g with
  | Some c0 => mret c0
  | None => putS (set_clientMgr c g);; mret c
  end.

(** [rpc.NewRuntimeServer]: only the first call creates the server and can report an error; [listen]
    is the outcome of its [createListener]. The pointer that is returned may be nil. *)
Definition NewRuntimeServer (listen : option gerr) (c : DockerVMConfig) : MG (option DockerVMConfig + gerr) :=
  g ← getS;
  if g_serverOnce g then mret (inl (g_server g))
  else
    match listen with
    | Some e => putS (set_server None g);; mret (inr e)
    | None => putS (set_server (Some c) g);; mret (inl (Some c))
    end.

(** ** The manager *)

Record InstancesManager := mkInstances {
  im_chainId : string;
  im_clientMgr : DockerVMConfig;
  im_runtimeServer : option DockerVMConfig;
  im_dockerVMConfig : DockerVMConfig;
  im_dockerContainerConfig : DockerContainerConfig;
}.

(** [NewInstancesManager] on the configuration as it was decoded; nil is [None]. *)
Definition NewInstancesManager (cwd : string + gerr) (listen : option gerr) (chainId : string) (vmConfig : DockerVMConfig)
    : MG (option InstancesManager) :=
  if negb (EnableDockerVM vmConfig) then mret None
  else
    match validateVMSettings cwd vmConfig with
    | inr _ => mret None
    | inl (dockerVMConfig, dockerContainerConfig) =>
      clientMgr ← NewClientManager dockerVMConfig;
      err ← initMountDirectory dockerContainerConfig;
      match err with
      | Some _ => mret None
      | None =>
        server ← NewRuntimeServer listen dockerVMConfig;
        match server with
        | inr _ => mret None
        | inl server =>
          modifyS (set_VMConfig dockerVMConfig);;
          mret (Some (mkInstances chainId clientMgr server dockerVMConfig dockerContainerConfig))
        end
      end
    end.

(** [StartRuntimeServer] on a server pointer: a nil pointer is dereferenced. *)
Definition StartRuntimeServer (server : option DockerVMConfig) : MG (option gerr) :=
  deref server;; modifyS set_started;; mret None.

(** [StartVM]; [clients] is the outcome of the client manager's [Start]. *)
Definition StartVM (clients : option gerr) (m : option InstancesManager) : MG (option gerr) :=
  match m with
  | None => mret None
  | Some m =>
    err ← StartRuntimeServer (im_runtimeServer m);
    match err with Some e => mret (Some e) | None => mret clients end
  end.
End instances.

(** [BeforeSchedule] and [AfterSchedule]: the durations of a block are collected while it is scheduled. *)
Definition BeforeSchedule (blockFingerprint : string) : M TimeStatics.Dur unit := TimeStatics.AddBlockTxsDuration blockFingerprint.
Definition AfterSchedule (blockFingerprint : string) : M TimeStatics.Dur unit := TimeStatics.RemoveBlockTxsDuration blockFingerprint.

(** ** Directories *)

Section directories.
Context `{FS0 : FileSystem} `{!FileSystemLaws}.

(** The operating system does what it is asked for. *)
Context (Hmkdir : ∀ d s, d ≠ "" → (mkdirAll d s).1 = None).
Context (Hstat : ∀ p s, ∃ b, statDir p s = inl b).

Definition present (g : Globals) (d : string) : Prop := statDir d (g_fs g) = inl true.

(** A step that loses no directory and leaves the rest alone. *)
Definition grows (g g' : Globals) : Prop :=
  (∀ d, present g d → present g' d) ∧ ∃ s, g' = set_fs s g.

#[local] Instance grows_pre : PreOrder grows.
Proof.
  split.
  - intros g. split; [done|]. exists (g_fs g). by destruct g.
  - intros g1 g2 g3 [H1 [s1 ->]] [H2 [s2 ->]]. split; [naive_solver|]. by exists s2.
Qed.

Lemma createDir_grows d g : ∃ err g', createDir d g = Ret (err, g') ∧ grows g g' ∧ (d ≠ "" → err = None ∧ present g' d).
Proof.
  unfold createDir, exists_, mbind, M_bind, getS, putS, mret, M_ret. destruct (Hstat d (g_fs g)) as [[] E]; rewrite E.
  - exists None, g. split_and!; [done|reflexivity|done].
  - pose proof (law_mkdir d (g_fs g)) as Hm. pose proof (λ p, law_mkdir_keeps d p (g_fs g)) as Hk.
    pose proof (Hmkdir d (g_fs g)) as He. destruct (mkdirAll d (g_fs g)) as [err s]. exists err, (set_fs s g). cbn in *.
    split_and!; [done| |].
    + split; [exact Hk|by exists s].
    + intros Hd. split; [by apply He|]. apply Hm. by apply He.
Qed.

Lemma path_join_nonempty a b : path_join a b ≠ "".
Proof. unfold path_join. destruct (clean_go _ _) as [|x [|y l]]; done. Qed.

Lemma initMountDirectory_ok d g : HostMountDir d ≠ "" → ∃ g', initMountDirectory d g = Ret (None, g') ∧ grows g g' ∧
  Forall (present g') [HostMountDir d; path_join (HostMountDir d) ContractsDir; path_join (HostMountDir d) SockDir] ∧
  (HostLogDir d ≠ "" → present g' (HostLogDir d)).
Proof.
  intros Hd. unfold initMountDirectory. cbv zeta.
  destruct (createDir_grows (HostMountDir d) g) as (? & g1 & E1 & G1 & P1). destruct (P1 Hd) as [-> P1'].
  destruct (createDir_grows (path_join (HostMountDir d) ContractsDir) g1) as (? & g2 & E2 & G2 & P2).
  destruct (P2 (path_join_nonempty _ _)) as [-> P2'].
  destruct (createDir_grows (path_join (HostMountDir d) SockDir) g2) as (? & g3 & E3 & G3 & P3).
  destruct (P3 (path_join_nonempty _ _)) as [-> P3'].
  destruct (createDir_grows (HostLogDir d) g3) as (e4 & g4 & E4 & G4 & P4).
  exists g4. unfold mbind, M_bind. rewrite E1, E2, E3, E4. split; [done|]. split; [by etrans; [|etrans; [|etrans]]|]. split.
  - repeat constructor; [apply G4, G3, G2|apply G4, G3|apply G4]; done.
  - intros Hl. by apply P4.
Qed.

(** A configuration that is switched on and has both paths. *)
Definition usable (c : DockerVMConfig) : Prop :=
  EnableDockerVM c = true ∧ DockerVMMountPath c ≠ "" ∧ DockerVMLogPath c ≠ "".

Definition absolute (cwd p : string) : string := if IsAbs p then p else path_join cwd p.

Definition containerOf (cwd : string) (c : DockerVMConfig) : DockerContainerConfig :=
  if IsAbs (DockerVMLogPath c) then mkContainer (DockerVMLogPath c) ""
  else mkContainer (absolute cwd (DockerVMMountPath c)) (path_join cwd (DockerVMLogPath c)).

Lemma validate_usable cwd c : usable c → validateVMSettings (inl cwd) c = inl (withDefaults c, containerOf cwd c).
Proof.
  intros (_ & Hm & Hl). apply String.eqb_neq in Hm, Hl. unfold validateVMSettings, containerOf, absolute, Abs. rewrite Hm, Hl.
  destruct (IsAbs (DockerVMMountPath c)), (IsAbs (DockerVMLogPath c)); done.
Qed.

Lemma containerOf_mount cwd c : usable c → HostMountDir (containerOf cwd c) ≠ "".
Proof.
  intros (_ & Hm & Hl). unfold containerOf, absolute. repeat case_match; cbn; try done. apply path_join_nonempty.
Qed.

(** The manager of a usable configuration, up to the server. *)
Lemma NewInstances_usable cwd listen chainId c g : usable c → ∃ g1,
  NewInstancesManager (inl cwd) listen chainId c g =
    (server ← NewRuntimeServer listen (withDefaults c);
     match server with
     | inr _ => mret None
     | inl server =>
       modifyS (set_VMConfig (withDefaults c));;
       mret (Some (mkInstances chainId (default (withDefaults c) (g_clientMgr g)) server (withDefaults c) (containerOf cwd c)))
     end) g1 ∧
  g_serverOnce g1 = g_serverOnce g ∧ g_server g1 = g_server g ∧
  Forall (present g1) [HostMountDir (containerOf cwd c); path_join (HostMountDir (containerOf cwd c)) ContractsDir;
    path_join (HostMountDir (containerOf cwd c)) SockDir] ∧
  (HostLogDir (containerOf cwd c) ≠ "" → present g1 (HostLogDir (containerOf cwd c))).
Proof.
  intros Hc. pose proof Hc as (He & _). unfold NewInstancesManager. rewrite He, (validate_usable cwd c Hc). cbn [negb].
  unfold NewClientManager.
  set (g0 := match g_clientMgr g with Some _ => g | None => set_clientMgr (withDefaults c) g end).
  destruct (initMountDirectory_ok (containerOf cwd c) g0 (containerOf_mount cwd c Hc)) as (g1 & E & [_ [s ->]] & Hd & Hl).
  eexists. split_and!; [| | |exact Hd|exact Hl].
  - unfold mbind at 1, M_bind at 1. unfold mbind at 1, M_bind at 1, getS. subst g0. destruct (g_clientMgr g) eqn:Eg.
    + unfold mret at 1, M_ret at 1. unfold mbind at 1, M_bind at 1. by rewrite E.
    + unfold mbind at 1, M_bind at 1, putS, mret at 1, M_ret at 1. unfold mbind at 1, M_bind at 1. by rewrite E.
  - subst g0. by destruct (g_clientMgr g).
  - subst g0. by destruct (g_clientMgr g).
Qed.

(** The first manager of a process gets what it needs: for a usable configuration with a relative
    path of the logs, when the operating system reports no errors, a manager is returned, with a server,
    and the directories of the mount, of the contracts, of the socket and of the logs exist, at the
    absolute places the configuration means; with an absolute mount path this is the directory where
    the handlers later save the contracts. *)
Theorem instance_directories cwd chainId c g : usable c → IsAbs (DockerVMLogPath c) = false → g_serverOnce g = false →
  ∃ m g', NewInstancesManager (inl cwd) None chainId c g = Ret (Some m, g') ∧ is_Some (im_runtimeServer m) ∧
    let mountDir := absolute cwd (DockerVMMountPath c) in
    Forall (present g') [mountDir; path_join mountDir ContractsDir; path_join mountDir SockDir; absolute cwd (DockerVMLogPath c)] ∧
    (g_clientMgr g = None → IsAbs (DockerVMMountPath c) = true →
     present g' (path_join (DockerVMMountPath (im_clientMgr m)) RuntimeHandler.mountContractDir)).
Proof.
  intros Hc Hlog Honce. destruct (NewInstances_usable cwd None chainId c g Hc) as (g1 & E & Ho & _ & Hd & Hl).
  rewrite E. unfold NewRuntimeServer, mbind, M_bind, getS, putS, modifyS, mret, M_ret. rewrite Ho, Honce.
  do 2 eexists. split; [reflexivity|]. split; [by eexists|]. cbn [im_clientMgr].
  unfold containerOf in Hd, Hl. rewrite Hlog in Hd, Hl. cbn [HostMountDir HostLogDir] in Hd, Hl.
  specialize (Hl (path_join_nonempty _ _)). rewrite !Forall_cons in Hd. destruct Hd as (H1 & H2 & H3 & _). split.
  - repeat constructor; [exact H1|exact H2|exact H3|]. unfold absolute. by rewrite Hlog.
  - intros Hcm Habs. rewrite Hcm. unfold absolute in H2. rewrite Habs in H2. exact H2.
Qed.

(** An absolute path of the logs takes the place of the mount: the manager is created, but the
    directories of the contracts and of the socket are made under the path of the logs, and there is
    no directory for the logs. *)
Theorem absolute_log_path cwd chainId c g : usable c → IsAbs (DockerVMLogPath c) = true → g_serverOnce g = false →
  ∃ m g', NewInstancesManager (inl cwd) None chainId c g = Ret (Some m, g') ∧
    im_dockerContainerConfig m = mkContainer (DockerVMLogPath c) "" ∧
    present g' (path_join (DockerVMLogPath c) ContractsDir) ∧ present g' (path_join (DockerVMLogPath c) SockDir).
Proof.
  intros Hc Hlog Honce. destruct (NewInstances_usable cwd None chainId c g Hc) as (g1 & E & Ho & _ & Hd & _).
  rewrite E. unfold NewRuntimeServer, mbind, M_bind, getS, putS, modifyS, mret, M_ret. rewrite Ho, Honce.
  do 2 eexists. split; [reflexivity|]. cbn [im_dockerContainerConfig]. unfold containerOf in *. rewrite Hlog in *.
  split; [done|]. rewrite !Forall_cons in Hd. by destruct Hd as (_ & ? & ? & _).
Qed.

(** A socket that cannot be opened for one chain stops the node at the next: the first manager is
    nil, as it should be; but the server is created only once, so that for another chain the call
    gives a nil server and no error, a manager is returned, and starting it dereferences nil. *)
Theorem second_chain_panics cwd e chain1 chain2 c1 c2 g : usable c1 → usable c2 → g_serverOnce g = false →
  ∃ g1 m g2, NewInstancesManager (inl cwd) (Some e) chain1 c1 g = Ret (None, g1) ∧
    NewInstancesManager (inl cwd) None chain2 c2 g1 = Ret (Some m, g2) ∧ StartVM None (Some m) g2 = Panic.
Proof.
  intros Hc1 Hc2 Honce. destruct (NewInstances_usable cwd (Some e) chain1 c1 g Hc1) as (g0 & E1 & Ho1 & _).
  exists (set_server None g0). destruct (NewInstances_usable cwd None chain2 c2 (set_server None g0) Hc2) as (g1 & E2 & Ho2 & Hs2 & _).
  cbn in Ho2, Hs2. rewrite E1, E2. unfold NewRuntimeServer, mbind, M_bind, getS, putS, modifyS, mret, M_ret.
  rewrite Ho1, Honce, Ho2, Hs2. do 2 eexists. split; [reflexivity|]. split; [reflexivity|]. done.
Qed.
End directories.

(** ** A file system of directories *)

Definition sampleFS : FileSystem := {|
  FS := gset string;
  statDir p s := inl (negb (String.eqb p "") && bool_decide (p ∈ s));
  mkdirAll d s := if String.eqb d "" then (Some (Err "no such file or directory"), s) else (None, {[ d ]} ∪ s);
|}.

Lemma sampleFS_laws : @FileSystemLaws sampleFS.
Proof.
  split; cbn.
  - intros d s. destruct (String.eqb d "") eqn:E; [done|]. intros _. cbn. rewrite bool_decide_true by set_solver. done.
  - intros d p s. destruct (String.eqb d "") eqn:E; [done|]. cbn. intros [= [Hp Hs%bool_decide_eq_true]%andb_true_iff].
    rewrite Hp, bool_decide_true by set_solver. done.
  - intros s. by eexists.
  - done.
Qed.

Lemma sampleFS_mkdir (d : string) (s : @FS sampleFS) : d ≠ "" → (@mkdirAll sampleFS d s).1 = None.
Proof. intros Hd. cbn. by rewrite (proj2 (String.eqb_neq _ _) Hd). Qed.

Lemma sampleFS_stat (p : string) (s : @FS sampleFS) : ∃ b, @statDir sampleFS p s = inl b.
Proof. by eexists. Qed.

Definition sampleConfig (logPath : string) : DockerVMConfig :=
  mkVMConfig true "/data/mount" logPath "tcp" 0 10 100 100 (mkServerConfig "" 32351) (mkEngineConfig "engine" 22351 1)
    (mkSlowConfig false 0 0).

Definition sampleGlobals : @Globals sampleFS := @mkGlobals sampleFS ∅ None false None false None.

Lemma sampleConfig_usable l : l ≠ "" → usable (sampleConfig l).
Proof. intros Hl. by split. Qed.

Lemma instance_directories_witness :
  ∃ m g', NewInstancesManager (FS0 := sampleFS) (inl "/home") None "chain1" (sampleConfig "log") sampleGlobals = Ret (Some m, g') ∧
    "/data/mount/contract-bins" ∈ g_fs g' ∧ "/home/log" ∈ g_fs g'.
Proof.
  destruct (instance_directories (FS0 := sampleFS) (H := sampleFS_laws) sampleFS_mkdir sampleFS_stat "/home" "chain1" (sampleConfig "log")
    sampleGlobals (sampleConfig_usable "log" ltac:(discriminate)) eq_refl eq_refl) as (m & g' & E & _ & Hd & _).
  exists m, g'. split; [exact E|].
  rewrite !Forall_cons in Hd. destruct Hd as (_ & H2 & _ & H4 & _). split.
  - injection H2 as H2. exact (proj1 (bool_decide_eq_true _) H2).
  - injection H4 as H4. exact (proj1 (bool_decide_eq_true _) H4).
Defined.

Lemma absolute_log_path_witness :
  ∃ m g', NewInstancesManager (FS0 := sampleFS) (inl "/home") None "chain1" (sampleConfig "/var/log") sampleGlobals = Ret (Some m, g') ∧
    im_dockerContainerConfig m = mkContainer "/var/log" "".
Proof.
  destruct (absolute_log_path (FS0 := sampleFS) (H := sampleFS_laws) sampleFS_mkdir sampleFS_stat "/home" "chain1" (sampleConfig "/var/log")
    sampleGlobals (sampleConfig_usable "/var/log" ltac:(discriminate)) eq_refl eq_refl) as (m & g' & E & Hm & _).
  exists m, g'. split; [exact E|exact Hm].
Defined.

Lemma second_chain_panics_witness :
  ∃ g1 m g2, NewInstancesManager (FS0 := sampleFS) (inl "/home") (Some (Err "address in use")) "chain1" (sampleConfig "log") sampleGlobals
      = Ret (None, g1) ∧
    NewInstancesManager (FS0 := sampleFS) (inl "/home") None "chain2" (sampleConfig "log") g1 = Ret (Some m, g2) ∧
    StartVM None (Some m) g2 = Panic.
Proof.
  exact (second_chain_panics (FS0 := sampleFS) (H := sampleFS_laws) sampleFS_mkdir sampleFS_stat "/home" (Err "address in use")
    "chain1" "chain2" (sampleConfig "log") (sampleConfig "log") sampleGlobals (sampleConfig_usable "log" ltac:(discriminate))
    (sampleConfig_usable "log" ltac:(discriminate)) eq_refl).
Defined.
End Instances.
