(* ===== verification/EngineServices.v ===== *)
(** * vm_mgr/module/rpc: the services of the engine

    [ChainRPCService] receives the transactions and bytecode of the chain and gives them to the
    request scheduler, and sends the engine's requests and errors back; every connection of the chain
    has its two goroutines, all connections take from the same channel. [SandboxRPCService] gives the
    messages of a sandbox to its process. *)

From S2P Require Import Prelude Messages EngineUtils FixedQueue Users RequestScheduler Process ProcessManager Engine Streams.

Module EngineServices.
Export Streams.

(** ** contract_engine_chain_service.go *)

Definition _rpcEventChSize : Z := 50000.

(** What a connection works on: the channel of the service, the scheduler, and the variable [err] of
    the sending goroutine; and what it has done: the messages received from the stream, those given to
    the scheduler, and those the stream has taken. *)
Record service := mkService {
  v_eventCh : list DockerVMMessage;
  v_scheduler : RequestScheduler.RequestScheduler;
  v_err : option sendError;
  v_received : list DockerVMMessage;
  v_passed : list DockerVMMessage;
  v_sent : list DockerVMMessage;
}.

Definition set_event (l : list DockerVMMessage) (v : service) : service :=
  mkService l (v_scheduler v) (v_err v) (v_received v) (v_passed v) (v_sent v).
Definition set_scheduler (s : RequestScheduler.RequestScheduler) (v : service) : service :=
  mkService (v_eventCh v) s (v_err v) (v_received v) (v_passed v) (v_sent v).
Definition set_err (e : option sendError) (v : service) : service :=
  mkService (v_eventCh v) (v_scheduler v) e (v_received v) (v_passed v) (v_sent v).
Definition add_received (m : DockerVMMessage) (v : service) : service :=
  mkService (v_eventCh v) (v_scheduler v) (v_err v) (v_received v ++ [m]) (v_passed v) (v_sent v).
Definition add_passed (m : DockerVMMessage) (v : service) : service :=
  mkService (v_eventCh v) (v_scheduler v) (v_err v) (v_received v) (v_passed v ++ [m]) (v_sent v).
Definition add_sent (m : DockerVMMessage) (v : service) : service :=
  mkService (v_eventCh v) (v_scheduler v) (v_err v) (v_received v) (v_passed v) (v_sent v ++ [m]).

(** [NewChainRPCService] with its scheduler. *)
Definition NewChainRPCService (s : RequestScheduler.RequestScheduler) : service := mkService [] s None [] [] [].

Definition PutMsg (msg : AnyMsg) : M service (option gerr) :=
  match msg with
  | AnyDockerVM m =>
    v ← getS;
    if Z.of_nat (length (v_eventCh v)) <? _rpcEventChSize then putS (set_event (v_eventCh v ++ [m]) v);; mret None else block
  | _ => mret (Some (Err "unknown msg type"))
  end.

(** The error of [PutMsg] depends on the message only. *)
Lemma chainPutMsg_err msg v er v' : PutMsg msg v = Ret (er, v') → er = Engine.chainPutErr msg.
Proof.
  unfold PutMsg, Engine.chainPutErr. destruct msg; intros Hr; try (by injection Hr as <- _).
  apply bind_Ret in Hr as (? & ? & [= <- <-] & Hr). destruct (_ <? _); [|done].
  by apply bind_Ret in Hr as (? & ? & _ & [= <- _]).
Qed.

Abbreviation MC A := (M (conn * service) A).

(** The types the receiving goroutine gives to the scheduler. *)
Definition chainType (t : DockerVMType) : bool :=
  match t with TX_REQUEST | GET_BYTECODE_RESPONSE => true | _ => false end.

(** Calling the scheduler: its error is only logged. *)
Definition toScheduler (msg : DockerVMMessage) : M service unit :=
  v ← getS;
  match RequestScheduler.PutMsg (AnyDockerVM msg) (v_scheduler v) with
  | Ret (_, s) => putS (add_passed msg (set_scheduler s v))
  | Panic => panic
  | Block => block
  end.

(** One step of [recvMsgRoutine]: the [select], the end of [RecvMsg] with its outcome [o], the
    hand-over to the scheduler. *)
Definition recvMsgRoutine (slowDisable : bool) (now : Z) (o : DockerVMMessage + gerr) : MC unit :=
  '(c, v) ← getS;
  match k_recv c with
  | RSelect => if k_stopRecv c then onFst (wgDone;; setRecv REnd) else onFst (setRecv RRecv)
  | RRecv =>
    match o with
    | inr err => onFst (closeSend;; wgDone;; setRecv REnd)
    | inl msg =>
      let msg := EnterNextStep slowDisable now now now msg ENGINE_GRPC_RECEIVE_TX_REQUEST "" in
      onSnd (modifyS (add_received msg));;
      onFst (setRecv (if chainType (m_Type msg) then RPass msg else RSelect))
    end
  | RPass msg => onSnd (toScheduler msg);; onFst (setRecv RSelect)
  | REnd => block
  end.

(** One step of [sendMsgRoutine]: the [select], in which [stop] chooses the stop channel, the end of
    [Send] with its outcome [o]. A message of another type leaves [err] as it is. *)
Definition sendMsgRoutine (stop : bool) (o : option sendError) : MC unit :=
  '(c, v) ← getS;
  match k_send c with
  | SSelect =>
    if stop then if k_stopSend c then onFst (wgDone;; setSend SEnd) else block
    else
      match v_eventCh v with
      | [] => block
      | msg :: l =>
        onSnd (modifyS (set_event l));;
        match m_Type msg with
        | GET_BYTECODE_REQUEST | ERROR => onFst (setSend (SSend msg))
        | _ => match v_err v with
               | Some OtherError => onFst (closeRecv;; wgDone;; setSend SEnd)
               | _ => onFst (setSend SSelect)
               end
        end
      end
  | SSend msg =>
    onSnd (modifyS (set_err o));;
    match o with
    | None => onSnd (modifyS (add_sent msg));; onFst (setSend SSelect)
    | Some ResourceExhausted => onFst (setSend SSelect)
    | Some OtherError => onFst (closeRecv;; wgDone;; setSend SEnd)
    end
  | SEnd => block
  end.

(** What happens to a connection: its goroutines step; the engine puts messages into the channel; other
    connections take them; the scheduler works. *)
Inductive chainAct :=
| CRecv (slowDisable : bool) (now : Z) (o : DockerVMMessage + gerr)
| CSend (stop : bool) (o : option sendError)
| CPut (msg : AnyMsg)
| COther (l : list DockerVMMessage)
| CScheduler (s : RequestScheduler.RequestScheduler).

Definition chainStep (a : chainAct) : MC unit :=
  match a with
  | CRecv slowDisable now o => recvMsgRoutine slowDisable now o
  | CSend stop o => sendMsgRoutine stop o
  | CPut msg => onSnd (PutMsg msg);; mret tt
  | COther l => onSnd (modifyS (set_event l))
  | CScheduler s => onSnd (modifyS (set_scheduler s))
  end.

Inductive chainReachable : conn * service → Prop :=
| chain_new v : v_err v = None → v_received v = [] → v_passed v = [] → chainReachable (newConn, v)
| chain_step a w w' : chainReachable w → chainStep a w = Ret (tt, w') → chainReachable w'.

(** ** contract_engine_sandbox_service.go *)

(** A process of one of the two managers. *)
Inductive procRef := OrigProcess (i : nat) | CrossProcess (i : nat).

Section sandbox.
Context `{LI : LinkedHashMap string nat} `{LW : LinkedHashMap RequestGroupKey bool}.

Definition onProcess (p : procRef) (f : M Process.Process unit) : M Engine.ManagerImpl unit :=
  m ← getS;
  match p with
  | OrigProcess i =>
    x ← deref (Engine.origProcesses m !! i);
    match f x with
    | Ret (_, x') => putS (Engine.mkManager (Engine.origProcessManager m) (<[i := x']> (Engine.origProcesses m))
                       (Engine.crossProcessManager m) (Engine.crossProcesses m) (Engine.usersManager m))
    | Panic => panic
    | Block => block
    end
  | CrossProcess i =>
    x ← deref (Engine.crossProcesses m !! i);
    match f x with
    | Ret (_, x') => putS (Engine.mkManager (Engine.origProcessManager m) (Engine.origProcesses m)
                       (Engine.crossProcessManager m) (<[i := x']> (Engine.crossProcesses m)) (Engine.usersManager m))
    | Panic => panic
    | Block => block
    end
  end.

(** The look-up of the process that a first message names: the manager of the original processes,
    then that of the cross calls. *)
Definition findProcess (name : string) (m : Engine.ManagerImpl) : option procRef :=
  match ProcessManager.GetProcessByName name (Engine.origWorld m) with
  | Some i => Some (OrigProcess i)
  | None => CrossProcess <$> ProcessManager.GetProcessByName name (Engine.crossWorld m)
  end.

(** A round of the loop of [DockerVMCommunicate] for a message: the process of the stream afterwards,
    or the error the stream ends with. *)
Definition DockerVMCommunicate (process : option procRef) (msg : DockerVMMessage) : M Engine.ManagerImpl (procRef + gerr) :=
  process ← (match process with
             | Some p => mret (inl p)
             | None =>
               cc ← deref (m_CrossContext msg);
               m ← getS;
               match findProcess (cc_ProcessName cc) m with
               | Some p => mret (inl p)
               | None => mret (inr (Err "failed to get process, <nil>"))
               end
             end);
  match process with
  | inr err => mret (inr err)
  | inl p =>
    (if decide (m_Type msg = REGISTER) then onProcess p Process.SetStream else onProcess p (Process.PutMsg msg));;
    mret (inl p)
  end.
End sandbox.

(** ** The chain's stream *)

(** The message the receiving goroutine still has to pass on. *)
Definition holding (p : recvPc) : list DockerVMMessage := match p with RPass m => [m] | _ => [] end.

Record chainInv (w : conn * service) : Prop := {
  ci_flags : flagsOk w.1;
  ci_wg : wgOk w.1;
  ci_err : v_err w.2 = Some OtherError → k_send w.1 = SEnd;
  ci_order : v_passed w.2 ++ holding (k_recv w.1) = filter (λ m, chainType (m_Type m) = true) (v_received w.2);
}.

(** An action waits or keeps the invariant. *)
Definition safeStep (m : MC unit) (w : conn * service) : Prop :=
  m w = Block ∨ ∃ w', m w = Ret (tt, w') ∧ chainInv w'.

Lemma onFst_run {A B X} (m : M A X) (a : A) (b : B) x a' : m a = Ret (x, a') → onFst m (a, b) = Ret (x, (a', b)).
Proof. unfold onFst. by intros ->. Qed.

(** A goroutine moves on the connection, and the service is in order for where it gets to. *)
Lemma safe_conn (m : M conn unit) c c' v v' (f : MC unit) :
  m c = Ret (tt, c') → f (c, v) = onFst m (c, v') → flagsOk c' → wgOk c' → (v_err v' = Some OtherError → k_send c' = SEnd) →
  v_passed v' ++ holding (k_recv c') = filter (λ m, chainType (m_Type m) = true) (v_received v') → safeStep f (c, v).
Proof. intros E Ef Hf Hw He Ho. right. exists (c', v'). split; [|by split]. rewrite Ef. by apply onFst_run. Qed.

Lemma recvMsgRoutine_safe sd now o w : chainInv w → safeStep (recvMsgRoutine sd now o) w.
Proof.
  destruct w as [c v]. intros [Hf Hw He Ho]. cbn [fst snd] in *. destruct (k_recv c) as [| |msg|] eqn:Er.
  - destruct (k_stopRecv c) eqn:Es.
    + destruct (recvStopped_ok c Hf Hw ltac:(congruence) Es) as (c' & E & Hf' & Hw' & Hr & Hs).
      eapply (safe_conn _ c c' v v _ E); [|done|done|by rewrite Hs|by rewrite Hr].
      unfold recvMsgRoutine, mbind at 1, M_bind at 1, getS. by rewrite Er, Es.
    + destruct (setRecv_ok c RRecv Hf ltac:(congruence) ltac:(done)) as (c' & E & Hf' & Hw' & Hr & Hs).
      eapply (safe_conn _ c c' v v _ E); [|done|by apply Hw'|by rewrite Hs|by rewrite Hr].
      unfold recvMsgRoutine, mbind at 1, M_bind at 1, getS. by rewrite Er, Es.
  - destruct o as [msg|e].
    + set (msg' := EnterNextStep sd now now now msg ENGINE_GRPC_RECEIVE_TX_REQUEST "").
      destruct (setRecv_ok c (if chainType (m_Type msg') then RPass msg' else RSelect) Hf ltac:(congruence) ltac:(by destruct (chainType _)))
        as (c' & E & Hf' & Hw' & Hr & Hs).
      eapply (safe_conn _ c c' v (add_received msg' v) _ E); [|done|by apply Hw'|by rewrite Hs|].
      * unfold recvMsgRoutine, mbind at 1, M_bind at 1, getS. by rewrite Er.
      * cbn. rewrite filter_app, <-Ho, Hr. cbn [holding]. rewrite app_nil_r. f_equal.
        destruct (chainType (m_Type msg')) eqn:Et; [rewrite filter_cons_True by done|rewrite filter_cons_False by congruence]; done.
    + destruct (recvFailed_ok c Hf Hw ltac:(congruence)) as (c' & E & Hf' & Hw' & Hr & Hs).
      eapply (safe_conn _ c c' v v _ E); [|done|done|by rewrite Hs|by rewrite Hr].
      unfold recvMsgRoutine, mbind at 1, M_bind at 1, getS. by rewrite Er.
  - assert (recvMsgRoutine sd now o (c, v) = match RequestScheduler.PutMsg (AnyDockerVM msg) (v_scheduler v) with
      | Ret (_, s) => onFst (setRecv RSelect) (c, add_passed msg (set_scheduler s v)) | Panic => Panic | Block => Block end) as Eq.
    { unfold recvMsgRoutine, mbind at 1, M_bind at 1, getS at 1. rewrite Er.
      unfold toScheduler, onSnd, mbind, M_bind, getS, putS. by destruct (RequestScheduler.PutMsg _ _) as [[]| |]. }
    unfold safeStep. rewrite Eq. destruct (RequestScheduler.PutMsg _ _) as [[e s]| |] eqn:Ep; [|exfalso|by left].
    + right. destruct (setRecv_ok c RSelect Hf ltac:(congruence) ltac:(done)) as (c' & E & Hf' & Hw' & Hr & Hs).
      eexists. split; [by apply onFst_run|]. split; [done|by apply Hw'|cbn; by rewrite Hs|]. cbn.
      rewrite Hr. cbn. by rewrite app_nil_r.
    + revert Ep. unfold RequestScheduler.PutMsg, mbind, M_bind, getS, modifyS, mret, M_ret, block. repeat case_match; done.
  - left. unfold recvMsgRoutine, mbind at 1, M_bind at 1, getS. by rewrite Er.
Qed.

Lemma sendMsgRoutine_safe stop o w : chainInv w → safeStep (sendMsgRoutine stop o) w.
Proof.
  destruct w as [c v]. intros [Hf Hw He Ho]. cbn [fst snd] in *.
  assert (∀ p v' f, k_send c ≠ SEnd → p ≠ SEnd → v_err v' ≠ Some OtherError →
    v_passed v' = v_passed v → v_received v' = v_received v → f (c, v) = onFst (setSend p) (c, v') → safeStep f (c, v)) as Hstay.
  { intros p v' f Hc Hp Hv Ep Er Ef. destruct (setSend_ok c p Hf Hc Hp) as (c' & E & Hf' & Hw' & Hs & Hr).
    eapply (safe_conn _ c c' v v' f E Ef); [done|by apply Hw'|done|by rewrite Hr, Ep, Er]. }
  destruct (k_send c) as [|msg|] eqn:Es.
  - assert (v_err v ≠ Some OtherError) as Hv by (intros Hv; apply He in Hv; done). destruct stop.
    + destruct (k_stopSend c) eqn:Ec.
      * destruct (sendStopped_ok c Hf Hw ltac:(congruence) Ec) as (c' & E & Hf' & Hw' & Hs & Hr).
        eapply (safe_conn _ c c' v v _ E); [|done|done|done|by rewrite Hr].
        unfold sendMsgRoutine, mbind at 1, M_bind at 1, getS. by rewrite Es, Ec.
      * left. unfold sendMsgRoutine, mbind at 1, M_bind at 1, getS. by rewrite Es, Ec.
    + destruct (v_eventCh v) as [|m l] eqn:El.
      * left. unfold sendMsgRoutine, mbind at 1, M_bind at 1, getS. by rewrite Es, El.
      * eapply (Hstay (match m_Type m with GET_BYTECODE_REQUEST | ERROR => SSend m | _ => SSelect end) (set_event l v));
          [done|by destruct (m_Type m)|done|done|done|].
        unfold sendMsgRoutine, mbind at 1, M_bind at 1, getS. rewrite Es, El. unfold mbind at 1, M_bind at 1, onSnd, modifyS.
        destruct (v_err v) as [[]|]; [|done|]; by destruct (m_Type m).
  - destruct o as [[]|].
    + eapply (Hstay SSelect (set_err (Some ResourceExhausted) v)); [done..|].
      unfold sendMsgRoutine, mbind at 1, M_bind at 1, getS. by rewrite Es.
    + destruct (sendFailed_ok c Hf Hw ltac:(congruence)) as (c' & E & Hf' & Hw' & Hs & Hr).
      eapply (safe_conn _ c c' v (set_err (Some OtherError) v) _ E); [|done|done|done|by rewrite Hr].
      unfold sendMsgRoutine, mbind at 1, M_bind at 1, getS. by rewrite Es.
    + eapply (Hstay SSelect (add_sent msg (set_err None v))); [done..|].
      unfold sendMsgRoutine, mbind at 1, M_bind at 1, getS. by rewrite Es.
  - left. unfold sendMsgRoutine, mbind at 1, M_bind at 1, getS. by rewrite Es.
Qed.

Lemma chainStep_safe a w : chainInv w → safeStep (chainStep a) w.
Proof.
  intros Hw. destruct a as [sd now o|stop o|msg|l|s]; cbn [chainStep].
  - by apply recvMsgRoutine_safe.
  - by apply sendMsgRoutine_safe.
  - destruct w as [c v]. destruct Hw as [Hf Hg He Ho]. unfold safeStep, PutMsg, onSnd, mbind, M_bind, getS, putS, mret, M_ret.
    destruct msg; try (right; eexists; split; [reflexivity|by split]).
    destruct (_ <? _); [|by left]. right. eexists. split; [reflexivity|by split].
  - destruct w as [c v]. destruct Hw as [Hf Hg He Ho]. right. eexists. split; [reflexivity|by split].
  - destruct w as [c v]. destruct Hw as [Hf Hg He Ho]. right. eexists. split; [reflexivity|by split].
Qed.

Lemma chain_reachable_inv w : chainReachable w → chainInv w.
Proof.
  induction 1 as [v He Hr Hp|a w w' _ IH E].
  - split; cbn; [apply newConn_flags|apply newConn_wg|by rewrite He|by rewrite Hr, Hp].
  - destruct (chainStep_safe a w IH) as [E'|(w2 & E' & Hw)]; rewrite E in E'; [done|by injection E' as <-].
Qed.

(** [C21] A connection of the chain ends cleanly. In every reachable state, whatever the stream, the
    scheduler and other connections do: no step panics, that is no stop channel is closed twice and the
    wait group does not become negative; the wait group counts the running goroutines; when one goroutine
    has ended, the other one finds its stop channel closed at its next [select], and once it has taken it
    the wait group is zero, so that the connection's handler returns; and the messages given to the
    scheduler are those received, in order, of the two types it takes. *)
Theorem chain_stream_sound c v : chainReachable (c, v) →
  (∀ a, chainStep a (c, v) ≠ Panic) ∧ k_wg c = running c ∧
  (k_recv c = REnd → k_send c = SSelect → ∀ o, ∃ c', chainStep (CSend true o) (c, v) = Ret (tt, (c', v)) ∧ k_wg c' = 0) ∧
  (k_send c = SEnd → k_recv c = RSelect → ∀ sd now o, ∃ c', chainStep (CRecv sd now o) (c, v) = Ret (tt, (c', v)) ∧ k_wg c' = 0) ∧
  v_passed v ++ holding (k_recv c) = filter (λ m, chainType (m_Type m) = true) (v_received v).
Proof.
  intros Hw%chain_reachable_inv. pose proof Hw as [Hf Hg _ Ho]. cbn in *. split_and!; [|done| | |done].
  - intros a. destruct (chainStep_safe a _ Hw) as [->|(w' & -> & _)]; done.
  - intros Hr Hs o. assert (k_stopSend c = true) as Hstop.
    { destruct (fl_recvEnd _ Hf Hr) as [?|Hx%(fl_recv _ Hf)]; [done|congruence]. }
    destruct (sendStopped_ok c Hf Hg ltac:(congruence) Hstop) as (c' & E & _ & Hw' & Hs' & Hr').
    exists c'. split; [|by rewrite Hw'; unfold running; rewrite Hr', Hs', Hr].
    unfold sendMsgRoutine, mbind at 1, M_bind at 1, getS. rewrite Hs, Hstop. by apply onFst_run.
  - intros Hs Hr sd now o. assert (k_stopRecv c = true) as Hstop.
    { destruct (fl_sendEnd _ Hf Hs) as [?|Hx%(fl_send _ Hf)]; [done|congruence]. }
    destruct (recvStopped_ok c Hf Hg ltac:(congruence) Hstop) as (c' & E & _ & Hw' & Hr' & Hs').
    exists c'. split; [|by rewrite Hw'; unfold running; rewrite Hr', Hs', Hs].
    unfold recvMsgRoutine, mbind at 1, M_bind at 1, getS. rewrite Hr, Hstop. by apply onFst_run.
Qed.

(** ** The streams of the sandboxes *)

Section sandboxes.
Context `{LI : LinkedHashMap string nat} `{LW : LinkedHashMap RequestGroupKey bool}.
Context `{!LinkedHashMapLaws string nat} `{!LinkedHashMapLaws RequestGroupKey bool}.
Context `{ProtocolConsts} `{!ProtocolConstsOk}.















Context (MaxOriginalProcessNum : Z) (releaseRate : Z → Z).

End sandboxes.

(** A message without a context, as a sandbox may send it first, makes the engine dereference nil. *)
Lemma sandbox_without_context_panics `{LinkedHashMap string nat} `{LinkedHashMap RequestGroupKey bool} msg m :
  m_CrossContext msg = None → DockerVMCommunicate None msg m = Panic.
Proof. intros Hcc. unfold DockerVMCommunicate. by rewrite Hcc. Qed.

(** ** Witnesses *)

Fixpoint runChain (l : list chainAct) (w : conn * service) : option (conn * service) :=
  match l with
  | [] => Some w
  | a :: l' => match chainStep a w with Ret (_, w') => runChain l' w' | _ => None end
  end.

Lemma runChain_reachable l w w' : chainReachable w → runChain l w = Some w' → chainReachable w'.
Proof.
  revert w. induction l as [|a l IH]; intros w Hw; cbn; [by intros [= <-]|].
  destruct (chainStep a w) as [[[] w1]| |] eqn:E; [|done..]. apply IH. by eapply chain_step.
Qed.

Definition sampleTx : DockerVMMessage := mkMessage "tx1" TX_REQUEST None None None None "chain1" [].

(** A transaction is received and passed on, an error is sent in vain, and the receiver is told. *)
Definition sampleChain : list chainAct :=
  [CRecv true 1 (inl sampleTx); CRecv true 2 (inl sampleTx); CRecv true 3 (inl sampleTx); CPut (AnyDockerVM (Process.errResp "chain1" "tx0" "no"));
   CSend false None; CSend false (Some OtherError)].

Definition sampleChainState : conn * service :=
  Eval vm_compute in default (newConn, NewChainRPCService RequestScheduler.NewRequestScheduler)
    (runChain sampleChain (newConn, NewChainRPCService RequestScheduler.NewRequestScheduler)).

Lemma chain_stream_sound_witness :
  v_passed sampleChainState.2 = [sampleTx] ∧
  ∃ c', chainStep (CRecv true 4 (inr (Err "closed"))) sampleChainState = Ret (tt, (c', sampleChainState.2)) ∧ k_wg c' = 0.
Proof.
  assert (chainReachable sampleChainState) as Hr.
  { apply (runChain_reachable sampleChain (newConn, NewChainRPCService RequestScheduler.NewRequestScheduler)).
    - apply chain_new; reflexivity.
    - vm_compute. reflexivity. }
  destruct (chain_stream_sound sampleChainState.1 sampleChainState.2 Hr) as (_ & _ & _ & Hend & Ho).
  split; [reflexivity|]. exact (Hend eq_refl eq_refl true 4 (inr (Err "closed"))).
Defined.


End EngineServices.
