(* ===== verification/RuntimeStreams.v ===== *)
(** * rpc/: the goroutines of the streams on the chain's side

    [runtime_service.go] serves the stream of a sandbox with two goroutines and a channel for one
    response; [contract_engine_client.go] drives the connection to the engine with two goroutines that
    share the channels of the client manager, and reports its end to it. The tables that lead a message
    to its invocation are those of Clients.v. *)

From S2P Require Import Prelude Messages TimeStatics Clients Streams.

Module RuntimeStreams.
Export Streams.

(** ** runtime_service.go *)

(** The rest of a [serviceStream]: the channel of responses, with room for one, and what the stream has
    taken. *)
Record serviceStream := mkStream {
  ss_sendResponseCh : list DockerVMMessage;
  ss_sent : list DockerVMMessage;
}.

Definition sendResponseChSize : nat := 1.

Definition newStream : conn * serviceStream := (newConn, mkStream [] []).

Abbreviation MS A := (M (conn * serviceStream) A).

(** [putResp], which the loop of [Invoke] calls with the response to a system call. *)
Definition putResp (msg : DockerVMMessage) : M serviceStream unit :=
  s ← getS;
  if decide (length (ss_sendResponseCh s) < sendResponseChSize)%nat
  then putS (mkStream (ss_sendResponseCh s ++ [msg]) (ss_sent s)) else block.

(** One step of [recvRoutine]; [rs] has the table of notifications when the message is looked up. The
    notification puts the message into a channel of its invocation; this step ends when it is taken. *)
Definition recvRoutine (rs : Clients.RuntimeService) (o : DockerVMMessage + gerr) : MS unit :=
  '(c, s) ← getS;
  match k_recv c with
  | RSelect => if k_stopRecv c then onFst (wgDone;; setRecv REnd) else onFst (setRecv RRecv)
  | RRecv =>
    match o with
    | inr err => onFst (closeSend;; wgDone;; setRecv REnd)
    | inl msg => onFst (setRecv (match Clients.recvMsg rs msg with Some _ => RPass msg | None => RSelect end))
    end
  | RPass msg => onFst (setRecv RSelect)
  | REnd => block
  end.

(** One step of [sendRoutine]. *)
Definition sendRoutine (stop : bool) (o : option sendError) : MS unit :=
  '(c, s) ← getS;
  match k_send c with
  | SSelect =>
    if stop then if k_stopSend c then onFst (wgDone;; setSend SEnd) else block
    else
      match ss_sendResponseCh s with
      | [] => block
      | msg :: l => onSnd (putS (mkStream l (ss_sent s)));; onFst (setSend (SSend msg))
      end
  | SSend msg =>
    match o with
    | None => onSnd (putS (mkStream (ss_sendResponseCh s) (ss_sent s ++ [msg])));; onFst (setSend SSelect)
    | Some ResourceExhausted => onFst (setSend SSelect)
    | Some OtherError => onFst (closeRecv;; wgDone;; setSend SEnd)
    end
  | SEnd => block
  end.

Inductive streamAct :=
| TRecv (rs : Clients.RuntimeService) (o : DockerVMMessage + gerr)
| TSend (stop : bool) (o : option sendError)
| TPut (msg : DockerVMMessage).

Definition streamStep (a : streamAct) : MS unit :=
  match a with
  | TRecv rs o => recvRoutine rs o
  | TSend stop o => sendRoutine stop o
  | TPut msg => onSnd (putResp msg)
  end.

(** What can follow on a state; the stream starts with [newStream]. *)
Inductive streamSteps : conn * serviceStream → conn * serviceStream → Prop :=
| stream_done w : streamSteps w w
| stream_more a w w1 w' : streamSteps w w1 → streamStep a w1 = Ret (tt, w') → streamSteps w w'.

(** ** contract_engine_client.go *)

(** A client and the manager it shares with the others: its id, whether the deferred [PutEvent] of its
    receiving goroutine is still to be done, how often it has reported, what its stream has taken. *)
Record client := mkClient {
  cl_id : Z;
  cl_cm : Clients.ClientManager;
  cl_deferred : bool;
  cl_reports : nat;
  cl_sent : list DockerVMMessage;
}.

Definition set_cm (cm : Clients.ClientManager) (x : client) : client :=
  mkClient (cl_id x) cm (cl_deferred x) (cl_reports x) (cl_sent x).
Definition set_deferred (x : client) : client := mkClient (cl_id x) (cl_cm x) true (cl_reports x) (cl_sent x).
Definition client_sent (m : DockerVMMessage) (x : client) : client :=
  mkClient (cl_id x) (cl_cm x) (cl_deferred x) (cl_reports x) (cl_sent x ++ [m]).

(** [NewContractEngineClient] after a successful [Start]: no wait group. *)
Definition startedClient (id : Z) (cm : Clients.ClientManager) : conn * client :=
  (mkConn false false 0 RSelect SSelect, mkClient id cm false 0 []).

Abbreviation MCl A := (M (conn * client) A).

(** One step of [receiveMsgRoutine]: when it returns, its deferred function is to be run. *)
Definition receiveMsgRoutine (o : DockerVMMessage + gerr) : MCl unit :=
  '(c, x) ← getS;
  match k_recv c with
  | RSelect => if k_stopRecv c then onSnd (modifyS set_deferred);; onFst (setRecv REnd) else onFst (setRecv RRecv)
  | RRecv =>
    match o with
    | inr err => onSnd (modifyS set_deferred);; onFst (closeSend;; setRecv REnd)
    | inl msg => onFst (setRecv (match Clients.receiveMsg (cl_cm x) msg with Some _ => RPass msg | None => RSelect end))
    end
  | RPass msg => onFst (setRecv RSelect)
  | REnd => block
  end.

(** The deferred function: the event of a stopped connection. *)
Definition stoppedEvent : M client unit :=
  x ← getS;
  if cl_deferred x then
    match Clients.PutEvent (cl_id x) (cl_cm x) with
    | Ret (_, cm) => putS (mkClient (cl_id x) cm false (S (cl_reports x)) (cl_sent x))
    | Panic => panic
    | Block => block
    end
  else block.

(** One step of [sendMsgRoutine]: the [select] takes the stop channel, the channel of the transactions
    ([log] is the text of the step it records) or that of the bytecode. *)
Inductive sendChoice := TakeStop | TakeTx | TakeByteCode.

Definition sendMsgRoutine (slowDisable : bool) (now : Z) (log : string) (choice : sendChoice) (o : option sendError) : MCl unit :=
  '(c, x) ← getS;
  match k_send c with
  | SSelect =>
    match choice with
    | TakeStop => if k_stopSend c then onFst (setSend SEnd) else block
    | TakeTx =>
      match Clients.cm_txSendCh (cl_cm x) with
      | [] => block
      | txReq :: l =>
        onSnd (modifyS (set_cm (Clients.set_txSendCh l (cl_cm x))));;
        onFst (setSend (SSend (TimeStatics.EnterNextStep slowDisable now now now txReq RUNTIME_GRPC_SEND_TX_REQUEST log)))
      end
    | TakeByteCode =>
      match Clients.cm_byteCodeRespCh (cl_cm x) with
      | [] => block
      | resp :: l => onSnd (modifyS (set_cm (Clients.set_byteCodeRespCh l (cl_cm x))));; onFst (setSend (SSend resp))
      end
    end
  | SSend msg =>
    match o with
    | None => onSnd (modifyS (client_sent msg));; onFst (setSend SSelect)
    | Some ResourceExhausted => onFst (setSend SSelect)
    | Some OtherError => onFst (closeRecv;; setSend SEnd)
    end
  | SEnd => block
  end.

Inductive clientAct :=
| LRecv (o : DockerVMMessage + gerr)
| LSend (slowDisable : bool) (now : Z) (log : string) (choice : sendChoice) (o : option sendError)
| LDeferred
| LManager (cm : Clients.ClientManager).

(** The goroutines step, and the manager is changed by everything else that uses it. *)
Definition clientStep (a : clientAct) : MCl unit :=
  match a with
  | LRecv o => receiveMsgRoutine o
  | LSend slowDisable now log choice o => sendMsgRoutine slowDisable now log choice o
  | LDeferred => onSnd stoppedEvent
  | LManager cm => onSnd (modifyS (set_cm cm))
  end.

Inductive clientReachable : conn * client → Prop :=
| client_start id cm : clientReachable (startedClient id cm)
| client_step a w w' : clientReachable w → clientStep a w = Ret (tt, w') → clientReachable w'.

(** ** Responses after the end *)

(** The sending goroutine has returned, and the channel is full. *)
Definition stuck (w : conn * serviceStream) : Prop :=
  k_send w.1 = SEnd ∧ (sendResponseChSize ≤ length (ss_sendResponseCh w.2))%nat.

Lemma putResp_full m s : (sendResponseChSize ≤ length (ss_sendResponseCh s))%nat → putResp m s = Block.
Proof. intros Hs. unfold putResp, mbind, M_bind, getS. rewrite decide_False by lia. done. Qed.

(** The receiving goroutine leaves the sending one and the channel alone. *)
Lemma recvRoutine_frame rs o c s c' s' : recvRoutine rs o (c, s) = Ret (tt, (c', s')) → k_send c' = k_send c ∧ s' = s.
Proof.
  unfold recvRoutine, onFst, closeSend, wgDone, setRecv, mbind, M_bind, getS, putS, modifyS, panic, block.
  repeat case_match; intros; simplify_eq; done.
Qed.

Lemma stuck_steps w w' : streamSteps w w' → stuck w → stuck w'.
Proof.
  induction 1 as [w|a w w1 w' _ IH E]; [done|]. intros [Hs Hl]%IH. destruct w1 as [c s], w' as [c' s']. cbn in *.
  destruct a as [rs o|stop o|m]; cbn in E.
  - apply recvRoutine_frame in E as [E ->]. split; cbn; [congruence|done].
  - unfold sendRoutine, mbind, M_bind, getS in E. by rewrite Hs in E.
  - by rewrite (putResp_full m s Hl) in E.
Qed.

(** A transaction can hang for ever in the answer to a system call: once the sending goroutine of the
    sandbox's stream has returned (the stream has been closed, or a send has failed), one more response
    finds room in the channel; after it, whatever the goroutines of the stream do, a second one waits
    for ever. The loop of [Invoke] waits with it, outside of the [select] that watches the timeout. *)
Theorem response_after_end_hangs c s m1 s1 : k_send c = SEnd → putResp m1 s = Ret (tt, s1) →
  ∀ w' m2, streamSteps (c, s1) w' → putResp m2 w'.2 = Block.
Proof.
  intros Hs Hp w' m2 Hw. assert (stuck (c, s1)) as Hst.
  { split; [done|]. revert Hp. unfold putResp, mbind, M_bind, getS, putS, block. case_decide; [|done]. intros [= <-]. cbn.
    rewrite length_app. unfold sendResponseChSize. cbn. lia. }
  apply putResp_full. by apply (stuck_steps _ _ Hw Hst).
Qed.

(** The stream of a sandbox that sends two requests and closes: the receiver gets the end of the stream,
    the sender takes the stop channel. *)
Lemma response_after_end_hangs_witness :
  ∃ c s1, streamSteps newStream (c, mkStream [] []) ∧ putResp emptyMessage (mkStream [] []) = Ret (tt, s1) ∧
    putResp emptyMessage s1 = Block.
Proof.
  exists (mkConn true false 0 REnd SEnd), (mkStream [emptyMessage] []). split; [|split].
  - apply (stream_more (TSend true None) _ (mkConn true false 1 REnd SSelect, mkStream [] [])); [|reflexivity].
    apply (stream_more (TRecv Clients.NewRuntimeService (inr (Err "EOF"))) _ (mkConn false false 2 RRecv SSelect, mkStream [] []));
      [|reflexivity].
    apply (stream_more (TRecv Clients.NewRuntimeService (inr (Err "EOF"))) _ newStream); [|reflexivity]. apply stream_done.
  - reflexivity.
  - exact (response_after_end_hangs (mkConn true false 0 REnd SEnd) (mkStream [] []) emptyMessage _ eq_refl eq_refl
      (mkConn true false 0 REnd SEnd, mkStream [emptyMessage] []) emptyMessage (stream_done _)).
Defined.

(** ** The end of a client *)

Record clientInv (w : conn * client) : Prop := {
  li_flags : flagsOk w.1;
  li_reports : (cl_reports w.2 + (if cl_deferred w.2 then 1 else 0))%nat = if decide (k_recv w.1 = REnd) then 1%nat else 0%nat;
}.

Definition clientSafe (f : MCl unit) (w : conn * client) : Prop := f w = Block ∨ ∃ w', f w = Ret (tt, w') ∧ clientInv w'.

Lemma clientSafe_conn (m : M conn unit) c c' x x' (f : MCl unit) :
  m c = Ret (tt, c') → f (c, x) = onFst m (c, x') → flagsOk c' →
  (cl_reports x' + (if cl_deferred x' then 1 else 0))%nat = (if decide (k_recv c' = REnd) then 1%nat else 0%nat) → clientSafe f (c, x).
Proof.
  intros E Ef Hf Hr. right. exists (c', x'). split; [|by split]. rewrite Ef. unfold onFst. by rewrite E.
Qed.

(** A client whose receiving goroutine runs has not reported. *)
Lemma unreported c x : clientInv (c, x) → k_recv c ≠ REnd → cl_reports x = 0%nat ∧ cl_deferred x = false.
Proof. intros [_ Hr] Hc. cbn in Hr. rewrite decide_False in Hr by done. destruct (cl_deferred x); [lia|]. split; [lia|done]. Qed.

Lemma receive_safe o w : clientInv w → clientSafe (receiveMsgRoutine o) w.
Proof.
  destruct w as [c x]. intros Hw. pose proof Hw as [Hf _]. cbn in Hf.
  assert (k_recv c ≠ REnd → ∀ p, p ≠ REnd → ∀ f, f (c, x) = onFst (setRecv p) (c, x) → clientSafe f (c, x)) as Hstay.
  { intros Hc p Hp f Ef. destruct (unreported c x Hw Hc) as [Hr Hd]. destruct (setRecv_ok c p Hf Hc Hp) as (c' & E & Hf' & _ & Hp' & _).
    eapply (clientSafe_conn _ c c' x x f E Ef Hf'). by rewrite Hr, Hd, decide_False by congruence. }
  assert (∀ m c' f, k_recv c ≠ REnd → m c = Ret (tt, c') → flagsOk c' → k_recv c' = REnd →
    f (c, x) = onFst m (c, set_deferred x) → clientSafe f (c, x)) as Hend.
  { intros m c' f Hc E Hf' Hr' Ef. destruct (unreported c x Hw Hc) as [Hr Hd].
    eapply (clientSafe_conn m c c' x _ f E Ef Hf'). cbn. by rewrite Hr, Hr'. }
  destruct (k_recv c) as [| |msg|] eqn:Er; [..|left; unfold receiveMsgRoutine, mbind at 1, M_bind at 1, getS; by rewrite Er].
  - destruct (k_stopRecv c) eqn:Es.
    + destruct (recvQuit_ok c Hf ltac:(congruence) Es) as (c' & E & Hf' & Hr').
      eapply (Hend _ c' _ ltac:(congruence) E Hf' Hr'). unfold receiveMsgRoutine, mbind at 1, M_bind at 1, getS. by rewrite Er, Es.
    + apply (Hstay ltac:(congruence) RRecv ltac:(done)). unfold receiveMsgRoutine, mbind at 1, M_bind at 1, getS. by rewrite Er, Es.
  - destruct o as [msg|e].
    + apply (Hstay ltac:(congruence) (match Clients.receiveMsg (cl_cm x) msg with Some _ => RPass msg | None => RSelect end)).
      * by case_match.
      * unfold receiveMsgRoutine, mbind at 1, M_bind at 1, getS. by rewrite Er.
    + destruct (recvBroken_ok c Hf ltac:(congruence)) as (c' & E & Hf' & Hr').
      eapply (Hend _ c' _ ltac:(congruence) E Hf' Hr'). unfold receiveMsgRoutine, mbind at 1, M_bind at 1, getS. by rewrite Er.
  - apply (Hstay ltac:(congruence) RSelect ltac:(done)). unfold receiveMsgRoutine, mbind at 1, M_bind at 1, getS. by rewrite Er.
Qed.

Lemma send_safe sd now log ch o w : clientInv w → clientSafe (sendMsgRoutine sd now log ch o) w.
Proof.
  destruct w as [c x]. intros [Hf Hr]. cbn in Hf, Hr.
  assert (∀ m c' x' f, m c = Ret (tt, c') → flagsOk c' → k_recv c' = k_recv c → cl_reports x' = cl_reports x →
    cl_deferred x' = cl_deferred x → f (c, x) = onFst m (c, x') → clientSafe f (c, x)) as Hmove.
  { intros m c' x' f E Hf' Hk E1 E2 Ef. eapply (clientSafe_conn m c c' x x' f E Ef Hf'). by rewrite E1, E2, Hk. }
  assert (k_send c ≠ SEnd → ∀ p x' f, p ≠ SEnd → cl_reports x' = cl_reports x → cl_deferred x' = cl_deferred x →
    f (c, x) = onFst (setSend p) (c, x') → clientSafe f (c, x)) as Hstay.
  { intros Hc p x' f Hp E1 E2 Ef. destruct (setSend_ok c p Hf Hc Hp) as (c' & E & Hf' & _ & _ & Hk). by eapply Hmove. }
  destruct (k_send c) as [|msg|] eqn:Es; [..|left; unfold sendMsgRoutine, mbind at 1, M_bind at 1, getS; by rewrite Es].
  - destruct ch.
    + destruct (k_stopSend c) eqn:Ec; [|left; unfold sendMsgRoutine, mbind at 1, M_bind at 1, getS; by rewrite Es, Ec].
      destruct (sendQuit_ok c Hf ltac:(congruence) Ec) as (c' & E & Hf' & Hk).
      eapply (Hmove _ c' x _ E Hf' Hk); [done..|]. unfold sendMsgRoutine, mbind at 1, M_bind at 1, getS. by rewrite Es, Ec.
    + destruct (Clients.cm_txSendCh (cl_cm x)) as [|m l] eqn:El; [left; unfold sendMsgRoutine, mbind at 1, M_bind at 1, getS; by rewrite Es, El|].
      eapply (Hstay ltac:(congruence) (SSend _) (set_cm (Clients.set_txSendCh l (cl_cm x)) x)); [done..|].
      unfold sendMsgRoutine, mbind at 1, M_bind at 1, getS. by rewrite Es, El.
    + destruct (Clients.cm_byteCodeRespCh (cl_cm x)) as [|m l] eqn:El; [left; unfold sendMsgRoutine, mbind at 1, M_bind at 1, getS; by rewrite Es, El|].
      eapply (Hstay ltac:(congruence) (SSend m) (set_cm (Clients.set_byteCodeRespCh l (cl_cm x)) x)); [done..|].
      unfold sendMsgRoutine, mbind at 1, M_bind at 1, getS. by rewrite Es, El.
  - destruct o as [[]|].
    + eapply (Hstay ltac:(congruence) SSelect x); [done..|]. unfold sendMsgRoutine, mbind at 1, M_bind at 1, getS. by rewrite Es.
    + destruct (sendBroken_ok c Hf ltac:(congruence)) as (c' & E & Hf' & Hk).
      eapply (Hmove _ c' x _ E Hf' Hk); [done..|]. unfold sendMsgRoutine, mbind at 1, M_bind at 1, getS. by rewrite Es.
    + eapply (Hstay ltac:(congruence) SSelect (client_sent msg x)); [done..|].
      unfold sendMsgRoutine, mbind at 1, M_bind at 1, getS. by rewrite Es.
Qed.

Lemma clientStep_safe a w : clientInv w → clientSafe (clientStep a) w.
Proof.
  intros Hw. destruct a as [o|sd now log ch o| |cm]; cbn [clientStep]; [by apply receive_safe|by apply send_safe|..];
    destruct w as [c x]; destruct Hw as [Hf Hr]; cbn in Hf, Hr.
  - unfold clientSafe, onSnd, stoppedEvent, mbind, M_bind, getS, putS. destruct (cl_deferred x); [|by left].
    destruct (Clients.PutEvent (cl_id x) (cl_cm x)) as [[[] cm]| |] eqn:E; [|exfalso|by left].
    + right. eexists. split; [reflexivity|]. split; [done|]. cbn. lia.
    + unfold Clients.PutEvent, mbind, M_bind, getS, putS, block in E. repeat case_match; discriminate.
  - right. eexists. split; [reflexivity|]. by split.
Qed.

Lemma client_reachable_inv w : clientReachable w → clientInv w.
Proof.
  induction 1 as [id cm|a w w' _ IH E]; [by split|].
  destruct (clientStep_safe a w IH) as [E'|(w2 & E' & Hw)]; rewrite E in E'; [done|by injection E' as <-].
Qed.

(** [C34] A client of the engine reports its end exactly once: in every reachable state, whatever the stream and
    the other users of the client manager do, no step panics; the reports made, with the one still
    deferred, are one if the receiving goroutine has returned and none before; and a goroutine that has
    returned leaves the other one returned or with its stop channel closed. *)
Theorem client_stops_once c x : clientReachable (c, x) →
  (∀ a, clientStep a (c, x) ≠ Panic) ∧
  (cl_reports x + (if cl_deferred x then 1 else 0))%nat = (if decide (k_recv c = REnd) then 1%nat else 0%nat) ∧
  (k_recv c = REnd → k_send c = SEnd ∨ k_stopSend c = true) ∧ (k_send c = SEnd → k_recv c = REnd ∨ k_stopRecv c = true).
Proof.
  intros Hw%client_reachable_inv. pose proof Hw as [Hf Hr]. cbn in Hf, Hr. split_and!; [|done|..].
  - intros a. destruct (clientStep_safe a _ Hw) as [->|(w' & -> & _)]; done.
  - intros [?|?%(fl_recv _ Hf)]%(fl_recvEnd _ Hf); auto.
  - intros [?|?%(fl_send _ Hf)]%(fl_sendEnd _ Hf); auto.
Qed.

Lemma client_stops_once_witness :
  let w := (mkConn true false 0 REnd SSelect, mkClient 7 Clients.NewClientManager true 0 []) in
  clientReachable w ∧ clientStep (LSend true 0 "" TakeStop None) w ≠ Panic.
Proof.
  cbv zeta. assert (clientReachable (mkConn true false 0 REnd SSelect, mkClient 7 Clients.NewClientManager true 0 [])) as Hr.
  { apply (client_step (LRecv (inr (Err "EOF"))) (mkConn false false 0 RRecv SSelect, mkClient 7 Clients.NewClientManager false 0 []));
      [|reflexivity].
    apply (client_step (LRecv (inr (Err "EOF"))) (startedClient 7 Clients.NewClientManager)); [|reflexivity]. apply client_start. }
  split; [exact Hr|]. exact (proj1 (client_stops_once _ _ Hr) (LSend true 0 "" TakeStop None)).
Defined.
End RuntimeStreams.
