(* ===== verification/Connections.v ===== *)
(** * rpc/contract_engine_client_manager.go: establishing the connections

    [Start] of the client manager opens its connections with one goroutine each and waits for all of
    them; a goroutine takes an index, tries to connect until it succeeds or the manager is stopped, and
    enters its client into the table. [Stop] ranges over that table without its lock; a goroutine that writes it meanwhile
    lets the runtime abort the program. *)

From S2P Require Import Prelude Messages Clients.

Module Connections.
Import Clients.

(** Where a goroutine of [establishConnections] is: about to take an index, about to test the flag, about
    to connect, about to enter its client, about to call [wg.Done], returned; or returned because the
    manager was stopped. *)
Inductive connector :=
| CIndex | CTry (id : Z) | CStart (id : Z) | CEnter (id : Z) | CDone (id : Z) | CEnd (id : Z) | CStopped.

#[export] Instance connector_eq_dec : EqDecision connector.
Proof. solve_decision. Defined.

Record connecting := mkConnecting {
  o_cm : ClientManager;
  o_wg : Z;
  o_connectors : list connector;
  o_closed : gset Z;   (** the clients whose [Stop] was called *)
  o_range : option (gset Z * gset Z);   (** the loop of [closeAllConnections]: the table at its start, and the clients it has met *)
}.

(** The start of [establishConnections] with a number of connections. *)
Definition establishConnections (totalConnections : nat) (cm : ClientManager) : connecting :=
  mkConnecting cm (Z.of_nat totalConnections) (replicate totalConnections CIndex) ∅ None.

(** [cm.stop = true]. *)
Definition setStop (cm : ClientManager) : ClientManager :=
  mkCM (cm_count cm) (cm_index cm) (cm_aliveClientMap cm) (cm_txSendCh cm) (cm_byteCodeRespCh cm) (cm_notify cm) (cm_eventCh cm) true.

(** The steps of [closeAllConnections], which takes no lock: the flag and the begin of the loop over the table; one round, with a client
    of the table that the loop has not met; its end, when it has met all that were in the table from its start on. A client
    that is entered meanwhile may be met or not. *)
Inductive closeAct := CloseBegin | CloseClient (id : Z) | CloseEnd.

Definition closeAllConnections (a : closeAct) (w : connecting) : outcome connecting :=
  let cm := o_cm w in
  match a, o_range w with
  | CloseBegin, None =>
    Ret (mkConnecting (setStop cm) (o_wg w) (o_connectors w) (o_closed w) (Some (cm_aliveClientMap cm, ∅)))
  | CloseClient id, Some (first, met) =>
    if decide (id ∈ cm_aliveClientMap cm ∧ id ∉ met)
    then Ret (mkConnecting cm (o_wg w) (o_connectors w) ({[ id ]} ∪ o_closed w) (Some (first, {[ id ]} ∪ met))) else Block
  | CloseEnd, Some (first, met) =>
    if decide (first ∩ cm_aliveClientMap cm ⊆ met) then Ret (mkConnecting cm (o_wg w) (o_connectors w) (o_closed w) None) else Block
  | _, _ => Block
  end.

(** One step of a goroutine; [started] is the outcome of [newClient.Start()]. *)
Definition connectorStep (started : bool) (g : connector) (cm : ClientManager) (wg : Z) : outcome (connector * ClientManager * Z) :=
  match g with
  | CIndex => match getNextIndex cm with Ret (id, cm) => Ret (CTry id, cm, wg) | Panic => Panic | Block => Block end
  | CTry id => if cm_stop cm then Ret (CStopped, cm, wg) else Ret (CStart id, cm, wg)
  | CStart id => if started then Ret (CEnter id, cm, wg) else Ret (CTry id, cm, wg)
  | CEnter id => match connected id cm with Ret (_, cm) => Ret (CDone id, cm, wg) | Panic => Panic | Block => Block end
  | CDone id => if wg <=? 0 then Panic else Ret (CEnd id, cm, wg - 1)
  | CEnd _ | CStopped => Block
  end.

(** The goroutines; the one that stops the manager; and the runtime, which aborts the program when it finds that a goroutine is
    writing the table while the loop is under way (fatal error: concurrent map iteration and map write). *)
Inductive connectAct := Connector (i : nat) (started : bool) | Close (a : closeAct) | Collide (i : nat).

Definition connectStep (a : connectAct) (w : connecting) : outcome connecting :=
  match a with
  | Connector i started =>
    match o_connectors w !! i with
    | None => Block
    | Some g =>
      match connectorStep started g (o_cm w) (o_wg w) with
      | Ret (g', cm, wg) => Ret (mkConnecting cm wg (<[i := g']> (o_connectors w)) (o_closed w) (o_range w))
      | Panic => Panic
      | Block => Block
      end
    end
  | Close a => closeAllConnections a w
  | Collide i => match o_connectors w !! i, o_range w with Some (CEnter id), Some _ => Panic | _, _ => Block end
  end.

Inductive connectSteps (w : connecting) : connecting → Prop :=
| connect_none : connectSteps w w
| connect_more a w1 w2 : connectSteps w w1 → connectStep a w1 = Ret w2 → connectSteps w w2.

(** ** What holds *)

Definition waiting (g : connector) : Z := match g with CEnd _ => 0 | _ => 1 end.
Definition waitingOf (l : list connector) : Z := foldr (λ g n, waiting g + n) 0 l.
Definition idOf (g : connector) : option Z := match g with CTry id | CStart id | CEnter id | CDone id | CEnd id => Some id | _ => None end.
Definition enteredId (g : connector) : option Z := match g with CDone id | CEnd id => Some id | _ => None end.
Definition pending (g : connector) : Z := match g with CIndex => 1 | _ => 0 end.
Definition pendingOf (l : list connector) : Z := foldr (λ g n, pending g + n) 0 l.

Lemma waitingOf_app l1 l2 : waitingOf (l1 ++ l2) = waitingOf l1 + waitingOf l2.
Proof. unfold waitingOf. induction l1 as [|g l1 IH]; cbn; [done|]. rewrite IH. lia. Qed.
Lemma pendingOf_app l1 l2 : pendingOf (l1 ++ l2) = pendingOf l1 + pendingOf l2.
Proof. unfold pendingOf. induction l1 as [|g l1 IH]; cbn; [done|]. rewrite IH. lia. Qed.
Lemma waitingOf_nonneg l : 0 ≤ waitingOf l.
Proof. induction l as [|g l IH]; [done|]. cbn [waitingOf pendingOf foldr]. destruct g; cbn [waiting pending]; unfold waitingOf, pendingOf in IH; lia. Qed.
Lemma pendingOf_nonneg l : 0 ≤ pendingOf l.
Proof. induction l as [|g l IH]; [done|]. cbn [waitingOf pendingOf foldr]. destruct g; cbn [waiting pending]; unfold waitingOf, pendingOf in IH; lia. Qed.

Record connectInv (n : nat) (w : connecting) : Prop := {
  co_length : length (o_connectors w) = n;
  co_wg : o_wg w = waitingOf (o_connectors w);
  co_index : 0 ≤ cm_index (o_cm w) ∧ cm_index (o_cm w) + pendingOf (o_connectors w) < u64_max;
  co_ids : NoDup (omap idOf (o_connectors w));
  co_below : Forall (λ id, id < cm_index (o_cm w)) (omap idOf (o_connectors w));
  co_alive : cm_aliveClientMap (o_cm w) = list_to_set (omap enteredId (o_connectors w));
}.

Lemma connectInv_init n cm : cm_aliveClientMap cm = ∅ → 0 ≤ cm_index cm → cm_index cm + Z.of_nat n < u64_max →
  connectInv n (establishConnections n cm).
Proof.
  intros Ha Hi Hn. unfold establishConnections.
  assert (waitingOf (replicate n CIndex) = Z.of_nat n ∧ pendingOf (replicate n CIndex) = Z.of_nat n ∧
    omap idOf (replicate n CIndex) = [] ∧ omap enteredId (replicate n CIndex) = []) as (E1 & E2 & E3 & E4).
  { clear. induction n as [|n (IH1 & IH2 & IH3 & IH4)]; [done|]. cbn [replicate waitingOf pendingOf foldr waiting pending].
    unfold waitingOf, pendingOf in *. rewrite IH1, IH2. split_and!; [lia|lia|exact IH3|exact IH4]. }
  split; cbn [o_connectors o_cm o_wg].
  - apply length_replicate.
  - done.
  - rewrite E2. done.
  - rewrite E3. constructor.
  - rewrite E3. constructor.
  - by rewrite E4, Ha.
Qed.

(** One goroutine changes from [g] to [g']. *)
Lemma connectInv_move n cm wg l1 g l2 g' cm' wg' cl rg :
  connectInv n (mkConnecting cm wg (l1 ++ g :: l2) cl rg) →
  wg' = wg + (waiting g' - waiting g) → cm_index cm ≤ cm_index cm' → cm_index cm' + pending g' ≤ cm_index cm + pending g →
  (idOf g' = idOf g ∨ idOf g' = None ∨ (idOf g = None ∧ idOf g' = Some (cm_index cm) ∧ cm_index cm < cm_index cm')) →
  (enteredId g' = enteredId g ∧ cm_aliveClientMap cm' = cm_aliveClientMap cm ∨
   ∃ id, enteredId g = None ∧ enteredId g' = Some id ∧ cm_aliveClientMap cm' = {[ id ]} ∪ cm_aliveClientMap cm) →
  connectInv n (mkConnecting cm' wg' (l1 ++ g' :: l2) cl rg).
Proof.
  intros [H1 H2 H3 H4 H5 H6] Hwg Hi1 Hi2 Hid Hen. cbn [o_connectors o_cm o_wg] in *.
  rewrite waitingOf_app in H2. rewrite pendingOf_app in H3. rewrite !omap_app in *. cbn [waitingOf pendingOf foldr omap list_omap] in *.
  change (foldr (λ g n, waiting g + n)%Z 0%Z l2) with (waitingOf l2) in *. change (foldr (λ g n, pending g + n) 0 l2) with (pendingOf l2) in *.
  pose proof (pendingOf_nonneg l1). pose proof (pendingOf_nonneg l2).
  split; cbn [o_connectors o_cm o_wg]; rewrite ?waitingOf_app, ?pendingOf_app, ?omap_app;
    cbn [waitingOf pendingOf foldr omap list_omap].
  - rewrite length_app in *. done.
  - change (foldr (λ g n, waiting g + n)%Z 0%Z l2) with (waitingOf l2). lia.
  - change (foldr (λ g n, pending g + n) 0 l2) with (pendingOf l2). lia.
  - destruct Hid as [->|[E|(E & E' & _)]]; [done| |].
    + rewrite E. destruct (idOf g); [|done]. by rewrite <-Permutation_middle in H4; apply NoDup_cons in H4 as [_ ?].
    + rewrite E in H4, H5. rewrite E'. rewrite <-Permutation_middle. constructor; [|done].
      intros Hin. rewrite Forall_forall in H5. specialize (H5 _ Hin). lia.
  - assert (Forall (λ id, id < cm_index cm') (omap idOf l1 ++ match idOf g with Some y => y :: omap idOf l2 | None => omap idOf l2 end)) as H5'.
    { eapply Forall_impl; [exact H5|]. cbn. lia. }
    destruct Hid as [->|[E|(E & E' & Hlt)]]; [exact H5'| |].
    + rewrite E. apply Forall_app in H5' as [F1 F2]. apply Forall_app. split; [done|]. destruct (idOf g); [by apply Forall_cons in F2 as [_ ?]|done].
    + rewrite E in H5'. rewrite E'. apply Forall_app in H5' as [F1 F2]. apply Forall_app. split; [done|]. by constructor.
  - destruct Hen as [[-> ->]|(id & E & E' & ->)]; [done|]. rewrite E in H6. rewrite E'. rewrite H6. rewrite !list_to_set_app_L. cbn. set_solver.
Qed.

Lemma connectorStep_inv n i started cm wg l g cl rg : connectInv n (mkConnecting cm wg l cl rg) → l !! i = Some g →
  match connectorStep started g cm wg with
  | Ret (g', cm', wg') => connectInv n (mkConnecting cm' wg' (<[i := g']> l) cl rg)
  | Panic => False
  | Block => True
  end.
Proof.
  intros HI Hg. destruct (list_elem_of_split_length l i g Hg) as (l1 & l2 & -> & ->).
  assert (∀ g', <[length l1 := g']> (l1 ++ g :: l2) = l1 ++ g' :: l2) as Hins.
  { intros g'. rewrite insert_app_r_alt by lia. by rewrite Nat.sub_diag. }
  pose proof HI as [_ Hwg [Hi0 Hi1] _ _ _]. cbn [o_connectors o_cm o_wg] in *.
  rewrite pendingOf_app in Hi1. rewrite waitingOf_app in Hwg. cbn [pendingOf waitingOf foldr] in Hi1, Hwg.
  change (foldr (λ g n, pending g + n) 0 l2) with (pendingOf l2) in Hi1.
  change (foldr (λ g n, waiting g + n)%Z 0%Z l2) with (waitingOf l2) in Hwg.
  pose proof (pendingOf_nonneg l1). pose proof (pendingOf_nonneg l2). pose proof (waitingOf_nonneg l1). pose proof (waitingOf_nonneg l2).
  destruct g as [|id|id|id|id|id|]; cbn [connectorStep]; try done.
  - unfold getNextIndex, mbind, M_bind, getS, putS, mret, M_ret. rewrite Hins.
    assert (u64_add (cm_index cm) 1 = cm_index cm + 1) as E.
    { unfold u64_add. apply u64_small. cbn [pending] in Hi1. lia. }
    eapply connectInv_move; [exact HI|cbn; lia|cbn; lia|cbn; lia| |].
    + right; right. cbn. split_and!; [done|done|lia].
    + by left.
  - destruct (cm_stop cm); rewrite Hins; (eapply connectInv_move; [exact HI|cbn; lia|lia|cbn; lia| |by left]); [right|]; by left.
  - destruct started; rewrite Hins; (eapply connectInv_move; [exact HI|cbn; lia|lia|cbn; lia|by left|by left]).
  - unfold connected, modifyS. rewrite Hins. eapply connectInv_move; [exact HI|cbn; lia|cbn; lia|cbn; lia|by left|].
    right. exists id. by cbn.
  - cbn [waiting] in Hwg. destruct (Z.leb_spec wg 0); [lia|]. rewrite Hins.
    eapply connectInv_move; [exact HI|cbn; lia|lia|cbn; lia|by left|by left].
Qed.

(** The only way to abort. *)
Definition collision (a : connectAct) (w : connecting) : Prop :=
  ∃ i id, a = Collide i ∧ o_connectors w !! i = Some (CEnter id) ∧ is_Some (o_range w).

Lemma closeAll_same a w w' : closeAllConnections a w = Ret w' →
  o_connectors w' = o_connectors w ∧ o_wg w' = o_wg w ∧ cm_index (o_cm w') = cm_index (o_cm w) ∧
  cm_aliveClientMap (o_cm w') = cm_aliveClientMap (o_cm w).
Proof. unfold closeAllConnections. intros H. repeat case_match; try done; by injection H as <-. Qed.

Lemma closeAll_calm a w : closeAllConnections a w ≠ Panic.
Proof. unfold closeAllConnections. repeat case_match; done. Qed.

Lemma connectStep_inv n a w : connectInv n w →
  match connectStep a w with Ret w' => connectInv n w' | Panic => collision a w | Block => True end.
Proof.
  intros HI. destruct a as [i started|a|i]; cbn [connectStep].
  - destruct w as [cm wg l cl rg]. cbn [o_connectors o_cm o_wg o_range]. destruct (l !! i) as [g|] eqn:Hg; [|done].
    pose proof (connectorStep_inv n i started cm wg l g cl rg HI Hg) as Hs.
    destruct (connectorStep started g cm wg) as [[[g' cm'] wg']| |]; done.
  - destruct (closeAllConnections a w) as [w'| |] eqn:E; [|by apply closeAll_calm in E|done].
    apply closeAll_same in E as (E1 & E2 & E3 & E4). destruct HI. split; by rewrite ?E1, ?E2, ?E3, ?E4.
  - destruct (o_connectors w !! i) as [[]|] eqn:Hg, (o_range w) eqn:Hr; try done. do 2 eexists. split_and!; [done..|by rewrite Hr].
Qed.

Lemma connectSteps_inv n w w' : connectInv n w → connectSteps w w' → connectInv n w'.
Proof.
  intros HI. induction 1 as [|a w1 w2 _ IH E]; [done|]. pose proof (connectStep_inv n a w1 IH) as Hs. by rewrite E in Hs.
Qed.

Lemma waitingOf_zero l : waitingOf l = 0 → ∃ ids, l = CEnd <$> ids.
Proof.
  induction l as [|g l IH]; [by exists []|]. cbn. change (foldr (λ g n, waiting g + n) 0 l) with (waitingOf l).
  pose proof (waitingOf_nonneg l). destruct g as [|id|id|id|id|id|]; cbn [waiting]; intros E; try lia.
  destruct (IH ltac:(lia)) as [ids ->]. by exists (id :: ids).
Qed.

(** A goroutine that gave up stays. *)
Lemma stopped_stays w w' : connectSteps w w' → CStopped ∈ o_connectors w → CStopped ∈ o_connectors w'.
Proof.
  induction 1 as [|a w1 w2 _ IH E]; [done|]. intros [j Hj]%IH%list_elem_of_lookup. apply list_elem_of_lookup. exists j.
  destruct a as [i started|a|i]; cbn [connectStep] in E; [|by apply closeAll_same in E as [-> _]|by repeat case_match].
  destruct (o_connectors w1 !! i) as [g|] eqn:Hg; [|done].
  destruct (connectorStep started g (o_cm w1) (o_wg w1)) as [[[g' cm] wg]| |] eqn:Es; [|done..]. injection E as <-. cbn.
  destruct (decide (i = j)) as [->|Hne]; [|by rewrite list_lookup_insert_ne].
  rewrite Hj in Hg. injection Hg as <-. done.
Qed.

(** [C39] The connections are established: under every interleaving of the goroutines, with any number of
    failed attempts and with the manager stopped at any time, no step panics, and the program is aborted only when a goroutine enters its client
    while [Stop] ranges over the table, so never as long as the manager is not stopped; and when the wait group is
    zero, so that [establishConnections] returns, every goroutine has entered its client and the table
    has exactly the number of connections asked for, under different indices. But once a goroutine has
    given up because the manager was stopped, the wait group never becomes zero again, and [Start] waits
    for ever. *)
Theorem connections_established n cm w : cm_aliveClientMap cm = ∅ → 0 ≤ cm_index cm → cm_index cm + Z.of_nat n < u64_max →
  connectSteps (establishConnections n cm) w →
  (∀ a, connectStep a w = Panic → ∃ i id, a = Collide i ∧ o_connectors w !! i = Some (CEnter id) ∧ is_Some (o_range w)) ∧
  (o_wg w = 0 → size (cm_aliveClientMap (o_cm w)) = n) ∧
  (CStopped ∈ o_connectors w → ∀ w', connectSteps w w' → o_wg w' ≠ 0).
Proof.
  intros Ha Hi Hn Hw. pose proof (connectSteps_inv n _ _ (connectInv_init n cm Ha Hi Hn) Hw) as HI. split_and!.
  - intros a E. pose proof (connectStep_inv n a w HI) as Hs. by rewrite E in Hs.
  - intros H0. destruct HI as [Hlen Hwg _ Hids _ Hal]. rewrite Hwg in H0. apply waitingOf_zero in H0 as [ids E].
    rewrite Hal, E. rewrite E in Hids, Hlen.
    assert (omap enteredId (CEnd <$> ids) = ids ∧ omap idOf (CEnd <$> ids) = ids) as [E1 E2].
    { clear. induction ids as [|x ids [IH1 IH2]]; cbn; [done|]. by rewrite IH1, IH2. }
    rewrite E1. rewrite E2 in Hids. rewrite size_list_to_set by done. by rewrite <-Hlen, length_fmap.
  - intros Hst w' Hw' H0. pose proof (stopped_stays _ _ Hw' Hst) as Hst'. destruct (connectSteps_inv n _ _ HI Hw') as [_ Hwg _ _ _ _].
    rewrite Hwg in H0. apply waitingOf_zero in H0 as [ids E]. rewrite E in Hst'. by apply list_elem_of_fmap in Hst' as (? & ? & _).
Qed.

(** A run of the actions in order. *)
Fixpoint connectRun (acts : list connectAct) (w : connecting) : outcome connecting :=
  match acts with
  | [] => Ret w
  | a :: acts => match connectStep a w with Ret w => connectRun acts w | Panic => Panic | Block => Block end
  end.

Lemma connectRun_steps acts w0 w w' : connectSteps w0 w → connectRun acts w = Ret w' → connectSteps w0 w'.
Proof.
  revert w. induction acts as [|a acts IH]; intros w Hw; cbn; [by intros [= <-]|].
  destruct (connectStep a w) as [w1| |] eqn:E; [|done..]. apply IH. by eapply connect_more.
Qed.

(** Two connections, the first after a failed attempt. *)
Definition twoConnections : list connectAct :=
  [Connector 0 false; Connector 1 false; Connector 0 false; Connector 0 false; Connector 1 false;
   Connector 1 true; Connector 1 false; Connector 0 false; Connector 0 true; Connector 0 false;
   Connector 1 false; Connector 0 false].

(** The manager is stopped while the second connection is about to be entered: the runtime may abort the program. *)
Definition stoppedMeanwhile : list connectAct :=
  [Connector 0 false; Connector 0 false; Connector 0 true; Connector 0 false;
   Connector 1 false; Connector 1 false; Connector 1 true; Close CloseBegin; Collide 1].

Theorem stop_aborts_start : connectRun stoppedMeanwhile (establishConnections 2 NewClientManager) = Panic.
Proof. vm_compute. reflexivity. Qed.

Lemma connections_established_witness :
  match connectRun twoConnections (establishConnections 2 NewClientManager) with
  | Ret w => o_wg w = 0 ∧ size (cm_aliveClientMap (o_cm w)) = 2%nat
  | _ => False
  end ∧
  match connectRun [Connector 0 false; Close CloseBegin; Connector 0 false] (establishConnections 1 NewClientManager) with
  | Ret w => ∀ w', connectSteps w w' → o_wg w' ≠ 0
  | _ => False
  end.
Proof.
  split.
  - assert (match connectRun twoConnections (establishConnections 2 NewClientManager) with Ret w => o_wg w = 0 | _ => False end) as H0
      by (vm_compute; reflexivity).
    destruct (connectRun twoConnections (establishConnections 2 NewClientManager)) as [w| |] eqn:E; [|done..]. split; [exact H0|].
    refine (proj1 (proj2 (connections_established 2 NewClientManager w eq_refl _ _ _)) H0);
      [by vm_compute|by vm_compute|]. eapply connectRun_steps; [constructor|exact E].
  - assert (match connectRun [Connector 0 false; Close CloseBegin; Connector 0 false] (establishConnections 1 NewClientManager) with
      Ret w => bool_decide (CStopped ∈ o_connectors w) = true | _ => False end) as H0 by (vm_compute; reflexivity).
    destruct (connectRun [Connector 0 false; Close CloseBegin; Connector 0 false] (establishConnections 1 NewClientManager)) as [w| |] eqn:E; [|done..].
    refine (proj2 (proj2 (connections_established 1 NewClientManager w eq_refl _ _ _)) (proj1 (bool_decide_eq_true _) H0));
      [by vm_compute|by vm_compute|]. eapply connectRun_steps; [constructor|exact E].
Defined.
End Connections.
