(* ===== verification/Reconnect.v ===== *)
(** * rpc/contract_engine_client_manager.go: keeping the connections

    After [Start] has opened the connections, the goroutine [listen] takes the events of clients that have
    stopped and starts a [reconnect] for each. Here the goroutines of the start, the listener, the reconnecting
    goroutines and the clients, each of which reports its end once (RuntimeStreams), run together. *)

From S2P Require Import Prelude Messages Clients Connections.

Module Reconnect.
Import Clients Connections.

(** ** contract_engine_client.go: Start *)

(** The connections that a client has opened and not closed, and whether it has a stream, with which its goroutines run. *)
Record link := mkLink { ln_open : nat; ln_stream : bool }.

(** [Start()] with the outcomes of [NewClientConn] and [GetClientStream]. *)
Definition ClientStart (dial stream : option gerr) : M link (option gerr) :=
  match dial with
  | Some e => mret (Some e)
  | None =>
    modifyS (λ k, mkLink (S (ln_open k)) (ln_stream k));;
    match stream with
    | Some e => mret (Some e)
    | None => modifyS (λ k, mkLink (ln_open k) true);; mret None
    end
  end.

(** The goroutine that [Start] leaves behind: when one of the stop channels is closed the connection is. *)
Definition closeConn (stopReceive stopSend : bool) : M link unit :=
  if stopReceive || stopSend then modifyS (λ k, mkLink (pred (ln_open k)) (ln_stream k)) else block.

(** The attempts of the loop of [reconnect]: each client is started again until it succeeds. *)
Fixpoint attempts (l : list (option gerr * option gerr)) : M link bool :=
  match l with
  | [] => mret false
  | (dial, stream) :: l' => err ← ClientStart dial stream; match err with None => mret true | Some _ => attempts l' end
  end.

(** [grpc.Dial] does not wait for the engine, so that it is the stream that fails while the engine is away: every attempt
    leaves a connection open. *)
Theorem failed_attempts_leak (errs : list gerr) k :
  attempts ((λ e, (None, Some e)) <$> errs) k = Ret (false, mkLink (length errs + ln_open k) (ln_stream k)).
Proof.
  revert k. induction errs as [|e errs IH]; intros k; [by destruct k|].
  change (attempts ((λ e, (None, Some e)) <$> e :: errs) k)
    with (attempts ((λ e, (None, Some e)) <$> errs) (mkLink (S (ln_open k)) (ln_stream k))).
  rewrite IH. cbn. by rewrite Nat.add_succ_r.
Qed.

(** One step of [reconnect]; [started] is the outcome of [newClient.Start()]. *)
Definition reconnectStep (started : bool) (g : connector) (cm : ClientManager) : outcome (connector * ClientManager) :=
  match g with
  | CIndex => match getNextIndex cm with Ret (id, cm) => Ret (CTry id, cm) | Panic => Panic | Block => Block end
  | CTry id => if cm_stop cm then Ret (CStopped, cm) else Ret (CStart id, cm)
  | CStart id => if started then Ret (CEnter id, cm) else Ret (CTry id, cm)
  | CEnter id => match connected id cm with Ret (_, cm) => Ret (CEnd id, cm) | Panic => Panic | Block => Block end
  | CDone _ | CEnd _ | CStopped => Block
  end.

(** The clients that a step has started. *)
Definition startedBy (started : bool) (g : connector) : list Z :=
  match g with CStart id => if started then [id] else [] | _ => [] end.

(** The goroutines of [establishConnections], whether [listen] runs, the goroutines of [reconnect], and the
    clients whose own goroutines run. *)
Record pool := mkPool {
  po_opening : connecting;
  po_listening : bool;
  po_reconnect : list connector;
  po_running : list Z;
}.

(** [Start()] with its [startOnce]: only the first call does anything, and its error is always nil. *)
Definition Start (once : bool) (totalConnections : nat) (cm : ClientManager) : option pool :=
  if once then None else Some (mkPool (establishConnections totalConnections cm) false [] []).

Definition set_cm (cm : ClientManager) (w : pool) : pool :=
  mkPool (mkConnecting cm (o_wg (po_opening w)) (o_connectors (po_opening w)) (o_closed (po_opening w)) (o_range (po_opening w)))
    (po_listening w) (po_reconnect w) (po_running w).

Definition po_cm (w : pool) : ClientManager := o_cm (po_opening w).

(** The steps of the goroutines; a run that the runtime aborts ([Connections.Collide]) has no further state. *)
Inductive poolStep : pool → pool → Prop :=
| pool_open w i started g o : o_connectors (po_opening w) !! i = Some g →
    connectStep (Connector i started) (po_opening w) = Ret o →
    poolStep w (mkPool o (po_listening w) (po_reconnect w) (startedBy started g ++ po_running w))
| pool_listening w : o_wg (po_opening w) = 0 →   (** [wg.Wait()] returns, and [listen] is started *)
    poolStep w (mkPool (po_opening w) true (po_reconnect w) (po_running w))
| pool_listen w cm : po_listening w = true → listen (po_cm w) = Ret (tt, cm) →
    poolStep w (let w' := set_cm cm w in mkPool (po_opening w') true (po_reconnect w ++ [CIndex]) (po_running w))
| pool_reconnect w i started g g' cm : po_reconnect w !! i = Some g → reconnectStep started g (po_cm w) = Ret (g', cm) →
    poolStep w (let w' := set_cm cm w in
      mkPool (po_opening w') (po_listening w) (<[ i := g' ]> (po_reconnect w)) (startedBy started g ++ po_running w))
| pool_end w l1 id l2 cm : po_running w = l1 ++ id :: l2 → PutEvent id (po_cm w) = Ret (tt, cm) →   (** a client reports its end *)
    poolStep w (let w' := set_cm cm w in mkPool (po_opening w') (po_listening w) (po_reconnect w) (l1 ++ l2))
| pool_stop w a o : closeAllConnections a (po_opening w) = Ret o →
    poolStep w (mkPool o (po_listening w) (po_reconnect w) (po_running w)).

(** ** What holds *)

Definition openId (g : connector) : option Z := match g with CTry id | CStart id => Some id | _ => None end.
Definition enterId (g : connector) : option Z := match g with CEnter id => Some id | _ => None end.
Definition blank (g : connector) : bool := match g with CIndex | CStopped => true | _ => false end.
Definition blanks (l : list connector) : nat := length (filter (λ g, blank g = true) l).

(** The indices in use: of the clients that run, of those whose end waits to be handled, of those being opened. *)
Definition used (running : list Z) (cm : ClientManager) (gs : list connector) : list Z :=
  running ++ cm_eventCh cm ++ omap openId gs.

Record poolOk (n k : nat) (running : list Z) (cm : ClientManager) (gs : list connector) : Prop := {
  pk_nodup : NoDup (used running cm gs);
  pk_below : Forall (λ id, id < cm_index cm) (used running cm gs);
  pk_count : (length (used running cm gs) + blanks gs)%nat = n;
  pk_entered : ∀ id, id ∈ running → id ∈ cm_aliveClientMap cm ∨ id ∈ omap enterId gs;
  pk_stop : cm_stop cm = false → CStopped ∉ gs;
  pk_index : 0 ≤ cm_index cm ≤ Z.of_nat k;
  pk_enter : ∀ id, id ∈ omap enterId gs → id < cm_index cm;
}.

Definition goroutines (w : pool) : list connector := o_connectors (po_opening w) ++ po_reconnect w.

Definition poolInv (n k : nat) (w : pool) : Prop := poolOk n k (po_running w) (po_cm w) (goroutines w).

#[local] Instance blanks_perm : Proper ((≡ₚ) ==> (=)) blanks.
Proof. intros l1 l2 Hp. unfold blanks. by rewrite Hp. Qed.

Lemma poolOk_perm n k running cm gs gs' : gs ≡ₚ gs' → poolOk n k running cm gs → poolOk n k running cm gs'.
Proof.
  intros Hp [H1 H2 H3 H4 H5 H6 H7]. assert (used running cm gs ≡ₚ used running cm gs') as Hu by (unfold used; by rewrite Hp).
  split.
  - by rewrite <-Hu.
  - by rewrite <-Hu.
  - by rewrite <-Hu, <-Hp.
  - intros id Hid. rewrite <-Hp. by apply H4.
  - intros Hs. rewrite <-Hp. by apply H5.
  - done.
  - intros id. rewrite <-Hp. apply H7.
Qed.

(** Two goroutines that count the same. *)
Definition alike (g g' : connector) : Prop :=
  openId g = openId g' ∧ enterId g = enterId g' ∧ blank g = blank g' ∧ (g' = CStopped → g = CStopped).

Lemma poolOk_alike n k running cm g g' gs : alike g g' → poolOk n k running cm (g :: gs) → poolOk n k running cm (g' :: gs).
Proof.
  intros (E1 & E2 & E3 & E4) [H1 H2 H3 H4 H5 H6 H7].
  assert (used running cm (g' :: gs) = used running cm (g :: gs)) as Hu by (unfold used; cbn; by rewrite E1).
  assert (omap enterId (g' :: gs) = omap enterId (g :: gs)) as He by (cbn; by rewrite E2).
  assert (blanks (g' :: gs) = blanks (g :: gs)) as Hb by (unfold blanks; rewrite !filter_cons, E3; by repeat case_decide).
  split; rewrite ?Hu, ?He, ?Hb; try done. intros Hs [Hg|Hg]%elem_of_cons; apply (H5 Hs); [rewrite E4 by done|]; set_solver.
Qed.

Lemma poolOk_later n k running cm gs : poolOk n k running cm gs → poolOk n (S k) running cm gs.
Proof. intros []. split; try done. lia. Qed.

Lemma blanks_cons g gs : blanks (g :: gs) = ((if blank g then 1 else 0) + blanks gs)%nat.
Proof. unfold blanks. rewrite filter_cons. by destruct (blank g). Qed.

(** A goroutine takes the next index. *)
Lemma poolOk_index n k running cm gs : Z.of_nat k + 1 < u64_max → poolOk n k running cm (CIndex :: gs) →
  poolOk n (S k) running (set_alive (u64_add (cm_index cm) 1) (cm_aliveClientMap cm) cm) (CTry (cm_index cm) :: gs).
Proof.
  intros Hk [H1 H2 H3 H4 H5 H6 H7]. unfold used in *. cbn [omap list_omap openId enterId] in *. rewrite blanks_cons in *.
  assert (u64_add (cm_index cm) 1 = cm_index cm + 1) as Ei by (apply u64_small; lia).
  assert (running ++ cm_eventCh cm ++ cm_index cm :: omap openId gs ≡ₚ cm_index cm :: running ++ cm_eventCh cm ++ omap openId gs) as Hp
    by (by rewrite !Permutation_middle).
  split; unfold used; cbn [omap list_omap openId enterId cm_eventCh set_alive cm_index cm_aliveClientMap cm_stop]; rewrite ?Ei.
  - rewrite Hp. constructor; [|done]. intros Hin. rewrite Forall_forall in H2. specialize (H2 _ Hin). lia.
  - rewrite Hp. constructor; [lia|]. eapply Forall_impl; [exact H2|]. cbn. lia.
  - rewrite Hp. rewrite blanks_cons. cbn in *. lia.
  - done.
  - intros Hs. specialize (H5 Hs). set_solver.
  - lia.
  - intros id Hid. apply H7 in Hid. lia.
Qed.

(** A client is started: its index moves to those that run. *)
Lemma poolOk_started n k running cm id gs : poolOk n k running cm (CStart id :: gs) → poolOk n k (id :: running) cm (CEnter id :: gs).
Proof.
  intros [H1 H2 H3 H4 H5 H6 H7]. unfold used in *. cbn [omap list_omap openId enterId] in *. rewrite blanks_cons in *.
  assert (running ++ cm_eventCh cm ++ id :: omap openId gs ≡ₚ (id :: running) ++ cm_eventCh cm ++ omap openId gs) as Hp
    by (cbn; by rewrite !Permutation_middle).
  split; unfold used; cbn [omap list_omap openId enterId].
  - by rewrite <-Hp.
  - by rewrite <-Hp.
  - by rewrite <-Hp, blanks_cons.
  - intros x [->|Hx]%elem_of_cons; [right; set_solver|]. destruct (H4 x Hx); [by left|right; set_solver].
  - intros Hs. specialize (H5 Hs). set_solver.
  - done.
  - intros x [->|Hx]%elem_of_cons; [|by apply H7]. rewrite Forall_forall in H2. apply H2. set_solver.
Qed.

(** A client is entered into the table. *)
Lemma poolOk_entered n k running cm id gs : poolOk n k running cm (CEnter id :: gs) →
  poolOk n k running (set_alive (cm_index cm) ({[ id ]} ∪ cm_aliveClientMap cm) cm) (CEnd id :: gs).
Proof.
  intros [H1 H2 H3 H4 H5 H6 H7]. unfold used in *. cbn [omap list_omap openId enterId] in *. rewrite blanks_cons in *.
  split; unfold used; cbn [omap list_omap openId enterId cm_eventCh set_alive cm_index cm_aliveClientMap cm_stop]; try done.
  - intros x Hx. destruct (H4 x Hx) as [?|[->|?]%elem_of_cons]; [left; set_solver|left; set_solver|by right].
  - intros Hs. specialize (H5 Hs). set_solver.
  - intros x Hx. apply H7. set_solver.
Qed.

Lemma reconnectStep_ok n k running cm started g gs g' cm' : Z.of_nat k + 1 < u64_max →
  reconnectStep started g cm = Ret (g', cm') → poolOk n k running cm (g :: gs) →
  poolOk n (S k) (startedBy started g ++ running) cm' (g' :: gs).
Proof.
  intros Hk E HI. destruct g as [|id|id|id|id|id|]; cbn in E |- *; try done.
  - injection E as <- <-. by apply poolOk_index.
  - destruct (cm_stop cm) eqn:Hs; injection E as <- <-; apply poolOk_later; [|by eapply poolOk_alike, HI].
    destruct HI as [H1 H2 H3 H4 H5 H6 H7]. unfold used in *. cbn [omap list_omap openId enterId] in *. rewrite blanks_cons in *.
    assert (running ++ cm_eventCh cm ++ id :: omap openId gs ≡ₚ id :: running ++ cm_eventCh cm ++ omap openId gs) as Hp
      by (by rewrite !Permutation_middle).
    rewrite Hp in H1, H2, H3. apply NoDup_cons in H1 as [_ ?]. apply Forall_cons in H2 as [_ ?].
    split; unfold used; cbn [omap list_omap openId enterId]; try done; [rewrite blanks_cons; cbn in *; lia|by rewrite Hs].
  - destruct started; injection E as <- <-; apply poolOk_later; [by apply poolOk_started|by eapply poolOk_alike, HI].
  - injection E as <- <-. by apply poolOk_later, poolOk_entered.
Qed.

Lemma connectorStep_ok n k running cm started g gs wg g' cm' wg' : Z.of_nat k + 1 < u64_max →
  connectorStep started g cm wg = Ret (g', cm', wg') → poolOk n k running cm (g :: gs) →
  poolOk n (S k) (startedBy started g ++ running) cm' (g' :: gs).
Proof.
  intros Hk E HI. assert ((∃ id, g = CDone id) ∨ ∀ id, g ≠ CDone id) as [[id ->]|Hg] by (destruct g; naive_solver).
  - cbn in E. destruct (wg <=? 0); [done|]. injection E as <- <- _. apply poolOk_later. by eapply poolOk_alike, HI.
  - assert (∃ g'', reconnectStep started g cm = Ret (g'', cm') ∧ alike g'' g') as (g'' & E' & Ha).
    { destruct g as [|id|id|id|id|id|]; cbn in E |- *; try done; try naive_solver.
      - injection E as <- <- _. by eexists.
      - destruct (cm_stop cm); injection E as <- <- _; by eexists.
      - destruct started; injection E as <- <- _; by eexists.
      - injection E as <- <- _. by eexists. }
    eapply poolOk_alike; [exact Ha|]. by eapply reconnectStep_ok.
Qed.

Lemma insert_perm {A} (l : list A) i x y : l !! i = Some x → ∃ r, l ≡ₚ x :: r ∧ <[ i := y ]> l ≡ₚ y :: r.
Proof.
  intros Hl. exists (take i l ++ drop (S i) l). split.
  - rewrite <-(take_drop_middle l i x Hl) at 1. by rewrite Permutation_middle.
  - rewrite insert_take_drop by (by eapply lookup_lt_Some). by rewrite Permutation_middle.
Qed.

(** Handling an event: the client leaves the table, and a goroutine takes its place. *)
Lemma poolOk_listen n k running cm gs cm' : listen cm = Ret (tt, cm') → poolOk n k running cm gs →
  poolOk n k running cm' (CIndex :: gs).
Proof.
  unfold listen, dropConnection, mbind, M_bind, getS, putS, modifyS. destruct (cm_eventCh cm) as [|id l] eqn:He; [done|].
  intros [= <-] [H1 H2 H3 H4 H5 H6 H7]. unfold used in *. rewrite He in *.
  assert (running ++ (id :: l) ++ omap openId gs ≡ₚ id :: running ++ l ++ omap openId gs) as Hp by (symmetry; exact (Permutation_middle running (l ++ omap openId gs) id)).
  rewrite Hp in H1, H2, H3. apply NoDup_cons in H1 as [Hid H1]. apply Forall_cons in H2 as [_ H2].
  split; unfold used; cbn [omap list_omap openId enterId cm_eventCh set_alive set_eventCh cm_index cm_aliveClientMap cm_stop]; try done.
  - rewrite blanks_cons. cbn in *. lia.
  - intros x Hx. destruct (H4 x Hx) as [?|?]; [left|by right]. apply elem_of_difference. split; [done|]. set_solver.
  - intros Hs. specialize (H5 Hs). set_solver.
Qed.

(** A client reports its end. *)
Lemma poolOk_end n k l1 id l2 cm gs cm' : PutEvent id cm = Ret (tt, cm') → poolOk n k (l1 ++ id :: l2) cm gs → poolOk n k (l1 ++ l2) cm' gs.
Proof.
  unfold PutEvent, mbind, M_bind, getS. case_decide; [|done]. intros [= <-] [H1 H2 H3 H4 H5 H6 H7]. unfold used in *.
  assert ((l1 ++ l2) ++ (cm_eventCh cm ++ [id]) ++ omap openId gs ≡ₚ (l1 ++ id :: l2) ++ cm_eventCh cm ++ omap openId gs) as Hp.
  { rewrite <-(Permutation_middle l1 l2 id). cbn. rewrite <-!app_assoc. cbn. by rewrite !Permutation_middle. }
  split; unfold used; cbn [cm_eventCh set_eventCh cm_index cm_aliveClientMap cm_stop]; try done.
  - by rewrite Hp.
  - by rewrite Hp.
  - by rewrite Hp.
  - intros x Hx. apply H4. set_solver.
Qed.

Lemma poolStep_inv n k w w' : Z.of_nat k + 1 < u64_max → poolInv n k w → poolStep w w' → poolInv n (S k) w'.
Proof.
  intros Hk HI Hstep. unfold poolInv, goroutines, po_cm in *.
  inversion Hstep as [? i started g o Hg E|? Hwg|? cm Hl E|? i started g g' cm Hg E|? l1 id l2 cm Hr E|? a o E]; subst; cbn in *.
  - rewrite Hg in E. destruct (connectorStep started g _ _) as [[[g' cm] wg]| |] eqn:Es; [|done..]. injection E as <-. cbn.
    destruct (insert_perm _ i g g' Hg) as (r & Hp & Hp').
    eapply poolOk_perm; [symmetry; apply Permutation_app; [exact Hp'|reflexivity]|]. cbn.
    eapply connectorStep_ok; [done|exact Es|]. eapply poolOk_perm; [|exact HI]. by rewrite Hp.
  - by apply poolOk_later.
  - eapply poolOk_perm; [|apply poolOk_later; eapply poolOk_listen; [exact E|exact HI]]. by rewrite app_assoc, <-Permutation_cons_append.
  - destruct (insert_perm _ i g g' Hg) as (r & Hp & Hp').
    eapply poolOk_perm; [|eapply reconnectStep_ok; [done|exact E|eapply poolOk_perm; [|exact HI]]].
    + symmetry. rewrite Hp'. symmetry. apply Permutation_middle.
    + rewrite Hp. symmetry. apply Permutation_middle.
  - rewrite Hr in HI. apply poolOk_later. by eapply poolOk_end.
  - apply poolOk_later. assert (cm_eventCh (o_cm o) = cm_eventCh (o_cm (po_opening w)) ∧
      (cm_stop (o_cm o) = false → cm_stop (o_cm (po_opening w)) = false)) as [E5 E6].
    { revert E. unfold closeAllConnections. intros E. repeat case_match; try done; by injection E as <-. }
    apply closeAll_same in E as (E1 & _ & E3 & E4). destruct HI as [H1 H2 H3 H4 H5 H6 H7].
    split; unfold used in *; rewrite ?E1, ?E3, ?E4, ?E5; auto.
Qed.

(** Runs of a number of steps. *)
Inductive poolSteps (w0 : pool) : nat → pool → Prop :=
| pool_none : poolSteps w0 0 w0
| pool_more k w w' : poolSteps w0 k w → poolStep w w' → poolSteps w0 (S k) w'.

Definition startPool (n : nat) : pool := mkPool (establishConnections n NewClientManager) false [] [].

Lemma startPool_inv n : poolInv n 0 (startPool n).
Proof.
  unfold poolInv, goroutines, startPool, establishConnections. cbn. rewrite app_nil_r.
  assert (∀ m, omap openId (replicate m CIndex) = [] ∧ omap enterId (replicate m CIndex) = [] ∧ blanks (replicate m CIndex) = m) as Hm.
  { induction m as [|m (IH1 & IH2 & IH3)]; [done|]. cbn [replicate omap list_omap openId enterId]. rewrite blanks_cons, IH3. cbn. by split_and!. }
  destruct (Hm n) as (E1 & E2 & E3). split; unfold used; cbn; rewrite ?E1, ?E2, ?E3; try done; try constructor; try set_solver.
  intros _ Hin. apply elem_of_replicate_inv in Hin. done.
Qed.

Lemma poolSteps_inv n k w : Z.of_nat k < u64_max → poolSteps (startPool n) k w → poolInv n k w.
Proof.
  intros Hk Hw. induction Hw as [|k w w' _ IH Hs]; [apply startPool_inv|]. eapply poolStep_inv; [lia|apply IH; lia|done].
Qed.

(** [C23] Lost connections are replaced. However the goroutines of the start, the listener, the reconnecting goroutines
    and the clients interleave, and however many attempts fail: as long as the manager is not stopped, the clients that
    run, the ends that wait to be handled and the goroutines that are opening a connection are together exactly the
    number of connections of the configuration, under different indices; so that when nothing waits and no goroutine
    is on its way, exactly that many clients run, and each is in the table of the manager. *)
Theorem connections_conserved n k w : Z.of_nat k < u64_max → poolSteps (startPool n) k w → cm_stop (po_cm w) = false →
  (length (po_running w) + length (cm_eventCh (po_cm w)) + length (filter (λ g, blank g = true ∨ is_Some (openId g)) (goroutines w)))%nat = n ∧
  NoDup (po_running w) ∧
  (cm_eventCh (po_cm w) = [] → Forall (λ g, ∃ id, g = CEnd id) (goroutines w) →
   length (po_running w) = n ∧ ∀ id, id ∈ po_running w → id ∈ cm_aliveClientMap (po_cm w)).
Proof.
  intros Hk Hw Hs. destruct (poolSteps_inv n k w Hk Hw) as [H1 H2 H3 H4 H5 H6 H7]. unfold used in *.
  assert (∀ gs, length (filter (λ g, blank g = true ∨ is_Some (openId g)) gs) = (length (omap openId gs) + blanks gs)%nat) as Hf.
  { induction gs as [|g gs IH]; [done|]. rewrite filter_cons, blanks_cons. cbn [omap list_omap].
    destruct g; cbn; rewrite ?decide_True, ?decide_False by naive_solver; cbn; rewrite IH; lia. }
  rewrite Hf. rewrite !length_app in H3. apply NoDup_app in H1 as (Hn & _ & _). split_and!; [lia|done|].
  intros He Hend. assert (omap openId (goroutines w) = [] ∧ omap enterId (goroutines w) = [] ∧ blanks (goroutines w) = 0%nat) as (E1 & E2 & E3).
  { clear -Hend. induction Hend as [|g gs [id ->] _ (IH1 & IH2 & IH3)]; [done|]. rewrite blanks_cons. by split_and!. }
  rewrite He, E1, E3 in H3. cbn in H3. split; [lia|]. intros id Hid. destruct (H4 id Hid) as [?|Hin]; [done|]. rewrite E2 in Hin. by apply elem_of_nil in Hin.
Qed.

(** ** Runs *)

(** The steps as actions. *)
Inductive poolAct := AOpen (i : nat) (started : bool) | AListening | AListen | AReconnect (i : nat) (started : bool) | AEnd (i : nat).

Definition poolDo (a : poolAct) (w : pool) : option pool :=
  match a with
  | AOpen i started =>
    g ← o_connectors (po_opening w) !! i;
    match connectStep (Connector i started) (po_opening w) with
    | Ret o => Some (mkPool o (po_listening w) (po_reconnect w) (startedBy started g ++ po_running w))
    | _ => None
    end
  | AListening => if o_wg (po_opening w) =? 0 then Some (mkPool (po_opening w) true (po_reconnect w) (po_running w)) else None
  | AListen =>
    match po_listening w, listen (po_cm w) with
    | true, Ret (_, cm) => Some (let w' := set_cm cm w in mkPool (po_opening w') true (po_reconnect w ++ [CIndex]) (po_running w))
    | _, _ => None
    end
  | AReconnect i started =>
    g ← po_reconnect w !! i;
    match reconnectStep started g (po_cm w) with
    | Ret (g', cm) => Some (let w' := set_cm cm w in
        mkPool (po_opening w') (po_listening w) (<[ i := g' ]> (po_reconnect w)) (startedBy started g ++ po_running w))
    | _ => None
    end
  | AEnd i =>
    id ← po_running w !! i;
    match PutEvent id (po_cm w) with
    | Ret (_, cm) => Some (let w' := set_cm cm w in
        mkPool (po_opening w') (po_listening w) (po_reconnect w) (take i (po_running w) ++ drop (S i) (po_running w)))
    | _ => None
    end
  end.

Lemma poolDo_step a w w' : poolDo a w = Some w' → poolStep w w'.
Proof.
  destruct a as [i started| | |i started|i]; cbn [poolDo]; intros E.
  - apply bind_Some in E as (g & Hg & E). destruct (connectStep _ _) as [o| |] eqn:Eo; [|done..]. injection E as <-. by eapply pool_open.
  - destruct (Z.eqb_spec (o_wg (po_opening w)) 0); [|done]. injection E as <-. by apply pool_listening.
  - destruct (po_listening w) eqn:Hl; [|done]. destruct (listen (po_cm w)) as [[[] cm]| |] eqn:El; [|done..]. injection E as <-.
    by apply pool_listen.
  - apply bind_Some in E as (g & Hg & E). destruct (reconnectStep _ _ _) as [[g' cm]| |] eqn:Er; [|done..]. injection E as <-.
    by eapply pool_reconnect.
  - apply bind_Some in E as (id & Hid & E). destruct (PutEvent id (po_cm w)) as [[[] cm]| |] eqn:Ep; [|done..]. injection E as <-.
    eapply pool_end; [|done]. by rewrite take_drop_middle.
Qed.

Fixpoint poolRun (l : list poolAct) (w : pool) : option pool :=
  match l with [] => Some w | a :: l' => w1 ← poolDo a w; poolRun l' w1 end.

Lemma poolRun_steps l : ∀ w0 k w w', poolSteps w0 k w → poolRun l w = Some w' → poolSteps w0 (length l + k) w'.
Proof.
  induction l as [|a l IH]; intros w0 k w w' Hw E; cbn in E; [by injection E as <-|].
  apply bind_Some in E as (w1 & Ha & E). cbn. rewrite <-Nat.add_succ_r. eapply IH; [|exact E].
  eapply pool_more; [exact Hw|by eapply poolDo_step].
Qed.

(** One connection is opened and lost; its successor is lost before it has been entered into the table. *)
Definition lostTwice : list poolAct :=
  [AOpen 0 false; AOpen 0 false; AOpen 0 true; AOpen 0 false; AOpen 0 false; AListening; AEnd 0; AListen;
   AReconnect 0 false; AReconnect 0 false; AReconnect 0 true; AEnd 0; AListen; AReconnect 0 false].

(** A client that ends between its start and its entry into the table is entered after its end was handled: the manager
    reports active connections although no client runs. *)
Theorem stale_connection : ∃ k w, poolSteps (startPool 1) k w ∧ po_running w = [] ∧ cm_eventCh (po_cm w) = [] ∧
  HasActiveConnections (po_cm w) = true.
Proof.
  assert (match poolRun lostTwice (startPool 1) with
    | Some w => bool_decide (po_running w = [] ∧ cm_eventCh (po_cm w) = [] ∧ HasActiveConnections (po_cm w) = true)
    | None => false end = true) as Hok by (vm_compute; reflexivity).
  destruct (poolRun lostTwice (startPool 1)) as [w|] eqn:E; [|done]. apply bool_decide_eq_true in Hok as (H1 & H2 & H3).
  exists (length lostTwice + 0)%nat, w. split_and!; [|done..]. eapply poolRun_steps; [constructor|exact E].
Qed.

(** Opened, lost and replaced. *)
Definition lostOnce : list poolAct :=
  [AOpen 0 false; AOpen 0 false; AOpen 0 true; AOpen 0 false; AOpen 0 false; AListening; AEnd 0; AListen;
   AReconnect 0 false; AReconnect 0 false; AReconnect 0 false; AReconnect 0 false; AReconnect 0 true; AReconnect 0 false].

Lemma connections_conserved_witness :
  match poolRun lostOnce (startPool 1) with
  | Some w => length (po_running w) = 1%nat ∧ ∀ id, id ∈ po_running w → id ∈ cm_aliveClientMap (po_cm w)
  | None => False
  end.
Proof.
  assert (match poolRun lostOnce (startPool 1) with
    | Some w => bool_decide (cm_stop (po_cm w) = false ∧ cm_eventCh (po_cm w) = [] ∧ goroutines w = [CEnd 0; CEnd 1])
    | None => false end = true) as Hok by (vm_compute; reflexivity).
  destruct (poolRun lostOnce (startPool 1)) as [w|] eqn:E; [|done]. apply bool_decide_eq_true in Hok as (H1 & H2 & H3).
  refine (proj2 (proj2 (connections_conserved 1 (length lostOnce + 0) w _ _ H1)) H2 _); [by vm_compute| |].
  - eapply poolRun_steps; [constructor|exact E].
  - rewrite H3. repeat constructor; by eexists.
Defined.
End Reconnect.
