(* ===== verification/Servers.v ===== *)
(** * The servers, their listeners and the client's connection

    The chain's and the sandboxes' server of the engine (vm_mgr/module/rpc, the two *_server.go files), the
    server for sandboxes on the chain's side (rpc/runtime_server.go), the connection of a client to the
    engine (rpc/contract_engine_client.go) and the file-system helpers they call (vm_mgr/utils/utils.go,
    utils/utils.go). *)

From S2P Require Import Prelude Messages TimeStatics Users EngineConfig Instances.

Module Servers.
Import Instances.

(** ** The operating system *)

(** What the code asks the system for, with the file system it changes: [None] is success. *)
Class OS := {
  os_fs :: FileSystem;
  mkdir : string → FS → option gerr * FS;
  remove : string → FS → option gerr * FS;
  chmod : string → Z → FS → option gerr * FS;
  writeFile : string → string → FS → option gerr * FS;
  resolveUnixAddr : string → option gerr;
  resolveTCPAddr : string → option gerr;
  listenUnix : string → FS → option gerr * FS;
  listenTCP : string → FS → option gerr * FS;
}.

(** What is documented of sockets in the file system: a removed file is gone and a missing one cannot be
    removed; listening makes the file, a bind that fails makes none; a change of mode moves nothing. *)
Class OSLaws `{OS0 : OS} : Prop := {
  law_remove p s : (remove p s).1 = None → statDir p (remove p s).2 = inl false;
  law_remove_missing p s : statDir p s = inl false → is_Some (remove p s).1;
  law_listen p s : (listenUnix p s).1 = None → statDir p (listenUnix p s).2 = inl true;
  law_listen_failed p s : is_Some (listenUnix p s).1 → statDir p (listenUnix p s).2 = statDir p s;
  law_chmod p m q s : statDir q (chmod p m s).2 = statDir q s;
}.

(** A call of the system, and code that goes on only when a call succeeded. *)
Definition sys {S} (f : S → option gerr * S) : M S (option gerr) := λ s, let '(e, s') := f s in Ret (e, s').

Definition orElse {S A} (m : M S (option gerr)) (fail : gerr → A) (k : M S A) : M S A :=
  err ← m; match err with Some e => mret (fail e) | None => k end.

Section files.
Context `{OS0 : OS}.

(** ** vm_mgr/utils/utils.go and utils/utils.go: files *)

Definition WriteToFile (path value : string) : M FS (option gerr) := sys (writeFile path value).

Definition RemoveDir (path : string) : M FS (option gerr) :=
  orElse (sys (chmod path 493)) (λ e, Some (Wrap ("failed to set mod of " +:+ path) e))
    (orElse (sys (remove path)) (λ e, Some (Wrap ("failed to remove file " +:+ path) e)) (mret None)).

(** [Mkdir]: a directory that exists is removed, and nothing is made. *)
Definition Mkdir (path : string) : M FS (option gerr) :=
  s ← getS;
  match statDir path s with
  | inl true => RemoveDir path
  | _ => orElse (sys (mkdir path)) (λ e, Some (Wrap "failed to create directory" e)) (mret None)
  end.

Definition exists_ (path : string) : M FS (bool + gerr) := s ← getS; mret (statDir path s).

(** [CreateDir] of the engine, and that of the chain's side, which names the directory in its error. *)
Definition CreateDirWith (wrap : gerr → gerr) (directory : string) : M FS (option gerr) :=
  exist ← exists_ directory;
  match exist with
  | inr err => mret (Some err)
  | inl true => mret None
  | inl false => orElse (sys (mkdirAll directory)) (λ e, Some (wrap e)) (mret None)
  end.

Definition CreateDir (directory : string) : M FS (option gerr) := CreateDirWith id directory.

Definition RuntimeCreateDir (directory : string) : M FS (option gerr) :=
  CreateDirWith (Wrap ("failed to create " +:+ directory)) directory.

(** ** Listeners *)

Inductive listener := UnixListener (path : string) | TCPListener (addr : string).

(** The loop from the label [start], each round one unit of [fuel]; without fuel it is still running. *)
Fixpoint listenLoop (removeErr chmodErr : gerr → gerr) (fuel : nat) (sockPath : string) : M FS (listener + gerr) :=
  match fuel with
  | O => block
  | S fuel' =>
    err ← sys (listenUnix sockPath);
    match err with
    | Some _ => orElse (sys (remove sockPath)) (λ e, inr (removeErr e)) (listenLoop removeErr chmodErr fuel' sockPath)
    | None => orElse (sys (chmod sockPath 511)) (λ e, inr (chmodErr e)) (mret (inl (UnixListener sockPath)))
    end
  end.

Definition CreateUnixListener (fuel : nat) (sockPath : string) : M FS (listener + gerr) :=
  listenLoop (λ _, Err ("failed to remove " +:+ sockPath)) (λ _, Err ("failed to chmod " +:+ sockPath)) fuel sockPath.

Definition createUnixListener (fuel : nat) (sockPath : string) : M FS (listener + gerr) :=
  match resolveUnixAddr sockPath with
  | Some e => mret (inr (Wrap "failed to listen" e))
  | None => listenLoop id id fuel sockPath
  end.

Definition createTCPListener (port : string) : M FS (listener + gerr) :=
  let addr := ":" +:+ port in
  match resolveTCPAddr addr with
  | Some e => mret (inr e)
  | None => orElse (sys (listenTCP addr)) inr (mret (inl (TCPListener addr)))
  end.

Definition TCPProtocol : string := "tcp".
Definition UDSProtocol : string := "uds".
Definition RuntimeSockDir : string := "runtime-sock".
Definition RuntimeSockName : string := "runtime.sock".
Definition EngineSockName : string := "chain.sock".

(** [createListener(vmConfig)]: anything but "uds" is TCP. *)
Definition createListener (fuel : nat) (c : DockerVMConfig) : M FS (listener + gerr) :=
  if String.eqb (ConnectionProtocol c) UDSProtocol then
    let sockDir := path_join (DockerVMMountPath c) RuntimeSockDir in
    orElse (RuntimeCreateDir sockDir) inr (createUnixListener fuel (path_join sockDir RuntimeSockName))
  else createTCPListener (itoa (rs_Port (RuntimeServer c))).

(** ** The options and the calls of a gRPC server *)

Record serverOptions := mkOptions {
  o_KeepAliveTime : Z;
  o_KeepAliveTimeout : Z;
  o_MinTime : Z;
  o_PermitWithoutStream : bool;
  o_ConnectionTimeout : Z;
  o_MaxSendMsgSize : Z;
  o_MaxRecvMsgSize : Z;
  o_ReadBufferSize : Z;
  o_WriteBufferSize : Z;
  o_InitialWindowSize : Z;
  o_InitialConnWindowSize : Z;
  o_NumStreamWorkers : Z;
}.

(** Megabytes, multiplied as [int]. *)
Definition megabytes (n : Z) : Z := TimeStatics.i64 (n * 1024 * 1024).

Definition engineOptions (NumCPU : Z) (c : EngineConfig.conf) : serverOptions :=
  let r := EngineConfig.RPC c in
  mkOptions (EngineConfig.ServerKeepAliveTime r) (EngineConfig.ServerKeepAliveTimeout r) (EngineConfig.ServerMinInterval r) true
    (EngineConfig.ConnectionTimeout r) (megabytes (EngineConfig.MaxSendMsgSize r)) (megabytes (EngineConfig.MaxRecvMsgSize r))
    (megabytes 4) (megabytes 4) (megabytes 64) (megabytes 64) (Z.quot NumCPU 2 mod 2 ^ 32).

Definition second : Z := 1000000000.
Definition ServerMinInterval : Z := 60 * second.
Definition ConnectionTimeout : Z := 5 * second.

(** The options of [NewRuntimeServer]: both sizes are those of received messages. *)
Definition runtimeOptions (NumCPU : Z) (c : DockerVMConfig) : serverOptions :=
  mkOptions (60 * second) (20 * second) ServerMinInterval true ConnectionTimeout
    (megabytes (GetMaxRecvMsgSizeFromConfig c)) (megabytes (GetMaxRecvMsgSizeFromConfig c))
    (megabytes 4) (megabytes 4) (megabytes 64) (megabytes 64) (Z.quot NumCPU 2 mod 2 ^ 32).

(** What was done with a server, in order: the registration of the service, the start of the goroutine that
    serves on a listener, the stop. *)
Inductive rpcCall := RegisterService | GoServe (l : listener) | StopServer.

Record grpcServer := mkGrpc { gs_options : serverOptions; gs_calls : list rpcCall }.

Definition call (l : list rpcCall) (g : grpcServer) : grpcServer := mkGrpc (gs_options g) (gs_calls g ++ l).

(** [ChainRPCServer] and [SandboxRPCServer]; the pointers may be nil. *)
Record rpcServer := mkServer { Listener : option listener; Server : option grpcServer }.

Definition newServer (o : serverOptions) (l : listener) : rpcServer := mkServer (Some l) (Some (mkGrpc o [])).

(** ** The two servers of the engine *)

Definition TCP : Z := 1.
Definition DockerMountDir : string := "/mount".
Definition ChainRPCDir : string := "contract-engine-sock".
Definition ChainRPCSockName : string := "chain.sock".

Definition serverOf (o : serverOptions) (r : listener + gerr) : rpcServer + gerr :=
  match r with
  | inl l => inl (newServer o l)
  | inr e => inr (Wrap "failed to create unix listener" e)
  end.

Definition NewChainRPCServer (fuel : nat) (NumCPU : Z) (c : EngineConfig.conf) : M FS (rpcServer + gerr) :=
  if EngineConfig.ChainRPCProtocol (EngineConfig.RPC c) =? TCP then
    let endPoint := ":" +:+ itoa (EngineConfig.ChainRPCPort (EngineConfig.RPC c)) in
    orElse (sys (listenTCP endPoint)) (λ e, inr (Wrap "failed to listen tcp" e))
      (mret (inl (newServer (engineOptions NumCPU c) (TCPListener endPoint))))
  else
    let sockDir := path_join DockerMountDir ChainRPCDir in
    orElse (CreateDir sockDir) (λ _, inr (Err ("failed to create chain rpc sock dir " +:+ sockDir)))
      (let path := path_join sockDir ChainRPCSockName in
       match resolveUnixAddr path with
       | Some e => mret (inr (Wrap "failed to resolve unix addr" e))
       | None => r ← CreateUnixListener fuel path; mret (serverOf (engineOptions NumCPU c) r)
       end).

Definition NewSandboxRPCServer (fuel : nat) (NumCPU : Z) (c : EngineConfig.conf) (sockDir : string) : M FS (rpcServer + gerr) :=
  orElse (CreateDir sockDir) (λ _, inr (Err ("failed to create sandbox sock dir " +:+ sockDir)))
    (let path := path_join sockDir Users.SandboxRPCSockName in
     match resolveUnixAddr path with
     | Some e => mret (inr (Wrap "failed to resolve unix addr" e))
     | None => r ← CreateUnixListener fuel path; mret (serverOf (engineOptions NumCPU c) r)
     end).
End files.

(** [StartChainRPCServer], [StartSandboxRPCServer] and the function of [StartRuntimeServer]. *)
Definition startServer : M rpcServer (option gerr) :=
  s ← getS;
  match Listener s, Server s with
  | None, _ => mret (Some (Err "nil listener"))
  | Some _, None => mret (Some (Err "nil server"))
  | Some l, Some g => putS (mkServer (Some l) (Some (call [RegisterService; GoServe l] g)));; mret None
  end.

Definition stopServer : M rpcServer unit := modifyS (λ s, mkServer (Listener s) (call [StopServer] <$> Server s)).

Definition StartChainRPCServer : M rpcServer (option gerr) := startServer.
Definition StopChainRPCServer : M rpcServer unit := stopServer.
Definition StartSandboxRPCServer : M rpcServer (option gerr) := startServer.
Definition StopSandboxRPCServer : M rpcServer unit := stopServer.

(** ** rpc/runtime_server.go *)

Record RuntimeServer := mkRuntime {
  rt_server : rpcServer;
  rt_config : DockerVMConfig;
  rt_startOnce : bool;
  rt_stopOnce : bool;
}.

(** [runtimeServerOnce] and [runtimeServerInstance], with the file system. *)
Record runtimeGlobals `{OS0 : OS} := mkRuntimeGlobals {
  rg_fs : FS;
  rg_once : bool;
  rg_instance : option RuntimeServer;
}.

Section runtime.
Context `{OS0 : OS}.

(** [NewRuntimeServer(logger, vmConfig)]: the function of the [Once], then the error if this call made one. *)
Definition NewRuntimeServer (fuel : nat) (NumCPU : Z) (vmConfig : option DockerVMConfig)
    : M runtimeGlobals (option RuntimeServer + gerr) :=
  g ← getS;
  if rg_once g then mret (inl (rg_instance g))
  else
    match vmConfig with
    | None => putS (mkRuntimeGlobals _ (rg_fs g) true (rg_instance g));; mret (inr (Err "invalid parameter, config is nil"))
    | Some c =>
      match createListener fuel c (rg_fs g) with
      | Ret (inr e, s) => putS (mkRuntimeGlobals _ s true (rg_instance g));; mret (inr e)
      | Ret (inl l, s) =>
        let server := mkRuntime (newServer (runtimeOptions NumCPU c) l) c false false in
        putS (mkRuntimeGlobals _ s true (Some server));; mret (inl (Some server))
      | Panic => panic
      | Block => block
      end
    end.

Definition StartRuntimeServer : M RuntimeServer (option gerr) :=
  r ← getS;
  if rt_startOnce r then mret None
  else
    match startServer (rt_server r) with
    | Ret (e, s) => putS (mkRuntime s (rt_config r) true (rt_stopOnce r));; mret e
    | Panic => panic
    | Block => block
    end.

Definition StopRuntimeServer : M RuntimeServer unit :=
  r ← getS;
  if rt_stopOnce r then mret tt
  else
    match stopServer (rt_server r) with
    | Ret (_, s) => putS (mkRuntime s (rt_config r) (rt_startOnce r) true)
    | Panic => panic
    | Block => block
    end.

(** ** instance_manager.go: StopVM *)

(** A method of the server that all chains share, through the pointer a manager got from [NewRuntimeServer]. *)
Definition onServer {A} (m : M RuntimeServer A) : M runtimeGlobals A :=
  g ← getS;
  r ← deref (rg_instance g);
  match m r with
  | Ret (a, r') => putS (mkRuntimeGlobals _ (rg_fs g) (rg_once g) (Some r'));; mret a
  | Panic => panic
  | Block => block
  end.

(** [StopVM()]; [isNil] is a nil manager, [clients] the outcome of the client manager's [Stop]. *)
Definition StopVM (isNil : bool) (clients : option gerr) : M runtimeGlobals (option gerr) :=
  if isNil then mret None
  else match clients with Some e => mret (Some e) | None => onServer StopRuntimeServer;; mret None end.

(** One chain's stop stops the server of all of them. *)
Lemma stop_is_shared g r gs : rg_instance g = Some r → rt_stopOnce r = false → Server (rt_server r) = Some gs →
  ∃ g' r', StopVM false None g = Ret (None, g') ∧ rg_instance g' = Some r' ∧
    Server (rt_server r') = Some (call [StopServer] gs) ∧ rt_stopOnce r' = true.
Proof.
  intros Hr Hs Hg. unfold StopVM, onServer, StopRuntimeServer, mbind, M_bind, getS. rewrite Hr. cbn. rewrite Hs. cbn.
  do 2 eexists. split_and!; [done|done|cbn; by rewrite Hg|done].
Qed.
End runtime.

(** ** The client's connection *)

(** The address that [NewClientConn] gives to [grpc.Dial], whether its own dialler for Unix sockets is used,
    and the options of the connection. *)
Record dialTarget := mkDial {
  dl_address : string;
  dl_unix : bool;
  dl_MaxRecvMsgSize : Z;
  dl_MaxSendMsgSize : Z;
  dl_WriteBufferSize : Z;
  dl_ReadBufferSize : Z;
  dl_InitialWindowSize : Z;
  dl_InitialConnWindowSize : Z;
}.

Definition NewClientConn (c : DockerVMConfig) : dialTarget :=
  let dial addr unix := mkDial addr unix (megabytes (GetMaxRecvMsgSizeFromConfig c)) (megabytes (GetMaxSendMsgSizeFromConfig c))
    (megabytes 4) (megabytes 4) (megabytes 64) (megabytes 64) in
  if String.eqb (ConnectionProtocol c) TCPProtocol
  then dial (ce_Host (ContractEngine c) +:+ ":" +:+ itoa (ce_Port (ContractEngine c))) false
  else dial (path_join (path_join (DockerVMMountPath c) SockDir) EngineSockName) true.

(** ** The loop of the listeners ends *)

Section listeners.
Context `{OS0 : OS} `{!OSLaws}.

Lemma sys_run {S} (f : S → option gerr * S) s : sys f s = Ret (f s).
Proof. unfold sys. by destruct (f s). Qed.

Lemma orElse_run {S A} (f : S → option gerr * S) (fail : gerr → A) k s :
  orElse (sys f) fail k s = match (f s).1 with Some e => Ret (fail e, (f s).2) | None => k (f s).2 end.
Proof. unfold orElse, mbind, M_bind. rewrite sys_run. by destruct (f s) as [[]]. Qed.

(** What is left after a successful listen. *)
Definition listened (chmodErr : gerr → gerr) (p : string) (s : FS) : (listener + gerr) * FS :=
  match (chmod p 511 s).1 with
  | Some e => (inr (chmodErr e), (chmod p 511 s).2)
  | None => (inl (UnixListener p), (chmod p 511 s).2)
  end.

Lemma listenLoop_round removeErr chmodErr fuel p s :
  listenLoop removeErr chmodErr (S fuel) p s =
    let '(e, s1) := listenUnix p s in
    match e with
    | None => Ret (listened chmodErr p s1)
    | Some _ =>
      match (remove p s1).1 with
      | Some e => Ret (inr (removeErr e), (remove p s1).2)
      | None => listenLoop removeErr chmodErr fuel p (remove p s1).2
      end
    end.
Proof.
  cbn [listenLoop]. unfold mbind at 1, M_bind at 1. rewrite sys_run. destruct (listenUnix p s) as [[e|] s1].
  - by rewrite orElse_run.
  - rewrite orElse_run. unfold listened. by destruct (chmod p 511 s1).1.
Qed.

(** The loop without a loop: listen, and if that fails remove the file and listen once more. *)
Definition listenTwice (removeErr chmodErr : gerr → gerr) (p : string) (s : FS) : (listener + gerr) * FS :=
  let '(e1, s1) := listenUnix p s in
  match e1 with
  | None => listened chmodErr p s1
  | Some _ =>
    let '(e2, s2) := remove p s1 in
    match e2 with
    | Some e => (inr (removeErr e), s2)
    | None =>
      let '(e3, s3) := listenUnix p s2 in
      match e3 with
      | None => listened chmodErr p s3
      | Some _ => (inr (removeErr (default (Err "") (remove p s3).1)), (remove p s3).2)
      end
    end
  end.

Lemma listenLoop_twice removeErr chmodErr fuel p s :
  listenLoop removeErr chmodErr (S (S fuel)) p s = Ret (listenTwice removeErr chmodErr p s).
Proof.
  rewrite listenLoop_round. unfold listenTwice. destruct (listenUnix p s) as [[e1|] s1] eqn:E1; [|done].
  destruct (remove p s1) as [[e2|] s2] eqn:E2; cbn [fst snd]; [done|].
  rewrite listenLoop_round. destruct (listenUnix p s2) as [[e3|] s3] eqn:E3; [|done].
  assert (statDir p s3 = inl false) as Hgone.
  { pose proof (law_remove p s1) as H2. rewrite E2 in H2. pose proof (law_listen_failed p s2) as H3. rewrite E3 in H3.
    cbn [fst snd] in H2, H3. rewrite H3 by (by eexists). by apply H2. }
  destruct (law_remove_missing p s3 Hgone) as [e He]. by rewrite He.
Qed.

Lemma listened_ok chmodErr p s : statDir p s = inl true →
  let '(r, s') := listened chmodErr p s in
  statDir p s' = inl true ∧ ((chmod p 511 s).1 = None → r = inl (UnixListener p)) ∧ (∀ l, r = inl l → l = UnixListener p).
Proof.
  intros Hp. unfold listened. destruct (chmod p 511 s).1; (split; [by rewrite law_chmod|]); naive_solver.
Qed.

(** [C27] Creating a Unix listener ends. Whatever lies at the path, the loop that listens, removes the file and
    listens again makes at most two rounds; when it succeeds the listener is on that path and the socket exists;
    and a file left behind by a former run does not prevent it, provided that the file can be removed, that
    listening works where there is no file and that the mode can be set. *)
Theorem unix_listener_settles fuel p s : (2 ≤ fuel)%nat →
  ∃ r s', CreateUnixListener fuel p s = Ret (r, s') ∧
    (∀ l, r = inl l → l = UnixListener p ∧ statDir p s' = inl true) ∧
    ((∀ s, statDir p s = inl false → (listenUnix p s).1 = None) →
     (∀ s, statDir p s ≠ inl false → (remove p s).1 = None) → (∀ s, (chmod p 511 s).1 = None) →
     r = inl (UnixListener p)).
Proof.
  intros Hf. destruct fuel as [|[|fuel]]; [lia|lia|]. unfold CreateUnixListener. rewrite listenLoop_twice.
  set (ce := λ _ : gerr, Err ("failed to chmod " +:+ p)). set (re := λ _ : gerr, Err ("failed to remove " +:+ p)).
  destruct (listenTwice re ce p s) as [r s'] eqn:E. exists r, s'. split; [done|]. revert E. unfold listenTwice.
  pose proof (law_listen p s) as Hl1. destruct (listenUnix p s) as [[e1|] s1] eqn:E1; cbn in Hl1.
  2:{ intros E. pose proof (listened_ok ce p s1 (Hl1 eq_refl)) as Hok. rewrite E in Hok. destruct Hok as (? & ? & ?). split; auto. }
  pose proof (law_remove p s1) as Hr. destruct (remove p s1) as [[e2|] s2] eqn:E2; cbn in Hr.
  { intros [= <- <-]. split; [done|]. intros Hl Hrm _. exfalso.
    pose proof (law_listen_failed p s) as Hf1. rewrite E1 in Hf1. cbn in Hf1. specialize (Hf1 ltac:(by eexists)).
    specialize (Hrm s1). rewrite E2 in Hrm. cbn in Hrm. destruct (decide (statDir p s = inl false)) as [Hs|Hs].
    - specialize (Hl s Hs). by rewrite E1 in Hl.
    - rewrite <-Hf1 in Hs. by specialize (Hrm Hs). }
  pose proof (law_listen p s2) as Hl2. destruct (listenUnix p s2) as [[e3|] s3] eqn:E3; cbn in Hl2.
  - intros [= <- <-]. split; [done|]. intros Hl _ _. specialize (Hl s2 (Hr eq_refl)). by rewrite E3 in Hl.
  - intros E. pose proof (listened_ok ce p s3 (Hl2 eq_refl)) as Hok. rewrite E in Hok. destruct Hok as (? & ? & ?). split; auto.
Qed.

(** ** The server of the chain's side *)

Lemma CreateDirWith_returns wrap d s : ∃ e s', CreateDirWith wrap d s = Ret (e, s').
Proof.
  unfold CreateDirWith, exists_, mbind, M_bind, getS, mret, M_ret. cbn [fst snd].
  destruct (statDir d s) as [[]|]; [by do 2 eexists| |by do 2 eexists].
  rewrite orElse_run. destruct (mkdirAll d s).1; by do 2 eexists.
Qed.

Lemma createUnixListener_returns fuel p s : (2 ≤ fuel)%nat → ∃ r s', createUnixListener fuel p s = Ret (r, s').
Proof.
  intros Hf. destruct fuel as [|[|fuel]]; [lia|lia|]. unfold createUnixListener.
  destruct (resolveUnixAddr p); [by do 2 eexists|]. rewrite listenLoop_twice. destruct (listenTwice _ _ _ _). by do 2 eexists.
Qed.

Lemma createListener_returns fuel c s : (2 ≤ fuel)%nat → ∃ r s', createListener fuel c s = Ret (r, s').
Proof.
  intros Hf. unfold createListener. destruct (String.eqb _ _).
  - unfold orElse, mbind, M_bind, RuntimeCreateDir. destruct (CreateDirWith_returns
      (Wrap ("failed to create " +:+ path_join (DockerVMMountPath c) RuntimeSockDir)) (path_join (DockerVMMountPath c) RuntimeSockDir) s)
      as (e & s' & ->). destruct e; [by do 2 eexists|by apply createUnixListener_returns].
  - unfold createTCPListener. destruct (resolveTCPAddr _); [by do 2 eexists|]. rewrite orElse_run.
    destruct (listenTCP _ s) as [[]]; by do 2 eexists.
Qed.

(** The state that the instance manager sees of the server: the [Once], and the configuration of the server. *)
Definition seen (g : runtimeGlobals) (G : Globals) : Prop :=
  rg_once g = g_serverOnce G ∧ rt_config <$> rg_instance g = g_server G ∧ (rg_once g = false → rg_instance g = None).

Definition seenResult (r : option RuntimeServer + gerr) : option DockerVMConfig + gerr :=
  match r with inl o => inl (rt_config <$> o) | inr e => inr e end.

(** [C36] The server for sandboxes implements what the instance managers rely on. Creating the server with its
    listener, its options and the [Once] that all chains share returns, and what it returns and leaves is what the
    abstract creation gives for some outcome of listening: only the first call creates, an error is reported only
    by that call, and later calls get the server of the first, or none if that failed. *)
Theorem runtime_server_refines fuel NumCPU c g G : (2 ≤ fuel)%nat → seen g G →
  ∃ listen r g' G', NewRuntimeServer fuel NumCPU (Some c) g = Ret (r, g') ∧
    Instances.NewRuntimeServer listen c G = Ret (seenResult r, G') ∧ seen g' G' ∧
    (listen = None → rg_once g = false → ∃ l, r = inl (Some (mkRuntime (newServer (runtimeOptions NumCPU c) l) c false false))).
Proof.
  intros Hf (Ho & Hi & Hn). unfold NewRuntimeServer, Instances.NewRuntimeServer, mbind, M_bind, getS. rewrite <-Ho.
  destruct (rg_once g) eqn:Eo.
  - exists None, (inl (rg_instance g)), g, G. split_and!; [done|by rewrite <-Hi| |done]. split_and!; [by rewrite Eo|done|by rewrite Eo].
  - destruct (createListener_returns fuel c (rg_fs g) Hf) as (r & s & ->). specialize (Hn eq_refl). destruct r as [l|e].
    + exists None. do 3 eexists. split_and!; [done|done| |by eexists]. split_and!; done.
    + exists (Some e). do 3 eexists. split_and!; [done|done| |done]. split_and!; cbn; [done|by rewrite Hn|done].
Qed.
End listeners.

(** Starting and stopping, any number of times and from any chain. *)
Inductive serverOp := OpStart | OpStop.

Definition runOp (r : RuntimeServer) (o : serverOp) : RuntimeServer :=
  match o with
  | OpStart => match StartRuntimeServer r with Ret (_, r') => r' | _ => r end
  | OpStop => match StopRuntimeServer r with Ret (_, r') => r' | _ => r end
  end.

(** What the two flags say about the calls made on the server. *)
Definition callsOf (l : listener) (started stopped : bool) : list (list rpcCall) :=
  match started, stopped with
  | false, false => [[]]
  | true, false => [[RegisterService; GoServe l]]
  | false, true => [[StopServer]]
  | true, true => [[RegisterService; GoServe l; StopServer]; [StopServer; RegisterService; GoServe l]]
  end.

Definition onceInv (o : serverOptions) (l : listener) (r : RuntimeServer) : Prop :=
  ∃ cs, rt_server r = mkServer (Some l) (Some (mkGrpc o cs)) ∧ cs ∈ callsOf l (rt_startOnce r) (rt_stopOnce r).

Lemma onceInv_step o l r op : onceInv o l r → onceInv o l (runOp r op).
Proof.
  destruct r as [sv c st sp]. intros (cs & Hs & Hcs). cbn in Hs, Hcs. subst sv.
  destruct op, st, sp; cbn in Hcs |- *; try (exists cs; split; [done|exact Hcs]);
    (apply list_elem_of_singleton in Hcs as ->; eexists; split; [done|cbn; set_solver]).
Qed.

(** However often the server of the chain's side is started and stopped, its service is registered once, before
    it is served, and it is served and stopped at most once. *)
Theorem runtime_server_once o l c ops :
  onceInv o l (foldl runOp (mkRuntime (newServer o l) c false false) ops).
Proof.
  assert (onceInv o l (mkRuntime (newServer o l) c false false)) as H by (exists []; cbn; set_solver).
  revert H. generalize (mkRuntime (newServer o l) c false false). induction ops as [|op ops IH]; intros r Hr; [done|].
  cbn. apply IH. by apply onceInv_step.
Qed.

(** ** Where the two sides meet *)

(** The socket the sandbox server listens on is the one every user's sandbox is told. *)
Lemma sandbox_socket id : path_join Users.SandboxRPCDir Users.SandboxRPCSockName = Users.SockPath (Users.NewUser id).
Proof. done. Qed.

(** Over Unix sockets the client dials the engine's socket in the mounted directory. *)
Lemma chain_socket c : DockerVMMountPath c = DockerMountDir → ConnectionProtocol c = UDSProtocol →
  dl_unix (NewClientConn c) = true ∧
  dl_address (NewClientConn c) = path_join (path_join DockerMountDir ChainRPCDir) ChainRPCSockName.
Proof. intros Hm Hp. unfold NewClientConn. rewrite Hm, Hp. done. Qed.

Lemma megabytes_small n : 0 ≤ n < 2 ^ 43 → megabytes n = n * 1024 * 1024.
Proof. intros Hn. unfold megabytes, TimeStatics.i64. rewrite Z.mod_small by lia. lia. Qed.

(** The sizes of the chain's side come from 32 bits and never overflow. *)
Lemma runtime_sizes c NumCPU : 0 ≤ MaxRecvMsgSize c < 2 ^ 32 →
  o_MaxRecvMsgSize (runtimeOptions NumCPU c) = Z.max 100 (MaxRecvMsgSize c) * 1024 * 1024 ∧
  o_MaxSendMsgSize (runtimeOptions NumCPU c) = o_MaxRecvMsgSize (runtimeOptions NumCPU c).
Proof.
  intros Hc. split; [|done]. cbn. unfold GetMaxRecvMsgSizeFromConfig, DefaultMaxRecvSize.
  destruct (Z.ltb_spec (MaxRecvMsgSize c) 100); rewrite megabytes_small by lia; lia.
Qed.

Section protocols.
Context `{OS0 : OS}.

(** With a protocol that is neither of the two names, the client dials a Unix socket and the server listens on a
    TCP port. *)
Lemma unknown_protocol c fuel : ConnectionProtocol c ≠ TCPProtocol → ConnectionProtocol c ≠ UDSProtocol →
  dl_unix (NewClientConn c) = true ∧ createListener fuel c = createTCPListener (itoa (rs_Port (Instances.RuntimeServer c))).
Proof.
  intros Ht Hu. unfold NewClientConn, createListener.
  by rewrite (proj2 (String.eqb_neq _ _) Ht), (proj2 (String.eqb_neq _ _) Hu).
Qed.
End protocols.

(** ** A system of files *)

(** Paths that exist or do not: sockets, files and directories alike. *)
Definition sampleOS : OS := {|
  os_fs := sampleFS;
  mkdir p s := if bool_decide (p ∈ (s : gset string)) then (Some (Err "file exists"), s) else (None, {[ p ]} ∪ s);
  remove p s := if bool_decide (p ≠ "" ∧ p ∈ (s : gset string)) then (None, s ∖ {[ p ]}) else (Some (Err "no such file or directory"), s);
  chmod p m s := (None, s);
  writeFile p v s := (None, {[ p ]} ∪ s);
  resolveUnixAddr p := None;
  resolveTCPAddr p := None;
  listenUnix p s := if bool_decide (p = "" ∨ p ∈ (s : gset string)) then (Some (Err "address already in use"), s) else (None, {[ p ]} ∪ s);
  listenTCP p s := (None, s);
|}.

Lemma sampleFS_statDir p (s : @FS sampleFS) : @statDir sampleFS p s = inl (bool_decide (p ≠ "" ∧ p ∈ (s : gset string))).
Proof.
  cbn. f_equal. destruct (String.eqb_spec p ""); cbn; symmetry.
  - apply bool_decide_eq_false. naive_solver.
  - apply bool_decide_ext. naive_solver.
Qed.

Lemma sampleOS_laws : @OSLaws sampleOS.
Proof.
  split; intros; change (@os_fs sampleOS) with sampleFS in *; rewrite ?sampleFS_statDir in *; cbn in *;
    repeat case_bool_decide; cbn in *; simplify_eq; try done; try (by eexists).
  - exfalso. set_solver.
  - exfalso. set_solver.
Qed.

(** A socket left behind is replaced. *)
Lemma unix_listener_settles_witness :
  ∃ s', CreateUnixListener (OS0 := sampleOS) 2 "/sandbox/sandbox.sock" {[ "/sandbox/sandbox.sock" ]}
    = Ret (inl (UnixListener "/sandbox/sandbox.sock"), s').
Proof.
  destruct (unix_listener_settles (OS0 := sampleOS) (H := sampleOS_laws) 2 "/sandbox/sandbox.sock" {[ "/sandbox/sandbox.sock" ]}
    ltac:(lia)) as (r & s' & E & _ & Hr).
  exists s'. rewrite E. do 2 f_equal. apply Hr; [| |done].
  - intros s. change (@os_fs sampleOS) with sampleFS. rewrite sampleFS_statDir. cbn. intros [= Hs%bool_decide_eq_false].
    rewrite bool_decide_false; [done|naive_solver].
  - intros s. change (@os_fs sampleOS) with sampleFS. rewrite sampleFS_statDir. cbn. intros Hs.
    destruct (bool_decide _); [done|by destruct Hs].
Defined.

Definition sampleRuntimeGlobals : @runtimeGlobals sampleOS := mkRuntimeGlobals sampleOS ∅ false None.

Lemma runtime_server_refines_witness :
  ∃ listen r g' G', NewRuntimeServer (OS0 := sampleOS) 2 8 (Some (sampleConfig "log")) sampleRuntimeGlobals = Ret (r, g') ∧
    Instances.NewRuntimeServer (FS0 := sampleFS) listen (sampleConfig "log") sampleGlobals = Ret (seenResult r, G') ∧
    seen (OS0 := sampleOS) g' G'.
Proof.
  destruct (runtime_server_refines (OS0 := sampleOS) (H := sampleOS_laws) 2 8 (sampleConfig "log") sampleRuntimeGlobals sampleGlobals
    ltac:(lia)) as (listen & r & g' & G' & E1 & E2 & E3 & _).
  - by split_and!.
  - by exists listen, r, g', G'.
Defined.

(** [Mkdir] on a directory that exists leaves none. *)
Example mkdir_removes : Mkdir (OS0 := sampleOS) "/data" {[ "/data" ]} = Ret (None, ∅).
Proof. vm_compute. reflexivity. Qed.
End Servers.
