(* ===== verification/Startup.v ===== *)
(** * The start of the engine

    vm_mgr/main.go, vm_mgr/module/manager.go and vm_mgr/module/security: the order in which the parts of the engine
    are created, started and connected, the hardening of the container, and the goroutines that wait for an error. *)

From S2P Require Import Prelude Messages TimeStatics Users EngineConfig Instances Servers RequestScheduler EngineServices.

Module Startup.
Import Instances Servers.

(** ** vm_mgr/module/security *)

Definition CGroupRoot : string := "/sys/fs/cgroup/memory/chainmaker".
Definition MemoryLimitFile : string := "memory.limit_in_bytes".
Definition SwapLimitFile : string := "memory.swappiness".
Definition RssLimit : Z := 50000.

Definition _ipcPath : string := "/proc/sys/kernel".
Definition _ipcFiles : list string := ["shmmax"; "shmall"; "msgmax"; "msgmnb"; "msgmni"].
Definition _ipcSemFile : string := "sem".

Section security.
Context `{OS0 : OS}.

Definition setMemoryList : M FS (option gerr) :=
  orElse (WriteToFile (path_join CGroupRoot MemoryLimitFile) (itoa (RssLimit * 1024 * 1024))) Some
    (orElse (WriteToFile (path_join CGroupRoot SwapLimitFile) "0") Some (mret None)).

Definition setCGroup : M FS (option gerr) :=
  s ← getS;
  let memory := orElse setMemoryList Some (mret None) in
  match statDir CGroupRoot s with
  | inl false => orElse (sys (mkdir CGroupRoot)) Some memory
  | _ => memory
  end.

Fixpoint disableFiles (l : list string) (k : M FS (option gerr)) : M FS (option gerr) :=
  match l with
  | [] => k
  | f :: l' => orElse (WriteToFile (path_join _ipcPath f) "0") Some (disableFiles l' k)
  end.

Definition disableIPC : M FS (option gerr) :=
  disableFiles _ipcFiles (orElse (WriteToFile (path_join _ipcPath _ipcSemFile) "0 0 0 0") Some (mret None)).

Definition InitSecurityCenter : M FS (option gerr) :=
  orElse (sys (chmod "/tmp/" 493)) Some (orElse setCGroup Some (orElse disableIPC Some (mret None))).

(** The files that are to be written, with their contents. *)
Definition hardening : list (string * string) :=
  [("/sys/fs/cgroup/memory/chainmaker/memory.limit_in_bytes", "52428800000");
   ("/sys/fs/cgroup/memory/chainmaker/memory.swappiness", "0");
   ("/proc/sys/kernel/shmmax", "0"); ("/proc/sys/kernel/shmall", "0"); ("/proc/sys/kernel/msgmax", "0");
   ("/proc/sys/kernel/msgmnb", "0"); ("/proc/sys/kernel/msgmni", "0"); ("/proc/sys/kernel/sem", "0 0 0 0")].

Fixpoint writeAll (l : list (string * string)) : M FS (option gerr) :=
  match l with
  | [] => mret None
  | (p, v) :: l' => orElse (WriteToFile p v) Some (writeAll l')
  end.

Lemma orElse_assoc {S} (a b : M S (option gerr)) (k : M S (option gerr)) s :
  orElse (orElse a Some b) Some k s = orElse a Some (orElse b Some k) s.
Proof. unfold orElse, mbind, M_bind. by destruct (a s) as [[[] ?]| |]. Qed.

Lemma orElse_none {S} (k : M S (option gerr)) s : orElse (mret None) Some k s = k s.
Proof. done. Qed.

Lemma orElse_ext {S} (a k k' : M S (option gerr)) s : (∀ s, k s = k' s) → orElse a Some k s = orElse a Some k' s.
Proof. intros Hk. unfold orElse, mbind, M_bind. destruct (a s) as [[[] ?]| |]; [done|apply Hk|done|done]. Qed.

Lemma writeAll_app l1 l2 s : writeAll (l1 ++ l2) s = orElse (writeAll l1) Some (writeAll l2) s.
Proof.
  revert s. induction l1 as [|[p v] l1 IH]; intros s; [done|].
  cbn [app writeAll]. rewrite orElse_assoc. by apply orElse_ext.
Qed.

Lemma orElse_right {S} (a : M S (option gerr)) s : orElse a Some (mret None) s = a s.
Proof. unfold orElse, mbind, M_bind. by destruct (a s) as [[[] ?]| |]. Qed.

Lemma orElse_ext_l {S} (a a' k : M S (option gerr)) s : a s = a' s → orElse a Some k s = orElse a' Some k s.
Proof. intros Ha. unfold orElse, mbind, M_bind. by rewrite Ha. Qed.

(** The directory of the control group is made if it is missing. *)
Definition ensureRoot : M FS (option gerr) :=
  s ← getS; match statDir CGroupRoot s with inl false => sys (mkdir CGroupRoot) | _ => mret None end.

Lemma setCGroup_writes s : setCGroup s = orElse ensureRoot Some (writeAll (take 2 hardening)) s.
Proof.
  assert (∀ s, orElse setMemoryList Some (mret None) s = writeAll (take 2 hardening) s) as Hm by (intros; by rewrite orElse_right).
  assert (ensureRoot s = match statDir CGroupRoot s with inl false => Ret (mkdir CGroupRoot s) | _ => Ret (None, s) end) as He.
  { unfold ensureRoot, mbind, M_bind, getS. destruct (statDir CGroupRoot s) as [[]|]; [done|apply sys_run|done]. }
  unfold orElse at 1, mbind at 1, M_bind at 1. rewrite He.
  unfold setCGroup, mbind, M_bind, getS. destruct (statDir CGroupRoot s) as [[]|]; [exact (Hm s)| |exact (Hm s)].
  rewrite orElse_run. destruct (mkdir CGroupRoot s) as [[] s1]; [done|exact (Hm s1)].
Qed.

(** The files are written in this order, and the first error ends it. *)
Lemma InitSecurityCenter_writes s : InitSecurityCenter s =
  orElse (sys (chmod "/tmp/" 493)) Some (orElse ensureRoot Some (writeAll hardening)) s.
Proof.
  apply orElse_ext. clear s. intros s.
  rewrite (orElse_ext_l _ _ _ _ (setCGroup_writes s)), orElse_assoc. apply orElse_ext. clear s. intros s.
  change hardening with (take 2 hardening ++ drop 2 hardening) at 2. rewrite writeAll_app. apply orElse_ext. intros s'.
  by rewrite orElse_right.
Qed.
End security.

Section hardened.
Context `{OS0 : OS}.

(** The contents of files: what was written is read, and writing one file leaves the others alone. *)
Context (readFile : string → FS → option string).
Context (law_write : ∀ p v s, (writeFile p v s).1 = None → readFile p (writeFile p v s).2 = Some v).
Context (law_write_other : ∀ p v q s, p ≠ q → readFile q (writeFile p v s).2 = readFile q s).

Lemma writeAll_run l : NoDup l.*1 → ∀ s, ∃ r s', writeAll l s = Ret (r, s') ∧
  (∀ q, q ∉ l.*1 → readFile q s' = readFile q s) ∧ (r = None → ∀ p v, (p, v) ∈ l → readFile p s' = Some v) ∧
  ((∀ p v s, (writeFile p v s).1 = None) → r = None).
Proof.
  induction l as [|[p v] l IH]; intros Hnd s.
  { exists None, s. split_and!; try done. intros _ p v H. by apply elem_of_nil in H. }
  cbn in Hnd. apply NoDup_cons in Hnd as [Hp Hnd]. cbn [writeAll]. unfold WriteToFile. rewrite orElse_run.
  pose proof (law_write p v s) as Hw. pose proof (λ q, law_write_other p v q s) as Ho.
  destruct (writeFile p v s) as [[e|] s1] eqn:E; cbn in Hw, Ho |- *.
  - exists (Some e), s1. split_and!; [done| |done|]; [intros q Hq; apply Ho; set_solver|]. intros Hall. specialize (Hall p v s). by rewrite E in Hall.
  - destruct (IH Hnd s1) as (r & s' & -> & Hoth & Hin & Hok). exists r, s'. split_and!; [done| | |done].
    + intros q Hq. rewrite Hoth by set_solver. apply Ho. set_solver.
    + intros Hr p' v' [[= -> ->]|Hl]%elem_of_cons; [by rewrite (Hoth p Hp), Hw|by apply Hin].
Qed.

(** The container is hardened or the engine is told. The initialisation of the security settings always
    returns; when it reports no error the memory limit, the swapping and every file of the kernel's interprocess
    communication have the contents that were meant; and it reports none when the system grants its calls. *)
Theorem security_established s : ∃ r s', InitSecurityCenter s = Ret (r, s') ∧
  (r = None → ∀ p v, (p, v) ∈ hardening → readFile p s' = Some v) ∧
  ((∀ p m s, (chmod p m s).1 = None) → (∀ p s, (mkdir p s).1 = None) → (∀ p v s, (writeFile p v s).1 = None) → r = None).
Proof.
  rewrite InitSecurityCenter_writes, orElse_run. destruct (chmod "/tmp/" 493 s) as [[e|] s1] eqn:Ec; cbn [fst snd].
  { exists (Some e), s1. split_and!; [done..|]. intros Hc. specialize (Hc "/tmp/" 493 s). by rewrite Ec in Hc. }
  assert (∃ r2 s2, ensureRoot s1 = Ret (r2, s2) ∧ ((∀ p s, (mkdir p s).1 = None) → r2 = None)) as (r2 & s2 & E2 & Hm).
  { unfold ensureRoot, mbind, M_bind, getS. destruct (statDir CGroupRoot s1) as [[]|]; [by do 2 eexists| |by do 2 eexists].
    rewrite sys_run. destruct (mkdir CGroupRoot s1) as [o s2] eqn:E. exists o, s2. split; [done|]. intros Hm.
    specialize (Hm CGroupRoot s1). by rewrite E in Hm. }
  unfold orElse, mbind, M_bind. rewrite E2. destruct r2 as [e|].
  { exists (Some e), s2. split_and!; [done..|]. intros _ Hm'. by specialize (Hm Hm'). }
  assert (NoDup hardening.*1) as Hnd by (apply (bool_decide_unpack _); vm_compute; exact I).
  destruct (writeAll_run hardening Hnd s2) as (r & s' & E & _ & Hin & Hok). exists r, s'. split_and!; [exact E|done|]. intros _ _ Hw. by apply Hok.
Qed.
End hardened.

(** ** vm_mgr/module/manager.go: NewManager *)

Inductive part := ContractManagerPart | OrigProcessManagerPart | CrossProcessManagerPart | SchedulerPart.

(** What [NewManager] has done: the parts whose goroutines run, the parts that know the scheduler, the servers, and
    the service of the chain, which is [None] as long as its scheduler is nil. *)
Record Boot `{OS0 : OS} := mkBoot {
  b_fs : FS;
  b_started : list part;
  b_wired : list part;
  b_chainServer : option rpcServer;
  b_sandboxServer : option rpcServer;
  b_service : option EngineServices.service;
}.
#[global] Arguments mkBoot {_}.

Section boot.
Context `{OS0 : OS} `{ProtocolConsts}.
Context (fuel : nat) (NumCPU : Z) (c : EngineConfig.conf).

(** The error of [core.NewContractManager()]. *)
Context (cmErr : option gerr).

Abbreviation MB A := (M Boot A).

Definition set_fs (s : FS) (b : Boot) : Boot := mkBoot s (b_started b) (b_wired b) (b_chainServer b) (b_sandboxServer b) (b_service b).
Definition start (x : part) (b : Boot) : Boot :=
  mkBoot (b_fs b) (b_started b ++ [x]) (b_wired b) (b_chainServer b) (b_sandboxServer b) (b_service b).
Definition wire (x : part) (b : Boot) : Boot :=
  mkBoot (b_fs b) (b_started b) (b_wired b ++ [x]) (b_chainServer b) (b_sandboxServer b) (b_service b).
Definition set_chainServer (s : option rpcServer) (b : Boot) : Boot :=
  mkBoot (b_fs b) (b_started b) (b_wired b) s (b_sandboxServer b) (b_service b).
Definition set_sandboxServer (s : option rpcServer) (b : Boot) : Boot :=
  mkBoot (b_fs b) (b_started b) (b_wired b) (b_chainServer b) s (b_service b).
Definition set_service (v : EngineServices.service) (b : Boot) : Boot :=
  mkBoot (b_fs b) (b_started b) (b_wired b) (b_chainServer b) (b_sandboxServer b) (Some v).

Definition just (f : Boot → Boot) : MB (option gerr) := modifyS f;; mret None.

(** A server is created, or the error is returned with a text. *)
Definition create (text : string) (new : M FS (rpcServer + gerr)) (set : option rpcServer → Boot → Boot) : MB (option gerr) :=
  b ← getS;
  match new (b_fs b) with
  | Ret (inl sv, s) => putS (set (Some sv) (set_fs s b));; mret None
  | Ret (inr e, s) => putS (set_fs s b);; mret (Some (Wrap text e))
  | Panic => panic
  | Block => block
  end.

Definition startOn (text : string) (get : Boot → option rpcServer) (set : option rpcServer → Boot → Boot) : MB (option gerr) :=
  b ← getS;
  sv ← deref (get b);
  match startServer sv with
  | Ret (None, sv') => putS (set (Some sv') b);; mret None
  | Ret (Some e, sv') => putS (set (Some sv') b);; mret (Some (Wrap text e))
  | Panic => panic
  | Block => block
  end.

(** The statements of [NewManager], in their order. *)
Definition stages : list (MB (option gerr)) :=
  [ deref (Users.NewUsersManager (EngineConfig.MaxOriginalProcessNum (EngineConfig.Process c)));; mret None;
    mret (Wrap "failed to new contract manager" <$> cmErr);
    just (start ContractManagerPart);
    just (start OrigProcessManagerPart);
    just (start CrossProcessManagerPart);
    create "failed to init new ChainRPCServer" (NewChainRPCServer fuel NumCPU c) set_chainServer;
    create "failed to init new SandboxRPCServer" (NewSandboxRPCServer fuel NumCPU c Users.SandboxRPCDir) set_sandboxServer;
    startOn "failed to start ChainRPCService" b_chainServer set_chainServer;
    startOn "failed to start SandboxRPCService" b_sandboxServer set_sandboxServer;
    just (wire OrigProcessManagerPart);
    just (wire CrossProcessManagerPart);
    just (wire ContractManagerPart);
    just (set_service (EngineServices.NewChainRPCService RequestScheduler.NewRequestScheduler));
    just (start SchedulerPart) ].

Fixpoint runStages (l : list (MB (option gerr))) : MB (option gerr) :=
  match l with
  | [] => mret None
  | m :: l' => orElse m Some (runStages l')
  end.

Definition newBoot (s : FS) : Boot := mkBoot s [] [] None None None.

(** [NewManager]: the error it returns, if any. *)
Definition NewManager : MB (option gerr) := runStages stages.

(** The chain's server accepts connections. *)
Definition serving (o : option rpcServer) : bool :=
  match o with
  | Some (mkServer _ (Some g)) => existsb (λ x, match x with GoServe _ => true | _ => false end) (gs_calls g)
  | _ => false
  end.

(** A message that a connection of the chain receives: the receiving goroutine hands it to the scheduler of the
    service. *)
Definition chainMessage (msg : DockerVMMessage) : MB unit :=
  b ← getS;
  if negb (serving (b_chainServer b)) then block
  else if EngineServices.chainType (m_Type msg) then
    v ← deref (b_service b);
    match EngineServices.toScheduler msg v with
    | Ret (_, v') => putS (set_service v' b)
    | Panic => panic
    | Block => block
    end
  else mret tt.

(** ** vm_mgr/main.go *)

(** The address of the profiling server, if it is enabled. *)
Definition startPProf : option string :=
  let p := EngineConfig.ContractEnginePprof (EngineConfig.Pprof c) in
  if EngineConfig.Enable p then Some (":" +:+ itoa (EngineConfig.Port p)) else None.
End boot.

(** [main]: a bad configuration is only a warning; without a manager the program ends, with one it goes on for ever. *)
Inductive mainResult := Exited (e : gerr) | Running.

Definition main `{OS0 : OS} `{ProtocolConsts} (fuel : nat) (NumCPU : Z) (cmErr : option gerr) (vp : EngineConfig.viperResult) (env : EngineConfig.environment)
    : M Boot (list gerr * option string * mainResult) :=
  let '(c, warnings) := EngineConfig.InitConfig vp env in
  err ← NewManager fuel NumCPU c cmErr;
  mret (warnings, startPProf c, match err with Some e => Exited e | None => Running end).

(** ** The window in which the service has no scheduler *)

Section window.
Context `{OS0 : OS} `{ProtocolConsts}.
Context (fuel : nat) (NumCPU : Z) (c : EngineConfig.conf) (cmErr : option gerr).

Definition after (k : nat) : M Boot (option gerr) := runStages (take k (stages fuel NumCPU c cmErr)).

Lemma runStages_app l1 l2 b : runStages (l1 ++ l2) b = orElse (runStages l1) Some (runStages l2) b.
Proof.
  revert b. induction l1 as [|m l1 IH]; intros b; [done|].
  cbn [app runStages]. rewrite orElse_assoc. by apply orElse_ext.
Qed.

Lemma orElse_None {S} (a k : M S (option gerr)) s s' : orElse a Some k s = Ret (None, s') ↔ ∃ s1, a s = Ret (None, s1) ∧ k s1 = Ret (None, s').
Proof.
  unfold orElse, mbind, M_bind. destruct (a s) as [[[e|] s1]| |]; split; try (intros (? & [=] & ?); by simplify_eq); try done.
  intros Hk. by exists s1.
Qed.

(** Every prefix of a successful start is successful. *)
Lemma after_prefix k b b' : NewManager fuel NumCPU c cmErr b = Ret (None, b') → ∃ b1, after k b = Ret (None, b1).
Proof.
  unfold NewManager, after. rewrite <-(take_drop k (stages fuel NumCPU c cmErr)) at 1. rewrite runStages_app, orElse_None.
  intros (b1 & E & _). by exists b1.
Qed.

Lemma after_S k m b b' : stages fuel NumCPU c cmErr !! k = Some m →
  after (S k) b = Ret (None, b') ↔ ∃ b1, after k b = Ret (None, b1) ∧ m b1 = Ret (None, b').
Proof.
  intros Hm. unfold after. assert (take (S k) (stages fuel NumCPU c cmErr) = take k (stages fuel NumCPU c cmErr) ++ [m]) as ->
    by (by apply take_S_r). rewrite runStages_app, orElse_None. cbn [runStages].
  split; intros (b1 & E & Hb); exists b1; (split; [done|]); by rewrite orElse_right in *.
Qed.

(** Where the start is after [k] statements, as far as the chain's server and service go. *)
Definition phase (k : nat) (b : Boot) : Prop :=
  match k with
  | 0 | 1 | 2 | 3 | 4 | 5 => b_chainServer b = None
  | 6 | 7 => ∃ o l, b_chainServer b = Some (newServer o l)
  | _ => serving (b_chainServer b) = true
  end%nat ∧
  b_service b = if (k <? 13)%nat then None else Some (EngineServices.NewChainRPCService RequestScheduler.NewRequestScheduler).

Lemma create_None text new set b b' : create text new set b = Ret (None, b') →
  ∃ sv s, new (b_fs b) = Ret (inl sv, s) ∧ b' = set (Some sv) (set_fs s b).
Proof.
  unfold create, mbind, M_bind, getS. destruct (new (b_fs b)) as [[[sv|e] s]| |]; intros [=]. by do 2 eexists.
Qed.

Lemma startOn_None text get set b b' : startOn text get set b = Ret (None, b') →
  ∃ sv sv', get b = Some sv ∧ startServer sv = Ret (None, sv') ∧ b' = set (Some sv') b.
Proof.
  unfold startOn, mbind, M_bind, getS. destruct (get b) as [sv|]; [|done]. cbn.
  destruct (startServer sv) as [[[e|] sv']| |] eqn:E; intros [=]. by do 2 eexists.
Qed.

Lemma NewChainRPCServer_new s sv s' : NewChainRPCServer fuel NumCPU c s = Ret (inl sv, s') → ∃ o l, sv = newServer o l.
Proof.
  unfold NewChainRPCServer. destruct (_ =? _).
  - rewrite orElse_run. destruct (listenTCP _ s) as [[] ?]; intros [=]. by do 2 eexists.
  - unfold orElse, mbind, M_bind. destruct (CreateDir _ s) as [[[] ?]| |]; try done.
    destruct (resolveUnixAddr _); [done|]. destruct (CreateUnixListener _ _ _) as [[[] ?]| |]; intros [=]. by do 2 eexists.
Qed.

Lemma phase_step k m b b' : stages fuel NumCPU c cmErr !! k = Some m → phase k b → m b = Ret (None, b') → phase (S k) b'.
Proof.
  intros Hm [Hc Hs]. destruct k as [|[|[|[|[|[|[|[|[|[|[|[|[|[|k]]]]]]]]]]]]]]; cbn in Hm; simplify_eq; intros E.
  all: try (injection E as <-; by split).
  - unfold mbind, M_bind in E. destruct (Users.NewUsersManager _); [|done]. injection E as <-. by split.
  - injection E as _ <-. by split.
  - apply create_None in E as (sv & s & E & ->). apply NewChainRPCServer_new in E as (o & l & ->). split; [by do 2 eexists|done].
  - apply create_None in E as (sv & s & E & ->). by split.
  - apply startOn_None in E as (sv & sv' & Hg & E & ->). destruct Hc as (o & l & Hc). rewrite Hc in Hg. injection Hg as <-.
    injection E as <-. by split.
  - apply startOn_None in E as (sv & sv' & Hg & E & ->). by split.
Qed.

Lemma after_phase k b b' : (k ≤ 14)%nat → phase 0 b → after k b = Ret (None, b') → phase k b'.
Proof.
  intros Hk H0. revert b'. induction k as [|k IH]; intros b' E; [by injection E as <-|].
  destruct (lookup_lt_is_Some_2 (stages fuel NumCPU c cmErr) k) as [m Hm]; [cbn; lia|].
  destruct (proj1 (after_S k m b b' Hm) E) as (b1 & E1 & Hb1). eapply phase_step; [done| |done]. apply IH; [lia|done].
Qed.

(** The chain's server answers before it can. In every start that succeeds there is a window, from the start of
    the chain's server to the statement that gives its service the scheduler, in which a transaction or a contract
    that the chain sends makes the engine panic; before the window no connection is accepted, and after it the
    message is handed to the scheduler. *)
Theorem startup_window s b' msg : NewManager fuel NumCPU c cmErr (newBoot s) = Ret (None, b') →
  EngineServices.chainType (m_Type msg) = true →
  ∀ k, (k ≤ 14)%nat → ∃ b, after k (newBoot s) = Ret (None, b) ∧
    ((k < 8)%nat → chainMessage msg b = Block) ∧
    ((8 ≤ k < 13)%nat → chainMessage msg b = Panic) ∧
    ((13 ≤ k)%nat → ∃ v, EngineServices.toScheduler msg (EngineServices.NewChainRPCService RequestScheduler.NewRequestScheduler) = Ret (tt, v) ∧
       chainMessage msg b = Ret (tt, set_service v b)).
Proof.
  intros E Ht k Hk. destruct (after_prefix k _ _ E) as [b Eb]. exists b. split; [done|].
  assert (phase 0 (newBoot s)) as H0 by done. destruct (after_phase k _ _ Hk H0 Eb) as [Hc Hs].
  assert (∃ v, EngineServices.toScheduler msg (EngineServices.NewChainRPCService RequestScheduler.NewRequestScheduler) = Ret (tt, v)) as [v Hv].
  { destruct msg as [? [] ? ? ? ? ? ?]; try done; by eexists. }
  unfold chainMessage, mbind, M_bind, getS. cbn [fst snd]. rewrite Hs, Ht.
  do 15 (destruct k as [|k]; [cbn in Hc; try (destruct Hc as (o & l & Hc)); rewrite Hc; cbn;
    (split_and!; [lia || done|lia || done|intros ?; (lia || (exists v; rewrite Hv; done))])|]). lia.
Qed.
End window.

(** ** InitContainer *)

(** Where the goroutine of [InitContainer] is, and the goroutine it starts for the users. *)
Inductive mainPc := MSecurity | MSend | MSpawn | MRecv | MLog | MStopChain | MStopSandbox | MClose | MEnd.
Inductive usersPc := UNone | UCreate | UTest | USend | UEnd.

(** The variable [err] and the channel [errorC] are shared by the two goroutines. *)
Record Container := mkContainerState {
  k_err : option gerr;
  k_errorC : list (option gerr);
  k_closed : bool;
  k_main : mainPc;
  k_users : usersPc;
  k_chainServer : rpcServer;
  k_sandboxServer : rpcServer;
  k_logged : list gerr;
}.

Definition at_main (m : mainPc) (k : Container) : Container :=
  mkContainerState (k_err k) (k_errorC k) (k_closed k) m (k_users k) (k_chainServer k) (k_sandboxServer k) (k_logged k).
Definition at_users (u : usersPc) (k : Container) : Container :=
  mkContainerState (k_err k) (k_errorC k) (k_closed k) (k_main k) u (k_chainServer k) (k_sandboxServer k) (k_logged k).
Definition set_err (e : option gerr) (k : Container) : Container :=
  mkContainerState e (k_errorC k) (k_closed k) (k_main k) (k_users k) (k_chainServer k) (k_sandboxServer k) (k_logged k).
Definition set_errorC (l : list (option gerr)) (k : Container) : Container :=
  mkContainerState (k_err k) l (k_closed k) (k_main k) (k_users k) (k_chainServer k) (k_sandboxServer k) (k_logged k).

Definition NewContainer (chain sandbox : rpcServer) : Container := mkContainerState None [] false MSecurity UNone chain sandbox [].

(** A send on the channel, whose capacity is one. *)
Definition sendErr (next : Container → Container) : M Container unit :=
  k ← getS;
  if k_closed k then panic
  else if (length (k_errorC k) <? 1)%nat then putS (next (set_errorC (k_errorC k ++ [k_err k]) k)) else block.

(** [StopManager], one of its two calls at a time. *)
Definition StopManager (k : Container) : M Container unit :=
  match k_main k with
  | MStopChain =>
    match StopChainRPCServer (k_chainServer k) with
    | Ret (_, s) => putS (mkContainerState (k_err k) (k_errorC k) (k_closed k) MStopSandbox (k_users k) s (k_sandboxServer k) (k_logged k))
    | Panic => panic
    | Block => block
    end
  | _ =>
    match StopSandboxRPCServer (k_sandboxServer k) with
    | Ret (_, s) => putS (mkContainerState (k_err k) (k_errorC k) (k_closed k) MClose (k_users k) (k_chainServer k) s (k_logged k))
    | Panic => panic
    | Block => block
    end
  end.

(** One step of [InitContainer]; [security] is the outcome of [InitSecurityCenter]. *)
Definition InitContainer (security : option gerr) : M Container unit :=
  k ← getS;
  match k_main k with
  | MSecurity => putS (at_main (match security with Some _ => MSend | None => MSpawn end) (set_err security k))
  | MSend => sendErr (at_main MSpawn)
  | MSpawn => putS (at_users UCreate (at_main MRecv k))
  | MRecv =>
    match k_errorC k with
    | e :: l => putS (at_main MLog (set_err e (set_errorC l k)))
    | [] => if k_closed k then putS (at_main MLog (set_err None k)) else block
    end
  | MLog =>
    putS (mkContainerState (k_err k) (k_errorC k) (k_closed k) MStopChain (k_users k) (k_chainServer k) (k_sandboxServer k)
      (k_logged k ++ option_list (k_err k)))
  | MStopChain | MStopSandbox => StopManager k
  | MClose =>
    if k_closed k then panic
    else putS (mkContainerState (k_err k) (k_errorC k) true MEnd (k_users k) (k_chainServer k) (k_sandboxServer k) (k_logged k))
  | MEnd => block
  end.

(** One step of the goroutine that creates the users: [BatchCreateUsers] returns nil, whatever became of the users. *)
Definition createUsers : M Container unit :=
  k ← getS;
  match k_users k with
  | UNone | UEnd => block
  | UCreate => putS (at_users UTest (set_err None k))
  | UTest => putS (at_users (match k_err k with Some _ => USend | None => UEnd end) k)
  | USend => sendErr (at_users UEnd)
  end.

Inductive containerStep (security : option gerr) : Container → Container → Prop :=
| container_main k k' : InitContainer security k = Ret (tt, k') → containerStep security k k'
| container_users k k' : createUsers k = Ret (tt, k') → containerStep security k k'.

Section container.
Context (chain sandbox : rpcServer).

Definition started (security : option gerr) : Container → Prop := rtc (containerStep security) (NewContainer chain sandbox).

(** Without an error of the security settings nothing is ever sent. *)
Definition quiet (k : Container) : Prop :=
  k_err k = None ∧ k_errorC k = [] ∧ k_closed k = false ∧ k_chainServer k = chain ∧ k_sandboxServer k = sandbox ∧
  match k_main k with
  | MSecurity | MSpawn => k_users k = UNone
  | MRecv => k_users k = UCreate ∨ k_users k = UTest ∨ k_users k = UEnd
  | _ => False
  end.

Definition stopped (s : rpcServer) : rpcServer := mkServer (Listener s) (call [StopServer] <$> Server s).

(** With one, the goroutine goes through its statements; what it has stopped and closed follows from where it is. *)
Definition stopping (e : gerr) (k : Container) : Prop :=
  k_chainServer k = (match k_main k with MStopSandbox | MClose | MEnd => stopped chain | _ => chain end) ∧
  k_sandboxServer k = (match k_main k with MClose | MEnd => stopped sandbox | _ => sandbox end) ∧
  k_closed k = (match k_main k with MEnd => true | _ => false end) ∧
  match k_main k with
  | MSecurity => k_errorC k = [] ∧ k_users k = UNone
  | MSend => k_errorC k = [] ∧ k_users k = UNone ∧ k_err k = Some e
  | MSpawn => k_errorC k = [Some e] ∧ k_users k = UNone
  | MRecv => k_errorC k = [Some e]
  | _ => True
  end.

Definition rank (m : mainPc) : nat :=
  match m with
  | MSecurity => 8 | MSend => 7 | MSpawn => 6 | MRecv => 5 | MLog => 4 | MStopChain => 3 | MStopSandbox => 2 | MClose => 1 | MEnd => 0
  end.

Lemma quiet_step k k' : quiet k → containerStep None k k' → quiet k'.
Proof.
  destruct k as [err ch cl m u cs ss lg]. intros (? & ? & ? & ? & ? & Hm) Hstep. cbn in *. subst.
  inversion Hstep as [? ? E|? ? E]; subst; [destruct m|destruct u]; cbn in *; try done; try (injection E as <-);
    unfold quiet; cbn; split_and!; try done; try naive_solver; destruct m; naive_solver.
Qed.

(** The goroutine of the users leaves the other alone. *)
Lemma createUsers_inv k k' : createUsers k = Ret (tt, k') →
  k_users k ≠ UNone ∧ k_main k' = k_main k ∧ k_closed k' = k_closed k ∧ k_chainServer k' = k_chainServer k ∧
  k_sandboxServer k' = k_sandboxServer k ∧ (k_errorC k ≠ [] → k_errorC k' = k_errorC k).
Proof.
  unfold createUsers, sendErr, mbind, M_bind, getS. destruct (k_users k); try done; try (intros [= <-]; by split_and!).
  cbn. destruct (k_closed k) eqn:Hc; [done|]. destruct (k_errorC k); [|done]. intros [= <-]. by split_and!.
Qed.

Lemma stopping_step e k k' : stopping e k → containerStep (Some e) k k' → stopping e k'.
Proof.
  intros HI Hstep. inversion_clear Hstep as [? ? E|? ? E].
  - destruct k as [err ch cl m u cs ss lg]. destruct HI as (Hc & Hs & Hcl & Hm). cbn in *.
    destruct m; cbn in *; destruct_and?; subst; cbn in *; try discriminate E; injection E as <-; unfold stopping; cbn; by split_and!.
  - destruct HI as (Hc & Hs & Hcl & Hm). apply createUsers_inv in E as (Hu & Em & Ec & Ecs & Ess & Hch).
    unfold stopping. rewrite Em, Ec, Ecs, Ess. split_and!; try done. destruct (k_main k); try (exfalso; naive_solver); try done.
    rewrite Hch; [done|by rewrite Hm].
Qed.

(** The goroutine of [InitContainer] always has a next step until it has stopped the servers. *)
Lemma stopping_moves e k : stopping e k → k_main k ≠ MEnd →
  ∃ k', InitContainer (Some e) k = Ret (tt, k') ∧ (rank (k_main k') < rank (k_main k))%nat.
Proof.
  destruct k as [err ch cl m u cs ss lg]. intros (Hc & Hs & Hcl & Hm) Hend. cbn in *.
  destruct m; cbn in *; destruct_and?; subst; try done; eexists; (split; [done|cbn; lia]).
Qed.

(** [C26] The servers stop exactly when the container could not be hardened. If the security settings succeed, then
    however the two goroutines interleave none panics, the servers are never stopped and [InitContainer] ends up
    waiting, also when no user could be created. If they fail, [InitContainer] goes on without ever waiting until it
    has stopped each server once and closed the channel. *)
Theorem container_lifecycle security k : started security k →
  match security with
  | None => k_chainServer k = chain ∧ k_sandboxServer k = sandbox ∧ InitContainer security k ≠ Panic ∧ createUsers k ≠ Panic ∧
      ((∀ k', ¬ containerStep security k k') → k_main k = MRecv ∧ k_users k = UEnd)
  | Some _ => 
      (k_main k ≠ MEnd → ∃ k', InitContainer security k = Ret (tt, k') ∧ (rank (k_main k') < rank (k_main k))%nat) ∧
      (k_main k = MEnd → k_chainServer k = stopped chain ∧ k_sandboxServer k = stopped sandbox ∧ k_closed k = true)
  end.
Proof.
  intros Hr. destruct security as [e|].
  - assert (stopping e k) as HI.
    { assert (stopping e (NewContainer chain sandbox)) as H0 by (by split_and!).
      induction Hr as [|k1 k2 k3 Hs _ IH]; [done|]. eauto using stopping_step. }
    split; [by apply stopping_moves|]. destruct HI as (Hc & Hs & Hcl & _). intros Hm. by rewrite Hm in *.
  - assert (quiet k) as HI.
    { assert (quiet (NewContainer chain sandbox)) as H0 by (by split_and!).
      induction Hr as [|k1 k2 k3 Hs _ IH]; [done|]. eauto using quiet_step. }
    destruct k as [err ch cl m u cs ss lg]. destruct HI as (? & ? & ? & ? & ? & Hm). cbn in *. subst.
    split_and!; [done|done|by destruct m|by destruct u|]. intros Hstuck.
    destruct m; try done; try (subst u; edestruct Hstuck; by constructor).
    destruct Hm as [->|[->| ->]]; [edestruct Hstuck; by apply container_users..|done].
Qed.

(** When the settings fail, the goroutine of the users can find the error that [InitContainer] has just read in the
    shared variable, and send it on the channel that has been closed meanwhile. *)
Theorem late_error_panics e : ∃ k, started (Some e) k ∧ createUsers k = Panic.
Proof.
  eexists. split.
  - do 3 (eapply rtc_l; [by apply container_main|]). eapply rtc_l; [by apply container_users|].
    eapply rtc_l; [by apply container_main|]. eapply rtc_l; [by apply container_users|].
    do 4 (eapply rtc_l; [by apply container_main|]). apply rtc_refl.
  - done.
Qed.
End container.

(** ** Runs *)

(** A system of files with contents. *)
Definition contentsFS : FileSystem := {|
  FS := gmap string string;
  statDir p s := inl (bool_decide (is_Some (s !! p)));
  mkdirAll d s := (None, <[ d := "" ]> s);
|}.

Definition contentsOS : OS := {|
  os_fs := contentsFS;
  mkdir p s := (None, <[ p := "" ]> s);
  remove p s := (None, delete p s);
  chmod p m s := (None, s);
  writeFile p v s := (None, <[ p := v ]> s);
  resolveUnixAddr p := None;
  resolveTCPAddr p := None;
  listenUnix p s := (None, <[ p := "" ]> s);
  listenTCP p s := (None, s);
|}.

Definition contents (p : string) (s : gmap string string) : option string := s !! p.

Lemma security_established_witness :
  ∃ s', InitSecurityCenter (OS0 := contentsOS) ∅ = Ret (None, s') ∧ contents "/proc/sys/kernel/sem" s' = Some "0 0 0 0".
Proof.
  destruct (security_established (OS0 := contentsOS) contents
    (λ p v s _, lookup_insert_eq (M := gmap string) s p v) (λ p v q s H, lookup_insert_ne (M := gmap string) s p q v H) ∅)
    as (r & s' & E & Hin & Hok).
  assert (r = None) as -> by (by apply Hok). exists s'. split; [exact E|]. apply Hin; [done|]. apply (bool_decide_unpack _). vm_compute. exact I.
Defined.

Definition sampleTx : DockerVMMessage := mkMessage "tx" TX_REQUEST None None None None "chain" [].

Lemma startup_window_witness :
  ∃ b, after (OS0 := sampleOS) (H := sampleConsts) 2 8 EngineConfig.setDefaultConfigs None 9 (newBoot ∅) = Ret (None, b) ∧ chainMessage sampleTx b = Panic.
Proof.
  assert (match NewManager (OS0 := sampleOS) (H := sampleConsts) 2 8 EngineConfig.setDefaultConfigs None (newBoot ∅) with
          | Ret (None, _) => true | _ => false end = true) as Hok by (vm_compute; reflexivity).
  destruct (NewManager (OS0 := sampleOS) (H := sampleConsts) 2 8 EngineConfig.setDefaultConfigs None (newBoot ∅)) as [[[e|] b']| |] eqn:E0;
    [discriminate Hok| |discriminate Hok..].
  destruct (startup_window (OS0 := sampleOS) (H := sampleConsts) 2 8 EngineConfig.setDefaultConfigs None ∅ b' sampleTx E0 eq_refl 9 ltac:(lia))
    as (b & E & _ & Hp & _).
  exists b. split; [exact E|]. apply Hp. lia.
Defined.

Definition sampleServer : rpcServer :=
  newServer (engineOptions 8 EngineConfig.setDefaultConfigs) (TCPListener ":22351").

Lemma stopped_run chain sandbox e : ∃ k, started chain sandbox (Some e) k ∧ k_main k = MEnd.
Proof. eexists. split; [do 8 (eapply rtc_l; [by apply container_main|]); apply rtc_refl|done]. Qed.

Lemma container_lifecycle_witness :
  ∃ k, started sampleServer sampleServer (Some (Err "read-only file system")) k ∧ k_main k = MEnd ∧
    k_chainServer k = stopped sampleServer.
Proof.
  destruct (stopped_run sampleServer sampleServer (Err "read-only file system")) as (k & Hk & Hend). exists k. split_and!; [done|done|].
  by apply (container_lifecycle sampleServer sampleServer (Some (Err "read-only file system")) k Hk).
Defined.
End Startup.
