(* ===== verification/Logger.v ===== *)
(** * vm_mgr/logger/logger.go: the loggers of the engine, and the log of a sandbox

    The variables that the first logger sets, the level that all loggers share, what a logger is made of, and
    [printContractLog] of process.go, which writes the output of a sandbox line by line. *)

From S2P Require Import Prelude Messages EngineConfig.

Module Logger.

Definition DockerLogDir : string := "/log".
Definition LogFileName : string := "go.log".
Definition MODULE_CONTRACT : string := "[Contract]".
Definition MODULE_TEST : string := "[Test]".
Definition maxAge : Z := 365.
Definition rotationTime : Z := 1.

(** The levels of zap. *)
Definition DebugLevel : Z := -1.
Definition InfoLevel : Z := 0.
Definition ErrorLevel : Z := 2.
Definition FatalLevel : Z := 5.

(** [Level.UnmarshalText]: the level of a text, [None] for an error; documented to be one of the levels. *)
Class LevelText := { UnmarshalText : string → option Z }.
Class LevelTextLaws `{LevelText} : Prop := { law_level s l : UnmarshalText s = Some l → DebugLevel ≤ l ≤ FatalLevel }.

(** The variables of the package. *)
Record vars := mkVars {
  logLevelFromConfig : string;
  logPathFromConfig : string;
  displayInConsoleFromConfig : bool;
  showLineFromConfig : bool;
  logLevel : Z;
  logLevelInitialized : bool;
}.

Definition initialVars : vars := mkVars "" "" false false 0 false.

(** The keys of an encoder; the empty key leaves a part of an entry out. The encoders of the parts are the same for
    both kinds. *)
Record encoder := mkEncoder {
  TimeKey : string;
  LevelKey : string;
  NameKey : string;
  CallerKey : string;
  MessageKey : string;
  StacktraceKey : string;
}.

Definition getEncoder : encoder := mkEncoder "time" "level" "logger" "line" "msg" "stacktrace".
Definition getContractEncoder : encoder := mkEncoder "" "" "" "" "msg" "stacktrace".

(** The rotating file: its pattern, the link to the current one, the hours between rotations and until removal. *)
Record rotation := mkRotation { rt_pattern : string; rt_link : string; rt_rotationHours : Z; rt_maxAgeHours : Z }.

Record writer := mkWriter { wr_console : bool; wr_file : rotation }.

Definition getLogWriter (v : vars) : writer :=
  mkWriter (displayInConsoleFromConfig v)
    (mkRotation (logPathFromConfig v +:+ ".%Y%m%d%H") (logPathFromConfig v) rotationTime (24 * maxAge)).

Record logger := mkLogger { lg_name : string; lg_encoder : encoder; lg_writer : writer; lg_level : Z; lg_caller : bool }.

Definition GenerateProcessLoggerName (name : string) : string := "[Process " +:+ name +:+ "]".
Definition GenerateRequestGroupLoggerName (name : string) : string := "[Request Group " +:+ name +:+ "]".

Section logger.
Context `{LevelText}.

Definition InitialConfig (c : EngineConfig.conf) (logPath : string) : M vars unit :=
  modifyS (λ v, mkVars (EngineConfig.Level (EngineConfig.ContractEngineLog (EngineConfig.Log c))) (path_join logPath LogFileName)
    (EngineConfig.Console (EngineConfig.ContractEngineLog (EngineConfig.Log c))) true (logLevel v) (logLevelInitialized v)).

(** [GetLogLevel()]: the first call decides. *)
Definition GetLogLevel : M vars Z :=
  v ← getS;
  if logLevelInitialized v then mret (logLevel v)
  else
    let l := default InfoLevel (UnmarshalText (logLevelFromConfig v)) in
    let l := if ErrorLevel <? l then ErrorLevel else l in
    putS (mkVars (logLevelFromConfig v) (logPathFromConfig v) (displayInConsoleFromConfig v) (showLineFromConfig v) l true);;
    mret l.

Definition newDockerLogger (c : EngineConfig.conf) (name path : string) : M vars logger :=
  InitialConfig c path;;
  v ← getS;
  let enc := if String.eqb name MODULE_CONTRACT then getContractEncoder else getEncoder in
  let w := getLogWriter v in
  level ← GetLogLevel;
  v ← getS;
  mret (mkLogger name enc w level (showLineFromConfig v)).

Definition NewDockerLogger (c : EngineConfig.conf) (name : string) : M vars logger := newDockerLogger c name DockerLogDir.

Definition NewTestDockerLogger (c : EngineConfig.conf) (cwd : string) : M vars logger := newDockerLogger c MODULE_TEST (cwd +:+ "/").

(** [DebugDynamic]: the text is only made at the level of debugging. *)
Definition DebugDynamic (v : vars) (getStr : unit → string) : option string :=
  if logLevel v =? DebugLevel then Some (getStr tt) else None.

(** ** The level *)

(** The loggers that are made one after another, each with the configuration of its time. *)
Fixpoint makeLoggers (l : list (EngineConfig.conf * string)) : M vars (list logger) :=
  match l with
  | [] => mret []
  | (c, name) :: l' => lg ← NewDockerLogger c name; lgs ← makeLoggers l'; mret (lg :: lgs)
  end.

(** The level of the first configuration: that of its text, or of information, and never above errors. *)
Definition levelOf (c : EngineConfig.conf) : Z :=
  Z.min ErrorLevel (default InfoLevel (UnmarshalText (EngineConfig.Level (EngineConfig.ContractEngineLog (EngineConfig.Log c))))).

Lemma GetLogLevel_settled v : logLevelInitialized v = true → GetLogLevel v = Ret (logLevel v, v).
Proof. intros Hv. unfold GetLogLevel, mbind, M_bind, getS. by rewrite Hv. Qed.

Lemma NewDockerLogger_settled c name v : logLevelInitialized v = true →
  ∃ lg v', NewDockerLogger c name v = Ret (lg, v') ∧ lg_level lg = logLevel v ∧ lg_name lg = name ∧
    logLevel v' = logLevel v ∧ logLevelInitialized v' = true.
Proof.
  intros Hv. unfold NewDockerLogger, newDockerLogger, InitialConfig, mbind, M_bind, modifyS, getS. cbn [fst snd].
  rewrite GetLogLevel_settled by done. by do 2 eexists.
Qed.

Lemma makeLoggers_settled l : ∀ v, logLevelInitialized v = true →
  ∃ lgs v', makeLoggers l v = Ret (lgs, v') ∧ lg_name <$> lgs = l.*2 ∧ Forall (λ lg, lg_level lg = logLevel v) lgs ∧ logLevel v' = logLevel v.
Proof.
  induction l as [|[c name] l IH]; intros v Hv; [by exists [], v|].
  destruct (NewDockerLogger_settled c name v Hv) as (lg & v1 & E1 & Hl & Hn & Hv1 & Hi).
  destruct (IH v1 Hi) as (lgs & v2 & E2 & Hns & Hls & Hv2). exists (lg :: lgs), v2.
  cbn [makeLoggers]. unfold mbind at 1, M_bind at 1. rewrite E1. unfold mbind at 1, M_bind at 1. rewrite E2.
  split_and!; [done|cbn; by rewrite Hn, Hns| |by rewrite Hv2]. constructor; [done|]. by rewrite Hv1 in Hls.
Qed.

(** All loggers have one level, which can only report: it is the level of the configuration in force when the
    first logger is made, whatever later configurations say, and between debugging and errors, so that neither a
    logger nor the copy of a sandbox's output is ever written at a level that ends the program. *)
Theorem log_level_settled `{!LevelTextLaws} c name l : ∃ lgs v, makeLoggers ((c, name) :: l) initialVars = Ret (lgs, v) ∧
  lg_name <$> lgs = name :: l.*2 ∧ Forall (λ lg, lg_level lg = levelOf c) lgs ∧ logLevel v = levelOf c ∧
  DebugLevel ≤ levelOf c ≤ ErrorLevel.
Proof.
  assert (DebugLevel ≤ levelOf c ≤ ErrorLevel) as Hb.
  { unfold levelOf. destruct (UnmarshalText _) as [x|] eqn:E; cbn; [apply law_level in E|]; unfold DebugLevel, ErrorLevel, FatalLevel, InfoLevel in *; lia. }
  set (v1 := mkVars (EngineConfig.Level (EngineConfig.ContractEngineLog (EngineConfig.Log c))) (path_join DockerLogDir LogFileName)
    (EngineConfig.Console (EngineConfig.ContractEngineLog (EngineConfig.Log c))) true (levelOf c) true).
  assert (∃ lg, NewDockerLogger c name initialVars = Ret (lg, v1) ∧ lg_level lg = levelOf c ∧ lg_name lg = name) as (lg & E1 & Hl & Hn).
  { unfold NewDockerLogger, newDockerLogger, InitialConfig, GetLogLevel, mbind, M_bind, modifyS, getS, putS, mret, M_ret. cbn -[Z.ltb Z.min].
    assert (∀ z, (if ErrorLevel <? z then ErrorLevel else z) = Z.min ErrorLevel z) as Hmin by (intros z; destruct (Z.ltb_spec ErrorLevel z); lia).
    rewrite Hmin. by eexists. }
  destruct (makeLoggers_settled l v1 eq_refl) as (lgs & v & E & Hns & Hls & Hv). exists (lg :: lgs), v.
  cbn [makeLoggers]. unfold mbind at 1, M_bind at 1. rewrite E1. unfold mbind at 1, M_bind at 1. rewrite E.
  split_and!; [done|cbn; by rewrite Hn, Hns|by constructor|done|apply Hb..].
Qed.
End logger.

(** ** process.go: the output of a sandbox *)

Definition newline : ascii := Ascii.ascii_of_nat 10.

(** [ReadString('\n')] on what the sandbox has still to say: the text up to and with the next newline, and what
    follows; without one the rest comes with an error. *)
Fixpoint ReadString (s : string) : string * option string :=
  match s with
  | EmptyString => ("", None)
  | String a s' =>
    if Ascii.eqb a newline then (String a "", Some s')
    else let '(l, r) := ReadString s' in (String a l, r)
  end.

(** [strings.TrimSuffix(str, "\n")]. *)
Fixpoint TrimNewline (s : string) : string :=
  match s with
  | EmptyString => EmptyString
  | String a EmptyString => if Ascii.eqb a newline then EmptyString else s
  | String a s' => String a (TrimNewline s')
  end.

Definition errText (e : gerr) : string := match e with Err m => m | Wrap m _ => m end.

(** [printContractLog]: the entries with their levels; [readErr] is an error other than the end of the pipe. *)
Fixpoint printContractLog (fuel : nat) (level : Z) (readErr : option gerr) (out : string) : option (list (Z * string)) :=
  match fuel with
  | O => None
  | S fuel' =>
    match ReadString out with
    | (_, None) => Some ((λ e, (InfoLevel, errText e)) <$> option_list readErr)
    | (str, Some rest) => l ← printContractLog fuel' level readErr rest; Some ((level, TrimNewline str) :: l)
    end
  end.

Definition line (l : string) : string := l +:+ String newline "".

Fixpoint print (ls : list string) (rest : string) : string :=
  match ls with [] => rest | l :: ls' => l +:+ String newline (print ls' rest) end.

Lemma ReadString_line l s : has_char newline l = false → ReadString (l +:+ String newline s) = (line l, Some s).
Proof.
  induction l as [|a l IH]; [done|]. cbn [has_char]. intros [Ha Hl]%orb_false_iff. rewrite str_app_cons. cbn [ReadString].
  rewrite Ha, (IH Hl). done.
Qed.

Lemma ReadString_rest s : has_char newline s = false → ReadString s = (s, None).
Proof.
  induction s as [|a s IH]; [done|]. cbn [has_char ReadString]. intros [Ha Hs]%orb_false_iff. by rewrite Ha, (IH Hs).
Qed.

Lemma Trim_line l : TrimNewline (line l) = l.
Proof.
  unfold line. induction l as [|a l IH]; [done|]. rewrite str_app_cons. cbn [TrimNewline]. rewrite IH.
  destruct l; done.
Qed.

(** Every line that a sandbox has printed is logged, in order and without its newline; what it printed after the last
    newline is not. *)
Theorem contract_log_lines ls rest level readErr fuel : Forall (λ l, has_char newline l = false) ls → has_char newline rest = false →
  (length ls < fuel)%nat →
  printContractLog fuel level readErr (print ls rest) =
    Some (((λ l, (level, l)) <$> ls) ++ ((λ e, (InfoLevel, errText e)) <$> option_list readErr)).
Proof.
  intros Hls Hr. revert fuel. induction Hls as [|l ls Hl _ IH]; intros [|fuel] Hf; cbn in Hf; try lia.
  - cbn. by rewrite (ReadString_rest rest Hr).
  - cbn [print printContractLog]. rewrite (ReadString_line l _ Hl), IH by lia. cbn. by rewrite Trim_line.
Qed.

Lemma contract_log_lines_witness :
  printContractLog 3 InfoLevel None (print ["hello"; "world"] "lost") = Some [(InfoLevel, "hello"); (InfoLevel, "world")].
Proof.
  apply (contract_log_lines ["hello"; "world"] "lost" InfoLevel None 3); [by repeat constructor|done|cbn; lia].
Defined.

(** ** The names of zap's levels *)

Definition zapLevels : LevelText := {|
  UnmarshalText s :=
    if String.eqb s "debug" || String.eqb s "DEBUG" then Some (-1)
    else if String.eqb s "info" || String.eqb s "INFO" || String.eqb s "" then Some 0
    else if String.eqb s "warn" || String.eqb s "WARN" then Some 1
    else if String.eqb s "error" || String.eqb s "ERROR" then Some 2
    else if String.eqb s "dpanic" || String.eqb s "DPANIC" then Some 3
    else if String.eqb s "panic" || String.eqb s "PANIC" then Some 4
    else if String.eqb s "fatal" || String.eqb s "FATAL" then Some 5
    else None
|}.

Lemma zapLevels_laws : @LevelTextLaws zapLevels.
Proof.
  constructor. intros s l. unfold DebugLevel, FatalLevel. cbn.
  repeat (destruct (_ || _); [intros [= <-]; lia|]). done.
Qed.

Lemma log_level_settled_witness : ∃ lgs v,
  makeLoggers (H := zapLevels) [(EngineConfig.setDefaultConfigs, "[Manager]"); (EngineConfig.setDefaultConfigs, "[Contract]")] initialVars = Ret (lgs, v) ∧
  Forall (λ lg, lg_level lg = InfoLevel) lgs ∧ logLevel v = InfoLevel.
Proof.
  destruct (log_level_settled (H := zapLevels) (H0 := zapLevels_laws) EngineConfig.setDefaultConfigs "[Manager]"
    [(EngineConfig.setDefaultConfigs, "[Contract]")]) as (lgs & v & E & _ & Hl & Hv & _).
  by exists lgs, v.
Defined.
End Logger.
